(* ===== verification/_CoqProject ===== *)
-Q . S2P
Prelude.v
Errors.v
BigEndian.v
Frame.v
Codec.v
Conn.v
PeerConfig.v
Outbound.v
Scheduler.v
Correlation.v
Inbound.v
Peer.v
PeerRun.v
PtyTypes.v
Attachment.v
Subscription.v
History.v
Manager.v
ManagerRun.v
ManagerSpec.v
SessionIO.v
Bridge.v
Cursor.v
Protocol.v
ProtocolHandlers.v
ProtocolSpec.v
Paging.v
ReplayFraming.v
ManagerClient.v
ProtocolDemo.v
UnixPty.v
WindowsPty.v
WindowsStart.v
AttachStream.v
PeerLink.v
PeerClose.v
UnixLegacy.v
PtyBackend.v
SessionOps.v
ManagerClose.v
SessionKill.v
ProtocolLife.v
