(* ===== verification/Prelude.v ===== *)
(** A verification of streammux (src/*.go) and its package pty (src/pty/).

    streammux multiplexes framed messages over one byte stream: a codec, a
    connection that serialises writers, and a peer that schedules outbound
    requests, correlates responses and runs inbound handlers per stream. Package
    pty runs terminal sessions on top of it: a Manager of sessions with output
    history, attachments and observers; a protocol that exposes the Manager to the
    clients of a peer; a bridge for single processes; and the Unix and Windows
    backends. This library models that code definition by definition and proves
    what makes it correct.

    ** Files, and the code they model

    - Prelude: machine integers, lengths, sums, loops with a bound, strings, the
      tactics and the hint databases [mux]. Errors: Go error values, [errors.Is].
      BigEndian: encoding/binary.
    - Frame (frame.go, Config of codec.go), Codec (codec.go): headers, validation,
      encoder and decoder over io.Reader and io.Writer, which are type classes with
      laws.
    - Conn (conn.go): senders, the write loop and Close of one connection.
    - PeerConfig, Outbound, Scheduler, Correlation, Inbound, Peer, PeerRun
      (peer.go): configuration; bounded outbound queues and their properties under
      weighted round robin; pending and cancelled requests; registration, dispatch
      and the workers of inbound streams; the critical sections of [Peer]; and all
      its goroutines interleaved. PeerClose: [Close] with its waits. PeerLink: two
      peers, the connection of the first and the transport composed.
    - PtyTypes (pty/pty.go, pty/size_codec.go, ManagerConfig of pty/manager.go).
    - Attachment, Subscription, History, Manager, ManagerRun, ManagerSpec,
      SessionIO, ManagerClient, SessionOps, ManagerClose, SessionKill
      (pty/manager.go): the queue and worker of one
      attachment and of one observer; the history limits; the critical sections of
      the Manager; their interleavings with their invariant; the theorems on them;
      the loops that move bytes between a process and its session; the operations
      composed, as the instance of the interface [ManagerAPI]; an operation on many
      sessions at once; [Close] with its waits; and the callers of [Kill] and
      [Wait]. [Workers], in the state of ManagerRun, are the goroutines
      [Manager.workers] counts; the waits for them ([allAttachmentsDone] in [run],
      Attachment.Done in [finishRetainedRemoval], workers.Wait in [Close]) are guards
      of the steps that follow those waits.
    - Bridge (pty/bridge.go).
    - Cursor, Protocol, ProtocolHandlers, ProtocolSpec, Paging, ReplayFraming,
      ProtocolDemo (pty/protocol.go): list cursors; types, registration and checks;
      the handlers and the output sink as actions; their theorems; worked examples.
      ProtocolLife: the table of attachments with handlers, watchers and [Close]
      interleaved.
    - AttachStream: the worker of an attachment and the sink together.
    - UnixPty and UnixLegacy (pty/unixpty/factory_unix.go), WindowsPty and
      WindowsStart (pty/windowspty/factory_windows.go): the managed and the legacy
      processes and their factories. PtyBackend: the interfaces of pty/pty.go with
      the backends as instances, and the legacy Windows process built on them.

    The parts meet at interfaces: the codec needs a [Reader] and a [Writer], the
    connection and the bridge a writer, the bridge a sender of frames, the handlers
    a [ClassSender] (the peer) and a [ManagerAPI] (instance [Manager_API]), a
    session a [ManagedProcess], the callers of the legacy API a [Process] (both with
    an instance per backend). JSON and error texts are classes without a definition
    of their own.

    ** How the code is rendered

    - An [int] or [uintN] is a [Z]; conversions and counters that can wrap use
      [uwrap] and [swrap64], and unbounded identifiers are shown to be in range.
      Bytes are [Byte.byte], Go maps [gmap]s, nil is [None].
    - A function that returns an error returns a sum or an [option error]; a panic
      is a constructor ([Panic], [PagePanic]) or [None] ([call_fill]). A mutex that a
      recovered panic leaves locked is a flag ([w_locked] of PeerRun), which the steps
      that take that mutex test.
    - Code under a mutex is one function on the state. A goroutine is a program
      counter; [conn_step], [step] (PeerRun), [a_step], [s_step], [m_step],
      [u_step] and [w_step] interleave critical sections and channel operations of
      all goroutines. A closed channel is a flag, a wake-up channel a generation
      number, a result channel its buffer. sync.Once is a flag in the state.
      [link_step], [close_step], [peer_close_step] and [life_step] compose them.
    - Contexts, timers, the network, handlers, sinks, processes and system calls
      answer nondeterministically, or through arguments.
    - Some states carry history (frames accepted and written, signals sent, handles
      used); no definition of the code reads it.

    ** What the theorems show

    - Wire format: frames survive any lawful transport, the decoder accepts nothing
      but encodings and terminates, the connection writes whole frames in the order
      accepted, a remote decoder gets exactly those.
    - Peer: nothing blocks while the mutex is held, no wake-up is lost, requests leave
      and frames reach handlers in order, a reply belongs to its call, a send that
      succeeded was written; the scheduler refines weighted round robin with a bound
      on bypassing, and its shared cursor can starve a stream; one interleaving of
      Call and failure dereferences nil and leaves the mutex locked. From one peer to
      the handlers of the other every accepted frame arrives in order, once,
      unchanged. Close waits for a bounded amount of work, is final, and can return
      unless a Call has panicked with the mutex held.
    - Manager: counters, limits, retention, history and attachments agree in every
      reachable state; sessions move forward; processes are accounted for; eviction
      terminates and takes the oldest, and no limit drops output that fits; Close is
      final, ends every process it found and never gets stuck, with no worker left
      when it has returned; a session is killed at most once, and all its waiters get
      one status; output is fanned out with consecutive numbers, a resumed replay is
      contiguous (a gap goes unreported when the whole history is gone).
    - Sessions and bridges: the two input writers and that of the codec are one
      function; output and input pass exactly.
    - Protocol: registration is exact; every request is answered once and its answer
      accepted by the pending call; a request whose own authorization is denied
      changes nothing; pages are bounded and following the cursors lists a running
      Manager consistently (with an extreme limit, which registration accepts, a
      request makes the handler panic); what a client has received of an attachment is
      at any moment the replay between its markers, then the accepted output, or a
      beginning of that; no attachment is lost between handlers, watchers and Close.
    - Backends: the exit status is published once; no Windows handle is used after its
      close; a start that fails, even at its very end because its context is
      cancelled, releases what it acquired and ends the process it made; the
      environment block is read back; on Unix a signal may be sent after the process
      was reaped.

    A claim that an environment condition allows names it as a hypothesis; laws of
    outside code are class laws ([ReaderLaws], [WriterLaws], [OwnedSenderLaws],
    [ClassSenderLaws], [BufferReaderLaws]) or section hypotheses, and have instances
    in the witnesses.

    ** Bounds and fuel

    Loops that recurse on fuel come with a theorem that the fuel used is enough: one
    unit per byte in [writeFull] and [writeContext] (each write makes progress or
    stops), one per chunk read in [pump], twenty digits for a uint64 in [decimal],
    [MaxUint64] attempts in [reservePending] (as in the code), one per retained
    chunk or session in [trim_total] and [beginRetentionEvictions], one request per
    session in [collect]. Generations and sequence numbers wrap at 2^64; theorems
    that need fewer steps say so.

    ** Not modelled

    Accessors (Done, Err, ID, Events and the like), which read one field; the
    goroutines of allSessionsDone and allAttachmentsDone, whose waits are guards of
    [cs_all_done] (ManagerClose) and [ms_finalize] (ManagerRun); the bodies of JSON, of exec, LookPath, command-line
    and UTF-16 conversion; data races (a critical section is atomic) and real time
    (timeouts may fire at any step). A handler, SendOwned, a process, and a sink whose
    context is cancelled are assumed to return only where a theorem says that
    something can complete. Identifiers of attachments and subscriptions are taken
    not to wrap around while their worker lives.

    ** Next

    Fair liveness of an open peer, and a composition of the protocol's handlers with
    the peer that runs them. *)

From stdpp Require Export base tactics option list list_numbers numbers gmap strings sorting.
From Stdlib Require Export ZArith Lia.
From Stdlib Require Strings.Byte.

#[export] Set Default Goal Selector "!".

Declare Scope mux_scope.
Delimit Scope mux_scope with mux.
Open Scope mux_scope.
#[global] Open Scope Z_scope.

Create HintDb mux discriminated.
Create Rewrite HintDb mux.

(** ** Machine integers *)

(** Conversion to an unsigned [w]-bit integer, as Go's [uintN(x)]. *)
Definition uwrap (w z : Z) : Z := z mod 2 ^ w.
Abbreviation u8 := (uwrap 8).
Abbreviation u16 := (uwrap 16).
Abbreviation u32 := (uwrap 32).
Abbreviation u64 := (uwrap 64).

Definition MaxUint16 : Z := 2 ^ 16 - 1.
Definition MaxUint32 : Z := 2 ^ 32 - 1.
Definition MaxUint64 : Z := 2 ^ 64 - 1.
Definition MaxInt : Z := 2 ^ 63 - 1.

(** [z] is representable as an unsigned [w]-bit integer. *)
Definition fits_u (w z : Z) : Prop := 0 <= z < 2 ^ w.

Lemma uwrap_small w z : fits_u w z -> uwrap w z = z.
Proof. apply Z.mod_small. Qed.

Lemma uwrap_bound w z : 0 <= w -> fits_u w (uwrap w z).
Proof. intros Hw. apply Z.mod_pos_bound. by apply Z.pow_pos_nonneg. Qed.

(** The Go conversion [int(x)] of a value of a wider or unsigned type. *)
Definition swrap64 (z : Z) : Z := (z + 2 ^ 63) mod 2 ^ 64 - 2 ^ 63.

Lemma swrap64_small z : - 2 ^ 63 <= z < 2 ^ 63 -> swrap64 z = z.
Proof. intros H. unfold swrap64. rewrite Z.mod_small; lia. Qed.

(** ** Length of a list as a Go [int] *)

Definition len {A} (l : list A) : Z := Z.of_nat (length l).

Lemma len_nil {A} : len (@nil A) = 0.
Proof. reflexivity. Qed.
Lemma len_cons {A} (x : A) l : len (x :: l) = 1 + len l.
Proof. unfold len. cbn [length]. lia. Qed.
Lemma len_app {A} (l k : list A) : len (l ++ k) = len l + len k.
Proof. unfold len. rewrite length_app. lia. Qed.
Lemma len_nonneg {A} (l : list A) : 0 <= len l.
Proof. unfold len. lia. Qed.
#[export] Hint Resolve len_nonneg : mux.
#[export] Hint Rewrite @len_nil @len_cons @len_app : mux.

(** ** Sums of integers over lists and maps *)

Definition sumZ {A} (f : A -> Z) (l : list A) : Z := foldr (fun x acc => f x + acc) 0 l.

Section sumZ.
Context {A : Type} (f : A -> Z).
Lemma sumZ_nil : sumZ f [] = 0.
Proof. reflexivity. Qed.
Lemma sumZ_cons x l : sumZ f (x :: l) = f x + sumZ f l.
Proof. reflexivity. Qed.
Lemma sumZ_app l k : sumZ f (l ++ k) = sumZ f l + sumZ f k.
Proof. induction l as [|x l IH]; cbn; [done|]. unfold sumZ in *. lia. Qed.
Lemma sumZ_nonneg l : (forall x, x ∈ l -> 0 <= f x) -> 0 <= sumZ f l.
Proof.
  induction l as [|x l IH]; intros H; cbn; [done|].
  assert (0 <= f x) by (apply H; left).
  assert (0 <= sumZ f l) by (apply IH; intros; apply H; by right).
  unfold sumZ in *. lia.
Qed.
Lemma sumZ_le_elem x l : (forall y, y ∈ l -> 0 <= f y) -> x ∈ l -> f x <= sumZ f l.
Proof.
  intros Hn Hx. apply list_elem_of_split in Hx as (l1 & l2 & ->).
  rewrite sumZ_app, sumZ_cons.
  assert (0 <= sumZ f l1) by (apply sumZ_nonneg; intros; apply Hn; set_solver).
  assert (0 <= sumZ f l2) by (apply sumZ_nonneg; intros; apply Hn; set_solver).
  lia.
Qed.
#[global] Instance sumZ_Permutation : Proper (Permutation ==> eq) (sumZ f).
Proof. induction 1; cbn; unfold sumZ in *; lia. Qed.
End sumZ.
#[global] Arguments sumZ : simpl never.
#[export] Hint Rewrite @sumZ_nil @sumZ_cons @sumZ_app : mux.

Definition map_sumZ `{Countable K} {A} (f : A -> Z) (m : gmap K A) : Z :=
  sumZ (fun kx => f kx.2) (map_to_list m).

Section map_sumZ.
Context `{Countable K} {A : Type} (f : A -> Z).
Implicit Types m : gmap K A.
Lemma map_sumZ_empty : map_sumZ f (∅ : gmap K A) = 0.
Proof. unfold map_sumZ. by rewrite map_to_list_empty. Qed.
Lemma map_sumZ_insert_new m i x :
  m !! i = None -> map_sumZ f (<[i:=x]> m) = f x + map_sumZ f m.
Proof. intros Hi. unfold map_sumZ. by rewrite (map_to_list_insert m i x Hi). Qed.
Lemma map_sumZ_delete m i x :
  m !! i = Some x -> map_sumZ f m = f x + map_sumZ f (delete i m).
Proof.
  intros Hi. rewrite <- (insert_delete_id m i x) at 1 by done.
  apply map_sumZ_insert_new. apply lookup_delete_eq.
Qed.
Lemma map_sumZ_insert m i x y :
  m !! i = Some x -> map_sumZ f (<[i:=y]> m) = map_sumZ f m - f x + f y.
Proof.
  intros Hi. rewrite (map_sumZ_delete m i x Hi).
  rewrite <- insert_delete_eq, map_sumZ_insert_new by apply lookup_delete_eq. lia.
Qed.
Lemma map_sumZ_nonneg m :
  (forall i x, m !! i = Some x -> 0 <= f x) -> 0 <= map_sumZ f m.
Proof.
  intros Hn. apply sumZ_nonneg. intros [i x] Hx%elem_of_map_to_list. by eapply Hn.
Qed.
Lemma map_sumZ_le m i x :
  (forall i x, m !! i = Some x -> 0 <= f x) -> m !! i = Some x -> f x <= map_sumZ f m.
Proof.
  intros Hn Hi. rewrite (map_sumZ_delete m i x Hi).
  assert (0 <= map_sumZ f (delete i m)); [|lia].
  apply map_sumZ_nonneg. intros j y Hj. apply lookup_delete_Some in Hj as [_ Hj]. by eapply Hn.
Qed.
End map_sumZ.
#[global] Arguments map_sumZ : simpl never.

(** ** Tactics *)

(** Case analysis on every boolean or decidable test and match of the goal. *)
Ltac split_ifs :=
  repeat match goal with
  | |- context [if ?b then _ else _] =>
      lazymatch type of b with
      | bool => let E := fresh "E" in destruct b eqn:E
      | _ => let E := fresh "E" in destruct b as [E|E]
      end
  | |- context [match ?x with _ => _ end] => let E := fresh "E" in destruct x eqn:E
  end.

(** Turns boolean comparisons of the context into propositions. *)
Ltac reflect_bools :=
  repeat match goal with
  | H : _ && _ = true |- _ => apply andb_true_iff in H as [? ?]
  | H : _ || _ = false |- _ => apply orb_false_iff in H as [? ?]
  | H : _ || _ = true |- _ => apply orb_true_iff in H
  | H : _ && _ = false |- _ => apply andb_false_iff in H
  | H : negb _ = true |- _ => apply negb_true_iff in H
  | H : negb _ = false |- _ => apply negb_false_iff in H
  | H : (_ <? _) = true |- _ => apply Z.ltb_lt in H
  | H : (_ <? _) = false |- _ => apply Z.ltb_ge in H
  | H : (_ <=? _) = true |- _ => apply Z.leb_le in H
  | H : (_ <=? _) = false |- _ => apply Z.leb_gt in H
  | H : (_ =? _) = true |- _ => apply Z.eqb_eq in H
  | H : (_ =? _) = false |- _ => apply Z.eqb_neq in H
  | H : bool_decide _ = true |- _ => apply bool_decide_eq_true in H
  | H : bool_decide _ = false |- _ => apply bool_decide_eq_false in H
  end.

Ltac mux_rw := autorewrite with mux in *.
Ltac mux_lia := mux_rw; unfold len in *; lia.

(** Closes a closed, decidable goal (or a conjunction of them) by computation;
    used where a theorem is instantiated at concrete data. *)
Ltac concrete :=
  repeat match goal with
  | |- _ /\ _ => split
  | |- Forall _ [] => constructor
  | |- Forall _ (_ :: _) => constructor
  end;
  vm_compute; first [reflexivity | discriminate | (intro; discriminate) | tauto].

(** Case analysis on the lookups of updated maps. *)
Ltac map_cases :=
  repeat match goal with
  | H : context [<[?i:=_]> _ !! ?j] |- _ => rewrite (lookup_insert _ i j) in H
  | |- context [<[?i:=_]> _ !! ?j] => rewrite (lookup_insert _ i j)
  | H : context [delete ?i _ !! ?j] |- _ => rewrite (lookup_delete _ i j) in H
  | |- context [delete ?i _ !! ?j] => rewrite (lookup_delete _ i j)
  end;
  repeat case_decide; simplify_eq.

(** ** Counted loops with an early exit *)

(** At most [n] iterations of [step], stopping at the first [inr]. *)
Fixpoint nat_until {S R} (step : S -> S + R) (n : nat) (s : S) : S + R :=
  match n with
  | O => inl s
  | Datatypes.S n => match step s with inl s' => nat_until step n s' | inr r => inr r end
  end.

(** The same with a binary counter, so that a loop bounded by 2^64 - 1 runs. *)
Fixpoint pos_until {S R} (step : S -> S + R) (p : positive) (s : S) : S + R :=
  match p with
  | xH => step s
  | xO p => match pos_until step p s with inl s' => pos_until step p s' | inr r => inr r end
  | xI p =>
      match step s with
      | inl s1 =>
          match pos_until step p s1 with inl s2 => pos_until step p s2 | inr r => inr r end
      | inr r => inr r
      end
  end.

Lemma nat_until_add {S R} (step : S -> S + R) m n s :
  nat_until step (m + n) s =
    match nat_until step m s with inl s' => nat_until step n s' | inr r => inr r end.
Proof. revert s. induction m as [|m IH]; intros s; cbn; [done|]. destruct (step s); [apply IH|done]. Qed.

Lemma pos_until_nat {S R} (step : S -> S + R) p s :
  pos_until step p s = nat_until step (Pos.to_nat p) s.
Proof.
  revert s. induction p as [p IH|p IH|]; intros s; cbn [pos_until].
  - rewrite Pos2Nat.inj_xI. cbn [nat_until].
    replace (2 * Pos.to_nat p)%nat with (Pos.to_nat p + Pos.to_nat p)%nat by lia.
    destruct (step s) as [s1|]; [|done]. rewrite nat_until_add, IH.
    by destruct (nat_until step (Pos.to_nat p) s1).
  - rewrite Pos2Nat.inj_xO.
    replace (2 * Pos.to_nat p)%nat with (Pos.to_nat p + Pos.to_nat p)%nat by lia.
    rewrite nat_until_add, IH. by destruct (nat_until step (Pos.to_nat p) s).
  - change (Pos.to_nat 1) with 1%nat. cbn. by destruct (step s).
Qed.

(** ** Strings *)

(** [strings.IndexByte(value, 0) >= 0] *)
Fixpoint has_nul (s : string) : bool :=
  match s with
  | EmptyString => false
  | String c s => bool_decide (c = Ascii.zero) || has_nul s
  end.

Definition slen (s : string) : Z := Z.of_nat (String.length s).

Lemma has_nul_spec s : has_nul s = false <-> Ascii.zero ∉ String.list_ascii_of_string s.
Proof.
  induction s as [|c s IH]; cbn; [split; [|done]; by intros _ ?%elem_of_nil|].
  rewrite orb_false_iff, bool_decide_eq_false, IH, not_elem_of_cons. intuition congruence.
Qed.
