(* ===== verification/Errors.v ===== *)
(** Go error values: [errors.New] sentinels, [fmt.Errorf] wrapping,
    [errors.Join], and [errors.Is]; with the sentinels of the packages
    streammux and pty and those of the Go standard library they use. *)

From S2P Require Import Prelude.

(** An error value. [New] is a package-level [errors.New] sentinel, identified
    by its text (the texts are pairwise distinct); [Wrap e args] is
    [fmt.Errorf("%w: ...", e, args...)]; [Newf] is an error formatted without a
    wrapped cause; [Join a b] is [errors.Join] of two non-nil errors. *)
Inductive error : Type :=
| New (text : string)
| Newf (text : string) (args : list Z)
| Wrap (inner : error) (args : list Z)
| Join (a b : error).

#[export] Instance error_eq_dec : EqDecision error.
Proof. solve_decision. Defined.

#[export] Instance error_inhabited : Inhabited error := populate (New "").

(** [errors.Is(e, target)] for a sentinel [target]. *)
Fixpoint errors_Is (e target : error) : bool :=
  bool_decide (e = target) ||
  match e with
  | New _ | Newf _ _ => false
  | Wrap inner _ => errors_Is inner target
  | Join a b => errors_Is a target || errors_Is b target
  end.

(** [errors.Join(a, b)], where nil is [None]. *)
Definition errors_Join (a b : option error) : option error :=
  match a, b with
  | None, _ => b
  | _, None => a
  | Some x, Some y => Some (Join x y)
  end.

(** *** Package streammux: frame.go *)
Definition ErrFrameTooLarge := New "streammux: frame exceeds maximum size".
Definition ErrInvalidFrameLength := New "streammux: invalid frame length".
Definition ErrUnsupportedVersion := New "streammux: unsupported protocol version".
Definition ErrInvalidMessageType := New "streammux: invalid message type".
Definition ErrInvalidFlags := New "streammux: invalid flags".
Definition ErrInvalidCorrelation := New "streammux: invalid correlation ID".

(** *** Package streammux: conn.go *)
Definition ErrNilStream := New "streammux: nil stream".
Definition ErrInvalidVersionRange := New "streammux: invalid version range".
Definition ErrConnClosed := New "streammux: connection closed".

(** *** Package streammux: peer.go *)
Definition ErrNilConn := New "streammux: nil connection".
Definition ErrPeerClosed := New "streammux: peer closed".
Definition ErrPeerAlreadyServing := New "streammux: peer Serve called more than once".
Definition ErrHandlerRegistered := New "streammux: message handler already registered".
Definition ErrHandlerNotFound := New "streammux: message handler not found".
Definition ErrUnexpectedResponse := New "streammux: response has no pending request".
Definition ErrPeerQueueOverflow := New "streammux: peer queue limit exceeded".
Definition ErrTooManyActiveStreams := New "streammux: too many active streams".

(** *** Package pty: pty.go *)
Definition ErrCommandRequired := New "pty: command is required".
Definition ErrInvalidSize := New "pty: size must have positive columns and rows".
Definition ErrInvalidMessageTypes := New "pty: message types must be non-zero and distinct".
Definition ErrSessionNotFound := New "pty: session not found".
Definition ErrUnexpectedFrame := New "pty: unexpected frame".
Definition ErrInvalidPayload := New "pty: invalid payload".
Definition ErrProcessIDUnavailable := New "pty: process ID unavailable".

(** *** Package pty: bridge.go *)
Definition ErrNilProcess := New "pty: nil process".
Definition ErrNilSender := New "pty: nil frame sender".
Definition ErrInvalidStreamID := New "pty: invalid StreamID".
Definition ErrInvalidInputType := New "pty: unexpected input MessageType".

(** *** Package pty: manager.go *)
Definition ErrManagerClosed := New "pty: manager closed".
Definition ErrSessionLimit := New "pty: session limit reached".
Definition ErrAttachmentLimit := New "pty: attachment limit reached".
Definition ErrObserverLimit := New "pty: observer limit reached".
Definition ErrQueueOverflow := New "pty: queue byte limit exceeded".
Definition ErrAlreadyAttached := New "pty: output sink already attached".
Definition ErrFutureSequence := New "pty: resume sequence is in the future".
Definition ErrAttachmentClosed := New "pty: attachment closed".
Definition ErrObserverClosed := New "pty: observer closed".
Definition ErrSessionRunning := New "pty: session is still running".
Definition ErrSessionExited := New "pty: session has exited".

(** *** Package pty: protocol.go *)
Definition ErrUnsupportedProtocolVersion := New "pty: unsupported protocol version".

(** *** The Go standard library *)
Definition EOF := New "EOF".
Definition ErrUnexpectedEOF := New "unexpected EOF".
Definition ErrShortWrite := New "short write".
Definition ErrClosedPipe := New "io: read/write on closed pipe".
Definition ErrNoProgress := New "multiple Read calls return no data or error".
Definition Canceled := New "context canceled".
Definition DeadlineExceeded := New "context deadline exceeded".

Lemma errors_Is_refl e : errors_Is e e = true.
Proof. destruct e; cbn; rewrite bool_decide_true by done; done. Qed.

Lemma errors_Is_Wrap e args target :
  errors_Is e target = true -> errors_Is (Wrap e args) target = true.
Proof. intros H. cbn. rewrite H. apply orb_true_r. Qed.

Lemma errors_Is_New s t : errors_Is (New s) (New t) = bool_decide (s = t).
Proof.
  cbn. rewrite orb_false_r. apply bool_decide_ext. split; [by intros [=]|by intros ->].
Qed.

#[export] Hint Resolve errors_Is_refl errors_Is_Wrap : mux.
