(* ===== verification/BigEndian.v ===== *)
(** Bytes and the fixed-width network-byte-order accessors of Go's
    [encoding/binary.BigEndian] (PutUint16/32/64, Uint16/32/64). *)

From S2P Require Import Prelude.

Abbreviation byte := Byte.byte.

#[export] Instance byte_eq_dec : EqDecision byte := Byte.byte_eq_dec.

(** The conversions [byte(z)] and [uint64(b)]. *)
Definition byte_of_Z (z : Z) : byte := default Byte.x00 (Byte.of_N (Z.to_N (u8 z))).
Definition Z_of_byte (b : byte) : Z := Z.of_N (Byte.to_N b).

(** The [n] bytes that [PutUint(8n)] stores, most significant first:
    [byte(v >> 8(n-1)), ..., byte(v)]. *)
Fixpoint be_put (n : nat) (v : Z) : list byte :=
  match n with
  | O => []
  | S k => byte_of_Z (Z.shiftr v (8 * Z.of_nat k)) :: be_put k v
  end.

(** The integer that [Uint(8n)] reads:
    [b[n-1] | b[n-2]<<8 | ... | b[0]<<8(n-1)]. *)
Fixpoint be_get (l : list byte) : Z :=
  match l with
  | [] => 0
  | b :: l' => Z.lor (Z.shiftl (Z_of_byte b) (8 * len l')) (be_get l')
  end.

(** Overwrite [target] from offset [off] with [bs], as a Put into
    [target[off:off+len(bs)]] does. *)
Definition splice (off : nat) (bs target : list byte) : list byte :=
  take off target ++ bs ++ drop (off + length bs) target.

(** [source[lo:hi]] *)
Definition slice {A} (lo hi : nat) (source : list A) : list A :=
  take (hi - lo) (drop lo source).

Lemma Z_of_byte_bound b : 0 <= Z_of_byte b < 2 ^ 8.
Proof. unfold Z_of_byte. pose proof (Byte.to_N_bounded b). lia. Qed.

Lemma Z_of_byte_of_Z z : Z_of_byte (byte_of_Z z) = u8 z.
Proof.
  unfold Z_of_byte, byte_of_Z.
  pose proof (uwrap_bound 8 z ltac:(lia)) as Hb. unfold fits_u in Hb.
  destruct (Byte.of_N (Z.to_N (u8 z))) as [b|] eqn:E; cbn.
  - apply Byte.to_of_N in E. rewrite E. apply Z2N.id. lia.
  - apply Byte.of_N_None_iff in E. lia.
Qed.

Lemma byte_of_Z_of_byte b : byte_of_Z (Z_of_byte b) = b.
Proof.
  unfold byte_of_Z. rewrite uwrap_small by apply Z_of_byte_bound.
  unfold Z_of_byte. rewrite N2Z.id, Byte.of_to_N. done.
Qed.

Lemma lor_shiftl_add a r k :
  0 <= k -> 0 <= r < 2 ^ k -> Z.lor (Z.shiftl a k) r = a * 2 ^ k + r.
Proof.
  intros Hk Hr. rewrite <- Z.shiftl_mul_pow2 by done.
  assert (Z.land (Z.shiftl a k) r = 0) as Hl.
  { apply Z.bits_inj'. intros i Hi. rewrite Z.land_spec, Z.bits_0.
    destruct (Z.lt_ge_cases i k).
    - by rewrite Z.shiftl_spec_low.
    - rewrite <- (Z.mod_small r (2 ^ k)) by done.
      rewrite Z.mod_pow2_bits_high by lia.
      apply andb_false_r. }
  rewrite <- Z.lxor_lor by done. symmetry. by apply Z.add_nocarry_lxor.
Qed.

Lemma be_get_bound l : 0 <= be_get l < 2 ^ (8 * len l).
Proof.
  induction l as [|b l IH]; [by cbn|]. cbn [be_get].
  pose proof (Z_of_byte_bound b). pose proof (len_nonneg l).
  rewrite lor_shiftl_add by (done || lia). rewrite len_cons.
  replace (8 * (1 + len l)) with (8 + 8 * len l) by lia.
  rewrite Z.pow_add_r by lia. nia.
Qed.

Lemma be_get_cons b l : be_get (b :: l) = Z_of_byte b * 2 ^ (8 * len l) + be_get l.
Proof. cbn [be_get]. apply lor_shiftl_add; [pose proof (len_nonneg l); lia|apply be_get_bound]. Qed.

Lemma length_be_put n v : length (be_put n v) = n.
Proof. induction n; cbn; congruence. Qed.

Lemma be_get_put n v : be_get (be_put n v) = v mod 2 ^ (8 * Z.of_nat n).
Proof.
  induction n as [|n IH]; cbn [be_put]; [cbn; by rewrite Z.mod_1_r|].
  rewrite be_get_cons, Z_of_byte_of_Z, IH. unfold len, uwrap. rewrite length_be_put.
  rewrite Z.shiftr_div_pow2 by lia.
  replace (8 * Z.of_nat (S n)) with (8 * Z.of_nat n + 8) by lia.
  rewrite Z.pow_add_r by lia.
  rewrite (Z.rem_mul_r v) by (apply Z.pow_nonzero || apply Z.pow_pos_nonneg; lia). lia.
Qed.

Lemma be_get_put_small n v : fits_u (8 * Z.of_nat n) v -> be_get (be_put n v) = v.
Proof. intros H. rewrite be_get_put. by apply Z.mod_small. Qed.

Lemma be_put_get l : be_put (length l) (be_get l) = l.
Proof.
  assert (forall hi : Z, be_put (length l) (hi * 2 ^ (8 * len l) + be_get l) = l) as Hgen.
  { induction l as [|b l IH]; intros hi; [done|]. cbn [length be_put].
    rewrite be_get_cons, len_cons.
    assert (0 < 2 ^ (8 * len l)) by (apply Z.pow_pos_nonneg; pose proof (len_nonneg l); lia).
    replace (8 * (1 + len l)) with (8 + 8 * len l) by lia.
    rewrite Z.pow_add_r by (pose proof (len_nonneg l); lia).
    replace (hi * (2 ^ 8 * 2 ^ (8 * len l)) + (Z_of_byte b * 2 ^ (8 * len l) + be_get l))
      with ((hi * 2 ^ 8 + Z_of_byte b) * 2 ^ (8 * len l) + be_get l) by lia.
    f_equal; [|apply IH].
    rewrite Z.shiftr_div_pow2 by lia. fold (len l).
    rewrite Z.div_add_l, (Z.div_small (be_get l)) by (lia || apply be_get_bound).
    rewrite Z.add_0_r. unfold byte_of_Z, uwrap.
    rewrite Z.add_comm, Z_mod_plus_full. fold (uwrap 8 (Z_of_byte b)).
    apply byte_of_Z_of_byte. }
  specialize (Hgen 0). by rewrite Z.mul_0_l, Z.add_0_l in Hgen.
Qed.

Lemma splice_at pre old bs post :
  length old = length bs ->
  splice (length pre) bs (pre ++ old ++ post) = pre ++ bs ++ post.
Proof.
  intros H. unfold splice. rewrite take_app_length. f_equal. f_equal.
  rewrite <- H, <- length_app, app_assoc. by rewrite drop_app_length.
Qed.

Lemma slice_at {A} (pre mid post : list A) lo hi :
  length pre = lo -> (lo + length mid = hi)%nat -> slice lo hi (pre ++ mid ++ post) = mid.
Proof.
  intros <- <-. unfold slice. rewrite drop_app_length.
  replace (length pre + length mid - length pre)%nat with (length mid) by lia.
  by rewrite take_app_length.
Qed.
