(* ===== verification/Frame.v ===== *)
(** frame.go and the Config of codec.go: headers, frames, their validation and
    construction. *)

From S2P Require Import Prelude Errors BigEndian.

Definition HeaderSize : Z := 28.
Definition DefaultMaxFrameBytes : Z := 4 * 1024 * 1024.

Definition FlagRequest : Z := Z.shiftl 1 0.
Definition FlagResponse : Z := Z.shiftl 1 1.
Definition FlagEvent : Z := Z.shiftl 1 2.

Definition knownFlags : Z := Z.lor (Z.lor FlagRequest FlagResponse) FlagEvent.

(** [Header]: each field is an unsigned integer of the width given by
    [header_wf]. *)
Record Header := mkHeader {
  PayloadLength : Z;  (* uint32 *)
  Version : Z;        (* uint16 *)
  MessageType : Z;    (* uint16 *)
  Flags : Z;          (* uint32 *)
  CorrelationID : Z;  (* uint64 *)
  StreamID : Z;       (* uint64 *)
}.

Record Frame := mkFrame {
  FHeader : Header;
  Payload : list byte;
}.

#[export] Instance Header_eq_dec : EqDecision Header.
Proof. solve_decision. Defined.
#[export] Instance Frame_eq_dec : EqDecision Frame.
Proof. solve_decision. Defined.

Definition zeroHeader : Header := mkHeader 0 0 0 0 0 0.
#[export] Instance Header_inhabited : Inhabited Header := populate zeroHeader.
#[export] Instance Frame_inhabited : Inhabited Frame := populate (mkFrame zeroHeader []).

(** The typing of the fields: every value is in the range of its Go type. *)
Definition header_wf (h : Header) : Prop :=
  fits_u 32 (PayloadLength h) /\ fits_u 16 (Version h) /\ fits_u 16 (MessageType h) /\
  fits_u 32 (Flags h) /\ fits_u 64 (CorrelationID h) /\ fits_u 64 (StreamID h).

Definition set_PayloadLength (n : Z) (h : Header) : Header :=
  mkHeader n (Version h) (MessageType h) (Flags h) (CorrelationID h) (StreamID h).
Definition set_CorrelationID (c : Z) (h : Header) : Header :=
  mkHeader (PayloadLength h) (Version h) (MessageType h) (Flags h) c (StreamID h).
Definition set_FHeader (h : Header) (f : Frame) : Frame := mkFrame h (Payload f).

(** [Config] (codec.go). [WriteQueue] and [MaxFrameBytes] are Go [int]s; the
    application validator is a nilable function. *)
Record Config := mkConfig {
  MinVersion : Z;
  MaxVersion : Z;
  MaxFrameBytes : Z;
  WriteQueue : Z;
  cValidate : option (Frame -> option error);
}.

Definition DefaultConfig : Config := mkConfig 1 1 DefaultMaxFrameBytes 64 None.

(** [Config.withDefaults] *)
Definition withDefaults (c : Config) : Config :=
  let minv := if MinVersion c =? 0 then 1 else MinVersion c in
  let maxv := if MaxVersion c =? 0 then minv else MaxVersion c in
  let maxf := if MaxFrameBytes c <=? 0 then DefaultMaxFrameBytes else MaxFrameBytes c in
  let wq := if WriteQueue c <? 0 then 0 else WriteQueue c in
  mkConfig minv maxv maxf wq (cValidate c).

(** [classCount]: how many of the three class bits are set. *)
Definition classCount (flags : Z) : Z :=
  foldl (fun count flag => if negb (Z.land flags flag =? 0) then count + 1 else count)
    0 [FlagRequest; FlagResponse; FlagEvent].

(** [Header.validate]; [None] is the nil error. *)
Definition header_validate (h : Header) (config : Config) : option error :=
  if u64 (MaxFrameBytes config) <? u64 (PayloadLength h) then
    Some (Wrap ErrFrameTooLarge [PayloadLength h])
  else if (Version h <? MinVersion config) || (MaxVersion config <? Version h) then
    Some (Wrap ErrUnsupportedVersion [Version h])
  else if MessageType h =? 0 then Some ErrInvalidMessageType
  else if negb (Z.ldiff (Flags h) knownFlags =? 0) || negb (classCount (Flags h) =? 1) then
    Some (Wrap ErrInvalidFlags [Flags h])
  else if negb (Z.land (Flags h) (Z.lor FlagRequest FlagResponse) =? 0) &&
          (CorrelationID h =? 0) then Some ErrInvalidCorrelation
  else if (Flags h =? FlagEvent) && negb (CorrelationID h =? 0) then
    Some ErrInvalidCorrelation
  else None.

(** [Frame.Validate] *)
Definition Validate (f : Frame) (config0 : Config) : option error :=
  let config := withDefaults config0 in
  if (MaxFrameBytes config <? len (Payload f)) || (MaxUint32 <? u64 (len (Payload f))) then
    Some (Wrap ErrFrameTooLarge [len (Payload f)])
  else match header_validate (FHeader f) config with
  | Some err => Some err
  | None =>
      if negb (u32 (len (Payload f)) =? PayloadLength (FHeader f)) then
        Some (Wrap ErrInvalidFrameLength [PayloadLength (FHeader f); len (Payload f)])
      else match cValidate config with
      | Some validate => validate f
      | None => None
      end
  end.

(** [lenLimit] *)
Definition lenLimit (payload : list byte) : Config :=
  let limit := if len payload =? 0 then 1 else len payload in
  mkConfig 1 MaxUint16 limit 0 None.

(** [newFrame]: the Go pair (Frame, error). *)
Definition newFrame (header : Header) (payload : list byte) : Frame + error :=
  if MaxUint32 <? u64 (len payload) then inr ErrFrameTooLarge
  else
    let frame := mkFrame (set_PayloadLength (u32 (len payload)) header) payload in
    match Validate frame (lenLimit payload) with
    | Some err => inr err
    | None => inl frame
    end.

(** [NewFrame] copies the payload, [NewOwnedFrame] does not; their values are
    those of [newFrame]. *)
Definition NewFrame (header : Header) (payload : list byte) : Frame + error :=
  newFrame header ([] ++ payload).
Definition NewOwnedFrame (header : Header) (payload : list byte) : Frame + error :=
  newFrame header payload.

(** [Frame.Clone] *)
Definition Clone (f : Frame) : Frame := mkFrame (FHeader f) ([] ++ Payload f).

Lemma Clone_id f : Clone f = f.
Proof. by destruct f. Qed.

(** ** Properties *)

(** What a valid header is, in terms of the fields. *)
Definition header_ok (h : Header) (config : Config) : Prop :=
  PayloadLength h <= MaxFrameBytes config /\
  MinVersion config <= Version h <= MaxVersion config /\
  MessageType h <> 0 /\
  ((Flags h = FlagRequest \/ Flags h = FlagResponse) /\ CorrelationID h <> 0 \/
   Flags h = FlagEvent /\ CorrelationID h = 0).

Lemma known_small flags : 0 <= flags -> Z.ldiff flags knownFlags = 0 -> flags < 8.
Proof.
  intros Hp Hl. change knownFlags with (Z.ones 3) in Hl.
  rewrite Z.ldiff_ones_r in Hl by lia.
  apply Z.shiftl_eq_0_iff in Hl; [|lia].
  rewrite Z.shiftr_div_pow2 in Hl by lia.
  pose proof (Z.div_mod flags (2 ^ 3) ltac:(lia)).
  pose proof (Z.mod_pos_bound flags (2 ^ 3) ltac:(lia)). lia.
Qed.

(** The flag tests accept exactly the three class constants. *)
Lemma class_flags flags :
  0 <= flags ->
  negb (Z.ldiff flags knownFlags =? 0) || negb (classCount flags =? 1) = false <->
  flags = FlagRequest \/ flags = FlagResponse \/ flags = FlagEvent.
Proof.
  intros Hp. split.
  - intros H. reflect_bools.
    match goal with H : Z.ldiff _ _ = 0 |- _ => pose proof (known_small _ Hp H) end.
    assert (flags = 0 \/ flags = 1 \/ flags = 2 \/ flags = 3 \/ flags = 4 \/
            flags = 5 \/ flags = 6 \/ flags = 7) as Hc by lia.
    destruct Hc as [->|[->|[->|[->|[->|[->|[->| ->]]]]]]]; cbn in *; (discriminate || tauto).
  - by intros [->|[->| ->]].
Qed.

Lemma header_validate_ok h config :
  header_wf h -> fits_u 63 (MaxFrameBytes config) ->
  header_validate h config = None <-> header_ok h config.
Proof.
  intros Hwf Hm. destruct Hwf as (Hl & _ & _ & Hf & _). unfold fits_u in *.
  unfold header_validate, header_ok.
  rewrite (uwrap_small 64 (MaxFrameBytes config)) by (unfold fits_u; lia).
  rewrite (uwrap_small 64 (PayloadLength h)) by (unfold fits_u; lia).
  pose proof (class_flags (Flags h) ltac:(lia)) as Hcf.
  destruct (_ || negb (classCount _ =? 1)) eqn:Ecl.
  - split; [repeat case_match; discriminate|].
    intros (_ & _ & _ & Hcl). exfalso.
    assert (true = false) by (apply Hcf; tauto). discriminate.
  - destruct (proj1 Hcf eq_refl) as [E|[E|E]]; rewrite E; cbn;
      destruct (Z.ltb_spec (MaxFrameBytes config) (PayloadLength h));
      destruct (Z.ltb_spec (Version h) (MinVersion config));
      destruct (Z.ltb_spec (MaxVersion config) (Version h));
      destruct (Z.eqb_spec (MessageType h) 0);
      destruct (Z.eqb_spec (CorrelationID h) 0); cbn;
      change FlagRequest with 1; change FlagResponse with 2; change FlagEvent with 4; cbn;
      (split; [intros; first [discriminate|lia]|intros; first [lia|reflexivity]]).
Qed.

Definition config_wf (c : Config) : Prop :=
  fits_u 16 (MinVersion c) /\ fits_u 16 (MaxVersion c) /\ MaxFrameBytes c <= MaxInt.

Lemma withDefaults_idemp c : withDefaults (withDefaults c) = withDefaults c.
Proof.
  unfold withDefaults; cbn. destruct c as [a b m w v]; cbn.
  destruct (Z.eqb_spec a 0), (Z.eqb_spec b 0), (Z.leb_spec m 0), (Z.ltb_spec w 0); cbn;
    repeat (rewrite (proj2 (Z.eqb_neq _ _)) by lia);
    repeat (rewrite (proj2 (Z.leb_gt _ _)) by (lia || reflexivity));
    repeat (rewrite (proj2 (Z.ltb_ge _ _)) by lia); reflexivity.
Qed.

Lemma withDefaults_MaxFrameBytes c :
  config_wf c -> 0 < MaxFrameBytes (withDefaults c) <= MaxInt.
Proof.
  intros (_ & _ & Hm). unfold withDefaults; cbn.
  destruct (Z.leb_spec (MaxFrameBytes c) 0); [by vm_compute|lia].
Qed.

(** A valid frame, in terms of the fields: a valid header whose length field is
    the payload's length, accepted by the application validator. *)
Definition frame_ok (f : Frame) (config : Config) : Prop :=
  len (Payload f) <= MaxFrameBytes config /\
  header_ok (FHeader f) config /\
  PayloadLength (FHeader f) = len (Payload f) /\
  (forall v, cValidate config = Some v -> v f = None).

Lemma len_u64 {A} (l : list A) m : len l <= m -> m <= MaxInt -> u64 (len l) = len l.
Proof. intros. apply uwrap_small. pose proof (len_nonneg l). unfold fits_u, MaxInt in *. lia. Qed.

Lemma Validate_ok f config :
  header_wf (FHeader f) -> config_wf config ->
  Validate f config = None <-> frame_ok f (withDefaults config).
Proof.
  intros Hwf Hc. pose proof (withDefaults_MaxFrameBytes _ Hc) as Hm.
  unfold Validate, frame_ok. set (c := withDefaults config) in *.
  pose proof (len_nonneg (Payload f)).
  pose proof (header_validate_ok (FHeader f) c Hwf ltac:(unfold fits_u, MaxInt in *; lia)) as Hh.
  destruct Hwf as (Hpl & _). unfold fits_u in Hpl.
  destruct (Z.ltb_spec (MaxFrameBytes c) (len (Payload f))) as [|Hle]; cbn [orb].
  { split; [discriminate|lia]. }
  rewrite (len_u64 _ _ Hle) by lia.
  destruct (Z.ltb_spec MaxUint32 (len (Payload f))).
  { split; [discriminate|]. intros (_ & (_ & _) & He & _). unfold MaxUint32 in *. lia. }
  rewrite uwrap_small by (unfold fits_u, MaxUint32 in *; lia).
  destruct (header_validate (FHeader f) c) as [err|].
  { split; [discriminate|]. intros (_ & Hok & _). apply Hh in Hok. discriminate. }
  assert (header_ok (FHeader f) c) by (by apply Hh).
  destruct (Z.eqb_spec (len (Payload f)) (PayloadLength (FHeader f))); cbn [negb].
  2: { split; [discriminate|lia]. }
  destruct (cValidate c) as [v|]; split.
  - intros Hv. repeat split; try (done || lia || apply H1). by intros v' [= <-].
  - intros (_ & _ & _ & Hv). by apply Hv.
  - intros _. repeat split; try (done || lia || apply H1).
  - done.
Qed.

Lemma newFrame_header header payload f :
  newFrame header payload = inl f ->
  FHeader f = set_PayloadLength (u32 (len payload)) header /\ Payload f = payload.
Proof. unfold newFrame. intros. repeat case_match; simplify_eq. done. Qed.
