(* ===== verification/Codec.v ===== *)
(** codec.go: the frame encoder and decoder over the Go interfaces io.Writer
    and io.Reader, which are type classes here; their documented contracts are
    the classes [ReaderLaws] and [WriterLaws]. *)

From S2P Require Import Prelude Errors BigEndian Frame.

(** ** Interfaces of package io *)

(** [Read r k] is a call of [r.Read(p)] with [len(p) = k]: the reader
    afterwards, the bytes [p[:n]] and the error. *)
Class Reader (R : Type) := Read : R -> nat -> R * list byte * option error.

(** [Write w data]: the writer afterwards, the count [n] and the error. *)
Class Writer (W : Type) := Write : W -> list byte -> W * Z * option error.

(** The contract of an io.Reader over a finite stream: the bytes it will still
    deliver, the error that ends them, and a bound on the empty reads (0, nil)
    it may still return. *)
Class ReaderLaws (R : Type) `{Reader R} := {
  contents : R -> list byte;
  final : R -> error;
  stall : R -> nat;
  Read_law r k r' bs err :
    (0 < k)%nat -> Read r k = (r', bs, err) ->
    contents r = bs ++ contents r' /\ final r' = final r /\ (length bs <= k)%nat /\
    (stall r' <= stall r)%nat /\
    match err with
    | Some e => e = final r /\ contents r' = []
    | None => bs <> [] \/ (stall r' < stall r)%nat
    end
}.

(** The contract of an io.Writer: [Write] appends the first [n] bytes. *)
Class WriterLaws (W : Type) `{Writer W} := {
  written : W -> list byte;
  Write_law w data w' n err :
    Write w data = (w', n, err) ->
    0 <= n <= len data /\ written w' = written w ++ take (Z.to_nat n) data
}.

(** ** io.ReadFull *)

Section read_full.
Context {R : Type} `{Reader R}.

(** The loop of io.ReadAtLeast with [min = len(buf) = k]; [buf] holds the
    bytes read so far and [None] means that [fuel] reads were not enough. *)
Fixpoint ReadAtLeast (fuel : nat) (r : R) (k : nat) (buf : list byte)
    : option (R * list byte * option error) :=
  if (length buf <? k)%nat then
    match fuel with
    | O => None
    | S fuel =>
        let '(r', bs, err) := Read r (k - length buf) in
        match err with
        | None => ReadAtLeast fuel r' k (buf ++ bs)
        | Some e => Some (r', buf ++ bs, Some e)
        end
    end
  else Some (r, buf, None).

Definition ReadFull (fuel : nat) (r : R) (k : nat) : option (R * list byte * option error) :=
  '(r', buf, err) ← ReadAtLeast fuel r k [];
  if (k <=? length buf)%nat then Some (r', buf, None)
  else if (0 <? length buf)%nat && bool_decide (err = Some EOF)
  then Some (r', buf, Some ErrUnexpectedEOF)
  else Some (r', buf, err).
End read_full.

(** ** Header encoding *)

Definition encodeHeader (header : Header) (target : list byte) : list byte :=
  let target := splice 0 (be_put 4 (PayloadLength header)) target in
  let target := splice 4 (be_put 2 (Version header)) target in
  let target := splice 6 (be_put 2 (MessageType header)) target in
  let target := splice 8 (be_put 4 (Flags header)) target in
  let target := splice 12 (be_put 8 (CorrelationID header)) target in
  splice 20 (be_put 8 (StreamID header)) target.

Definition decodeHeader (source : list byte) : Header := {|
  PayloadLength := be_get (slice 0 4 source);
  Version := be_get (slice 4 6 source);
  MessageType := be_get (slice 6 8 source);
  Flags := be_get (slice 8 12 source);
  CorrelationID := be_get (slice 12 20 source);
  StreamID := be_get (slice 20 28 source)
|}.

(** ** Decoder *)

Record Decoder (R : Type) := mkDecoder { reader : R; dconfig : Config }.
Arguments mkDecoder {R}. Arguments reader {R}. Arguments dconfig {R}.

Definition NewDecoder {R} (r : R) (config : Config) : Decoder R :=
  mkDecoder r (withDefaults config).

(** [Decoder.ReadFrame]. [None]: out of fuel. *)
Definition ReadFrame {R} `{Reader R} (fuel : nat) (d : Decoder R)
    : option (Decoder R * (Frame + error)) :=
  '(r1, headerBytes, err) ← ReadFull fuel (reader d) (Z.to_nat HeaderSize);
  let d1 := mkDecoder r1 (dconfig d) in
  match err with
  | Some err => Some (d1, inr err)
  | None =>
      let header := decodeHeader headerBytes in
      match header_validate header (dconfig d) with
      | Some err => Some (d1, inr err)
      | None =>
          '(r2, payload, err) ← ReadFull fuel r1 (Z.to_nat (PayloadLength header));
          let d2 := mkDecoder r2 (dconfig d) in
          match err with
          | Some err =>
              if errors_Is err EOF then Some (d2, inr ErrUnexpectedEOF)
              else Some (d2, inr err)
          | None =>
              let frame := mkFrame header payload in
              match Validate frame (dconfig d) with
              | Some err => Some (d2, inr err)
              | None => Some (d2, inl frame)
              end
          end
      end
  end.

(** ** Encoder *)

(** The loop of [writeFull] on [data[written:]]; [None]: out of fuel. *)
Fixpoint writeFull_loop {W} `{Writer W} (fuel : nat) (w : W) (data : list byte)
    : option (W * option error) :=
  match data with
  | [] => Some (w, None)
  | _ =>
      match fuel with
      | O => None
      | S fuel =>
          let '(w', n, err) := Write w data in
          if (n <? 0) || (len data <? n) then Some (w', Some ErrShortWrite)
          else match err with
          | Some err => Some (w', Some err)
          | None =>
              if n =? 0 then Some (w', Some ErrShortWrite)
              else writeFull_loop fuel w' (drop (Z.to_nat n) data)
          end
      end
  end.

Definition writeFull {W} `{Writer W} (w : W) (data : list byte) : option (W * option error) :=
  writeFull_loop (length data) w data.

Record Encoder (W : Type) := mkEncoder { writer : W; econfig : Config }.
Arguments mkEncoder {W}. Arguments writer {W}. Arguments econfig {W}.

Definition NewEncoder {W} (w : W) (config : Config) : Encoder W :=
  mkEncoder w (withDefaults config).

(** [frame.Header.PayloadLength = uint32(len(frame.Payload))] *)
Definition with_length (f : Frame) : Frame :=
  set_FHeader (set_PayloadLength (u32 (len (Payload f))) (FHeader f)) f.

(** The zero value of [[HeaderSize]byte]. *)
Definition header_array : list byte := replicate (Z.to_nat HeaderSize) Byte.x00.

(** [Encoder.WriteFrame] *)
Definition WriteFrame {W} `{Writer W} (e : Encoder W) (frame0 : Frame)
    : option (Encoder W * option error) :=
  let frame := with_length frame0 in
  match Validate frame (econfig e) with
  | Some err => Some (e, Some err)
  | None =>
      '(w1, err) ← writeFull (writer e) (encodeHeader (FHeader frame) header_array);
      match err with
      | Some err => Some (mkEncoder w1 (econfig e), Some err)
      | None =>
          '(w2, err) ← writeFull w1 (Payload frame);
          Some (mkEncoder w2 (econfig e), err)
      end
  end.

(** The wire form of a frame. *)
Definition encode (f : Frame) : list byte :=
  encodeHeader (FHeader f) header_array ++ Payload f.

(** ** Concrete transports *)

(** A reader that delivers its bytes in the given chunks, then EOF: any way a
    transport may split the stream. An empty chunk is an empty read. *)
Record chunked := mkChunked { chunks : list (list byte) }.

#[export] Instance chunked_Reader : Reader chunked := fun r k =>
  match chunks r with
  | [] => (r, [], Some EOF)
  | c :: cs =>
      let rest := drop k c in
      (mkChunked (match rest with [] => cs | _ => rest :: cs end), take k c, None)
  end.

(** A writer that accepts at most [quota] bytes per call. *)
Record quota_writer := mkQuota { quota : nat; qlog : list byte }.

#[export] Instance quota_Writer : Writer quota_writer := fun w data =>
  let n := Nat.min (quota w) (length data) in
  (mkQuota (quota w) (qlog w ++ take n data), Z.of_nat n,
   if (n <? length data)%nat && (n =? 0)%nat then Some ErrClosedPipe else None).

#[export, refine] Instance chunked_laws : ReaderLaws chunked := {|
  contents r := concat (chunks r);
  final _ := EOF;
  stall r := length (chunks r)
|}.
Proof.
  intros [cs] k r' bs err Hk. unfold Read, chunked_Reader; cbn.
  destruct cs as [|c cs]; intros [= <- <- <-]; [cbn; repeat split; lia|].
  pose proof (take_drop k c) as Htd.
  split; [|split; [done|split; [rewrite length_take; lia|]]].
  - rewrite <- Htd at 1. destruct (drop k c); cbn; by rewrite <- app_assoc.
  - destruct c as [|b c]; cbn.
    + rewrite drop_nil. cbn. split; [lia|right; lia].
    + destruct k; [lia|]. cbn. split; [destruct (drop _ _); cbn; lia|by left].
Defined.

#[export, refine] Instance quota_laws : WriterLaws quota_writer := {|
  written := qlog
|}.
Proof.
  intros [q log] data w' n err. unfold Write, quota_Writer; cbn.
  intros [= <- <- <-]. rewrite Nat2Z.id. unfold len. split; [lia|done].
Defined.

(** ** Facts about the header encoding *)

Lemma encodeHeader_fields h target :
  length target = Z.to_nat HeaderSize ->
  encodeHeader h target =
    be_put 4 (PayloadLength h) ++ be_put 2 (Version h) ++ be_put 2 (MessageType h) ++
    be_put 4 (Flags h) ++ be_put 8 (CorrelationID h) ++ be_put 8 (StreamID h).
Proof.
  intros Hl. change (Z.to_nat HeaderSize) with 28%nat in Hl.
  do 28 (destruct target as [|? target]; [discriminate|]).
  destruct target; [|discriminate]. reflexivity.
Qed.

Lemma length_header_array : length header_array = Z.to_nat HeaderSize.
Proof. reflexivity. Qed.

Lemma length_encodeHeader h target :
  length target = Z.to_nat HeaderSize ->
  length (encodeHeader h target) = Z.to_nat HeaderSize.
Proof. intros Hl. rewrite encodeHeader_fields by done. reflexivity. Qed.

Lemma decode_encodeHeader h target :
  header_wf h -> length target = Z.to_nat HeaderSize ->
  decodeHeader (encodeHeader h target) = h.
Proof.
  intros (H1 & H2 & H3 & H4 & H5 & H6) Hl. rewrite encodeHeader_fields by done.
  destruct h as [l v m f c s]; cbn [PayloadLength Version MessageType Flags CorrelationID StreamID] in *.
  unfold decodeHeader. f_equal.
  - apply (be_get_put_small 4 l H1).
  - apply (be_get_put_small 2 v H2).
  - apply (be_get_put_small 2 m H3).
  - apply (be_get_put_small 4 f H4).
  - apply (be_get_put_small 8 c H5).
  - apply (be_get_put_small 8 s H6).
Qed.

Lemma length_slice {A} lo hi (l : list A) :
  (hi <= length l)%nat -> length (slice lo hi l) = (hi - lo)%nat.
Proof. intros. unfold slice. rewrite length_take, length_drop. lia. Qed.

Lemma slice_bound lo hi l :
  (hi <= length l)%nat -> fits_u (8 * Z.of_nat (hi - lo)) (be_get (slice lo hi l)).
Proof.
  intros H. pose proof (be_get_bound (slice lo hi l)) as Hb.
  unfold len in Hb. by rewrite length_slice in Hb.
Qed.

Lemma decodeHeader_wf source :
  length source = Z.to_nat HeaderSize -> header_wf (decodeHeader source).
Proof.
  intros Hl. change (Z.to_nat HeaderSize) with 28%nat in Hl.
  unfold header_wf, decodeHeader; cbn [PayloadLength Version MessageType Flags CorrelationID StreamID].
  repeat split; match goal with
  | |- context [be_get (slice ?lo ?hi ?l)] =>
      pose proof (slice_bound lo hi l ltac:(lia)) as Hb; cbn in Hb; apply Hb
  end.
Qed.

Lemma be_put_slice k lo hi l :
  (hi <= length l)%nat -> (hi - lo)%nat = k -> be_put k (be_get (slice lo hi l)) = slice lo hi l.
Proof. intros Hh <-. rewrite <- (length_slice lo hi l) by done. apply be_put_get. Qed.

Lemma encode_decodeHeader source target :
  length source = Z.to_nat HeaderSize -> length target = Z.to_nat HeaderSize ->
  encodeHeader (decodeHeader source) target = source.
Proof.
  intros Hs Ht. rewrite encodeHeader_fields by done. change (Z.to_nat HeaderSize) with 28%nat in Hs.
  unfold decodeHeader; cbn [PayloadLength Version MessageType Flags CorrelationID StreamID].
  rewrite !be_put_slice by lia.
  do 28 (destruct source as [|? source]; [discriminate|]).
  destruct source; [|discriminate]. reflexivity.
Qed.

(** ** Facts about reading *)

Section reading.
Context {R : Type} `{ReaderLaws R}.

(** The fuel that always suffices for a read loop. *)
Definition rank (r : R) : nat := (length (contents r) + stall r)%nat.

Lemma ReadAtLeast_sound fuel r k buf r' buf' err :
  (length buf <= k)%nat -> ReadAtLeast fuel r k buf = Some (r', buf', err) ->
  exists got, buf' = buf ++ got /\ contents r = got ++ contents r' /\ final r' = final r /\
    (stall r' <= stall r)%nat /\ (length buf' <= k)%nat /\
    match err with
    | None => length buf' = k
    | Some e => e = final r /\ contents r' = []
    end.
Proof.
  revert r buf. induction fuel as [|fuel IH]; intros r buf Hk; cbn [ReadAtLeast];
    (destruct (Nat.ltb_spec (length buf) k) as [Hlt|]; [|intros [= <- <- <-]; exists [];
       rewrite app_nil_r; repeat split; (done || lia)]); [discriminate|].
  destruct (Read r (k - length buf)) as [[r1 bs] [e|]] eqn:ER.
  - intros [= <- <- <-]. apply Read_law in ER as (Hc & Hf & Hlb & Hst & He & Hn); [|lia].
    exists bs. rewrite length_app. repeat split; (done || lia).
  - intros HL. apply Read_law in ER as (Hc & Hf & Hlb & Hst & Hp); [|lia].
    apply IH in HL as (got & -> & Hc1 & Hf1 & Hs1 & Hl1 & Herr); [|rewrite length_app; lia].
    exists (bs ++ got). rewrite !app_assoc. split; [done|].
    rewrite Hc, Hc1, app_assoc. rewrite Hf1, Hf in *. repeat split; (done || lia).
Qed.

Lemma ReadAtLeast_total fuel r k buf :
  (rank r < fuel)%nat -> is_Some (ReadAtLeast fuel r k buf).
Proof.
  revert r buf. induction fuel as [|fuel IH]; intros r buf Hf; [lia|]. cbn [ReadAtLeast].
  destruct (Nat.ltb_spec (length buf) k) as [Hlt|]; [|by eexists].
  destruct (Read r (k - length buf)) as [[r1 bs] [e|]] eqn:ER; [by eexists|].
  apply Read_law in ER as (Hc & _ & Hlb & Hst & Hp); [|lia].
  apply IH. unfold rank in *. rewrite Hc, length_app in Hf.
  destruct Hp as [Hne|]; [|lia]. destruct bs; [done|cbn in *; lia].
Qed.

Lemma ReadFull_sound fuel r k r' buf err :
  ReadFull fuel r k = Some (r', buf, err) ->
  contents r = buf ++ contents r' /\ final r' = final r /\ (rank r' <= rank r)%nat /\
  match err with
  | None => length buf = k
  | Some e => (length buf < k)%nat /\ contents r' = [] /\
      e = if (0 <? length buf)%nat && bool_decide (final r = EOF)
          then ErrUnexpectedEOF else final r
  end.
Proof.
  unfold ReadFull. intros HR. apply bind_Some in HR as ([[r1 b1] e1] & HL & HR).
  apply ReadAtLeast_sound in HL as (got & -> & Hc & Hf & Hst & Hlk & He); [|cbn; lia].
  cbn [app] in *. assert (rank r1 <= rank r)%nat by (unfold rank; rewrite Hc, length_app; lia).
  destruct (Nat.leb_spec k (length got)); [simplify_eq; repeat split; (done || lia)|].
  destruct e1 as [e1|]; [|lia]. destruct He as [-> Hnil].
  destruct (decide (final r = EOF)) as [Hd|Hd].
  - rewrite bool_decide_true in HR by congruence. rewrite (bool_decide_true (final r = EOF)) by done.
    destruct (0 <? length got)%nat eqn:E0; cbn in HR; simplify_eq; rewrite E0; by repeat split.
  - rewrite bool_decide_false in HR by congruence. rewrite (bool_decide_false (final r = EOF)) by done.
    rewrite andb_false_r in *. simplify_eq. by repeat split.
Qed.

Lemma ReadFull_total fuel r k : (rank r < fuel)%nat -> is_Some (ReadFull fuel r k).
Proof.
  intros Hf. unfold ReadFull. destruct (ReadAtLeast_total fuel r k [] Hf) as [[[r1 b] e] ->].
  cbn. repeat case_match; by eexists.
Qed.

Lemma ReadFull_enough fuel r k :
  (rank r < fuel)%nat -> (k <= length (contents r))%nat ->
  exists r', ReadFull fuel r k = Some (r', take k (contents r), None) /\
    contents r' = drop k (contents r) /\ final r' = final r /\ (rank r' <= rank r)%nat.
Proof.
  intros Hf Hk. destruct (ReadFull_total fuel r k Hf) as [[[r' buf] err] HR].
  pose proof (ReadFull_sound _ _ _ _ _ _ HR) as (Hc & Hfin & Hrk & He).
  destruct err as [e|].
  - destruct He as (Hl & Hn & _). rewrite Hn, app_nil_r in Hc. rewrite Hc in Hk. lia.
  - exists r'. split; [|split; [|done]].
    + rewrite HR, Hc. by rewrite take_app_length'.
    + rewrite Hc. by rewrite drop_app_length'.
Qed.

Lemma ReadFull_short fuel r k :
  (rank r < fuel)%nat -> (length (contents r) < k)%nat ->
  exists r', ReadFull fuel r k = Some (r', contents r, Some
      (if (0 <? length (contents r))%nat && bool_decide (final r = EOF)
       then ErrUnexpectedEOF else final r)) /\ contents r' = [].
Proof.
  intros Hf Hk. destruct (ReadFull_total fuel r k Hf) as [[[r' buf] err] HR].
  pose proof (ReadFull_sound _ _ _ _ _ _ HR) as (Hc & Hfin & Hrk & He).
  destruct err as [e|].
  - destruct He as (Hl & Hn & ->). rewrite Hn, app_nil_r in Hc. subst buf. by exists r'.
  - apply (f_equal length) in Hc. rewrite length_app in Hc. lia.
Qed.
End reading.

(** ** Frames on the wire *)

Lemma length_encode f : length (encode f) = (Z.to_nat HeaderSize + length (Payload f))%nat.
Proof. unfold encode. by rewrite length_app, length_encodeHeader by apply length_header_array. Qed.

Lemma encode_split f :
  take (Z.to_nat HeaderSize) (encode f) = encodeHeader (FHeader f) header_array /\
  drop (Z.to_nat HeaderSize) (encode f) = Payload f.
Proof.
  unfold encode. split; [apply take_app_length'|apply drop_app_length'];
    by rewrite length_encodeHeader by apply length_header_array.
Qed.

(** What acceptance by [Validate] gives the decoder. *)
Lemma Validate_parts f config :
  config_wf config -> Validate f config = None ->
  header_validate (FHeader f) (withDefaults config) = None /\
  PayloadLength (FHeader f) = len (Payload f).
Proof.
  intros Hc Hv. pose proof (withDefaults_MaxFrameBytes _ Hc) as Hm. unfold Validate in Hv.
  destruct (Z.ltb_spec (MaxFrameBytes (withDefaults config)) (len (Payload f))) as [|Hle];
    [discriminate|]. cbn [orb] in Hv.
  rewrite (len_u64 _ _ Hle) in Hv by lia.
  destruct (Z.ltb_spec MaxUint32 (len (Payload f))); [discriminate|].
  destruct (header_validate _ _); [discriminate|]. split; [done|].
  rewrite uwrap_small in Hv by (unfold fits_u, MaxUint32 in *; pose proof (len_nonneg (Payload f)); lia).
  destruct (Z.eqb_spec (len (Payload f)) (PayloadLength (FHeader f))); [done|discriminate].
Qed.

Lemma Validate_withDefaults f config : Validate f (withDefaults config) = Validate f config.
Proof. unfold Validate. by rewrite withDefaults_idemp. Qed.

Section decoding.
Context {R : Type} `{ReaderLaws R}.

(** Reading back one encoded frame, from any reader whatever its chunking. *)
Lemma ReadFrame_encode fuel config r f rest :
  config_wf config -> header_wf (FHeader f) -> Validate f config = None ->
  contents r = encode f ++ rest -> (rank r < fuel)%nat ->
  exists r', ReadFrame fuel (mkDecoder r (withDefaults config))
               = Some (mkDecoder r' (withDefaults config), inl f) /\
    contents r' = rest /\ final r' = final r /\ (rank r' <= rank r)%nat.
Proof.
  intros Hc Hwf Hv Hr Hfuel. pose proof (Validate_parts _ _ Hc Hv) as [Hhv Hpl].
  pose proof (encode_split f) as [Het Hed]. pose proof (length_encode f) as Hel.
  unfold ReadFrame; cbn [reader dconfig].
  edestruct (ReadFull_enough fuel r (Z.to_nat HeaderSize)) as (r1 & -> & Hc1 & Hf1 & Hr1);
    [done|rewrite Hr, length_app; lia|]. cbn [mbind option_bind].
  rewrite Hr, take_app_le, Het, decode_encodeHeader, Hhv by (done || lia).
  rewrite Hr, drop_app_le, Hed in Hc1 by lia.
  edestruct (ReadFull_enough fuel r1 (Z.to_nat (PayloadLength (FHeader f))))
    as (r2 & -> & Hc2 & Hf2 & Hr2); [lia|rewrite Hc1, Hpl, length_app; unfold len; lia|].
  cbn [mbind option_bind]. rewrite Hc1, Hpl in *. unfold len in *. rewrite Nat2Z.id in *.
  rewrite take_app_length. rewrite drop_app_length in Hc2.
  replace (mkFrame (FHeader f) (Payload f)) with f by (by destruct f).
  rewrite Validate_withDefaults, Hv. exists r2.
  repeat split; (congruence || lia).
Qed.

(** Decoder soundness. Whatever the transport delivers, a frame that
    [ReadFrame] returns satisfies the decoder's validation and the bytes
    consumed are exactly that frame's encoding: no other byte string is
    accepted and no byte of the following frames is lost. *)
Theorem ReadFrame_sound fuel (d d' : Decoder R) f :
  config_wf (dconfig d) -> ReadFrame fuel d = Some (d', inl f) ->
  Validate f (dconfig d) = None /\ header_wf (FHeader f) /\
  contents (reader d) = encode f ++ contents (reader d') /\ dconfig d' = dconfig d.
Proof.
  intros Hcw HR. unfold ReadFrame in HR.
  apply bind_Some in HR as ([[r1 hb] e1] & H1 & HR). destruct e1 as [e1|]; [discriminate|].
  apply ReadFull_sound in H1 as (Hc1 & _ & _ & Hl1).
  destruct (header_validate _ _); [discriminate|].
  apply bind_Some in HR as ([[r2 pl] e2] & H2 & HR).
  destruct e2 as [e2|]; [by destruct (errors_Is e2 EOF)|].
  apply ReadFull_sound in H2 as (Hc2 & _ & _ & Hl2).
  destruct (Validate _ _) eqn:Ev; [discriminate|]. injection HR as <- <-.
  split; [done|]. split; [by apply decodeHeader_wf|]. cbn [reader dconfig].
  split; [|done]. unfold encode; cbn [FHeader Payload].
  by rewrite encode_decodeHeader, Hc1, Hc2, app_assoc by done.
Qed.

(** Termination. A read loop over a transport that eventually delivers,
    fails or ends always returns: [rank] reads suffice for a whole frame. *)
Theorem ReadFrame_total fuel (d : Decoder R) :
  (rank (reader d) < fuel)%nat -> is_Some (ReadFrame fuel d).
Proof.
  intros Hf. unfold ReadFrame.
  destruct (ReadFull_total fuel (reader d) (Z.to_nat HeaderSize) Hf) as [[[r1 b1] e1] H1].
  rewrite H1. cbn [mbind option_bind]. destruct e1; [by eexists|].
  destruct (header_validate _ _); [by eexists|].
  apply ReadFull_sound in H1 as (_ & _ & Hr1 & _).
  destruct (ReadFull_total fuel r1 (Z.to_nat (PayloadLength (decodeHeader b1)))) as [[[r2 b2] e2] H2];
    [lia|]. rewrite H2. cbn [mbind option_bind]. repeat case_match; by eexists.
Qed.

(** Truncation. When the stream ends inside a frame the decoder never
    returns a frame: a stream that ends between frames gives io.EOF, one that
    ends anywhere inside a frame, header or payload, gives
    io.ErrUnexpectedEOF. *)
Theorem ReadFrame_truncated fuel config r f n :
  config_wf config -> header_wf (FHeader f) -> Validate f config = None ->
  (n < length (encode f))%nat -> contents r = take n (encode f) -> final r = EOF ->
  (rank r < fuel)%nat ->
  exists d', ReadFrame fuel (NewDecoder r config)
    = Some (d', inr (if (n =? 0)%nat then EOF else ErrUnexpectedEOF)).
Proof.
  intros Hc Hwf Hv Hn Hr Hfin Hfuel. pose proof (Validate_parts _ _ Hc Hv) as [Hhv Hpl].
  pose proof (encode_split f) as [Het Hed]. pose proof (length_encode f) as Hel.
  assert (length (contents r) = n) as Hlr by (rewrite Hr, length_take; lia).
  unfold ReadFrame, NewDecoder; cbn [reader dconfig].
  destruct (decide (n < Z.to_nat HeaderSize)%nat) as [Hlt|Hge].
  - edestruct (ReadFull_short fuel r (Z.to_nat HeaderSize)) as (r1 & -> & _); [done|lia|].
    cbn [mbind option_bind]. rewrite Hlr, bool_decide_true, andb_true_r, Hfin by done.
    eexists. destruct n; cbn; done.
  - edestruct (ReadFull_enough fuel r (Z.to_nat HeaderSize)) as (r1 & -> & Hc1 & Hf1 & Hr1);
      [done|lia|]. cbn [mbind option_bind].
    rewrite Hr, take_take, Nat.min_l, Het, decode_encodeHeader, Hhv by (done || lia).
    edestruct (ReadFull_short fuel r1 (Z.to_nat (PayloadLength (FHeader f)))) as (r2 & -> & _).
    { lia. }
    { rewrite Hc1, length_drop, Hlr, Hpl. unfold len. lia. }
    cbn [mbind option_bind].
    replace (n =? 0)%nat with false by (symmetry; apply Nat.eqb_neq; change (Z.to_nat HeaderSize) with 28%nat in *; lia).
    rewrite Hf1, Hfin. rewrite (bool_decide_true (EOF = EOF)), andb_true_r by done.
    destruct (0 <? length (contents r1))%nat; eexists; reflexivity.
Qed.

(** The read loop of a sole reader: frames until the first error. *)
Fixpoint ReadFrames (fuel n : nat) (d : Decoder R) : option (list Frame * option error) :=
  match n with
  | O => Some ([], None)
  | S n =>
      '(d', res) ← ReadFrame fuel d;
      match res with
      | inr err => Some ([], Some err)
      | inl f => '(fs, err) ← ReadFrames fuel n d'; Some (f :: fs, err)
      end
  end.

Lemma ReadFrames_encode fuel config r fs n :
  config_wf config ->
  Forall (fun f => header_wf (FHeader f) /\ Validate f config = None) fs ->
  contents r = concat (map encode fs) -> final r = EOF -> (rank r < fuel)%nat ->
  (length fs < n)%nat ->
  ReadFrames fuel n (mkDecoder r (withDefaults config)) = Some (fs, Some EOF).
Proof.
  intros Hc Hfs. revert r n. induction Hfs as [|f fs [Hwf Hv] _ IH]; intros r n Hr Hfin Hfuel Hn.
  - destruct n as [|n]; [cbn in Hn; lia|]. cbn [ReadFrames]. unfold ReadFrame; cbn [reader dconfig].
    edestruct (ReadFull_short fuel r (Z.to_nat HeaderSize)) as (r1 & -> & _);
      [done|rewrite Hr; by apply Nat.ltb_lt|]. cbn [mbind option_bind].
    rewrite Hr, Hfin. reflexivity.
  - destruct n as [|n]; [cbn in Hn; lia|]. cbn [ReadFrames].
    destruct (ReadFrame_encode fuel config r f (concat (map encode fs)))
      as (r' & -> & Hc' & Hf' & Hr'); [done..|].
    cbn [mbind option_bind]. rewrite IH; [done|done|congruence|lia|cbn in Hn; lia].
Qed.
End decoding.

Section encoding.
Context {W : Type} `{Writer W}.

Lemma writeFull_total' (w : W) data : is_Some (writeFull w data).
Proof.
  unfold writeFull. assert (forall fuel w data, (length data <= fuel)%nat ->
    is_Some (writeFull_loop fuel w data)) as Hgen; [|by apply Hgen].
  clear. induction fuel as [|fuel IH]; intros w data Hf.
  - destruct data; [by eexists|cbn in Hf; lia].
  - destruct data as [|b data]; [by eexists|]. cbn [writeFull_loop].
    destruct (Write w (b :: data)) as [[w' n] err].
    destruct (_ || _) eqn:Eb; [by eexists|]. reflect_bools.
    destruct err; [by eexists|]. destruct (Z.eqb_spec n 0); [by eexists|].
    apply IH. rewrite length_drop. cbn in *. lia.
Qed.

Lemma WriteFrame_total (e : Encoder W) f : is_Some (WriteFrame e f).
Proof.
  unfold WriteFrame. destruct (Validate _ _); [by eexists|].
  destruct (writeFull_total' (writer e) (encodeHeader (FHeader (with_length f)) header_array))
    as [[w1 e1] ->]. cbn [mbind option_bind]. destruct e1; [by eexists|].
  destruct (writeFull_total' w1 (Payload (with_length f))) as [[w2 e2] ->]. by eexists.
Qed.

(** Write loops terminate. For any writer whatsoever, lawful or not,
    [writeFull] returns after at most [len(data)] calls of [Write]: every
    iteration either returns or consumes at least one byte. *)
Theorem writeFull_total (w : W) data : is_Some (writeFull w data).
Proof. apply writeFull_total'. Qed.

Context `{!WriterLaws W}.

Lemma writeFull_spec w data w' err :
  writeFull w data = Some (w', err) ->
  exists k, written w' = written w ++ take k data /\ (err = None -> take k data = data).
Proof.
  unfold writeFull. generalize (length data) as fuel. intros fuel. revert w data.
  induction fuel as [|fuel IH]; intros w data HW.
  - destruct data; [|discriminate]. cbn in HW. simplify_eq. exists O. by rewrite app_nil_r.
  - destruct data as [|b data]; cbn [writeFull_loop] in HW.
    { simplify_eq. exists O. by rewrite app_nil_r. }
    destruct (Write w (b :: data)) as [[w1 n] e1] eqn:EW.
    apply Write_law in EW as [Hn Hw1].
    destruct (_ || _) eqn:Eb; [apply orb_true_iff in Eb as [?|?]; reflect_bools; lia|].
    destruct e1 as [e1|]; [simplify_eq; by exists (Z.to_nat n)|].
    destruct (n =? 0); [simplify_eq; by exists (Z.to_nat n)|].
    apply IH in HW as (k & Hw' & Hall). exists (Z.to_nat n + k)%nat.
    assert (take (Z.to_nat n + k) (b :: data) =
            take (Z.to_nat n) (b :: data) ++ take k (drop (Z.to_nat n) (b :: data))) as Ht.
    { rewrite <- (take_drop (Z.to_nat n) (b :: data)) at 1.
      assert (length (take (Z.to_nat n) (b :: data)) = Z.to_nat n)
        by (rewrite length_take; unfold len in Hn; lia).
      rewrite take_app_add'; done. }
    split; [by rewrite Ht, Hw', Hw1, app_assoc|].
    intros He. by rewrite Ht, Hall, take_drop by done.
Qed.

(** Writing one frame. On success the whole encoding of the frame (with
    its length field computed from the payload) has been appended, and the
    frame was valid; on failure only a prefix of that encoding has; a frame
    that fails validation writes nothing. *)
Theorem WriteFrame_spec (e e' : Encoder W) f err :
  WriteFrame e f = Some (e', err) ->
  econfig e' = econfig e /\
  exists out, written (writer e') = written (writer e) ++ out /\
    out `prefix_of` encode (with_length f) /\
    match err with
    | None => out = encode (with_length f) /\ Validate (with_length f) (econfig e) = None
    | Some x => Validate (with_length f) (econfig e) = Some x -> out = []
    end.
Proof.
  unfold WriteFrame. destruct (Validate (with_length f) (econfig e)) as [x|] eqn:Ev.
  - intros [= <- <-]. split; [done|]. exists []. rewrite app_nil_r.
    split; [done|]. split; [apply prefix_nil|done].
  - intros HW. apply bind_Some in HW as ([w1 e1] & H1 & HW).
    apply writeFull_spec in H1 as (k1 & Hw1 & Hk1).
    set (hd := encodeHeader (FHeader (with_length f)) header_array) in *.
    destruct e1 as [e1|].
    + injection HW as <- <-. split; [done|]. exists (take k1 hd).
      split; [done|]. split; [|done]. unfold encode. fold hd.
      etrans; [|by apply prefix_app_r]. exists (drop k1 hd). by rewrite take_drop.
    + apply bind_Some in HW as ([w2 e2] & H2 & HW). injection HW as <- <-.
      apply writeFull_spec in H2 as (k2 & Hw2 & Hk2). split; [done|].
      rewrite (Hk1 eq_refl) in Hw1. exists (hd ++ take k2 (Payload (with_length f))). cbn [writer].
      split; [by rewrite Hw2, Hw1, app_assoc|]. unfold encode. fold hd. split.
      * apply prefix_app. exists (drop k2 (Payload (with_length f))). symmetry. apply take_drop.
      * destruct e2; [done|]. by rewrite (Hk2 eq_refl).
Qed.

(** Writing frames one after another until the first error. *)
Fixpoint WriteFrames (e : Encoder W) (fs : list Frame) : option (Encoder W * option error) :=
  match fs with
  | [] => Some (e, None)
  | f :: fs =>
      '(e', err) ← WriteFrame e f;
      match err with
      | Some err => Some (e', Some err)
      | None => WriteFrames e' fs
      end
  end.

Lemma WriteFrames_spec e e' fs :
  WriteFrames e fs = Some (e', None) ->
  written (writer e') = written (writer e) ++ concat (map (fun f => encode (with_length f)) fs) /\
  Forall (fun f => Validate (with_length f) (econfig e) = None) fs.
Proof.
  revert e. induction fs as [|f fs IH]; intros e HW; cbn in HW.
  - simplify_eq. by rewrite app_nil_r.
  - apply bind_Some in HW as ([e1 err] & H1 & HW). destruct err; [discriminate|].
    apply WriteFrame_spec in H1 as (Hcfg & out & Hw & _ & -> & Hv).
    apply IH in HW as [Hw' Hvs]. rewrite Hcfg in Hvs. split; [|by constructor].
    cbn. by rewrite Hw', Hw, app_assoc.
Qed.
End encoding.

Lemma with_length_wf f : header_wf (FHeader f) -> header_wf (FHeader (with_length f)).
Proof. intros (_ & Hr). split; [apply uwrap_bound; lia|exact Hr]. Qed.

(** C1. The wire round trip. Frames written one after another by an encoder,
    through any lawful writer (short writes included), are read back exactly,
    in order and followed by io.EOF, by a decoder over any lawful reader of the
    same bytes, however the transport splits them; the two sides' configurations
    only have to agree on which frames are valid. *)
Theorem codec_roundtrip {W R} `{WriterLaws W} `{ReaderLaws R}
    fuel n (w : W) (r : R) wcfg rcfg fs e' :
  config_wf rcfg -> Forall (fun f => header_wf (FHeader f)) fs ->
  (forall f, Validate f wcfg = None -> Validate f rcfg = None) ->
  written w = [] -> WriteFrames (NewEncoder w wcfg) fs = Some (e', None) ->
  contents r = written (writer e') -> final r = EOF ->
  (rank r < fuel)%nat -> (length fs < n)%nat ->
  ReadFrames fuel n (NewDecoder r rcfg) = Some (map with_length fs, Some EOF).
Proof.
  intros Hc Hwf Hag Hw0 HW Hr Hfin Hfuel Hn.
  apply WriteFrames_spec in HW as [Hw Hvs]. cbn [writer econfig NewEncoder] in *.
  apply ReadFrames_encode; [done| |by rewrite Hr, Hw, Hw0, map_map|done..|by rewrite length_map].
  apply Forall_map. rewrite Forall_forall in Hwf, Hvs |- *. intros f Hf. split.
  - apply with_length_wf. by apply Hwf.
  - apply Hag. rewrite <- Validate_withDefaults. by apply Hvs.
Qed.

(** ** Concrete runs *)

Definition demo_frame : Frame :=
  mkFrame (mkHeader 2 1 3 FlagEvent 0 7) [Byte.x68; Byte.x69].
Definition demo_request : Frame :=
  mkFrame (mkHeader 0 1 9 FlagRequest 5 0) [].

(** The encoding of [demo_frame] split inside the header, with an empty read. *)
Definition demo_reader : chunked :=
  mkChunked [take 5 (encode demo_frame); []; drop 5 (encode demo_frame)].

Lemma DefaultConfig_wf : config_wf DefaultConfig.
Proof. unfold config_wf, fits_u. concrete. Qed.

Lemma demo_frame_wf : header_wf (FHeader demo_frame).
Proof. unfold header_wf, fits_u. concrete. Qed.
Lemma demo_request_wf : header_wf (FHeader demo_request).
Proof. unfold header_wf, fits_u. concrete. Qed.

Lemma ReadFrame_sound_witness :
  Validate demo_frame DefaultConfig = None /\ header_wf (FHeader demo_frame) /\
  contents demo_reader = encode demo_frame ++ contents (mkChunked []) /\
  DefaultConfig = DefaultConfig.
Proof.
  apply (ReadFrame_sound 50 (mkDecoder demo_reader DefaultConfig)
           (mkDecoder (mkChunked []) DefaultConfig) demo_frame).
  - exact DefaultConfig_wf.
  - vm_compute. reflexivity.
Defined.

Lemma ReadFrame_total_witness : is_Some (ReadFrame 50 (mkDecoder demo_reader DefaultConfig)).
Proof. apply (ReadFrame_total 50 (mkDecoder demo_reader DefaultConfig)). apply Nat.ltb_lt. vm_compute. reflexivity. Defined.

Lemma ReadFrame_truncated_witness :
  exists d', ReadFrame 50 (NewDecoder (mkChunked [take 20 (encode demo_frame)]) DefaultConfig)
    = Some (d', inr (if (20 =? 0)%nat then EOF else ErrUnexpectedEOF)).
Proof.
  apply (ReadFrame_truncated 50 DefaultConfig (mkChunked [take 20 (encode demo_frame)]) demo_frame 20).
  - exact DefaultConfig_wf.
  - exact demo_frame_wf.
  - vm_compute. reflexivity.
  - apply Nat.ltb_lt. vm_compute. reflexivity.
  - vm_compute. reflexivity.
  - reflexivity.
  - apply Nat.ltb_lt. vm_compute. reflexivity.
Defined.

Definition demo_encoder : Encoder quota_writer := NewEncoder (mkQuota 3 []) DefaultConfig.

Lemma WriteFrame_spec_witness :
  econfig (default demo_encoder (fst <$> WriteFrame demo_encoder demo_frame)) = econfig demo_encoder /\
  exists out, written (writer (default demo_encoder (fst <$> WriteFrame demo_encoder demo_frame)))
      = written (writer demo_encoder) ++ out /\
    out `prefix_of` encode (with_length demo_frame) /\
    out = encode (with_length demo_frame) /\ Validate (with_length demo_frame) (econfig demo_encoder) = None.
Proof.
  apply (WriteFrame_spec demo_encoder
           (default demo_encoder (fst <$> WriteFrame demo_encoder demo_frame)) demo_frame None).
  vm_compute. reflexivity.
Defined.

Definition demo_written : Encoder quota_writer :=
  default demo_encoder (fst <$> WriteFrames demo_encoder [demo_frame; demo_request]).

Lemma codec_roundtrip_witness :
  ReadFrames 100 3 (NewDecoder (mkChunked [written (writer demo_written)]) DefaultConfig)
    = Some (map with_length [demo_frame; demo_request], Some EOF).
Proof.
  apply (codec_roundtrip 100 3 (mkQuota 3 []) (mkChunked [written (writer demo_written)])
           DefaultConfig DefaultConfig [demo_frame; demo_request] demo_written).
  - exact DefaultConfig_wf.
  - repeat constructor; vm_compute; first [reflexivity | discriminate].
  - intros f Hf. exact Hf.
  - reflexivity.
  - vm_compute. reflexivity.
  - vm_compute. reflexivity.
  - reflexivity.
  - apply Nat.ltb_lt. vm_compute. reflexivity.
  - apply Nat.ltb_lt. vm_compute. reflexivity.
Defined.
