(* ===== verification/Conn.v ===== *)
(** conn.go: one full-duplex stream shared by concurrent senders, a write loop
    and a reader. The state holds the fields of [Conn], the program counters of
    the goroutines that touch them and, as ghost fields, the history of the
    frames accepted and written. Each step is one atomic action of one
    goroutine; a reachable state is one that some interleaving produces. *)

From S2P Require Import Prelude Errors BigEndian Frame Codec.

(** [writeRequest]: the request of the [Send] call numbered [wr_id]; its
    [result] channel is [results !! wr_id] of the state. *)
Record writeRequest := mkWriteRequest { wr_id : N; wr_frame : Frame }.

(** Where a call of [send] stands: at the first select, at the second, or
    returned. *)
Inductive send_pc :=
| AtEnqueue (req : writeRequest)
| AtResult (req : writeRequest)
| Returned (result : option error).

(** Where [writeLoop] stands: at its select, in [WriteFrame] of a request, after
    a failed write (before [setError]), before the final stream Close, or
    returned (with [done] closed). *)
Inductive loop_pc :=
| LoopSelect
| LoopWriting (req : writeRequest)
| LoopFailed (err : error)
| LoopClosing
| LoopExited.

(** The body of [closeOnce]: not started, waiting for [done] with the result of
    the stream's Close, or complete. *)
Inductive close_pc :=
| CloseIdle
| CloseWaiting (streamErr : option error)
| CloseComplete.

(** The stream's Close method. *)
Class Closer (W : Type) := CloseStream : W -> W * option error.
Class CloserLaws (W : Type) `{WriterLaws W, Closer W} :=
  CloseStream_written w : written (CloseStream w).1 = written w.

Record Conn (W : Type) := mkConn {
  encoder : Encoder W;
  conn_config : Config;
  ctx_err : option error;               (* c.ctx.Err() *)
  writes : list writeRequest;           (* the buffer of c.writes *)
  done : bool;                          (* c.done is closed *)
  conn_err : option error;              (* c.err *)
  loop : loop_pc;
  calls : gmap N send_pc;
  results : gmap N (list (option error)); (* the buffers of the result channels *)
  closer : close_pc;
  g_accepted : list writeRequest;       (* ghost: requests received from or put in c.writes *)
  g_written : list writeRequest;        (* ghost: requests written without error *)
}.
Arguments mkConn {W}. Arguments encoder {W}. Arguments conn_config {W}.
Arguments ctx_err {W}. Arguments writes {W}. Arguments done {W}. Arguments conn_err {W}.
Arguments loop {W}. Arguments calls {W}. Arguments results {W}. Arguments closer {W}.
Arguments g_accepted {W}. Arguments g_written {W}.

Section conn.
Context {W : Type} `{Writer W} `{Closer W}.
Implicit Types c : Conn W.

(** ** Field updates *)

Definition upd_stream (w : W) c : Conn W :=
  mkConn (mkEncoder w (econfig (encoder c))) (conn_config c) (ctx_err c) (writes c) (done c)
    (conn_err c) (loop c) (calls c) (results c) (closer c) (g_accepted c) (g_written c).
Definition upd_ctx (e : option error) c : Conn W :=
  mkConn (encoder c) (conn_config c) e (writes c) (done c)
    (conn_err c) (loop c) (calls c) (results c) (closer c) (g_accepted c) (g_written c).
Definition upd_writes (q acc : list writeRequest) c : Conn W :=
  mkConn (encoder c) (conn_config c) (ctx_err c) q (done c)
    (conn_err c) (loop c) (calls c) (results c) (closer c) acc (g_written c).
Definition upd_err (e : option error) c : Conn W :=
  mkConn (encoder c) (conn_config c) (ctx_err c) (writes c) (done c)
    e (loop c) (calls c) (results c) (closer c) (g_accepted c) (g_written c).
Definition upd_loop (l : loop_pc) (d : bool) c : Conn W :=
  mkConn (encoder c) (conn_config c) (ctx_err c) (writes c) d
    (conn_err c) l (calls c) (results c) (closer c) (g_accepted c) (g_written c).
Definition upd_call (id : N) (pc : send_pc) c : Conn W :=
  mkConn (encoder c) (conn_config c) (ctx_err c) (writes c) (done c)
    (conn_err c) (loop c) (<[id:=pc]> (calls c)) (results c) (closer c) (g_accepted c) (g_written c).
Definition upd_result (id : N) (buf : list (option error)) c : Conn W :=
  mkConn (encoder c) (conn_config c) (ctx_err c) (writes c) (done c)
    (conn_err c) (loop c) (calls c) (<[id:=buf]> (results c)) (closer c) (g_accepted c) (g_written c).
Definition upd_closer (p : close_pc) c : Conn W :=
  mkConn (encoder c) (conn_config c) (ctx_err c) (writes c) (done c)
    (conn_err c) (loop c) (calls c) (results c) p (g_accepted c) (g_written c).
Definition log_written (req : writeRequest) c : Conn W :=
  mkConn (encoder c) (conn_config c) (ctx_err c) (writes c) (done c)
    (conn_err c) (loop c) (calls c) (results c) (closer c) (g_accepted c) (g_written c ++ [req]).

(** ** Operations *)

(** [Open], after its nil checks. *)
Definition Open (stream : W) (config0 : Config) : Conn W + error :=
  let config := withDefaults config0 in
  if MaxVersion config <? MinVersion config then inr ErrInvalidVersionRange
  else inl (mkConn (NewEncoder stream config) config None [] false None LoopSelect ∅ ∅
              CloseIdle [] []).

(** [setError]: the first non-nil error is kept. *)
Definition setError (err : option error) c : Conn W :=
  match err with
  | None => c
  | Some _ => match conn_err c with None => upd_err err c | Some _ => c end
  end.

(** [result] *)
Definition result c : option error :=
  match conn_err c with Some err => Some err | None => Some ErrConnClosed end.

(** [send] up to its first select (the context is not nil). *)
Definition send_begin (id : N) (frame : Frame) c : Conn W :=
  match Validate frame (conn_config c) with
  | Some err => upd_call id (Returned (Some err)) c
  | None => upd_result id [] (upd_call id (AtEnqueue (mkWriteRequest id frame)) c)
  end.

(** The first select's [c.writes <- request] on a buffered channel with room. *)
Definition send_enqueue (req : writeRequest) c : Conn W :=
  upd_call (wr_id req) (AtResult req)
    (upd_writes (writes c ++ [req]) (g_accepted c ++ [req]) c).

(** [c.writes <- request] received directly by the waiting write loop. *)
Definition send_handoff (req : writeRequest) c : Conn W :=
  upd_loop (LoopWriting req) (done c)
    (upd_call (wr_id req) (AtResult req) (upd_writes (writes c) (g_accepted c ++ [req]) c)).

(** [writeLoop] at [case <-c.ctx.Done()], with the deferred [close(c.done)]. *)
Definition loop_ctx_done (err : error) c : Conn W :=
  upd_loop LoopExited true (setError (Some err) c).

(** [writeLoop] at [case request := <-c.writes]. *)
Definition loop_receive c : option (Conn W) :=
  match writes c with
  | [] => None
  | req :: rest => Some (upd_loop (LoopWriting req) (done c) (upd_writes rest (g_accepted c) c))
  end.

(** [err := c.encoder.WriteFrame(request.frame); request.result <- err]. [None]
    where the send on [request.result] (a channel of capacity 1) would block. *)
Definition loop_write (req : writeRequest) c : option (Conn W) :=
  '(e, err) ← WriteFrame (encoder c) (wr_frame req);
  buf ← results c !! wr_id req;
  match buf with
  | _ :: _ => None
  | [] =>
      let c1 := upd_result (wr_id req) [err] (upd_stream (writer e) c) in
      Some match err with
      | None => upd_loop LoopSelect (done c) (log_written req c1)
      | Some err => upd_loop (LoopFailed err) (done c) c1
      end
  end.

(** The three actions of a failed write: [c.setError(err)] (after which
    [c.cancel()] is the step [cancel]), [c.stream.Close()], return. *)
Definition loop_set_error (err : error) c : Conn W :=
  upd_loop LoopClosing (done c) (setError (Some err) c).
Definition close_stream c : Conn W := upd_stream (CloseStream (writer (encoder c))).1 c.
Definition loop_close c : Conn W := upd_loop LoopExited true (close_stream c).

(** [c.cancel()], or the parent context ending with [err]: the first cause stays. *)
Definition cancel (err : error) c : Conn W :=
  match ctx_err c with None => upd_ctx (Some err) c | Some _ => c end.

(** [closeOnce] up to [<-c.done] (its [c.cancel()] first), and after it. *)
Definition close_begin c : Conn W :=
  let c1 := cancel Canceled c in
  upd_closer (CloseWaiting (CloseStream (writer (encoder c1))).2) (close_stream c1).
Definition close_finish (streamErr : option error) c : Conn W :=
  upd_closer CloseComplete
    match streamErr with
    | Some err => if errors_Is err ErrClosedPipe then c else setError (Some err) c
    | None => c
    end.

(** What [Close] returns once [closeOnce] is complete. *)
Definition Close_result c : option error :=
  match conn_err c with
  | Some err => if errors_Is err Canceled || errors_Is err ErrClosedPipe then None else Some err
  | None => None
  end.

(** ** The interleavings *)

Inductive conn_step : Conn W -> Conn W -> Prop :=
| step_send_begin c id frame :
    calls c !! id = None -> conn_step c (send_begin id frame c)
| step_send_enqueue c id req :
    calls c !! id = Some (AtEnqueue req) ->
    len (writes c) < WriteQueue (conn_config c) -> conn_step c (send_enqueue req c)
| step_send_handoff c id req :
    calls c !! id = Some (AtEnqueue req) -> writes c = [] -> loop c = LoopSelect ->
    conn_step c (send_handoff req c)
| step_send_ctx c id req err :
    calls c !! id = Some (AtEnqueue req) \/ calls c !! id = Some (AtResult req) ->
    conn_step c (upd_call id (Returned (Some err)) c)
| step_send_done c id req :
    calls c !! id = Some (AtEnqueue req) \/ calls c !! id = Some (AtResult req) ->
    done c = true -> conn_step c (upd_call id (Returned (result c)) c)
| step_send_result c id req err :
    calls c !! id = Some (AtResult req) -> results c !! id = Some [err] ->
    conn_step c (upd_result id [] (upd_call id (Returned err) c))
| step_loop_ctx c err :
    loop c = LoopSelect -> ctx_err c = Some err -> conn_step c (loop_ctx_done err c)
| step_loop_receive c c' :
    loop c = LoopSelect -> loop_receive c = Some c' -> conn_step c c'
| step_loop_write c req c' :
    loop c = LoopWriting req -> loop_write req c = Some c' -> conn_step c c'
| step_loop_set_error c err :
    loop c = LoopFailed err -> conn_step c (loop_set_error err c)
| step_loop_close c : loop c = LoopClosing -> conn_step c (loop_close c)
| step_read_error c err : conn_step c (setError (Some err) c)
| step_cancel c err : conn_step c (cancel err c)
| step_watch_close c : ctx_err c <> None -> conn_step c (close_stream c)
| step_close_begin c : closer c = CloseIdle -> conn_step c (close_begin c)
| step_close_finish c streamErr :
    closer c = CloseWaiting streamErr -> done c = true ->
    conn_step c (close_finish streamErr c).

Inductive conn_reachable (stream : W) (config : Config) : Conn W -> Prop :=
| conn_initial c : Open stream config = inl c -> conn_reachable stream config c
| conn_next c c' : conn_reachable stream config c -> conn_step c c' ->
    conn_reachable stream config c'.
End conn.

(** ** Invariant *)

(** The request the write loop holds. *)
Definition in_hand (l : loop_pc) : list writeRequest :=
  match l with LoopWriting req => [req] | _ => [] end.

(** The write loop has failed or stopped. *)
Definition loop_over (l : loop_pc) : bool :=
  match l with LoopSelect | LoopWriting _ => false | _ => true end.

Definition wire_of (reqs : list writeRequest) : list byte :=
  concat (map (fun req => encode (with_length (wr_frame req))) reqs).
#[global] Arguments wire_of : simpl never.

Section conn_inv.
Context {W : Type} `{CloserLaws W}.
Implicit Types c : Conn W.

Record conn_inv (stream : W) (config : Config) (c : Conn W) : Prop := {
  inv_config : conn_config c = withDefaults config /\ econfig (encoder c) = withDefaults config;
  inv_wire : exists tail,
    written (writer (encoder c)) = written stream ++ wire_of (g_written c) ++ tail /\
    (loop_over (loop c) = false -> tail = []);
  inv_fifo : exists lost, g_accepted c = g_written c ++ lost ++ writes c /\
    (loop_over (loop c) = false -> lost = in_hand (loop c));
  inv_nodup : NoDup (map wr_id (g_accepted c));
  inv_capacity : len (writes c) <= Z.max 0 (WriteQueue (conn_config c));
  inv_accepted req : req ∈ g_accepted c ->
    calls c !! wr_id req = Some (AtResult req) \/
    exists err, calls c !! wr_id req = Some (Returned err);
  inv_waiting id req : calls c !! id = Some (AtEnqueue req) ->
    wr_id req = id /\ results c !! id = Some [];
  inv_sent id req : calls c !! id = Some (AtResult req) -> wr_id req = id /\ req ∈ g_accepted c;
  inv_pending req : req ∈ in_hand (loop c) ++ writes c -> results c !! wr_id req = Some [];
  inv_result_ok id : results c !! id = Some [None] -> exists req, req ∈ g_written c /\ wr_id req = id;
  inv_result_one id buf : results c !! id = Some buf -> (length buf <= 1)%nat;
  inv_result_id id : is_Some (results c !! id) -> is_Some (calls c !! id);
  inv_returned_ok id : calls c !! id = Some (Returned None) ->
    exists req, req ∈ g_written c /\ wr_id req = id;
  inv_valid req : req ∈ g_written c -> Validate (with_length (wr_frame req)) config = None;
  inv_done : done c = true <-> loop c = LoopExited;
  inv_err : loop c = LoopClosing \/ loop c = LoopExited -> conn_err c <> None;
}.

Lemma setError_some err c : conn_err (setError (Some err) c) <> None.
Proof. unfold setError. by destruct (conn_err c) eqn:E; cbn; rewrite ?E. Qed.

Lemma setError_keep x err c : conn_err c = Some err -> conn_err (setError x c) = Some err.
Proof. intros He. unfold setError. rewrite He. by destruct x. Qed.

Lemma conn_inv_initial stream config c :
  Open stream config = inl c -> conn_inv stream config c.
Proof.
  unfold Open. intros HO. case_match; simplify_eq. split; cbn; try done.
  - by rewrite withDefaults_idemp.
  - exists []. by rewrite !app_nil_r.
  - by exists [].
  - constructor.
  - unfold len; cbn. lia.
  - intros req Hr%elem_of_nil. done.
  - intros req Hr%elem_of_nil. done.
  - intros id [? Hx]. done.
  - intros req Hr%elem_of_nil. done.
  - by intros [|].
Qed.

Ltac frame_inv I := destruct I; split; cbn; try done.

Lemma inv_setError stream config err c :
  conn_inv stream config c -> conn_inv stream config (setError (Some err) c).
Proof.
  intros I. unfold setError. destruct (conn_err c) eqn:E; [done|]. frame_inv I.
Qed.

Lemma inv_cancel stream config err c :
  conn_inv stream config c -> conn_inv stream config (cancel err c).
Proof. intros I. unfold cancel. destruct (ctx_err c); [done|]. frame_inv I. Qed.

Lemma inv_close_stream stream config c :
  conn_inv stream config c -> conn_inv stream config (close_stream c).
Proof. intros I. frame_inv I. by rewrite CloseStream_written. Qed.

Lemma inv_closer stream config p c :
  conn_inv stream config c -> conn_inv stream config (upd_closer p c).
Proof. intros I. frame_inv I. Qed.

(** The loop leaves the state in which it serves requests. *)
Lemma inv_loop_stop stream config l d c :
  conn_inv stream config c -> loop_over l = true -> (d = true <-> l = LoopExited) ->
  (l = LoopClosing \/ l = LoopExited -> conn_err c <> None) ->
  conn_inv stream config (upd_loop l d c).
Proof.
  intros I Hl Hd He. frame_inv I; rewrite ?Hl.
  - destruct inv_wire0 as (tail & -> & _). by exists tail.
  - destruct inv_fifo0 as (lost & -> & _). by exists lost.
  - intros req Hr. apply inv_pending0. destruct l; try discriminate; apply elem_of_app; by right.
Qed.

Lemma inv_return stream config id req err c :
  conn_inv stream config c ->
  calls c !! id = Some (AtEnqueue req) \/ calls c !! id = Some (AtResult req) ->
  (err = None -> exists req, req ∈ g_written c /\ wr_id req = id) ->
  conn_inv stream config (upd_call id (Returned err) c).
Proof.
  intros I Hc He. frame_inv I.
  - intros req' Hr. map_cases; [by right; eexists|by apply inv_accepted0].
  - intros id' req' Hw. map_cases. by apply inv_waiting0.
  - intros id' req' Hs. map_cases. by apply inv_sent0.
  - intros id' Hr. map_cases; [by eexists|by apply inv_result_id0].
  - intros id' Hr. map_cases; [by apply He|by apply inv_returned_ok0].
Qed.

Lemma inv_send_begin stream config id frame c :
  conn_inv stream config c -> calls c !! id = None ->
  conn_inv stream config (send_begin id frame c).
Proof.
  intros I Hn. unfold send_begin.
  assert (results c !! id = None) as Hrn.
  { apply eq_None_not_Some. intros Hs. apply (inv_result_id _ _ _ I) in Hs.
    rewrite Hn in Hs. by destruct Hs. }
  assert (forall req, req ∈ g_accepted c -> wr_id req <> id) as Hni.
  { intros req Hr <-. destruct (inv_accepted _ _ _ I _ Hr) as [Hx|[? Hx]]; congruence. }
  destruct (Validate frame (conn_config c)).
  - frame_inv I.
    + intros req Hr. rewrite lookup_insert_ne by (symmetry; by apply Hni). by apply inv_accepted0.
    + intros id' req Hw. map_cases. by apply inv_waiting0.
    + intros id' req Hs. map_cases. by apply inv_sent0.
    + intros id' Hr. map_cases; [by eexists|by apply inv_result_id0].
    + intros id' Hr. map_cases. by apply inv_returned_ok0.
  - frame_inv I.
    + intros req Hr. rewrite lookup_insert_ne by (symmetry; by apply Hni). by apply inv_accepted0.
    + intros id' req Hw. map_cases; [done|]. by apply inv_waiting0.
    + intros id' req Hs. map_cases. by apply inv_sent0.
    + intros req Hr. specialize (inv_pending0 _ Hr). map_cases. done.
    + intros id' Hr. map_cases. by apply inv_result_ok0.
    + intros id' buf Hr. map_cases; [cbn; lia|]. by eapply inv_result_one0.
    + intros id' Hr. map_cases; [by eexists|by apply inv_result_id0].
    + intros id' Hr. map_cases. by apply inv_returned_ok0.
Qed.

(** Putting a request into the channel, by the buffer or hand to hand. *)
Lemma inv_accept stream config id req q l c :
  conn_inv stream config c -> calls c !! id = Some (AtEnqueue req) ->
  (q = writes c ++ [req] /\ l = loop c /\ len (writes c) < WriteQueue (conn_config c) \/
   q = [] /\ writes c = [] /\ loop c = LoopSelect /\ l = LoopWriting req) ->
  conn_inv stream config
    (upd_loop l (done c) (upd_call (wr_id req) (AtResult req)
       (upd_writes q (g_accepted c ++ [req]) c))).
Proof.
  intros I Hc Hq. pose proof (inv_waiting _ _ _ I _ _ Hc) as [<- Hres].
  assert (forall r, r ∈ g_accepted c -> wr_id r <> wr_id req) as Hni.
  { intros r Hr E. destruct (inv_accepted _ _ _ I _ Hr) as [Hx|[? Hx]]; congruence. }
  assert (in_hand l ++ q = in_hand (loop c) ++ writes c ++ [req]) as Hhand.
  { destruct Hq as [(-> & -> & _)|(-> & -> & -> & ->)]; done. }
  assert (loop_over l = loop_over (loop c)) as Hlo.
  { by destruct Hq as [(-> & -> & _)|(-> & _ & -> & ->)]. }
  frame_inv I; rewrite ?Hlo; try done.
  - destruct inv_fifo0 as (lost & Ha & Hl).
    destruct Hq as [(-> & -> & _)|(-> & Hw & Hls & ->)].
    + exists lost. rewrite Ha, <- !app_assoc. by split.
    + exists [req]. rewrite Ha, Hw, !app_nil_r. by rewrite Hls in Hl; rewrite Hl, app_nil_r.
  - rewrite map_app. apply NoDup_app. split; [done|]. split; [|apply NoDup_singleton].
    intros x Hx%list_elem_of_fmap Hs%list_elem_of_singleton. destruct Hx as (r & -> & Hr).
    by apply (Hni r).
  - destruct Hq as [(-> & _ & Hlt)|(-> & _)]; mux_lia.
  - intros r [Hr|Hr%list_elem_of_singleton]%elem_of_app.
    + rewrite lookup_insert_ne by (symmetry; by apply Hni). by apply inv_accepted0.
    + subst. left. apply lookup_insert_eq.
  - intros id' r Hw. map_cases. by apply inv_waiting0.
  - intros id' r Hs. map_cases; [split; [done|apply elem_of_app; right; by apply list_elem_of_singleton]|].
    apply inv_sent0 in Hs as [? ?]. split; [done|apply elem_of_app; by left].
  - intros r Hr. rewrite Hhand, app_assoc in Hr.
    apply elem_of_app in Hr as [Hr|Hr%list_elem_of_singleton]; [by apply inv_pending0|by subst].
  - intros id' Hr. map_cases; [by eexists|by apply inv_result_id0].
  - intros id' Hr. map_cases. by apply inv_returned_ok0.
  - rewrite inv_done0. by destruct Hq as [(_ & -> & _)|(_ & _ & -> & ->)].
  - intros Hl. apply inv_err0. destruct Hq as [(_ & -> & _)|(_ & _ & _ & ->)]; [done|].
    by destruct Hl.
Qed.

Lemma inv_loop_receive stream config c c' :
  conn_inv stream config c -> loop c = LoopSelect -> loop_receive c = Some c' ->
  conn_inv stream config c'.
Proof.
  intros I Hl Hr. unfold loop_receive in Hr. destruct (writes c) as [|req rest] eqn:Ew; [done|].
  simplify_eq. frame_inv I.
  - destruct inv_wire0 as (tail & Ht & Hn). exists tail. by rewrite Hl in Hn.
  - destruct inv_fifo0 as (lost & Ha & Hn). exists [req].
    rewrite Hl in Hn. rewrite Ha, Ew, Hn by done. done.
  - rewrite Ew in inv_capacity0. mux_lia.
  - intros r Hr. apply inv_pending0. rewrite Ew, Hl. done.
  - rewrite inv_done0, Hl. by split.
  - by intros [|].
Qed.

Lemma inv_result stream config c id buf :
  conn_inv stream config c -> is_Some (calls c !! id) -> (length buf <= 1)%nat ->
  (buf = [None] -> exists req, req ∈ g_written c /\ wr_id req = id) ->
  (forall req, calls c !! id = Some (AtEnqueue req) -> buf = []) ->
  (forall req, req ∈ in_hand (loop c) ++ writes c -> wr_id req = id -> buf = []) ->
  conn_inv stream config (upd_result id buf c).
Proof.
  intros I Hid Hlen Hok Hw Hp. frame_inv I.
  - intros id' req Hc. specialize (inv_waiting0 _ _ Hc) as [<- Hr]. split; [done|].
    map_cases; [|done]. f_equal. by eapply Hw.
  - intros req Hr. map_cases; [f_equal; by eapply Hp|by apply inv_pending0].
  - intros id' Hr. map_cases; [by apply Hok|by apply inv_result_ok0].
  - intros id' b Hr. map_cases; [done|by eapply inv_result_one0].
  - intros id' Hr. map_cases; [done|by apply inv_result_id0].
Qed.

Lemma wire_of_snoc reqs req :
  wire_of (reqs ++ [req]) = wire_of reqs ++ encode (with_length (wr_frame req)).
Proof. unfold wire_of. by rewrite map_app, concat_app; cbn; rewrite app_nil_r. Qed.

(** The request being written is the next one of the accepted sequence. *)
Lemma writing_hand stream config c req :
  conn_inv stream config c -> loop c = LoopWriting req ->
  g_accepted c = g_written c ++ [req] ++ writes c /\ is_Some (calls c !! wr_id req) /\
  results c !! wr_id req = Some [] /\
  (forall r, r ∈ writes c -> wr_id r <> wr_id req) /\
  (forall r, calls c !! wr_id req <> Some (AtEnqueue r)).
Proof.
  intros I Hl. destruct (inv_fifo _ _ _ I) as (lost & Ha & Hh).
  rewrite Hl in Hh. rewrite (Hh eq_refl) in Ha. cbn [in_hand] in Ha.
  assert (req ∈ g_accepted c) as Hin by (rewrite Ha; apply elem_of_app; right; left).
  pose proof (inv_accepted _ _ _ I _ Hin) as Hcall.
  split; [done|]. split; [destruct Hcall as [->|[? ->]]; by eexists|].
  split; [apply (inv_pending _ _ _ I); rewrite Hl; left|].
  split; [|intros r Hr; destruct Hcall as [Hx|[? Hx]]; congruence].
  intros r Hr E. pose proof (inv_nodup _ _ _ I) as Hnd.
  rewrite Ha, map_app in Hnd. apply NoDup_app in Hnd as (_ & _ & Hnd).
  cbn in Hnd. apply NoDup_cons in Hnd as [Hni _]. apply Hni. rewrite <- E.
  apply list_elem_of_fmap. by exists r.
Qed.

Lemma inv_loop_write stream config req c c' :
  conn_inv stream config c -> loop c = LoopWriting req -> loop_write req c = Some c' ->
  conn_inv stream config c'.
Proof.
  intros I Hl HW. pose proof (writing_hand _ _ _ _ I Hl) as (Ha & Hcall & Hres & Hws & Hne).
  unfold loop_write in HW. apply bind_Some in HW as ([e err] & HW & HR).
  rewrite Hres in HR. cbn [mbind option_bind] in HR.
  apply WriteFrame_spec in HW as (Hcfg & out & Hout & _ & Herr).
  destruct (inv_wire _ _ _ I) as (tail & Ht & Hn). rewrite Hl in Hn.
  rewrite (Hn eq_refl), app_nil_r in Ht.
  pose proof (inv_config _ _ _ I) as [Hc1 Hc2]. rewrite Hc2, Validate_withDefaults in Herr.
  destruct err as [err|]; simplify_eq.
  - assert (conn_inv stream config (upd_loop (LoopFailed err) (done c) c)) as I'.
    { apply inv_loop_stop; [done|done|rewrite (inv_done _ _ _ I), Hl; done|by intros [|]]. }
    frame_inv I'.
    + exists out. by rewrite Hout, Ht, <- app_assoc.
    + intros id r Hr. apply inv_waiting0 in Hr as Hx. destruct Hx as [<- Hr'].
      split; [done|]. destruct (decide (wr_id req = wr_id r)) as [E|];
        [rewrite <- E in Hr; by apply Hne in Hr|by rewrite lookup_insert_ne].
    + intros r Hr. map_cases; [by destruct (Hws r Hr)|by apply inv_pending0].
    + intros id Hr. map_cases. by apply inv_result_ok0.
    + intros id buf Hr. map_cases; [cbn; lia|by eapply inv_result_one0].
    + intros id Hr. map_cases; [done|by apply inv_result_id0].
  - destruct Herr as [-> Hv]. frame_inv I.
    + exists []. by rewrite Hout, Ht, wire_of_snoc, app_nil_r, <- !app_assoc.
    + exists []. by rewrite Ha, <- app_assoc.
    + intros id r Hr. apply inv_waiting0 in Hr as Hx. destruct Hx as [<- Hr'].
      split; [done|]. destruct (decide (wr_id req = wr_id r)) as [E|];
        [rewrite <- E in Hr; by apply Hne in Hr|by rewrite lookup_insert_ne].
    + intros r Hr. map_cases; [by destruct (Hws r Hr)|].
      apply inv_pending0. rewrite Hl. by right.
    + intros id Hr. map_cases; [exists req; split; [apply elem_of_app; right; left|done]|].
      destruct (inv_result_ok0 _ Hr) as (r & ? & ?). exists r. split; [apply elem_of_app; by left|done].
    + intros id buf Hr. map_cases; [cbn; lia|by eapply inv_result_one0].
    + intros id Hr. map_cases; [done|by apply inv_result_id0].
    + intros id Hr. destruct (inv_returned_ok0 _ Hr) as (r & ? & ?).
      exists r. split; [apply elem_of_app; by left|done].
    + intros r [Hr|Hr%list_elem_of_singleton]%elem_of_app; [by apply inv_valid0|by subst].
    + rewrite inv_done0, Hl. by split.
    + by intros [|].
Qed.

Lemma inv_step stream config c c' :
  conn_inv stream config c -> conn_step c c' -> conn_inv stream config c'.
Proof.
  intros I Hs. destruct Hs.
  - by apply inv_send_begin.
  - eapply (inv_accept _ _ id req (writes c ++ [req]) (loop c)) in I; [exact I|done|by left].
  - eapply (inv_accept _ _ id req (writes c) (LoopWriting req)) in I; [exact I|done|right].
    repeat split; done.
  - by eapply inv_return.
  - eapply inv_return; [done..|]. unfold result. by destruct (conn_err c).
  - apply inv_result; cbn.
    + eapply inv_return; [done|by right|]. intros ->. by apply (inv_result_ok _ _ _ I).
    + rewrite lookup_insert_eq. by eexists.
    + lia.
    + done.
    + done.
    + done.
  - apply inv_loop_stop; [by apply inv_setError|done..|]. intros _. apply setError_some.
  - by eapply inv_loop_receive.
  - by eapply inv_loop_write.
  - apply inv_loop_stop; [by apply inv_setError|done|cbn|intros _; apply setError_some].
    assert (done c <> true) by (rewrite (inv_done _ _ _ I); congruence).
    split; [done|discriminate].
  - apply inv_loop_stop; [by apply inv_close_stream|done..|].
    intros _. apply (inv_err _ _ _ I). by left.
  - by apply inv_setError.
  - by apply inv_cancel.
  - by apply inv_close_stream.
  - by apply inv_closer, inv_close_stream, inv_cancel.
  - apply inv_closer. destruct streamErr as [e|]; [|done].
    destruct (errors_Is e ErrClosedPipe); [done|by apply inv_setError].
Qed.

Lemma reachable_inv stream config c :
  conn_reachable stream config c -> conn_inv stream config c.
Proof.
  induction 1; [by apply conn_inv_initial|by eapply inv_step].
Qed.

(** ** Properties *)

(** Wire integrity. In every state that concurrent senders, the reader,
    cancellation and Close can reach, the bytes written to the stream are the
    whole encodings of the successfully written frames, in order, followed by
    nothing while the write loop is alive; no two frames are interleaved. *)
Theorem conn_wire stream config c :
  conn_reachable stream config c ->
  exists tail : list byte, written (writer (encoder c)) =
      written stream ++ wire_of (g_written c) ++ tail /\
    (loop_over (loop c) = false -> tail = []) /\
    (forall req, req ∈ g_written c -> Validate (with_length (wr_frame req)) config = None).
Proof.
  intros I%reachable_inv. destruct (inv_wire _ _ _ I) as (tail & Ht & Hn).
  exists tail. split; [done|]. split; [done|]. apply (inv_valid _ _ _ I).
Qed.

(** FIFO writes. Requests reach the stream in the order in which the
    channel accepted them: what has been written, then the request in the
    loop's hand, then the buffer, is the accepted sequence, each request once;
    after a failure at most the requests in between are lost. *)
Theorem conn_fifo stream config c :
  conn_reachable stream config c ->
  NoDup (map wr_id (g_accepted c)) /\
  exists lost, g_accepted c = g_written c ++ lost ++ writes c /\
    (loop_over (loop c) = false -> lost = in_hand (loop c)).
Proof. intros I%reachable_inv. split; [apply I|]. destruct I. done. Qed.

(** A nil result is a delivery. A call of Send that has returned nil has
    had its whole frame written to the stream. *)
Theorem conn_send_delivered stream config c id :
  conn_reachable stream config c -> calls c !! id = Some (Returned None) ->
  exists req pre post, wr_id req = id /\ req ∈ g_written c /\
    written (writer (encoder c)) = pre ++ encode (with_length (wr_frame req)) ++ post.
Proof.
  intros I%reachable_inv Hc. destruct (inv_returned_ok _ _ _ I _ Hc) as (req & Hr & Hid).
  destruct (inv_wire _ _ _ I) as (tail & Ht & _).
  apply list_elem_of_split in Hr as (l1 & l2 & Hl).
  exists req, (written stream ++ wire_of l1), (wire_of l2 ++ tail).
  split; [done|]. split; [rewrite Hl; apply elem_of_app; right; left|].
  rewrite Ht, Hl. unfold wire_of. rewrite map_app, concat_app. cbn. by rewrite <- !app_assoc.
Qed.

(** The write loop never blocks on a result channel. Each request's
    channel has capacity one and receives one value, so the loop's
    [request.result <- err] proceeds even when the sender has gone, and the
    write itself terminates. *)
Theorem conn_loop_never_blocks stream config c req :
  conn_reachable stream config c -> loop c = LoopWriting req ->
  is_Some (loop_write req c).
Proof.
  intros I%reachable_inv Hl. pose proof (writing_hand _ _ _ _ I Hl) as (_ & _ & Hres & _).
  unfold loop_write.
  destruct (WriteFrame_total (encoder c) (wr_frame req)) as [[e err] ->].
  cbn. rewrite Hres. cbn. by eexists.
Qed.

(** The first error wins. Once a terminal error is recorded no action of
    any goroutine replaces it. *)
Theorem conn_first_error c c' err :
  conn_step c c' -> conn_err c = Some err -> conn_err c' = Some err.
Proof.
  intros Hs He. destruct Hs; try exact He.
  - unfold send_begin. by case_match.
  - by apply setError_keep.
  - unfold loop_receive in *. by case_match; simplify_eq.
  - unfold loop_write in *. match goal with H : _ = Some c' |- _ => rename H into HW end.
    apply bind_Some in HW as ([e1 err1] & _ & HW). apply bind_Some in HW as (buf & _ & HW).
    by repeat case_match; simplify_eq.
  - by apply setError_keep.
  - by apply setError_keep.
  - unfold cancel. by case_match.
  - unfold close_begin, cancel. by case_match.
  - unfold close_finish. destruct streamErr as [e|]; [|done].
    destruct (errors_Is e ErrClosedPipe); [done|]. exact (setError_keep _ _ _ He).
Qed.

(** A dead connection reports an error. Once [done] is closed the recorded
    error is non-nil, so a [send] that observes [done] returns that error (its
    ErrConnClosed fallback is never needed) and never nil. *)
Theorem conn_done_error stream config c :
  conn_reachable stream config c -> done c = true ->
  exists err, conn_err c = Some err /\ result c = Some err.
Proof.
  intros I%reachable_inv Hd. apply (inv_done _ _ _ I) in Hd.
  pose proof (inv_err _ _ _ I (or_intror Hd)) as He.
  destruct (conn_err c) as [err|] eqn:E; [|done]. exists err. unfold result. by rewrite E.
Qed.

(** Close does not hang. Once the context is cancelled, the write loop can
    by its own steps alone, whatever it was doing, reach its exit and close
    [done], on which Close and the blocked senders wait. *)
Theorem conn_loop_exits stream config c :
  conn_reachable stream config c -> ctx_err c <> None ->
  exists c', rtc conn_step c c' /\ done c' = true /\ calls c' = calls c /\ closer c' = closer c.
Proof.
  intros Hr Hctx. destruct (ctx_err c) as [ce|] eqn:Ec; [|done].
  assert (forall c1, loop c1 = LoopClosing -> exists c', rtc conn_step c1 c' /\
    done c' = true /\ calls c' = calls c1 /\ closer c' = closer c1) as Hclosing.
  { intros c1 Hl. exists (loop_close c1). split; [by apply rtc_once, step_loop_close|done]. }
  assert (forall c1 e, loop c1 = LoopFailed e -> exists c', rtc conn_step c1 c' /\
    done c' = true /\ calls c' = calls c1 /\ closer c' = closer c1) as Hfailed.
  { intros c1 e Hl. destruct (Hclosing (loop_set_error e c1)) as (c' & Hs & Hd & Hc & Hcl); [done|].
    exists c'. split; [eapply rtc_l; [by apply step_loop_set_error|done]|].
    rewrite Hc, Hcl. cbn. by destruct (conn_err c1). }
  assert (forall c1, loop c1 = LoopSelect -> ctx_err c1 = Some ce -> exists c', rtc conn_step c1 c' /\
    done c' = true /\ calls c' = calls c1 /\ closer c' = closer c1) as Hselect.
  { intros c1 Hl He. exists (loop_ctx_done ce c1).
    split; [by apply rtc_once, step_loop_ctx|]. unfold loop_ctx_done, setError. by case_match. }
  destruct (loop c) as [|req|e| |] eqn:El; eauto.
  - destruct (conn_loop_never_blocks _ _ _ _ Hr El) as [c1 Hw].
    assert (exists c', rtc conn_step c1 c' /\ done c' = true /\ calls c' = calls c1 /\
      closer c' = closer c1 /\ calls c1 = calls c /\ closer c1 = closer c) as
      (c' & Hs & Hd & Hc & Hcl & Hc1 & Hcl1).
    { unfold loop_write in Hw. apply bind_Some in Hw as ([e err] & _ & Hw).
      apply bind_Some in Hw as (buf & _ & Hw). destruct buf; [|done]. destruct err as [err|]; simplify_eq.
      - edestruct Hfailed as (c' & ? & ? & ? & ?); [|exists c'; eauto 10]. done.
      - edestruct Hselect as (c' & ? & ? & ? & ?); [| |exists c'; eauto 10]; done. }
    exists c'. split; [eapply rtc_l; [by eapply step_loop_write|done]|]. by rewrite Hc, Hcl.
  - exists c. split; [done|]. split; [|done]. by apply (inv_done _ _ _ (reachable_inv _ _ _ Hr)).
Qed.

(** End to end. While the write loop is alive, a decoder at the other end
    of a fresh stream, reading the bytes written so far over any transport,
    obtains exactly the frames written, in order. *)
Theorem conn_end_to_end {R} `{ReaderLaws R} stream config c (r : R) fuel n :
  conn_reachable stream config c -> written stream = [] -> config_wf config ->
  (forall req, req ∈ g_written c -> header_wf (FHeader (wr_frame req))) ->
  loop_over (loop c) = false -> contents r = written (writer (encoder c)) -> final r = EOF ->
  (rank r < fuel)%nat -> (length (g_written c) < n)%nat ->
  ReadFrames fuel n (NewDecoder r config) =
    Some (map (fun req => with_length (wr_frame req)) (g_written c), Some EOF).
Proof.
  intros Hr Hs Hc Hwf Hl Hcont Hfin Hfuel Hn.
  apply reachable_inv in Hr as I. destruct (inv_wire _ _ _ I) as (tail & Ht & Hnil).
  rewrite Hs, (Hnil Hl), app_nil_r in Ht. cbn [app] in Ht.
  apply ReadFrames_encode; [done| |by rewrite Hcont, Ht; unfold wire_of; rewrite map_map|done..
    |by rewrite length_map].
  apply Forall_map, Forall_forall. intros req Hreq. split.
  - by apply with_length_wf, Hwf.
  - by apply (inv_valid _ _ _ I).
Qed.
End conn_inv.

(** ** A concrete run: one call of Send over a writer of three bytes per call. *)

#[export] Instance quota_Closer : Closer quota_writer := fun w => (w, None).
#[export] Instance quota_closer_laws : CloserLaws quota_writer.
Proof. done. Defined.

Definition demo_stream : quota_writer := mkQuota 3 [].
Definition demo_open : Conn quota_writer :=
  match Open demo_stream DefaultConfig with inl c => c | inr _ => mkConn demo_encoder DefaultConfig
    None [] false None LoopSelect ∅ ∅ CloseIdle [] [] end.
Definition demo_req : writeRequest := mkWriteRequest 1 demo_frame.
Definition demo_queued : Conn quota_writer := send_enqueue demo_req (send_begin 1 demo_frame demo_open).
Definition demo_writing : Conn quota_writer := default demo_queued (loop_receive demo_queued).
Definition demo_sent : Conn quota_writer := default demo_writing (loop_write demo_req demo_writing).
Definition demo_delivered : Conn quota_writer :=
  upd_result 1 [] (upd_call 1 (Returned None) demo_sent).
Definition demo_closed : Conn quota_writer := loop_ctx_done Canceled (cancel Canceled demo_delivered).

Lemma demo_writing_reachable : conn_reachable demo_stream DefaultConfig demo_writing.
Proof.
  eapply conn_next; [eapply conn_next; [eapply conn_next; [by apply (conn_initial _ _ demo_open)|]|]|].
  - by apply (step_send_begin _ 1 demo_frame).
  - by apply (step_send_enqueue _ 1 demo_req).
  - by apply step_loop_receive.
Defined.

Lemma demo_delivered_reachable : conn_reachable demo_stream DefaultConfig demo_delivered.
Proof.
  eapply conn_next; [eapply conn_next; [exact demo_writing_reachable|]|].
  - eapply (step_loop_write _ demo_req demo_sent); vm_compute; reflexivity.
  - eapply (step_send_result _ 1 demo_req None); vm_compute; reflexivity.
Defined.

Lemma demo_closed_reachable : conn_reachable demo_stream DefaultConfig demo_closed.
Proof.
  eapply conn_next; [eapply conn_next; [exact demo_delivered_reachable|]|].
  - apply (step_cancel _ Canceled).
  - by apply (step_loop_ctx _ Canceled).
Defined.

Lemma conn_wire_witness : exists tail : list byte, written (writer (encoder demo_delivered)) =
    written demo_stream ++ wire_of (g_written demo_delivered) ++ tail /\
  (loop_over (loop demo_delivered) = false -> tail = []) /\
  (forall req, req ∈ g_written demo_delivered ->
     Validate (with_length (wr_frame req)) DefaultConfig = None).
Proof. apply (conn_wire demo_stream DefaultConfig demo_delivered demo_delivered_reachable). Defined.

Lemma conn_fifo_witness : NoDup (map wr_id (g_accepted demo_delivered)) /\
  exists lost, g_accepted demo_delivered = g_written demo_delivered ++ lost ++ writes demo_delivered /\
    (loop_over (loop demo_delivered) = false -> lost = in_hand (loop demo_delivered)).
Proof. apply (conn_fifo demo_stream DefaultConfig demo_delivered demo_delivered_reachable). Defined.

Lemma conn_send_delivered_witness : exists req pre post, wr_id req = 1%N /\
  req ∈ g_written demo_delivered /\
  written (writer (encoder demo_delivered)) = pre ++ encode (with_length (wr_frame req)) ++ post.
Proof.
  apply (conn_send_delivered demo_stream DefaultConfig demo_delivered 1 demo_delivered_reachable).
  vm_compute. reflexivity.
Defined.

Lemma conn_loop_never_blocks_witness : is_Some (loop_write demo_req demo_writing).
Proof.
  apply (conn_loop_never_blocks demo_stream DefaultConfig demo_writing demo_req demo_writing_reachable).
  vm_compute. reflexivity.
Defined.

Lemma conn_first_error_witness : conn_err (setError (Some EOF) demo_closed) = Some Canceled.
Proof.
  apply (conn_first_error demo_closed (setError (Some EOF) demo_closed) Canceled).
  - apply step_read_error.
  - vm_compute. reflexivity.
Defined.

Lemma conn_done_error_witness : exists err, conn_err demo_closed = Some err /\
  result demo_closed = Some err.
Proof.
  apply (conn_done_error demo_stream DefaultConfig demo_closed demo_closed_reachable).
  vm_compute. reflexivity.
Defined.

Lemma conn_loop_exits_witness : exists c',
  rtc conn_step (cancel Canceled demo_delivered) c' /\ done c' = true /\
  calls c' = calls (cancel Canceled demo_delivered) /\
  closer c' = closer (cancel Canceled demo_delivered).
Proof.
  apply (conn_loop_exits demo_stream DefaultConfig (cancel Canceled demo_delivered)).
  - eapply conn_next; [exact demo_delivered_reachable|apply (step_cancel _ Canceled)].
  - vm_compute. discriminate.
Defined.

Lemma conn_end_to_end_witness :
  ReadFrames 50 2 (NewDecoder (mkChunked [written (writer (encoder demo_delivered))]) DefaultConfig)
    = Some (map (fun req => with_length (wr_frame req)) (g_written demo_delivered), Some EOF).
Proof.
  apply (conn_end_to_end demo_stream DefaultConfig demo_delivered
           (mkChunked [written (writer (encoder demo_delivered))]) 50 2 demo_delivered_reachable).
  - reflexivity.
  - exact DefaultConfig_wf.
  - change (g_written demo_delivered) with [demo_req].
    intros req ->%list_elem_of_singleton. exact demo_frame_wf.
  - reflexivity.
  - vm_compute. reflexivity.
  - reflexivity.
  - apply Nat.ltb_lt. vm_compute. reflexivity.
  - apply Nat.ltb_lt. vm_compute. reflexivity.
Defined.
