(* ===== verification/PeerConfig.v ===== *)
(** peer.go: traffic classes, inbound queue policies and [PeerConfig] with its
    defaults and validation. *)

From S2P Require Import Prelude Errors BigEndian Frame.

(** [TrafficClass] and [InboundQueuePolicy] are uint8 values. *)
Definition TrafficControl : Z := 1.
Definition TrafficInteractive : Z := 2.
Definition TrafficBulk : Z := 3.

Definition InboundQueueFail : Z := 0.
Definition InboundQueueBackpressure : Z := 1.

Record PeerConfig := mkPeerConfig {
  OutboundQueueBytes : Z;
  OutboundQueueFrames : Z;
  PerStreamQueueBytes : Z;
  PerStreamQueueFrames : Z;
  InboundQueuePolicy : Z;
  MaxActiveStreams : Z;
  MaxCanceledRequests : Z;
  ControlWeight : Z;
  InteractiveWeight : Z;
  BulkWeight : Z;
  Classify : option (Frame -> Z);
}.

Definition DefaultPeerConfig : PeerConfig := {|
  OutboundQueueBytes := Z.shiftl 16 20; OutboundQueueFrames := 4096;
  PerStreamQueueBytes := Z.shiftl 1 20; PerStreamQueueFrames := 256;
  InboundQueuePolicy := InboundQueueFail;
  MaxActiveStreams := 1024; MaxCanceledRequests := 4096;
  ControlWeight := 8; InteractiveWeight := 4; BulkWeight := 1;
  Classify := None
|}.

(** The classifier [withDefaults] installs. *)
Definition defaultClassify (frame : Frame) : Z :=
  if negb (Flags (FHeader frame) =? FlagEvent) then TrafficControl else TrafficInteractive.

(** The zero fields replaced by the defaults. *)
Definition fill_defaults (c : PeerConfig) : PeerConfig :=
  let d := DefaultPeerConfig in
  let or x y := if x =? 0 then y else x in
  {| OutboundQueueBytes := or (OutboundQueueBytes c) (OutboundQueueBytes d);
     OutboundQueueFrames := or (OutboundQueueFrames c) (OutboundQueueFrames d);
     PerStreamQueueBytes := or (PerStreamQueueBytes c) (PerStreamQueueBytes d);
     PerStreamQueueFrames := or (PerStreamQueueFrames c) (PerStreamQueueFrames d);
     InboundQueuePolicy := InboundQueuePolicy c;
     MaxActiveStreams := or (MaxActiveStreams c) (MaxActiveStreams d);
     MaxCanceledRequests := or (MaxCanceledRequests c) (MaxCanceledRequests d);
     ControlWeight := or (ControlWeight c) (ControlWeight d);
     InteractiveWeight := or (InteractiveWeight c) (InteractiveWeight d);
     BulkWeight := or (BulkWeight c) (BulkWeight d);
     Classify := Classify c |}.

Definition install_classify (c : PeerConfig) : PeerConfig :=
  mkPeerConfig (OutboundQueueBytes c) (OutboundQueueFrames c) (PerStreamQueueBytes c)
    (PerStreamQueueFrames c) (InboundQueuePolicy c) (MaxActiveStreams c) (MaxCanceledRequests c)
    (ControlWeight c) (InteractiveWeight c) (BulkWeight c)
    (match Classify c with Some f => Some f | None => Some defaultClassify end).

(** [PeerConfig.withDefaults]: the validated configuration or the error. *)
Definition peer_withDefaults (c0 : PeerConfig) : PeerConfig + error :=
  let c := fill_defaults c0 in
  if (OutboundQueueBytes c <=? 0) || (OutboundQueueFrames c <=? 0) ||
     (PerStreamQueueBytes c <=? 0) || (PerStreamQueueFrames c <=? 0) ||
     (MaxActiveStreams c <=? 0) || (MaxCanceledRequests c <=? 0) ||
     (ControlWeight c <=? 0) || (InteractiveWeight c <=? 0) || (BulkWeight c <=? 0) then
    inr (New "streammux: invalid PeerConfig")
  else if OutboundQueueBytes c <? PerStreamQueueBytes c then
    inr (New "streammux: per-stream queue exceeds outbound queue")
  else if OutboundQueueFrames c <? PerStreamQueueFrames c then
    inr (New "streammux: per-stream frame queue exceeds outbound queue")
  else if negb (InboundQueuePolicy c =? InboundQueueFail) &&
          negb (InboundQueuePolicy c =? InboundQueueBackpressure) then
    inr (New "streammux: invalid inbound queue policy")
  else inl (install_classify c).

(** What the rest of the Peer relies on. *)
Record peer_config_ok (c : PeerConfig) : Prop := {
  ok_stream_bytes : 0 < PerStreamQueueBytes c <= OutboundQueueBytes c;
  ok_stream_frames : 0 < PerStreamQueueFrames c <= OutboundQueueFrames c;
  ok_streams : 0 < MaxActiveStreams c;
  ok_canceled : 0 < MaxCanceledRequests c;
  ok_weights : 0 < ControlWeight c /\ 0 < InteractiveWeight c /\ 0 < BulkWeight c;
  ok_policy : InboundQueuePolicy c = InboundQueueFail \/
              InboundQueuePolicy c = InboundQueueBackpressure;
}.

Lemma peer_withDefaults_spec' c :
  match peer_withDefaults c with
  | inl c' => peer_config_ok c' /\ is_Some (Classify c') /\ peer_config_ok (fill_defaults c)
  | inr _ => ~ peer_config_ok (fill_defaults c)
  end.
Proof.
  unfold peer_withDefaults. set (d := fill_defaults c). clearbody d.
  destruct (_ || (BulkWeight d <=? 0)) eqn:E1.
  { intros [? ? ? ? ? ?]. repeat (apply orb_true_iff in E1 as [E1|E1]); reflect_bools; lia. }
  destruct (Z.ltb_spec (OutboundQueueBytes d) (PerStreamQueueBytes d)) as [|H2]; [intros []; lia|].
  destruct (Z.ltb_spec (OutboundQueueFrames d) (PerStreamQueueFrames d)) as [|H3]; [intros []; lia|].
  destruct (_ && _) eqn:E4; reflect_bools.
  { intros [? ? ? ? ? Hp]. by destruct Hp. }
  assert (InboundQueuePolicy d = InboundQueueFail \/ InboundQueuePolicy d = InboundQueueBackpressure)
    as Hp by (destruct E4; reflect_bools; tauto).
  assert (peer_config_ok d) as Hok by (split; (done || lia)).
  split; [|split; [|done]].
  - destruct Hok. by split.
  - cbn. destruct (Classify d); by eexists.
Qed.

Lemma peer_withDefaults_ok c c' : peer_withDefaults c = inl c' -> peer_config_ok c'.
Proof. intros E. pose proof (peer_withDefaults_spec' c) as H. rewrite E in H. apply H. Qed.

(** Configuration validation is exact: a configuration is accepted when and
    only when, after the zero fields take their defaults, every bound and weight
    is positive, the per-stream limits fit the global ones and the policy is
    known; the accepted configuration always has a classifier. *)
Theorem peer_withDefaults_spec c :
  match peer_withDefaults c with
  | inl c' => peer_config_ok c' /\ is_Some (Classify c') /\ peer_config_ok (fill_defaults c)
  | inr _ => ~ peer_config_ok (fill_defaults c)
  end.
Proof. apply peer_withDefaults_spec'. Qed.
