(* ===== verification/Outbound.v ===== *)
(** peer.go: the outbound queues, [takeLocked] and the scan of [schedule]. *)

From S2P Require Import Prelude Errors BigEndian Frame PeerConfig.

(** [outboundRequest]; [req_id] is the identity of the allocated object, whose
    [result] channel the Peer's state holds under that number. *)
Record outboundRequest := mkRequest {
  req_id : N;
  req_frame : Frame;
  req_class : Z;
  req_bytes : Z;
}.

Record outboundStream := mkOutboundStream {
  os_id : Z;
  os_queue : list outboundRequest;
  os_bytes : Z;
}.

(** The outbound fields of [Peer]. *)
Record Outbound := mkOutbound {
  outbound : gmap Z outboundStream;
  outboundOrder : list Z;
  outboundBytes : Z;
  outboundFrames : Z;
}.

Definition empty_outbound : Outbound := mkOutbound ∅ [] 0 0.

(** The number of queue bytes a frame accounts for. *)
Definition frame_bytes (frame : Frame) : Z := len (Payload frame) + HeaderSize.

Definition stream_of (req : outboundRequest) : Z := StreamID (FHeader (req_frame req)).

(** The [fits] computation of [send]. *)
Definition fits (cfg : PeerConfig) (o : Outbound) (req : outboundRequest) : bool :=
  let state := outbound o !! stream_of req in
  let active := Z.of_nat (size (outbound o)) in
  let fits := (req_bytes req <=? PerStreamQueueBytes cfg) &&
              (req_bytes req <=? OutboundQueueBytes cfg) in
  let fits := if bool_decide (state = None) && (MaxActiveStreams cfg <=? active)
              then false else fits in
  let fits := match state with
              | Some state =>
                  if (PerStreamQueueBytes cfg <? os_bytes state + req_bytes req) ||
                     (PerStreamQueueFrames cfg <? len (os_queue state) + 1)
                  then false else fits
              | None => fits
              end in
  if (OutboundQueueBytes cfg <? outboundBytes o + req_bytes req) ||
     (OutboundQueueFrames cfg <? outboundFrames o + 1)
  then false else fits.

(** The update of [send] when the request fits. *)
Definition enqueue (req : outboundRequest) (o : Outbound) : Outbound :=
  let '(state, order) :=
    match outbound o !! stream_of req with
    | Some state => (state, outboundOrder o)
    | None => (mkOutboundStream (stream_of req) [] 0, outboundOrder o ++ [stream_of req])
    end in
  let state := mkOutboundStream (os_id state) (os_queue state ++ [req])
                 (os_bytes state + req_bytes req) in
  mkOutbound (<[stream_of req := state]> (outbound o)) order
    (outboundBytes o + req_bytes req) (outboundFrames o + 1).

(** The body of [takeLocked]'s loop once a stream at [index] has a head request of
    the wanted class: the state and the next cursor. *)
Definition take_at (index : nat) (key : Z) (state : outboundStream) (req : outboundRequest)
    (rest : list outboundRequest) (o : Outbound) : nat * Outbound :=
  let order := outboundOrder o in
  let next := ((index + 1) mod length order)%nat in
  let state' := mkOutboundStream (os_id state) rest (os_bytes state - req_bytes req) in
  let bytes := outboundBytes o - req_bytes req in
  let frames := outboundFrames o - 1 in
  match rest with
  | [] =>
      let order' := take index order ++ drop (index + 1) order in
      let next := if (length order' =? 0)%nat then 0%nat
                  else if (index <? next)%nat then (next - 1)%nat else next in
      (next, mkOutbound (delete (os_id state) (outbound o)) order' bytes frames)
  | _ =>
      (next, mkOutbound (<[key := state']> (outbound o)) order bytes frames)
  end.

(** The stream at position [index] of the order whose first request has [class]. *)
Definition head_at (class : Z) (index : nat) (o : Outbound)
    : option (Z * outboundStream * outboundRequest * list outboundRequest) :=
  key ← outboundOrder o !! index;
  state ← outbound o !! key;
  match os_queue state with
  | [] => None
  | req :: rest => if req_class req =? class then Some (key, state, req, rest) else None
  end.

(** The loop of [takeLocked] with [n] positions left, from [checked]. *)
Fixpoint take_loop (n checked : nat) (class : Z) (cursor : nat) (o : Outbound)
    : option outboundRequest * nat * Outbound :=
  match n with
  | O => (None, cursor, o)
  | S n =>
      let index := ((cursor + checked) mod length (outboundOrder o))%nat in
      match head_at class index o with
      | None => take_loop n (S checked) class cursor o
      | Some (key, state, req, rest) =>
          let '(next, o') := take_at index key state req rest o in (Some req, next, o')
      end
  end.

(** [takeLocked]: the request, the next cursor and the queues. *)
Definition takeLocked (class : Z) (cursor : nat) (o : Outbound)
    : option outboundRequest * nat * Outbound :=
  match outboundOrder o with
  | [] => (None, O, o)
  | _ => take_loop (length (outboundOrder o)) 0 class cursor o
  end.

(** ** The scan of [schedule] *)

Definition classes : list Z := [TrafficControl; TrafficInteractive; TrafficBulk].

(** The [weights] map of [schedule]; 0 for a missing key. *)
Definition weight (cfg : PeerConfig) (class : Z) : Z :=
  if class =? TrafficControl then ControlWeight cfg
  else if class =? TrafficInteractive then InteractiveWeight cfg
  else if class =? TrafficBulk then BulkWeight cfg
  else 0.

(** The local variables of [schedule]. *)
Record Sched := mkSched { classIndex : nat; credit : Z; cursor : nat }.

Definition initial_sched : Sched := mkSched 0 0 0.

Definition class_at (i : nat) : Z := nth i classes 0.

(** One iteration of the scan loop. *)
Definition scan_once (cfg : PeerConfig) (s : Sched) (o : Outbound)
    : option outboundRequest * Sched * Outbound :=
  let class := class_at (classIndex s) in
  let credit0 := if credit s =? 0 then weight cfg class else credit s in
  let '(request, cursor', o') := takeLocked class (cursor s) o in
  let credit1 := if bool_decide (request = None) then credit0 else credit0 - 1 in
  if bool_decide (request = None) || (credit1 =? 0) then
    (request, mkSched ((classIndex s + 1) mod length classes) 0 cursor', o')
  else (request, mkSched (classIndex s) credit1 cursor', o').

(** [for scans := 0; scans < len(classes)*2 && request == nil; scans++] *)
Fixpoint scan_loop (n : nat) (cfg : PeerConfig) (s : Sched) (o : Outbound)
    : option outboundRequest * Sched * Outbound :=
  match n with
  | O => (None, s, o)
  | S n =>
      match scan_once cfg s o with
      | (None, s', o') => scan_loop n cfg s' o'
      | found => found
      end
  end.

Definition scan (cfg : PeerConfig) (s : Sched) (o : Outbound)
    : option outboundRequest * Sched * Outbound :=
  scan_loop (length classes * 2) cfg s o.

(** ** Invariant of the outbound queues *)

(** A queued request accounts for its frame and has one of the three classes. *)
Definition req_ok (req : outboundRequest) : Prop :=
  req_bytes req = frame_bytes (req_frame req) /\ TrafficControl <= req_class req <= TrafficBulk.

Record stream_inv (cfg : PeerConfig) (id : Z) (st : outboundStream) : Prop := {
  si_id : os_id st = id;
  si_nonempty : os_queue st <> [];
  si_bytes : os_bytes st = sumZ req_bytes (os_queue st);
  si_bytes_max : os_bytes st <= PerStreamQueueBytes cfg;
  si_frames_max : len (os_queue st) <= PerStreamQueueFrames cfg;
  si_reqs : Forall (fun req => req_ok req /\ stream_of req = id) (os_queue st);
}.

Record out_inv (cfg : PeerConfig) (o : Outbound) : Prop := {
  oi_nodup : NoDup (outboundOrder o);
  oi_order id : id ∈ outboundOrder o <-> is_Some (outbound o !! id);
  oi_stream id st : outbound o !! id = Some st -> stream_inv cfg id st;
  oi_bytes : outboundBytes o = map_sumZ os_bytes (outbound o);
  oi_frames : outboundFrames o = map_sumZ (fun st => len (os_queue st)) (outbound o);
  oi_bytes_max : outboundBytes o <= OutboundQueueBytes cfg;
  oi_frames_max : outboundFrames o <= OutboundQueueFrames cfg;
  oi_streams : Z.of_nat (size (outbound o)) <= MaxActiveStreams cfg;
}.

Lemma frame_bytes_pos f : 0 < frame_bytes f.
Proof. unfold frame_bytes, HeaderSize. pose proof (len_nonneg (Payload f)). lia. Qed.

Lemma req_ok_pos req : req_ok req -> 0 < req_bytes req.
Proof. intros [-> _]. apply frame_bytes_pos. Qed.
#[export] Hint Resolve frame_bytes_pos req_ok_pos : mux.

Lemma empty_outbound_inv cfg : peer_config_ok cfg -> out_inv cfg empty_outbound.
Proof.
  intros [? ? ? ? ? ?]. split; cbn.
  - constructor.
  - intros id. rewrite lookup_empty. split; [by intros ?%elem_of_nil|by intros [? ?]].
  - intros id st. by rewrite lookup_empty.
  - by rewrite map_sumZ_empty.
  - by rewrite map_sumZ_empty.
  - lia.
  - lia.
  - rewrite map_size_empty. lia.
Qed.

(** What [fits] tests. *)
Lemma fits_spec cfg o req :
  fits cfg o req = true ->
  req_bytes req <= PerStreamQueueBytes cfg /\
  outboundBytes o + req_bytes req <= OutboundQueueBytes cfg /\
  outboundFrames o + 1 <= OutboundQueueFrames cfg /\
  match outbound o !! stream_of req with
  | None => Z.of_nat (size (outbound o)) < MaxActiveStreams cfg
  | Some st => os_bytes st + req_bytes req <= PerStreamQueueBytes cfg /\
               len (os_queue st) + 1 <= PerStreamQueueFrames cfg
  end.
Proof.
  unfold fits. destruct (_ || (OutboundQueueFrames cfg <? outboundFrames o + 1)) eqn:E1; [done|].
  reflect_bools. destruct (outbound o !! stream_of req) as [st|]; cbn.
  - destruct (_ || (PerStreamQueueFrames cfg <? _)) eqn:E2; [done|].
    intros ?. reflect_bools. lia.
  - destruct (Z.leb_spec (MaxActiveStreams cfg) (Z.of_nat (size (outbound o)))); cbn; [done|].
    intros ?. reflect_bools. lia.
Qed.

Lemma enqueue_inv cfg o req :
  peer_config_ok cfg -> out_inv cfg o -> req_ok req -> fits cfg o req = true ->
  out_inv cfg (enqueue req o).
Proof.
  intros Hcfg I Hreq Hfit. apply fits_spec in Hfit as (Hrb & Hb & Hf & Hst).
  pose proof (req_ok_pos _ Hreq) as Hpos. destruct I. unfold enqueue.
  destruct (outbound o !! stream_of req) as [st|] eqn:Est.
  - specialize (oi_stream0 _ _ Est) as Hsi. destruct Hsi. split; cbn; try (done || lia).
    + intros id. rewrite oi_order0. map_cases; [|done]. rewrite Est. by split; eexists.
    + intros id st' Hl. map_cases; [|by apply oi_stream0].
      split; cbn; [done|by destruct (os_queue st)|mux_lia|lia|mux_lia|].
      apply Forall_app. split; [done|]. by constructor.
    + rewrite (map_sumZ_insert _ _ _ _ _ Est). cbn. lia.
    + rewrite (map_sumZ_insert _ _ _ _ _ Est). cbn. mux_lia.
    + rewrite map_size_insert_Some; [done|by rewrite Est].
  - assert (stream_of req ∉ outboundOrder o) as Hni by (rewrite oi_order0, Est; by intros [? ?]).
    split; cbn; try (done || lia).
    + apply NoDup_app. split; [done|]. split; [|apply NoDup_singleton].
      intros x Hx ->%list_elem_of_singleton. done.
    + intros id. rewrite elem_of_app, oi_order0, list_elem_of_singleton.
      map_cases; [split; [by eexists|by right]|].
      split; [by intros [Hx|Hx]; [|congruence]|by left].
    + intros id st' Hl. map_cases; [|by apply oi_stream0].
      destruct Hcfg. split; cbn; [done|done|mux_lia|lia|mux_lia|by apply Forall_singleton].
    + rewrite map_sumZ_insert_new by done. cbn. lia.
    + rewrite map_sumZ_insert_new by done. cbn. mux_lia.
    + rewrite map_size_insert_None by done. lia.
Qed.

(** What [head_at] finds. *)
Lemma head_at_Some class index o key st req rest :
  head_at class index o = Some (key, st, req, rest) <->
  outboundOrder o !! index = Some key /\ outbound o !! key = Some st /\
  os_queue st = req :: rest /\ req_class req = class.
Proof.
  unfold head_at. split.
  - intros Hh. apply bind_Some in Hh as (k & Hk & Hh). apply bind_Some in Hh as (s & Hs & Hh).
    destruct (os_queue s) as [|r q] eqn:Eq; [done|].
    destruct (Z.eqb_spec (req_class r) class); simplify_eq. done.
  - intros (-> & Hs & Hq & Hc). cbn. rewrite Hs. cbn. rewrite Hq, Hc, Z.eqb_refl. done.
Qed.

Lemma take_at_inv cfg o class index key st req rest :
  out_inv cfg o -> head_at class index o = Some (key, st, req, rest) ->
  out_inv cfg (take_at index key st req rest o).2.
Proof.
  intros I (Hord & Hst & Hq & _)%head_at_Some. destruct I.
  pose proof (oi_stream0 _ _ Hst) as Hsi. destruct Hsi. subst key.
  rewrite Hq in *. apply Forall_cons in si_reqs0 as [[Hreq Hsid] Hrest].
  pose proof (req_ok_pos _ Hreq) as Hpos. unfold take_at. mux_rw.
  destruct rest as [|r rest]; cbn.
  - pose proof (take_drop_middle _ _ _ Hord) as Hmid. rewrite <- Hmid in oi_nodup0.
    apply NoDup_app in oi_nodup0 as (Hn1 & Hn2 & Hn3). apply NoDup_cons in Hn3 as [Hn4 Hn5].
    rewrite Nat.add_1_r. split; cbn; try done.
    + apply NoDup_app. split; [done|]. split; [|done].
      intros x Hx Hx'. apply (Hn2 x Hx). by right.
    + intros id. rewrite elem_of_app. map_cases.
      * split; [intros [Hx|Hx]; [exfalso; apply (Hn2 _ Hx); left|done]|by intros [? ?]].
      * assert (id ∈ outboundOrder o <-> id ∈ take index (outboundOrder o) \/
          id = os_id st \/ id ∈ drop (S index) (outboundOrder o)) as Hm
          by (rewrite <- Hmid at 1; by rewrite elem_of_app, elem_of_cons).
        rewrite <- oi_order0, Hm. split; [tauto|intros [?|[?|?]]; (congruence || tauto)].
    + intros id st' Hl. apply lookup_delete_Some in Hl as [_ Hl]. by apply oi_stream0.
    + rewrite oi_bytes0, (map_sumZ_delete os_bytes _ _ _ Hst). mux_rw. lia.
    + rewrite oi_frames0, (map_sumZ_delete _ _ _ _ Hst). cbn. rewrite Hq. mux_lia.
    + lia.
    + lia.
    + rewrite map_size_delete_Some by done. lia.
  - split; cbn; try done.
    + intros id. rewrite oi_order0. map_cases; [|done]. rewrite Hst. by split; eexists.
    + intros id st' Hl. map_cases; [|by apply oi_stream0].
      split; cbn; [done|done|mux_lia|lia|mux_lia|done].
    + rewrite (map_sumZ_insert _ _ _ _ _ Hst). cbn. lia.
    + rewrite (map_sumZ_insert _ _ _ _ _ Hst). cbn. rewrite Hq. mux_lia.
    + lia.
    + lia.
    + rewrite map_size_insert_Some; [done|by rewrite Hst].
Qed.
