(* ===== verification/Scheduler.v ===== *)
(** Properties of the outbound scheduler of peer.go: what [takeLocked] takes,
    that a scan finds a request whenever there is one, its refinement of an
    abstract weighted round robin over classes, and that abstraction's
    fairness. *)

From S2P Require Import Prelude Errors BigEndian Frame PeerConfig Outbound.

(** ** The queues as a map from streams to request lists *)

Definition queue_of (id : Z) (o : Outbound) : list outboundRequest :=
  match outbound o !! id with Some st => os_queue st | None => [] end.

(** Some stream's first request has class [class]. *)
Definition has_head (o : Outbound) (class : Z) : bool :=
  existsb (fun id => match queue_of id o with
                     | [] => false
                     | req :: _ => req_class req =? class
                     end) (outboundOrder o).

Lemma queue_of_enqueue cfg o req id :
  out_inv cfg o ->
  queue_of id (enqueue req o) =
    if decide (id = stream_of req) then queue_of id o ++ [req] else queue_of id o.
Proof.
  intros I. unfold enqueue, queue_of. destruct (outbound o !! stream_of req) as [st|] eqn:E; cbn.
  - map_cases; [by rewrite E|done].
  - map_cases; [by rewrite E|done].
Qed.

Lemma take_loop_spec n checked class cursor o res cur' o' :
  take_loop n checked class cursor o = (res, cur', o') ->
  let index j := ((cursor + j) mod length (outboundOrder o))%nat in
  (res = None /\ cur' = cursor /\ o' = o /\
   forall j, (checked <= j < checked + n)%nat -> head_at class (index j) o = None) \/
  (exists j key st req rest, (checked <= j < checked + n)%nat /\
   head_at class (index j) o = Some (key, st, req, rest) /\
   (forall i, (checked <= i < j)%nat -> head_at class (index i) o = None) /\
   res = Some req /\ (cur', o') = take_at (index j) key st req rest o).
Proof.
  revert checked. induction n as [|n IH]; intros checked; cbn [take_loop].
  - intros [= <- <- <-]. left. repeat split. intros j Hj. lia.
  - destruct (head_at class _ o) as [[[[key st] req] rest]|] eqn:Eh.
    + destruct (take_at _ key st req rest o) as [next o1] eqn:Et.
      intros [= <- <- <-]. right. exists checked, key, st, req, rest.
      split; [lia|]. split; [done|]. split; [intros; lia|]. by rewrite Et.
    + intros [(-> & -> & -> & Hn)|(j & key & st & req & rest & Hj & Hh & Hn & -> & Ht)]%IH.
      * left. repeat split. intros j Hj. destruct (decide (j = checked)) as [->|]; [done|].
        apply Hn. lia.
      * right. exists j, key, st, req, rest. split; [lia|]. split; [done|].
        split; [|done]. intros i Hi. destruct (decide (i = checked)) as [->|]; [done|].
        apply Hn. lia.
Qed.

(** Every position is visited by a cyclic walk of the whole order. *)
Lemma mod_surj L cursor i :
  (i < L)%nat -> exists j, (j < L)%nat /\ ((cursor + j) mod L = i)%nat.
Proof.
  intros Hi. assert (cursor mod L < L)%nat by (apply Nat.mod_upper_bound; lia).
  pose proof (Nat.div_mod_eq cursor L) as Hc.
  destruct (le_lt_dec (cursor mod L) i).
  - exists (i - cursor mod L)%nat. split; [lia|].
    replace (cursor + (i - cursor mod L))%nat with (i + (cursor / L) * L)%nat by nia.
    rewrite Nat.Div0.mod_add. by apply Nat.mod_small.
  - exists (i + L - cursor mod L)%nat. split; [lia|].
    replace (cursor + (i + L - cursor mod L))%nat with (i + (cursor / L + 1) * L)%nat by nia.
    rewrite Nat.Div0.mod_add. by apply Nat.mod_small.
Qed.

Lemma has_head_at class o :
  has_head o class = true <->
  exists index key st req rest, (index < length (outboundOrder o))%nat /\
    head_at class index o = Some (key, st, req, rest).
Proof.
  unfold has_head. rewrite existsb_exists. split.
  - intros (id & Hin & Hq). unfold queue_of in Hq.
    apply list_elem_of_In, list_elem_of_lookup in Hin as [index Hi].
    destruct (outbound o !! id) as [st|] eqn:Es; [|done].
    destruct (os_queue st) as [|req rest] eqn:Eq; [done|]. apply Z.eqb_eq in Hq.
    exists index, id, st, req, rest. split; [by eapply lookup_lt_Some|].
    by apply head_at_Some.
  - intros (index & key & st & req & rest & _ & (Hi & Hs & Hq & Hc)%head_at_Some).
    exists key. split; [apply list_elem_of_In; by eapply list_elem_of_lookup_2|].
    unfold queue_of. rewrite Hs, Hq. by apply Z.eqb_eq.
Qed.

Lemma queue_of_take cfg o class index key st req rest id :
  out_inv cfg o -> head_at class index o = Some (key, st, req, rest) ->
  stream_of req = key /\
  queue_of id (take_at index key st req rest o).2 = if decide (id = key) then rest else queue_of id o.
Proof.
  intros I (Hi & Hs & Hq & Hc)%head_at_Some.
  destruct (oi_stream _ _ I _ _ Hs) as [Hid _ _ _ _ Hr]. rewrite Hq in Hr.
  apply Forall_cons in Hr as [[_ Hsr] _]. split; [done|].
  unfold take_at, queue_of. destruct rest as [|r rest]; cbn; map_cases; done.
Qed.

(** What [takeLocked] does, in terms of the queues: the facts its clients use. *)
Record taken (cfg : PeerConfig) (class : Z) (o : Outbound) (req : outboundRequest)
    (o' : Outbound) : Prop := {
  tk_class : req_class req = class;
  tk_queue : queue_of (stream_of req) o = req :: queue_of (stream_of req) o';
  tk_other id : id <> stream_of req -> queue_of id o' = queue_of id o;
  tk_bytes : outboundBytes o' = outboundBytes o - req_bytes req;
  tk_frames : outboundFrames o' = outboundFrames o - 1;
  tk_inv : out_inv cfg o';
}.

Lemma takeLocked_Some cfg class cursor o req cur' o' :
  out_inv cfg o -> takeLocked class cursor o = (Some req, cur', o') -> taken cfg class o req o'.
Proof.
  intros I. unfold takeLocked. destruct (outboundOrder o) eqn:Eo; [done|]. rewrite <- Eo.
  intros [(? & _)|(j & key & st & r & rest & _ & Hh & _ & [= <-] & Ht)]%take_loop_spec; [done|].
  pose proof (take_at_inv _ _ _ _ _ _ _ _ I Hh) as I'. rewrite <- Ht in I'. cbn [snd] in I'.
  pose proof (fun id => queue_of_take _ _ _ _ _ _ _ _ id I Hh) as Hqt. rewrite <- Ht in Hqt.
  cbn [snd] in Hqt. destruct (Hqt 0) as [Hsr _].
  pose proof Hh as (Hi & Hs & Hq & Hc)%head_at_Some.
  assert (outboundBytes o' = outboundBytes o - req_bytes req /\
          outboundFrames o' = outboundFrames o - 1) as [Hb Hf].
  { unfold take_at in Ht. by destruct rest; injection Ht as -> ->. }
  split; try done.
  - rewrite Hsr. destruct (Hqt key) as [_ ->]. rewrite decide_True by done.
    unfold queue_of. by rewrite Hs.
  - intros id Hid. destruct (Hqt id) as [_ ->]. by rewrite decide_False by congruence.
Qed.

Lemma takeLocked_None class cursor o cur' o' :
  takeLocked class cursor o = (None, cur', o') -> o' = o /\ has_head o class = false.
Proof.
  unfold takeLocked. destruct (outboundOrder o) eqn:Eo.
  - intros [= <- <-]. split; [done|]. unfold has_head. by rewrite Eo.
  - rewrite <- Eo.
    intros [(_ & _ & -> & Hn)|(j & key & st & r & rest & _ & _ & _ & ? & _)]%take_loop_spec; [|done].
    split; [done|]. apply not_true_iff_false. intros (index & key & st & r & rest & Hlt & Hh)%has_head_at.
    destruct (mod_surj _ cursor _ Hlt) as (j & Hj & <-).
    specialize (Hn j ltac:(lia)). rewrite Hn in Hh. done.
Qed.

Lemma takeLocked_spec' cfg class cursor o :
  out_inv cfg o ->
  match takeLocked class cursor o with
  | (None, _, o') => o' = o /\ has_head o class = false
  | (Some req, _, o') => taken cfg class o req o' /\ has_head o class = true
  end.
Proof.
  intros I. destruct (takeLocked class cursor o) as [[[req|] cur'] o'] eqn:E.
  - pose proof (takeLocked_Some _ _ _ _ _ _ _ I E) as Ht. split; [done|].
    apply has_head_at. pose proof (tk_queue _ _ _ _ _ Ht) as Hq. unfold queue_of in Hq at 1.
    destruct (outbound o !! stream_of req) as [st|] eqn:Es; [|done].
    assert (stream_of req ∈ outboundOrder o) as [index Hi]%list_elem_of_lookup
      by (apply (oi_order _ _ I); by eexists).
    exists index, (stream_of req), st, req, (queue_of (stream_of req) o').
    split; [by eapply lookup_lt_Some|]. apply head_at_Some. by rewrite (tk_class _ _ _ _ _ Ht).
  - by eapply takeLocked_None.
Qed.

(** What [takeLocked] takes. It takes the first request of some stream, that
    request has the wanted class, only that stream's queue changes, and the
    byte and frame totals drop by exactly that request; it returns nil exactly
    when no stream's first request has the class. The stream chosen is the
    first with such a head in cyclic order from the cursor. *)
Theorem takeLocked_spec cfg class cursor o :
  out_inv cfg o ->
  match takeLocked class cursor o with
  | (None, _, o') => o' = o /\ has_head o class = false
  | (Some req, _, o') => taken cfg class o req o' /\ has_head o class = true /\
      exists j key st rest, let index i := ((cursor + i) mod length (outboundOrder o))%nat in
        head_at class (index j) o = Some (key, st, req, rest) /\
        forall i, (i < j)%nat -> head_at class (index i) o = None
  end.
Proof.
  intros I. destruct (takeLocked class cursor o) as [[[req|] cur'] o'] eqn:E.
  - split; [by eapply takeLocked_Some|].
    unfold takeLocked in E. destruct (outboundOrder o) eqn:Eo; [done|]. rewrite <- Eo in *.
    apply take_loop_spec in E as [(? & _)|(j & key & st & r & rest & Hj & Hh & Hn & [= <-] & _)]; [done|].
    split.
    + apply has_head_at. eexists _, key, st, req, rest. split; [|exact Hh].
      apply Nat.mod_upper_bound. rewrite Eo. done.
    + exists j, key, st, rest. split; [done|]. intros i Hi. apply Hn. lia.
  - by eapply takeLocked_None.
Qed.

(** ** The abstract scheduler: weighted round robin over three classes *)

Record Wrr := mkWrr { w_class : nat; w_credit : Z }.

Section wrr.
Context (cfg : PeerConfig).

(** One visit of a class by a scheduler that knows only which classes wait. *)
Definition wrr_once (waiting : Z -> bool) (w : Wrr) : option Z * Wrr :=
  let class := class_at (w_class w) in
  let credit := if w_credit w =? 0 then weight cfg class else w_credit w in
  if waiting class then
    if credit - 1 =? 0 then (Some class, mkWrr ((w_class w + 1) mod 3) 0)
    else (Some class, mkWrr (w_class w) (credit - 1))
  else (None, mkWrr ((w_class w + 1) mod 3) 0).

Fixpoint wrr_loop (n : nat) (waiting : Z -> bool) (w : Wrr) : option Z * Wrr :=
  match n with
  | O => (None, w)
  | S n => match wrr_once waiting w with
           | (None, w') => wrr_loop n waiting w'
           | found => found
           end
  end.

Definition wrr (waiting : Z -> bool) (w : Wrr) : option Z * Wrr := wrr_loop 6 waiting w.

Definition wrr_of (s : Sched) : Wrr := mkWrr (classIndex s) (credit s).

Lemma scan_once_refines s o req s' o' :
  out_inv cfg o -> scan_once cfg s o = (req, s', o') ->
  wrr_once (has_head o) (wrr_of s) = (req_class <$> req, wrr_of s') /\
  match req with
  | None => o' = o
  | Some r => taken cfg (class_at (classIndex s)) o r o'
  end.
Proof.
  intros I. unfold scan_once, wrr_once, wrr_of; cbn [w_class w_credit].
  pose proof (takeLocked_spec' cfg (class_at (classIndex s)) (cursor s) o I) as Ht.
  destruct (takeLocked _ _ _) as [[[r|] cur] o1].
  - destruct Ht as [Ht ->]. cbn.
    destruct (_ - 1 =? 0); intros [= <- <- <-]; cbn; by rewrite (tk_class _ _ _ _ _ Ht).
  - destruct Ht as [-> ->]. cbn. intros [= <- <- <-]. done.
Qed.

Lemma scan_loop_refines n s o req s' o' :
  out_inv cfg o -> scan_loop n cfg s o = (req, s', o') ->
  wrr_loop n (has_head o) (wrr_of s) = (req_class <$> req, wrr_of s') /\
  match req with
  | None => o' = o
  | Some r => exists class, taken cfg class o r o'
  end.
Proof.
  intros I. revert s. induction n as [|n IH]; intros s; cbn [scan_loop wrr_loop].
  - by intros [= <- <- <-].
  - destruct (scan_once cfg s o) as [[r s1] o1] eqn:E.
    pose proof (scan_once_refines _ _ _ _ _ I E) as [-> Hr]. destruct r as [r|]; cbn.
    + intros [= <- <- <-]. split; [done|]. by eexists.
    + subst o1. apply IH.
Qed.
End wrr.

(** C17. The scheduler implements weighted round robin. Seen only through which
    classes have a waiting head, [scan] over the real queues behaves as the
    abstract weighted round robin, and the request it returns is one that
    [takeLocked] took from those queues. *)
Theorem scan_refines cfg s o req s' o' :
  out_inv cfg o -> scan cfg s o = (req, s', o') ->
  wrr cfg (has_head o) (wrr_of s) = (req_class <$> req, wrr_of s') /\
  match req with
  | None => o' = o
  | Some r => exists class, taken cfg class o r o'
  end.
Proof. intros I E. by eapply scan_loop_refines. Qed.

Lemma scan_refines' cfg s o req s' o' :
  out_inv cfg o -> scan cfg s o = (req, s', o') ->
  wrr cfg (has_head o) (wrr_of s) = (req_class <$> req, wrr_of s') /\
  match req with
  | None => o' = o
  | Some r => exists class, taken cfg class o r o'
  end.
Proof. intros I E. by eapply scan_loop_refines. Qed.

(** The scheduler's locals stay in range. *)
Definition wrr_ok (cfg : PeerConfig) (w : Wrr) : Prop :=
  (w_class w < 3)%nat /\ 0 <= w_credit w <= weight cfg (class_at (w_class w)).

Lemma wrr_ok_initial cfg : peer_config_ok cfg -> wrr_ok cfg (wrr_of initial_sched).
Proof. intros [_ _ _ _ ? _]. split; cbn; [lia|]. unfold weight; cbn. lia. Qed.

(** How many requests of other classes may still be served before class number
    [t] is visited. *)
Definition budget (cfg : PeerConfig) (w : Wrr) : Z :=
  if w_credit w =? 0 then weight cfg (class_at (w_class w)) else w_credit w.

Definition bypass (cfg : PeerConfig) (t : nat) (w : Wrr) : Z :=
  if (w_class w =? t)%nat then 0
  else if ((w_class w + 1) mod 3 =? t)%nat then budget cfg w
  else budget cfg w + weight cfg (class_at ((w_class w + 1) mod 3)).

Lemma class_cases n : (n < 3)%nat -> n = 0%nat \/ n = 1%nat \/ n = 2%nat.
Proof. lia. Qed.

Lemma weight_pos cfg n : peer_config_ok cfg -> (n < 3)%nat -> 0 < weight cfg (class_at n).
Proof.
  intros [_ _ _ _ ? _] Hn. destruct (class_cases n Hn) as [->|[->| ->]]; cbn; unfold weight; cbn; lia.
Qed.

(** One visit keeps the locals in range and, while class [t] waits, either serves
    it or uses up some of the bypass budget if it serves another class. *)
Lemma wrr_once_progress cfg waiting w t :
  peer_config_ok cfg -> wrr_ok cfg w -> (t < 3)%nat -> waiting (class_at t) = true ->
  let '(res, w') := wrr_once cfg waiting w in
  wrr_ok cfg w' /\
  match res with
  | None => w_class w <> t /\ w_class w' = ((w_class w + 1) mod 3)%nat /\
            bypass cfg t w' <= bypass cfg t w
  | Some c => c = class_at t \/ bypass cfg t w' + 1 <= bypass cfg t w
  end.
Proof.
  intros Hcfg [Hc Hcr] Ht Hw.
  pose proof (weight_pos cfg 0 Hcfg ltac:(lia)). pose proof (weight_pos cfg 1 Hcfg ltac:(lia)).
  pose proof (weight_pos cfg 2 Hcfg ltac:(lia)).
  destruct w as [ci cr]; cbn in Hc, Hcr. unfold wrr_once, wrr_ok, bypass, budget; cbn [w_class w_credit].
  destruct (class_cases _ Hc) as [->|[->| ->]], (class_cases _ Ht) as [->|[->| ->]];
    cbn in *; rewrite ?Hw; repeat case_match; cbn in *; reflect_bools; simplify_eq;
    rewrite ?Z.eqb_refl; cbn; (split; [lia|]); repeat case_match; cbn in *; reflect_bools;
    first [by left | right; lia | repeat split; (discriminate || lia)].
Qed.

(** The locals stay in range whatever waits. *)
Lemma wrr_loop_ok cfg n waiting w :
  peer_config_ok cfg -> wrr_ok cfg w -> wrr_ok cfg (wrr_loop cfg n waiting w).2.
Proof.
  intros Hcfg. revert w. induction n as [|n IH]; intros w Hw; cbn [wrr_loop]; [done|].
  assert (wrr_ok cfg (wrr_once cfg waiting w).2) as Hw1.
  { destruct Hw as [Hc Hcr]. unfold wrr_once, wrr_ok.
    pose proof (weight_pos cfg _ Hcfg Hc) as Hp.
    assert ((w_class w + 1) mod 3 < 3)%nat as Hc' by (apply Nat.mod_upper_bound; lia).
    pose proof (weight_pos cfg _ Hcfg Hc') as Hp'.
    destruct (waiting _); [|cbn [snd w_class w_credit]; lia].
    destruct (Z.eqb_spec (w_credit w) 0); destruct (_ - 1 =? 0) eqn:E; cbn [snd w_class w_credit];
      reflect_bools; lia. }
  destruct (wrr_once cfg waiting w) as [[c|] w1]; [done|by apply IH].
Qed.

Lemma wrr_loop_progress cfg waiting t n w :
  peer_config_ok cfg -> wrr_ok cfg w -> (t < 3)%nat -> waiting (class_at t) = true ->
  let '(res, w') := wrr_loop cfg n waiting w in
  wrr_ok cfg w' /\
  match res with
  | None => bypass cfg t w' <= bypass cfg t w
  | Some c => c = class_at t \/ bypass cfg t w' + 1 <= bypass cfg t w
  end.
Proof.
  intros Hcfg Hw Ht Hwait. revert w Hw. induction n as [|n IH]; intros w Hw; cbn [wrr_loop].
  - split; [done|lia].
  - pose proof (wrr_once_progress _ _ _ _ Hcfg Hw Ht Hwait) as Hp.
    destruct (wrr_once cfg waiting w) as [[c|] w1]; [done|].
    destruct Hp as (Hw1 & _ & _ & Hb). specialize (IH w1 Hw1).
    destruct (wrr_loop cfg n waiting w1) as [[c|] w2].
    + destruct IH as [? [?|?]]; (split; [done|]); [by left|right; lia].
    + destruct IH. split; [done|lia].
Qed.

(** Six visits see every class, so a waiting class is enough to find one. *)
Lemma wrr_loop_finds cfg waiting t n w :
  peer_config_ok cfg -> wrr_ok cfg w -> (t < 3)%nat -> waiting (class_at t) = true ->
  (3 <= n)%nat -> (wrr_loop cfg n waiting w).1 <> None.
Proof.
  intros Hcfg Hw Ht Hwait Hn. do 3 (destruct n as [|n]; [lia|]). cbn [wrr_loop].
  pose proof (wrr_once_progress _ _ _ _ Hcfg Hw Ht Hwait) as H1.
  destruct (wrr_once cfg waiting w) as [[c|] w1]; [done|]. destruct H1 as (Hw1 & Hn1 & Hc1 & _).
  pose proof (wrr_once_progress _ _ _ _ Hcfg Hw1 Ht Hwait) as H2.
  destruct (wrr_once cfg waiting w1) as [[c|] w2]; [done|]. destruct H2 as (Hw2 & Hn2 & Hc2 & _).
  pose proof (wrr_once_progress _ _ _ _ Hcfg Hw2 Ht Hwait) as H3.
  destruct (wrr_once cfg waiting w2) as [[c|] w3]; [done|]. destruct H3 as (_ & Hn3 & _ & _).
  exfalso. destruct Hw as [Hcl _]. rewrite Hc1 in *.
  destruct (class_cases _ Hcl) as [E|[E|E]], (class_cases _ Ht) as [->|[->| ->]];
    rewrite E in *; cbn in *; rewrite ?Hc2 in *; cbn in *; lia.
Qed.

Lemma has_head_of_queue cfg o id req rest :
  out_inv cfg o -> queue_of id o = req :: rest -> has_head o (req_class req) = true.
Proof.
  intros I Hq. unfold queue_of in Hq. destruct (outbound o !! id) as [st|] eqn:Es; [|done].
  assert (id ∈ outboundOrder o) as [index Hi]%list_elem_of_lookup
    by (apply (oi_order _ _ I); by eexists).
  apply has_head_at. exists index, id, st, req, rest.
  split; [by eapply lookup_lt_Some|]. by apply head_at_Some.
Qed.

Lemma scan_finds cfg s o :
  peer_config_ok cfg -> out_inv cfg o -> wrr_ok cfg (wrr_of s) -> outbound o <> ∅ ->
  (scan cfg s o).1.1 <> None.
Proof.
  intros Hcfg I Hw Hne. apply map_choose in Hne as (id & st & Hst).
  destruct (oi_stream _ _ I _ _ Hst) as [_ Hq _ _ _ Hr].
  destruct (os_queue st) as [|req rest] eqn:Eq; [done|].
  apply Forall_cons in Hr as [[[_ Hcl] _] _].
  assert (has_head o (req_class req) = true) as Hh.
  { apply (has_head_of_queue cfg o id req rest); [done|]. unfold queue_of. by rewrite Hst. }
  destruct (scan cfg s o) as [[res s'] o'] eqn:E. cbn.
  pose proof (scan_refines' _ _ _ _ _ _ I E) as [Hwrr _].
  assert (exists t, (t < 3)%nat /\ req_class req = class_at t) as (t & Ht & Hct).
  { unfold TrafficControl, TrafficBulk in Hcl.
    assert (req_class req = 1 \/ req_class req = 2 \/ req_class req = 3) as [->|[->| ->]] by lia;
      [exists 0%nat|exists 1%nat|exists 2%nat]; (split; [lia|done]). }
  rewrite Hct in Hh. unfold wrr in Hwrr.
  pose proof (wrr_loop_finds cfg (has_head o) t 6 _ Hcfg Hw Ht Hh ltac:(lia)) as Hf.
  rewrite Hwrr in Hf. cbn in Hf. by destruct res.
Qed.

Lemma scan_wrr_ok cfg s o :
  peer_config_ok cfg -> out_inv cfg o -> wrr_ok cfg (wrr_of s) ->
  wrr_ok cfg (wrr_of (scan cfg s o).1.2).
Proof.
  intros Hcfg I Hw. destruct (scan cfg s o) as [[req s'] o'] eqn:E. cbn [fst snd].
  apply (scan_refines' cfg) in E as [E _]; [|done].
  pose proof (wrr_loop_ok cfg 6 (has_head o) _ Hcfg Hw) as Hok. unfold wrr in E. by rewrite E in Hok.
Qed.

Lemma scan_empty cfg s o : out_inv cfg o -> outbound o = ∅ -> (scan cfg s o).1.1 = None.
Proof.
  intros I He. destruct (scan cfg s o) as [[[r|] s'] o'] eqn:E; [|done].
  pose proof (scan_refines' _ _ _ _ _ _ I E) as [_ (class & Ht)].
  pose proof (tk_queue _ _ _ _ _ Ht) as Hq. unfold queue_of in Hq at 1. by rewrite He, lookup_empty in Hq.
Qed.

(** Work conservation. One scan (six visits) finds a request exactly when
    something is queued: the scheduler goes to sleep only on empty queues, and
    never misses a queued frame whatever its class, stream or the cursor. *)
Theorem scan_work_conserving cfg s o :
  peer_config_ok cfg -> out_inv cfg o -> wrr_ok cfg (wrr_of s) ->
  (scan cfg s o).1.1 = None <-> outbound o = ∅.
Proof.
  intros Hcfg I Hw. split; [|by apply scan_empty].
  intros Hn. destruct (decide (outbound o = ∅)) as [|Hne]; [done|].
  by apply scan_finds in Hn.
Qed.

(** The classes that successive scans pick, whatever happens to the queues in
    between: [os] lists the queues that each scan finds. *)
Fixpoint picks (cfg : PeerConfig) (s : Sched) (os : list Outbound) : list (option Z) :=
  match os with
  | [] => []
  | o :: os =>
      let '(req, s', _) := scan cfg s o in (req_class <$> req) :: picks cfg s' os
  end.

Lemma picks_bypass cfg s os t :
  peer_config_ok cfg -> wrr_ok cfg (wrr_of s) -> (t < 3)%nat ->
  Forall (fun o => out_inv cfg o /\ has_head o (class_at t) = true) os ->
  bypass cfg t (wrr_of s) < len os -> Some (class_at t) ∈ picks cfg s os.
Proof.
  intros Hcfg Hw Ht Hos. revert s Hw. induction Hos as [|o os [I Hh] _ IH]; intros s Hw Hb.
  - exfalso. rewrite len_nil in Hb. destruct Hw as [Hc [Hcr _]]. revert Hb. unfold bypass, budget.
    pose proof (weight_pos cfg _ Hcfg Hc).
    assert ((w_class (wrr_of s) + 1) mod 3 < 3)%nat as Hc' by (apply Nat.mod_upper_bound; lia).
    pose proof (weight_pos cfg _ Hcfg Hc'). repeat case_match; reflect_bools; lia.
  - cbn [picks]. destruct (scan cfg s o) as [[req s'] o'] eqn:E.
    pose proof (scan_refines' _ _ _ _ _ _ I E) as [Hwrr _].
    pose proof (wrr_loop_finds cfg _ t 6 _ Hcfg Hw Ht Hh ltac:(lia)) as Hf.
    pose proof (wrr_loop_progress cfg _ t 6 _ Hcfg Hw Ht Hh) as Hp.
    unfold wrr in Hwrr. rewrite Hwrr in Hf, Hp. cbn [fst] in Hf.
    destruct req as [req|]; [|done]. cbn in *. rewrite len_cons in Hb.
    destruct Hp as [Hw' [->|Hlt]]; [by left|]. right. apply IH; [done|lia].
Qed.

(** The most that requests of other classes can be served in between: the sum
    of the two other weights. *)
Definition other_weights (cfg : PeerConfig) (t : nat) : Z :=
  weight cfg (class_at ((t + 1) mod 3)) + weight cfg (class_at ((t + 2) mod 3)).

Lemma bypass_bound cfg t w :
  peer_config_ok cfg -> wrr_ok cfg w -> (t < 3)%nat -> bypass cfg t w <= other_weights cfg t.
Proof.
  intros Hcfg [Hc Hcr] Ht.
  pose proof (weight_pos cfg 0 Hcfg ltac:(lia)). pose proof (weight_pos cfg 1 Hcfg ltac:(lia)).
  pose proof (weight_pos cfg 2 Hcfg ltac:(lia)).
  destruct w as [ci cr]. unfold bypass, budget, other_weights. cbn [w_class w_credit] in *.
  destruct (class_cases _ Hc) as [->|[->| ->]], (class_cases _ Ht) as [->|[->| ->]];
    cbn in *; repeat case_match; reflect_bools; lia.
Qed.

(** C35. Bounded bypass of classes. While requests of class number [t] keep
    waiting at the head of some stream, whatever else arrives in between, the
    scheduler serves that class before it has served more requests of the other
    classes than the sum of their weights: no class is starved by the others. *)
Theorem sched_bounded_bypass cfg s os t :
  peer_config_ok cfg -> wrr_ok cfg (wrr_of s) -> (t < 3)%nat ->
  Forall (fun o => out_inv cfg o /\ has_head o (class_at t) = true) os ->
  other_weights cfg t < len os -> Some (class_at t) ∈ picks cfg s os.
Proof.
  intros Hcfg Hw Ht Hos Hl. apply picks_bypass; [done..|].
  pose proof (bypass_bound _ _ _ Hcfg Hw Ht). lia.
Qed.

(** With every class waiting, one class is served until its credit is used. *)
Lemma picks_credit cfg s os :
  peer_config_ok cfg -> wrr_ok cfg (wrr_of s) ->
  Forall (fun o => out_inv cfg o /\ forall t, (t < 3)%nat -> has_head o (class_at t) = true) os ->
  len os = budget cfg (wrr_of s) ->
  picks cfg s os = replicate (length os) (Some (class_at (classIndex s))) /\
  forall os', Forall (fun o => out_inv cfg o) os' ->
  exists s', wrr_of s' = mkWrr ((classIndex s + 1) mod 3) 0 /\
    picks cfg s (os ++ os') = picks cfg s os ++ picks cfg s' os'.
Proof.
  intros Hcfg Hw Hos. revert s Hw. induction Hos as [|o os [I Hh] Hos IH]; intros s Hw Hl.
  - exfalso. rewrite len_nil in Hl. destruct Hw as [Hc Hcr]. unfold budget in Hl.
    pose proof (weight_pos cfg _ Hcfg Hc). case_match; reflect_bools; lia.
  - cbn [picks app length replicate].
    destruct (scan cfg s o) as [[req s'] o'] eqn:E.
    pose proof (scan_refines' _ _ _ _ _ _ I E) as [Hwrr _]. unfold wrr in Hwrr.
    pose proof Hw as [Hc Hcr]. cbn [wrr_of w_class w_credit] in Hc, Hcr.
    cbn [wrr_loop] in Hwrr. unfold wrr_once in Hwrr. cbn [wrr_of w_class w_credit] in Hwrr.
    rewrite (Hh _ Hc) in Hwrr.
    change (if credit s =? 0 then weight cfg (class_at (classIndex s)) else credit s)
      with (budget cfg (wrr_of s)) in Hwrr.
    rewrite len_cons in Hl. pose proof (len_nonneg os).
    destruct (Z.eqb_spec (budget cfg (wrr_of s) - 1) 0) as [Hz|Hz].
    + pose proof (f_equal fst Hwrr) as Hcl. pose proof (f_equal snd Hwrr) as Hs'.
      cbn [fst snd] in Hcl, Hs'. rewrite <- Hcl.
      destruct os; [|rewrite len_cons in *; pose proof (len_nonneg os); lia].
      split; [done|]. intros os' _. by exists s'.
    + pose proof (f_equal fst Hwrr) as Hcl. pose proof (f_equal snd Hwrr) as Hs'.
      cbn [fst snd] in Hcl, Hs'. rewrite <- Hcl.
      assert (budget cfg (wrr_of s') = budget cfg (wrr_of s) - 1) as Hb'.
      { rewrite <- Hs'. unfold budget at 1. cbn [w_credit w_class].
        by rewrite (proj2 (Z.eqb_neq _ _) Hz). }
      assert (wrr_ok cfg (wrr_of s')) as Hw'.
      { rewrite <- Hs'. split; cbn [w_class w_credit]; [done|].
        unfold budget in *. cbn [wrr_of w_class w_credit] in *.
        pose proof (weight_pos cfg _ Hcfg Hc). revert Hz Hl. destruct (credit s =? 0) eqn:E0; reflect_bools; lia. }
      assert (classIndex s' = classIndex s) as Hci by (pose proof (f_equal w_class Hs'); done).
      destruct (IH s' Hw') as [IH1 IH2]; [lia|]. rewrite Hci in IH1, IH2. rewrite IH1.
      split; [done|]. intros os' Hos'. destruct (IH2 os' Hos') as (s2 & Hs2 & Hp2).
      exists s2. split; [done|]. by rewrite Hp2, IH1.
Qed.

(** Weighted shares. When all three classes keep waiting, a full turn of the
    scheduler serves exactly [ControlWeight] control requests, then
    [InteractiveWeight] interactive ones, then [BulkWeight] bulk ones. *)
Theorem sched_weighted_share cfg os1 os2 os3 cur :
  peer_config_ok cfg ->
  Forall (fun o => out_inv cfg o /\ forall t, (t < 3)%nat -> has_head o (class_at t) = true)
    (os1 ++ os2 ++ os3) ->
  len os1 = ControlWeight cfg -> len os2 = InteractiveWeight cfg -> len os3 = BulkWeight cfg ->
  picks cfg (mkSched 0 0 cur) (os1 ++ os2 ++ os3) =
    replicate (length os1) (Some TrafficControl) ++
    replicate (length os2) (Some TrafficInteractive) ++
    replicate (length os3) (Some TrafficBulk).
Proof.
  intros Hcfg Hos H1 H2 H3. apply Forall_app in Hos as [Ho1 Hos].
  apply Forall_app in Hos as [Ho2 Ho3].
  assert (forall l, Forall (fun o => out_inv cfg o /\
    forall t, (t < 3)%nat -> has_head o (class_at t) = true) l ->
    Forall (fun o => out_inv cfg o) l) as Hw by (intros l Hl; eapply Forall_impl; [exact Hl|by intros ? []]).
  assert (forall n, (n < 3)%nat -> wrr_ok cfg (mkWrr n 0)) as Hok.
  { intros n Hn. pose proof (weight_pos cfg _ Hcfg Hn). split; cbn [w_class w_credit]; [done|lia]. }
  destruct (picks_credit cfg (mkSched 0 0 cur) os1 Hcfg) as [E1 N1]; [apply (Hok 0%nat); lia|done|done|].
  destruct (N1 (os2 ++ os3)) as (s2 & Hs2 & ->); [apply Forall_app; auto|].
  destruct s2 as [c2 cr2 cur2]. injection Hs2 as -> ->.
  destruct (picks_credit cfg (mkSched 1 0 cur2) os2 Hcfg) as [E2 N2]; [apply (Hok 1%nat); lia|done|done|].
  destruct (N2 os3) as (s3 & Hs3 & ->); [auto|].
  destruct s3 as [c3 cr3 cur3]. injection Hs3 as -> ->.
  destruct (picks_credit cfg (mkSched 2 0 cur3) os3 Hcfg) as [E3 _]; [apply (Hok 2%nat); lia|done|done|].
  by rewrite E1, E2, E3.
Qed.

(** ** Streams inside one class *)

(** Senders that queue a further frame whenever one of theirs is sent: [n] scans,
    each followed by the same request arriving again. *)
Fixpoint serve (cfg : PeerConfig) (n : nat) (s : Sched) (o : Outbound)
    : list outboundRequest * Sched * Outbound :=
  match n with
  | O => ([], s, o)
  | S n =>
      match scan cfg s o with
      | (None, s', o') => ([], s', o')
      | (Some req, s', o') =>
          let '(served, s'', o'') :=
            serve cfg n s' (if fits cfg o' req then enqueue req o' else o') in
          (req :: served, s'', o'')
      end
  end.

Definition demo_cfg : PeerConfig := install_classify DefaultPeerConfig.

Definition demo_event (id stream class : Z) : outboundRequest :=
  let f := mkFrame (mkHeader 1 1 7 FlagEvent 0 stream) [Byte.x2a] in
  mkRequest (Z.to_N id) f class (frame_bytes f).

(** Two bulk streams, 1 and 2, and an interactive stream, 3. *)
Definition demo_out : Outbound :=
  foldl (fun o req => enqueue req o) empty_outbound
    [demo_event 1 1 TrafficBulk; demo_event 1 1 TrafficBulk; demo_event 2 2 TrafficBulk;
     demo_event 3 3 TrafficInteractive; demo_event 3 3 TrafficInteractive].

Lemma serve_app cfg m n s o :
  length (serve cfg m s o).1.1 = m ->
  serve cfg (m + n) s o =
    let '(l1, s1, o1) := serve cfg m s o in
    let '(l2, s2, o2) := serve cfg n s1 o1 in (l1 ++ l2, s2, o2).
Proof.
  revert s o. induction m as [|m IH]; intros s o; cbn [serve Nat.add].
  - intros _. by destruct (serve cfg n s o) as [[? ?] ?].
  - destruct (scan cfg s o) as [[[req|] s'] o']; [|done].
    specialize (IH s' (if fits cfg o' req then enqueue req o' else o')).
    destruct (serve cfg m s' _) as [[l1 s1] o1]. cbn in *. intros Hl.
    rewrite IH by lia. by destruct (serve cfg n s1 o1) as [[? ?] ?].
Qed.

Definition starving_turn : list outboundRequest :=
  replicate 4 (demo_event 3 3 TrafficInteractive) ++ [demo_event 1 1 TrafficBulk].

Lemma starving_first : serve demo_cfg 5 initial_sched demo_out = (starving_turn, mkSched 0 0 1, demo_out).
Proof. vm_compute. reflexivity. Qed.

Lemma starving_again : serve demo_cfg 5 (mkSched 0 0 1) demo_out = (starving_turn, mkSched 0 0 1, demo_out).
Proof. vm_compute. reflexivity. Qed.

Lemma starving_turns n :
  serve demo_cfg (5 * n) (mkSched 0 0 1) demo_out =
    (concat (replicate n starving_turn), mkSched 0 0 1, demo_out).
Proof.
  induction n as [|n IH]; [done|].
  replace (5 * S n)%nat with (5 + 5 * n)%nat by lia.
  rewrite serve_app by (by rewrite starving_again). by rewrite starving_again, IH.
Qed.

(** C37. A stream can be starved inside its class. The round-robin cursor of
    [takeLocked] is shared by the three classes. With the default weights, two
    bulk streams 1 and 2 and an interactive stream 3 that stays busy, every turn
    ends with the cursor back on stream 1: bulk requests go on being served
    forever, one per turn, and never one of stream 2, whose request was queued
    before the scheduler's first step. *)
Theorem stream_starvation n :
  let '(served, _, o) := serve demo_cfg (5 * S n) initial_sched demo_out in
  queue_of 2 o = [demo_event 2 2 TrafficBulk] /\
  Forall (fun req => stream_of req <> 2) served /\
  length (filter (fun req => req_class req = TrafficBulk) served) = S n /\
  length served = (5 * S n)%nat.
Proof.
  replace (5 * S n)%nat with (5 + 5 * n)%nat by lia.
  rewrite serve_app by (by rewrite starving_first). rewrite starving_first, starving_turns.
  split; [by vm_compute|].
  assert (Forall (fun req => stream_of req <> 2) starving_turn) as Hs by (by repeat constructor).
  induction n as [|n (IH1 & IH2 & IH3)].
  - cbn [replicate concat]. rewrite app_nil_r. split; [done|]. split; by vm_compute.
  - cbn [replicate concat].
    rewrite app_assoc, <- (app_assoc starving_turn), filter_app, length_app in *.
    split; [by apply Forall_app|]. rewrite filter_app, !length_app in *.
    change (length (filter (fun req => req_class req = TrafficBulk) starving_turn)) with 1%nat in *.
    change (length starving_turn) with 5%nat in *. split; lia.
Qed.

(** ** Concrete runs *)

Lemma demo_cfg_ok : peer_config_ok demo_cfg.
Proof. apply (peer_withDefaults_ok (mkPeerConfig 0 0 0 0 0 0 0 0 0 0 None)). vm_compute. reflexivity. Qed.

Lemma enqueue_all_inv cfg reqs o :
  peer_config_ok cfg -> out_inv cfg o ->
  (forall pre req post, reqs = pre ++ req :: post -> req_ok req /\
     fits cfg (foldl (fun o req => enqueue req o) o pre) req = true) ->
  out_inv cfg (foldl (fun o req => enqueue req o) o reqs).
Proof.
  intros Hcfg. revert o. induction reqs as [|req reqs IH]; intros o I Hr; [done|]. cbn.
  destruct (Hr [] req reqs eq_refl) as [Hok Hf].
  apply IH; [by apply enqueue_inv|]. intros pre r post ->.
  apply (Hr (req :: pre) r post). done.
Qed.

Lemma demo_req_ok id stream class :
  TrafficControl <= class <= TrafficBulk -> req_ok (demo_event id stream class).
Proof. intros H. by split. Qed.

Lemma demo_out_inv : out_inv demo_cfg demo_out.
Proof.
  unfold demo_out; cbn [foldl].
  repeat (apply enqueue_inv;
    [exact demo_cfg_ok| |apply demo_req_ok; unfold TrafficControl, TrafficInteractive, TrafficBulk; lia
    |vm_compute; reflexivity]).
  apply empty_outbound_inv, demo_cfg_ok.
Qed.

(** All three classes waiting at once. *)
Definition demo_out3 : Outbound := enqueue (demo_event 4 4 TrafficControl) demo_out.

Lemma demo_out3_inv : out_inv demo_cfg demo_out3.
Proof.
  apply enqueue_inv; [exact demo_cfg_ok|exact demo_out_inv|apply demo_req_ok|vm_compute; reflexivity].
  unfold TrafficControl, TrafficBulk. lia.
Qed.

Lemma demo_out3_heads t : (t < 3)%nat -> has_head demo_out3 (class_at t) = true.
Proof. intros Ht. destruct (class_cases _ Ht) as [->|[->| ->]]; vm_compute; reflexivity. Qed.

Lemma demo_sched_ok : wrr_ok demo_cfg (wrr_of initial_sched).
Proof. apply wrr_ok_initial, demo_cfg_ok. Qed.

Lemma takeLocked_spec_witness :
  match takeLocked TrafficBulk 1 demo_out with
  | (None, _, o') => o' = demo_out /\ has_head demo_out TrafficBulk = false
  | (Some req, _, o') => taken demo_cfg TrafficBulk demo_out req o' /\
      has_head demo_out TrafficBulk = true /\
      exists j key st rest, let index i := ((1 + i) mod length (outboundOrder demo_out))%nat in
        head_at TrafficBulk (index j) demo_out = Some (key, st, req, rest) /\
        forall i, (i < j)%nat -> head_at TrafficBulk (index i) demo_out = None
  end.
Proof. apply (takeLocked_spec demo_cfg TrafficBulk 1 demo_out demo_out_inv). Defined.

Lemma scan_refines_witness :
  wrr demo_cfg (has_head demo_out) (wrr_of initial_sched) =
    (req_class <$> (scan demo_cfg initial_sched demo_out).1.1,
     wrr_of (scan demo_cfg initial_sched demo_out).1.2) /\
  match (scan demo_cfg initial_sched demo_out).1.1 with
  | None => (scan demo_cfg initial_sched demo_out).2 = demo_out
  | Some r => exists class, taken demo_cfg class demo_out r (scan demo_cfg initial_sched demo_out).2
  end.
Proof.
  apply (scan_refines demo_cfg initial_sched demo_out _ _ _ demo_out_inv).
  by destruct (scan demo_cfg initial_sched demo_out) as [[? ?] ?].
Defined.

Lemma scan_work_conserving_witness :
  (scan demo_cfg initial_sched empty_outbound).1.1 = None <-> outbound empty_outbound = ∅.
Proof.
  apply (scan_work_conserving demo_cfg initial_sched empty_outbound).
  - exact demo_cfg_ok.
  - apply empty_outbound_inv, demo_cfg_ok.
  - exact demo_sched_ok.
Defined.

Lemma sched_bounded_bypass_witness :
  Some (class_at 2) ∈ picks demo_cfg initial_sched (replicate 13 demo_out).
Proof.
  apply (sched_bounded_bypass demo_cfg initial_sched (replicate 13 demo_out) 2).
  - exact demo_cfg_ok.
  - exact demo_sched_ok.
  - lia.
  - apply Forall_replicate. split; [exact demo_out_inv|vm_compute; reflexivity].
  - vm_compute. reflexivity.
Defined.

Lemma sched_weighted_share_witness :
  picks demo_cfg (mkSched 0 0 0)
    (replicate 8 demo_out3 ++ replicate 4 demo_out3 ++ replicate 1 demo_out3) =
  replicate (length (replicate 8 demo_out3)) (Some TrafficControl) ++
  replicate (length (replicate 4 demo_out3)) (Some TrafficInteractive) ++
  replicate (length (replicate 1 demo_out3)) (Some TrafficBulk).
Proof.
  apply (sched_weighted_share demo_cfg (replicate 8 demo_out3) (replicate 4 demo_out3)
           (replicate 1 demo_out3) 0).
  - exact demo_cfg_ok.
  - assert (out_inv demo_cfg demo_out3 /\
      forall t, (t < 3)%nat -> has_head demo_out3 (class_at t) = true)
      by (split; [exact demo_out3_inv|exact demo_out3_heads]).
    repeat (apply Forall_app; split); by apply Forall_replicate.
  - reflexivity.
  - reflexivity.
  - reflexivity.
Defined.
