(* ===== verification/Correlation.v ===== *)
(** peer.go: request correlation. [reservePending], [abandonPending] and
    [resolve] on the pending and cancelled tables. *)

From S2P Require Import Prelude Errors BigEndian Frame PeerConfig.

(** [peerPending]; [pp_response] is the identity of its response channel. *)
Record peerPending := mkPending {
  pp_messageType : Z;
  pp_streamID : Z;
  pp_response : N;
}.

(** The correlation fields of [Peer]; [next] is the atomic uint64 counter. *)
Record Corr := mkCorr {
  pending : gmap Z peerPending;
  canceled : gmap Z peerPending;
  canceledOrder : list Z;
  next : Z;
}.

Definition empty_corr : Corr := mkCorr ∅ ∅ [] 0.

(** One attempt of [reservePending]'s loop: [id := p.next.Add(1)] and the tests;
    the state is the counter. *)
Definition reserve_attempt (c : Corr) (counter : Z) : Z + Z :=
  let id := u64 (counter + 1) in
  if id =? 0 then inl id
  else if bool_decide (pending c !! id = None) && bool_decide (canceled c !! id = None)
  then inr id else inl id.

(** [reservePending] on an open peer; [response] is the freshly made channel.
    The loop makes [^uint64(0)] attempts at most. *)
Definition reservePending (response : N) (c : Corr) : (Z + error) * Corr :=
  match pos_until (reserve_attempt c) (Z.to_pos MaxUint64) (next c) with
  | inr id =>
      (inl id, mkCorr (<[id := mkPending 0 0 response]> (pending c)) (canceled c)
                 (canceledOrder c) id)
  | inl counter =>
      (inr ErrInvalidCorrelation, mkCorr (pending c) (canceled c) (canceledOrder c) counter)
  end.

(** The critical section of [Call] after [reservePending]:
    [pending := p.pending[correlation]; pending.messageType = ...;
    pending.streamID = ...]. [None] is the nil dereference, a panic. *)
Definition call_fill (id messageType streamID : Z) (c : Corr) : option Corr :=
  p ← pending c !! id;
  Some (mkCorr (<[id := mkPending messageType streamID (pp_response p)]> (pending c))
          (canceled c) (canceledOrder c) (next c)).

(** [abandonPending] *)
Definition abandonPending (cfg : PeerConfig) (id : Z) (c : Corr) : Corr :=
  match pending c !! id with
  | None => c
  | Some p =>
      let pending' := delete id (pending c) in
      let canceled' := <[id := p]> (canceled c) in
      let order := canceledOrder c ++ [id] in
      if MaxCanceledRequests cfg <? len order then
        match order with
        | oldest :: order' => mkCorr pending' (delete oldest canceled') order' (next c)
        | [] => mkCorr pending' canceled' order (next c)
        end
      else mkCorr pending' canceled' order (next c)
  end.

(** Removal of the first occurrence of [id] from [canceledOrder]. *)
Fixpoint remove_first (id : Z) (l : list Z) : list Z :=
  match l with
  | [] => []
  | x :: l => if x =? id then l else x :: remove_first id l
  end.

(** A pending or cancelled request that the response answers. *)
Definition answers (frame : Frame) (p : peerPending) : bool :=
  (pp_messageType p =? MessageType (FHeader frame)) && (pp_streamID p =? StreamID (FHeader frame)).

(** [resolve]: the error, the tables, and the channel on which the response is
    sent ([pending.response <- peerResult{frame: frame}]), if any. *)
Definition resolve (frame : Frame) (c : Corr) : option error * Corr * option N :=
  let id := CorrelationID (FHeader frame) in
  match pending c !! id with
  | Some p =>
      if answers frame p then
        (None, mkCorr (delete id (pending c)) (canceled c) (canceledOrder c) (next c),
         Some (pp_response p))
      else (Some ErrUnexpectedResponse, c, None)
  | None =>
      match canceled c !! id with
      | Some p =>
          if answers frame p then
            (None, mkCorr (pending c) (delete id (canceled c))
                     (remove_first id (canceledOrder c)) (next c), None)
          else (Some ErrUnexpectedResponse, c, None)
      | None => (Some ErrUnexpectedResponse, c, None)
      end
  end.

(** ** Invariant *)

Record corr_inv (cfg : PeerConfig) (c : Corr) : Prop := {
  ci_disjoint id : is_Some (pending c !! id) -> canceled c !! id = None;
  ci_nodup : NoDup (canceledOrder c);
  ci_order id : id ∈ canceledOrder c <-> is_Some (canceled c !! id);
  ci_bound : len (canceledOrder c) <= MaxCanceledRequests cfg;
  ci_pending_range id : is_Some (pending c !! id) -> 0 < id < 2 ^ 64;
  ci_canceled_range id : is_Some (canceled c !! id) -> 0 < id < 2 ^ 64;
  ci_next : fits_u 64 (next c);
  ci_inj i j p q : pending c !! i = Some p -> pending c !! j = Some q ->
    pp_response p = pp_response q -> i = j;
}.

Lemma empty_corr_inv cfg : peer_config_ok cfg -> corr_inv cfg empty_corr.
Proof.
  intros Hcfg. split; cbn.
  - done.
  - constructor.
  - intros id. rewrite lookup_empty. split; [by intros ?%elem_of_nil|by intros [? ?]].
  - rewrite len_nil. destruct Hcfg. lia.
  - intros id [? ?]. by rewrite lookup_empty in *.
  - intros id [? ?]. by rewrite lookup_empty in *.
  - by split.
  - intros i j p q Hi. by rewrite lookup_empty in Hi.
Qed.

(** *** Reservation *)

Lemma reserve_attempt_spec c counter :
  match reserve_attempt c counter with
  | inr id => id = u64 (counter + 1) /\ 0 < id < 2 ^ 64 /\
      pending c !! id = None /\ canceled c !! id = None
  | inl id => id = u64 (counter + 1) /\
      (id = 0 \/ is_Some (pending c !! id) \/ is_Some (canceled c !! id))
  end.
Proof.
  unfold reserve_attempt. pose proof (uwrap_bound 64 (counter + 1) ltac:(lia)) as Hb.
  unfold fits_u in Hb. destruct (Z.eqb_spec (u64 (counter + 1)) 0); [by split; [|left]|].
  destruct (pending c !! u64 (counter + 1)) eqn:Ep; cbn.
  - split; [done|]. right; left. by eexists.
  - destruct (canceled c !! u64 (counter + 1)) eqn:Ec; cbn.
    + split; [done|]. right; right. by eexists.
    + repeat split; (done || lia).
Qed.

(** The identifiers tried by [n] failed attempts: consecutive, hence distinct. *)
Lemma reserve_failed c n counter counter' :
  nat_until (reserve_attempt c) n counter = inl counter' ->
  forall i, (1 <= i <= n)%nat ->
    let id := u64 (counter + Z.of_nat i) in
    id = 0 \/ is_Some (pending c !! id) \/ is_Some (canceled c !! id).
Proof.
  revert counter. induction n as [|n IH]; intros counter Hn i Hi; [lia|]. cbn in Hn.
  pose proof (reserve_attempt_spec c counter) as Ha.
  destruct (reserve_attempt c counter) as [c1|]; [|done]. destruct Ha as [-> Ha].
  destruct (decide (i = 1)%nat) as [->|]; [done|].
  specialize (IH _ Hn (i - 1)%nat ltac:(lia)). cbn in IH.
  replace (u64 (counter + Z.of_nat i)) with (u64 (u64 (counter + 1) + Z.of_nat (i - 1))); [done|].
  unfold uwrap. rewrite Zplus_mod_idemp_l. f_equal. lia.
Qed.

Lemma reserve_found c n counter id :
  nat_until (reserve_attempt c) n counter = inr id ->
  0 < id < 2 ^ 64 /\ pending c !! id = None /\ canceled c !! id = None.
Proof.
  revert counter. induction n as [|n IH]; intros counter Hn; [done|]. cbn in Hn.
  pose proof (reserve_attempt_spec c counter) as Ha.
  destruct (reserve_attempt c counter) as [c1|i]; [by eapply IH|]. simplify_eq. tauto.
Qed.

Definition outstanding (c : Corr) : Z := Z.of_nat (size (pending c)) + Z.of_nat (size (canceled c)).

(** Pigeonhole: more consecutive attempts than outstanding identifiers and zero. *)
Lemma reserve_enough c n counter :
  fits_u 64 counter -> outstanding c + 1 < Z.of_nat n <= 2 ^ 64 ->
  exists id, nat_until (reserve_attempt c) n counter = inr id.
Proof.
  intros Hc Hn. destruct (nat_until _ n counter) as [counter'|id] eqn:E; [exfalso|by eexists].
  pose proof (reserve_failed _ _ _ _ E) as Hf. cbn in Hf.
  set (ids := (fun i => u64 (counter + Z.of_nat i)) <$> seq 1 n).
  set (used := 0 :: elements (dom (pending c)) ++ elements (dom (canceled c))).
  assert (NoDup ids) as Hnd.
  { apply NoDup_fmap_2_strong; [|apply NoDup_seq]. intros i j Hi Hj He.
    apply elem_of_seq in Hi, Hj. unfold uwrap in He.
    assert ((counter + Z.of_nat i - (counter + Z.of_nat j)) mod 2 ^ 64 = 0) as Hm
      by (rewrite Zminus_mod, He, Z.sub_diag; by apply Z.mod_0_l).
    apply Z.mod_divide in Hm; [|lia]. destruct Hm as [k Hk]. nia. }
  assert (ids ⊆ used) as Hsub.
  { intros x [i [-> Hi]]%list_elem_of_fmap. apply elem_of_seq in Hi.
    destruct (Hf i ltac:(lia)) as [->|[Hp|Hp]]; [left|right..]; apply elem_of_app;
      [left|right]; by apply elem_of_elements, elem_of_dom. }
  pose proof (NoDup_submseteq _ _ Hnd Hsub) as Hs%submseteq_length.
  revert Hs. unfold ids, used. rewrite length_fmap, length_seq. cbn [length]. rewrite length_app.
  assert (length (elements (dom (pending c))) = size (pending c)) as -> by exact (size_dom (pending c)).
  assert (length (elements (dom (canceled c))) = size (canceled c)) as -> by exact (size_dom (canceled c)).
  unfold outstanding in Hn. lia.
Qed.

Lemma reservePending_spec' response c :
  fits_u 64 (next c) -> outstanding c + 1 < MaxUint64 ->
  exists id c', reservePending response c = (inl id, c') /\
    0 < id < 2 ^ 64 /\ pending c !! id = None /\ canceled c !! id = None /\
    pending c' = <[id := mkPending 0 0 response]> (pending c) /\
    canceled c' = canceled c /\ canceledOrder c' = canceledOrder c /\ next c' = id.
Proof.
  intros Hr Ho. unfold reservePending. rewrite pos_until_nat.
  destruct (reserve_enough c (Pos.to_nat (Z.to_pos MaxUint64)) (next c) Hr) as [id Hid].
  { unfold MaxUint64 in *. rewrite positive_nat_Z, Z2Pos.id by lia. lia. }
  rewrite Hid. pose proof (reserve_found _ _ _ _ Hid) as (? & ? & ?).
  eexists id, _. repeat split; (done || lia).
Qed.

Lemma reserve_inv cfg response c :
  corr_inv cfg c -> (forall id p, pending c !! id = Some p -> pp_response p <> response) ->
  corr_inv cfg (reservePending response c).2.
Proof.
  intros I Hfresh. unfold reservePending. rewrite pos_until_nat.
  destruct (nat_until _ _ (next c)) as [counter|id] eqn:E; cbn [snd].
  - destruct I. split; cbn; try done.
    assert (forall n s s', fits_u 64 s -> nat_until (reserve_attempt c) n s = inl s' -> fits_u 64 s')
      as Hfit.
    { induction n as [|n IH]; intros s s' Hs; cbn; [by intros [= <-]|].
      pose proof (reserve_attempt_spec c s) as Ha.
      destruct (reserve_attempt c s); [|done]. destruct Ha as [-> _].
      apply IH. by apply uwrap_bound. }
    by eapply Hfit.
  - pose proof (reserve_found _ _ _ _ E) as (Hid & Hp & Hc). destruct I. split; cbn; try done.
    + intros i Hi. map_cases; [done|by apply ci_disjoint0].
    + intros i Hi. map_cases; [done|by apply ci_pending_range0].
    + unfold fits_u. lia.
    + intros i j p q Hi Hj Hr. map_cases; try done; cbn in *; try (by eapply ci_inj0);
        exfalso; match goal with H : pending c !! _ = Some _ |- _ => apply Hfresh in H; congruence end.
Qed.

Lemma call_fill_inv cfg id mt sid c c' :
  corr_inv cfg c -> call_fill id mt sid c = Some c' -> corr_inv cfg c'.
Proof.
  intros I Hf. unfold call_fill in Hf. apply bind_Some in Hf as (p & Hp & [= <-]).
  destruct I. split; cbn; try done.
  - intros i Hi. apply ci_disjoint0. map_cases; [by eexists|done].
  - intros i Hi. apply ci_pending_range0. map_cases; [by eexists|done].
  - intros i j q r Hi Hj Hr. map_cases; try done; cbn in *; by eapply ci_inj0.
Qed.

Lemma abandon_inv cfg id c :
  peer_config_ok cfg -> corr_inv cfg c -> corr_inv cfg (abandonPending cfg id c).
Proof.
  intros Hcfg I. unfold abandonPending. destruct (pending c !! id) as [p|] eqn:Ep; [|done].
  destruct I.
  assert (canceled c !! id = None) as Hcn by (apply ci_disjoint0; by eexists).
  assert (id ∉ canceledOrder c) as Hni by (rewrite ci_order0, Hcn; by intros [? ?]).
  assert (0 < id < 2 ^ 64) as Hrange by (apply ci_pending_range0; by eexists).
  assert (Hnd0 : NoDup (canceledOrder c ++ [id])).
  { apply NoDup_app. split; [done|]. split; [|apply NoDup_singleton].
    intros x Hx ->%list_elem_of_singleton. done. }
  assert (forall i, i ∈ canceledOrder c ++ [id] <-> is_Some (<[id:=p]> (canceled c) !! i)) as Hord.
  { intros i. rewrite elem_of_app, ci_order0, list_elem_of_singleton.
    map_cases; [split; [by eexists|by right]|].
    split; [by intros [?|?]; [|congruence]|by left]. }
  assert (forall i, is_Some (delete id (pending c) !! i) -> <[id:=p]> (canceled c) !! i = None) as Hdis.
  { intros i [q Hq]. map_cases. apply ci_disjoint0. by eexists. }
  assert (forall i j q r, delete id (pending c) !! i = Some q -> delete id (pending c) !! j = Some r ->
    pp_response q = pp_response r -> i = j) as Hinj.
  { intros i j q r Hi Hj. map_cases. by eapply ci_inj0. }
  assert (forall i, is_Some (delete id (pending c) !! i) -> 0 < i < 2 ^ 64) as Hpr.
  { intros i [q Hq]. map_cases. apply ci_pending_range0. by eexists. }
  assert (forall i, is_Some (<[id:=p]> (canceled c) !! i) -> 0 < i < 2 ^ 64) as Hcr.
  { intros i Hq. map_cases; [done|by apply ci_canceled_range0]. }
  destruct (Z.ltb_spec (MaxCanceledRequests cfg) (len (canceledOrder c ++ [id]))).
  - destruct (canceledOrder c ++ [id]) as [|oldest order'] eqn:Eo; [by destruct (canceledOrder c)|].
    assert (len (oldest :: order') <= MaxCanceledRequests cfg + 1) as Hlen
      by (rewrite <- Eo; mux_rw; lia).
    apply NoDup_cons in Hnd0 as [Hno Hnd]. split; cbn [pending canceled canceledOrder next];
      try done.
    + intros i Hi. rewrite lookup_delete. case_decide; [done|]. by apply Hdis.
    + intros i. specialize (Hord i). rewrite elem_of_cons in Hord. rewrite lookup_delete.
      case_decide as Hd; [subst; split; [done|by intros [? ?]]|]. rewrite <- Hord.
      split; [by right|by intros [?|?]; [congruence|]].
    + rewrite len_cons in Hlen. lia.
    + intros i Hi. apply Hcr. rewrite lookup_delete in Hi. case_decide; [by destruct Hi|done].
  - split; cbn [pending canceled canceledOrder next]; done.
Qed.

Lemma elem_of_remove_first id l i :
  NoDup l -> i ∈ remove_first id l <-> i ∈ l /\ i <> id.
Proof.
  induction 1 as [|x l Hx Hl IH]; cbn.
  { split; [by intros ?%elem_of_nil|by intros [?%elem_of_nil _]]. }
  destruct (Z.eqb_spec x id) as [->|Hne]; rewrite ?elem_of_cons, ?IH.
  - split; [intros Hi; split; [by right|by intros ->]|]. intros [[->|?] ?]; done.
  - split; [intros [->|[? ?]]; split; tauto|]. intros [[->|?] ?]; tauto.
Qed.

Lemma NoDup_remove_first id l : NoDup l -> NoDup (remove_first id l).
Proof.
  induction 1 as [|x l Hx Hl IH]; cbn; [constructor|].
  destruct (Z.eqb_spec x id); [done|]. constructor; [|done].
  rewrite elem_of_remove_first by done. tauto.
Qed.

Lemma len_remove_first id l : len (remove_first id l) <= len l.
Proof.
  induction l as [|x l IH]; cbn [remove_first]; [lia|].
  destruct (x =? id); rewrite ?len_cons in *; lia.
Qed.

Lemma resolve_inv cfg frame c : corr_inv cfg c -> corr_inv cfg (resolve frame c).1.2.
Proof.
  intros I. unfold resolve. set (id := CorrelationID (FHeader frame)).
  destruct (pending c !! id) as [p|] eqn:Ep.
  - destruct (answers frame p); [|done]. destruct I. split; cbn; try done.
    + intros i [q Hq]. map_cases. apply ci_disjoint0. by eexists.
    + intros i [q Hq]. map_cases. apply ci_pending_range0. by eexists.
    + intros i j q r Hi Hj. map_cases. by eapply ci_inj0.
  - destruct (canceled c !! id) as [p|] eqn:Ec; [|done].
    destruct (answers frame p); [|done]. destruct I. split; cbn; try done.
    + intros i Hi. rewrite lookup_delete. case_decide; [done|]. by apply ci_disjoint0.
    + by apply NoDup_remove_first.
    + intros i. rewrite elem_of_remove_first, ci_order0 by done. rewrite lookup_delete.
      case_decide as Hd; [subst; split; [tauto|by intros [? ?]]|]. split; [tauto|done].
    + pose proof (len_remove_first id (canceledOrder c)). lia.
    + intros i Hi. apply ci_canceled_range0. rewrite lookup_delete in Hi.
      case_decide; [by destruct Hi|done].
Qed.

(** ** Properties *)

(** Correlation identifiers are fresh. While fewer than 2^64 - 2 requests
    are outstanding or cancelled, [reservePending] succeeds within its attempt
    bound, with a non-zero identifier that no pending or cancelled request uses,
    and only that entry is added; the counter may wrap around. *)
Theorem reservePending_spec response c :
  fits_u 64 (next c) -> outstanding c + 1 < MaxUint64 ->
  exists id c', reservePending response c = (inl id, c') /\
    0 < id < 2 ^ 64 /\ pending c !! id = None /\ canceled c !! id = None /\
    pending c' = <[id := mkPending 0 0 response]> (pending c) /\
    canceled c' = canceled c /\ canceledOrder c' = canceledOrder c /\ next c' = id.
Proof. apply reservePending_spec'. Qed.

(** Responses reach only the request they answer. A response is delivered
    only to the pending request with its correlation ID, message type and
    stream, which stops being pending; a response to a cancelled request is
    absorbed and its tombstone removed; every other response is refused with
    ErrUnexpectedResponse and changes nothing. *)
Theorem resolve_spec frame c err c' deliver :
  resolve frame c = (err, c', deliver) ->
  let id := CorrelationID (FHeader frame) in
  match deliver with
  | Some response => err = None /\ (exists p, pending c !! id = Some p /\
      pp_response p = response /\ pp_messageType p = MessageType (FHeader frame) /\
      pp_streamID p = StreamID (FHeader frame)) /\
      pending c' = delete id (pending c) /\ canceled c' = canceled c
  | None =>
      (err = None /\ pending c !! id = None /\ (exists p, canceled c !! id = Some p /\
         pp_messageType p = MessageType (FHeader frame) /\
         pp_streamID p = StreamID (FHeader frame)) /\
       pending c' = pending c /\ canceled c' = delete id (canceled c)) \/
      (err = Some ErrUnexpectedResponse /\ c' = c /\
       (forall p, pending c !! id = Some p -> answers frame p = false) /\
       (pending c !! id = None -> forall p, canceled c !! id = Some p -> answers frame p = false))
  end.
Proof.
  unfold resolve. set (id := CorrelationID (FHeader frame)). intros HR.
  assert (forall p, answers frame p = true -> pp_messageType p = MessageType (FHeader frame) /\
    pp_streamID p = StreamID (FHeader frame)) as Hans.
  { intros p Hp. unfold answers in Hp. by reflect_bools. }
  destruct (pending c !! id) as [p|] eqn:Ep.
  - destruct (answers frame p) eqn:Ea; simplify_eq; cbn.
    + destruct (Hans _ Ea). split; [done|]. split; [by exists p|done].
    + right. split; [done|]. split; [done|]. split; [by intros ? [= <-]|done].
  - destruct (canceled c !! id) as [p|] eqn:Ec.
    + destruct (answers frame p) eqn:Ea; simplify_eq; cbn.
      * destruct (Hans _ Ea). left. split; [done|]. split; [done|]. split; [by exists p|done].
      * right. split; [done|]. split; [done|]. split; [done|]. by intros _ ? [= <-].
    + simplify_eq. right. done.
Qed.

(** The tombstone just made survives the eviction. *)
Lemma abandon_tombstone cfg id p c :
  peer_config_ok cfg -> corr_inv cfg c -> pending c !! id = Some p ->
  pending (abandonPending cfg id c) !! id = None /\
  canceled (abandonPending cfg id c) !! id = Some p.
Proof.
  intros Hcfg I Hp. unfold abandonPending. rewrite Hp.
  assert (id ∉ canceledOrder c) as Hni.
  { rewrite (ci_order _ _ I), (ci_disjoint _ _ I) by (by eexists). by intros [? ?]. }
  destruct (Z.ltb_spec (MaxCanceledRequests cfg) (len (canceledOrder c ++ [id]))) as [Hlt|].
  - destruct (canceledOrder c) as [|x order] eqn:Eo; cbn [app] in *.
    + destruct Hcfg. mux_lia.
    + cbn. split; [apply lookup_delete_eq|].
      rewrite lookup_delete_ne by (intros ->; apply Hni; left). apply lookup_insert_eq.
  - cbn. split; [apply lookup_delete_eq|apply lookup_insert_eq].
Qed.

(** A late response is absorbed exactly once. After a Call is abandoned, its
    response is accepted silently, delivered to nobody, and does not close the
    peer; a second copy is a protocol error. *)
Theorem late_response_once cfg id p c frame :
  peer_config_ok cfg -> corr_inv cfg c -> pending c !! id = Some p ->
  CorrelationID (FHeader frame) = id -> answers frame p = true ->
  let '(err, c2, deliver) := resolve frame (abandonPending cfg id c) in
  err = None /\ deliver = None /\ (resolve frame c2).1.1 = Some ErrUnexpectedResponse.
Proof.
  intros Hcfg I Hp Hid Hans. pose proof (abandon_tombstone _ _ _ _ Hcfg I Hp) as [Hpn Hc].
  unfold resolve. rewrite Hid, Hpn, Hc, Hans. cbn. split; [done|]. split; [done|].
  by rewrite Hpn, lookup_delete_eq.
Qed.

Lemma abandon_order cfg id c :
  is_Some (pending c !! id) ->
  canceledOrder (abandonPending cfg id c) =
    if MaxCanceledRequests cfg <? len (canceledOrder c) + 1
    then drop 1 (canceledOrder c ++ [id]) else canceledOrder c ++ [id].
Proof.
  intros [p Hp]. unfold abandonPending. rewrite Hp. mux_rw. rewrite Z.add_0_r.
  destruct (_ <? _); [|done]. by destruct (canceledOrder c ++ [id]).
Qed.

Lemma abandon_pending_other cfg id c j :
  id <> j -> pending (abandonPending cfg id c) !! j = pending c !! j.
Proof.
  intros Hne. unfold abandonPending. destruct (pending c !! id); [|done].
  case_match; [case_match|]; cbn; by rewrite lookup_delete_ne.
Qed.

Lemma abandon_pending_sub cfg id c j q :
  pending (abandonPending cfg id c) !! j = Some q -> pending c !! j = Some q.
Proof.
  unfold abandonPending. destruct (pending c !! id); [|done].
  case_match; [case_match|]; cbn; by intros [_ ?]%lookup_delete_Some.
Qed.

(** Bounded tombstones, oldest evicted first. After any sequence of abandoned
    calls the tombstones are exactly the last [MaxCanceledRequests] of the
    sequence of cancellations. *)
Theorem tombstones_fifo cfg ids c :
  peer_config_ok cfg -> corr_inv cfg c -> NoDup ids ->
  Forall (fun id => is_Some (pending c !! id)) ids ->
  let c' := foldl (fun c id => abandonPending cfg id c) c ids in
  canceledOrder c' =
    drop (length (canceledOrder c ++ ids) - Z.to_nat (MaxCanceledRequests cfg))
      (canceledOrder c ++ ids) /\
  forall id, id ∈ canceledOrder c' <-> is_Some (canceled c' !! id).
Proof.
  intros Hcfg I Hnd Hp. cbn. revert c I Hp. induction Hnd as [|id ids Hni Hnd IH]; intros c I Hp; cbn.
  - split; [|apply (ci_order _ _ I)]. rewrite app_nil_r.
    pose proof (ci_bound _ _ I) as Hb. unfold len in Hb.
    replace (_ - _)%nat with 0%nat by lia. done.
  - apply Forall_cons in Hp as [Hid Hp].
    destruct (IH (abandonPending cfg id c)) as [Ho Hm]; [by apply abandon_inv| |].
    { rewrite Forall_forall in Hp |- *. intros j Hj.
      rewrite abandon_pending_other by (by intros ->). by apply Hp. }
    split; [|exact Hm]. rewrite Ho, abandon_order by done.
    pose proof (ci_bound _ _ I) as Hb. unfold len in *.
    destruct (Z.ltb_spec (MaxCanceledRequests cfg) (Z.of_nat (length (canceledOrder c)) + 1)) as [Hlt|Hge].
    + replace (drop 1 (canceledOrder c ++ [id]) ++ ids) with (drop 1 (canceledOrder c ++ id :: ids)).
      2: { replace (id :: ids) with ([id] ++ ids) by done. rewrite (assoc_L (++)).
           rewrite (drop_app_le _ ids) by (rewrite length_app; cbn; lia). done. }
      rewrite drop_drop, length_drop. f_equal. rewrite !length_app. cbn. lia.
    + rewrite <- app_assoc. done.
Qed.

(** ** Witnesses *)

Definition demo_peer_cfg : PeerConfig := install_classify DefaultPeerConfig.

(** Three calls waiting for a response of type 5 on stream 2. *)
Definition demo_corr : Corr :=
  foldl (fun c response =>
    match reservePending response c with
    | (inl id, c') => default c' (call_fill id 5 2 c')
    | (inr _, c') => c'
    end) empty_corr [70%N; 71%N; 72%N].

Lemma demo_peer_cfg_ok : peer_config_ok demo_peer_cfg.
Proof.
  split; repeat split; try (left; reflexivity); vm_compute; (reflexivity || discriminate).
Qed.

Lemma demo_corr_step cfg c response :
  corr_inv cfg c -> map_Forall (fun _ p => pp_response p <> response) (pending c) ->
  corr_inv cfg
    match reservePending response c with
    | (inl id, c') => default c' (call_fill id 5 2 c')
    | (inr _, c') => c'
    end.
Proof.
  intros I Hf. pose proof (reserve_inv cfg response c I Hf) as I'.
  destruct (reservePending response c) as [[id|?] c']; cbn in I'; [|done].
  destruct (call_fill id 5 2 c') eqn:E; cbn; [by eapply call_fill_inv|done].
Qed.

Lemma demo_corr_inv : corr_inv demo_peer_cfg demo_corr.
Proof.
  unfold demo_corr; cbn [foldl]. repeat apply demo_corr_step.
  1: apply empty_corr_inv, demo_peer_cfg_ok.
  all: apply (bool_decide_unpack _); vm_compute; exact I.
Qed.

Lemma reservePending_spec_witness :
  exists id c', reservePending 73 demo_corr = (inl id, c') /\
    0 < id < 2 ^ 64 /\ pending demo_corr !! id = None /\ canceled demo_corr !! id = None /\
    pending c' = <[id := mkPending 0 0 73]> (pending demo_corr) /\
    canceled c' = canceled demo_corr /\ canceledOrder c' = canceledOrder demo_corr /\ next c' = id.
Proof. apply (reservePending_spec 73 demo_corr);
  [split; vm_compute; [discriminate|reflexivity]|vm_compute; reflexivity]. Defined.

Definition demo_response (id : Z) : Frame := mkFrame (mkHeader 0 0 5 FlagResponse id 2) [].

Lemma resolve_spec_witness :
  resolve (demo_response 2) demo_corr =
    (None, (resolve (demo_response 2) demo_corr).1.2, Some 71%N) /\
  pending (resolve (demo_response 2) demo_corr).1.2 = delete 2 (pending demo_corr).
Proof.
  split; [vm_compute; reflexivity|].
  exact (proj1 (proj2 (proj2 (resolve_spec (demo_response 2) demo_corr None _ (Some 71%N)
    ltac:(vm_compute; reflexivity))))).
Defined.

Lemma late_response_once_witness :
  let '(err, c2, deliver) := resolve (demo_response 2) (abandonPending demo_peer_cfg 2 demo_corr) in
  err = None /\ deliver = None /\
  (resolve (demo_response 2) c2).1.1 = Some ErrUnexpectedResponse.
Proof.
  apply (late_response_once demo_peer_cfg 2 (mkPending 5 2 71)).
  - exact demo_peer_cfg_ok.
  - exact demo_corr_inv.
  - vm_compute; reflexivity.
  - reflexivity.
  - reflexivity.
Defined.

Lemma tombstones_fifo_witness :
  let c' := foldl (fun c id => abandonPending demo_peer_cfg id c) demo_corr [3; 1] in
  canceledOrder c' =
    drop (length (canceledOrder demo_corr ++ [3; 1]) - Z.to_nat (MaxCanceledRequests demo_peer_cfg))
      (canceledOrder demo_corr ++ [3; 1]) /\
  forall id, id ∈ canceledOrder c' <-> is_Some (canceled c' !! id).
Proof.
  apply (tombstones_fifo demo_peer_cfg [3; 1] demo_corr).
  - exact demo_peer_cfg_ok.
  - exact demo_corr_inv.
  - apply (bool_decide_unpack _). vm_compute. exact I.
  - repeat constructor; vm_compute; eexists; reflexivity.
Defined.
