(* ===== verification/Inbound.v ===== *)
(** peer.go: handler registration and the inbound queues. [RegisterHandlers],
    the critical section of [dispatch] and that of [runInbound], on a heap of
    [inboundStream] objects, since a worker holds a pointer to its stream. *)

From S2P Require Import Prelude Errors BigEndian Frame PeerConfig Outbound.

(** ** Counters *)

(** The uint64 counters of [Peer]. *)
Record Counters := mkCounters {
  receivedFrames : Z;
  receivedBytes : Z;
  sentFrames : Z;
  sentBytes : Z;
  protocolErrors : Z;
  queueOverflows : Z;
  backpressureWaits : Z;
}.

Definition zero_counters : Counters := mkCounters 0 0 0 0 0 0 0.

Definition recordReceived (frame : Frame) (c : Counters) : Counters :=
  mkCounters (u64 (receivedFrames c + 1)) (u64 (receivedBytes c + (HeaderSize + len (Payload frame))))
    (sentFrames c) (sentBytes c) (protocolErrors c) (queueOverflows c) (backpressureWaits c).

Definition recordSent (frame : Frame) (c : Counters) : Counters :=
  mkCounters (receivedFrames c) (receivedBytes c)
    (u64 (sentFrames c + 1)) (u64 (sentBytes c + (HeaderSize + len (Payload frame))))
    (protocolErrors c) (queueOverflows c) (backpressureWaits c).

Definition recordProtocolError (c : Counters) : Counters :=
  mkCounters (receivedFrames c) (receivedBytes c) (sentFrames c) (sentBytes c)
    (u64 (protocolErrors c + 1)) (queueOverflows c) (backpressureWaits c).

(** [p.queueOverflows++] *)
Definition count_overflow (c : Counters) : Counters :=
  mkCounters (receivedFrames c) (receivedBytes c) (sentFrames c) (sentBytes c)
    (protocolErrors c) (u64 (queueOverflows c + 1)) (backpressureWaits c).

(** [p.backpressureWaits++] *)
Definition count_wait (c : Counters) : Counters :=
  mkCounters (receivedFrames c) (receivedBytes c) (sentFrames c) (sentBytes c)
    (protocolErrors c) (queueOverflows c) (u64 (backpressureWaits c + 1)).

(** ** Handlers *)

(** [p.handlers]: the handler of each message type, by its identity. *)
Abbreviation Handlers := (gmap Z N).

(** The first loop of [RegisterHandlers] over the given map's entries, in
    iteration order; a nil handler is [None]. *)
Fixpoint check_handlers (entries : list (Z * option N)) (h : Handlers) : option error :=
  match entries with
  | [] => None
  | (messageType, handler) :: entries =>
      if (messageType =? 0) || bool_decide (handler = None) then Some ErrHandlerNotFound
      else if bool_decide (h !! messageType = None) then check_handlers entries h
      else Some (Wrap ErrHandlerRegistered [messageType])
  end.

(** The second loop. *)
Definition install_handlers (entries : list (Z * option N)) (h : Handlers) : Handlers :=
  foldl (fun h e => match e.2 with Some f => <[e.1 := f]> h | None => delete e.1 h end) h entries.

(** [RegisterHandlers]; [closed] is [p.closed]. *)
Definition RegisterHandlers (entries : list (Z * option N)) (closed : bool) (h : Handlers)
    : option error * Handlers :=
  match entries with
  | [] => (Some ErrHandlerNotFound, h)
  | _ =>
      if closed then (Some ErrPeerClosed, h)
      else match check_handlers entries h with
           | Some e => (Some e, h)
           | None => (None, install_handlers entries h)
           end
  end.

(** [Register] *)
Definition Register (messageType : Z) (handler : option N) (closed : bool) (h : Handlers)
    : option error * Handlers :=
  RegisterHandlers [(messageType, handler)] closed h.

(** ** Inbound queues *)

Record inboundStream := mkInboundStream {
  is_frames : list Frame;
  is_bytes : Z;
}.

(** [p.inbound] holds pointers into a heap of [inboundStream] objects. *)
Record Inbound := mkInbound {
  inbound : gmap Z N;
  in_heap : gmap N inboundStream;
  in_next : N;
}.

Definition empty_inbound : Inbound := mkInbound ∅ ∅ 0.

Definition in_state (ref : N) (i : Inbound) : inboundStream :=
  default (mkInboundStream [] 0) (in_heap i !! ref).

Definition set_state (ref : N) (st : inboundStream) (i : Inbound) : Inbound :=
  mkInbound (inbound i) (<[ref := st]> (in_heap i)) (in_next i).

(** [state = &inboundStream{}; p.inbound[id] = state] *)
Definition new_state (id : Z) (i : Inbound) : Inbound :=
  mkInbound (<[id := in_next i]> (inbound i))
    (<[in_next i := mkInboundStream [] 0]> (in_heap i)) (in_next i + 1).

Inductive dispatch_outcome :=
| DispatchReturn (r : option error)  (* return r *)
| DispatchWait.                      (* wait for p.changed, then loop *)

(** What one iteration of [dispatch] leaves: the outcome, [waited], the queues,
    the worker started, if any, and the counters. *)
Record dispatch_effect := mkEffect {
  de_out : dispatch_outcome;
  de_waited : bool;
  de_inbound : Inbound;
  de_spawn : option (Z * N);
  de_counters : Counters;
}.

Definition accepts (e : dispatch_effect) : bool :=
  match de_out e with DispatchReturn None => true | _ => false end.

(** One iteration of [dispatch]'s loop, up to its select. [closed] is
    [p.result()] when [p.closed]. *)
Definition dispatch_section (cfg : PeerConfig) (h : Handlers) (closed : option error)
    (frame : Frame) (waited : bool) (i : Inbound) (c : Counters) : dispatch_effect :=
  let bytes := frame_bytes frame in
  let id := StreamID (FHeader frame) in
  match closed with
  | Some e => mkEffect (DispatchReturn (Some e)) waited i None c
  | None =>
  match h !! MessageType (FHeader frame) with
  | None =>
      mkEffect (DispatchReturn (Some (Wrap ErrHandlerNotFound [MessageType (FHeader frame)])))
        waited i None c
  | Some _ =>
  let found :=
    match inbound i !! id with
    | Some ref => Some (ref, i, None)
    | None =>
        if MaxActiveStreams cfg <=? Z.of_nat (size (inbound i)) then None
        else Some (in_next i, new_state id i, Some (id, in_next i))
    end in
  match found with
  | None => mkEffect (DispatchReturn (Some ErrTooManyActiveStreams)) waited i None c
  | Some (ref, i, spawn) =>
  let st := in_state ref i in
  if PerStreamQueueBytes cfg <? bytes then
    mkEffect (DispatchReturn (Some ErrPeerQueueOverflow)) waited i spawn (count_overflow c)
  else if (is_bytes st + bytes <=? PerStreamQueueBytes cfg) &&
          (len (is_frames st) + 1 <=? PerStreamQueueFrames cfg) then
    mkEffect (DispatchReturn None) waited
      (set_state ref (mkInboundStream (is_frames st ++ [frame]) (is_bytes st + bytes)) i) spawn c
  else if InboundQueuePolicy cfg =? InboundQueueFail then
    mkEffect (DispatchReturn (Some ErrPeerQueueOverflow)) waited i spawn (count_overflow c)
  else
    mkEffect DispatchWait true i spawn (if waited then c else count_wait c)
  end end end.

(** One iteration of [runInbound]'s loop, up to the call of the handler: the
    frame and handler to run, or [None] when the worker returns. *)
Definition worker_section (h : Handlers) (id : Z) (ref : N) (i : Inbound)
    : option (Frame * option N) * Inbound :=
  let st := in_state ref i in
  match is_frames st with
  | frame :: rest =>
      (Some (frame, h !! MessageType (FHeader frame)),
       set_state ref (mkInboundStream rest (is_bytes st - frame_bytes frame)) i)
  | [] =>
      (None, if bool_decide (inbound i !! id = Some ref)
             then mkInbound (delete id (inbound i)) (in_heap i) (in_next i) else i)
  end.

(** ** Invariant *)

(** The frames queued for a stream. *)
Definition in_queue (id : Z) (i : Inbound) : list Frame :=
  match inbound i !! id with Some ref => is_frames (in_state ref i) | None => [] end.

Record in_stream_inv (cfg : PeerConfig) (id : Z) (st : inboundStream) : Prop := {
  ii_bytes : is_bytes st = sumZ frame_bytes (is_frames st);
  ii_bytes_max : is_bytes st <= PerStreamQueueBytes cfg;
  ii_frames_max : len (is_frames st) <= PerStreamQueueFrames cfg;
  ii_frames : Forall (fun f => StreamID (FHeader f) = id) (is_frames st);
}.

Record in_inv (cfg : PeerConfig) (i : Inbound) : Prop := {
  in_size : Z.of_nat (size (inbound i)) <= MaxActiveStreams cfg;
  in_live id ref : inbound i !! id = Some ref ->
    (exists st, in_heap i !! ref = Some st) /\ in_stream_inv cfg id (in_state ref i);
  in_inj a b ref : inbound i !! a = Some ref -> inbound i !! b = Some ref -> a = b;
  in_fresh ref : is_Some (in_heap i !! ref) -> (ref < in_next i)%N;
}.

Lemma empty_inbound_inv cfg : peer_config_ok cfg -> in_inv cfg empty_inbound.
Proof.
  intros []. split; cbn.
  - rewrite map_size_empty. lia.
  - intros id ref. by rewrite lookup_empty.
  - intros a b ref. by rewrite lookup_empty.
  - intros ref. rewrite lookup_empty. by intros [? ?].
Qed.

Lemma in_state_set ref ref' st i :
  in_state ref' (set_state ref st i) = if decide (ref = ref') then st else in_state ref' i.
Proof. unfold in_state, set_state; cbn. rewrite lookup_insert. by case_decide. Qed.

Lemma set_state_inv cfg id ref st i :
  in_inv cfg i -> inbound i !! id = Some ref -> in_stream_inv cfg id st ->
  in_inv cfg (set_state ref st i).
Proof.
  intros I Hid Hst. destruct I. split; try done.
  - intros j r Hj. cbn in Hj. rewrite in_state_set. cbn. rewrite lookup_insert.
    case_decide; [|by apply in_live0]. subst. split; [by eexists|].
    by rewrite (in_inj0 _ _ _ Hj Hid).
  - intros r Hr. cbn in Hr. rewrite lookup_insert in Hr. case_decide; [|by apply in_fresh0].
    subst. apply in_fresh0. destruct (in_live0 _ _ Hid) as [[? ?] _]. by eexists.
Qed.

Lemma in_queue_set_state cfg id ref st i j :
  in_inv cfg i -> inbound i !! id = Some ref ->
  in_queue j (set_state ref st i) = if decide (j = id) then is_frames st else in_queue j i.
Proof.
  intros I Hid. unfold in_queue. change (inbound (set_state ref st i)) with (inbound i).
  case_decide as Hj; [subst; rewrite Hid, in_state_set; by rewrite decide_True|].
  destruct (inbound i !! j) as [r|] eqn:Er; [|done]. rewrite in_state_set.
  case_decide; [|done]. subst. by destruct (Hj (in_inj _ _ I _ _ _ Er Hid)).
Qed.

Lemma empty_state_inv cfg id : peer_config_ok cfg -> in_stream_inv cfg id (mkInboundStream [] 0).
Proof. intros []. split; cbn; [done|lia|rewrite len_nil; lia|constructor]. Qed.

Lemma new_state_inv cfg id i :
  peer_config_ok cfg -> in_inv cfg i -> inbound i !! id = None ->
  Z.of_nat (size (inbound i)) < MaxActiveStreams cfg -> in_inv cfg (new_state id i).
Proof.
  intros Hcfg I Hid Hlt. destruct I.
  assert (forall a r, inbound i !! a = Some r -> r <> in_next i) as Hne.
  { intros a r Ha ->. destruct (in_live0 _ _ Ha) as [[? Hs] _].
    specialize (in_fresh0 (in_next i) ltac:(by eexists)). lia. }
  split; cbn.
  - rewrite map_size_insert_None by done. lia.
  - intros j r Hj. unfold in_state, new_state; cbn. rewrite lookup_insert in Hj.
    case_decide; simplify_eq.
    + rewrite lookup_insert_eq. split; [by eexists|]. by apply empty_state_inv.
    + rewrite lookup_insert_ne by (intros E; by apply (Hne _ _ Hj)). by apply in_live0.
  - intros a b r Ha Hb. rewrite lookup_insert in Ha, Hb.
    repeat case_decide; simplify_eq; try done; first [by eapply in_inj0|exfalso; by eapply Hne].
  - intros r Hr. rewrite lookup_insert in Hr. case_decide; subst; [lia|].
    specialize (in_fresh0 _ Hr). lia.
Qed.

Lemma in_queue_new_state cfg id i j :
  in_inv cfg i -> inbound i !! id = None -> in_queue j (new_state id i) = in_queue j i.
Proof.
  intros I Hid. unfold in_queue, new_state, in_state; cbn. rewrite lookup_insert. case_decide.
  - subst. rewrite Hid. by rewrite lookup_insert_eq.
  - destruct (inbound i !! j) as [r|] eqn:Er; [|done].
    rewrite lookup_insert_ne; [done|]. intros <-. destruct (in_live _ _ I _ _ Er) as [[? Hs] _].
    pose proof (in_fresh _ _ I (in_next i) ltac:(by eexists)). lia.
Qed.

(** The stream [dispatch] appends to: found or made. *)
Lemma dispatch_found cfg id i ref i' spawn :
  peer_config_ok cfg -> in_inv cfg i ->
  match inbound i !! id with
  | Some ref => Some (ref, i, None)
  | None =>
      if MaxActiveStreams cfg <=? Z.of_nat (size (inbound i)) then None
      else Some (in_next i, new_state id i, Some (id, in_next i))
  end = Some (ref, i', spawn) ->
  in_inv cfg i' /\ inbound i' !! id = Some ref /\ (forall j, in_queue j i' = in_queue j i) /\
  is_frames (in_state ref i') = in_queue id i.
Proof.
  intros Hcfg I HF. destruct (inbound i !! id) as [r|] eqn:Er.
  - simplify_eq. split; [done|]. split; [done|]. split; [done|]. unfold in_queue. by rewrite Er.
  - destruct (Z.leb_spec (MaxActiveStreams cfg) (Z.of_nat (size (inbound i)))); [done|].
    simplify_eq. split; [by apply new_state_inv|]. split; [cbn; apply lookup_insert_eq|].
    split; [intros; by eapply in_queue_new_state|].
    unfold in_queue, in_state, new_state; cbn. rewrite Er. by rewrite lookup_insert_eq.
Qed.

Lemma append_state_inv cfg id st frame :
  in_stream_inv cfg id st -> StreamID (FHeader frame) = id ->
  is_bytes st + frame_bytes frame <= PerStreamQueueBytes cfg ->
  len (is_frames st) + 1 <= PerStreamQueueFrames cfg ->
  in_stream_inv cfg id (mkInboundStream (is_frames st ++ [frame]) (is_bytes st + frame_bytes frame)).
Proof.
  intros [] Hid Hb Hf. split; cbn; [mux_lia|done|mux_lia|].
  apply Forall_app. split; [done|by constructor].
Qed.

(** Every outcome of an iteration of [dispatch] on an open peer. *)
Lemma dispatch_section_spec cfg h frame waited i c :
  peer_config_ok cfg -> in_inv cfg i ->
  let e := dispatch_section cfg h None frame waited i c in
  let id := StreamID (FHeader frame) in
  in_inv cfg (de_inbound e) /\
  (forall j, in_queue j (de_inbound e) =
     in_queue j i ++ if accepts e && (j =? id) then [frame] else []).
Proof.
  intros Hcfg I. cbn. unfold dispatch_section.
  destruct (h !! _) as [f|]; [|split; [done|]; intros j; cbn; by rewrite app_nil_r].
  destruct (match inbound i !! _ with Some ref => _ | None => _ end)
    as [[[ref i'] spawn]|] eqn:Ef; [|split; [done|]; intros j; cbn; by rewrite app_nil_r].
  apply (dispatch_found cfg) in Ef as (I' & Hid & Hq & Hst); [|done..].
  destruct (Z.ltb_spec (PerStreamQueueBytes cfg) (frame_bytes frame)); cbn.
  { split; [done|]. intros j. by rewrite app_nil_r. }
  destruct (_ && _) eqn:Efit; reflect_bools; cbn.
  - split.
    + eapply set_state_inv; [done..|]. apply append_state_inv; try done.
      by apply (in_live _ _ I' _ _ Hid).
    + intros j. rewrite (in_queue_set_state cfg (StreamID (FHeader frame))) by done. cbn.
      case_decide as Hj; subst; [by rewrite Z.eqb_refl, Hst|].
      apply Z.eqb_neq in Hj as ->. by rewrite Hq, app_nil_r.
  - destruct (_ =? _); cbn; (split; [done|]); intros j; rewrite Hq; by rewrite app_nil_r.
Qed.

(** Every outcome of an iteration of a worker on its own stream. *)
Lemma worker_section_spec cfg h id ref i :
  in_inv cfg i -> inbound i !! id = Some ref ->
  let '(work, i') := worker_section h id ref i in
  in_inv cfg i' /\
  match work with
  | Some (frame, handler) => handler = h !! MessageType (FHeader frame) /\
      in_queue id i = frame :: in_queue id i' /\ inbound i' = inbound i
  | None => in_queue id i = [] /\ in_queue id i' = [] /\ inbound i' = delete id (inbound i)
  end /\ forall j, j <> id -> in_queue j i' = in_queue j i.
Proof.
  intros I Hid. unfold worker_section.
  destruct (in_live _ _ I _ _ Hid) as [_ Hsi].
  destruct (is_frames (in_state ref i)) as [|frame rest] eqn:Ef.
  - rewrite bool_decide_true by done. unfold in_queue at 1. rewrite Hid, Ef.
    assert (forall j, j <> id -> in_queue j (mkInbound (delete id (inbound i)) (in_heap i) (in_next i))
      = in_queue j i) as Hj.
    { intros j Hj. unfold in_queue; cbn. by rewrite lookup_delete_ne. }
    split; [|split; [|exact Hj]].
    + destruct I. split; cbn; try done.
      * rewrite map_size_delete_Some by (by eexists). lia.
      * intros j r [_ Hl]%lookup_delete_Some. by apply in_live0.
      * intros a b r [_ Ha]%lookup_delete_Some [_ Hb]%lookup_delete_Some. by eapply in_inj0.
    + split; [done|]. split; [|done]. unfold in_queue; cbn. by rewrite lookup_delete_eq.
  - assert (forall j, in_queue j (set_state ref (mkInboundStream rest
      (is_bytes (in_state ref i) - frame_bytes frame)) i) = if decide (j = id) then rest else in_queue j i)
      as Hj by (intros j; by rewrite (in_queue_set_state cfg id)).
    split; [|split].
    + eapply set_state_inv; [done..|]. destruct Hsi as [Hb Hbm Hfm Hfs].
      rewrite Ef in Hb, Hfm, Hfs.
      apply Forall_cons in Hfs as [? ?]. pose proof (frame_bytes_pos frame).
      split; cbn; [mux_lia|lia|mux_lia|done].
    + split; [done|]. rewrite Hj, decide_True by done. split; [|done].
      unfold in_queue. by rewrite Hid, Ef.
    + intros j Hne. by rewrite Hj, decide_False.
Qed.

(** ** Properties *)

(** The queue of stream [id] cannot take [bytes] more. *)
Definition in_full (cfg : PeerConfig) (id : Z) (i : Inbound) (bytes : Z) : Prop :=
  PerStreamQueueBytes cfg < sumZ frame_bytes (in_queue id i) + bytes \/
  PerStreamQueueFrames cfg < len (in_queue id i) + 1.

(** The statement of the theorem below, for the other files. *)
Lemma dispatch_spec' cfg h frame waited i c :
  peer_config_ok cfg -> in_inv cfg i ->
  let e := dispatch_section cfg h None frame waited i c in
  let id := StreamID (FHeader frame) in
  in_inv cfg (de_inbound e) /\
  (forall j, in_queue j (de_inbound e) =
     in_queue j i ++ if accepts e && (j =? id) then [frame] else []) /\
  match de_out e with
  | DispatchReturn None =>
      is_Some (h !! MessageType (FHeader frame)) /\ ~ in_full cfg id i (frame_bytes frame)
  | DispatchReturn (Some err) =>
      (err = Wrap ErrHandlerNotFound [MessageType (FHeader frame)] /\
         h !! MessageType (FHeader frame) = None) \/
      (err = ErrTooManyActiveStreams /\ inbound i !! id = None /\
         Z.of_nat (size (inbound i)) = MaxActiveStreams cfg) \/
      (err = ErrPeerQueueOverflow /\ de_counters e = count_overflow c /\
         (PerStreamQueueBytes cfg < frame_bytes frame \/
          InboundQueuePolicy cfg = InboundQueueFail /\ in_full cfg id i (frame_bytes frame)))
  | DispatchWait =>
      InboundQueuePolicy cfg = InboundQueueBackpressure /\ de_waited e = true /\
      frame_bytes frame <= PerStreamQueueBytes cfg /\
      in_full cfg id i (frame_bytes frame) /\ in_queue id i <> []
  end.
Proof.
  intros Hcfg I. cbn. pose proof (dispatch_section_spec cfg h frame waited i c Hcfg I) as [I1 Hq].
  split; [done|]. split; [done|]. clear I1 Hq. unfold dispatch_section.
  destruct (h !! _) as [f|]; [|by left].
  destruct (match inbound i !! _ with Some ref => _ | None => _ end)
    as [[[ref i'] spawn]|] eqn:Ef.
  2: { cbn. right; left. destruct (inbound i !! _); [done|]. split; [done|]. split; [done|].
       destruct (Z.leb_spec (MaxActiveStreams cfg) (Z.of_nat (size (inbound i)))); [|done].
       pose proof (in_size _ _ I). lia. }
  apply (dispatch_found cfg) in Ef as (I' & Hid & Hq & Hst); [|done..].
  destruct (in_live _ _ I' _ _ Hid) as [_ [Hb _ _ _]]. rewrite Hst in Hb.
  destruct (Z.ltb_spec (PerStreamQueueBytes cfg) (frame_bytes frame)) as [|Hle]; cbn; [tauto|].
  unfold in_full. rewrite Hst, Hb. destruct (_ && _) eqn:Efit; reflect_bools; cbn.
  { split; [by eexists|]. lia. }
  assert (PerStreamQueueBytes cfg < sumZ frame_bytes (in_queue (StreamID (FHeader frame)) i) + frame_bytes frame \/
    PerStreamQueueFrames cfg < len (in_queue (StreamID (FHeader frame)) i) + 1) as Hfull
    by (destruct Efit; reflect_bools; lia).
  destruct (Z.eqb_spec (InboundQueuePolicy cfg) InboundQueueFail); cbn; [tauto|].
  destruct Hcfg as [Hsb Hsf _ _ _ Hp]. repeat split; try done; try tauto.
  intros Hnil. rewrite Hnil in Hfull. mux_lia.
Qed.

(** Inbound admission, on every branch. One iteration of [dispatch] on an
    open peer keeps the queues bounded and extends exactly the queue of the
    frame's stream, exactly when it returns nil. It fails for want of a handler,
    for too many streams, or for a queue overflow, which it counts; it waits
    only under the backpressure policy, for a frame that can fit, on a queue
    that is full and not empty, so a running worker will wake it. *)
Theorem dispatch_spec cfg h frame waited i c :
  peer_config_ok cfg -> in_inv cfg i ->
  let e := dispatch_section cfg h None frame waited i c in
  let id := StreamID (FHeader frame) in
  in_inv cfg (de_inbound e) /\
  (forall j, in_queue j (de_inbound e) =
     in_queue j i ++ if accepts e && (j =? id) then [frame] else []) /\
  match de_out e with
  | DispatchReturn None =>
      is_Some (h !! MessageType (FHeader frame)) /\ ~ in_full cfg id i (frame_bytes frame)
  | DispatchReturn (Some err) =>
      (err = Wrap ErrHandlerNotFound [MessageType (FHeader frame)] /\
         h !! MessageType (FHeader frame) = None) \/
      (err = ErrTooManyActiveStreams /\ inbound i !! id = None /\
         Z.of_nat (size (inbound i)) = MaxActiveStreams cfg) \/
      (err = ErrPeerQueueOverflow /\ de_counters e = count_overflow c /\
         (PerStreamQueueBytes cfg < frame_bytes frame \/
          InboundQueuePolicy cfg = InboundQueueFail /\ in_full cfg id i (frame_bytes frame)))
  | DispatchWait =>
      InboundQueuePolicy cfg = InboundQueueBackpressure /\ de_waited e = true /\
      frame_bytes frame <= PerStreamQueueBytes cfg /\
      in_full cfg id i (frame_bytes frame) /\ in_queue id i <> []
  end.
Proof. apply dispatch_spec'. Qed.

Lemma check_handlers_spec entries h :
  match check_handlers entries h with
  | None => Forall (fun e => e.1 <> 0 /\ is_Some e.2 /\ h !! e.1 = None) entries
  | Some _ => Exists (fun e => e.1 = 0 \/ e.2 = None \/ is_Some (h !! e.1)) entries
  end.
Proof.
  induction entries as [|[mt f] entries IH]; cbn; [constructor|].
  destruct (Z.eqb_spec mt 0); cbn; [by left; left|].
  destruct f as [f|]; cbn; [|by left; right; left].
  destruct (h !! mt) eqn:Eh; cbn.
  - left. right; right. cbn. rewrite Eh. by eexists.
  - destruct (check_handlers entries h); [by right|]. constructor; [|done].
    split; [done|]. split; [by eexists|done].
Qed.

Lemma install_handlers_lookup entries h mt :
  NoDup entries.*1 -> Forall (fun e => is_Some e.2) entries ->
  install_handlers entries h !! mt =
    match list_to_map (M := gmap Z (option N)) entries !! mt with Some f => f | None => h !! mt end.
Proof.
  unfold install_handlers. revert h. induction entries as [|[k f] entries IH]; intros h Hnd Hs; cbn; [done|].
  apply NoDup_cons in Hnd as [Hk Hnd]. apply Forall_cons in Hs as [[g Hg] Hs]. cbn in Hg. subst f.
  cbn in *. rewrite IH by done. rewrite (lookup_insert (list_to_map entries)). case_decide.
  - subst. rewrite (not_elem_of_list_to_map_1 _ _ Hk). by rewrite lookup_insert_eq.
  - destruct (list_to_map (M := gmap Z (option N)) entries !! mt); [done|].
    by rewrite lookup_insert_ne.
Qed.

(** Registration is all or nothing. [RegisterHandlers] succeeds exactly when
    the peer is open and every entry of the non-empty group has a non-zero,
    unregistered message type and a handler; then all of them are added and no
    other handler changes. Otherwise nothing changes. *)
Theorem RegisterHandlers_atomic entries closed h :
  NoDup entries.*1 ->
  let ok := closed = false /\ entries <> [] /\
    Forall (fun e => e.1 <> 0 /\ is_Some e.2 /\ h !! e.1 = None) entries in
  let '(err, h') := RegisterHandlers entries closed h in
  (err = None <-> ok) /\
  (err = None -> forall mt, h' !! mt =
     match list_to_map (M := gmap Z (option N)) entries !! mt with
     | Some f => f | None => h !! mt end) /\
  (err <> None -> h' = h).
Proof.
  intros Hnd. cbn. unfold RegisterHandlers. destruct entries as [|e entries]; [split; [|done]|].
  { split; [done|]. by intros (_ & ? & _). }
  destruct closed; [split; [split; [done|by intros [? _]]|done]|].
  pose proof (check_handlers_spec (e :: entries) h) as Hc.
  destruct (check_handlers (e :: entries) h) as [err|].
  - split; [|done]. split; [done|]. intros (_ & _ & Hall). exfalso.
    apply Exists_exists in Hc as (x & Hx & Hc). rewrite Forall_forall in Hall.
    destruct (Hall x Hx) as (? & [? Hs] & Hn). rewrite Hs, Hn in Hc.
    destruct Hc as [?|[?|[? ?]]]; done.
  - split; [done|]. split; [|done]. intros _ mt. apply install_handlers_lookup; [done|].
    eapply Forall_impl; [exact Hc|]. by intros ? (_ & ? & _).
Qed.

(** *** Witnesses *)

Definition demo_in_cfg : PeerConfig :=
  mkPeerConfig 200 8 60 2 InboundQueueBackpressure 2 4 8 4 1 (Some defaultClassify).

Lemma demo_in_cfg_ok : peer_config_ok demo_in_cfg.
Proof. apply (peer_withDefaults_ok demo_in_cfg). vm_compute. reflexivity. Qed.

Definition demo_in_frame (stream : Z) : Frame := mkFrame (mkHeader 0 1 5 FlagEvent 0 stream) [].

Definition demo_inbound : Inbound :=
  foldl (fun i id => de_inbound (dispatch_section demo_in_cfg {[5 := 1%N]} None
    (demo_in_frame id) false i zero_counters)) empty_inbound [3; 4; 3].

Lemma demo_inbound_inv : in_inv demo_in_cfg demo_inbound.
Proof.
  unfold demo_inbound; cbn [foldl].
  do 3 (apply dispatch_section_spec; [exact demo_in_cfg_ok|]).
  apply empty_inbound_inv, demo_in_cfg_ok.
Qed.

Lemma dispatch_spec_witness :
  let e := dispatch_section demo_in_cfg {[5 := 1%N]} None (demo_in_frame 3) false demo_inbound
             zero_counters in
  de_out e = DispatchWait /\ in_queue 3 (de_inbound e) = in_queue 3 demo_inbound ++ [].
Proof.
  split; [vm_compute; reflexivity|].
  exact (proj1 (proj2 (dispatch_spec demo_in_cfg {[5 := 1%N]} (demo_in_frame 3) false demo_inbound
    zero_counters demo_in_cfg_ok demo_inbound_inv)) 3).
Defined.

Lemma RegisterHandlers_atomic_witness :
  NoDup [5; 6] /\ (RegisterHandlers [(5, Some 1%N); (6, Some 2%N)] false {[7 := 3%N]}).1 = None /\
  ((RegisterHandlers [(5, Some 1%N); (6, Some 2%N)] false {[7 := 3%N]}).1 = None <->
     false = false /\ [(5, Some 1%N); (6, Some 2%N)] <> [] /\
     Forall (fun e : Z * option N => e.1 <> 0 /\ is_Some e.2 /\
       ({[7 := 3%N]} : gmap Z N) !! e.1 = None) [(5, Some 1%N); (6, Some 2%N)]).
Proof.
  assert (NoDup [5; 6]) as Hnd by (apply (bool_decide_unpack _); vm_compute; exact I).
  split; [exact Hnd|]. split; [vm_compute; reflexivity|].
  exact (proj1 (RegisterHandlers_atomic [(5, Some 1%N); (6, Some 2%N)] false {[7 := 3%N]} Hnd)).
Defined.
