(* ===== verification/Peer.v ===== *)
(** peer.go: the shared state of [Peer] and its critical sections. Each function
    here is one region under [p.mu], or the code between two of them. *)

From S2P Require Import Prelude Errors BigEndian Frame PeerConfig Outbound Scheduler Correlation Inbound.

(** [peerResult] *)
Record peerResult := mkResult { pr_frame : option Frame; pr_err : option error }.

(** The fields under [p.mu]. [changed] numbers the channels successively stored
    in [p.changed]: a channel is closed when its number is below [changed].
    [p.done] is closed exactly when [closed]. [responses] and [results] are the
    buffers of the channels made with capacity 1. *)
Record Peer := mkPeer {
  handlers : Handlers;
  corr : Corr;
  inb : Inbound;
  outb : Outbound;
  counters : Counters;
  changed : N;
  closed : bool;
  perr : option error;
  responses : gmap N (list peerResult);
  results : gmap N (list (option error));
}.

(** [NewPeer]'s value. *)
Definition newPeer : Peer :=
  mkPeer ∅ empty_corr empty_inbound empty_outbound zero_counters 0 false None ∅ ∅.

(** [NewPeer]: the configuration and peer, or the error. *)
Definition NewPeer (conn_nil : bool) (config : PeerConfig) : (PeerConfig * Peer) + error :=
  if conn_nil then inr ErrNilConn
  else match peer_withDefaults config with
       | inr e => inr e
       | inl validated => inl (validated, newPeer)
       end.

Definition set_handlers h p := mkPeer h (corr p) (inb p) (outb p) (counters p) (changed p) (closed p) (perr p) (responses p) (results p).
Definition set_corr c p := mkPeer (handlers p) c (inb p) (outb p) (counters p) (changed p) (closed p) (perr p) (responses p) (results p).
Definition set_inb i p := mkPeer (handlers p) (corr p) i (outb p) (counters p) (changed p) (closed p) (perr p) (responses p) (results p).
Definition set_outb o p := mkPeer (handlers p) (corr p) (inb p) o (counters p) (changed p) (closed p) (perr p) (responses p) (results p).
Definition set_counters c p := mkPeer (handlers p) (corr p) (inb p) (outb p) c (changed p) (closed p) (perr p) (responses p) (results p).
Definition set_responses r p := mkPeer (handlers p) (corr p) (inb p) (outb p) (counters p) (changed p) (closed p) (perr p) r (results p).
Definition set_results r p := mkPeer (handlers p) (corr p) (inb p) (outb p) (counters p) (changed p) (closed p) (perr p) (responses p) r.

(** [signalLocked] *)
Definition signalLocked p := mkPeer (handlers p) (corr p) (inb p) (outb p) (counters p) (changed p + 1) (closed p) (perr p) (responses p) (results p).

(** A send on a channel of capacity 1; [None] when it would block. *)
Definition chan_send {A} (ch : N) (v : A) (m : gmap N (list A)) : option (gmap N (list A)) :=
  match m !! ch with
  | Some [] => Some (<[ch := [v]]> m)
  | _ => None
  end.

Fixpoint chan_sends {A} (chs : list N) (v : A) (m : gmap N (list A)) : option (gmap N (list A)) :=
  match chs with
  | [] => Some m
  | ch :: chs => m' ← chan_send ch v m; chan_sends chs v m'
  end.

(** [Err] and [result] *)
Definition Err (p : Peer) : option error := perr p.
Definition result (p : Peer) : error := default ErrPeerClosed (Err p).

(** The response channels of [p.pending] and the result channels of the queued
    requests, in iteration order. *)
Definition pending_channels (c : Corr) : list N := (fun kp => pp_response kp.2) <$> map_to_list (pending c).
Definition queued (o : Outbound) : list outboundRequest :=
  concat ((fun ks => os_queue ks.2) <$> map_to_list (outbound o)).

(** The critical section of [fail]; [None] when a channel send under [p.mu] would
    block. After it come [p.cancel()] and [p.conn.Close()]. *)
Definition fail (err : error) (p : Peer) : option Peer :=
  if closed p then Some p
  else
    responses' ← chan_sends (pending_channels (corr p)) (mkResult None (Some err)) (responses p);
    results' ← chan_sends (req_id <$> queued (outb p)) (Some err) (results p);
    Some (signalLocked (mkPeer (handlers p) (mkCorr ∅ ∅ [] (next (corr p))) (inb p) empty_outbound
      (counters p) (changed p) true (Some err) responses' results')).

(** What [Close] returns once [fail] and the waits are over. *)
Definition Close_result (p : Peer) : option error :=
  let err := result p in
  if errors_Is err ErrPeerClosed || errors_Is err Canceled then None else Some err.

(** *** Call, Emit, Send, Respond *)

(** [reservePending] under the lock; [ch] is the channel it makes. *)
Definition reserve_section (ch : N) (p : Peer) : (Z + error) * Peer :=
  if closed p then (inr ErrPeerClosed, p)
  else
    let '(r, c) := reservePending ch (corr p) in
    match r with
    | inl _ => (r, set_responses (<[ch := []]> (responses p)) (set_corr c p))
    | inr _ => (r, set_corr c p)
    end.

(** The tests of [Call] before [reservePending]; [ctx] is whether it is non-nil. *)
Definition Call_check (ctx : bool) (frame : Frame) : option error :=
  if negb ctx then Some (New "streammux: nil call context")
  else if negb (Flags (FHeader frame) =? FlagRequest) then Some ErrInvalidFlags
  else None.

(** [frame.Header.CorrelationID = correlation] *)
Definition with_correlation (id : Z) (f : Frame) : Frame :=
  let h := FHeader f in
  mkFrame (mkHeader (PayloadLength h) (Version h) (MessageType h) (Flags h) id (StreamID h)) (Payload f).

(** [Emit] up to its call of [send]: the error, or the class. *)
Definition Emit_check (cfg : PeerConfig) (frame : Frame) : Z + error :=
  if negb (Flags (FHeader frame) =? FlagEvent) || negb (CorrelationID (FHeader frame) =? 0)
  then inr ErrInvalidFlags
  else inl (match Classify cfg with Some f => f frame | None => defaultClassify frame end).

(** [Respond] up to its call of [send]: the error, or the frame to send. *)
Definition Respond_frame (request response : Frame) : Frame + error :=
  let q := FHeader request in
  let r := FHeader response in
  if negb (Flags q =? FlagRequest) then inr ErrInvalidFlags
  else inl (mkFrame (mkHeader (PayloadLength r) (Version r)
              (if MessageType r =? 0 then MessageType q else MessageType r)
              FlagResponse (CorrelationID q) (StreamID q)) (Payload response)).

(** [send] before its loop: the error, or the request with a fresh [result]
    channel [id]. *)
Definition send_begin (cfg : PeerConfig) (ctx : bool) (frame : Frame) (class : Z) (id : N) (p : Peer)
    : (outboundRequest + error) * Peer :=
  if negb ctx then (inr (New "streammux: nil send context"), p)
  else if (class <? TrafficControl) || (TrafficBulk <? class) then
    (inr (New "streammux: invalid traffic class"), p)
  else
    let request := mkRequest id frame class (frame_bytes frame) in
    if (PerStreamQueueBytes cfg <? req_bytes request) || (OutboundQueueBytes cfg <? req_bytes request)
    then (inr ErrPeerQueueOverflow, set_counters (count_overflow (counters p)) p)
    else (inl request, set_results (<[id := []]> (results p)) p).

Inductive send_outcome :=
| SendReturn (err : error)
| SendEnqueued
| SendWait (gen : N).

(** One iteration of the loop of [send], up to its select. *)
Definition send_section (cfg : PeerConfig) (req : outboundRequest) (p : Peer) : send_outcome * Peer :=
  if closed p then (SendReturn (result p), p)
  else if fits cfg (outb p) req
  then (SendEnqueued, signalLocked (set_outb (enqueue req (outb p)) p))
  else (SendWait (changed p), p).

(** *** Schedule *)

Inductive sched_outcome :=
| SchedTake (req : outboundRequest)
| SchedExit
| SchedWait (gen : N).

(** One iteration of [schedule] up to [p.mu.Unlock()]; [takeLocked] signals when
    it takes a request. *)
Definition schedule_section (cfg : PeerConfig) (s : Sched) (p : Peer) : sched_outcome * Sched * Peer :=
  let '(request, s', o) := scan cfg s (outb p) in
  match request with
  | Some req => (SchedTake req, s', signalLocked (set_outb o p))
  | None => (if closed p then SchedExit else SchedWait (changed p), s', set_outb o p)
  end.

(** *** Serve *)

Definition isPeerProtocolError (err : error) : bool :=
  errors_Is err ErrFrameTooLarge || errors_Is err ErrInvalidFrameLength ||
  errors_Is err ErrUnsupportedVersion || errors_Is err ErrInvalidMessageType ||
  errors_Is err ErrInvalidFlags || errors_Is err ErrInvalidCorrelation.

Definition record_received (frame : Frame) (p : Peer) : Peer := set_counters (recordReceived frame (counters p)) p.
Definition record_sent (frame : Frame) (p : Peer) : Peer := set_counters (recordSent frame (counters p)) p.
Definition record_protocol_error (p : Peer) : Peer := set_counters (recordProtocolError (counters p)) p.

(** [resolve] under the lock. *)
Definition resolve_section (frame : Frame) (p : Peer) : option error * option N * Peer :=
  let '(err, c, deliver) := resolve frame (corr p) in (err, deliver, set_corr c p).

(** [dispatch]: one iteration, the generation to wait for, and the worker started. *)
Definition dispatch_iteration (cfg : PeerConfig) (frame : Frame) (waited : bool) (p : Peer)
    : dispatch_effect * N * Peer :=
  let e := dispatch_section cfg (handlers p) (if closed p then Some (result p) else None)
             frame waited (inb p) (counters p) in
  (e, changed p, set_counters (de_counters e) (set_inb (de_inbound e) p)).

(** [runInbound]: one iteration; it signals when it takes a frame. *)
Definition worker_iteration (id : Z) (ref : N) (p : Peer) : option (Frame * option N) * Peer :=
  let '(work, i) := worker_section (handlers p) id ref (inb p) in
  match work with
  | Some _ => (work, signalLocked (set_inb i p))
  | None => (work, set_inb i p)
  end.

(** *** Stats *)

Record PeerStreamStats := mkStreamStats {
  ps_StreamID : Z;
  ps_InboundQueueBytes : Z;
  ps_InboundQueueFrames : Z;
  ps_OutboundQueueBytes : Z;
  ps_OutboundQueueFrames : Z;
}.

Record PeerStats := mkPeerStats {
  st_counters : Counters;
  st_PendingRequests : Z;
  st_CanceledRequests : Z;
  st_ActiveInboundStreams : Z;
  st_ActiveOutboundStreams : Z;
  st_InboundQueueBytes : Z;
  st_InboundQueueFrames : Z;
  st_OutboundQueueBytes : Z;
  st_OutboundQueueFrames : Z;
  st_Streams : list PeerStreamStats;
}.

Definition zero_stream_stats : PeerStreamStats := mkStreamStats 0 0 0 0 0.

(** The bodies of the two loops of [Stats] that fill [streams]. *)
Definition stats_inbound (i : Inbound) (id : Z) (ref : N) (m : gmap Z PeerStreamStats) :=
  let item := default zero_stream_stats (m !! id) in
  <[id := mkStreamStats id (is_bytes (in_state ref i)) (len (is_frames (in_state ref i)))
            (ps_OutboundQueueBytes item) (ps_OutboundQueueFrames item)]> m.
Definition stats_outbound (id : Z) (st : outboundStream) (m : gmap Z PeerStreamStats) :=
  let item := default zero_stream_stats (m !! id) in
  <[id := mkStreamStats id (ps_InboundQueueBytes item) (ps_InboundQueueFrames item)
            (os_bytes st) (len (os_queue st))]> m.

Definition stats_streams (p : Peer) : gmap Z PeerStreamStats :=
  map_fold stats_outbound (map_fold (stats_inbound (inb p)) ∅ (inbound (inb p))) (outbound (outb p)).

Definition stream_le (a b : PeerStreamStats) : Prop := ps_StreamID a <= ps_StreamID b.
#[export] Instance stream_le_dec : RelDecision stream_le := fun a b => Z_le_dec _ _.

Definition Stats (p : Peer) : PeerStats :=
  mkPeerStats (counters p) (Z.of_nat (size (pending (corr p)))) (Z.of_nat (size (canceled (corr p))))
    (Z.of_nat (size (inbound (inb p)))) (Z.of_nat (size (outbound (outb p))))
    (map_sumZ (fun ref => is_bytes (in_state ref (inb p))) (inbound (inb p)))
    (map_sumZ (fun ref => len (is_frames (in_state ref (inb p)))) (inbound (inb p)))
    (outboundBytes (outb p)) (outboundFrames (outb p))
    (merge_sort stream_le (map_to_list (stats_streams p)).*2).

(** ** Invariant *)

(** The queued requests have distinct result channels. *)
Record queued_unique (o : Outbound) : Prop := {
  qu_nodup id : NoDup (req_id <$> queue_of id o);
  qu_disjoint a b r s : r ∈ queue_of a o -> s ∈ queue_of b o -> req_id r = req_id s -> a = b;
}.

Record peer_ok (cfg : PeerConfig) (p : Peer) : Prop := {
  pk_corr : corr_inv cfg (corr p);
  pk_in : in_inv cfg (inb p);
  pk_out : out_inv cfg (outb p);
  pk_pending id q : pending (corr p) !! id = Some q -> responses p !! pp_response q = Some [];
  pk_unique : queued_unique (outb p);
  pk_queued id r : r ∈ queue_of id (outb p) -> results p !! req_id r = Some [];
  pk_err : closed p = bool_decide (is_Some (perr p));
  pk_closed : closed p = true ->
    corr p = mkCorr ∅ ∅ [] (next (corr p)) /\ outb p = empty_outbound;
}.

Lemma newPeer_ok cfg : peer_config_ok cfg -> peer_ok cfg newPeer.
Proof.
  intros Hcfg. split; cbn; try done.
  - by apply empty_corr_inv.
  - by apply empty_inbound_inv.
  - by apply empty_outbound_inv.
  - split; unfold queue_of; cbn.
    + intros id. rewrite lookup_empty. constructor.
    + intros a b r s. rewrite lookup_empty. by intros ?%elem_of_nil.
  - intros id r. unfold queue_of; cbn. rewrite lookup_empty. by intros ?%elem_of_nil.
Qed.

(** *** Channel sends *)

Lemma chan_send_empty {A} ch (v : A) m : m !! ch = Some [] -> chan_send ch v m = Some (<[ch:=[v]]> m).
Proof. unfold chan_send. by intros ->. Qed.

Lemma chan_sends_spec {A} chs (v : A) m :
  NoDup chs -> (forall ch, ch ∈ chs -> m !! ch = Some []) ->
  exists m', chan_sends chs v m = Some m' /\
    forall ch, m' !! ch = if decide (ch ∈ chs) then Some [v] else m !! ch.
Proof.
  intros Hnd. revert m. induction Hnd as [|ch chs Hni Hnd IH]; intros m Hm; cbn.
  - exists m. split; [done|]. intros ch. by rewrite decide_False by apply not_elem_of_nil.
  - rewrite chan_send_empty by (apply Hm; left). cbn.
    destruct (IH (<[ch:=[v]]> m)) as (m' & Hm' & Hl).
    { intros ch' Hch. rewrite lookup_insert_ne by (by intros ->). apply Hm. by right. }
    exists m'. split; [done|]. intros ch'. rewrite Hl, lookup_insert.
    destruct (decide (ch' ∈ chs)); [by rewrite decide_True by by right|].
    case_decide; [subst; by rewrite decide_True by by left|].
    rewrite decide_False; [done|]. by intros [->|?]%elem_of_cons.
Qed.

Lemma elem_of_queued cfg o r : out_inv cfg o -> r ∈ queued o <-> r ∈ queue_of (stream_of r) o.
Proof.
  intros I. unfold queued, queue_of. rewrite list_elem_of_In, in_concat. split.
  - intros (q & Hq & Hr). apply list_elem_of_In in Hq, Hr.
    apply list_elem_of_fmap in Hq as ([id st] & -> & Hst%elem_of_map_to_list). cbn in *.
    pose proof (si_reqs _ _ _ (oi_stream _ _ I _ _ Hst)) as Hreqs. rewrite Forall_forall in Hreqs.
    destruct (Hreqs _ Hr) as [_ ->]. by rewrite Hst.
  - destruct (outbound o !! stream_of r) as [st|] eqn:E; [|by intros ?%elem_of_nil].
    intros Hr. exists (os_queue st). rewrite <- !list_elem_of_In. split; [|done].
    apply list_elem_of_fmap. exists (stream_of r, st). split; [done|]. by apply elem_of_map_to_list.
Qed.

Lemma queued_nodup o : queued_unique o -> NoDup (req_id <$> queued o).
Proof.
  intros [Hn Hd]. unfold queued. pose proof (NoDup_fst_map_to_list (outbound o)) as Hk.
  assert (forall k st, (k, st) ∈ map_to_list (outbound o) -> queue_of k o = os_queue st) as Hq.
  { intros k st Hst%elem_of_map_to_list. unfold queue_of. by rewrite Hst. }
  induction (map_to_list (outbound o)) as [|[k st] l IH]; cbn; [constructor|].
  cbn in Hk. apply NoDup_cons in Hk as [Hkl Hk]. rewrite fmap_app. apply NoDup_app.
  split; [|split].
  - rewrite <- (Hq k st) by left. apply Hn.
  - intros i Hi1 Hi2. apply list_elem_of_fmap in Hi1 as (r & -> & Hr).
    apply list_elem_of_fmap in Hi2 as (s & Heq & Hs).
    apply list_elem_of_In, in_concat in Hs as (q & Hq' & Hs). apply list_elem_of_In in Hq', Hs.
    apply list_elem_of_fmap in Hq' as ([k' st'] & -> & Hin). cbn in Hs.
    assert (k = k') as <-.
    { apply (Hd k k' r s); [rewrite (Hq k st) by left; done| |done].
      rewrite (Hq k' st') by (by right). done. }
    apply Hkl, list_elem_of_fmap. by exists (k, st').
  - apply IH; [done|]. intros k' st' Hin. apply Hq. by right.
Qed.

Lemma pending_channels_nodup cfg c : corr_inv cfg c -> NoDup (pending_channels c).
Proof.
  intros I. unfold pending_channels. apply NoDup_fmap_2_strong; [|apply NoDup_map_to_list].
  intros [i p] [j q] Hi%elem_of_map_to_list Hj%elem_of_map_to_list Heq. cbn in Heq.
  assert (i = j) as -> by (by eapply (ci_inj _ _ I)). by simplify_eq.
Qed.

Lemma elem_of_pending_channels c ch :
  ch ∈ pending_channels c <-> exists id q, pending c !! id = Some q /\ pp_response q = ch.
Proof.
  unfold pending_channels. rewrite list_elem_of_fmap. split.
  - intros ([id q] & -> & Hin%elem_of_map_to_list). by exists id, q.
  - intros (id & q & Hq & <-). exists (id, q). split; [done|]. by apply elem_of_map_to_list.
Qed.

(** [fail] on an open peer: it never blocks, and whom it notifies. *)
Lemma fail_spec' cfg err p :
  peer_config_ok cfg -> peer_ok cfg p -> closed p = false ->
  exists p', fail err p = Some p' /\ peer_ok cfg p' /\ closed p' = true /\ perr p' = Some err /\
    handlers p' = handlers p /\ inb p' = inb p /\ counters p' = counters p /\
    changed p' = (changed p + 1)%N /\
    (forall ch, responses p' !! ch =
       if decide (ch ∈ pending_channels (corr p)) then Some [mkResult None (Some err)]
       else responses p !! ch) /\
    (forall ch, results p' !! ch =
       if decide (ch ∈ req_id <$> queued (outb p)) then Some [Some err] else results p !! ch).
Proof.
  intros Hcfg P Hopen. unfold fail. rewrite Hopen. destruct P.
  destruct (chan_sends_spec (pending_channels (corr p)) (mkResult None (Some err)) (responses p))
    as (resp & -> & Hresp).
  { by eapply pending_channels_nodup. }
  { intros ch (id & q & Hq & <-)%elem_of_pending_channels. by eapply pk_pending0. }
  destruct (chan_sends_spec (req_id <$> queued (outb p)) (Some err) (results p))
    as (res & Hres & Hresl).
  { by apply queued_nodup. }
  { intros ch (r & -> & Hr)%list_elem_of_fmap. by eapply pk_queued0, elem_of_queued. }
  cbn. rewrite Hres. cbn. eexists. split; [done|]. split; [|done]. split; cbn; try done.
  - pose proof (ci_next _ _ pk_corr0) as Hnext. apply (empty_corr_inv cfg) in Hcfg.
    destruct Hcfg. by split.
  - by apply empty_outbound_inv.
  - split; unfold queue_of; cbn; intros *; rewrite ?lookup_empty; [constructor|].
    by intros ?%elem_of_nil.
  - intros id r. unfold queue_of; cbn. rewrite lookup_empty. by intros ?%elem_of_nil.
Qed.

Lemma fail_closed err p : closed p = true -> fail err p = Some p.
Proof. unfold fail. by intros ->. Qed.

(** *** Preservation by every critical section *)

Lemma set_counters_ok cfg c p : peer_ok cfg p -> peer_ok cfg (set_counters c p).
Proof. intros []. by split. Qed.

Lemma signalLocked_ok cfg p : peer_ok cfg p -> peer_ok cfg (signalLocked p).
Proof. intros []. by split. Qed.

Lemma set_inb_ok cfg i p : peer_ok cfg p -> in_inv cfg i -> peer_ok cfg (set_inb i p).
Proof. intros [] ?. by split. Qed.

Lemma set_handlers_ok cfg h p : peer_ok cfg p -> peer_ok cfg (set_handlers h p).
Proof. intros []. by split. Qed.
#[export] Hint Resolve set_counters_ok signalLocked_ok set_inb_ok set_handlers_ok : mux.

Lemma open_corr cfg p id :
  peer_ok cfg p -> is_Some (pending (corr p) !! id) -> closed p = false.
Proof.
  intros P [q Hq]. destruct (closed p) eqn:E; [|done].
  destruct (pk_closed _ _ P E) as [Hc _]. rewrite Hc in Hq. cbn in Hq. by rewrite lookup_empty in Hq.
Qed.

Lemma set_corr_ok cfg c p :
  peer_ok cfg p -> corr_inv cfg c ->
  (forall id q, pending c !! id = Some q -> responses p !! pp_response q = Some []) ->
  (closed p = true -> c = mkCorr ∅ ∅ [] (next c)) -> peer_ok cfg (set_corr c p).
Proof.
  intros [] Hc Hp Hcl. split; cbn; try done. intros E. split; [by apply Hcl|by apply pk_closed0].
Qed.

Lemma pending_fresh cfg p ch id q :
  peer_ok cfg p -> responses p !! ch = None -> pending (corr p) !! id = Some q -> pp_response q <> ch.
Proof. intros P Hch Hq <-. by rewrite (pk_pending _ _ P _ _ Hq) in Hch. Qed.

Lemma reserve_section_ok cfg ch p :
  peer_ok cfg p -> responses p !! ch = None -> peer_ok cfg (reserve_section ch p).2.
Proof.
  intros P Hch. unfold reserve_section. destruct (closed p) eqn:Ecl; [done|].
  pose proof (reserve_inv cfg ch (corr p) (pk_corr _ _ P)
    (fun id q Hq => pending_fresh _ _ _ _ _ P Hch Hq)) as Hc.
  unfold reservePending in *. destruct (pos_until _ _ _) as [counter|id]; cbn in *.
  - apply set_corr_ok; [done..| |congruence]. apply (pk_pending _ _ P).
  - destruct P. split; cbn; try done.
    + intros i q Hq. rewrite lookup_insert in Hq. case_decide; simplify_eq; cbn.
      * apply lookup_insert_eq.
      * rewrite lookup_insert_ne; [by eapply pk_pending0|].
        intros ->. by rewrite (pk_pending0 _ _ Hq) in Hch.
    + congruence.
Qed.

Lemma call_fill_ok cfg id mt sid p c :
  peer_ok cfg p -> call_fill id mt sid (corr p) = Some c -> peer_ok cfg (set_corr c p).
Proof.
  intros P Hf. pose proof (call_fill_inv cfg _ _ _ _ _ (pk_corr _ _ P) Hf) as Hc.
  unfold call_fill in Hf. apply bind_Some in Hf as (q & Hq & [= <-]).
  apply set_corr_ok; [done..| |].
  - intros j r Hj. cbn in Hj. rewrite lookup_insert in Hj. case_decide; simplify_eq; cbn;
      by eapply (pk_pending _ _ P).
  - intros E. by rewrite (open_corr cfg p id) in E by (done || by eexists).
Qed.

Lemma abandon_ok cfg id p :
  peer_config_ok cfg -> peer_ok cfg p -> peer_ok cfg (set_corr (abandonPending cfg id (corr p)) p).
Proof.
  intros Hcfg P. apply set_corr_ok; [done|by apply abandon_inv, P| |].
  - intros j q Hq. apply (pk_pending _ _ P j). by eapply abandon_pending_sub.
  - intros E. unfold abandonPending. destruct (pending (corr p) !! id) eqn:Ep.
    + by rewrite (open_corr cfg p id) in E by (done || by eexists).
    + by apply (pk_closed _ _ P).
Qed.

Lemma resolve_pending frame c id q :
  pending (resolve frame c).1.2 !! id = Some q -> pending c !! id = Some q.
Proof.
  unfold resolve. destruct (pending c !! _).
  - destruct (answers _ _); cbn; [|done]. by intros [_ ?]%lookup_delete_Some.
  - destruct (canceled c !! _); [destruct (answers _ _)|]; done.
Qed.

Lemma resolve_section_ok cfg frame p : peer_ok cfg p -> peer_ok cfg (resolve_section frame p).2.
Proof.
  intros P. unfold resolve_section.
  pose proof (resolve_inv cfg frame (corr p) (pk_corr _ _ P)) as Hc.
  pose proof (resolve_pending frame (corr p)) as Hp.
  assert (closed p = true -> (resolve frame (corr p)).1.2 = mkCorr ∅ ∅ [] (next (resolve frame (corr p)).1.2))
    as Hcl.
  { intros E. destruct (pk_closed _ _ P E) as [-> _]. unfold resolve; cbn. by rewrite !lookup_empty. }
  destruct (resolve frame (corr p)) as [[err c] deliver]; cbn in *.
  apply set_corr_ok; [done..| |done]. intros id q Hq. by apply (pk_pending _ _ P id), Hp.
Qed.

Lemma queue_results cfg p id r : peer_ok cfg p -> r ∈ queue_of id (outb p) -> is_Some (results p !! req_id r).
Proof. intros P Hr. rewrite (pk_queued _ _ P _ _ Hr). by eexists. Qed.

Lemma new_result_ok cfg id p :
  peer_ok cfg p -> results p !! id = None -> peer_ok cfg (set_results (<[id := []]> (results p)) p).
Proof.
  intros P Hid. pose proof (queue_results cfg p) as Hq. destruct P. split; cbn; try done.
  intros a r Hr. rewrite lookup_insert. case_decide; [done|]. by eapply pk_queued0.
Qed.

Lemma set_outb_ok cfg o p :
  peer_ok cfg p -> closed p = false -> out_inv cfg o -> queued_unique o ->
  (forall id r, r ∈ queue_of id o -> results p !! req_id r = Some []) -> peer_ok cfg (set_outb o p).
Proof. intros [] Hop ? ? ?. split; cbn; try done. congruence. Qed.

Lemma queue_of_stream cfg o id r : out_inv cfg o -> r ∈ queue_of id o -> stream_of r = id.
Proof.
  unfold queue_of. intros I Hr. destruct (outbound o !! id) as [st|] eqn:E; [|by apply elem_of_nil in Hr].
  pose proof (si_reqs _ _ _ (oi_stream _ _ I _ _ E)) as Hreqs. rewrite Forall_forall in Hreqs.
  by destruct (Hreqs _ Hr).
Qed.

Lemma send_section_ok cfg req p :
  peer_config_ok cfg -> peer_ok cfg p -> req_ok req -> results p !! req_id req = Some [] ->
  (forall id r, r ∈ queue_of id (outb p) -> req_id r <> req_id req) ->
  peer_ok cfg (send_section cfg req p).2.
Proof.
  intros Hcfg P Hreq Hres Hfresh. unfold send_section. destruct (closed p) eqn:Ecl; [done|].
  destruct (fits cfg (outb p) req) eqn:Efit; [|done]. cbn. apply signalLocked_ok.
  pose proof (pk_out _ _ P) as Ho. pose proof (queue_of_enqueue cfg (outb p) req) as Hq.
  apply set_outb_ok; [done|done|by apply enqueue_inv| |].
  - destruct (pk_unique _ _ P) as [Hn Hd]. split.
    + intros id. rewrite Hq by done. case_decide; [|done]. rewrite fmap_app. apply NoDup_app.
      split; [done|]. split; [|apply NoDup_singleton].
      intros x (r & -> & Hr)%list_elem_of_fmap Hx%list_elem_of_singleton. by apply (Hfresh _ _ Hr).
    + intros a b r s. rewrite !Hq by done. intros Hr Hs Heq.
      assert (forall id x, x ∈ (if decide (id = stream_of req) then queue_of id (outb p) ++ [req]
        else queue_of id (outb p)) -> x ∈ queue_of id (outb p) \/ x = req /\ id = stream_of req) as Hin.
      { intros id x. destruct (decide (id = stream_of req)); [|by left]. rewrite elem_of_app, list_elem_of_singleton.
        intros [?| ->]; [by left|by right]. }
      destruct (Hin _ _ Hr) as [Hr'|[-> ->]], (Hin _ _ Hs) as [Hs'|[-> ->]].
      * by apply (Hd _ _ r s).
      * by destruct (Hfresh _ _ Hr').
      * by destruct (Hfresh _ _ Hs').
      * done.
  - intros id r. rewrite Hq by done. case_decide; [rewrite elem_of_app, list_elem_of_singleton|].
    + intros [Hr| ->]; [by eapply (pk_queued _ _ P)|done].
    + by apply (pk_queued _ _ P).
Qed.

(** What a scan leaves in the queues. *)
Lemma schedule_section_spec cfg s p :
  peer_ok cfg p ->
  let '(out, s', p') := schedule_section cfg s p in
  peer_ok cfg p' /\ closed p' = closed p /\ perr p' = perr p /\ responses p' = responses p /\
  results p' = results p /\ corr p' = corr p /\ inb p' = inb p /\ handlers p' = handlers p /\
  match out with
  | SchedTake req => closed p = false /\ (forall id, queue_of id (outb p) =
      (if decide (id = stream_of req) then [req] else []) ++ queue_of id (outb p'))
  | SchedExit => closed p = true /\ outb p' = outb p
  | SchedWait gen => closed p = false /\ outb p' = outb p /\ gen = changed p
  end.
Proof.
  intros P. unfold schedule_section. destruct (scan cfg s (outb p)) as [[req s'] o] eqn:E.
  apply (scan_refines' cfg) in E as [_ Ht]; [|apply P]. destruct req as [req|].
  - destruct Ht as [class [_ Hq Hother _ _ Hinv]].
    assert (closed p = false) as Hop.
    { destruct (closed p) eqn:Ecl; [|done]. destruct (pk_closed _ _ P Ecl) as [_ Ho].
      rewrite Ho in Hq. unfold queue_of at 1 in Hq. cbn in Hq. by rewrite lookup_empty in Hq. }
    assert (forall id, queue_of id (outb p) =
      (if decide (id = stream_of req) then [req] else []) ++ queue_of id o) as Hall.
    { intros id. case_decide; [by subst|]. by rewrite Hother. }
    split; [|cbn; split_and!; done]. apply signalLocked_ok, set_outb_ok; [done..| |].
    + destruct (pk_unique _ _ P) as [Hn Hd]. split.
      * intros id. specialize (Hn id). rewrite Hall, fmap_app in Hn. by apply NoDup_app in Hn as (_ & _ & ?).
      * intros a b r t Hr Ht. apply Hd; rewrite Hall; apply elem_of_app; by right.
    + intros id r Hr. apply (pk_queued _ _ P id). rewrite Hall. apply elem_of_app. by right.
  - subst o. assert (set_outb (outb p) p = p) as -> by (by destruct p).
    destruct (closed p) eqn:Ecl; cbn; split_and!; done.
Qed.

Lemma worker_iteration_ok cfg id ref p :
  peer_ok cfg p -> inbound (inb p) !! id = Some ref -> peer_ok cfg (worker_iteration id ref p).2.
Proof.
  intros P Hid. unfold worker_iteration.
  pose proof (worker_section_spec cfg (handlers p) id ref (inb p) (pk_in _ _ P) Hid) as Hw.
  destruct (worker_section _ _ _ _) as [work i]. destruct Hw as [Hi _].
  destruct work; cbn; auto with mux.
Qed.

Lemma dispatch_iteration_ok cfg frame waited p :
  peer_config_ok cfg -> peer_ok cfg p -> peer_ok cfg (dispatch_iteration cfg frame waited p).2.
Proof.
  intros Hcfg P. unfold dispatch_iteration; cbn. apply set_counters_ok, set_inb_ok; [done|].
  destruct (closed p); [apply P|]. apply dispatch_section_spec; [done|apply P].
Qed.

(** ** Stats *)

Definition stream_stats (p : Peer) (id : Z) : option PeerStreamStats :=
  let i := (fun ref => in_state ref (inb p)) <$> (inbound (inb p) !! id) in
  let o := outbound (outb p) !! id in
  match i, o with
  | None, None => None
  | _, _ => Some (mkStreamStats id (from_option is_bytes 0 i) (from_option (fun s => len (is_frames s)) 0 i)
      (from_option os_bytes 0 o) (from_option (fun s => len (os_queue s)) 0 o))
  end.

Lemma stats_inbound_lookup i (m : gmap Z N) id :
  map_fold (stats_inbound i) ∅ m !! id =
    (fun ref => mkStreamStats id (is_bytes (in_state ref i)) (len (is_frames (in_state ref i))) 0 0)
      <$> (m !! id).
Proof.
  revert id. apply (map_fold_weak_ind (fun (acc : gmap Z PeerStreamStats) m => forall id, acc !! id = _ <$> (m !! id))).
  - intros id. by rewrite !lookup_empty.
  - intros k ref m' acc Hk IH id. unfold stats_inbound. rewrite (IH k), Hk. cbn.
    rewrite !lookup_insert. case_decide; [by subst|apply IH].
Qed.

Lemma stats_outbound_lookup (m0 : gmap Z PeerStreamStats) (m : gmap Z outboundStream) id :
  map_fold stats_outbound m0 m !! id =
    match m !! id with
    | None => m0 !! id
    | Some st => let item := default zero_stream_stats (m0 !! id) in
        Some (mkStreamStats id (ps_InboundQueueBytes item) (ps_InboundQueueFrames item)
                (os_bytes st) (len (os_queue st)))
    end.
Proof.
  revert id. apply (map_fold_weak_ind (fun (acc : gmap Z PeerStreamStats) (m : gmap Z outboundStream) =>
    forall id, acc !! id = match m !! id with
    | None => m0 !! id
    | Some st => let item := default zero_stream_stats (m0 !! id) in
        Some (mkStreamStats id (ps_InboundQueueBytes item) (ps_InboundQueueFrames item)
                (os_bytes st) (len (os_queue st)))
    end)).
  - done.
  - intros k st m' acc Hk IH id. unfold stats_outbound. rewrite (IH k), Hk.
    rewrite !lookup_insert. case_decide; [by subst|apply IH].
Qed.

Lemma stats_streams_lookup p id : stats_streams p !! id = stream_stats p id.
Proof.
  unfold stats_streams, stream_stats. rewrite stats_outbound_lookup, stats_inbound_lookup.
  destruct (outbound (outb p) !! id), (inbound (inb p) !! id); done.
Qed.

Lemma stats_streams_id p id s : stats_streams p !! id = Some s -> ps_StreamID s = id.
Proof.
  rewrite stats_streams_lookup. unfold stream_stats.
  by destruct (inbound (inb p) !! id), (outbound (outb p) !! id); intros [= <-].
Qed.

Lemma map_sumZ_ext {K} `{Countable K} {A} (f g : A -> Z) (m : gmap K A) :
  (forall i x, m !! i = Some x -> f x = g x) -> map_sumZ f m = map_sumZ g m.
Proof.
  induction m as [|i x m Hi IH] using map_ind; intros Hfg; [by rewrite !map_sumZ_empty|].
  rewrite !map_sumZ_insert_new by done. rewrite (Hfg i x) by apply lookup_insert_eq.
  rewrite IH; [done|]. intros j y Hj. apply (Hfg j). rewrite lookup_insert_ne by congruence. done.
Qed.

(** A sum over a map of another type with the same values and more zeros. *)
Lemma map_sumZ_project {A B} (f : A -> Z) (g : B -> Z) (m : gmap Z A) (k : gmap Z B) :
  (forall id, from_option f 0 (m !! id) = from_option g 0 (k !! id)) -> map_sumZ f m = map_sumZ g k.
Proof.
  revert k. induction m as [|i x m Hi IH] using map_ind; intros k Hfg.
  - rewrite map_sumZ_empty. rewrite (map_sumZ_ext g (fun _ => 0)).
    + clear. induction k as [|i x k Hi IH] using map_ind; [by rewrite map_sumZ_empty|].
      rewrite map_sumZ_insert_new by done. lia.
    + intros j y Hj. specialize (Hfg j). rewrite lookup_empty, Hj in Hfg. by cbn in Hfg.
  - rewrite map_sumZ_insert_new by done. pose proof (Hfg i) as Hx. rewrite lookup_insert_eq in Hx.
    cbn in Hx. destruct (k !! i) as [y|] eqn:Ek; cbn in Hx.
    + rewrite (map_sumZ_delete g k i y Ek), Hx. f_equal. apply IH. intros id.
      specialize (Hfg id). destruct (decide (i = id)) as [->|].
      * by rewrite Hi, lookup_delete_eq.
      * rewrite lookup_insert_ne in Hfg by done. by rewrite lookup_delete_ne.
    + rewrite Hx, Z.add_0_l. apply IH. intros id. specialize (Hfg id). destruct (decide (i = id)) as [->|].
      * by rewrite Hi, Ek.
      * by rewrite lookup_insert_ne in Hfg.
Qed.

Lemma sumZ_stats_streams p f :
  sumZ f (st_Streams (Stats p)) = map_sumZ f (stats_streams p).
Proof.
  cbn. rewrite (sumZ_Permutation f _ _ (merge_sort_Permutation _ _)).
  unfold map_sumZ. induction (map_to_list (stats_streams p)) as [|x l IH]; cbn; [done|].
  mux_rw. by rewrite IH.
Qed.

(** Stats are consistent. In every well-formed state the per-stream entries
    are strictly sorted by StreamID and are exactly the streams with an inbound
    or outbound queue, each with its queue sizes; the totals are the sums over
    the entries and respect the configured limits. *)
Theorem Stats_consistent cfg p :
  peer_config_ok cfg -> peer_ok cfg p ->
  let st := Stats p in
  StronglySorted (fun a b => ps_StreamID a < ps_StreamID b) (st_Streams st) /\
  (forall s, s ∈ st_Streams st <-> stream_stats p (ps_StreamID s) = Some s) /\
  st_InboundQueueBytes st = sumZ ps_InboundQueueBytes (st_Streams st) /\
  st_InboundQueueFrames st = sumZ ps_InboundQueueFrames (st_Streams st) /\
  st_OutboundQueueBytes st = sumZ ps_OutboundQueueBytes (st_Streams st) /\
  st_OutboundQueueFrames st = sumZ ps_OutboundQueueFrames (st_Streams st) /\
  st_OutboundQueueBytes st <= OutboundQueueBytes cfg /\
  st_OutboundQueueFrames st <= OutboundQueueFrames cfg /\
  st_ActiveInboundStreams st <= MaxActiveStreams cfg /\
  st_ActiveOutboundStreams st <= MaxActiveStreams cfg /\
  st_CanceledRequests st <= MaxCanceledRequests cfg.
Proof.
  intros Hcfg P. cbv zeta.
  assert (forall s, s ∈ st_Streams (Stats p) <-> stream_stats p (ps_StreamID s) = Some s) as Hin.
  { intros s. cbn. rewrite (merge_sort_Permutation stream_le). rewrite list_elem_of_fmap. split.
    - intros ([id s'] & -> & Hs%elem_of_map_to_list). cbn.
      by rewrite (stats_streams_id _ _ _ Hs), <- stats_streams_lookup.
    - intros Hs. exists (ps_StreamID s, s). split; [done|]. apply elem_of_map_to_list.
      by rewrite stats_streams_lookup. }
  split.
  { assert (NoDup (ps_StreamID <$> st_Streams (Stats p))) as Hnd.
    { cbn. rewrite (fmap_Permutation _ _ _ (merge_sort_Permutation stream_le _)).
      replace (ps_StreamID <$> (map_to_list (stats_streams p)).*2)
        with ((map_to_list (stats_streams p)).*1); [apply NoDup_fst_map_to_list|].
      rewrite <- list_fmap_compose. apply list_fmap_ext. intros j [id s] Hs%list_elem_of_lookup_2.
      cbn. symmetry. apply (stats_streams_id p). by apply elem_of_map_to_list. }
    assert (Sorted stream_le (st_Streams (Stats p))) as Hs
      by (apply Sorted_merge_sort; intros a b; unfold stream_le; lia).
    apply Sorted_StronglySorted in Hs; [|intros a b c; unfold stream_le; lia].
    clear Hin. induction Hs as [|x l Hl IH Hx]; [constructor|]. cbn in Hnd.
    apply NoDup_cons in Hnd as [Hni Hnd]. constructor; [by apply IH|].
    rewrite Forall_forall in Hx |- *. intros y Hy. specialize (Hx y Hy). unfold stream_le in Hx.
    assert (ps_StreamID x <> ps_StreamID y); [|lia].
    intros E. apply Hni. rewrite E. by apply list_elem_of_fmap_2. }
  split; [exact Hin|]. rewrite !sumZ_stats_streams. cbn.
  pose proof (pk_out _ _ P) as Ho. pose proof (pk_corr _ _ P) as Hc.
  assert (forall id, stats_streams p !! id = stream_stats p id) as Hl by apply stats_streams_lookup.
  split; [|split; [|split; [|split]]]; [..|repeat split].
  1-4: try rewrite (oi_bytes _ _ Ho); try rewrite (oi_frames _ _ Ho); apply map_sumZ_project;
    intros id; rewrite Hl; unfold stream_stats;
    by destruct (inbound (inb p) !! id), (outbound (outb p) !! id).
  - apply (oi_bytes_max _ _ Ho).
  - apply (oi_frames_max _ _ Ho).
  - apply (in_size _ _ (pk_in _ _ P)).
  - apply (oi_streams _ _ Ho).
  - pose proof (ci_bound _ _ Hc) as Hb. enough (size (canceled (corr p)) = length (canceledOrder (corr p))) as ->
      by exact Hb.
    rewrite <- size_dom. rewrite <- (size_list_to_set (C := gset Z)) by apply (ci_nodup _ _ Hc).
    f_equal. apply set_eq. intros id. rewrite elem_of_dom, elem_of_list_to_set. symmetry.
    apply (ci_order _ _ Hc).
Qed.

(** Failing the peer. On an open peer [fail] never blocks although it sends
    on channels while it holds the lock: every pending call and every queued
    send receives exactly the error, no other channel changes, the tables are
    emptied, waiters are woken, and every later [fail] changes nothing, so the
    first error is the one [Err] reports. *)
Theorem fail_spec cfg err p :
  peer_config_ok cfg -> peer_ok cfg p -> closed p = false ->
  exists p', fail err p = Some p' /\ peer_ok cfg p' /\ Err p' = Some err /\
    (changed p < changed p')%N /\
    pending (corr p') = ∅ /\ canceled (corr p') = ∅ /\ outb p' = empty_outbound /\
    (forall ch, responses p' !! ch =
       if decide (ch ∈ pending_channels (corr p)) then Some [mkResult None (Some err)]
       else responses p !! ch) /\
    (forall ch, results p' !! ch =
       if decide (ch ∈ req_id <$> queued (outb p)) then Some [Some err] else results p !! ch) /\
    forall err', fail err' p' = Some p'.
Proof.
  intros Hcfg P Hop. destruct (fail_spec' cfg err p Hcfg P Hop)
    as (p' & Hf & P' & Hcl & He & _ & _ & _ & Hch & Hresp & Hres).
  exists p'. destruct (pk_closed _ _ P' Hcl) as [-> ->]. cbn.
  split_and!; try done; [lia|]. intros err'. by apply fail_closed.
Qed.

(** ** A concrete peer *)

(** Two inbound frames on stream 3, a call waiting on stream 2, two queued sends. *)
Definition demo_send (id : N) (stream class : Z) (p : Peer) : Peer :=
  match send_begin demo_in_cfg true (demo_in_frame stream) class id p with
  | (inl req, p') => (send_section demo_in_cfg req p').2
  | (inr _, p') => p'
  end.

Definition demo_base : Peer :=
  let p := set_handlers {[5 := 1%N]} newPeer in
  let p := (dispatch_iteration demo_in_cfg (demo_in_frame 3) false p).2 in
  let p := (dispatch_iteration demo_in_cfg (demo_in_frame 3) false p).2 in
  (reserve_section 0 p).2.

Definition demo_peer : Peer := demo_send 2 3 TrafficBulk (demo_send 1 2 TrafficControl demo_base).

Lemma demo_base_ok : peer_ok demo_in_cfg demo_base.
Proof.
  unfold demo_base. cbv zeta.
  apply reserve_section_ok; [|vm_compute; reflexivity].
  do 2 (apply dispatch_iteration_ok; [exact demo_in_cfg_ok|]).
  apply set_handlers_ok, newPeer_ok, demo_in_cfg_ok.
Qed.

Lemma send_begin_ok cfg ctx frame class id p :
  peer_ok cfg p -> results p !! id = None ->
  peer_ok cfg (send_begin cfg ctx frame class id p).2 /\
  match (send_begin cfg ctx frame class id p).1 with
  | inl req => req_ok req /\ req_id req = id /\ req_frame req = frame /\
      results (send_begin cfg ctx frame class id p).2 !! id = Some [] /\
      outb (send_begin cfg ctx frame class id p).2 = outb p
  | inr _ => True
  end.
Proof.
  intros P Hid. unfold send_begin. destruct ctx; cbn; [|done].
  destruct (_ || _) eqn:Ec; cbn; [done|]. reflect_bools.
  destruct (_ || _); cbn; [split; [by apply set_counters_ok|done]|].
  split; [by apply new_result_ok|]. unfold req_ok; cbn.
  split_and!; try done. apply lookup_insert_eq.
Qed.

Lemma demo_send_ok id stream class p :
  peer_ok demo_in_cfg p -> results p !! id = None -> peer_ok demo_in_cfg (demo_send id stream class p).
Proof.
  intros P Hid. unfold demo_send.
  pose proof (send_begin_ok demo_in_cfg true (demo_in_frame stream) class id p P Hid) as [P' Hr].
  destruct (send_begin _ _ _ _ _ _) as [[req|] p']; cbn in *; [|done].
  destruct Hr as (Hreq & <- & _ & Hres & Ho).
  apply send_section_ok; [exact demo_in_cfg_ok|done..|].
  rewrite Ho. intros a r Hr Heq. pose proof (pk_queued _ _ P _ _ Hr) as Hq.
  rewrite Heq, Hid in Hq. done.
Qed.

Lemma demo_peer_ok : peer_ok demo_in_cfg demo_peer.
Proof.
  unfold demo_peer. apply demo_send_ok; [|vm_compute; reflexivity].
  apply demo_send_ok; [exact demo_base_ok|vm_compute; reflexivity].
Qed.

Lemma Stats_consistent_witness :
  map ps_StreamID (st_Streams (Stats demo_peer)) = [2; 3] /\
  st_InboundQueueBytes (Stats demo_peer) = sumZ ps_InboundQueueBytes (st_Streams (Stats demo_peer)).
Proof.
  split; [vm_compute; reflexivity|].
  exact (proj1 (proj2 (proj2 (Stats_consistent demo_in_cfg demo_peer demo_in_cfg_ok demo_peer_ok)))).
Defined.

Lemma fail_spec_witness :
  exists p', fail Canceled demo_peer = Some p' /\ peer_ok demo_in_cfg p' /\ Err p' = Some Canceled /\
    (changed demo_peer < changed p')%N /\
    pending (corr p') = ∅ /\ canceled (corr p') = ∅ /\ outb p' = empty_outbound /\
    (forall ch, responses p' !! ch =
       if decide (ch ∈ pending_channels (corr demo_peer)) then Some [mkResult None (Some Canceled)]
       else responses demo_peer !! ch) /\
    (forall ch, results p' !! ch =
       if decide (ch ∈ req_id <$> queued (outb demo_peer)) then Some [Some Canceled]
       else results demo_peer !! ch) /\
    forall err', fail err' p' = Some p'.
Proof.
  apply (fail_spec demo_in_cfg Canceled demo_peer).
  - exact demo_in_cfg_ok.
  - exact demo_peer_ok.
  - vm_compute; reflexivity.
Defined.
