(* ===== verification/PeerRun.v ===== *)
(** peer.go: the goroutines of a [Peer] as a step relation. A step is one
    critical section or one channel operation; steps of different goroutines
    interleave freely. The connection and the handlers answer as they like. *)

From S2P Require Import Prelude Errors BigEndian Frame PeerConfig Outbound Scheduler Correlation Inbound Peer.

(** ** Goroutines *)

(** A goroutine in [send], alone ([call = None]) or inside [Call] with its
    correlation ID; the goroutine's number is that of its channels. *)
Inductive thread :=
| TFill (id : Z) (ctx : bool) (frame : Frame)                (* Call: reserved, before p.mu.Lock() *)
| TPanic                                                     (* nil dereference in Call *)
| TBegin (call : option Z) (ctx : bool) (frame : Frame) (class : Z)  (* calling send *)
| TLoop (call : option Z) (req : outboundRequest)            (* send: at the head of the loop *)
| TWait (call : option Z) (req : outboundRequest) (gen : N)  (* send: the select of the loop *)
| TResult (call : option Z) (req : outboundRequest)          (* send: the last select *)
| TSent (call : option Z) (r : option error)                 (* send returned r *)
| TResponse (id : Z)                                         (* Call: its select *)
| TAbandon (id : Z) (e : error)                              (* Call: before abandonPending *)
| TReturn (r : peerResult).                                  (* Call returned *)

Inductive sched_pc :=
| SScan (s : Sched)
| SWaiting (s : Sched) (gen : N)
| SSending (s : Sched) (req : outboundRequest)               (* in conn.SendOwned *)
| SRecord (s : Sched) (req : outboundRequest)                (* before recordSent *)
| SReply (s : Sched) (req : outboundRequest) (r : option error)  (* request.result <- err *)
| SFail (e : error)
| SDone.

Inductive serve_pc :=
| VIdle
| VRead
| VRecord (frame : Frame)
| VResolve (frame : Frame)
| VDeliver (ch : N) (frame : Frame)                          (* pending.response <- *)
| VDispatch (frame : Frame) (waited : bool)
| VWait (frame : Frame) (gen : N)
| VError (e : error)                                         (* before recordProtocolError *)
| VFail (e : error)
| VDone.

Inductive worker_pc :=
| KLoop
| KRun (frame : Frame) (handler : N)
| KError (e : error)
| KFail (e : error).

(** The peer, the goroutines, and the history of a run: the frames read, accepted
    by [dispatch] and passed to handlers; the requests queued, taken by the
    scheduler for SendOwned, and sent with a nil error; the frame of each call.
    [w_locked]: a Call panicked in its second critical section, which has no
    deferred unlock; [callHandler] may recover the panic, but p.mu stays locked. *)
Record World := mkWorld {
  w_peer : Peer;
  w_fresh : N;
  w_threads : gmap N thread;
  w_sched : sched_pc;
  w_serve : serve_pc;
  w_workers : gmap N (Z * worker_pc);
  w_read : list Frame;
  w_accepted : list Frame;
  w_handled : list Frame;
  w_enqueued : list outboundRequest;
  w_taken : list outboundRequest;
  w_written : list outboundRequest;
  w_calls : gmap N Frame;
  w_locked : bool;
}.

Definition initial_world : World :=
  mkWorld newPeer 0 ∅ (SScan initial_sched) VIdle ∅ [] [] [] [] [] [] ∅ false.

Definition on_peer p w := mkWorld p (w_fresh w) (w_threads w) (w_sched w) (w_serve w) (w_workers w) (w_read w) (w_accepted w) (w_handled w) (w_enqueued w) (w_taken w) (w_written w) (w_calls w) (w_locked w).
Definition on_thread t th w := mkWorld (w_peer w) (w_fresh w) (<[t := th]> (w_threads w)) (w_sched w) (w_serve w) (w_workers w) (w_read w) (w_accepted w) (w_handled w) (w_enqueued w) (w_taken w) (w_written w) (w_calls w) (w_locked w).
Definition on_fresh w := mkWorld (w_peer w) (w_fresh w + 1) (w_threads w) (w_sched w) (w_serve w) (w_workers w) (w_read w) (w_accepted w) (w_handled w) (w_enqueued w) (w_taken w) (w_written w) (w_calls w) (w_locked w).
Definition on_sched s w := mkWorld (w_peer w) (w_fresh w) (w_threads w) s (w_serve w) (w_workers w) (w_read w) (w_accepted w) (w_handled w) (w_enqueued w) (w_taken w) (w_written w) (w_calls w) (w_locked w).
Definition on_serve s w := mkWorld (w_peer w) (w_fresh w) (w_threads w) (w_sched w) s (w_workers w) (w_read w) (w_accepted w) (w_handled w) (w_enqueued w) (w_taken w) (w_written w) (w_calls w) (w_locked w).
Definition on_workers k w := mkWorld (w_peer w) (w_fresh w) (w_threads w) (w_sched w) (w_serve w) k (w_read w) (w_accepted w) (w_handled w) (w_enqueued w) (w_taken w) (w_written w) (w_calls w) (w_locked w).
Definition log_read f w := mkWorld (w_peer w) (w_fresh w) (w_threads w) (w_sched w) (w_serve w) (w_workers w) (w_read w ++ [f]) (w_accepted w) (w_handled w) (w_enqueued w) (w_taken w) (w_written w) (w_calls w) (w_locked w).
Definition log_accepted f w := mkWorld (w_peer w) (w_fresh w) (w_threads w) (w_sched w) (w_serve w) (w_workers w) (w_read w) (w_accepted w ++ f) (w_handled w) (w_enqueued w) (w_taken w) (w_written w) (w_calls w) (w_locked w).
Definition log_handled f w := mkWorld (w_peer w) (w_fresh w) (w_threads w) (w_sched w) (w_serve w) (w_workers w) (w_read w) (w_accepted w) (w_handled w ++ [f]) (w_enqueued w) (w_taken w) (w_written w) (w_calls w) (w_locked w).
Definition log_enqueued r w := mkWorld (w_peer w) (w_fresh w) (w_threads w) (w_sched w) (w_serve w) (w_workers w) (w_read w) (w_accepted w) (w_handled w) (w_enqueued w ++ [r]) (w_taken w) (w_written w) (w_calls w) (w_locked w).
Definition log_taken r w := mkWorld (w_peer w) (w_fresh w) (w_threads w) (w_sched w) (w_serve w) (w_workers w) (w_read w) (w_accepted w) (w_handled w) (w_enqueued w) (w_taken w ++ [r]) (w_written w) (w_calls w) (w_locked w).
Definition log_written r w := mkWorld (w_peer w) (w_fresh w) (w_threads w) (w_sched w) (w_serve w) (w_workers w) (w_read w) (w_accepted w) (w_handled w) (w_enqueued w) (w_taken w) (w_written w ++ [r]) (w_calls w) (w_locked w).
Definition log_call t f w := mkWorld (w_peer w) (w_fresh w) (w_threads w) (w_sched w) (w_serve w) (w_workers w) (w_read w) (w_accepted w) (w_handled w) (w_enqueued w) (w_taken w) (w_written w) (<[t := f]> (w_calls w)) (w_locked w).
Definition on_locked w := mkWorld (w_peer w) (w_fresh w) (w_threads w) (w_sched w) (w_serve w) (w_workers w) (w_read w) (w_accepted w) (w_handled w) (w_enqueued w) (w_taken w) (w_written w) (w_calls w) true.

(** ** Steps *)

Section steps.
Context (cfg : PeerConfig).

(** [Call] up to the return of [reservePending], by a new goroutine [t]. *)
Definition call_start (ctx : bool) (frame : Frame) (t : N) (w : World) : World :=
  match Call_check ctx frame with
  | Some e => on_thread t (TReturn (mkResult None (Some e))) w
  | None =>
      let '(r, p) := reserve_section t (w_peer w) in
      match r with
      | inr e => on_thread t (TReturn (mkResult None (Some e))) (on_peer p w)
      | inl id =>
          let frame := with_correlation id frame in
          log_call t frame (on_thread t (TFill id ctx frame) (on_peer p w))
      end
  end.

(** [Call]'s second critical section; the nil dereference leaves p.mu locked. *)
Definition call_fill_step (t : N) (id : Z) (ctx : bool) (frame : Frame) (w : World) : World :=
  match call_fill id (MessageType (FHeader frame)) (StreamID (FHeader frame)) (corr (w_peer w)) with
  | None => on_locked (on_thread t TPanic w)
  | Some c => on_thread t (TBegin (Some id) ctx frame TrafficControl) (on_peer (set_corr c (w_peer w)) w)
  end.

(** Before its loop [send] takes p.mu only to count an overflow. *)
Definition send_begin_locks (ctx : bool) (frame : Frame) (class : Z) : bool :=
  ctx && negb ((class <? TrafficControl) || (TrafficBulk <? class)) &&
  ((PerStreamQueueBytes cfg <? frame_bytes frame) || (OutboundQueueBytes cfg <? frame_bytes frame)).

Definition send_begin_step (t : N) (call : option Z) (ctx : bool) (frame : Frame) (class : Z) (w : World)
    : World :=
  let '(r, p) := send_begin cfg ctx frame class t (w_peer w) in
  on_thread t (match r with inl req => TLoop call req | inr e => TSent call (Some e) end) (on_peer p w).

Definition send_loop_step (t : N) (call : option Z) (req : outboundRequest) (w : World) : World :=
  let '(out, p) := send_section cfg req (w_peer w) in
  match out with
  | SendReturn e => on_thread t (TSent call (Some e)) (on_peer p w)
  | SendEnqueued => log_enqueued req (on_thread t (TResult call req) (on_peer p w))
  | SendWait gen => on_thread t (TWait call req gen) (on_peer p w)
  end.

Definition sched_scan_step (s : Sched) (w : World) : World :=
  let '(out, s', p) := schedule_section cfg s (w_peer w) in
  match out with
  | SchedTake req => log_taken req (on_sched (SSending s' req) (on_peer p w))
  | SchedExit => on_sched SDone (on_peer p w)
  | SchedWait gen => on_sched (SWaiting s' gen) (on_peer p w)
  end.

Definition sched_sent_step (s : Sched) (req : outboundRequest) (r : option error) (w : World) : World :=
  match r with
  | None => log_written req (on_sched (SRecord s req) w)
  | Some e => on_sched (SReply s req r) w
  end.

Definition resolve_step (frame : Frame) (w : World) : World :=
  let '(err, deliver, p) := resolve_section frame (w_peer w) in
  on_serve (match err, deliver with
            | Some e, _ => VError e
            | None, Some ch => VDeliver ch frame
            | None, None => VRead
            end) (on_peer p w).

Definition dispatch_step (frame : Frame) (waited : bool) (w : World) : World :=
  let '(e, gen, p) := dispatch_iteration cfg frame waited (w_peer w) in
  let w := on_peer p w in
  let w := match de_spawn e with
           | Some (id, ref) => on_workers (<[ref := (id, KLoop)]> (w_workers w)) w
           | None => w
           end in
  match de_out e with
  | DispatchReturn None => log_accepted [frame] (on_serve VRead w)
  | DispatchReturn (Some err) => on_serve (VError err) w
  | DispatchWait => on_serve (VWait frame gen) w
  end.

Definition worker_step (id : Z) (ref : N) (w : World) : World :=
  let '(work, p) := worker_iteration id ref (w_peer w) in
  let w := on_peer p w in
  match work with
  | Some (frame, Some h) => log_handled frame (on_workers (<[ref := (id, KRun frame h)]> (w_workers w)) w)
  | Some (frame, None) =>
      log_handled frame (on_workers (<[ref := (id, KError ErrHandlerNotFound)]> (w_workers w)) w)
  | None => on_workers (delete ref (w_workers w)) w
  end.

(** A step that takes p.mu needs it unlocked. *)
Inductive step : World -> World -> Prop :=
(* RegisterHandlers *)
| st_register entries w :
    w_locked w = false ->
    step w (on_peer (set_handlers (RegisterHandlers entries (closed (w_peer w)) (handlers (w_peer w))).2
                       (w_peer w)) w)
(* Send, SendOwned, Emit and Respond: a new goroutine calls send *)
| st_send ctx frame class w :
    step w (on_fresh (on_thread (w_fresh w) (TBegin None ctx frame class) w))
(* Call *)
| st_call ctx frame w :
    (Call_check ctx frame = None -> w_locked w = false) -> step w (on_fresh (call_start ctx frame (w_fresh w) w))
| st_fill t id ctx frame w :
    w_threads w !! t = Some (TFill id ctx frame) -> w_locked w = false -> step w (call_fill_step t id ctx frame w)
(* send *)
| st_begin t call ctx frame class w :
    w_threads w !! t = Some (TBegin call ctx frame class) ->
    (send_begin_locks ctx frame class = true -> w_locked w = false) ->
    step w (send_begin_step t call ctx frame class w)
| st_loop t call req w :
    w_threads w !! t = Some (TLoop call req) -> w_locked w = false -> step w (send_loop_step t call req w)
| st_wait_changed t call req gen w :
    w_threads w !! t = Some (TWait call req gen) -> (gen < changed (w_peer w))%N ->
    step w (on_thread t (TLoop call req) w)
| st_wait_ctx t call req gen e w :
    w_threads w !! t = Some (TWait call req gen) -> step w (on_thread t (TSent call (Some e)) w)
| st_wait_done t call req gen w :
    w_threads w !! t = Some (TWait call req gen) -> closed (w_peer w) = true -> w_locked w = false ->
    step w (on_thread t (TSent call (Some (result (w_peer w)))) w)
| st_result t call req r w :
    w_threads w !! t = Some (TResult call req) -> results (w_peer w) !! t = Some [r] ->
    step w (on_thread t (TSent call r) (on_peer (set_results (<[t := []]> (results (w_peer w))) (w_peer w)) w))
| st_result_ctx t call req e w :
    w_threads w !! t = Some (TResult call req) -> step w (on_thread t (TSent call (Some e)) w)
| st_result_done t call req w :
    w_threads w !! t = Some (TResult call req) -> closed (w_peer w) = true -> w_locked w = false ->
    step w (on_thread t (TSent call (Some (result (w_peer w)))) w)
(* Call after send *)
| st_sent_ok t id w :
    w_threads w !! t = Some (TSent (Some id) None) -> step w (on_thread t (TResponse id) w)
| st_sent_err t id e w :
    w_threads w !! t = Some (TSent (Some id) (Some e)) -> step w (on_thread t (TAbandon id e) w)
| st_response t id r w :
    w_threads w !! t = Some (TResponse id) -> responses (w_peer w) !! t = Some [r] ->
    step w (on_thread t (TReturn r)
      (on_peer (set_responses (<[t := []]> (responses (w_peer w))) (w_peer w)) w))
| st_response_ctx t id e w :
    w_threads w !! t = Some (TResponse id) -> step w (on_thread t (TAbandon id e) w)
| st_response_done t id w :
    w_threads w !! t = Some (TResponse id) -> closed (w_peer w) = true -> w_locked w = false ->
    step w (on_thread t (TReturn (mkResult None (Some (result (w_peer w))))) w)
| st_abandon t id e w :
    w_threads w !! t = Some (TAbandon id e) -> w_locked w = false ->
    step w (on_thread t (TReturn (mkResult None (Some e)))
      (on_peer (set_corr (abandonPending cfg id (corr (w_peer w))) (w_peer w)) w))
(* schedule *)
| st_scan s w : w_sched w = SScan s -> w_locked w = false -> step w (sched_scan_step s w)
| st_sched_changed s gen w :
    w_sched w = SWaiting s gen -> (gen < changed (w_peer w))%N -> step w (on_sched (SScan s) w)
| st_sched_done s gen w :
    w_sched w = SWaiting s gen -> closed (w_peer w) = true -> step w (on_sched SDone w)
| st_sent s req r w : w_sched w = SSending s req -> step w (sched_sent_step s req r w)
| st_record_sent s req w :
    w_sched w = SRecord s req -> w_locked w = false ->
    step w (on_sched (SReply s req None) (on_peer (record_sent (req_frame req) (w_peer w)) w))
| st_reply s req r m w :
    w_sched w = SReply s req r -> chan_send (req_id req) r (results (w_peer w)) = Some m ->
    step w (on_sched (match r with None => SScan s | Some e => SFail e end)
      (on_peer (set_results m (w_peer w)) w))
| st_sched_fail e p w :
    w_sched w = SFail e -> fail e (w_peer w) = Some p -> w_locked w = false -> step w (on_sched SDone (on_peer p w))
(* Serve *)
| st_serve w : w_serve w = VIdle -> step w (on_serve VRead w)
| st_read frame w :
    w_serve w = VRead -> MessageType (FHeader frame) <> 0 ->
    step w (log_read frame (on_serve (VRecord frame) w))
| st_read_error e w :
    w_serve w = VRead -> step w (on_serve (if isPeerProtocolError e then VError e else VFail e) w)
| st_record_received frame w :
    w_serve w = VRecord frame -> w_locked w = false ->
    step w (on_serve (if Flags (FHeader frame) =? FlagResponse then VResolve frame
                      else VDispatch frame false) (on_peer (record_received frame (w_peer w)) w))
| st_resolve frame w : w_serve w = VResolve frame -> w_locked w = false -> step w (resolve_step frame w)
| st_deliver ch frame m w :
    w_serve w = VDeliver ch frame ->
    chan_send ch (mkResult (Some frame) None) (responses (w_peer w)) = Some m ->
    step w (on_serve VRead (on_peer (set_responses m (w_peer w)) w))
| st_dispatch frame waited w :
    w_serve w = VDispatch frame waited -> w_locked w = false -> step w (dispatch_step frame waited w)
| st_dispatch_changed frame gen w :
    w_serve w = VWait frame gen -> (gen < changed (w_peer w))%N ->
    step w (on_serve (VDispatch frame true) w)
| st_dispatch_done frame gen w :
    w_serve w = VWait frame gen -> closed (w_peer w) = true -> w_locked w = false ->
    step w (on_serve (VError (result (w_peer w))) w)
| st_serve_error e w :
    w_serve w = VError e -> w_locked w = false -> step w (on_serve (VFail e) (on_peer (record_protocol_error (w_peer w)) w))
| st_serve_fail e p w :
    w_serve w = VFail e -> fail e (w_peer w) = Some p -> w_locked w = false -> step w (on_serve VDone (on_peer p w))
(* runInbound *)
| st_worker id ref w :
    w_workers w !! ref = Some (id, KLoop) -> w_locked w = false -> step w (worker_step id ref w)
| st_handler id ref frame h r w :
    w_workers w !! ref = Some (id, KRun frame h) ->
    step w (on_workers (<[ref := (id, match r with None => KLoop | Some e => KError e end)]> (w_workers w)) w)
| st_worker_error id ref e w :
    w_workers w !! ref = Some (id, KError e) -> w_locked w = false ->
    step w (on_workers (<[ref := (id, KFail e)]> (w_workers w))
      (on_peer (record_protocol_error (w_peer w)) w))
| st_worker_fail id ref e p w :
    w_workers w !! ref = Some (id, KFail e) -> fail e (w_peer w) = Some p -> w_locked w = false ->
    step w (on_workers (delete ref (w_workers w)) (on_peer p w))
(* Close, and the goroutine of Serve that waits for its context *)
| st_fail e p w : fail e (w_peer w) = Some p -> w_locked w = false -> step w (on_peer p w).

Inductive reachable : World -> Prop :=
| reach_init : reachable initial_world
| reach_step w w' : reachable w -> step w w' -> reachable w'.
End steps.

(** ** The core invariant: channels, queues and goroutines agree *)

Definition stream_reqs (id : Z) (l : list outboundRequest) : list outboundRequest :=
  filter (fun r => stream_of r = id) l.
Definition stream_frames (id : Z) (l : list Frame) : list Frame :=
  filter (fun f => StreamID (FHeader f) = id) l.

Definition thread_ok (cfg : PeerConfig) (p : Peer) (enq : list outboundRequest) (t : N) (th : thread) : Prop :=
  match th with
  | TFill _ _ _ | TBegin _ _ _ _ => results p !! t = None /\ t ∉ req_id <$> enq
  | TLoop _ req | TWait _ req _ =>
      req_ok req /\ req_id req = t /\ results p !! t = Some [] /\ t ∉ req_id <$> enq
  | TResult _ req => req_id req = t
  | _ => True
  end.

(** The request the scheduler holds outside the lock. *)
Definition in_flight (s : sched_pc) : option outboundRequest :=
  match s with SSending _ r | SRecord _ r | SReply _ r _ => Some r | _ => None end.

Section core.
Context (cfg : PeerConfig).

Record core (w : World) : Prop := {
  co_peer : peer_ok cfg (w_peer w);
  co_fresh t : (w_fresh w <= t)%N ->
    w_threads w !! t = None /\ responses (w_peer w) !! t = None /\ results (w_peer w) !! t = None;
  co_thread t th : w_threads w !! t = Some th -> thread_ok cfg (w_peer w) (w_enqueued w) t th;
  co_nodup : NoDup (req_id <$> w_enqueued w);
  co_enq_fresh r : r ∈ w_enqueued w -> (req_id r < w_fresh w)%N;
  co_fifo id : exists rest, stream_reqs id (w_enqueued w) = stream_reqs id (w_taken w) ++ rest /\
    (closed (w_peer w) = false -> rest = queue_of id (outb (w_peer w)));
  co_flight r : in_flight (w_sched w) = Some r ->
    r ∈ w_taken w /\ results (w_peer w) !! req_id r = Some [];
  co_deliver ch f : w_serve w = VDeliver ch f -> responses (w_peer w) !! ch = Some [] /\
    forall id q, pending (corr (w_peer w)) !! id = Some q -> pp_response q <> ch;
}.

Lemma initial_core : peer_config_ok cfg -> core initial_world.
Proof.
  intros Hcfg. split; cbn; try done.
  - by apply newPeer_ok.
  - constructor.
  - by intros r ?%elem_of_nil.
  - intros id. exists []. split; [done|]. intros _. unfold queue_of; cbn. by rewrite lookup_empty.
Qed.

Lemma taken_enqueued w r : core w -> r ∈ w_taken w -> r ∈ w_enqueued w.
Proof.
  intros C Hr. destruct (co_fifo _ C (stream_of r)) as (rest & Hf & _).
  assert (r ∈ stream_reqs (stream_of r) (w_enqueued w)) as Hin.
  { rewrite Hf. apply elem_of_app. left. by apply list_elem_of_filter. }
  by apply list_elem_of_filter in Hin as [_ ?].
Qed.

Lemma queued_enqueued w id r : core w -> r ∈ queue_of id (outb (w_peer w)) ->
  closed (w_peer w) = false /\ stream_of r = id /\ r ∈ w_enqueued w.
Proof.
  intros C Hr. pose proof (co_peer _ C) as P.
  assert (closed (w_peer w) = false) as Hop.
  { destruct (closed (w_peer w)) eqn:E; [|done]. destruct (pk_closed _ _ P E) as [_ Ho].
    rewrite Ho in Hr. unfold queue_of in Hr; cbn in Hr. rewrite lookup_empty in Hr.
    by apply elem_of_nil in Hr. }
  split; [done|]. split; [by eapply queue_of_stream, Hr; apply P|].
  destruct (co_fifo _ C id) as (rest & Hf & Hq). rewrite <- (Hq Hop) in Hr.
  assert (r ∈ stream_reqs id (w_enqueued w)) as Hin by (rewrite Hf; apply elem_of_app; by right).
  by apply list_elem_of_filter in Hin as [_ ?].
Qed.

Lemma nodup_fmap_inj {A B} (f : A -> B) (l : list A) x y :
  NoDup (f <$> l) -> x ∈ l -> y ∈ l -> f x = f y -> x = y.
Proof.
  intros Hnd Hx Hy Heq. apply list_elem_of_lookup in Hx as [i Hi], Hy as [j Hj].
  assert (i = j) as ->; [|congruence].
  eapply NoDup_lookup; [exact Hnd| |]; rewrite list_lookup_fmap.
  - by rewrite Hi.
  - rewrite Hj. cbn. by rewrite Heq.
Qed.

Lemma flight_not_queued w r id q :
  core w -> r ∈ w_taken w -> q ∈ queue_of id (outb (w_peer w)) -> req_id q <> req_id r.
Proof.
  intros C Hr Hq Heq. destruct (queued_enqueued _ _ _ C Hq) as (Hop & Hs & Hqe).
  pose proof (taken_enqueued _ _ C Hr) as Hre.
  assert (q = r) as -> by (by eapply nodup_fmap_inj; [apply (co_nodup _ C)|..]).
  destruct (co_fifo _ C id) as (rest & Hf & Hrest). rewrite (Hrest Hop) in Hf.
  pose proof (NoDup_fmap_1 _ _ (co_nodup _ C)) as Hnd.
  assert (NoDup (stream_reqs id (w_enqueued w))) as Hn by by apply NoDup_filter.
  rewrite Hf in Hn. apply NoDup_app in Hn as (_ & Hd & _). apply (Hd r); [|done].
  by apply list_elem_of_filter.
Qed.

(** *** Changes of one goroutine *)

Lemma core_thread w t th :
  core w -> (t < w_fresh w)%N -> thread_ok cfg (w_peer w) (w_enqueued w) t th -> core (on_thread t th w).
Proof.
  intros [] Ht Hth. split; cbn; try done.
  - intros t' Hle. destruct (co_fresh0 t' Hle) as (? & ? & ?).
    split; [|done]. rewrite lookup_insert_ne by lia. done.
  - intros t' th' Hl. rewrite lookup_insert in Hl. case_decide; simplify_eq; [done|]. by apply co_thread0.
Qed.

Lemma core_sched w s :
  core w -> (forall r, in_flight s = Some r ->
    r ∈ w_taken w /\ results (w_peer w) !! req_id r = Some []) -> core (on_sched s w).
Proof. intros [] Hs. by split. Qed.

Lemma core_serve w s : core w -> (forall ch f, s <> VDeliver ch f) -> core (on_serve s w).
Proof. intros [] Hs. split; cbn; try done. intros ch f ->. by destruct (Hs ch f). Qed.

Lemma core_workers w k : core w -> core (on_workers k w).
Proof. intros []. by split. Qed.
Lemma core_log_read w f : core w -> core (log_read f w).
Proof. intros []. by split. Qed.
Lemma core_log_accepted w f : core w -> core (log_accepted f w).
Proof. intros []. by split. Qed.
Lemma core_log_handled w f : core w -> core (log_handled f w).
Proof. intros []. by split. Qed.
Lemma core_log_written w r : core w -> core (log_written r w).
Proof. intros []. by split. Qed.
Lemma core_log_call w t f : core w -> core (log_call t f w).
Proof. intros []. by split. Qed.

Lemma core_on_locked w : core w -> core (on_locked w).
Proof. intros []. by split. Qed.

Lemma core_on_fresh w : core w -> core (on_fresh w).
Proof.
  intros []. split; cbn; try done.
  - intros t Ht. apply co_fresh0. lia.
  - intros r Hr. specialize (co_enq_fresh0 r Hr). lia.
Qed.

Lemma core_thread_lt w t th : core w -> w_threads w !! t = Some th -> (t < w_fresh w)%N.
Proof.
  intros C Ht. destruct (decide (t < w_fresh w)%N) as [|Hge]; [done|].
  destruct (co_fresh _ C t) as [Hn _]; [by apply N.nlt_ge|]. congruence.
Qed.

(** *** Changes of the peer *)

(** A result buffer that may change: not empty already, or that of a request
    queued (and not in flight). *)
Definition result_free (w : World) (t : N) : Prop :=
  exists l, results (w_peer w) !! t = Some l /\
    (l <> [] \/ t ∈ req_id <$> w_enqueued w /\
      forall r, in_flight (w_sched w) = Some r -> req_id r <> t).

Lemma core_peer w p :
  core w -> peer_ok cfg p ->
  (forall t, results p !! t = results (w_peer w) !! t \/ result_free w t /\ is_Some (results p !! t)) ->
  (forall t, responses p !! t = responses (w_peer w) !! t \/
     is_Some (responses (w_peer w) !! t) /\ forall f, w_serve w <> VDeliver t f) ->
  (forall id q, pending (corr p) !! id = Some q ->
     exists id' q', pending (corr (w_peer w)) !! id' = Some q' /\ pp_response q' = pp_response q) ->
  (closed p = false -> closed (w_peer w) = false /\
     forall id, queue_of id (outb p) = queue_of id (outb (w_peer w))) ->
  core (on_peer p w).
Proof.
  intros C P Hres Hresp Hpend Hq. destruct C. split; cbn; try done.
  - intros t Ht. destruct (co_fresh0 t Ht) as (H1 & H2 & H3). split; [done|]. split.
    + destruct (Hresp t) as [->|[[? Hs] _]]; [done|congruence].
    + destruct (Hres t) as [->|[(l & Hl & _) _]]; [done|congruence].
  - intros t th Ht. specialize (co_thread0 t th Ht).
    destruct (Hres t) as [Heq|[(l & Hl & Hfree) _]].
    + unfold thread_ok in *. destruct th; rewrite ?Heq; done.
    + unfold thread_ok in *. rewrite Hl in co_thread0.
      destruct th; try done; exfalso; try (by destruct co_thread0);
        destruct co_thread0 as (_ & <- & [= ->] & Hni); by destruct Hfree as [?|[? _]].
  - intros id. destruct (co_fifo0 id) as (rest & Hf & Hr). exists rest. split; [done|].
    intros Hop. destruct (Hq Hop) as [Hop' ->]. by apply Hr.
  - intros r Hr. destruct (co_flight0 r Hr) as [Ht Hl]. split; [done|].
    destruct (Hres (req_id r)) as [->|[(l & Hl' & Hfree) _]]; [done|].
    rewrite Hl in Hl'. injection Hl' as <-. destruct Hfree as [?|[_ Hne]]; [done|].
    by destruct (Hne r Hr).
  - intros ch f Hs. destruct (co_deliver0 ch f Hs) as [Hch Hne]. split.
    + destruct (Hresp ch) as [->|[_ Hd]]; [done|]. by destruct (Hd f).
    + intros id q Hid. destruct (Hpend id q Hid) as (id' & q' & Hid' & <-). by eapply Hne.
Qed.

Lemma core_peer_id w : core w -> core (on_peer (w_peer w) w).
Proof. by destruct w. Qed.

(** The peer's channels, tables and queues are as before. *)
Lemma core_peer_same w p :
  core w -> peer_ok cfg p -> results p = results (w_peer w) -> responses p = responses (w_peer w) ->
  corr p = corr (w_peer w) -> outb p = outb (w_peer w) -> closed p = closed (w_peer w) ->
  core (on_peer p w).
Proof.
  intros C P H1 H2 H3 H4 H5. apply core_peer; [done..| | | |]; rewrite ?H1, ?H2, ?H3, ?H4, ?H5.
  - by intros t; left.
  - by intros t; left.
  - intros id q Hq. by exists id, q.
  - done.
Qed.

Lemma core_peer_corr w c :
  core w -> peer_ok cfg (set_corr c (w_peer w)) ->
  (forall id q, pending c !! id = Some q ->
     exists id' q', pending (corr (w_peer w)) !! id' = Some q' /\ pp_response q' = pp_response q) ->
  core (on_peer (set_corr c (w_peer w)) w).
Proof. intros C P Hp. apply core_peer; [done..| | |done|done]; intros t; by left. Qed.

Lemma core_fail w e p :
  peer_config_ok cfg -> core w -> fail e (w_peer w) = Some p -> core (on_peer p w).
Proof.
  intros Hcfg C Hf. destruct (closed (w_peer w)) eqn:Ecl.
  { rewrite fail_closed in Hf by done. injection Hf as <-. by destruct w. }
  destruct (fail_spec' cfg e (w_peer w) Hcfg (co_peer _ C) Ecl)
    as (p' & Hf' & P & Hcl & _ & _ & _ & _ & _ & Hresp & Hres).
  rewrite Hf in Hf'. injection Hf' as <-. apply core_peer; try done.
  - intros t. rewrite Hres. case_decide as Hin; [right|by left].
    apply list_elem_of_fmap in Hin as (r & -> & Hr).
    apply (elem_of_queued cfg) in Hr; [|apply C]. split; [|by eexists].
    exists []. split; [by eapply pk_queued, Hr; apply C|]. right.
    destruct (queued_enqueued _ _ _ C Hr) as (_ & _ & Hre).
    split; [by apply list_elem_of_fmap_2|]. intros r' Hr'.
    destruct (co_flight _ C _ Hr') as [Ht _]. intros Heq. by eapply (flight_not_queued w r').
  - intros t. rewrite Hresp. case_decide as Hin; [right|by left].
    apply elem_of_pending_channels in Hin as (id & q & Hq & <-). split.
    + rewrite (pk_pending _ _ (co_peer _ C) _ _ Hq). by eexists.
    + intros f Hs. destruct (co_deliver _ C _ _ Hs) as [_ Hne]. by eapply Hne.
  - destruct (pk_closed _ _ P Hcl) as [-> _]. intros id q. cbn. by rewrite lookup_empty.
  - congruence.
Qed.
End core.
#[export] Hint Resolve core_workers core_log_read core_log_accepted core_log_handled
  core_log_written core_log_call core_on_fresh core_thread_lt : mux.

Section core_step.
Context (cfg : PeerConfig) (Hcfg : peer_config_ok cfg).

Lemma thread_ok_other p p' enq t t' th l :
  results p' = <[t := l]> (results p) -> t <> t' -> thread_ok cfg p enq t' th -> thread_ok cfg p' enq t' th.
Proof. intros Hr Hne. unfold thread_ok. rewrite Hr, lookup_insert_ne by done. done. Qed.

Lemma core_send_begin w t call ctx frame class :
  core cfg w -> w_threads w !! t = Some (TBegin call ctx frame class) ->
  core cfg (send_begin_step cfg t call ctx frame class w).
Proof.
  intros C Ht. destruct (co_thread _ _ C _ _ Ht) as [Hnone Hni].
  assert (t < w_fresh w)%N as Hlt by eauto with mux. unfold send_begin_step.
  pose proof (send_begin_ok cfg ctx frame class t (w_peer w) (co_peer _ _ C) Hnone) as [P Hr].
  unfold send_begin in *. destruct ctx; cbn in *; [|apply core_thread; [by apply core_peer_id|done..]].
  destruct ((class <? _) || _); cbn in *; [apply core_thread; [by apply core_peer_id|done..]|].
  destruct (_ || _); cbn in *.
  { apply core_thread; [|done|done]. by apply core_peer_same. }
  destruct Hr as (Hreq & _). destruct C. split; cbn; try done.
  - intros t' Hle. destruct (co_fresh0 t' Hle) as (? & ? & ?).
    rewrite !lookup_insert_ne by lia. done.
  - intros t' th' Hl. rewrite lookup_insert in Hl. case_decide; simplify_eq.
    + split_and!; try done. apply lookup_insert_eq.
    + eapply thread_ok_other; [done..|]. by apply co_thread0.
  - intros r Hr. destruct (co_flight0 r Hr) as [? Hl]. split; [done|].
    rewrite lookup_insert_ne; [done|]. intros ->. congruence.
Qed.

Lemma core_send_loop w t call req :
  core cfg w -> w_threads w !! t = Some (TLoop call req) -> core cfg (send_loop_step cfg t call req w).
Proof.
  intros C Ht. destruct (co_thread _ _ C _ _ Ht) as (Hreq & <- & Hres & Hni).
  assert (req_id req < w_fresh w)%N as Hlt by eauto with mux. unfold send_loop_step.
  assert (forall id r, r ∈ queue_of id (outb (w_peer w)) -> req_id r <> req_id req) as Hfresh.
  { intros id r Hr Heq. destruct (queued_enqueued _ _ _ _ C Hr) as (_ & _ & Hre).
    apply Hni. rewrite <- Heq. by apply list_elem_of_fmap_2. }
  pose proof (send_section_ok cfg req (w_peer w) Hcfg (co_peer _ _ C) Hreq Hres Hfresh) as P.
  unfold send_section in *. destruct (closed (w_peer w)) eqn:Ecl.
  { apply core_thread; [by apply core_peer_id|done..]. }
  destruct (fits cfg (outb (w_peer w)) req).
  2: { apply core_thread; [by apply core_peer_id|done..]. }
  pose proof (fun id => queue_of_enqueue cfg (outb (w_peer w)) req id (pk_out _ _ (co_peer _ _ C))) as Hq.
  cbn in *. destruct C. split; cbn; try done.
  - intros t' Hle. destruct (co_fresh0 t' Hle) as (? & ? & ?).
    rewrite lookup_insert_ne by lia. done.
  - intros t' th' Hl. rewrite lookup_insert in Hl. case_decide as Hd; simplify_eq; [done|].
    specialize (co_thread0 t' th' Hl). unfold thread_ok in *. cbn.
    assert (t' ∉ req_id <$> w_enqueued w -> t' ∉ req_id <$> w_enqueued w ++ [req]) as Hn.
    { rewrite fmap_app, not_elem_of_app. intros ?. split; [done|]. by intros ->%list_elem_of_singleton. }
    destruct th'; try done; split_and!; try apply Hn; try apply co_thread0.
  - rewrite fmap_app. apply NoDup_app. split; [done|]. split; [|apply NoDup_singleton].
    by intros x Hx ->%list_elem_of_singleton.
  - intros r [Hr| ->%list_elem_of_singleton]%elem_of_app; [by apply co_enq_fresh0|done].
  - intros id. destruct (co_fifo0 id) as (rest & Hf & Hr). unfold stream_reqs in *.
    rewrite filter_app, Hf, Hq, filter_cons, filter_nil. rewrite <- (Hr Ecl).
    exists (rest ++ if decide (stream_of req = id) then [req] else []). split.
    + rewrite <- app_assoc. by case_decide.
    + intros _. repeat case_decide; try congruence. by rewrite app_nil_r.
Qed.

Lemma core_sched_scan w s :
  core cfg w -> w_sched w = SScan s -> core cfg (sched_scan_step cfg s w).
Proof.
  intros C Hs. unfold sched_scan_step.
  pose proof (schedule_section_spec cfg s (w_peer w) (co_peer _ _ C)) as Hsp.
  destruct (schedule_section cfg s (w_peer w)) as [[out s'] p'].
  destruct Hsp as (P & Hcl & He & Hresp & Hres & Hcorr & _ & _ & Hout).
  destruct out as [req| |gen].
  - destruct Hout as [Hop Hq]. pose proof (fun id r => queued_enqueued cfg w id r C) as Hqe.
    assert (req ∈ queue_of (stream_of req) (outb (w_peer w))) as Hin.
    { rewrite Hq, decide_True by done. left. }
    destruct C. split; cbn; rewrite ?Hcl, ?Hresp, ?Hres, ?Hcorr; try done.
    + intros t th Ht. specialize (co_thread0 t th Ht). unfold thread_ok in *. by rewrite Hres.
    + intros id. destruct (co_fifo0 id) as (rest & Hf & Hr). exists (queue_of id (outb p')).
      split; [|done]. unfold stream_reqs in *. rewrite Hf, (Hr Hop), Hq.
      rewrite filter_app, filter_cons, filter_nil, <- app_assoc. f_equal.
      repeat case_decide; congruence.
    + intros r [= <-]. split; [apply elem_of_app; right; by left|].
      by eapply pk_queued, Hin; apply co_peer0.
  - destruct Hout as [Hop Hq]. apply core_sched; [|done]. by apply core_peer_same.
  - destruct Hout as (Hop & Hq & _). apply core_sched; [|done]. by apply core_peer_same.
Qed.

Lemma core_reply w s req r m :
  core cfg w -> w_sched w = SReply s req r -> chan_send (req_id req) r (results (w_peer w)) = Some m ->
  core cfg (on_sched (match r with None => SScan s | Some e => SFail e end)
    (on_peer (set_results m (w_peer w)) w)).
Proof.
  intros C Hs Hsend. destruct (co_flight _ _ C req) as [Ht Hl]; [by rewrite Hs|].
  rewrite chan_send_empty in Hsend by done. injection Hsend as <-.
  change (core cfg (on_peer (set_results (<[req_id req:=[r]]> (results (w_peer w))) (w_peer w))
    (on_sched (match r with None => SScan s | Some e => SFail e end) w))).
  pose proof (flight_not_queued cfg w req) as Hnq. pose proof (taken_enqueued cfg w req C Ht) as He.
  assert (core cfg (on_sched (match r with None => SScan s | Some e => SFail e end) w)) as C'
    by (apply core_sched; [done|by destruct r]).
  apply core_peer; [done|..].
  - pose proof (pk_queued _ _ (co_peer _ _ C)) as Hk.
    destruct (co_peer _ _ C). split; cbn; try done. intros id q Hq.
    rewrite lookup_insert_ne; [by eapply Hk|]. intros Heq. by apply (Hnq id q C Ht Hq).
  - intros t. cbn. destruct (decide (req_id req = t)) as [<-|]; [right|left; by rewrite lookup_insert_ne].
    split; [|rewrite lookup_insert_eq; by eexists]. exists []. split; [done|]. right.
    split; [by apply list_elem_of_fmap_2|]. by destruct r.
  - intros t. by left.
  - intros id q Hq. by exists id, q.
  - done.
Qed.

Lemma core_pop_result w t r :
  core cfg w -> results (w_peer w) !! t = Some [r] ->
  core cfg (on_peer (set_results (<[t := []]> (results (w_peer w))) (w_peer w)) w).
Proof.
  intros C Ht. apply core_peer; [done|..].
  - pose proof (pk_queued _ _ (co_peer _ _ C)) as Hk.
    destruct (co_peer _ _ C). split; cbn; try done. intros id q Hq.
    rewrite lookup_insert. case_decide; [done|]. by eapply Hk.
  - intros t'. cbn. destruct (decide (t = t')) as [<-|]; [right|left; by rewrite lookup_insert_ne].
    split; [|rewrite lookup_insert_eq; by eexists]. exists [r]. split; [done|by left].
  - intros t'. by left.
  - intros id q Hq. by exists id, q.
  - done.
Qed.

Lemma responses_ok p m :
  peer_ok cfg p -> (forall id q, pending (corr p) !! id = Some q -> m !! pp_response q = Some []) ->
  peer_ok cfg (set_responses m p).
Proof. intros [] Hm. by split. Qed.

Lemma core_set_response w t l v :
  core cfg w -> responses (w_peer w) !! t = Some l ->
  (forall id q, pending (corr (w_peer w)) !! id = Some q -> pp_response q <> t) ->
  (forall f, w_serve w <> VDeliver t f) ->
  core cfg (on_peer (set_responses (<[t := v]> (responses (w_peer w))) (w_peer w)) w).
Proof.
  intros C Ht Hp Hd. apply core_peer; [done|..].
  - apply responses_ok; [apply C|]. intros id q Hq.
    rewrite lookup_insert_ne by (intros Heq; by eapply Hp). by eapply pk_pending, Hq; apply C.
  - intros t'. by left.
  - intros t'. cbn. destruct (decide (t = t')) as [<-|]; [right|left; by rewrite lookup_insert_ne].
    split; [by eexists|done].
  - intros id q Hq. by exists id, q.
  - done.
Qed.

Lemma core_pop_response w t r :
  core cfg w -> responses (w_peer w) !! t = Some [r] ->
  core cfg (on_peer (set_responses (<[t := []]> (responses (w_peer w))) (w_peer w)) w).
Proof.
  intros C Ht. eapply core_set_response; [done|exact Ht|..].
  - intros id q Hq <-. rewrite (pk_pending _ _ (co_peer _ _ C) _ _ Hq) in Ht. done.
  - intros f Hf. destruct (co_deliver _ _ C _ _ Hf). congruence.
Qed.

Lemma core_deliver_step w ch frame m :
  core cfg w -> w_serve w = VDeliver ch frame ->
  chan_send ch (mkResult (Some frame) None) (responses (w_peer w)) = Some m ->
  core cfg (on_serve VRead (on_peer (set_responses m (w_peer w)) w)).
Proof.
  intros C Hs Hsend. destruct (co_deliver _ _ C _ _ Hs) as [Hch Hne].
  rewrite chan_send_empty in Hsend by done. injection Hsend as <-.
  change (core cfg (on_peer (set_responses (<[ch:=[mkResult (Some frame) None]]>
    (responses (w_peer (on_serve VRead w)))) (w_peer (on_serve VRead w))) (on_serve VRead w))).
  eapply core_set_response; [by apply core_serve|exact Hch|exact Hne|done].
Qed.

Lemma reserve_section_shape ch p :
  let '(r, p') := reserve_section ch p in
  results p' = results p /\ outb p' = outb p /\ closed p' = closed p /\ inb p' = inb p /\
  handlers p' = handlers p /\ changed p' = changed p /\ perr p' = perr p /\
  match r with
  | inr _ => responses p' = responses p /\ pending (corr p') = pending (corr p)
  | inl id => closed p = false /\ responses p' = <[ch := []]> (responses p) /\
      pending (corr p') = <[id := mkPending 0 0 ch]> (pending (corr p)) /\
      pending (corr p) !! id = None
  end.
Proof.
  unfold reserve_section. destruct (closed p) eqn:Ecl; [cbn; by rewrite Ecl|].
  unfold reservePending. rewrite pos_until_nat.
  destruct (nat_until _ _ _) as [c|id] eqn:E; cbn; rewrite ?Ecl; [done|].
  apply reserve_found in E as (_ & Hp & _). done.
Qed.

Lemma core_call w ctx frame :
  core cfg w -> core cfg (on_fresh (call_start ctx frame (w_fresh w) w)).
Proof.
  intros C. unfold call_start. destruct (co_fresh _ _ C (w_fresh w)) as (Hth & Hresp & Hres); [lia|].
  assert (forall w' th, core cfg w' -> w_fresh w' = w_fresh w -> thread_ok cfg (w_peer w') (w_enqueued w')
    (w_fresh w) th -> core cfg (on_fresh (on_thread (w_fresh w) th w'))) as Hnew.
  { intros w' th C' Hf Ht. change (core cfg (on_thread (w_fresh w) th (on_fresh w'))).
    apply core_thread; [by apply core_on_fresh|cbn; lia|done]. }
  destruct (Call_check ctx frame); [by apply Hnew|].
  pose proof (reserve_section_shape (w_fresh w) (w_peer w)) as Hs.
  pose proof (reserve_section_ok cfg (w_fresh w) (w_peer w) (co_peer _ _ C) Hresp) as P.
  destruct (reserve_section (w_fresh w) (w_peer w)) as [[id|e] p].
  - destruct Hs as (H1 & H2 & H3 & _ & _ & _ & _ & Hop & H4 & H5 & _). cbn in P.
    assert (w_fresh w ∉ req_id <$> w_enqueued w) as Hni.
    { intros (r & Heq & Hr)%list_elem_of_fmap. specialize (co_enq_fresh _ _ C r Hr). lia. }
    destruct C. split; cbn; rewrite ?H1, ?H2, ?H3, ?H4, ?H5; try done.
    + intros t Ht. destruct (co_fresh0 t ltac:(lia)) as (? & ? & ?).
      rewrite !lookup_insert_ne by lia. done.
    + intros t th Ht. rewrite lookup_insert in Ht. case_decide; simplify_eq.
      * cbn. by rewrite H1.
      * specialize (co_thread0 t th Ht). unfold thread_ok in *. by rewrite H1.
    + intros r Hr. specialize (co_enq_fresh0 r Hr). lia.
    + intros ch f Hd. destruct (co_deliver0 ch f Hd) as [Hch Hne].
      assert (w_fresh w <> ch) by (intros Heq; rewrite Heq in Hresp; congruence).
      rewrite lookup_insert_ne by done. split; [done|]. intros i q Hq.
      rewrite lookup_insert in Hq. case_decide; simplify_eq; [done|]. by eapply Hne.
  - destruct Hs as (H1 & H2 & H3 & _ & _ & _ & _ & H4 & H5). apply Hnew; [|done|done].
    apply core_peer; [done|done|..].
    + intros t. left. by rewrite H1.
    + intros t. left. by rewrite H4.
    + intros i q Hq. rewrite H5 in Hq. by exists i, q.
    + by rewrite H2, H3.
Qed.

Lemma core_resolve w frame :
  core cfg w -> w_serve w = VResolve frame -> core cfg (resolve_step frame w).
Proof.
  intros C Hs. unfold resolve_step.
  pose proof (resolve_section_ok cfg frame (w_peer w) (co_peer _ _ C)) as P.
  unfold resolve_section in *. pose proof (resolve_pending frame (corr (w_peer w))) as Hp.
  destruct (resolve frame (corr (w_peer w))) as [[err c] deliver] eqn:E. cbn in *.
  assert (core cfg (on_peer (set_corr c (w_peer w)) w)) as C'.
  { apply core_peer_corr; [done..|]. intros id q Hq. exists id, q. by split; [apply Hp|]. }
  destruct err as [e|]; [by apply core_serve|]. destruct deliver as [ch|]; [|by apply core_serve].
  destruct C'. split; try done. cbn. intros ch' f [= <- <-].
  unfold resolve in E. destruct (pending _ !! _) as [q|] eqn:Eq.
  2: { destruct (canceled _ !! _); [destruct (answers _ _)|]; discriminate E. }
  destruct (answers frame q); [|discriminate E]. injection E as <- <-. cbn.
  split; [by eapply pk_pending, Eq; apply C|]. intros id r [Hne Hr]%lookup_delete_Some Heq.
  apply Hne. by eapply (ci_inj _ _ (pk_corr _ _ (co_peer _ _ C))).
Qed.

Lemma core_dispatch w frame waited :
  core cfg w -> core cfg (dispatch_step cfg frame waited w).
Proof.
  intros C. unfold dispatch_step.
  pose proof (dispatch_iteration_ok cfg frame waited (w_peer w) Hcfg (co_peer _ _ C)) as P.
  unfold dispatch_iteration in *. cbn in P.
  set (e := dispatch_section _ _ _ _ _ _ _) in *. cbn zeta.
  assert (core cfg (on_peer (set_counters (de_counters e) (set_inb (de_inbound e) (w_peer w))) w)) as C'
    by by apply core_peer_same.
  assert (forall k, core cfg (match de_spawn e with Some (id, ref) => on_workers (k id ref)
    (on_peer (set_counters (de_counters e) (set_inb (de_inbound e) (w_peer w))) w)
    | None => on_peer (set_counters (de_counters e) (set_inb (de_inbound e) (w_peer w))) w end)) as Hk.
  { intros k. destruct (de_spawn e) as [[id ref]|]; auto with mux. }
  destruct (de_out e) as [[err|]|]; try apply core_log_accepted; apply core_serve; try done;
    apply (Hk (fun id ref => <[ref := (id, KLoop)]> (w_workers w))).
Qed.
End core_step.

(** ** What each step leaves alone *)

Lemma fail_frame e p p' :
  fail e p = Some p' ->
  inb p' = inb p /\ handlers p' = handlers p /\ counters p' = counters p /\ closed p' = true /\
  (changed p <= changed p')%N /\ perr p' = (if closed p then perr p else Some e).
Proof.
  unfold fail. destruct (closed p) eqn:E; [intros [= <-]; split_and!; (done || lia)|].
  intros (m & _ & Hf)%bind_Some. apply bind_Some in Hf as (m' & _ & [= <-]).
  cbn. split_and!; (done || lia).
Qed.

Ltac step_unfold :=
  unfold call_start, call_fill_step, send_begin_step, send_loop_step, sched_scan_step,
    sched_sent_step, resolve_step in *;
  unfold reserve_section, send_begin, send_section, schedule_section, resolve_section in *;
  repeat case_match; simplify_eq; cbn in *.

(** The inbound queues and workers change in [dispatch] and [runInbound] only. *)
Definition inbound_kept (w w' : World) : Prop :=
  inb (w_peer w') = inb (w_peer w) /\ w_accepted w' = w_accepted w /\ w_handled w' = w_handled w /\
  (forall ref id pc, w_workers w' !! ref = Some (id, pc) -> exists pc', w_workers w !! ref = Some (id, pc')) /\
  (closed (w_peer w') = false -> closed (w_peer w) = false /\
     forall ref, is_Some (w_workers w !! ref) -> is_Some (w_workers w' !! ref)).

Lemma inbound_kept_refl w w' :
  inb (w_peer w') = inb (w_peer w) -> w_accepted w' = w_accepted w -> w_handled w' = w_handled w ->
  w_workers w' = w_workers w -> (closed (w_peer w') = false -> closed (w_peer w) = false) ->
  inbound_kept w w'.
Proof.
  intros H1 H2 H3 H4 H5. split_and!; try done; rewrite H4.
  - intros ref id pc. by exists pc.
  - by split; [apply H5|].
Qed.

Lemma inbound_kept_worker w p ref id pc pc' :
  inb p = inb (w_peer w) -> closed p = closed (w_peer w) -> w_workers w !! ref = Some (id, pc) ->
  inbound_kept w (on_workers (<[ref := (id, pc')]> (w_workers w)) (on_peer p w)).
Proof.
  intros H1 H2 Hw. split_and!; cbn; rewrite ?H1, ?H2; try done.
  - intros r i k Hr. rewrite lookup_insert in Hr. case_decide; simplify_eq; by eexists.
  - split; [done|]. intros r Hr. rewrite lookup_insert. case_decide; [by eexists|done].
Qed.

Lemma step_inbound cfg w w' :
  step cfg w w' ->
  inbound_kept w w' \/
  (exists frame waited, w_serve w = VDispatch frame waited /\ w' = dispatch_step cfg frame waited w) \/
  (exists id ref, w_workers w !! ref = Some (id, KLoop) /\ w' = worker_step id ref w).
Proof.
  destruct 1;
    try (match goal with H : w_workers _ !! _ = Some (_, KLoop) |- _ => right; right; by eexists _, _ end);
    try (match goal with H : w_serve _ = VDispatch _ _ |- _ => right; left; by eexists _, _ end);
    left;
    try (match goal with H : fail _ _ = Some _ |- _ => apply fail_frame in H as (? & _ & _ & Hcl & _ & _) end);
    try (step_unfold; apply inbound_kept_refl; cbn; congruence).
  - by eapply (inbound_kept_worker w (w_peer w)).
  - by eapply (inbound_kept_worker w (record_protocol_error (w_peer w))).
  - split_and!; cbn; try done; [|congruence]. intros r i pc [_ Hr]%lookup_delete_Some. by exists pc.
Qed.

(** ** Workers and inbound order *)

(** The spawned worker is that of the stream just made. *)
Lemma dispatch_spawn cfg h closed frame waited i c :
  let e := dispatch_section cfg h closed frame waited i c in
  (forall id ref, inbound i !! id = Some ref -> inbound (de_inbound e) !! id = Some ref) /\
  (forall id ref, inbound (de_inbound e) !! id = Some ref ->
     inbound i !! id = Some ref \/ de_spawn e = Some (id, ref)) /\
  (forall id ref, de_spawn e = Some (id, ref) -> inbound (de_inbound e) !! id = Some ref /\
     ref = in_next i).
Proof.
  cbv zeta. unfold dispatch_section. destruct closed; [cbn; split_and!; (done || by left)|].
  destruct (h !! _); [|cbn; split_and!; (done || by left)].
  destruct (inbound i !! _) as [r|] eqn:Er.
  - repeat case_match; cbn; split_and!; (done || by left).
  - destruct (MaxActiveStreams cfg <=? _); [cbn; split_and!; (done || by left)|].
    assert (forall j : Inbound, inbound j = inbound (new_state (StreamID (FHeader frame)) i) ->
      (forall id ref, inbound i !! id = Some ref -> inbound j !! id = Some ref) /\
      (forall id ref, inbound j !! id = Some ref ->
        inbound i !! id = Some ref \/ Some (StreamID (FHeader frame), in_next i) = Some (id, ref)) /\
      (forall id ref, Some (StreamID (FHeader frame), in_next i) = Some (id, ref) ->
        inbound j !! id = Some ref /\ ref = in_next i)) as Hj.
    { intros j ->. cbn. split_and!.
      - intros id ref Hid. rewrite lookup_insert_ne; [done|]. intros <-. congruence.
      - intros id ref Hid. rewrite lookup_insert in Hid. case_decide; simplify_eq; tauto.
      - intros id ref [= <- <-]. by rewrite lookup_insert_eq. }
    repeat case_match; first [exact (Hj (new_state _ i) eq_refl)|exact (Hj (set_state _ _ (new_state _ i)) eq_refl)].
Qed.

Definition workers_ok (w : World) : Prop :=
  forall ref id pc, w_workers w !! ref = Some (id, pc) -> inbound (inb (w_peer w)) !! id = Some ref.

Lemma workers_ok_step cfg w w' : step cfg w w' -> workers_ok w -> workers_ok w'.
Proof.
  intros [(Hi & _ & _ & Hw & _)|[(frame & waited & Hs & ->)|(id & ref & Hk & ->)]]%step_inbound Hok.
  - intros ref id pc Hr. rewrite Hi. destruct (Hw _ _ _ Hr) as [pc' Hr']. by eapply Hok.
  - intros r i pc. unfold dispatch_step, dispatch_iteration.
    pose proof (dispatch_spawn cfg (handlers (w_peer w))
      (if closed (w_peer w) then Some (result (w_peer w)) else None) frame waited (inb (w_peer w))
      (counters (w_peer w))) as (H1 & _ & H3).
    set (e := dispatch_section _ _ _ _ _ _ _) in *. cbv zeta in *.
    destruct (de_spawn e) as [[id ref]|], (de_out e) as [[?|]|]; cbn; intros Hr;
      try (apply H1; by eapply Hok);
      (rewrite lookup_insert in Hr; case_decide; simplify_eq; [by apply H3|apply H1; by eapply Hok]).
  - intros r i pc. unfold worker_step, worker_iteration, worker_section.
    destruct (is_frames (in_state ref (inb (w_peer w)))); cbn.
    + rewrite bool_decide_true by by eapply Hok. cbn. intros [Hne Hr]%lookup_delete_Some.
      rewrite lookup_delete_ne; [by eapply Hok|]. intros <-.
      apply Hne. assert (Some r = Some ref) by (rewrite <- (Hok _ _ _ Hr); by eapply Hok). congruence.
    + destruct (handlers _ !! _); cbn; intros Hr; rewrite lookup_insert in Hr;
        case_decide; simplify_eq; by eapply Hok.
Qed.

Section reachable.
Context (cfg : PeerConfig) (Hcfg : peer_config_ok cfg).

Lemma core_worker w id ref :
  core cfg w -> workers_ok w -> w_workers w !! ref = Some (id, KLoop) -> core cfg (worker_step id ref w).
Proof.
  intros C Hok Hk. unfold worker_step.
  pose proof (worker_iteration_ok cfg id ref (w_peer w) (co_peer _ _ C) (Hok _ _ _ Hk)) as P.
  unfold worker_iteration in *. destruct (worker_section _ _ _ _) as [[[frame [h|]]|] i]; cbn in P;
    try apply core_log_handled; apply core_workers; by apply core_peer_same.
Qed.

Lemma core_counters w c : core cfg w -> core cfg (on_peer (set_counters c (w_peer w)) w).
Proof. intros C. apply core_peer_same; try done. apply set_counters_ok, C. Qed.

Lemma core_step w w' : workers_ok w -> core cfg w -> step cfg w w' -> core cfg w'.
Proof.
  intros Hok C. destruct 1;
    repeat match goal with
    | H : w_threads _ !! _ = Some _ |- _ =>
        pose proof (core_thread_lt _ _ _ _ C H); pose proof (co_thread _ _ C _ _ H); revert H
    end; intros.
  - apply core_peer_same; try done. apply set_handlers_ok, C.
  - change (core cfg (on_thread (w_fresh w) (TBegin None ctx frame class) (on_fresh w))).
    destruct (co_fresh _ _ C (w_fresh w)) as (? & ? & ?); [lia|].
    apply core_thread; [by apply core_on_fresh|cbn; lia|split; [done|]].
    intros (r & Heq & Hr)%list_elem_of_fmap. specialize (co_enq_fresh _ _ C r Hr). lia.
  - by apply core_call.
  - unfold call_fill_step. destruct (call_fill _ _ _ _) as [c|] eqn:Ef; [|by apply core_on_locked, core_thread].
    apply core_thread; [|done..]. apply core_peer_corr; [done|by eapply call_fill_ok; [apply C|]|].
    unfold call_fill in Ef. apply bind_Some in Ef as (q & Hq & [= <-]). cbn.
    intros i r Hr. rewrite lookup_insert in Hr. case_decide; simplify_eq; by eexists _, _.
  - by apply core_send_begin.
  - by apply core_send_loop.
  - by apply core_thread.
  - by apply core_thread.
  - by apply core_thread.
  - apply core_thread; [by eapply core_pop_result|done..].
  - by apply core_thread.
  - by apply core_thread.
  - by apply core_thread.
  - by apply core_thread.
  - apply core_thread; [by eapply core_pop_response|done..].
  - by apply core_thread.
  - by apply core_thread.
  - apply core_thread; [|done..]. apply core_peer_corr; [done|by apply abandon_ok, C|].
    intros i q Hq. exists i, q. split; [|done]. by eapply abandon_pending_sub.
  - by apply core_sched_scan.
  - by apply core_sched.
  - by apply core_sched.
  - pose proof (co_flight _ _ C req) as Hf. rewrite H in Hf. specialize (Hf eq_refl).
    unfold sched_sent_step. destruct r; [|apply core_log_written];
      (apply core_sched; [done|]); by intros ? [= <-].
  - pose proof (co_flight _ _ C req) as Hf. rewrite H in Hf. specialize (Hf eq_refl).
    apply core_sched; [by apply core_counters|]. by intros ? [= <-].
  - by eapply core_reply.
  - apply core_sched; [by eapply core_fail|done].
  - by apply core_serve.
  - by apply core_log_read, core_serve.
  - apply core_serve; [done|]. by destruct (isPeerProtocolError e).
  - apply core_serve; [by apply core_counters|]. by destruct (_ =? _).
  - by apply core_resolve.
  - by eapply core_deliver_step.
  - by apply core_dispatch.
  - by apply core_serve.
  - by apply core_serve.
  - apply core_serve; [by apply core_counters|done].
  - apply core_serve; [by eapply core_fail|done].
  - by apply core_worker.
  - by apply core_workers.
  - apply core_workers. by apply core_counters.
  - apply core_workers. by eapply core_fail.
  - by eapply core_fail.
Qed.

Lemma reachable_core w : reachable cfg w -> core cfg w /\ workers_ok w.
Proof.
  induction 1 as [|w w' _ [IH Hok] Hs].
  - split; [by apply initial_core|]. intros ref id pc. cbn. by rewrite lookup_empty.
  - split; [by eapply core_step|by eapply workers_ok_step].
Qed.
End reachable.

(** ** Outbound order and results *)

(** How far the scheduler is with the requests it took. *)
Definition sched_history (w : World) : Prop :=
  match w_sched w with
  | SScan _ | SWaiting _ _ | SRecord _ _ | SReply _ _ None => w_taken w = w_written w
  | SSending _ r | SReply _ r (Some _) => w_taken w = w_written w ++ [r]
  | SFail _ | SDone => w_written w `prefix_of` w_taken w
  end.

Definition written (w : World) (t : N) : Prop := t ∈ req_id <$> w_written w.

(** A nil result is that of a request whose SendOwned returned nil. *)
Record sent_ok (w : World) : Prop := {
  so_history : sched_history w;
  so_flight s req : w_sched w = SRecord s req \/ w_sched w = SReply s req None -> req ∈ w_written w;
  so_results t : results (w_peer w) !! t = Some [None] -> written w t;
  so_thread t call : w_threads w !! t = Some (TSent call None) -> written w t;
}.

(** The scheduler and its log are untouched, no thread has a new nil result, and
    no result channel a new nil. *)
Lemma sent_ok_kept w w' :
  sent_ok w -> w_sched w' = w_sched w -> w_taken w' = w_taken w -> w_written w' = w_written w ->
  (forall t, results (w_peer w') !! t = Some [None] -> results (w_peer w) !! t = Some [None]) ->
  (forall t call, w_threads w' !! t = Some (TSent call None) ->
     w_threads w !! t = Some (TSent call None) \/ results (w_peer w) !! t = Some [None]) ->
  sent_ok w'.
Proof.
  intros [H1 H2 H3 H4] E1 E2 E3 Hr Ht. unfold sched_history, written in *.
  split; unfold sched_history, written; rewrite ?E1, ?E2, ?E3; auto.
  intros t call Hl. destruct (Ht _ _ Hl); eauto.
Qed.

Lemma chan_sends_other {A} chs (v : A) m m' t x :
  chan_sends chs v m = Some m' -> m' !! t = Some x -> x = [v] \/ m !! t = Some x.
Proof.
  revert m. induction chs as [|ch chs IH]; intros m; cbn; [intros [= <-]; by right|].
  intros (m1 & Hm1 & Hs)%bind_Some Hx. unfold chan_send in Hm1.
  destruct (m !! ch) as [[|]|]; try done. injection Hm1 as <-.
  destruct (IH _ Hs Hx) as [|H1]; [by left|]. rewrite lookup_insert in H1.
  case_decide; [left; congruence|by right].
Qed.

Lemma fail_results e p p' t :
  fail e p = Some p' -> results p' !! t = Some [None] -> results p !! t = Some [None].
Proof.
  unfold fail. destruct (closed p); [by intros [= <-]|].
  intros (m & _ & Hf)%bind_Some. apply bind_Some in Hf as (m' & Hm & [= <-]). cbn.
  intros Ht. by destruct (chan_sends_other _ _ _ _ _ _ Hm Ht).
Qed.

Lemma fail_responses e p p' t f :
  fail e p = Some p' -> responses p' !! t = Some [f] -> pr_frame f <> None -> responses p !! t = Some [f].
Proof.
  unfold fail. destruct (closed p); [by intros [= <-]|].
  intros (m & Hm & Hf)%bind_Some. apply bind_Some in Hf as (m' & _ & [= <-]). cbn.
  intros Ht Hne. destruct (chan_sends_other _ _ _ _ _ _ Hm Ht) as [[= ->]|]; done.
Qed.

Ltac step_all :=
  unfold call_start, call_fill_step, send_begin_step, send_loop_step, sched_scan_step,
    sched_sent_step, resolve_step, dispatch_step, dispatch_iteration, worker_step,
    worker_iteration, reserve_section, send_begin, send_section, schedule_section,
    resolve_section in *;
  repeat case_match; simplify_eq.

Ltac insert_cases :=
  intros; repeat match goal with
  | H : <[?i := _]> _ !! ?j = Some _ |- _ => rewrite (lookup_insert _ i j) in H; case_decide; simplify_eq
  end.

Lemma sent_ok_fail w w' e p :
  fail e (w_peer w) = Some p -> w_peer w' = p -> w_sched w' = w_sched w -> w_taken w' = w_taken w ->
  w_written w' = w_written w -> w_threads w' = w_threads w -> sent_ok w -> sent_ok w'.
Proof.
  intros Hf <- E1 E2 E3 E4 S. apply (sent_ok_kept w); try done; rewrite ?E4; [|by left].
  intros t. by eapply fail_results.
Qed.

Lemma sent_ok_sched w s :
  sent_ok w -> sched_history (on_sched s w) ->
  (forall s' req, s = SRecord s' req \/ s = SReply s' req None -> req ∈ w_written w) ->
  sent_ok (on_sched s w).
Proof. intros [] Hh Hf. by split. Qed.

Lemma sent_ok_step cfg w w' : step cfg w w' -> sent_ok w -> sent_ok w'.
Proof.
  intros Hs S. pose proof (so_history _ S) as Hh. unfold sched_history in Hh. destruct Hs;
    try (step_all; apply (sent_ok_kept w); cbn; try done; insert_cases; eauto; fail);
    try (by eapply sent_ok_fail);
    match goal with H : w_sched _ = _ |- _ => rewrite H in Hh end.
  - unfold sched_scan_step, schedule_section.
    destruct (scan _ _ _) as [[[req|] s'] o]; [|destruct (closed _)].
    all: split; unfold sched_history; cbn; try apply S; try done; try by intros ? ? [].
    + by rewrite Hh.
    + by rewrite Hh.
  - apply sent_ok_sched; [done|exact Hh|]. by intros ? ? [].
  - apply sent_ok_sched; [done| |by intros ? ? []]. unfold sched_history; cbn. by rewrite Hh.
  - unfold sched_sent_step. destruct r as [e|].
    + apply sent_ok_sched; [done|exact Hh|]. by intros ? ? [].
    + destruct S. split; cbn; try done.
      * intros s' req' [[= <- <-]|?]; [|done]. apply elem_of_app. right. by left.
      * intros t Ht. unfold written; cbn. rewrite fmap_app. apply elem_of_app. left. by apply so_results0.
      * intros t call Ht. unfold written; cbn. rewrite fmap_app. apply elem_of_app. left. by eapply so_thread0.
  - pose proof (so_flight _ S s req ltac:(by left)) as Hw. destruct S. split; cbn; try done.
    by intros s' req' [?|[= <- <-]].
  - assert (results (set_results m (w_peer w)) = m) as Hm by done.
    unfold chan_send in H0. destruct (results (w_peer w) !! req_id req) as [[|]|]; try done.
    injection H0 as <-. assert (r = None -> req ∈ w_written w) as Hw.
    { intros ->. eapply so_flight; [done|]. by right. }
    destruct S. split; cbn; try done.
    + unfold sched_history; cbn. destruct r; [|done]. rewrite Hh. by apply prefix_app_r.
    + intros s' req'. destruct r; by intros [].
    + intros t Ht. rewrite lookup_insert in Ht. case_decide; [|by apply so_results0].
      simplify_eq. unfold written; cbn. by apply list_elem_of_fmap_2, Hw.
  - eapply (sent_ok_fail (on_sched SDone w)); try done. apply sent_ok_sched; [done|exact Hh|].
    by intros ? ? [].
Qed.

Lemma sent_ok_initial : sent_ok initial_world.
Proof. split; cbn; try done; try (intros *; by rewrite lookup_empty). by intros ? ? []. Qed.

Lemma reachable_sent_ok cfg w : reachable cfg w -> sent_ok w.
Proof. induction 1; [apply sent_ok_initial|by eapply sent_ok_step]. Qed.

(** ** Replies *)

(** Frame [f] is a response that was read and that answers the call of [t]. *)
Definition reply_ok (w : World) (t : N) (f : Frame) : Prop :=
  exists q, w_calls w !! t = Some q /\ f ∈ w_read w /\ Flags (FHeader f) = FlagResponse /\
    CorrelationID (FHeader f) = CorrelationID (FHeader q) /\
    MessageType (FHeader f) = MessageType (FHeader q) /\ StreamID (FHeader f) = StreamID (FHeader q).

Definition outstanding_id (c : Corr) (id : Z) : Prop :=
  is_Some (pending c !! id) \/ is_Some (canceled c !! id).

(** The invariant of a run with fewer than 2^64 calls, where the correlation
    counter does not wrap. *)
Record replies (w : World) : Prop := {
  rp_next : 0 <= next (corr (w_peer w)) <= Z.of_N (w_fresh w);
  rp_ids id : outstanding_id (corr (w_peer w)) id -> id <= next (corr (w_peer w));
  rp_calls t q : w_calls w !! t = Some q ->
    CorrelationID (FHeader q) <= next (corr (w_peer w)) /\ (t < w_fresh w)%N;
  rp_inj t u q r : w_calls w !! t = Some q -> w_calls w !! u = Some r ->
    CorrelationID (FHeader q) = CorrelationID (FHeader r) -> t = u;
  rp_pending id p : pending (corr (w_peer w)) !! id = Some p ->
    exists q, w_calls w !! pp_response p = Some q /\ CorrelationID (FHeader q) = id /\
      (pp_messageType p = 0 \/
       pp_messageType p = MessageType (FHeader q) /\ pp_streamID p = StreamID (FHeader q));
  rp_fill t id ctx f : w_threads w !! t = Some (TFill id ctx f) ->
    w_calls w !! t = Some f /\ CorrelationID (FHeader f) = id;
  rp_serve :
    match w_serve w with
    | VRecord f => f ∈ w_read w /\ MessageType (FHeader f) <> 0
    | VResolve f => f ∈ w_read w /\ MessageType (FHeader f) <> 0 /\ Flags (FHeader f) = FlagResponse
    | VDeliver ch f => reply_ok w ch f
    | _ => True
    end;
  rp_responses t v f : responses (w_peer w) !! t = Some [v] -> pr_frame v = Some f ->
    pr_err v = None /\ reply_ok w t f;
  rp_return t v f : w_threads w !! t = Some (TReturn v) -> pr_frame v = Some f ->
    pr_err v = None /\ reply_ok w t f;
}.

Lemma replies_kept w w' :
  replies w -> (w_fresh w <= w_fresh w')%N ->
  next (corr (w_peer w')) = next (corr (w_peer w)) ->
  (forall id, outstanding_id (corr (w_peer w')) id -> outstanding_id (corr (w_peer w)) id) ->
  (forall id p, pending (corr (w_peer w')) !! id = Some p -> pending (corr (w_peer w)) !! id = Some p) ->
  w_calls w' = w_calls w -> w_read w' = w_read w ->
  (w_serve w' = w_serve w \/
    match w_serve w' with VRecord _ | VResolve _ | VDeliver _ _ => False | _ => True end) ->
  (forall t id ctx f, w_threads w' !! t = Some (TFill id ctx f) -> w_threads w !! t = Some (TFill id ctx f)) ->
  (forall t v, responses (w_peer w') !! t = Some [v] -> pr_frame v <> None ->
     responses (w_peer w) !! t = Some [v]) ->
  (forall t v, w_threads w' !! t = Some (TReturn v) -> pr_frame v <> None ->
     w_threads w !! t = Some (TReturn v) \/ responses (w_peer w) !! t = Some [v]) ->
  replies w'.
Proof.
  intros [] Hf Hn Ho Hp Hc Hr Hs Ht Hresp Hret.
  assert (forall t f, reply_ok w t f -> reply_ok w' t f) as Hok
    by (intros t f; unfold reply_ok; by rewrite Hc, Hr).
  split; rewrite ?Hn, ?Hc, ?Hr; try (by eauto).
  - lia.
  - intros t q Hq. destruct (rp_calls0 t q Hq). split; [done|lia].
  - destruct Hs as [->|Hs]; [|by destruct (w_serve w')]. destruct (w_serve w); auto.
  - intros t v f Hv Hfr. destruct (rp_responses0 t v f) as [? ?]; [apply Hresp; congruence|done|eauto].
  - intros t v f Hv Hfr. destruct (Hret t v Hv ltac:(congruence)) as [H1|H1].
    + destruct (rp_return0 t v f H1 Hfr). eauto.
    + destruct (rp_responses0 t v f H1 Hfr). eauto.
Qed.

Lemma replies_fail w w' e p :
  fail e (w_peer w) = Some p -> replies w -> w_peer w' = p -> w_fresh w' = w_fresh w ->
  w_calls w' = w_calls w -> w_read w' = w_read w -> w_threads w' = w_threads w ->
  (w_serve w' = w_serve w \/ w_serve w' = VDone) -> replies w'.
Proof.
  intros Hf R E1 E2 E3 E4 E5 E6.
  assert (next (corr p) = next (corr (w_peer w)) /\
    ((corr p) = corr (w_peer w) \/ pending (corr p) = ∅ /\ canceled (corr p) = ∅)) as [Hn Hc].
  { unfold fail in Hf. destruct (closed _); [injection Hf as <-; by split; [|left]|].
    apply bind_Some in Hf as (m & _ & Hf). apply bind_Some in Hf as (m' & _ & [= <-]). by split; [|right]. }
  apply (replies_kept w); try done; rewrite ?E1, ?E2, ?E5; try done.
  - destruct Hc as [->|[H1 H2]]; [done|]. unfold outstanding_id. rewrite H1, H2. intros id.
    rewrite !lookup_empty. by intros [[? ?]|[? ?]].
  - destruct Hc as [->|[H1 H2]]; [done|]. rewrite H1. intros id q. by rewrite lookup_empty.
  - destruct E6 as [E6|E6]; [by left|right; by rewrite E6].
  - intros t v Hv Hne. by eapply fail_responses.
  - intros t v. by left.
Qed.

Lemma reservePending_next ch c :
  0 <= next c < 2 ^ 64 - 1 -> (forall id, outstanding_id c id -> id <= next c) ->
  reservePending ch c = (inl (next c + 1),
    mkCorr (<[next c + 1 := mkPending 0 0 ch]> (pending c)) (canceled c) (canceledOrder c) (next c + 1)).
Proof.
  intros Hn Ho. unfold reservePending. rewrite pos_until_nat.
  destruct (Pos.to_nat (Z.to_pos MaxUint64)) eqn:E; [lia|]. cbn [nat_until].
  unfold reserve_attempt. rewrite uwrap_small by (unfold fits_u; lia).
  rewrite (proj2 (Z.eqb_neq _ _)) by lia. rewrite !bool_decide_true; [done|..].
  - destruct (canceled c !! (next c + 1)) eqn:Ec; [|done].
    specialize (Ho (next c + 1) ltac:(right; rewrite Ec; by eexists)). lia.
  - destruct (pending c !! (next c + 1)) eqn:Ec; [|done].
    specialize (Ho (next c + 1) ltac:(left; rewrite Ec; by eexists)). lia.
Qed.

Lemma replies_call cfg w ctx frame :
  core cfg w -> replies w -> Z.of_N (w_fresh w) < 2 ^ 64 - 1 ->
  replies (on_fresh (call_start ctx frame (w_fresh w) w)).
Proof.
  intros C R Hlt. destruct (co_fresh _ _ C (w_fresh w)) as (Hth & Hresp & _); [lia|].
  unfold call_start. destruct (Call_check ctx frame).
  { apply (replies_kept w); cbn; try done; [lia|by left|..]; insert_cases; auto. }
  unfold reserve_section. destruct (closed (w_peer w)).
  { apply (replies_kept w); cbn; try done; [lia|by left|..]; insert_cases; auto. }
  rewrite reservePending_next; [|destruct R; lia|apply R].
  assert (w_calls w !! w_fresh w = None) as Hnc.
  { destruct (w_calls w !! w_fresh w) as [q|] eqn:Eq; [|done].
    destruct (rp_calls _ R _ _ Eq). lia. }
  set (id := next (corr (w_peer w)) + 1). set (f0 := with_correlation id frame).
  set (w' := on_fresh _).
  assert (forall ch f, reply_ok w ch f -> reply_ok w' ch f) as Hok.
  { intros ch f (q & Hq & Hrest). exists q. split; [|done]. cbn.
    rewrite lookup_insert_ne; [done|]. intros Heq. rewrite Heq in Hnc. congruence. }
  destruct R. split; cbn.
  - lia.
  - intros i [Hp|Hc]; [|specialize (rp_ids0 i ltac:(by right)); lia]. cbn in Hp.
    rewrite lookup_insert in Hp. case_decide; [lia|]. specialize (rp_ids0 i ltac:(by left)). lia.
  - intros t q Hq. rewrite lookup_insert in Hq. case_decide; simplify_eq; cbn; [lia|].
    destruct (rp_calls0 _ _ Hq). lia.
  - intros t u q r Hq Hr. rewrite lookup_insert in Hq, Hr. repeat case_decide; simplify_eq; cbn; try done; intros Heq;
      first [by eauto|exfalso; match goal with H : w_calls w !! _ = Some _ |- _ =>
        destruct (rp_calls0 _ _ H); cbn in Heq; lia end].
  - intros i p Hp. rewrite lookup_insert in Hp. case_decide; simplify_eq; cbn.
    + rewrite lookup_insert_eq. eexists. split; [done|]. split; [done|by left].
    + destruct (rp_pending0 i p Hp) as (q & Hq & ?). exists q. split; [|done].
      rewrite lookup_insert_ne; [done|]. intros Heq.
      pose proof (pk_pending _ _ (co_peer _ _ C) _ _ Hp) as Hpp. rewrite <- Heq in Hpp. congruence.
  - intros t i c f Ht. rewrite lookup_insert in Ht. rewrite lookup_insert.
    case_decide; simplify_eq; [done|by eauto].
  - destruct (w_serve w); auto.
  - intros t v f Hv Hfr. rewrite lookup_insert in Hv. case_decide; [done|].
    destruct (rp_responses0 t v f Hv Hfr). auto.
  - intros t v f Hv Hfr. rewrite lookup_insert in Hv. case_decide; [done|].
    destruct (rp_return0 t v f Hv Hfr). auto.
Qed.

Lemma replies_fill w t id ctx frame :
  replies w -> w_threads w !! t = Some (TFill id ctx frame) -> replies (call_fill_step t id ctx frame w).
Proof.
  intros R Ht. unfold call_fill_step. destruct (call_fill _ _ _ _) as [c|] eqn:Ef.
  2: { apply (replies_kept w); cbn; try done; [by left|..]; insert_cases; auto. }
  unfold call_fill in Ef. apply bind_Some in Ef as (p & Hp & [= <-]).
  destruct (rp_fill _ R _ _ _ _ Ht) as [Hcall Hid].
  destruct (rp_pending _ R _ _ Hp) as (q & Hq & Hqid & _).
  assert (pp_response p = t) as Heq by (eapply (rp_inj _ R); [done..|congruence]).
  destruct R. split; cbn; try done.
  - intros i Hi. apply rp_ids0. unfold outstanding_id in *. cbn in Hi.
    rewrite lookup_insert in Hi. case_decide; [subst; left; by eexists|done].
  - intros i r Hr. rewrite lookup_insert in Hr. case_decide; simplify_eq; cbn; [|by eauto].
    exists frame. split; [done|]. split; [done|]. by right.
  - insert_cases. by eauto.
  - insert_cases. by eauto.
Qed.

Lemma replies_resolve w frame :
  replies w -> w_serve w = VResolve frame -> replies (resolve_step frame w).
Proof.
  intros R Hs. pose proof (rp_serve _ R) as Hv. rewrite Hs in Hv. destruct Hv as (Hread & Hmt & Hfl).
  unfold resolve_step, resolve_section. pose proof (resolve_pending frame (corr (w_peer w))) as Hp.
  assert (next (resolve frame (corr (w_peer w))).1.2 = next (corr (w_peer w)) /\
    forall id, is_Some (canceled (resolve frame (corr (w_peer w))).1.2 !! id) ->
      is_Some (canceled (corr (w_peer w)) !! id)) as [Hn Hc].
  { unfold resolve. repeat case_match; cbn; try done. split; [done|].
    intros i [x [_ Hx]%lookup_delete_Some]. by eexists. }
  assert (forall ch, (resolve frame (corr (w_peer w))).2 = Some ch -> reply_ok w ch frame) as Hd.
  { unfold resolve. destruct (pending _ !! _) as [q|] eqn:Eq.
    2: { destruct (canceled _ !! _); [destruct (answers _ _)|]; done. }
    destruct (answers frame q) eqn:Ea; [|done]. intros ch [= <-].
    destruct (rp_pending _ R _ _ Eq) as (f & Hf & Hid & Hty). unfold answers in Ea. reflect_bools.
    exists f. split_and!; try done; destruct Hty as [|[? ?]]; congruence. }
  destruct (resolve frame (corr (w_peer w))) as [[err c] deliver] eqn:E. cbn in *.
  assert (replies (on_serve VRead (on_peer (set_corr c (w_peer w)) w))) as R'.
  { apply (replies_kept w); cbn; try done; [|by right|..]; auto.
    intros id [[q Hq]|Hq]; [left; exists q; by apply Hp|right; by apply Hc]. }
  destruct R'. destruct err; [|destruct deliver as [ch|]]; split; cbn; try done. by apply Hd.
Qed.

Lemma replies_deliver cfg w ch frame m :
  core cfg w -> replies w -> w_serve w = VDeliver ch frame ->
  chan_send ch (mkResult (Some frame) None) (responses (w_peer w)) = Some m ->
  replies (on_serve VRead (on_peer (set_responses m (w_peer w)) w)).
Proof.
  intros C R Hs Hsend. destruct (co_deliver _ _ C _ _ Hs) as [Hch _].
  rewrite chan_send_empty in Hsend by done. injection Hsend as <-.
  pose proof (rp_serve _ R) as Hv. rewrite Hs in Hv. destruct R. split; cbn; try done.
  intros t v f Ht Hf. rewrite lookup_insert in Ht. case_decide; simplify_eq; cbn in *; [|by eauto].
  by simplify_eq.
Qed.

Lemma replies_step cfg w w' :
  core cfg w -> step cfg w w' -> Z.of_N (w_fresh w') < 2 ^ 64 -> replies w -> replies w'.
Proof.
  intros C Hs Hlt R. destruct Hs;
    try (by eapply replies_fail; eauto);
    try (step_all; apply (replies_kept w); cbn; try done; insert_cases; eauto; lia).
  - apply (replies_call cfg); [done..|]. cbn in Hlt.
    unfold call_start in Hlt. destruct (Call_check _ _); [|destruct (reserve_section _ _) as [[?|?] ?]];
      cbn in Hlt; lia.
  - by apply replies_fill.
  - apply (replies_kept w); cbn; try done; [| | |by left|insert_cases; by auto|insert_cases; by auto].
    + unfold abandonPending. by repeat case_match.
    + intros i [[q Hq]|Hq]; [left; exists q; by eapply abandon_pending_sub|].
      unfold abandonPending in Hq. destruct (pending (corr (w_peer w)) !! id) as [q|] eqn:Eq; [|by right].
      assert (is_Some (<[id:=q]> (canceled (corr (w_peer w))) !! i) -> outstanding_id (corr (w_peer w)) i)
        as Hin by (rewrite lookup_insert; case_decide; [subst; left; by eexists|by right]).
      destruct (_ <? _); [|by apply Hin]. destruct (_ ++ _); [by apply Hin|]. cbn in Hq. apply Hin.
      destruct Hq as [x [_ Hx]%lookup_delete_Some]. by eexists.
    + intros i q. apply abandon_pending_sub.
  - destruct R. split; cbn; try done.
    + split; [|done]. apply elem_of_app. right. by left.
    + intros t v f Hv Hf. destruct (rp_responses0 t v f Hv Hf) as (? & q & ? & ? & ?). split; [done|].
      exists q. split; [done|]. split; [apply elem_of_app; by left|done].
    + intros t v f Hv Hf. destruct (rp_return0 t v f Hv Hf) as (? & q & ? & ? & ?). split; [done|].
      exists q. split; [done|]. split; [apply elem_of_app; by left|done].
  - pose proof (rp_serve _ R) as Hv. rewrite H in Hv. destruct R. split; cbn; try done.
    destruct (Z.eqb_spec (Flags (FHeader frame)) FlagResponse); [|done]. tauto.
  - by apply replies_resolve.
  - by eapply replies_deliver.
Qed.

Lemma fresh_mono cfg w w' : step cfg w w' -> (w_fresh w <= w_fresh w')%N.
Proof. intros Hs. destruct Hs; step_all; cbn; lia. Qed.

Lemma replies_initial : replies initial_world.
Proof.
  split; cbn; try done; try (intros *; by rewrite lookup_empty).
  unfold outstanding_id. cbn. intros id. rewrite !lookup_empty. by intros [[? ?]|[? ?]].
Qed.

Lemma reachable_replies cfg w :
  peer_config_ok cfg -> reachable cfg w -> Z.of_N (w_fresh w) < 2 ^ 64 -> replies w.
Proof.
  intros Hcfg. induction 1 as [|w w' Hr IH Hs]; intros Hlt; [apply replies_initial|].
  pose proof (fresh_mono _ _ _ Hs). destruct (reachable_core cfg Hcfg w Hr) as [C _].
  eapply replies_step; [done..|]. apply IH. lia.
Qed.

(** ** Inbound order *)

Lemma RegisterHandlers_grows entries b (h : Handlers) mt :
  is_Some (h !! mt) -> is_Some ((RegisterHandlers entries b h).2 !! mt).
Proof.
  intros Hs. unfold RegisterHandlers. destruct entries as [|e l]; [done|]. destruct b; [done|].
  pose proof (check_handlers_spec (e :: l) h) as Hc.
  destruct (check_handlers (e :: l) h); [done|]. cbn [snd]. unfold install_handlers.
  assert (Forall (fun e => is_Some e.2) (e :: l)) as Hall
    by (eapply Forall_impl; [exact Hc|]; by intros ? (_ & ? & _)).
  clear Hc. revert h Hs. induction Hall as [|x l' [f Hf] _ IH]; intros h Hs; [done|].
  cbn [foldl]. rewrite Hf. apply IH. rewrite lookup_insert. case_decide; [by eexists|done].
Qed.

Lemma step_handlers cfg w w' mt :
  step cfg w w' -> is_Some (handlers (w_peer w) !! mt) -> is_Some (handlers (w_peer w') !! mt).
Proof.
  intros Hs Hm. destruct Hs; try (step_all; cbn; done);
    try (match goal with H : fail _ _ = Some _ |- _ => cbn; apply fail_frame in H as (_ & -> & _) end; done).
  cbn. by apply RegisterHandlers_grows.
Qed.

Lemma stream_frames_snoc id l f :
  stream_frames id (l ++ [f]) =
    stream_frames id l ++ if StreamID (FHeader f) =? id then [f] else [].
Proof.
  unfold stream_frames. rewrite filter_app, filter_cons, filter_nil.
  by destruct (Z.eqb_spec (StreamID (FHeader f)) id), (decide (StreamID (FHeader f) = id)).
Qed.
#[local] Arguments stream_frames : simpl never.

Record inbound_history (w : World) : Prop := {
  ih_fifo id : stream_frames id (w_accepted w) =
    stream_frames id (w_handled w) ++ in_queue id (inb (w_peer w));
  ih_alive : closed (w_peer w) = false ->
    forall id ref, inbound (inb (w_peer w)) !! id = Some ref -> is_Some (w_workers w !! ref);
  ih_handlers f : f ∈ w_accepted w -> is_Some (handlers (w_peer w) !! MessageType (FHeader f));
}.

Lemma in_queue_stream cfg i id f : in_inv cfg i -> f ∈ in_queue id i -> StreamID (FHeader f) = id.
Proof.
  intros I Hf. unfold in_queue in Hf. destruct (inbound i !! id) as [r|] eqn:E; [|by apply elem_of_nil in Hf].
  destruct (in_live _ _ I _ _ E) as [_ [_ _ _ Hall]]. rewrite Forall_forall in Hall. by apply Hall.
Qed.

Lemma inbound_history_dispatch cfg frame waited w :
  peer_config_ok cfg -> core cfg w -> inbound_history w ->
  inbound_history (dispatch_step cfg frame waited w).
Proof.
  intros Hcfg C [Hf Ha Hh]. unfold dispatch_step, dispatch_iteration.
  destruct (closed (w_peer w)) eqn:Ecl.
  { unfold dispatch_section; cbn. split; cbn; try done; congruence. }
  pose proof (dispatch_section_spec cfg (handlers (w_peer w)) frame waited (inb (w_peer w))
    (counters (w_peer w)) Hcfg (pk_in _ _ (co_peer _ _ C))) as [_ Hq].
  pose proof (dispatch_spec' cfg (handlers (w_peer w)) frame waited (inb (w_peer w))
    (counters (w_peer w)) Hcfg (pk_in _ _ (co_peer _ _ C))) as (_ & _ & Hout).
  pose proof (dispatch_spawn cfg (handlers (w_peer w)) None frame waited (inb (w_peer w))
    (counters (w_peer w))) as (_ & H2 & _).
  set (e := dispatch_section _ _ _ _ _ _ _) in *. cbv zeta in *.
  assert (forall id ref, inbound (de_inbound e) !! id = Some ref -> is_Some
    ((match de_spawn e with Some (id, ref) => <[ref := (id, KLoop)]> (w_workers w) | None => w_workers w end)
      !! ref)) as Hal.
  { intros id ref Hi. destruct (H2 id ref Hi) as [Hi'|Hsp].
    - pose proof (Ha eq_refl _ _ Hi') as Hs. destruct (de_spawn e) as [[? r]|]; [|done].
      rewrite lookup_insert. case_decide; [by eexists|done].
    - rewrite Hsp, lookup_insert_eq. by eexists. }
  unfold accepts in Hq. split.
  - intros id. destruct (de_spawn e) as [[? r]|], (de_out e) as [[?|]|]; cbn; rewrite Hq;
      cbn; rewrite ?app_nil_r; try apply Hf; rewrite stream_frames_snoc, Hf, <- app_assoc, Z.eqb_sym;
      by destruct (_ =? _).
  - intros _ id ref Hi. specialize (Hal id ref).
    destruct (de_spawn e) as [[? r]|], (de_out e) as [[?|]|]; apply Hal; exact Hi.
  - intros f. destruct (de_spawn e) as [[? r]|], (de_out e) as [[?|]|]; cbn; try apply Hh;
      (intros [?| ->%list_elem_of_singleton]%elem_of_app; [by apply Hh|apply Hout]).
Qed.

Lemma inbound_history_worker cfg id ref w :
  core cfg w -> workers_ok w -> w_workers w !! ref = Some (id, KLoop) -> inbound_history w ->
  inbound_history (worker_step id ref w).
Proof.
  intros C Hok Hk [Hf Ha Hh]. pose proof (Hok _ _ _ Hk) as Hid. unfold worker_step, worker_iteration.
  pose proof (worker_section_spec cfg (handlers (w_peer w)) id ref (inb (w_peer w))
    (pk_in _ _ (co_peer _ _ C)) Hid) as Hw.
  assert (forall f, f ∈ in_queue id (inb (w_peer w)) -> StreamID (FHeader f) = id) as Hst
    by (intros f; eapply in_queue_stream, C).
  destruct (worker_section _ _ _ _) as [[[frame handler]|] i]; destruct Hw as (_ & Hq & Hother).
  - destruct Hq as (-> & Hq & Hi).
    assert (forall j, stream_frames j (w_accepted w) =
      stream_frames j (w_handled w ++ [frame]) ++ in_queue j i) as Hfifo.
    { intros j. rewrite Hf, stream_frames_snoc, <- app_assoc. f_equal.
      specialize (Hst frame ltac:(rewrite Hq; left)). destruct (Z.eqb_spec (StreamID (FHeader frame)) j) as [Hd|].
      - rewrite Hst in Hd. subst j. by rewrite Hq.
      - rewrite Hother by congruence. done. }
    destruct (handlers (w_peer w) !! _) as [h|]; split; cbn; try done; intros Hcl a r Har; rewrite Hi in Har;
      (destruct (decide (ref = r)) as [<-|]; [rewrite lookup_insert_eq; by eexists|
        rewrite lookup_insert_ne by done; by apply (Ha Hcl a)]).
  - destruct Hq as (Hq & Hq' & Hi). split; cbn; try done.
    + intros j. rewrite Hf. f_equal. destruct (decide (j = id)) as [->|]; [congruence|by rewrite Hother].
    + intros Hcl a r Har. rewrite Hi in Har. apply lookup_delete_Some in Har as [Hne Har].
      rewrite lookup_delete_ne; [by apply (Ha Hcl a)|]. intros <-. apply Hne.
      by eapply (in_inj _ _ (pk_in _ _ (co_peer _ _ C))).
Qed.

Lemma inbound_history_step cfg w w' :
  peer_config_ok cfg -> core cfg w -> workers_ok w -> step cfg w w' -> inbound_history w -> inbound_history w'.
Proof.
  intros Hcfg C Hok Hs I. pose proof (fun mt => step_handlers cfg w w' mt Hs) as Hm.
  apply step_inbound in Hs as [(Hi & Hacc & Hhan & _ & Hcl)|[(frame & waited & _ & ->)|(id & ref & Hk & ->)]].
  - destruct I. split; rewrite ?Hi, ?Hacc, ?Hhan; auto.
    intros Hop id ref Hid. destruct (Hcl Hop) as [Hop' Hw]. by eapply Hw, ih_alive0.
  - by apply inbound_history_dispatch.
  - by eapply inbound_history_worker.
Qed.

Lemma reachable_inbound cfg w : peer_config_ok cfg -> reachable cfg w -> inbound_history w.
Proof.
  intros Hcfg. induction 1 as [|w w' Hr IH Hs].
  - split; cbn; try done. by intros f ?%elem_of_nil.
  - destruct (reachable_core cfg Hcfg w Hr). by eapply inbound_history_step.
Qed.

(** ** Wake-ups *)

Lemma fail_changed e p p' : fail e p = Some p' -> p' = p \/ changed p' = (changed p + 1)%N.
Proof.
  unfold fail. destruct (closed p); [intros [= <-]; by left|].
  intros (m & _ & Hf)%bind_Some. apply bind_Some in Hf as (m' & _ & [= <-]). by right.
Qed.

(** The generation grows, and a step that does not signal leaves the outbound
    queues alone and empties no inbound queue. *)
Definition quiet (w w' : World) : Prop :=
  (changed (w_peer w) <= changed (w_peer w'))%N /\
  (changed (w_peer w') = changed (w_peer w) ->
     outb (w_peer w') = outb (w_peer w) /\
     forall id, in_queue id (inb (w_peer w)) <> [] -> in_queue id (inb (w_peer w')) <> []).

Lemma step_quiet cfg w w' :
  peer_config_ok cfg -> core cfg w -> workers_ok w -> step cfg w w' -> quiet w w'.
Proof.
  intros Hcfg C Hok Hs. destruct Hs;
    try (match goal with H : fail _ _ = Some ?p |- _ =>
      apply fail_changed in H as [-> | H]; split; cbn; try done; try lia; intros; exfalso; lia end);
    try (step_all; split; cbn; try done; try lia; intros; exfalso; lia).
  - unfold sched_scan_step, schedule_section.
    destruct (scan cfg s (outb (w_peer w))) as [[[req|] s'] o] eqn:E.
    + split; cbn; [lia|intros; exfalso; lia].
    + apply (scan_refines' cfg) in E as [_ ->]; [|apply C]. by destruct (closed _).
  - unfold dispatch_step, dispatch_iteration.
    assert (forall id, in_queue id (inb (w_peer w)) <> [] -> in_queue id (de_inbound (dispatch_section cfg
      (handlers (w_peer w)) (if closed (w_peer w) then Some (result (w_peer w)) else None)
      frame waited (inb (w_peer w)) (counters (w_peer w)))) <> []) as Hq.
    { destruct (closed (w_peer w)); [done|]. intros id Hne.
      pose proof (dispatch_section_spec cfg (handlers (w_peer w)) frame waited (inb (w_peer w))
        (counters (w_peer w)) Hcfg (pk_in _ _ (co_peer _ _ C))) as [_ ->].
      by destruct (in_queue id (inb (w_peer w))). }
    set (e := dispatch_section _ _ _ _ _ _ _) in *.
    destruct (de_spawn e) as [[? r]|], (de_out e) as [[?|]|]; by split.
  - unfold worker_step, worker_iteration.
    pose proof (worker_section_spec cfg (handlers (w_peer w)) id ref (inb (w_peer w))
      (pk_in _ _ (co_peer _ _ C)) (Hok _ _ _ H)) as Hw.
    destruct (worker_section _ _ _ _) as [[[frame [h|]]|] i].
    1,2: split; cbn; [lia|intros; exfalso; lia].
    destruct Hw as (_ & (Hq & Hq' & _) & Hother). split; cbn; [lia|]. intros _. split; [done|].
    intros j. destruct (decide (j = id)) as [->|]; [congruence|by rewrite Hother].
Qed.

Definition sched_of (s : sched_pc) : option Sched :=
  match s with
  | SScan s | SWaiting s _ | SSending s _ | SRecord s _ | SReply s _ _ => Some s
  | SFail _ | SDone => None
  end.

(** What a goroutine that waits for [p.changed] knows while it is not signalled. *)
Record waits (cfg : PeerConfig) (w : World) : Prop := {
  wt_thread t call req gen : w_threads w !! t = Some (TWait call req gen) ->
    (gen <= changed (w_peer w))%N /\ (gen = changed (w_peer w) -> outbound (outb (w_peer w)) <> ∅);
  wt_loop t call req : w_threads w !! t = Some (TLoop call req) ->
    req_bytes req <= PerStreamQueueBytes cfg;
  wt_wait t call req gen : w_threads w !! t = Some (TWait call req gen) ->
    req_bytes req <= PerStreamQueueBytes cfg;
  wt_sched s gen : w_sched w = SWaiting s gen ->
    (gen <= changed (w_peer w))%N /\ (gen = changed (w_peer w) -> outbound (outb (w_peer w)) = ∅);
  wt_wrr s : sched_of (w_sched w) = Some s -> wrr_ok cfg (wrr_of s);
  wt_done : w_sched w = SDone -> closed (w_peer w) = true;
  wt_serve f gen : w_serve w = VWait f gen ->
    (gen <= changed (w_peer w))%N /\
    (gen = changed (w_peer w) -> in_queue (StreamID (FHeader f)) (inb (w_peer w)) <> []);
}.

Lemma quiet_mono (Q : World -> Prop) w w' gen :
  quiet w w' -> (gen <= changed (w_peer w))%N /\ (gen = changed (w_peer w) -> Q w) ->
  (changed (w_peer w') = changed (w_peer w) -> Q w -> Q w') ->
  (gen <= changed (w_peer w'))%N /\ (gen = changed (w_peer w') -> Q w').
Proof.
  intros [Hle _] [Hg HQ] Hstep. split; [lia|]. intros ->.
  assert (changed (w_peer w') = changed (w_peer w)) as E by lia. auto.
Qed.

Lemma step_closed cfg w w' : step cfg w w' -> closed (w_peer w) = true -> closed (w_peer w') = true.
Proof.
  intros Hs Hc. destruct Hs;
    try (match goal with H : fail _ _ = Some _ |- _ => cbn; by apply fail_frame in H as (_ & _ & _ & -> & _) end);
    try (step_all; cbn; congruence).
Qed.

Lemma waits_kept cfg w w' :
  waits cfg w -> quiet w w' -> (closed (w_peer w) = true -> closed (w_peer w') = true) ->
  (forall t call req gen, w_threads w' !! t = Some (TWait call req gen) ->
     w_threads w !! t = Some (TWait call req gen)) ->
  (forall t call req, w_threads w' !! t = Some (TLoop call req) ->
     w_threads w !! t = Some (TLoop call req) \/ exists gen, w_threads w !! t = Some (TWait call req gen)) ->
  (forall s gen, w_sched w' = SWaiting s gen -> w_sched w = SWaiting s gen) ->
  (forall s, sched_of (w_sched w') = Some s -> sched_of (w_sched w) = Some s) ->
  (w_sched w' = SDone -> w_sched w = SDone \/ closed (w_peer w') = true) ->
  (forall f gen, w_serve w' = VWait f gen -> w_serve w = VWait f gen) ->
  waits cfg w'.
Proof.
  intros W Hq Hcl Hw Hl Hs Hso Hd Hv. pose proof Hq as [_ Hsame]. destruct W. split.
  - intros t call req gen Ht. eapply (quiet_mono (fun w => outbound (outb (w_peer w)) <> ∅)); [done|by eauto|].
    intros E. by destruct (Hsame E) as [-> _].
  - intros t call req Ht. destruct (Hl _ _ _ Ht) as [?|[? ?]]; by eauto.
  - eauto.
  - intros s gen Ht. eapply (quiet_mono (fun w => outbound (outb (w_peer w)) = ∅)); [done|by eauto|].
    intros E. by destruct (Hsame E) as [-> _].
  - eauto.
  - intros E. destruct (Hd E); auto.
  - intros f gen Ht.
    eapply (quiet_mono (fun w => in_queue (StreamID (FHeader f)) (inb (w_peer w)) <> [])); [done|by eauto|].
    intros E. destruct (Hsame E) as [_ H]. by apply H.
Qed.

Lemma not_fits_nonempty cfg o req :
  peer_config_ok cfg -> out_inv cfg o -> req_ok req -> req_bytes req <= PerStreamQueueBytes cfg ->
  fits cfg o req = false -> outbound o <> ∅.
Proof.
  intros [Hsb Hsf Hst _ _ _] I Hreq Hb Hf He. unfold fits in Hf.
  pose proof (oi_bytes _ _ I) as Hob. pose proof (oi_frames _ _ I) as Hof.
  rewrite He, map_sumZ_empty in *. rewrite lookup_empty, map_size_empty in Hf.
  rewrite Hob, Hof in Hf. cbn in Hf.
  destruct (_ || (OutboundQueueFrames cfg <? _)) eqn:E1; [reflect_bools; destruct E1; reflect_bools; lia|].
  destruct (MaxActiveStreams cfg <=? Z.of_nat 0) eqn:E2; reflect_bools; [lia|].
  destruct Hf; reflect_bools; lia.
Qed.

Lemma waits_send_loop cfg w t call req :
  peer_config_ok cfg -> core cfg w -> w_threads w !! t = Some (TLoop call req) ->
  quiet w (send_loop_step cfg t call req w) -> waits cfg w -> waits cfg (send_loop_step cfg t call req w).
Proof.
  intros Hcfg C Ht Hq W. destruct (co_thread _ _ C _ _ Ht) as (Hreq & _).
  pose proof (wt_loop _ _ W _ _ _ Ht) as Hb. unfold send_loop_step, send_section in *.
  destruct (closed (w_peer w)).
  { apply (waits_kept cfg w); cbn; try done; insert_cases; auto. }
  destruct (fits cfg (outb (w_peer w)) req) eqn:Ef.
  { apply (waits_kept cfg w); cbn; try done; insert_cases; auto. }
  apply not_fits_nonempty in Ef; [|done|apply C|done..].
  destruct W. split; cbn; try done; insert_cases; try (by eauto).
Qed.

Lemma waits_scan cfg w s :
  peer_config_ok cfg -> core cfg w -> w_sched w = SScan s -> quiet w (sched_scan_step cfg s w) ->
  waits cfg w -> waits cfg (sched_scan_step cfg s w).
Proof.
  intros Hcfg C Hs Hq W. unfold sched_scan_step, schedule_section in *.
  assert (wrr_ok cfg (wrr_of s)) as Hw by (apply (wt_wrr _ _ W); by rewrite Hs).
  pose proof (pk_out _ _ (co_peer _ _ C)) as Ho.
  pose proof (scan_wrr_ok cfg s (outb (w_peer w)) Hcfg Ho Hw) as Hw'.
  pose proof (scan_finds cfg s (outb (w_peer w)) Hcfg Ho Hw) as Hfind.
  destruct (scan cfg s (outb (w_peer w))) as [[req s'] o] eqn:E. cbn in Hw', Hfind.
  apply (scan_refines' cfg) in E as [_ Hr]; [|done].
  destruct req as [req|]; [|subst o; destruct (closed (w_peer w)) eqn:Ecl].
  - pose proof Hq as [_ Hsame]. cbn in Hsame. destruct W. split; cbn; try done.
    + intros t call r gen Ht. destruct (wt_thread0 _ _ _ _ Ht). split; [lia|intros; exfalso; lia].
    + by intros ? [= <-].
    + intros f gen Ht. destruct (wt_serve0 _ _ Ht). split; [lia|intros; exfalso; lia].
  - destruct W. by split.
  - assert (outbound (outb (w_peer w)) = ∅) as He.
    { destruct (decide (outbound (outb (w_peer w)) = ∅)) as [|Hne]; [done|]. by destruct (Hfind Hne). }
    destruct W. split; cbn; try done.
    + intros ? ? [= <- <-]. by split.
    + by intros ? [= <-].
Qed.

Lemma waits_dispatch cfg w frame waited :
  peer_config_ok cfg -> core cfg w -> quiet w (dispatch_step cfg frame waited w) -> waits cfg w ->
  waits cfg (dispatch_step cfg frame waited w).
Proof.
  intros Hcfg C Hq W. unfold dispatch_step, dispatch_iteration in *.
  assert (closed (w_peer w) = false -> forall e, e = dispatch_section cfg (handlers (w_peer w)) None frame waited
    (inb (w_peer w)) (counters (w_peer w)) -> de_out e = DispatchWait ->
    in_queue (StreamID (FHeader frame)) (de_inbound e) <> []) as Hne.
  { intros _ e -> Hout. pose proof (dispatch_spec' cfg (handlers (w_peer w)) frame waited (inb (w_peer w))
      (counters (w_peer w)) Hcfg (pk_in _ _ (co_peer _ _ C))) as (_ & Hqs & Ho).
    rewrite Hqs. cbv zeta in Ho. rewrite Hout in Ho. destruct Ho as (_ & _ & _ & _ & Hne).
    by destruct (in_queue _ (inb (w_peer w))). }
  destruct (closed (w_peer w)) eqn:Ecl.
  { apply (waits_kept cfg w); cbn; try done; auto. }
  set (e := dispatch_section _ _ _ _ _ _ _) in *. specialize (Hne eq_refl e eq_refl). cbn zeta in *.
  destruct (de_spawn e) as [[? r]|], (de_out e) as [[?|]|];
    try (apply (waits_kept cfg w); [done|done|..]; cbn; try done; auto; fail).
  all: specialize (Hne eq_refl); destruct W; split; cbn; try done.
  all: intros f gen [= <- <-]; by split.
Qed.

Lemma waits_step cfg w w' :
  peer_config_ok cfg -> core cfg w -> workers_ok w -> step cfg w w' -> waits cfg w -> waits cfg w'.
Proof.
  intros Hcfg C Hok Hs W. pose proof (step_quiet _ _ _ Hcfg C Hok Hs) as Hq.
  pose proof (step_closed _ _ _ Hs) as Hcl. destruct Hs.
  all: try (by apply waits_send_loop).
  all: try (by apply waits_scan).
  all: try (by apply waits_dispatch).
  all: try (match goal with H : fail _ _ = Some _ |- _ =>
    pose proof (fail_frame _ _ _ H) as (_ & _ & _ & ? & _) end).
  all: try (apply (waits_kept cfg w); [done..| | | | | |]; step_all; cbn in *; try done; insert_cases; eauto; fail).
  - unfold send_begin_step, send_begin in *. destruct ctx; cbn in *.
    2: { apply (waits_kept cfg w); [done..| | | | | |]; cbn; try done; insert_cases; eauto. }
    destruct ((class <? _) || _); cbn in *.
    { apply (waits_kept cfg w); [done..| | | | | |]; cbn; try done; insert_cases; eauto. }
    destruct ((_ <? frame_bytes frame) || _) eqn:E; cbn in *.
    { apply (waits_kept cfg w); [done..| | | | | |]; cbn; try done; insert_cases; eauto. }
    reflect_bools. destruct W. split; cbn; try done; insert_cases; by eauto.
  - apply (waits_kept cfg w); [done..| | | | | |]; cbn; try done; rewrite ?H; by eauto.
  - unfold sched_sent_step in *. destruct r; (apply (waits_kept cfg w); [done..| | | | | |]); cbn; try done; rewrite ?H; by eauto.
  - apply (waits_kept cfg w); [done..| | | | | |]; cbn; try done; rewrite ?H; by eauto.
  - apply (waits_kept cfg w); [done..| | | | | |]; cbn; try done; rewrite ?H; destruct r; by eauto.
Qed.

Lemma reachable_waits cfg w : peer_config_ok cfg -> reachable cfg w -> waits cfg w.
Proof.
  intros Hcfg. induction 1 as [|w w' Hr IH Hs].
  - split; cbn; try done. intros s [= <-]. by apply wrr_ok_initial.
  - destruct (reachable_core cfg Hcfg w Hr). by eapply waits_step.
Qed.

(** ** The frames read, and those accepted for a handler *)

Definition is_request (f : Frame) : Prop := Flags (FHeader f) <> FlagResponse.
#[export] Instance is_request_dec f : Decision (is_request f).
Proof. unfold is_request. apply _. Defined.

(** Serve has not met an error. *)
Definition serving (s : serve_pc) : Prop := match s with VError _ | VFail _ | VDone => False | _ => True end.

(** The frame read that [dispatch] has not accepted yet. *)
Definition dispatching (s : serve_pc) : list Frame :=
  match s with VRecord f => filter is_request [f] | VDispatch f _ | VWait f _ => [f] | _ => [] end.

(** The frames read that are not responses are, in order, those accepted, then at
    most one, which is the one being dispatched unless Serve met an error. *)
Definition read_history (w : World) : Prop :=
  exists rest, filter is_request (w_read w) = w_accepted w ++ rest /\ (length rest <= 1)%nat /\
    (serving (w_serve w) -> rest = dispatching (w_serve w)).

Lemma read_history_kept w w' : read_history w ->
  w_serve w' = w_serve w -> w_read w' = w_read w -> w_accepted w' = w_accepted w -> read_history w'.
Proof. unfold read_history. by intros ? -> -> ->. Qed.

(** Serve moves; the frame in its hands stays, or is accepted. *)
Lemma read_history_move w w' : read_history w -> serving (w_serve w) -> w_read w' = w_read w ->
  w_accepted w ++ dispatching (w_serve w) = w_accepted w' ++ dispatching (w_serve w') \/
    w_accepted w' = w_accepted w /\ ~ serving (w_serve w') -> read_history w'.
Proof.
  intros (rest & Hr & Hl & Hs) Hsv Er He. rewrite (Hs Hsv) in *. unfold read_history. rewrite Er, Hr.
  destruct He as [He|[-> Hn]]; [|by exists (dispatching (w_serve w))].
  exists (dispatching (w_serve w')). split; [done|]. split; [|done].
  destruct (w_serve w'); cbn; try lia. by destruct (decide _); cbn; lia.
Qed.

Ltac serve_moves Ev :=
  rewrite Ev; cbn -[filter]; rewrite ?app_nil_r; first [by left | right; by split; [|tauto]].

Lemma read_history_step cfg w w' : step cfg w w' -> read_history w -> read_history w'.
Proof.
  intros Hs Hh. destruct Hs;
    try (apply (read_history_kept w); [exact Hh|step_all; reflexivity..]);
    match goal with H : w_serve _ = _ |- _ => rename H into Ev end;
    try (apply (read_history_move w); [exact Hh|by rewrite Ev|reflexivity|serve_moves Ev]).
  - destruct Hh as (rest & Hr & _ & Hl). rewrite Ev in Hl. rewrite (Hl I), app_nil_r in Hr.
    exists (filter is_request [frame]). cbn -[filter]. rewrite filter_app, Hr. split; [done|]. split; [|done].
    rewrite filter_cons, filter_nil. by destruct (decide _); cbn; lia.
  - apply (read_history_move w); [exact Hh|by rewrite Ev|done|]. destruct (isPeerProtocolError e); serve_moves Ev.
  - apply (read_history_move w); [exact Hh|by rewrite Ev|done|]. left. rewrite Ev. cbn -[filter]. f_equal.
    rewrite filter_cons, filter_nil. unfold is_request.
    by destruct (Z.eqb_spec (Flags (FHeader frame)) FlagResponse) as [He|He]; case_decide.
  - unfold resolve_step. destruct (resolve_section frame (w_peer w)) as [[[e|] [ch|]] p];
      (apply (read_history_move w); [exact Hh|by rewrite Ev|done|serve_moves Ev]).
  - unfold dispatch_step. destruct (dispatch_iteration cfg frame waited (w_peer w)) as [[e gen] p].
    destruct (de_out e) as [[err|]|], (de_spawn e) as [[? ?]|];
      (apply (read_history_move w); [exact Hh|by rewrite Ev|done|serve_moves Ev]).
  - destruct Hh as (rest & Hr & Hlen & _). by exists rest; split_and!.
  - destruct Hh as (rest & Hr & Hlen & _). by exists rest; split_and!.
Qed.

Lemma reachable_read_history cfg w : reachable cfg w -> read_history w.
Proof. induction 1; [exists []; split_and!; (done || cbn; lia)|by eapply read_history_step]. Qed.

Lemma accepted_read w : read_history w -> w_accepted w `prefix_of` filter is_request (w_read w).
Proof. intros (rest & -> & _). by apply prefix_app_r. Qed.

(** ** Properties *)

Lemma written_taken w : sent_ok w -> w_written w `prefix_of` w_taken w.
Proof.
  intros S. pose proof (so_history _ S) as Hh. unfold sched_history in Hh.
  destruct (w_sched w) as [| | | |s req [e|]| |]; rewrite ?Hh; done || by apply prefix_app_r.
Qed.

(** C13. No channel send of the peer ever blocks. In every reachable state,
    whatever the interleaving: [fail], which sends while holding the lock, runs
    to its end; the scheduler's reply to a request and the delivery of a
    response find room in their channel. *)
Theorem peer_never_blocks cfg w :
  peer_config_ok cfg -> reachable cfg w ->
  (forall e, fail e (w_peer w) <> None) /\
  (forall s req r, w_sched w = SReply s req r -> chan_send (req_id req) r (results (w_peer w)) <> None) /\
  (forall ch f v, w_serve w = VDeliver ch f -> chan_send ch v (responses (w_peer w)) <> None).
Proof.
  intros Hcfg Hr. destruct (reachable_core cfg Hcfg w Hr) as [C _]. split; [|split].
  - intros e. destruct (closed (w_peer w)) eqn:E; [by rewrite fail_closed|].
    by destruct (fail_spec' cfg e (w_peer w) Hcfg (co_peer _ _ C) E) as (p & -> & _).
  - intros s req r Hs. destruct (co_flight _ _ C req) as [_ Hl]; [by rewrite Hs|].
    by rewrite chan_send_empty.
  - intros ch f v Hs. destruct (co_deliver _ _ C _ _ Hs) as [Hl _]. by rewrite chan_send_empty.
Qed.

(** C9. Outbound order per stream. In every reachable state the requests handed
    to Conn.SendOwned for a stream are, in order, the first of those [send]
    queued for it; on an open peer the rest are exactly its queue, and the
    requests answered nil are a prefix of those handed over. *)
Theorem outbound_fifo cfg w :
  peer_config_ok cfg -> reachable cfg w ->
  (forall id, stream_reqs id (w_taken w) `prefix_of` stream_reqs id (w_enqueued w)) /\
  (closed (w_peer w) = false -> forall id, stream_reqs id (w_enqueued w) =
     stream_reqs id (w_taken w) ++ queue_of id (outb (w_peer w))) /\
  w_written w `prefix_of` w_taken w.
Proof.
  intros Hcfg Hr. destruct (reachable_core cfg Hcfg w Hr) as [C _]. split; [|split].
  - intros id. destruct (co_fifo _ _ C id) as (rest & -> & _). by apply prefix_app_r.
  - intros Hop id. destruct (co_fifo _ _ C id) as (rest & -> & Hq). by rewrite (Hq Hop).
  - by eapply written_taken, reachable_sent_ok.
Qed.

(** A send that returns nil was written. Send, SendOwned, Emit or Respond
    return nil only for a request for which Conn.SendOwned returned nil. *)
Theorem send_nil_written cfg w t call :
  peer_config_ok cfg -> reachable cfg w -> w_threads w !! t = Some (TSent call None) ->
  exists req, req_id req = t /\ req ∈ w_written w /\ req ∈ w_enqueued w.
Proof.
  intros Hcfg Hr Ht. pose proof (reachable_sent_ok cfg w Hr) as S.
  destruct (reachable_core cfg Hcfg w Hr) as [C _].
  pose proof (so_thread _ S _ _ Ht) as Hw. unfold written in Hw.
  apply list_elem_of_fmap in Hw as (req & -> & Hw). exists req. split; [done|]. split; [done|].
  apply (taken_enqueued cfg); [done|]. destruct (written_taken w S) as [l ->]. apply elem_of_app. by left.
Qed.

(** C4. A call gets its own reply. In a run of fewer than 2^64 calls and sends, a
    Call that returns a frame returns a response that Serve read, with the
    correlation ID reserved for that very call and its message type and stream,
    and a nil error. *)
Theorem call_gets_reply cfg w t v f :
  peer_config_ok cfg -> reachable cfg w -> Z.of_N (w_fresh w) < 2 ^ 64 ->
  w_threads w !! t = Some (TReturn v) -> pr_frame v = Some f ->
  pr_err v = None /\ reply_ok w t f /\
  forall u q r, w_calls w !! t = Some q -> w_calls w !! u = Some r ->
    CorrelationID (FHeader q) = CorrelationID (FHeader r) -> t = u.
Proof.
  intros Hcfg Hr Hlt Ht Hf. pose proof (reachable_replies cfg w Hcfg Hr Hlt) as R.
  destruct (rp_return _ R t v f Ht Hf) as [? ?]. split; [done|]. split; [done|].
  intros u q r. apply (rp_inj _ R).
Qed.

(** C3. Handlers run in order, one at a time per stream. In every reachable state
    the frames read for a stream that are not responses are, in the order read:
    those passed to handlers, then its queue, then at most one that [dispatch] has
    not accepted, which is the one in its hands unless Serve has met an error; the
    frames that wait have a registered handler; and a stream has at most one
    worker, so never two running handlers. *)
Theorem handlers_in_order cfg w :
  peer_config_ok cfg -> reachable cfg w ->
  (forall id, exists rest, stream_frames id (filter is_request (w_read w)) =
     stream_frames id (w_handled w) ++ in_queue id (inb (w_peer w)) ++ rest /\ (length rest <= 1)%nat /\
     (serving (w_serve w) -> rest = stream_frames id (dispatching (w_serve w)))) /\
  (forall id, stream_frames id (w_accepted w) =
     stream_frames id (w_handled w) ++ in_queue id (inb (w_peer w))) /\
  (forall id f, f ∈ in_queue id (inb (w_peer w)) ->
     is_Some (handlers (w_peer w) !! MessageType (FHeader f))) /\
  (forall r r' id pc pc', w_workers w !! r = Some (id, pc) -> w_workers w !! r' = Some (id, pc') -> r = r').
Proof.
  intros Hcfg Hr. pose proof (reachable_inbound cfg w Hcfg Hr) as I.
  destruct (reachable_core cfg Hcfg w Hr) as [C Hok]. split; [|split; [apply I|split]].
  - intros id. destruct (reachable_read_history cfg w Hr) as (rest & Hread & Hl & Hs).
    exists (stream_frames id rest). pose proof (ih_fifo _ I id) as Hf. unfold stream_frames in *.
    rewrite Hread, filter_app, Hf, (assoc_L (++)). split; [done|]. split; [|by intros ->%Hs].
    etrans; [apply length_filter|done].
  - intros id f Hf. apply (ih_handlers _ I).
    assert (f ∈ stream_frames id (w_accepted w)) as Hin
      by (rewrite (ih_fifo _ I); apply elem_of_app; by right).
    by apply list_elem_of_filter in Hin as [_ ?].
  - intros r r' id pc pc' H1 H2. apply Hok in H1, H2. congruence.
Qed.

(** C14. No lost wake-up. On an open peer, a [dispatch] that waits without having
    been signalled waits on a stream whose queue is not empty and which has a
    live worker; a [send] that waits without having been signalled finds the
    outbound queues not empty and the scheduler neither finished nor waiting
    without a signal. So neither can be the only one left to move. *)
Theorem no_lost_wakeup cfg w :
  peer_config_ok cfg -> reachable cfg w -> closed (w_peer w) = false ->
  (forall f, w_serve w = VWait f (changed (w_peer w)) ->
     in_queue (StreamID (FHeader f)) (inb (w_peer w)) <> [] /\
     exists ref, inbound (inb (w_peer w)) !! StreamID (FHeader f) = Some ref /\
       is_Some (w_workers w !! ref)) /\
  (forall t call req, w_threads w !! t = Some (TWait call req (changed (w_peer w))) ->
     outbound (outb (w_peer w)) <> ∅ /\ w_sched w <> SDone /\
     forall s gen, w_sched w = SWaiting s gen -> (gen < changed (w_peer w))%N).
Proof.
  intros Hcfg Hr Hop. pose proof (reachable_waits cfg w Hcfg Hr) as W.
  pose proof (reachable_inbound cfg w Hcfg Hr) as I. split.
  - intros f Hs. destruct (wt_serve _ _ W _ _ Hs) as [_ Hne]. specialize (Hne eq_refl).
    split; [done|]. unfold in_queue in Hne. destruct (inbound _ !! _) as [ref|] eqn:E; [|done].
    exists ref. split; [done|]. by eapply (ih_alive _ I).
  - intros t call req Ht. destruct (wt_thread _ _ W _ _ _ _ Ht) as [_ Hne]. specialize (Hne eq_refl).
    split; [done|]. split; [intros Hd; apply (wt_done _ _ W) in Hd; congruence|].
    intros s gen Hs. destruct (wt_sched _ _ W _ _ Hs) as [Hle He].
    destruct (decide (gen = changed (w_peer w))); [by destruct (Hne (He ltac:(done)))|lia].
Qed.

Lemma step_err cfg w w' : peer_ok cfg (w_peer w) -> step cfg w w' -> is_Some (perr (w_peer w)) ->
  perr (w_peer w') = perr (w_peer w).
Proof.
  intros P Hs He. assert (closed (w_peer w) = true) as Hc
    by (rewrite (pk_err _ _ P); by apply bool_decide_eq_true).
  destruct Hs;
    try (match goal with H : fail _ _ = Some _ |- _ => cbn; apply fail_frame in H as (_ & _ & _ & _ & _ & ->) end;
      by rewrite Hc);
    try (step_all; cbn; done).
Qed.

(** The first error wins. Once the peer has an error, every later state,
    along any steps, reports the same error and stays closed. *)
Theorem first_error_wins cfg w w' e :
  peer_config_ok cfg -> reachable cfg w -> Err (w_peer w) = Some e -> rtc (step cfg) w w' ->
  Err (w_peer w') = Some e /\ closed (w_peer w') = true.
Proof.
  intros Hcfg Hr He Hs. induction Hs as [w|w w1 w' Hs _ IH].
  - split; [done|]. destruct (reachable_core cfg Hcfg w Hr) as [C _].
    rewrite (pk_err _ _ (co_peer _ _ C)). unfold Err in He. rewrite He. by apply bool_decide_eq_true.
  - destruct (reachable_core cfg Hcfg w Hr) as [C _]. apply IH.
    + by econstructor.
    + unfold Err in *. rewrite <- He. apply (step_err cfg); [apply C|done|rewrite He; by eexists].
Qed.

(** C36. Closing during a Call can panic. [Call] reserves its correlation ID in
    one critical section and reads [p.pending[correlation]] back in another; when
    the peer fails in between, [fail] has cleared the table and the lookup is nil,
    so [pending.messageType = ...] dereferences nil, with p.mu held and no deferred
    unlock. For every configuration, request and terminal error this state is
    reachable. *)
Theorem call_close_race cfg ctx frame e :
  Call_check ctx frame = None ->
  exists w, reachable cfg w /\ Err (w_peer w) = Some e /\ w_threads w !! 0%N = Some TPanic /\ w_locked w = true.
Proof.
  intros Hcheck. set (w1 := on_fresh (call_start ctx frame 0 initial_world)).
  assert (reachable cfg w1) as R1 by (eapply reach_step; [apply reach_init|by apply st_call]).
  assert (w1 = on_fresh (log_call 0 (with_correlation 1 frame) (on_thread 0
    (TFill 1 ctx (with_correlation 1 frame)) (on_peer (reserve_section 0 newPeer).2 initial_world)))) as E1
    by (unfold w1, call_start; rewrite Hcheck; reflexivity).
  assert (exists p, fail e (w_peer w1) = Some p /\ perr p = Some e /\ pending (corr p) = ∅) as (p & Hf & He & Hp)
    by (rewrite E1; eexists; vm_compute; done).
  assert (w_threads w1 !! 0%N = Some (TFill 1 ctx (with_correlation 1 frame))) as Ht by (by rewrite E1).
  exists (call_fill_step 0 1 ctx (with_correlation 1 frame) (on_peer p w1)). split.
  - eapply reach_step; [eapply reach_step; [exact R1|apply (st_fail _ e); [done|by rewrite E1]]|].
    apply st_fill; [exact Ht|by rewrite E1].
  - unfold call_fill_step. cbn [w_peer on_peer]. unfold call_fill. rewrite Hp, lookup_empty. cbn.
    split; [exact He|]. split; [apply lookup_insert_eq|done].
Qed.

(** ** Concrete runs *)

Definition demo_call_frame : Frame := mkFrame (mkHeader 0 1 5 FlagRequest 0 2) [].
Definition demo_reply_frame : Frame := mkFrame (mkHeader 0 1 5 FlagResponse 1 2) [].
Definition demo_request : outboundRequest :=
  mkRequest 0 (with_correlation 1 demo_call_frame) TrafficControl (frame_bytes demo_call_frame).
Definition demo_sched : Sched := (scan demo_in_cfg initial_sched (enqueue demo_request empty_outbound)).1.2.

(** A Call on stream 2, up to the return of [send]. *)
Definition demo_w1 : World := on_fresh (call_start true demo_call_frame 0 initial_world).
Definition demo_w2 : World := call_fill_step 0 1 true (with_correlation 1 demo_call_frame) demo_w1.
Definition demo_w3 : World :=
  send_begin_step demo_in_cfg 0 (Some 1) true (with_correlation 1 demo_call_frame) TrafficControl demo_w2.
Definition demo_w4 : World := send_loop_step demo_in_cfg 0 (Some 1) demo_request demo_w3.
Definition demo_w5 : World := sched_scan_step demo_in_cfg initial_sched demo_w4.
Definition demo_w6 : World := sched_sent_step demo_sched demo_request None demo_w5.
Definition demo_w7 : World :=
  on_sched (SReply demo_sched demo_request None) (on_peer (record_sent (req_frame demo_request) (w_peer demo_w6)) demo_w6).
Definition demo_w8 : World :=
  on_sched (SScan demo_sched) (on_peer (set_results {[0%N := [None]]} (w_peer demo_w7)) demo_w7).
Definition demo_w9 : World := on_thread 0 (TSent (Some 1) None)
  (on_peer (set_results (<[0%N := []]> (results (w_peer demo_w8))) (w_peer demo_w8)) demo_w8).

Ltac demo_step := intros; vm_compute; reflexivity.

Lemma demo_w6_reach : reachable demo_in_cfg demo_w6.
Proof.
  eapply reach_step; [|apply st_sent; demo_step].
  eapply reach_step; [|apply st_scan; demo_step].
  eapply reach_step; [|apply st_loop; demo_step].
  eapply reach_step; [|apply st_begin; demo_step].
  eapply reach_step; [|apply st_fill; demo_step].
  eapply reach_step; [apply reach_init|by apply st_call].
Qed.

Lemma demo_w7_reach : reachable demo_in_cfg demo_w7.
Proof. eapply reach_step; [exact demo_w6_reach|apply st_record_sent; demo_step]. Qed.

Lemma demo_w9_reach : reachable demo_in_cfg demo_w9.
Proof.
  eapply reach_step; [|eapply st_result; demo_step].
  eapply reach_step; [exact demo_w7_reach|eapply (st_reply _ _ _ None); demo_step].
Qed.

(** Its reply is read, resolved and delivered, and the Call returns. *)
Definition demo_w10 : World := on_serve VRead (on_thread 0 (TResponse 1) demo_w9).
Definition demo_w11 : World := log_read demo_reply_frame (on_serve (VRecord demo_reply_frame) demo_w10).
Definition demo_w12 : World :=
  on_serve (VResolve demo_reply_frame) (on_peer (record_received demo_reply_frame (w_peer demo_w11)) demo_w11).
Definition demo_w13 : World := resolve_step demo_reply_frame demo_w12.
Definition demo_w14 : World :=
  on_serve VRead (on_peer (set_responses {[0%N := [mkResult (Some demo_reply_frame) None]]} (w_peer demo_w13)) demo_w13).
Definition demo_w15 : World := on_thread 0 (TReturn (mkResult (Some demo_reply_frame) None))
  (on_peer (set_responses (<[0%N := []]> (responses (w_peer demo_w14))) (w_peer demo_w14)) demo_w14).

Lemma demo_w15_reach : reachable demo_in_cfg demo_w15.
Proof.
  eapply reach_step; [|eapply st_response; demo_step].
  eapply reach_step; [|eapply (st_deliver _ 0 demo_reply_frame); demo_step].
  eapply reach_step; [|apply st_resolve; demo_step].
  eapply reach_step; [|apply (st_record_received _ demo_reply_frame); demo_step].
  eapply reach_step; [|apply st_read; [demo_step|discriminate]].
  eapply reach_step; [|apply st_serve; demo_step].
  eapply reach_step; [exact demo_w9_reach|apply st_sent_ok; demo_step].
Qed.

(** Three events on stream 3 fill its queue, and [dispatch] waits. *)
Definition demo_dispatch (w : World) : World :=
  let w := log_read (demo_in_frame 3) (on_serve (VRecord (demo_in_frame 3)) w) in
  let w := on_serve (VDispatch (demo_in_frame 3) false) (on_peer (record_received (demo_in_frame 3) (w_peer w)) w) in
  dispatch_step demo_in_cfg (demo_in_frame 3) false w.
Definition demo_i0 : World :=
  on_serve VRead (on_peer (set_handlers {[5 := 1%N]} (w_peer initial_world)) initial_world).
Definition demo_i1 : World := demo_dispatch demo_i0.
Definition demo_i2 : World := demo_dispatch demo_i1.
Definition demo_i3 : World := demo_dispatch demo_i2.

Lemma demo_dispatch_reach w :
  reachable demo_in_cfg w -> w_serve w = VRead -> w_locked w = false -> reachable demo_in_cfg (demo_dispatch w).
Proof.
  intros Hr Hs Hl. eapply reach_step; [|by apply st_dispatch].
  eapply reach_step; [|by apply (st_record_received _ (demo_in_frame 3))].
  eapply reach_step; [exact Hr|by apply st_read].
Qed.

Lemma demo_i3_reach : reachable demo_in_cfg demo_i3.
Proof.
  do 3 (apply demo_dispatch_reach; [|demo_step|demo_step]).
  eapply reach_step; [|apply st_serve; demo_step].
  eapply reach_step; [apply reach_init|by apply (st_register _ [(5, Some 1%N)])].
Qed.

(** A send that waits, the outbound queue being full. *)
Definition demo_full_cfg : PeerConfig :=
  mkPeerConfig 200 1 60 1 InboundQueueFail 2 4 8 4 1 (Some defaultClassify).

Lemma demo_full_cfg_ok : peer_config_ok demo_full_cfg.
Proof. apply (peer_withDefaults_ok demo_full_cfg). demo_step. Qed.

Definition demo_event_request (t : N) : outboundRequest :=
  mkRequest t (demo_in_frame 3) TrafficBulk (frame_bytes (demo_in_frame 3)).
Definition demo_emit (w : World) : World :=
  let t := w_fresh w in
  let w := on_fresh (on_thread t (TBegin None true (demo_in_frame 3) TrafficBulk) w) in
  send_loop_step demo_full_cfg t None (demo_event_request t)
    (send_begin_step demo_full_cfg t None true (demo_in_frame 3) TrafficBulk w).
Definition demo_o2 : World := demo_emit (demo_emit initial_world).

Lemma demo_o2_reach : reachable demo_full_cfg demo_o2.
Proof.
  do 2 (eapply reach_step; [|apply st_loop; demo_step];
        eapply reach_step; [|apply st_begin; demo_step];
        eapply reach_step; [|apply st_send]).
  apply reach_init.
Qed.

Lemma peer_never_blocks_witness :
  fail Canceled (w_peer demo_w7) <> None /\
  chan_send 0 None (results (w_peer demo_w7)) <> None.
Proof.
  pose proof (peer_never_blocks demo_in_cfg demo_w7 demo_in_cfg_ok demo_w7_reach) as (H1 & H2 & _).
  split; [apply H1|apply (H2 demo_sched demo_request); demo_step].
Defined.

Lemma outbound_fifo_witness :
  stream_reqs 2 (w_enqueued demo_w4) = stream_reqs 2 (w_taken demo_w4) ++ [demo_request].
Proof.
  assert (reachable demo_in_cfg demo_w4) as R.
  { eapply reach_step; [|apply st_loop; demo_step].
    eapply reach_step; [|apply st_begin; demo_step].
    eapply reach_step; [|apply st_fill; demo_step].
    eapply reach_step; [apply reach_init|by apply st_call]. }
  exact (proj1 (proj2 (outbound_fifo demo_in_cfg demo_w4 demo_in_cfg_ok R)) eq_refl 2).
Defined.

Lemma send_nil_written_witness :
  exists req, req_id req = 0%N /\ req ∈ w_written demo_w9 /\ req ∈ w_enqueued demo_w9.
Proof.
  apply (send_nil_written demo_in_cfg demo_w9 0 (Some 1)).
  - exact demo_in_cfg_ok.
  - exact demo_w9_reach.
  - demo_step.
Defined.

Lemma call_gets_reply_witness : reply_ok demo_w15 0 demo_reply_frame.
Proof.
  apply (call_gets_reply demo_in_cfg demo_w15 0 (mkResult (Some demo_reply_frame) None)).
  - exact demo_in_cfg_ok.
  - exact demo_w15_reach.
  - demo_step.
  - demo_step.
  - reflexivity.
Defined.

Lemma handlers_in_order_witness :
  length (w_read demo_i3) = 3%nat /\ stream_frames 3 (w_accepted demo_i3) = [demo_in_frame 3; demo_in_frame 3] /\
  exists rest, stream_frames 3 (filter is_request (w_read demo_i3)) =
    stream_frames 3 (w_handled demo_i3) ++ in_queue 3 (inb (w_peer demo_i3)) ++ rest /\ (length rest <= 1)%nat.
Proof.
  split; [demo_step|]. split; [demo_step|].
  destruct (proj1 (handlers_in_order demo_in_cfg demo_i3 demo_in_cfg_ok demo_i3_reach) 3) as (rest & Hr & Hl & _).
  exists rest. split; [exact Hr|exact Hl].
Defined.

Lemma no_lost_wakeup_witness :
  in_queue 3 (inb (w_peer demo_i3)) <> [] /\ outbound (outb (w_peer demo_o2)) <> ∅ /\ w_sched demo_o2 <> SDone.
Proof.
  split.
  - apply (proj1 (no_lost_wakeup demo_in_cfg demo_i3 demo_in_cfg_ok demo_i3_reach eq_refl) (demo_in_frame 3)).
    demo_step.
  - destruct (proj2 (no_lost_wakeup demo_full_cfg demo_o2 demo_full_cfg_ok demo_o2_reach eq_refl) 1%N None
      (demo_event_request 1) ltac:(demo_step)) as (H1 & H2 & _).
    exact (conj H1 H2).
Defined.

Definition demo_failed (w : World) : World := on_peer (default (w_peer w) (fail Canceled (w_peer w))) w.

Lemma first_error_wins_witness :
  Err (w_peer (on_serve VRead (demo_failed demo_w7))) = Some Canceled /\
  closed (w_peer (on_serve VRead (demo_failed demo_w7))) = true.
Proof.
  apply (first_error_wins demo_in_cfg (demo_failed demo_w7)).
  - exact demo_in_cfg_ok.
  - eapply reach_step; [exact demo_w7_reach|apply (st_fail _ Canceled); demo_step].
  - demo_step.
  - apply rtc_once, st_serve. demo_step.
Defined.

Lemma call_close_race_witness :
  exists w, reachable demo_in_cfg w /\ Err (w_peer w) = Some ErrPeerClosed /\ w_threads w !! 0%N = Some TPanic /\ w_locked w = true.
Proof. apply (call_close_race demo_in_cfg true demo_call_frame ErrPeerClosed). reflexivity. Defined.
