(* ===== verification/PtyTypes.v ===== *)
(** Package pty: pty.go (sizes, process specifications, exit statuses),
    size_codec.go, and the ManagerConfig of manager.go. *)

From S2P Require Import Prelude Errors BigEndian.

(** ** pty.go *)

Record Size := mkSize { Cols : Z; Rows : Z }.
#[export] Instance Size_eq_dec : EqDecision Size.
Proof. solve_decision. Defined.

Definition Size_Validate (s : Size) : option error :=
  if (Cols s <=? 0) || (Rows s <=? 0) then Some ErrInvalidSize else None.

(** [Env] is [None] when nil. *)
Record ProcessSpec := mkProcessSpec {
  Command : string;
  Args : list string;
  Env : option (list string);
  Dir : string;
  InitialSize : Size;
}.

Definition ProcessSpec_Validate (s : ProcessSpec) : option error :=
  if bool_decide (Command s = "") then Some ErrCommandRequired else None.

(** [ExitReason]; [NoReason] is the zero value "". *)
Inductive ExitReason :=
| NoReason | ExitReasonExited | ExitReasonKilled | ExitReasonSignaled
| ExitReasonStartFailed | ExitReasonIOFailure.
#[export] Instance ExitReason_eq_dec : EqDecision ExitReason.
Proof. solve_decision. Defined.

(** [ExitStatus]; [Error] is the text of [ex_Error], [None] for "". *)
Record ExitStatus := mkExitStatus {
  ex_Reason : ExitReason;
  ex_Code : Z;
  ex_Signal : string;
  ex_Error : option error;
}.
#[export] Instance ExitStatus_eq_dec : EqDecision ExitStatus.
Proof. solve_decision. Defined.

(** ** size_codec.go *)

Definition EncodeSize (size : Size) : list byte + error :=
  match Size_Validate size with
  | Some e => inr e
  | None =>
      if (MaxUint32 <? u64 (Cols size)) || (MaxUint32 <? u64 (Rows size)) then inr ErrInvalidSize
      else inl (splice 4 (be_put 4 (u32 (Rows size)))
                 (splice 0 (be_put 4 (u32 (Cols size))) (replicate 8 Byte.x00)))
  end.

Definition DecodeSize (payload : list byte) : Size + error :=
  if negb (len payload =? 8) then inr ErrInvalidPayload
  else
    let cols := be_get (slice 0 4 payload) in
    let rows := be_get (slice 4 8 payload) in
    if (MaxInt <? cols) || (MaxInt <? rows) then inr ErrInvalidSize
    else
      let size := mkSize cols rows in
      match Size_Validate size with
      | Some e => inr e
      | None => inl size
      end.

(** Both dimensions fit the wire format. *)
Definition size_ok (s : Size) : Prop := 0 < Cols s <= MaxUint32 /\ 0 < Rows s <= MaxUint32.

Lemma Size_Validate_ok s : Size_Validate s = None <-> 0 < Cols s /\ 0 < Rows s.
Proof.
  unfold Size_Validate. destruct (_ || _) eqn:E; split; try done; intros H.
  - apply orb_true_iff in E as [E|E]; reflect_bools; lia.
  - reflect_bools. lia.
Qed.

Lemma encode_layout a b c d e f g h (x y : list byte) :
  length x = 4%nat -> length y = 4%nat ->
  splice 4 y (splice 0 x [a; b; c; d; e; f; g; h]) = x ++ y.
Proof.
  intros Hx Hy. unfold splice. cbn [take app]. rewrite Hx, Hy.
  rewrite (take_app_le x) by lia. rewrite (take_ge x) by lia. f_equal.
  rewrite (drop_app_ge x) by lia. rewrite Hx. cbn [Nat.add Nat.sub drop]. by rewrite app_nil_r.
Qed.

Lemma EncodeSize_ok s :
  -2 ^ 63 <= Cols s < 2 ^ 63 -> -2 ^ 63 <= Rows s < 2 ^ 63 ->
  EncodeSize s = if decide (0 < Cols s <= MaxUint32 /\ 0 < Rows s <= MaxUint32)
                 then inl (be_put 4 (Cols s) ++ be_put 4 (Rows s)) else inr ErrInvalidSize.
Proof.
  intros Hc Hr. unfold EncodeSize. destruct (Size_Validate s) as [e|] eqn:E.
  - assert (~ (0 < Cols s /\ 0 < Rows s)) by (rewrite <- Size_Validate_ok, E; done).
    unfold Size_Validate in E. destruct (_ || _); [|done]. injection E as <-.
    rewrite decide_False by lia. done.
  - apply Size_Validate_ok in E as [? ?]. rewrite !uwrap_small by (unfold fits_u; lia).
    case_decide as Hd.
    + assert ((MaxUint32 <? Cols s) || (MaxUint32 <? Rows s) = false) as ->
        by (apply orb_false_iff; split; apply Z.ltb_ge; lia).
      unfold MaxUint32 in Hd. rewrite !(uwrap_small 32) by (unfold fits_u; lia).
      cbn [replicate]. by rewrite encode_layout by apply length_be_put.
    + assert ((MaxUint32 <? Cols s) || (MaxUint32 <? Rows s) = true) as ->; [|done].
      apply orb_true_iff. rewrite !Z.ltb_lt. lia.
Qed.

Lemma decode_app x y :
  length x = 4%nat -> length y = 4%nat ->
  DecodeSize (x ++ y) =
    if (MaxInt <? be_get x) || (MaxInt <? be_get y) then inr ErrInvalidSize
    else match Size_Validate (mkSize (be_get x) (be_get y)) with
         | Some e => inr e
         | None => inl (mkSize (be_get x) (be_get y))
         end.
Proof.
  intros Hx Hy. unfold DecodeSize. rewrite len_app. unfold len. rewrite Hx, Hy.
  change (Z.of_nat 4 + Z.of_nat 4 =? 8) with true. cbn [negb].
  pose proof (slice_at [] x y 0 4 eq_refl Hx) as H1. cbn [app] in H1. rewrite H1.
  pose proof (slice_at x y [] 4 8 Hx ltac:(lia)) as H2. rewrite app_nil_r in H2. by rewrite H2.
Qed.

(** The size codec round-trips. [EncodeSize] succeeds exactly on sizes whose
    dimensions are positive and fit a uint32, with an 8-byte payload that
    [DecodeSize] maps back to the size; and every payload [DecodeSize] accepts is
    the encoding of the size it returns, so no two payloads mean the same size. *)
Theorem size_codec_roundtrip s payload :
  -2 ^ 63 <= Cols s < 2 ^ 63 -> -2 ^ 63 <= Rows s < 2 ^ 63 ->
  (size_ok s <-> exists p, EncodeSize s = inl p) /\
  (EncodeSize s = inl payload -> length payload = 8%nat /\ DecodeSize payload = inl s) /\
  (forall s', DecodeSize payload = inl s' -> size_ok s' /\ EncodeSize s' = inl payload).
Proof.
  intros Hc Hr. rewrite (EncodeSize_ok s Hc Hr). unfold size_ok. split; [|split].
  - case_decide; split; try done; [by eexists|by intros [? ?]].
  - case_decide as Hd; [|done]. intros Hp.
    assert (payload = be_put 4 (Cols s) ++ be_put 4 (Rows s)) as -> by congruence. unfold MaxUint32 in Hd.
    split; [by rewrite length_app, !length_be_put|].
    rewrite (decode_app (be_put 4 (Cols s)) (be_put 4 (Rows s))) by apply length_be_put.
    rewrite !be_get_put_small by (unfold fits_u; lia). unfold MaxInt.
    assert ((2 ^ 63 - 1 <? Cols s) || (2 ^ 63 - 1 <? Rows s) = false) as ->
      by (apply orb_false_iff; split; apply Z.ltb_ge; lia).
    rewrite (proj2 (Size_Validate_ok (mkSize (Cols s) (Rows s)))) by (cbn; lia). by destruct s.
  - intros s' Hd. unfold DecodeSize in Hd. destruct (Z.eqb_spec (len payload) 8) as [Hl|]; [|done].
    cbn [negb] in Hd. destruct (_ || _); [done|].
    destruct (Size_Validate _) eqn:E; [done|]. injection Hd as <-.
    apply Size_Validate_ok in E. cbn [Cols Rows] in *.
    assert (length payload = 8%nat) as Hlen by (unfold len in Hl; lia).
    assert (payload = slice 0 4 payload ++ slice 4 8 payload) as Hp.
    { do 9 (destruct payload as [|? payload]; try done). }
    assert (length (slice 0 4 payload) = 4%nat /\ length (slice 4 8 payload) = 4%nat) as [H1 H2]
      by (unfold slice; rewrite !length_take, !length_drop; lia).
    pose proof (be_get_bound (slice 0 4 payload)) as B1. pose proof (be_get_bound (slice 4 8 payload)) as B2.
    unfold len in B1, B2. rewrite H1 in B1. rewrite H2 in B2.
    change (8 * Z.of_nat 4) with 32 in B1, B2.
    assert (0 < be_get (slice 0 4 payload) <= MaxUint32 /\ 0 < be_get (slice 4 8 payload) <= MaxUint32)
      as Hok by (unfold MaxUint32; lia).
    split; [exact Hok|]. unfold MaxUint32 in Hok.
    rewrite EncodeSize_ok by (cbn [Cols Rows]; lia). cbn [Cols Rows].
    rewrite decide_True by exact Hok. f_equal. rewrite Hp at 3.
    f_equal; [rewrite <- H1 at 1|rewrite <- H2 at 1]; apply be_put_get.
Qed.

Lemma size_codec_roundtrip_witness :
  EncodeSize (mkSize 80 24) = inl (be_put 4 80 ++ be_put 4 24) /\
  DecodeSize (be_put 4 80 ++ be_put 4 24) = inl (mkSize 80 24).
Proof.
  assert (EncodeSize (mkSize 80 24) = inl (be_put 4 80 ++ be_put 4 24)) as E by (vm_compute; reflexivity).
  split; [exact E|].
  apply (size_codec_roundtrip (mkSize 80 24) (be_put 4 80 ++ be_put 4 24));
    [cbn; lia|cbn; lia|exact E].
Defined.

(** ** ManagerConfig (manager.go) *)

Definition DefaultReadBufferSize : Z := 32 * 1024.

(** [ExitedSessionPolicy]: a uint8. *)
Definition ExitedSessionRemove : Z := 0.
Definition ExitedSessionRetain : Z := 1.

(** Durations are int64 nanoseconds. *)
Record ManagerConfig := mkManagerConfig {
  MaxSessions : Z;
  HistoryBytes : Z;
  MaxTotalHistoryBytes : Z;
  ReadBufferBytes : Z;
  AttachmentQueueBytes : Z;
  ObserverQueueBytes : Z;
  MaxObservers : Z;
  ExitPolicy : Z;
  MaxRetainedSessions : Z;
  MaxAttachmentsPerSession : Z;
  AttachmentDrainTimeout : Z;
  GracefulKillTimeout : Z;
}.

Definition DefaultManagerConfig : ManagerConfig := {|
  MaxSessions := 256; HistoryBytes := Z.shiftl 16 20; MaxTotalHistoryBytes := Z.shiftl 512 20;
  ReadBufferBytes := DefaultReadBufferSize; AttachmentQueueBytes := Z.shiftl 4 20;
  ObserverQueueBytes := Z.shiftl 4 20; MaxObservers := 32;
  ExitPolicy := ExitedSessionRemove; MaxRetainedSessions := 0;
  MaxAttachmentsPerSession := 1;
  AttachmentDrainTimeout := 2 * 1000000000; GracefulKillTimeout := 2 * 1000000000 |}.

Definition ManagerConfig_validate (c : ManagerConfig) : option error :=
  if (MaxSessions c <=? 0) || (HistoryBytes c <? 0) || (MaxTotalHistoryBytes c <? 0) ||
     (ReadBufferBytes c <=? 0) || (AttachmentQueueBytes c <=? 0) || (ObserverQueueBytes c <=? 0) ||
     (MaxObservers c <=? 0) || (MaxAttachmentsPerSession c <=? 0) ||
     (AttachmentDrainTimeout c <? 0) || (GracefulKillTimeout c <? 0) then
    Some (New "pty: invalid ManagerConfig")
  else
    let lifecycle :=
      if ExitPolicy c =? ExitedSessionRemove then
        if negb (MaxRetainedSessions c =? 0)
        then Some (New "pty: removal policy cannot retain Sessions") else None
      else if ExitPolicy c =? ExitedSessionRetain then
        if MaxRetainedSessions c <=? 0
        then Some (New "pty: retention policy requires a positive Session limit") else None
      else Some (New "pty: invalid exited Session policy") in
    match lifecycle with
    | Some e => Some e
    | None =>
        if (0 <? HistoryBytes c) && (MaxTotalHistoryBytes c <? HistoryBytes c) &&
           negb (MaxTotalHistoryBytes c =? 0)
        then Some (New "pty: per-session history exceeds total history") else None
    end.

(** What the Manager relies on. *)
Record manager_config_ok (c : ManagerConfig) : Prop := {
  mc_sessions : 0 < MaxSessions c;
  mc_history : 0 <= HistoryBytes c /\ 0 <= MaxTotalHistoryBytes c;
  mc_history_le : HistoryBytes c <= MaxTotalHistoryBytes c \/ MaxTotalHistoryBytes c = 0;
  mc_buffers : 0 < ReadBufferBytes c /\ 0 < AttachmentQueueBytes c /\ 0 < ObserverQueueBytes c;
  mc_limits : 0 < MaxObservers c /\ 0 < MaxAttachmentsPerSession c;
  mc_timeouts : 0 <= AttachmentDrainTimeout c /\ 0 <= GracefulKillTimeout c;
  mc_lifecycle : ExitPolicy c = ExitedSessionRemove /\ MaxRetainedSessions c = 0 \/
                 ExitPolicy c = ExitedSessionRetain /\ 0 < MaxRetainedSessions c;
}.

Lemma ManagerConfig_validate_ok c : ManagerConfig_validate c = None <-> manager_config_ok c.
Proof.
  unfold ManagerConfig_validate. destruct (_ || (GracefulKillTimeout c <? 0)) eqn:E.
  { split; [done|]. intros [? ? ? ? ? ? ?]. exfalso.
    repeat (apply orb_true_iff in E as [E|E]); reflect_bools; lia. }
  reflect_bools. unfold ExitedSessionRemove, ExitedSessionRetain.
  split.
  - intros Hn. destruct (ExitPolicy c =? 0) eqn:E0; [|destruct (ExitPolicy c =? 1) eqn:E1; [|done]].
    all: repeat match type of Hn with context [if ?b then _ else _] =>
      let H := fresh "C" in destruct b eqn:H; [done|] end; reflect_bools.
    all: split; try (unfold ExitedSessionRemove, ExitedSessionRetain; lia).
    all: match goal with H : _ \/ _ |- _ => destruct H as [H|H]; reflect_bools; [destruct H; reflect_bools|]; lia end.
  - intros [? ? Hle ? ? ? Hl]. unfold ExitedSessionRemove, ExitedSessionRetain in Hl.
    assert ((0 <? HistoryBytes c) && (MaxTotalHistoryBytes c <? HistoryBytes c) &&
      negb (MaxTotalHistoryBytes c =? 0) = false) as ->.
    { apply not_true_iff_false. intros Hb. reflect_bools. lia. }
    destruct Hl as [[-> ->]|[-> Hp]]; cbn; [done|].
    by rewrite (proj2 (Z.leb_gt _ _)) by lia.
Qed.
