(* ===== verification/Attachment.v ===== *)
(** pty/manager.go: [Attachment], its bounded live queue, replay cursor and sink
    worker. The worker and the goroutines that queue events or close the
    attachment are a step relation; the sink answers as it likes. *)

From S2P Require Import Prelude Errors BigEndian PtyTypes.

(** ** Data *)

Record OutputEvent := mkOutputEvent { ev_Sequence : Z; ev_Data : list byte }.
#[export] Instance OutputEvent_eq_dec : EqDecision OutputEvent.
Proof. solve_decision. Defined.

Inductive AttachmentEventKind := AttachmentOutput | AttachmentExit.

Record AttachmentEvent := mkAttachmentEvent {
  ae_Kind : AttachmentEventKind;
  ae_Output : option OutputEvent;
  ae_Exit : option ExitStatus;
}.

Definition output_event (o : OutputEvent) : AttachmentEvent := mkAttachmentEvent AttachmentOutput (Some o) None.
Definition exit_event (e : ExitStatus) : AttachmentEvent := mkAttachmentEvent AttachmentExit None (Some e).

Inductive AttachmentCloseReason :=
| AttachmentClosedExplicitly | AttachmentContextCanceled | AttachmentSessionExited
| AttachmentQueueOverflow | AttachmentSinkFailure | AttachmentDrainTimeout_reason
| AttachmentManagerClosed | AttachmentSessionRemoved | AttachmentSessionEvicted.
#[export] Instance AttachmentCloseReason_eq_dec : EqDecision AttachmentCloseReason.
Proof. solve_decision. Defined.

(** [changed] numbers the channels stored in [a.changed]; [finished] and [done]
    are [finishOnce] and [doneOnce]; [reason] is [None] for "". *)
Record Attachment := mkAttachment {
  a_maxBytes : Z;
  a_replay : list OutputEvent;
  a_replayNext : nat;
  a_queue : list AttachmentEvent;
  a_bytes : Z;
  a_active : bool;
  a_closing : bool;
  a_closed : bool;
  a_err : option error;
  a_reason : option AttachmentCloseReason;
  a_changed : N;
  a_done : bool;
  a_finished : bool;
  a_started : bool;
  a_registered : bool;
}.

Definition newAttachment (maxBytes : Z) (active : bool) (replay : list OutputEvent) : Attachment :=
  mkAttachment maxBytes replay 0 [] 0 active false false None None 0 false false false false.

(** [start] *)
Definition start (a : Attachment) : bool * Attachment :=
  if a_closed a then (false, a)
  else (true, mkAttachment (a_maxBytes a) (a_replay a) (a_replayNext a) (a_queue a) (a_bytes a)
    (a_active a) (a_closing a) (a_closed a) (a_err a) (a_reason a) (a_changed a) (a_done a)
    (a_finished a) true (a_registered a)).

(** [a.registered = b] *)
Definition set_registered (b : bool) (a : Attachment) : Attachment :=
  mkAttachment (a_maxBytes a) (a_replay a) (a_replayNext a) (a_queue a) (a_bytes a)
    (a_active a) (a_closing a) (a_closed a) (a_err a) (a_reason a) (a_changed a) (a_done a)
    (a_finished a) (a_started a) b.

(** [Activate] *)
Definition Activate (a : Attachment) : option error * Attachment :=
  if a_closed a then (Some ErrAttachmentClosed, a)
  else if a_active a then (None, a)
  else (None, mkAttachment (a_maxBytes a) (a_replay a) (a_replayNext a) (a_queue a) (a_bytes a)
    true (a_closing a) (a_closed a) (a_err a) (a_reason a) (a_changed a + 1) (a_done a)
    (a_finished a) (a_started a) (a_registered a)).

(** [attachmentEventBytes] *)
Definition attachmentEventBytes (event : AttachmentEvent) : Z :=
  match ae_Output event with Some o => len (ev_Data o) | None => 0 end.

(** [a.queue = append(a.queue, event)] with the new byte count and closing flag,
    and [signalLocked]. *)
Definition push (event : AttachmentEvent) (size : Z) (closing : bool) (a : Attachment) : Attachment :=
  mkAttachment (a_maxBytes a) (a_replay a) (a_replayNext a) (a_queue a ++ [event]) (a_bytes a + size)
    (a_active a) closing (a_closed a) (a_err a) (a_reason a) (a_changed a + 1) (a_done a)
    (a_finished a) (a_started a) (a_registered a).

(** [enqueueLocked] *)
Definition enqueueLocked (event : AttachmentEvent) (a : Attachment) : option error * Attachment :=
  if a_closed a || a_closing a then (Some ErrAttachmentClosed, a)
  else
    let size := attachmentEventBytes event in
    if (a_maxBytes a <? size) || (a_maxBytes a <? a_bytes a + size) then (Some ErrQueueOverflow, a)
    else (None, push event size (a_closing a) a).

(** [enqueueExitLocked] *)
Definition enqueueExitLocked (status : ExitStatus) (a : Attachment) : option error * Attachment :=
  if a_closed a || a_closing a then (Some ErrAttachmentClosed, a)
  else (None, push (exit_event status) 0 true a).

(** [finish] on the attachment itself: the body of [finishOnce.Do] under [a.mu],
    and [closeDone] when no worker was started. *)
Definition finish (err : option error) (reason : AttachmentCloseReason) (a : Attachment) : Attachment :=
  if a_finished a then a
  else mkAttachment (a_maxBytes a) [] 0 [] 0 (a_active a) (a_closing a) true err (Some reason)
    (a_changed a + 1) (if a_started a then a_done a else true) true (a_started a) (a_registered a).

(** [closeDone] *)
Definition closeDone (a : Attachment) : Attachment :=
  mkAttachment (a_maxBytes a) (a_replay a) (a_replayNext a) (a_queue a) (a_bytes a)
    (a_active a) (a_closing a) (a_closed a) (a_err a) (a_reason a) (a_changed a) true
    (a_finished a) (a_started a) (a_registered a).

Inductive run_outcome :=
| RunReturn                                    (* closed: return *)
| RunExited                                    (* a.finish(nil, AttachmentSessionExited); return *)
| RunWait (gen : N)                            (* the select on changed and a.ctx *)
| RunSend (event : AttachmentEvent).           (* a.sink.Send(a.ctx, event) *)

(** One iteration of [run] up to [a.mu.Unlock()]. *)
Definition run_section (a : Attachment) : run_outcome * Attachment :=
  if a_closed a then (RunReturn, a)
  else
    let replayPending := (a_replayNext a <? length (a_replay a))%nat in
    let queueEmpty := (length (a_queue a) =? 0)%nat in
    if a_closing a && negb replayPending && queueEmpty then (RunExited, a)
    else if negb (a_active a) || (negb replayPending && queueEmpty) then (RunWait (a_changed a), a)
    else
      match a_replay a !! a_replayNext a, a_queue a with
      | Some output, _ =>
          let next := S (a_replayNext a) in
          let '(replay, next) := if (next =? length (a_replay a))%nat then ([], O) else (a_replay a, next) in
          (RunSend (output_event output),
           mkAttachment (a_maxBytes a) replay next (a_queue a) (a_bytes a)
             (a_active a) (a_closing a) (a_closed a) (a_err a) (a_reason a) (a_changed a + 1) (a_done a)
             (a_finished a) (a_started a) (a_registered a))
      | None, event :: queue =>
          (RunSend event,
           mkAttachment (a_maxBytes a) (a_replay a) (a_replayNext a) queue (a_bytes a - attachmentEventBytes event)
             (a_active a) (a_closing a) (a_closed a) (a_err a) (a_reason a) (a_changed a + 1) (a_done a)
             (a_finished a) (a_started a) (a_registered a))
      | None, [] => (RunWait (a_changed a), a)
      end.

(** The events still to be delivered. *)
Definition remaining (a : Attachment) : list AttachmentEvent :=
  (output_event <$> drop (a_replayNext a) (a_replay a)) ++ a_queue a.

(** ** The worker and the other goroutines *)

Inductive run_pc :=
| RLoop
| RWaiting (gen : N)
| RSending (event : AttachmentEvent)
| RFinish (err : option error) (reason : AttachmentCloseReason)  (* about to call finish, then return *)
| RReturned.

(** The attachment, its worker, and the history: the events accepted in the live
    queue and those passed to the sink. *)
Record AState := mkAState {
  att : Attachment;
  run_at : run_pc;
  offered : list AttachmentEvent;
  delivered : list AttachmentEvent;
}.

Definition initial_astate (maxBytes : Z) (active : bool) (replay : list OutputEvent) : AState :=
  mkAState (start (newAttachment maxBytes active replay)).2 RLoop [] [].

Inductive a_step : AState -> AState -> Prop :=
| as_enqueue o s a :
    enqueueLocked (output_event o) (att s) = (None, a) ->
    a_step s (mkAState a (run_at s) (offered s ++ [output_event o]) (delivered s))
| as_exit status s a :
    enqueueExitLocked status (att s) = (None, a) ->
    a_step s (mkAState a (run_at s) (offered s ++ [exit_event status]) (delivered s))
| as_activate s : a_step s (mkAState (Activate (att s)).2 (run_at s) (offered s) (delivered s))
| as_finish err reason s :
    a_step s (mkAState (finish err reason (att s)) (run_at s) (offered s) (delivered s))
| as_run s :
    run_at s = RLoop ->
    a_step s (let '(out, a) := run_section (att s) in
      mkAState a (match out with
                  | RunReturn => RReturned
                  | RunExited => RFinish None AttachmentSessionExited
                  | RunWait gen => RWaiting gen
                  | RunSend event => RSending event
                  end) (offered s)
        (match out with RunSend event => delivered s ++ [event] | _ => delivered s end))
| as_changed gen s :
    run_at s = RWaiting gen -> (gen < a_changed (att s))%N ->
    a_step s (mkAState (att s) RLoop (offered s) (delivered s))
| as_ctx_done gen reason s :
    run_at s = RWaiting gen ->
    a_step s (mkAState (att s) (RFinish None reason) (offered s) (delivered s))
| as_sent event s :
    run_at s = RSending event -> a_step s (mkAState (att s) RLoop (offered s) (delivered s))
| as_send_failed event err reason s :
    run_at s = RSending event ->
    a_step s (mkAState (att s) (RFinish (Some err) reason) (offered s) (delivered s))
| as_worker_finish err reason s :
    run_at s = RFinish err reason ->
    a_step s (mkAState (closeDone (finish err reason (att s))) RReturned (offered s) (delivered s)).

Inductive a_reachable (maxBytes : Z) (active : bool) (replay : list OutputEvent) : AState -> Prop :=
| ar_init : a_reachable maxBytes active replay (initial_astate maxBytes active replay)
| ar_step s s' : a_reachable maxBytes active replay s -> a_step s s' -> a_reachable maxBytes active replay s'.

(** ** Invariant *)

Definition is_exit (e : AttachmentEvent) : Prop := ae_Kind e = AttachmentExit.
#[export] Instance is_exit_dec e : Decision (is_exit e).
Proof. unfold is_exit. destruct (ae_Kind e); [right|left]; done. Defined.

Record a_inv (maxBytes : Z) (replay : list OutputEvent) (s : AState) : Prop := {
  ai_max : a_maxBytes (att s) = maxBytes;
  ai_bytes : a_bytes (att s) = sumZ attachmentEventBytes (a_queue (att s));
  ai_bound : 0 <= a_bytes (att s) <= maxBytes;
  ai_cursor : (a_replayNext (att s) <= length (a_replay (att s)))%nat;
  ai_order : if a_closed (att s) then delivered s `prefix_of` (output_event <$> replay) ++ offered s
             else (output_event <$> replay) ++ offered s = delivered s ++ remaining (att s);
  ai_exit : exists outs exits, offered s = outs ++ exits /\ Forall (fun e => ~ is_exit e) outs /\
            (if a_closing (att s) then exists status, exits = [exit_event status] else exits = []);
  ai_finished : a_finished (att s) = a_closed (att s);
  ai_err : a_closed (att s) = bool_decide (is_Some (a_reason (att s)));
  ai_active : delivered s <> [] -> a_active (att s) = true;
}.

Lemma event_bytes_nonneg e : 0 <= attachmentEventBytes e.
Proof. unfold attachmentEventBytes. destruct (ae_Output e); [apply len_nonneg|done]. Qed.

Lemma initial_a_inv maxBytes active replay :
  0 <= maxBytes -> a_inv maxBytes replay (initial_astate maxBytes active replay).
Proof.
  intros Hmax. split; cbn; try done.
  - lia.
  - by exists [], [].
Qed.

Lemma run_section_remaining a :
  (a_replayNext a <= length (a_replay a))%nat ->
  let '(out, a') := run_section a in
  match out with
  | RunReturn => a_closed a = true /\ a' = a
  | RunExited => a_closed a = false /\ a_closing a = true /\ remaining a = [] /\ a' = a
  | RunWait gen => a_closed a = false /\ a' = a /\ gen = a_changed a /\
      (a_active a = false \/ remaining a = [] /\ a_closing a = false)
  | RunSend event => a_closed a = false /\ a_active a = true /\ remaining a = event :: remaining a' /\
      a_closed a' = false /\ a_closing a' = a_closing a /\ a_active a' = true /\ a_maxBytes a' = a_maxBytes a /\
      a_finished a' = a_finished a /\ a_reason a' = a_reason a /\
      (a_replayNext a' <= length (a_replay a'))%nat /\
      (a_queue a' = a_queue a /\ a_bytes a' = a_bytes a \/
       a_queue a = event :: a_queue a' /\ a_bytes a' = a_bytes a - attachmentEventBytes event)
  end.
Proof.
  intros Hc. unfold run_section. destruct (a_closed a) eqn:Ecl; [done|].
  assert (remaining a = [] <-> (a_replayNext a <? length (a_replay a))%nat = false /\
    (length (a_queue a) =? 0)%nat = true) as Hrem.
  { unfold remaining. rewrite Nat.ltb_ge, Nat.eqb_eq. split.
    - intros Hn. apply app_eq_nil in Hn as [Hd Hq]. rewrite Hq. apply fmap_nil_inv in Hd.
      apply (f_equal length) in Hd. rewrite length_drop in Hd. cbn in *. lia.
    - intros [Hle Hq]. rewrite drop_ge by done. destruct (a_queue a); done. }
  destruct (a_replayNext a <? length (a_replay a))%nat eqn:Er;
    destruct (length (a_queue a) =? 0)%nat eqn:Eq; cbn [negb andb orb];
    rewrite ?andb_true_r, ?andb_false_r, ?orb_false_r, ?orb_true_r.
  3: { destruct (a_closing a) eqn:Ecg; cbn; [by rewrite Hrem|]. split_and!; try done. right. by rewrite Hrem. }
  all: destruct (a_active a) eqn:Ea; cbn [negb]; [|split_and!; try done; by left].
  1,2: apply Nat.ltb_lt in Er; destruct (lookup_lt_is_Some_2 _ _ Er) as [o Ho]; rewrite Ho;
    destruct (Nat.eqb_spec (S (a_replayNext a)) (length (a_replay a))) as [He|]; cbn; split_and!; try done;
    first [lia | by left | unfold remaining; cbn; rewrite (drop_S _ _ _ Ho); cbn; first [done | by rewrite drop_ge by lia]].
  apply Nat.ltb_ge in Er. rewrite lookup_ge_None_2 by lia.
  destruct (a_queue a) as [|e q] eqn:Eqq; [done|]. cbn. split_and!; try done.
  - unfold remaining; cbn. rewrite Eqq. by rewrite drop_ge.
  - by right.
Qed.

(** *** Preservation *)

Lemma remaining_push e size c a : (a_replayNext a <= length (a_replay a))%nat ->
  remaining (push e size c a) = remaining a ++ [e].
Proof. intros _. unfold remaining, push; cbn. by rewrite app_assoc. Qed.

Lemma ai_order_offer maxBytes replay s e l :
  a_inv maxBytes replay s -> a_closed (att s) = false -> l = remaining (att s) ++ [e] ->
  (output_event <$> replay) ++ offered s ++ [e] = delivered s ++ l.
Proof.
  intros I Hop ->. pose proof (ai_order _ _ _ I) as Ho. rewrite Hop in Ho.
  by rewrite (assoc_L (++)), Ho, <- (assoc_L (++)).
Qed.

Lemma a_inv_enqueue maxBytes replay s o a :
  a_inv maxBytes replay s -> enqueueLocked (output_event o) (att s) = (None, a) ->
  a_inv maxBytes replay (mkAState a (run_at s) (offered s ++ [output_event o]) (delivered s)).
Proof.
  intros I He. unfold enqueueLocked in He. destruct (_ || _) eqn:E1; [done|].
  destruct ((a_maxBytes (att s) <? _) || _) eqn:E2; [done|]. injection He as <-.
  apply orb_false_iff in E1 as [Hop Hcg]. reflect_bools. rewrite Hcg.
  pose proof (event_bytes_nonneg (output_event o)) as Hnn.
  pose proof (ai_order_offer _ _ _ (output_event o) _ I Hop eq_refl) as Hord. destruct I.
  split; cbn [att offered delivered run_at]; cbn -[remaining attachmentEventBytes output_event exit_event]; rewrite ?Hop; try done.
  - mux_rw. rewrite ai_bytes0. lia.
  - lia.
  - by rewrite remaining_push.
  - rewrite Hcg in ai_exit0. destruct ai_exit0 as (outs & exits & -> & Hf & ->).
    exists (outs ++ [output_event o]), []. rewrite !app_nil_r. split; [done|]. split; [|done].
    apply Forall_app. split; [done|]. by constructor.
  - congruence.
  - congruence.
Qed.

Lemma a_inv_exit maxBytes replay s status a :
  a_inv maxBytes replay s -> enqueueExitLocked status (att s) = (None, a) ->
  a_inv maxBytes replay (mkAState a (run_at s) (offered s ++ [exit_event status]) (delivered s)).
Proof.
  intros I He. unfold enqueueExitLocked in He. destruct (_ || _) eqn:E1; [done|].
  injection He as <-. apply orb_false_iff in E1 as [Hop Hcg].
  pose proof (ai_order_offer _ _ _ (exit_event status) _ I Hop eq_refl) as Hord. destruct I.
  split; cbn [att offered delivered run_at]; cbn -[remaining attachmentEventBytes output_event exit_event]; rewrite ?Hop; try done.
  - mux_rw. rewrite ai_bytes0. change (attachmentEventBytes (exit_event status)) with 0. lia.
  - lia.
  - by rewrite remaining_push.
  - rewrite Hcg in ai_exit0. destruct ai_exit0 as (outs & exits & -> & Hf & ->).
    exists outs, [exit_event status]. rewrite app_nil_r. split; [done|]. split; [done|]. by eexists.
  - congruence.
  - congruence.
Qed.

Lemma a_inv_finish maxBytes replay s err reason pc :
  a_inv maxBytes replay s ->
  a_inv maxBytes replay (mkAState (finish err reason (att s)) pc (offered s) (delivered s)).
Proof.
  intros I. unfold finish. destruct (a_finished (att s)) eqn:Ef; [by destruct I|].
  destruct I. rewrite Ef in ai_finished0. rewrite <- ai_finished0 in ai_order0.
  split; cbn; try done.
  - lia.
  - rewrite ai_order0. by apply prefix_app_r.
Qed.

Lemma a_inv_closeDone maxBytes replay s pc :
  a_inv maxBytes replay s ->
  a_inv maxBytes replay (mkAState (closeDone (att s)) pc (offered s) (delivered s)).
Proof. intros []. by split. Qed.

Lemma a_inv_pc maxBytes replay s pc :
  a_inv maxBytes replay s -> a_inv maxBytes replay (mkAState (att s) pc (offered s) (delivered s)).
Proof. intros []. by split. Qed.

Lemma a_inv_step maxBytes replay s s' : a_inv maxBytes replay s -> a_step s s' -> a_inv maxBytes replay s'.
Proof.
  intros I Hs. destruct Hs.
  - by apply a_inv_enqueue.
  - by apply a_inv_exit.
  - unfold Activate. destruct (a_closed (att s)) eqn:Ec; [by apply a_inv_pc|].
    destruct (a_active (att s)); [by apply a_inv_pc|]. destruct I.
    split; cbn -[remaining attachmentEventBytes output_event exit_event]; rewrite ?Ec in *; done.
  - by apply a_inv_finish.
  - pose proof (run_section_remaining (att s) (ai_cursor _ _ _ I)) as Hr.
    destruct (run_section (att s)) as [[| |gen|event] a].
    + destruct Hr as [_ ->]. by apply a_inv_pc.
    + destruct Hr as (_ & _ & _ & ->). by apply a_inv_pc.
    + destruct Hr as (_ & -> & _). by apply a_inv_pc.
    + destruct Hr as (Hop & Hact & Hrem & Hop' & Hcg & Hact' & Hmax & Hfin & Hrea & Hcur & Hq).
      pose proof (event_bytes_nonneg event) as Hnn. destruct I. rewrite Hop in ai_order0.
      split; cbn -[remaining attachmentEventBytes output_event exit_event]; rewrite ?Hop', ?Hcg, ?Hmax, ?Hfin, ?Hrea; try done.
      * destruct Hq as [[-> ->]|[Hq ->]]; [done|]. rewrite ai_bytes0, Hq. mux_rw. lia.
      * destruct Hq as [[_ ->]|[Hq ->]]; [done|]. rewrite ai_bytes0, Hq in ai_bound0 |- *. mux_rw.
        assert (0 <= sumZ attachmentEventBytes (a_queue a)) by (apply sumZ_nonneg; intros; apply event_bytes_nonneg).
        lia.
      * rewrite ai_order0, Hrem. by rewrite <- (assoc_L (++)).
      * congruence.
      * congruence.
  - by apply a_inv_pc.
  - by apply a_inv_pc.
  - by apply a_inv_pc.
  - by apply a_inv_pc.
  - apply (a_inv_closeDone _ _ (mkAState (finish err reason (att s)) RReturned (offered s) (delivered s))).
    by apply a_inv_finish.
Qed.

Lemma a_reachable_inv maxBytes active replay s :
  0 <= maxBytes -> a_reachable maxBytes active replay s -> a_inv maxBytes replay s.
Proof. intros Hm. induction 1; [by apply initial_a_inv|by eapply a_inv_step]. Qed.

(** ** Properties *)

(** C10. An attachment delivers in order, without loss or duplication. Whatever
    the interleaving of output, exit, Activate, Close, cancellation and sink
    failures, the events passed to the sink are a prefix of the replay followed
    by the live events accepted; while the attachment is open the rest is exactly
    what it still holds; nothing is delivered before it is activated; and the
    live queue never exceeds its byte limit. *)
Theorem attachment_order maxBytes active replay s :
  0 <= maxBytes -> a_reachable maxBytes active replay s ->
  delivered s `prefix_of` (output_event <$> replay) ++ offered s /\
  (a_closed (att s) = false ->
     (output_event <$> replay) ++ offered s = delivered s ++ remaining (att s)) /\
  (delivered s <> [] -> a_active (att s) = true) /\
  sumZ attachmentEventBytes (a_queue (att s)) <= maxBytes.
Proof.
  intros Hm Hr. pose proof (a_reachable_inv _ _ _ _ Hm Hr) as I.
  pose proof (ai_order _ _ _ I) as Ho. split_and!.
  - destruct (a_closed (att s)); [done|]. rewrite Ho. by apply prefix_app_r.
  - intros Hop. by rewrite Hop in Ho.
  - apply (ai_active _ _ _ I).
  - rewrite <- (ai_bytes _ _ _ I). apply (ai_bound _ _ _ I).
Qed.

(** The exit event is the last one. Once the exit status is queued no further
    event is accepted; a sink that receives the exit status has received the
    whole replay and every accepted output before it, and receives nothing
    after it. The exit status needs no queue space. *)
Theorem attachment_exit_last maxBytes active replay s e :
  0 <= maxBytes -> a_reachable maxBytes active replay s -> e ∈ delivered s -> is_exit e ->
  exists outs status, e = exit_event status /\ offered s = outs ++ [exit_event status] /\
    delivered s = (output_event <$> replay) ++ outs ++ [exit_event status] /\
    forall o, (enqueueLocked (output_event o) (att s)).1 = Some ErrAttachmentClosed.
Proof.
  intros Hm Hr He Hx. pose proof (a_reachable_inv _ _ _ _ Hm Hr) as I.
  assert (delivered s `prefix_of` (output_event <$> replay) ++ offered s) as [rest Hpre].
  { pose proof (ai_order _ _ _ I) as Ho. destruct (a_closed (att s)); [done|].
    rewrite Ho. by apply prefix_app_r. }
  destruct (ai_exit _ _ _ I) as (outs & exits & Hof & Hno & Hcg).
  assert (Forall (fun e => ~ is_exit e) (output_event <$> replay)) as Hro
    by (apply Forall_fmap, Forall_forall; by intros ? _).
  assert (Forall (fun e => ~ is_exit e) ((output_event <$> replay) ++ outs)) as Hall by (by apply Forall_app).
  rewrite Hof, (assoc_L (++)) in Hpre. destruct (a_closing (att s)) eqn:Ecg.
  2: { subst exits. rewrite app_nil_r in Hpre. rewrite Hpre in Hall. apply Forall_app in Hall as [Hd _].
       rewrite Forall_forall in Hd. by destruct (Hd e He). }
  destruct Hcg as [status ->]. exists outs, status.
  assert (rest = [] /\ delivered s = ((output_event <$> replay) ++ outs) ++ [exit_event status]) as [_ Hd].
  { destruct rest as [|x rest] using rev_ind; [by rewrite app_nil_r in Hpre|].
    rewrite (assoc_L (++)) in Hpre. apply app_inj_tail in Hpre as [Hpre _].
    rewrite Hpre in Hall. apply Forall_app in Hall as [Hd _].
    rewrite Forall_forall in Hd. by destruct (Hd e He). }
  split_and!.
  - rewrite Hd in He. apply elem_of_app in He as [He|He%list_elem_of_singleton]; [|done].
    rewrite Forall_forall in Hall. by destruct (Hall e He).
  - done.
  - by rewrite Hd, <- (assoc_L (++)).
  - intros o. unfold enqueueLocked. by rewrite Ecg, orb_true_r.
Qed.

(** The worker alone, with a sink that accepts everything: [n] iterations. *)
Fixpoint drain (n : nat) (s : AState) : AState :=
  match n with
  | O => s
  | S n =>
      let '(out, a) := run_section (att s) in
      match out with
      | RunReturn => mkAState a RReturned (offered s) (delivered s)
      | RunExited => mkAState (closeDone (finish None AttachmentSessionExited a)) RReturned (offered s) (delivered s)
      | RunWait gen => mkAState a (RWaiting gen) (offered s) (delivered s)
      | RunSend event => drain n (mkAState a RLoop (offered s) (delivered s ++ [event]))
      end
  end.

Lemma drain_S n s :
  drain (S n) s =
    let '(out, a) := run_section (att s) in
    match out with
    | RunReturn => mkAState a RReturned (offered s) (delivered s)
    | RunExited => mkAState (closeDone (finish None AttachmentSessionExited a)) RReturned (offered s) (delivered s)
    | RunWait gen => mkAState a (RWaiting gen) (offered s) (delivered s)
    | RunSend event => drain n (mkAState a RLoop (offered s) (delivered s ++ [event]))
    end.
Proof. reflexivity. Qed.

Lemma drain_delivers s :
  (a_replayNext (att s) <= length (a_replay (att s)))%nat ->
  a_closed (att s) = false -> a_finished (att s) = false -> a_active (att s) = true ->
  a_closing (att s) = true ->
  let s' := drain (S (length (remaining (att s)))) s in
  delivered s' = delivered s ++ remaining (att s) /\ run_at s' = RReturned /\
  a_done (att s') = true /\ a_reason (att s') = Some AttachmentSessionExited /\ a_err (att s') = None.
Proof.
  remember (remaining (att s)) as l eqn:El. revert s El.
  induction l as [|e l IH]; intros s El Hcur Hop Hfin Hact Hcg; cbv zeta; cbn [length]; rewrite drain_S;
    pose proof (run_section_remaining (att s) Hcur) as Hr;
    destruct (run_section (att s)) as [[| |gen|event] a].
  - destruct Hr. congruence.
  - destruct Hr as (_ & _ & _ & ->). unfold finish. rewrite Hfin. cbn. by rewrite app_nil_r.
  - destruct Hr as (_ & _ & _ & [?|[_ ?]]); congruence.
  - destruct Hr as (_ & _ & Hrem & _). congruence.
  - destruct Hr. congruence.
  - destruct Hr as (_ & _ & Hrem & _). congruence.
  - destruct Hr as (_ & _ & _ & [?|[_ ?]]); congruence.
  - destruct Hr as (_ & _ & Hrem & Hop' & Hcg' & Hact' & _ & Hfin' & _ & Hcur' & _).
    rewrite <- El in Hrem. injection Hrem as -> ->.
    destruct (IH (mkAState a RLoop (offered s) (delivered s ++ [event])))
      as (Hd & Hrest); cbn [att]; try congruence; try done.
    split; [|exact Hrest].
    rewrite Hd. cbn [delivered]. by rewrite <- (assoc_L (++)).
Qed.

(** An exited session drains. From any reachable state of an open, active
    attachment whose session has exited, a sink that accepts what it is given
    receives everything that remains, ending with the exit status, in as many
    iterations of the worker as there are events, and the attachment then closes
    itself with the reason session_exited and no error. *)
Theorem attachment_drains maxBytes active replay s :
  0 <= maxBytes -> a_reachable maxBytes active replay s ->
  a_closed (att s) = false -> a_active (att s) = true -> a_closing (att s) = true ->
  let s' := drain (S (length (remaining (att s)))) s in
  delivered s' = (output_event <$> replay) ++ offered s /\
  run_at s' = RReturned /\ a_done (att s') = true /\
  a_reason (att s') = Some AttachmentSessionExited /\ a_err (att s') = None.
Proof.
  intros Hm Hr Hop Hact Hcg. pose proof (a_reachable_inv _ _ _ _ Hm Hr) as I. cbv zeta.
  destruct (drain_delivers s) as (Hd & Hrest); try done.
  - apply (ai_cursor _ _ _ I).
  - rewrite (ai_finished _ _ _ I). done.
  - split; [|done]. rewrite Hd. pose proof (ai_order _ _ _ I) as Ho. by rewrite Hop in Ho.
Qed.

(** *** Witnesses *)

Definition demo_output (n : Z) : OutputEvent := mkOutputEvent n [Byte.x61; Byte.x62].
Definition demo_status : ExitStatus := mkExitStatus ExitReasonExited 0 "" None.

(** A replay of two chunks, one live chunk, then the exit status. *)
Definition demo_att0 : AState := initial_astate 4 true [demo_output 1; demo_output 2].
Definition demo_att2 : AState :=
  mkAState (push (exit_event demo_status) 0 true (push (output_event (demo_output 3)) 2 false (att demo_att0)))
    RLoop [output_event (demo_output 3); exit_event demo_status] [].

Lemma demo_att2_reach : a_reachable 4 true [demo_output 1; demo_output 2] demo_att2.
Proof.
  eapply ar_step; [|exact (as_exit demo_status
    (mkAState (push (output_event (demo_output 3)) 2 false (att demo_att0)) RLoop [output_event (demo_output 3)] [])
    _ eq_refl)].
  eapply ar_step; [apply ar_init|exact (as_enqueue (demo_output 3) demo_att0 _ eq_refl)].
Qed.

Definition demo_send (s : AState) : AState :=
  match run_section (att s) with
  | (RunSend event, a) => mkAState a RLoop (offered s) (delivered s ++ [event])
  | _ => s
  end.

Lemma demo_send_reach s event a :
  a_reachable 4 true [demo_output 1; demo_output 2] s -> run_at s = RLoop ->
  run_section (att s) = (RunSend event, a) -> a_reachable 4 true [demo_output 1; demo_output 2] (demo_send s).
Proof.
  intros Hr Hl He. unfold demo_send. rewrite He.
  pose proof (as_run s Hl) as Hs. rewrite He in Hs.
  eapply ar_step; [eapply ar_step; [exact Hr|exact Hs]|].
  exact (as_sent event (mkAState a (RSending event) (offered s) (delivered s ++ [event])) eq_refl).
Qed.

Definition demo_att6 : AState := demo_send (demo_send (demo_send (demo_send demo_att2))).

Lemma demo_att6_reach : a_reachable 4 true [demo_output 1; demo_output 2] demo_att6.
Proof.
  unfold demo_att6. do 4 (eapply demo_send_reach; [|reflexivity|reflexivity]). exact demo_att2_reach.
Qed.

Lemma attachment_order_witness :
  (output_event <$> [demo_output 1; demo_output 2]) ++ offered demo_att2 = remaining (att demo_att2).
Proof.
  exact (proj1 (proj2 (attachment_order 4 true [demo_output 1; demo_output 2] demo_att2
    ltac:(lia) demo_att2_reach)) eq_refl).
Defined.

Lemma attachment_exit_last_witness :
  exists outs status, exit_event demo_status = exit_event status /\
    offered demo_att6 = outs ++ [exit_event status] /\
    delivered demo_att6 = (output_event <$> [demo_output 1; demo_output 2]) ++ outs ++ [exit_event status] /\
    forall o, (enqueueLocked (output_event o) (att demo_att6)).1 = Some ErrAttachmentClosed.
Proof.
  apply (attachment_exit_last 4 true [demo_output 1; demo_output 2] demo_att6).
  - lia.
  - exact demo_att6_reach.
  - vm_compute. do 3 apply list_elem_of_further. apply list_elem_of_here.
  - reflexivity.
Defined.

Lemma attachment_drains_witness :
  delivered (drain 5 demo_att2) = (output_event <$> [demo_output 1; demo_output 2]) ++ offered demo_att2.
Proof.
  exact (proj1 (attachment_drains 4 true [demo_output 1; demo_output 2] demo_att2 ltac:(lia)
    demo_att2_reach eq_refl eq_refl eq_refl)).
Defined.
