(* ===== verification/Subscription.v ===== *)
(** pty/manager.go: session snapshots, observer events and [Subscription], the
    bounded queue of one observer. *)

From S2P Require Import Prelude Errors BigEndian PtyTypes Attachment.

(** ** Data *)

Inductive SessionState :=
| SessionStarting | SessionRunning | SessionStopping | SessionExited | SessionFailed.
#[export] Instance SessionState_eq_dec : EqDecision SessionState.
Proof. solve_decision. Defined.

Record SessionInfo := mkSessionInfo {
  si_ID : Z;
  si_State : SessionState;
  si_Size : Size;
  si_StartedAt : Z;
  si_LastSequence : Z;
  si_Exit : option ExitStatus;
  si_AttachmentCount : Z;
  si_HistoryAvailable : bool;
}.

Inductive EventKind :=
| EventOpened | EventOutput | EventExited | EventAttached | EventDetached
| EventRetained | EventEvicted | EventRemoved.
#[export] Instance EventKind_eq_dec : EqDecision EventKind.
Proof. solve_decision. Defined.

Record AttachmentInfo := mkAttachmentInfo { ai_ID : Z; ai_Reason : option AttachmentCloseReason }.

Record Event := mkEvent {
  e_Kind : EventKind;
  e_Session : SessionInfo;
  e_Output : option OutputEvent;
  e_Attachment : option AttachmentInfo;
}.

Inductive ObserverCloseReason :=
| ObserverClosedExplicitly | ObserverContextCanceled | ObserverQueueOverflow | ObserverManagerClosed.
#[export] Instance ObserverCloseReason_eq_dec : EqDecision ObserverCloseReason.
Proof. solve_decision. Defined.

Definition eventBytes (event : Event) : Z :=
  match e_Output event with Some o => len (ev_Data o) + 64 | None => 128 end.

(** [su_finished] is [finishOnce] and the closed [done] channel. *)
Record Subscription := mkSubscription {
  su_maxBytes : Z;
  su_queue : list Event;
  su_bytes : Z;
  su_closed : bool;
  su_err : option error;
  su_reason : option ObserverCloseReason;
  su_changed : N;
  su_finished : bool;
}.

Definition newSubscription (max : Z) : Subscription := mkSubscription max [] 0 false None None 0 false.

(** [enqueue] *)
Definition enqueue (event : Event) (s : Subscription) : option error * Subscription :=
  if su_closed s then (Some ErrObserverClosed, s)
  else
    let size := eventBytes event in
    if (su_maxBytes s <? size) || (su_maxBytes s <? su_bytes s + size) then (Some ErrQueueOverflow, s)
    else (None, mkSubscription (su_maxBytes s) (su_queue s ++ [event]) (su_bytes s + size)
            (su_closed s) (su_err s) (su_reason s) (su_changed s + 1) (su_finished s)).

(** [finish], up to [recordObserverClose]. *)
Definition finish (err : option error) (reason : ObserverCloseReason) (s : Subscription) : Subscription :=
  if su_finished s then s
  else mkSubscription (su_maxBytes s) [] 0 true err (Some reason) (su_changed s + 1) true.

Inductive next_outcome := NextEvent (e : Event) | NextClosed | NextWait (gen : N).

(** One iteration of [next] up to its select. *)
Definition next_section (s : Subscription) : next_outcome * Subscription :=
  match su_queue s with
  | e :: queue =>
      (NextEvent e, mkSubscription (su_maxBytes s) queue (su_bytes s - eventBytes e)
         (su_closed s) (su_err s) (su_reason s) (su_changed s + 1) (su_finished s))
  | [] => (if su_closed s then NextClosed else NextWait (su_changed s), s)
  end.

(** ** The worker *)

Inductive sub_pc :=
| PNext
| PWaiting (gen : N)
| PSending (e : Event)        (* the select of run: s.events <- event *)
| PReturned.

(** [su_offered]: the events [enqueue] accepted; [su_received]: those the consumer
    received from the channel. *)
Record SState := mkSState {
  sub : Subscription;
  sub_at : sub_pc;
  su_offered : list Event;
  su_received : list Event;
}.

Definition initial_sstate (max : Z) : SState := mkSState (newSubscription max) PNext [] [].

Inductive s_step : SState -> SState -> Prop :=
| ss_enqueue e s s1 :
    enqueue e (sub s) = (None, s1) -> s_step s (mkSState s1 (sub_at s) (su_offered s ++ [e]) (su_received s))
| ss_finish err reason s :
    s_step s (mkSState (finish err reason (sub s)) (sub_at s) (su_offered s) (su_received s))
| ss_next s :
    sub_at s = PNext ->
    s_step s (let '(out, s1) := next_section (sub s) in
      mkSState s1 (match out with
                   | NextEvent e => PSending e | NextClosed => PReturned | NextWait gen => PWaiting gen
                   end) (su_offered s) (su_received s))
| ss_changed gen s :
    sub_at s = PWaiting gen -> (gen < su_changed (sub s))%N ->
    s_step s (mkSState (sub s) PNext (su_offered s) (su_received s))
| ss_ctx_waiting gen s :
    sub_at s = PWaiting gen -> s_step s (mkSState (sub s) PReturned (su_offered s) (su_received s))
| ss_received e s :
    sub_at s = PSending e -> s_step s (mkSState (sub s) PNext (su_offered s) (su_received s ++ [e]))
| ss_ctx_sending e s :
    sub_at s = PSending e -> s_step s (mkSState (sub s) PReturned (su_offered s) (su_received s)).

Inductive s_reachable (max : Z) : SState -> Prop :=
| sr_init : s_reachable max (initial_sstate max)
| sr_step s s' : s_reachable max s -> s_step s s' -> s_reachable max s'.

Definition in_hand (pc : sub_pc) : list Event := match pc with PSending e => [e] | _ => [] end.

Record s_inv (max : Z) (s : SState) : Prop := {
  sv_max : su_maxBytes (sub s) = max;
  sv_bytes : su_bytes (sub s) = sumZ eventBytes (su_queue (sub s));
  sv_bound : su_bytes (sub s) <= max;
  sv_order : exists rest, su_offered s = su_received s ++ in_hand (sub_at s) ++ rest /\
    (su_closed (sub s) = false -> sub_at s <> PReturned -> rest = su_queue (sub s));
  sv_closed : su_closed (sub s) = true -> su_queue (sub s) = [];
  sv_finished : su_finished (sub s) = su_closed (sub s);
}.

Lemma eventBytes_pos e : 0 < eventBytes e.
Proof. unfold eventBytes. destruct (e_Output e) as [o|]; [pose proof (len_nonneg (ev_Data o))|]; lia. Qed.

Lemma initial_s_inv max : 0 <= max -> s_inv max (initial_sstate max).
Proof. intros Hm. split; cbn; try done. by exists []. Qed.

Lemma s_inv_step max s s' : s_inv max s -> s_step s s' -> s_inv max s'.
Proof.
  intros [Hmax Hb Hbd (rest & Ho & Hl) Hc Hf] Hs.
  destruct Hs as [e s s1 He|err reason s|s Hp|gen s Hp _|gen s Hp|e s Hp|e s Hp].
  - unfold enqueue in He. destruct (su_closed (sub s)) eqn:Ec; [done|].
    destruct (_ || _) eqn:E; [done|]. injection He as <-. reflect_bools.
    split; cbn -[eventBytes]; rewrite ?Ec; try done.
    + mux_rw. rewrite Hb. lia.
    + lia.
    + exists (rest ++ [e]). rewrite Ho, <- !(assoc_L (++)). split; [done|]. intros _ Hr.
      by rewrite (Hl eq_refl Hr).
  - unfold finish. destruct (su_finished (sub s)) eqn:Efin; [split; cbn; try congruence; try done; by exists rest|].
    pose proof (sumZ_nonneg eventBytes (su_queue (sub s))) as Hnn.
    split; cbn; try done.
    + rewrite <- Hmax. assert (0 <= su_bytes (sub s)); [|lia]. rewrite Hb. apply Hnn.
      intros e _. pose proof (eventBytes_pos e). lia.
    + by exists rest.
  - rewrite Hp in *. unfold next_section. destruct (su_queue (sub s)) as [|e q] eqn:Eq.
    + split; rewrite ?Eq; cbn; rewrite ?Eq; try done. exists rest.
      destruct (su_closed (sub s)) eqn:Ec; split; try done. intros _ _. by apply Hl.
    + assert (su_closed (sub s) = false) as Hop
        by (destruct (su_closed (sub s)); [by specialize (Hc eq_refl)|done]).
      pose proof (eventBytes_pos e). mux_rw. split; cbn -[eventBytes]; rewrite ?Hop in *; try done.
      * lia.
      * lia.
      * exists q. split; [|done]. rewrite Ho. cbn. by rewrite Hl by done.
  - rewrite Hp in *. split; cbn; try done. exists rest. split; [done|]. intros Hop _. by apply Hl.
  - rewrite Hp in *. split; cbn; try done. by exists rest.
  - rewrite Hp in *. split; cbn; try done. exists rest. rewrite Ho, <- (assoc_L (++)). split; [done|].
    intros Hop _. by apply Hl.
  - rewrite Hp in *. split; cbn; try done. exists (e :: rest). by rewrite Ho.
Qed.

(** An observer sees a gap-free prefix. The events a consumer receives are,
    in order, the first of those the Manager queued for it; while the
    subscription is open and its worker runs, the next one or two places are the
    event in hand and the queue, nothing being lost; the queue never exceeds its
    byte limit, and a closed subscription holds nothing. *)
Theorem subscription_order max s :
  0 <= max -> s_reachable max s ->
  su_received s `prefix_of` su_offered s /\
  (su_closed (sub s) = false -> sub_at s <> PReturned ->
     su_offered s = su_received s ++ in_hand (sub_at s) ++ su_queue (sub s)) /\
  sumZ eventBytes (su_queue (sub s)) <= max /\
  (su_closed (sub s) = true -> su_queue (sub s) = []).
Proof.
  intros Hm Hr. assert (s_inv max s) as I by (induction Hr; [by apply initial_s_inv|by eapply s_inv_step]).
  destruct I as [_ Hb Hbd (rest & Ho & Hl) Hc _]. split_and!; try done.
  - rewrite Ho. by apply prefix_app_r.
  - intros Hop Hp. by rewrite Ho, Hl.
  - by rewrite <- Hb.
Qed.

Definition demo_info : SessionInfo := mkSessionInfo 1 SessionRunning (mkSize 80 24) 0 0 None 0 false.
Definition demo_event : Event := mkEvent EventOpened demo_info None None.

Lemma subscription_order_witness :
  exists s, s_reachable 300 s /\ su_received s = [demo_event] /\ su_queue (sub s) = [demo_event] /\
    su_offered s = su_received s ++ in_hand (sub_at s) ++ su_queue (sub s).
Proof.
  set (s0 := initial_sstate 300).
  set (s1 := mkSState (enqueue demo_event (sub s0)).2 PNext [demo_event] []).
  set (s2 := mkSState (enqueue demo_event (sub s1)).2 PNext [demo_event; demo_event] []).
  set (s3 := mkSState (next_section (sub s2)).2 (PSending demo_event) [demo_event; demo_event] []).
  set (s4 := mkSState (sub s3) PNext [demo_event; demo_event] [demo_event]).
  assert (s_reachable 300 s4) as R.
  { eapply sr_step; [|exact (ss_received demo_event s3 eq_refl)].
    eapply sr_step; [|exact (ss_next s2 eq_refl)].
    eapply sr_step; [|exact (ss_enqueue demo_event s1 _ eq_refl)].
    eapply sr_step; [apply sr_init|exact (ss_enqueue demo_event s0 _ eq_refl)]. }
  exists s4. split; [exact R|]. split; [reflexivity|]. split; [reflexivity|].
  exact (proj1 (proj2 (subscription_order 300 s4 ltac:(lia) R)) eq_refl ltac:(discriminate)).
Defined.
