(* ===== verification/History.v ===== *)
(** pty/manager.go: [Session] records and the bounded output history, kept per
    session and in total. [appendHistoryLocked], [dropFirstHistoryLocked] and
    [removeHistoryLocked]. *)

From S2P Require Import Prelude Errors BigEndian PtyTypes Attachment Subscription.

Record historyChunk := mkChunk { hc_event : OutputEvent; hc_order : Z }.
#[export] Instance historyChunk_eq_dec : EqDecision historyChunk.
Proof. solve_decision. Defined.

Definition chunk_bytes (c : historyChunk) : Z := len (ev_Data (hc_event c)).

(** [Session]; [s_done] is whether [s.done] is closed. *)
Record Session := mkSession {
  s_id : Z;
  s_state : SessionState;
  s_size : Size;
  s_startedAt : Z;
  s_lastSequence : Z;
  s_exit : option ExitStatus;
  s_retained : bool;
  s_removing : bool;
  s_history : list historyChunk;
  s_historyBytes : Z;
  s_attachments : gmap Z Attachment;
  s_done : bool;
}.

Definition set_history (l : list historyChunk) (bytes : Z) (s : Session) : Session :=
  mkSession (s_id s) (s_state s) (s_size s) (s_startedAt s) (s_lastSequence s) (s_exit s)
    (s_retained s) (s_removing s) l bytes (s_attachments s) (s_done s).
Definition set_lastSequence (n : Z) (s : Session) : Session :=
  mkSession (s_id s) (s_state s) (s_size s) (s_startedAt s) n (s_exit s)
    (s_retained s) (s_removing s) (s_history s) (s_historyBytes s) (s_attachments s) (s_done s).

(** The history fields of [Manager]. *)
Record Hist := mkHist {
  nextHistory : Z;
  historyBytes : Z;
  historyTruncations : Z;
  historyTruncatedBytes : Z;
}.

Abbreviation Sessions := (gmap Z Session).

(** [dropFirstHistoryLocked], the first chunk being [c] and the others [rest]. *)
Definition dropFirst (c : historyChunk) (rest : list historyChunk) (s : Session) (h : Hist) : Session * Hist :=
  (set_history rest (s_historyBytes s - chunk_bytes c) s,
   mkHist (nextHistory h) (historyBytes h - chunk_bytes c) (u64 (historyTruncations h + 1))
     (u64 (historyTruncatedBytes h + chunk_bytes c))).

(** [for s.historyBytes > HistoryBytes && len(s.history) > 0], on the history [l]. *)
Fixpoint trim_session (limit : Z) (l : list historyChunk) (s : Session) (h : Hist) : Session * Hist :=
  match l with
  | [] => (s, h)
  | c :: rest =>
      if limit <? s_historyBytes s
      then let '(s, h) := dropFirst c rest s h in trim_session limit rest s h
      else (s, h)
  end.

(** The session whose first chunk has the smallest order. *)
Definition older (id : Z) (s : Session) (oldest : option (Z * Z)) : option (Z * Z) :=
  match s_history s with
  | [] => oldest
  | c :: _ =>
      match oldest with
      | None => Some (id, hc_order c)
      | Some (_, order) => if hc_order c <? order then Some (id, hc_order c) else oldest
      end
  end.
Definition oldest_of (ss : Sessions) : option (Z * Z) := map_fold older None ss.

(** [for m.historyBytes > m.config.MaxTotalHistoryBytes] *)
Fixpoint trim_total (fuel : nat) (limit : Z) (ss : Sessions) (h : Hist) : Sessions * Hist :=
  match fuel with
  | O => (ss, h)
  | S fuel =>
      if limit <? historyBytes h then
        match oldest_of ss with
        | None => (ss, h)
        | Some (id, _) =>
            match ss !! id with
            | Some s =>
                match s_history s with
                | c :: rest =>
                    let '(s, h) := dropFirst c rest s h in trim_total fuel limit (<[id := s]> ss) h
                | [] => (ss, h)
                end
            | None => (ss, h)
            end
        end
      else (ss, h)
  end.

Definition chunk_count (ss : Sessions) : nat := Z.to_nat (map_sumZ (fun s => len (s_history s)) ss).

(** The part of the event that is kept: its last [limit] bytes. *)
Definition clip (limit : Z) (event : OutputEvent) : OutputEvent :=
  if limit <? len (ev_Data event)
  then mkOutputEvent (ev_Sequence event) (drop (Z.to_nat (len (ev_Data event) - limit)) (ev_Data event))
  else event.

Definition clip_hist (limit : Z) (event : OutputEvent) (h : Hist) : Hist :=
  if limit <? len (ev_Data event)
  then mkHist (nextHistory h) (historyBytes h) (u64 (historyTruncations h + 1))
         (u64 (historyTruncatedBytes h + u64 (len (ev_Data event) - limit)))
  else h.

Definition history_limit (cfg : ManagerConfig) : Z :=
  if MaxTotalHistoryBytes cfg <? HistoryBytes cfg then MaxTotalHistoryBytes cfg else HistoryBytes cfg.

(** [appendHistoryLocked] on the registered session [s] with identifier [id]. *)
Definition appendHistory (cfg : ManagerConfig) (id : Z) (s : Session) (event : OutputEvent)
    (ss : Sessions) (h : Hist) : Sessions * Hist :=
  if (HistoryBytes cfg =? 0) || (MaxTotalHistoryBytes cfg =? 0) then (<[id := s]> ss, h)
  else
    let limit := history_limit cfg in
    let h := clip_hist limit event h in
    let event := clip limit event in
    let order := u64 (nextHistory h + 1) in
    let chunk := mkChunk event order in
    let s := set_history (s_history s ++ [chunk]) (s_historyBytes s + len (ev_Data event)) s in
    let h := mkHist order (historyBytes h + len (ev_Data event)) (historyTruncations h)
               (historyTruncatedBytes h) in
    let '(s, h) := trim_session (HistoryBytes cfg) (s_history s) s h in
    let ss := <[id := s]> ss in
    trim_total (chunk_count ss) (MaxTotalHistoryBytes cfg) ss h.

(** [removeHistoryLocked] *)
Definition removeHistory (s : Session) (h : Hist) : Session * Hist :=
  (set_history [] 0 s, mkHist (nextHistory h) (historyBytes h - s_historyBytes s)
     (historyTruncations h) (historyTruncatedBytes h)).

(** [publish] up to the history: [s.lastSequence++] and [appendHistoryLocked]. *)
Definition publish_history (cfg : ManagerConfig) (id : Z) (s : Session) (data : list byte)
    (ss : Sessions) (h : Hist) : Sessions * Hist :=
  let s := set_lastSequence (u64 (s_lastSequence s + 1)) s in
  appendHistory cfg id s (mkOutputEvent (s_lastSequence s) data) ss h.

(** ** Invariant *)

(** The sequences of a history end at [last] without a gap. *)
Fixpoint ends_at (last : Z) (l : list historyChunk) : Prop :=
  match l with
  | [] => True
  | c :: l => ev_Sequence (hc_event c) = last - len l /\ ends_at last l
  end.

Record chunks_ok (next : Z) (s : Session) : Prop := {
  ck_bytes : s_historyBytes s = sumZ chunk_bytes (s_history s);
  ck_sorted : StronglySorted (fun a b => hc_order a < hc_order b) (s_history s);
  ck_next : Forall (fun c => 0 < hc_order c <= next) (s_history s);
  ck_seq : ends_at (s_lastSequence s) (s_history s);
}.

(** Different sessions hold different orders. *)
Definition orders_distinct (ss : Sessions) : Prop :=
  forall i j a b c d, ss !! i = Some a -> ss !! j = Some b -> c ∈ s_history a -> d ∈ s_history b ->
    hc_order c = hc_order d -> i = j.

Record hist_inv (cfg : ManagerConfig) (ss : Sessions) (h : Hist) : Prop := {
  hi_chunks id s : ss !! id = Some s -> chunks_ok (nextHistory h) s;
  hi_session id s : ss !! id = Some s -> s_historyBytes s <= HistoryBytes cfg;
  hi_total : historyBytes h = map_sumZ s_historyBytes ss;
  hi_max : historyBytes h <= MaxTotalHistoryBytes cfg;
  hi_orders : orders_distinct ss;
  hi_next : 0 <= nextHistory h < 2 ^ 64;
  hi_off : HistoryBytes cfg = 0 \/ MaxTotalHistoryBytes cfg = 0 ->
    forall id s, ss !! id = Some s -> s_history s = [];
}.

Lemma chunk_bytes_nonneg c : 0 <= chunk_bytes c.
Proof. apply len_nonneg. Qed.

Lemma sum_chunks_nonneg l : 0 <= sumZ chunk_bytes l.
Proof. apply sumZ_nonneg. intros. apply chunk_bytes_nonneg. Qed.

Lemma chunks_ok_tail next c rest s :
  s_history s = c :: rest -> chunks_ok next s ->
  chunks_ok next (set_history rest (s_historyBytes s - chunk_bytes c) s).
Proof.
  intros E []. rewrite E in *. apply StronglySorted_inv in ck_sorted0 as [? ?].
  apply Forall_cons in ck_next0 as [? ?]. destruct ck_seq0. mux_rw. split; cbn; (done || lia).
Qed.

(** What trimming one session leaves: a suffix of its history, within the limit,
    the totals following. *)
Lemma trim_session_spec limit next l s h :
  0 <= limit -> s_history s = l -> chunks_ok next s ->
  let '(s', h') := trim_session limit l s h in
  chunks_ok next s' /\ s_historyBytes s' <= limit /\
  s_history s' `suffix_of` l /\ s' = set_history (s_history s') (s_historyBytes s') s /\
  nextHistory h' = nextHistory h /\
  historyBytes h' - s_historyBytes s' = historyBytes h - s_historyBytes s /\
  (s_historyBytes s <= limit -> s' = s /\ h' = h).
Proof.
  intros Hlim. revert s h. induction l as [|c rest IH]; intros s h E Ok; cbn [trim_session].
  - split_and!; try done; [by rewrite (ck_bytes _ _ Ok), E|by rewrite E|by destruct s].
  - destruct (Z.ltb_spec limit (s_historyBytes s)) as [Hlt|Hge].
    + unfold dropFirst. pose proof (chunks_ok_tail _ _ _ _ E Ok) as Ok'.
      specialize (IH (set_history rest (s_historyBytes s - chunk_bytes c) s) (mkHist (nextHistory h) (historyBytes h - chunk_bytes c) (u64 (historyTruncations h + 1))
        (u64 (historyTruncatedBytes h + chunk_bytes c))) eq_refl Ok').
      destruct (trim_session _ _ _ _) as [s' h']. destruct IH as (H1 & H2 & H3 & H4 & H5 & H6 & _).
      cbn in *. split_and!; try done; try lia; by apply suffix_cons_r.
    + split_and!; try done; [by rewrite E; exists []|by destruct s].
Qed.

(** The longest suffix of [l] that fits. *)
Definition longest_fitting (limit : Z) (l k : list historyChunk) : Prop :=
  k `suffix_of` l /\ sumZ chunk_bytes k <= limit /\
  forall k', k `suffix_of` k' -> k' `suffix_of` l -> sumZ chunk_bytes k' <= limit -> k' = k.

Lemma longest_fitting_refl limit l : sumZ chunk_bytes l <= limit -> longest_fitting limit l l.
Proof. intros Hl. split_and!; [done..|]. intros k' Hk Hk' _. by apply (anti_symm suffix). Qed.

Lemma trim_session_longest limit next l s h :
  0 <= limit -> s_history s = l -> chunks_ok next s -> longest_fitting limit l (s_history (trim_session limit l s h).1).
Proof.
  intros Hlim. revert s h. induction l as [|c rest IH]; intros s h E Ok; cbn [trim_session].
  - cbn. rewrite E. by apply longest_fitting_refl.
  - pose proof (ck_bytes _ _ Ok) as Hb. rewrite E in Hb. destruct (Z.ltb_spec limit (s_historyBytes s)) as [Hlt|Hge].
    + unfold dropFirst. pose proof (chunks_ok_tail _ _ _ _ E Ok) as Ok'.
      match goal with |- context [trim_session _ _ ?s1 ?h1] => destruct (IH s1 h1 eq_refl Ok') as (Hs & Hf & Hm) end.
      split_and!; [by apply suffix_cons_r|done|]. intros k' Hk Hk' Hfit. apply Hm; [done| |done].
      destruct k' as [|x k']; [apply suffix_nil|]. apply suffix_cons_inv in Hk' as [Heq|?]; [|done].
      rewrite Heq in Hfit. lia.
    + cbn. rewrite E. apply longest_fitting_refl. lia.
Qed.

Lemma oldest_of_spec ss :
  match oldest_of ss with
  | None => forall id s, ss !! id = Some s -> s_history s = []
  | Some (id, o) => exists s c rest, ss !! id = Some s /\ s_history s = c :: rest /\ hc_order c = o /\
      forall j t d l, ss !! j = Some t -> s_history t = d :: l -> o <= hc_order d
  end.
Proof.
  unfold oldest_of. apply (map_fold_weak_ind (fun (acc : option (Z * Z)) (ss : Sessions) =>
    match acc with
    | None => forall id s, ss !! id = Some s -> s_history s = []
    | Some (id, o) => exists s c rest, ss !! id = Some s /\ s_history s = c :: rest /\ hc_order c = o /\
        forall j t d l, ss !! j = Some t -> s_history t = d :: l -> o <= hc_order d
    end)).
  - intros id s. by rewrite lookup_empty.
  - intros k s m acc Hk IH. unfold older. destruct (s_history s) as [|c rest] eqn:Es.
    + destruct acc as [[id o]|].
      * destruct IH as (s0 & c & rest & Hs0 & Hh & Ho & Hmin). exists s0, c, rest.
        rewrite lookup_insert_ne by congruence. split_and!; try done.
        intros j t d l Hj Ht. rewrite lookup_insert in Hj. case_decide; simplify_eq; [congruence|by eauto].
      * intros id t Ht. rewrite lookup_insert in Ht. case_decide; simplify_eq; [done|by eauto].
    + assert (forall o, o <= hc_order c -> (forall j t d l, m !! j = Some t -> s_history t = d :: l -> o <= hc_order d) ->
        forall j t d l, <[k:=s]> m !! j = Some t -> s_history t = d :: l -> o <= hc_order d) as Hins.
      { intros o Ho Hm j t d l Hj Ht. rewrite lookup_insert in Hj. case_decide; simplify_eq; [by rewrite Es in Ht; simplify_eq|].
        by eauto. }
      destruct acc as [[id o]|].
      * destruct IH as (s0 & c0 & rest0 & Hs0 & Hh & Ho & Hmin).
        destruct (Z.ltb_spec (hc_order c) o).
        -- exists s, c, rest. rewrite lookup_insert_eq. split_and!; try done. apply Hins; [lia|].
           intros j t d l Hj Ht. specialize (Hmin j t d l Hj Ht). lia.
        -- exists s0, c0, rest0. rewrite lookup_insert_ne by congruence. split_and!; try done. by apply Hins.
      * exists s, c, rest. rewrite lookup_insert_eq. split_and!; try done. apply Hins; [lia|].
        intros j t d l Hj Ht. rewrite (IH j t Hj) in Ht. done.
Qed.

(** What trimming preserves of a set of sessions. *)
Record trimmed (next : Z) (ss ss' : Sessions) : Prop := {
  tr_ok id s : ss' !! id = Some s -> chunks_ok next s;
  tr_distinct : orders_distinct ss';
  tr_back id s' : ss' !! id = Some s' -> is_Some (ss !! id);
  tr_suffix id s : ss !! id = Some s -> exists s', ss' !! id = Some s' /\
    s_history s' `suffix_of` s_history s /\ s' = set_history (s_history s') (s_historyBytes s') s /\
    s_historyBytes s' <= s_historyBytes s;
  tr_older i j a a' b' c d : ss !! i = Some a -> ss' !! i = Some a' -> ss' !! j = Some b' ->
    c ∈ s_history a -> c ∉ s_history a' -> d ∈ s_history b' -> hc_order c < hc_order d;
}.

Lemma trimmed_refl next ss :
  (forall id s, ss !! id = Some s -> chunks_ok next s) -> orders_distinct ss -> trimmed next ss ss.
Proof.
  intros Hok Hd. split; try done.
  - intros id s Hs. exists s. split_and!; [done|reflexivity|by destruct s|lia].
  - intros i j a a' b' c d Ha Ha' _ Hc Hnc _. simplify_eq. by destruct Hnc.
Qed.

Lemma sorted_head_le (c d : historyChunk) l :
  StronglySorted (fun a b => hc_order a < hc_order b) (c :: l) -> d ∈ c :: l -> hc_order c <= hc_order d.
Proof.
  intros [_ Hf]%StronglySorted_inv [->|Hd]%elem_of_cons; [lia|].
  rewrite Forall_forall in Hf. specialize (Hf d Hd). lia.
Qed.

Lemma suffix_elem {A} (l k : list A) x : l `suffix_of` k -> x ∈ l -> x ∈ k.
Proof. intros [p ->] Hx. apply elem_of_app. by right. Qed.

(** Dropping the oldest chunk. *)
Lemma trimmed_drop next ss id s c rest :
  (forall j t, ss !! j = Some t -> chunks_ok next t) -> orders_distinct ss ->
  ss !! id = Some s -> s_history s = c :: rest ->
  (forall j t d l, ss !! j = Some t -> s_history t = d :: l -> hc_order c <= hc_order d) ->
  let s1 := set_history rest (s_historyBytes s - chunk_bytes c) s in
  trimmed next ss (<[id := s1]> ss) /\
  forall j t d, <[id := s1]> ss !! j = Some t -> d ∈ s_history t -> hc_order c < hc_order d.
Proof.
  intros Hok Hd Hs Hh Hmin s1. pose proof (Hok _ _ Hs) as Hsok.
  assert (forall j t d, <[id := s1]> ss !! j = Some t -> d ∈ s_history t ->
    exists t0, ss !! j = Some t0 /\ d ∈ s_history t0) as Hsub.
  { intros j t d Hj Hin. rewrite lookup_insert in Hj. case_decide; simplify_eq; [|by exists t].
    exists s. split; [done|]. rewrite Hh. cbn in Hin. by right. }
  assert (forall j t d, <[id := s1]> ss !! j = Some t -> d ∈ s_history t -> hc_order c < hc_order d) as Hlt.
  { intros j t d Hj Hin. destruct (decide (j = id)) as [->|Hne].
    - rewrite lookup_insert_eq in Hj. simplify_eq. cbn in Hin.
      pose proof (ck_sorted _ _ Hsok) as Hst. rewrite Hh in Hst. apply StronglySorted_inv in Hst as [_ Hf].
      rewrite Forall_forall in Hf. by apply Hf.
    - destruct (Hsub _ _ _ Hj Hin) as (t0 & Ht0 & Hin0). destruct (s_history t0) as [|e l] eqn:Et0;
        [by apply elem_of_nil in Hin0|].
      pose proof (Hmin _ _ _ _ Ht0 Et0) as Hle. pose proof (ck_sorted _ _ (Hok _ _ Ht0)) as Hst.
      rewrite Et0 in Hst. pose proof (sorted_head_le _ _ _ Hst Hin0).
      assert (hc_order c <> hc_order d); [|lia]. intros Heq. apply Hne. symmetry.
      eapply (Hd id j s t0 c d); try done; [rewrite Hh; left|by rewrite Et0]. }
  split; [|exact Hlt]. split.
  - intros j t Hj. rewrite lookup_insert in Hj. case_decide; simplify_eq; [by apply chunks_ok_tail|by eauto].
  - intros i j a b x y Hi Hj Hx Hy Heq. destruct (Hsub _ _ _ Hi Hx) as (a0 & Ha0 & Hx0).
    destruct (Hsub _ _ _ Hj Hy) as (b0 & Hb0 & Hy0). by eapply (Hd i j a0 b0 x y).
  - intros j t Hj. rewrite lookup_insert in Hj. case_decide; simplify_eq; by eexists.
  - intros j t Hj. rewrite lookup_insert. case_decide; [subst; simplify_eq|].
    + exists s1. split_and!; try done; cbn; [rewrite Hh; by exists [c]|]. pose proof (chunk_bytes_nonneg c). lia.
    + exists t. split_and!; [done|reflexivity|by destruct t|lia].
  - intros i j a a' b' x y Ha Ha' Hb' Hx Hnx Hy. rewrite lookup_insert in Ha'.
    case_decide; simplify_eq. rewrite Hh in Hx. cbn in Hnx. apply elem_of_cons in Hx as [->|Hx]; [|done].
    by eapply Hlt.
Qed.

Lemma trimmed_trans next ss ss1 ss2 : trimmed next ss ss1 -> trimmed next ss1 ss2 ->
  (forall i j a a1 b c d, ss !! i = Some a -> ss1 !! i = Some a1 -> c ∈ s_history a -> c ∉ s_history a1 ->
     ss1 !! j = Some b -> d ∈ s_history b -> hc_order c < hc_order d) ->
  trimmed next ss ss2.
Proof.
  intros T1 T2 Hlt. split; try apply T2.
  - intros id s' Hs. destruct (tr_back _ _ _ T2 _ _ Hs) as [s1 Hs1]. by eapply (tr_back _ _ _ T1).
  - intros id s Hs. destruct (tr_suffix _ _ _ T1 _ _ Hs) as (s1 & Hs1 & Hsuf1 & He1 & Hb1).
    destruct (tr_suffix _ _ _ T2 _ _ Hs1) as (s2 & Hs2 & Hsuf2 & He2 & Hb2).
    exists s2. split; [done|]. split; [by etrans|]. split; [|lia]. rewrite He2, He1. by destruct s.
  - intros i j a a' b' c d Ha Ha' Hb' Hc Hnc Hd.
    destruct (tr_suffix _ _ _ T1 _ _ Ha) as (a1 & Ha1 & _).
    destruct (decide (c ∈ s_history a1)) as [Hin|Hnin].
    + by eapply (tr_older _ _ _ T2 i j).
    + destruct (tr_back _ _ _ T2 _ _ Hb') as [b1 Hb1]. eapply (Hlt i j a a1 b1); try done.
      destruct (tr_suffix _ _ _ T2 _ _ Hb1) as (b2 & Hb2 & Hsuf & _). simplify_eq. by eapply suffix_elem.
Qed.

Lemma chunk_count_insert ss id s c rest s1 :
  ss !! id = Some s -> s_history s = c :: rest -> s_history s1 = rest ->
  chunk_count ss = S (chunk_count (<[id := s1]> ss)).
Proof.
  intros Hs Hh H1. unfold chunk_count. rewrite (map_sumZ_insert _ _ _ _ _ Hs), H1, Hh.
  pose proof (map_sumZ_le (fun s => len (s_history s)) ss id s
    ltac:(intros; apply len_nonneg) Hs) as Hle. cbn in Hle. rewrite Hh in Hle. mux_rw.
  pose proof (len_nonneg rest). lia.
Qed.

Lemma total_zero (ss : Sessions) next :
  (forall id s, ss !! id = Some s -> chunks_ok next s) ->
  (forall id s, ss !! id = Some s -> s_history s = []) -> map_sumZ s_historyBytes ss = 0.
Proof.
  intros Hok Hnil. revert Hok Hnil. induction ss as [|id s ss Hi IH] using map_ind; intros Hok Hnil.
  - apply map_sumZ_empty.
  - rewrite map_sumZ_insert_new by done. rewrite IH.
    + rewrite (ck_bytes next), (Hnil id s); [done|apply lookup_insert_eq|].
      apply (Hok id). apply lookup_insert_eq.
    + intros j t Hj. apply (Hok j). rewrite lookup_insert_ne by congruence. done.
    + intros j t Hj. apply (Hnil j). rewrite lookup_insert_ne by congruence. done.
Qed.

Lemma trim_total_spec fuel limit next ss h :
  0 <= limit -> (chunk_count ss <= fuel)%nat ->
  (forall id s, ss !! id = Some s -> chunks_ok next s) -> orders_distinct ss ->
  historyBytes h = map_sumZ s_historyBytes ss ->
  let '(ss', h') := trim_total fuel limit ss h in
  trimmed next ss ss' /\ historyBytes h' = map_sumZ s_historyBytes ss' /\ historyBytes h' <= limit /\
  nextHistory h' = nextHistory h /\ (historyBytes h <= limit -> ss' = ss /\ h' = h).
Proof.
  intros Hlim. revert ss h. induction fuel as [|fuel IH]; intros ss h Hf Hok Hd Ht; cbn [trim_total].
  - assert (map_sumZ s_historyBytes ss = 0) as Hz.
    { eapply total_zero; [done|]. intros id s Hs.
      pose proof (map_sumZ_le (fun s => len (s_history s)) ss id s ltac:(intros; apply len_nonneg) Hs) as Hle.
      unfold chunk_count in Hf. cbn in Hle. destruct (s_history s); [done|]. rewrite len_cons in Hle.
      pose proof (len_nonneg l). lia. }
    split_and!; try done; [by apply trimmed_refl|lia].
  - destruct (Z.ltb_spec limit (historyBytes h)) as [Hlt|Hge].
    2: { split_and!; try done. by apply trimmed_refl. }
    pose proof (oldest_of_spec ss) as Ho. destruct (oldest_of ss) as [[id o]|].
    + destruct Ho as (s & c & rest & Hs & Hh & <- & Hmin). rewrite Hs, Hh. unfold dropFirst.
      destruct (trimmed_drop next ss id s c rest Hok Hd Hs Hh Hmin) as [T Hlt1]. cbv zeta in T, Hlt1.
      set (s1 := set_history rest (s_historyBytes s - chunk_bytes c) s) in *.
      specialize (IH (<[id := s1]> ss) (mkHist (nextHistory h) (historyBytes h - chunk_bytes c)
        (u64 (historyTruncations h + 1)) (u64 (historyTruncatedBytes h + chunk_bytes c)))).
      destruct (trim_total fuel limit _ _) as [ss' h']. destruct IH as (T' & Ht' & Hle & Hn & _).
      * rewrite (chunk_count_insert ss id s c rest s1 Hs Hh eq_refl) in Hf. lia.
      * apply T.
      * apply T.
      * rewrite (map_sumZ_insert _ _ _ _ _ Hs). cbn. lia.
      * split_and!; try done; [|lia]. eapply trimmed_trans; [exact T|exact T'|].
        intros i j a a1 b x y Ha Ha1 Hx Hnx Hb Hy. rewrite lookup_insert in Ha1.
        case_decide; simplify_eq; try (by destruct Hnx). cbn in Hnx. rewrite Hh in Hx.
        apply elem_of_cons in Hx as [->|Hx]; [|done]. by eapply Hlt1.
    + rewrite (total_zero ss next Hok Ho) in Ht. lia.
Qed.

(** The bytes of the chunks that are as recent as [order]. *)
Definition bytes_since (order : Z) (ss : Sessions) : Z :=
  map_sumZ (fun s => sumZ chunk_bytes (filter (fun c => order <= hc_order c) (s_history s))) ss.

Lemma map_sumZ_le_pointwise {A} (f g : A -> Z) (m : gmap Z A) :
  (forall i x, m !! i = Some x -> f x <= g x) -> map_sumZ f m <= map_sumZ g m.
Proof.
  induction m as [|i x m Hi IH] using map_ind; intros H; [by rewrite !map_sumZ_empty|].
  rewrite !map_sumZ_insert_new by done. pose proof (H i x (lookup_insert_eq _ _ _)).
  enough (map_sumZ f m <= map_sumZ g m) by lia. apply IH. intros j y Hj. apply (H j).
  rewrite lookup_insert_ne; [done|]. intros ->. congruence.
Qed.

Lemma filter_chunks_le (P : historyChunk -> Prop) `{forall c, Decision (P c)} l :
  sumZ chunk_bytes (filter P l) <= sumZ chunk_bytes l.
Proof.
  induction l as [|c l IH]; [done|]. rewrite filter_cons. mux_rw. pose proof (chunk_bytes_nonneg c).
  case_decide; mux_rw; lia.
Qed.

Lemma bytes_since_le order next ss : (forall id s, ss !! id = Some s -> chunks_ok next s) ->
  bytes_since order ss <= map_sumZ s_historyBytes ss.
Proof.
  intros Hok. apply map_sumZ_le_pointwise. intros id s Hs. rewrite (ck_bytes _ _ (Hok _ _ Hs)). apply filter_chunks_le.
Qed.

Lemma filter_all {A} (P : A -> Prop) `{forall x, Decision (P x)} (l : list A) : Forall P l -> filter P l = l.
Proof. induction 1 as [|x l Hx _ IH]; [done|]. by rewrite filter_cons, decide_True, IH. Qed.

(** Everything is as recent as the oldest chunk. *)
Lemma bytes_since_all order next ss : (forall id s, ss !! id = Some s -> chunks_ok next s) ->
  (forall id s c, ss !! id = Some s -> c ∈ s_history s -> order <= hc_order c) ->
  map_sumZ s_historyBytes ss <= bytes_since order ss.
Proof.
  intros Hok Hall. apply map_sumZ_le_pointwise. intros id s Hs. rewrite (ck_bytes _ _ (Hok _ _ Hs)).
  rewrite filter_all; [done|]. apply Forall_forall. intros c Hc. by eapply Hall.
Qed.

(** An older chunk does not count. *)
Lemma bytes_since_drop order ss id s c rest s1 : ss !! id = Some s -> s_history s = c :: rest -> s_history s1 = rest ->
  hc_order c < order -> bytes_since order (<[id := s1]> ss) = bytes_since order ss.
Proof.
  intros Hs Hh H1 Hlt. unfold bytes_since. rewrite (map_sumZ_insert _ _ _ _ _ Hs), Hh, H1, filter_cons.
  rewrite decide_False by lia. lia.
Qed.

(** A chunk is kept exactly when it fits with all that is as recent. *)
Lemma trim_total_exact fuel limit next ss h :
  0 <= limit -> (chunk_count ss <= fuel)%nat ->
  (forall id s, ss !! id = Some s -> chunks_ok next s) -> orders_distinct ss ->
  historyBytes h = map_sumZ s_historyBytes ss ->
  forall j t t' c, ss !! j = Some t -> (trim_total fuel limit ss h).1 !! j = Some t' -> c ∈ s_history t ->
    (c ∈ s_history t' <-> bytes_since (hc_order c) ss <= limit).
Proof.
  intros Hlim. revert ss h. induction fuel as [|fuel IH]; intros ss h Hf Hok Hd Ht j t t' c Hj; cbn [trim_total].
  - intros _ Hc. pose proof (map_sumZ_le (fun s => len (s_history s)) ss j t ltac:(intros; apply len_nonneg) Hj) as Hle.
    unfold chunk_count in Hf. cbn in Hle. destruct (s_history t) as [|d l]; [by apply elem_of_nil in Hc|].
    rewrite len_cons in Hle. pose proof (len_nonneg l). lia.
  - pose proof (bytes_since_le (hc_order c) next ss Hok) as Hle.
    destruct (Z.ltb_spec limit (historyBytes h)) as [Hlt|Hge].
    2: { cbn. intros Hj' Hc. simplify_eq. split; [intros _; lia|done]. }
    pose proof (oldest_of_spec ss) as Ho. destruct (oldest_of ss) as [[id o]|].
    2: { rewrite (Ho j t Hj). by intros _ ?%elem_of_nil. }
    destruct Ho as (s & c0 & rest & Hs & Hh & <- & Hmin). rewrite Hs, Hh. unfold dropFirst.
    destruct (trimmed_drop next ss id s c0 rest Hok Hd Hs Hh Hmin) as [T Hlt1]. cbv zeta in T, Hlt1.
    set (s1 := set_history rest (s_historyBytes s - chunk_bytes c0) s) in *.
    set (h1 := mkHist _ _ _ _). intros Hj' Hc.
    assert (chunk_count (<[id := s1]> ss) <= fuel)%nat as Hf1
      by (rewrite (chunk_count_insert ss id s c0 rest s1 Hs Hh eq_refl) in Hf; lia).
    assert (historyBytes h1 = map_sumZ s_historyBytes (<[id := s1]> ss)) as Ht1
      by (rewrite (map_sumZ_insert _ _ _ _ _ Hs); cbn; lia).
    pose proof (IH (<[id := s1]> ss) h1 Hf1 (tr_ok _ _ _ T) (tr_distinct _ _ _ T) Ht1 j) as IHj.
    assert (c = c0 /\ j = id \/ exists t1, <[id := s1]> ss !! j = Some t1 /\ c ∈ s_history t1) as [[-> ->]|(t1 & Hj1 & Hc1)].
    { rewrite lookup_insert. case_decide; simplify_eq; [|by right; exists t].
      rewrite Hh in Hc. apply elem_of_cons in Hc as [->|Hc]; [by left|]. right. by exists s1. }
    + split.
      * intros Hin. exfalso.
        pose proof (trim_total_spec fuel limit next _ h1 Hlim Hf1 (tr_ok _ _ _ T) (tr_distinct _ _ _ T) Ht1) as Hsp.
        destruct (trim_total fuel limit _ _) as [ss' h']. destruct Hsp as [T' _]. cbn in Hj'.
        destruct (tr_suffix _ _ _ T' id s1) as (t2 & Ht2 & Hsuf & _); [by rewrite lookup_insert_eq|]. simplify_eq.
        apply (suffix_elem _ _ _ Hsuf) in Hin. specialize (Hlt1 id s1 c0 (lookup_insert_eq _ _ _) Hin). lia.
      * intros Hb. exfalso. enough (map_sumZ s_historyBytes ss <= bytes_since (hc_order c0) ss) by lia.
        apply (bytes_since_all _ next); [done|]. intros i x d Hi Hd'. destruct (s_history x) as [|d0 l] eqn:Ex; [by apply elem_of_nil in Hd'|].
        pose proof (Hmin i x d0 l Hi Ex). pose proof (ck_sorted _ _ (Hok _ _ Hi)) as Hst. rewrite Ex in Hst.
        pose proof (sorted_head_le _ _ _ Hst Hd'). lia.
    + rewrite (IHj t1 t' c Hj1 Hj' Hc1), (bytes_since_drop _ ss id s c0 rest s1 Hs Hh eq_refl); [done|].
      by eapply Hlt1.
Qed.

Lemma ends_at_snoc last l c :
  ends_at last l -> ev_Sequence (hc_event c) = last + 1 -> ends_at (last + 1) (l ++ [c]).
Proof.
  induction l as [|x l IH]; cbn; intros He Hc; [mux_rw; split; [lia|done]|].
  destruct He as [Hx He]. mux_rw. split; [lia|by apply IH].
Qed.

Lemma hist_inv_config cfg ss h : manager_config_ok cfg -> hist_inv cfg ss h ->
  0 <= historyBytes h /\ 0 <= history_limit cfg <= HistoryBytes cfg /\ history_limit cfg <= MaxTotalHistoryBytes cfg.
Proof.
  intros [_ Hh _ _ _ _ _] I. split; [|unfold history_limit; destruct (Z.ltb_spec (MaxTotalHistoryBytes cfg) (HistoryBytes cfg)); lia].
  rewrite (hi_total _ _ _ I). apply map_sumZ_nonneg. intros id s Hs.
  rewrite (ck_bytes _ _ (hi_chunks _ _ _ I _ _ Hs)). apply sum_chunks_nonneg.
Qed.

(** The last [n] bytes of [data]. *)
Definition last_bytes (n : Z) (data : list byte) : list byte := drop (Z.to_nat (len data - n)) data.

Lemma clip_data limit event : 0 <= limit ->
  ev_Data (clip limit event) = last_bytes limit (ev_Data event) /\
  len (ev_Data (clip limit event)) = Z.min (len (ev_Data event)) limit /\
  ev_Sequence (clip limit event) = ev_Sequence event.
Proof.
  intros Hl. unfold clip, last_bytes. destruct (Z.ltb_spec limit (len (ev_Data event))); cbn.
  - split_and!; try done. unfold len in *. rewrite length_drop. lia.
  - split_and!; try done; [|lia]. replace (Z.to_nat _) with 0%nat by lia. by rewrite drop_0.
Qed.

Lemma chunks_ok_next next next' s : next <= next' -> chunks_ok next s -> chunks_ok next' s.
Proof.
  intros Hle []. split; try done. eapply Forall_impl; [done|]. cbn. intros c ?. lia.
Qed.

Lemma sorted_snoc (l : list historyChunk) c :
  StronglySorted (fun a b => hc_order a < hc_order b) l -> Forall (fun d => hc_order d < hc_order c) l ->
  StronglySorted (fun a b => hc_order a < hc_order b) (l ++ [c]).
Proof.
  induction 1 as [|x l Hl IH Hx]; cbn; intros Hall; [repeat constructor|].
  apply Forall_cons in Hall as [? ?]. constructor; [by apply IH|]. apply Forall_app. split; [done|by constructor].
Qed.

(** The new chunk, appended. *)
Lemma append_chunk_ok next s event :
  chunks_ok next s -> 0 <= next -> ev_Sequence event = s_lastSequence s + 1 ->
  chunks_ok (next + 1) (set_history (s_history s ++ [mkChunk event (next + 1)])
    (s_historyBytes s + len (ev_Data event)) (set_lastSequence (s_lastSequence s + 1) s)).
Proof.
  intros [Hb Hs Hn He] Hpos Hseq. split; cbn.
  - mux_rw. rewrite Hb. unfold chunk_bytes at 3. cbn. lia.
  - apply sorted_snoc; [done|]. eapply Forall_impl; [exact Hn|]. cbn. intros c ?. lia.
  - apply Forall_app. split; [eapply Forall_impl; [exact Hn|]; cbn; intros c ?; lia|].
    constructor; [cbn; lia|constructor].
  - by apply ends_at_snoc.
Qed.

Lemma orders_insert ss id s s3 c next :
  orders_distinct ss -> ss !! id = Some s -> (forall j t, ss !! j = Some t -> chunks_ok next t) ->
  hc_order c = next + 1 -> s_history s3 `suffix_of` s_history s ++ [c] ->
  orders_distinct (<[id := s3]> ss).
Proof.
  intros Hd Hs Hok Hc Hsuf.
  assert (forall j t x, <[id := s3]> ss !! j = Some t -> x ∈ s_history t ->
    j = id /\ x = c \/ exists t0, ss !! j = Some t0 /\ x ∈ s_history t0 /\ hc_order x <= next) as Hin.
  { assert (forall j t x, ss !! j = Some t -> x ∈ s_history t -> hc_order x <= next) as Hle.
    { intros j t x Hj Hx. pose proof (ck_next _ _ (Hok _ _ Hj)) as Hf. rewrite Forall_forall in Hf.
      specialize (Hf x Hx). cbn in Hf. lia. }
    intros j t x Hj Hx. rewrite lookup_insert in Hj. case_decide; simplify_eq.
    - apply (suffix_elem _ _ _ Hsuf) in Hx as Hx'. apply elem_of_app in Hx' as [Hx'|Hx'%list_elem_of_singleton].
      + right. exists s. split_and!; try done. by eapply Hle.
      + by left.
    - right. exists t. split_and!; try done. by eapply Hle. }
  intros i j a b x y Hi Hj Hx Hy Heq.
  destruct (Hin _ _ _ Hi Hx) as [[-> ->]|(a0 & Ha & Hxa & ?)], (Hin _ _ _ Hj Hy) as [[-> ->]|(b0 & Hb & Hyb & ?)];
    try done; try lia. by eapply (Hd i j a0 b0 x y).
Qed.

Lemma suffix_app_tail {A} (l k m : list A) : l `suffix_of` k -> l ++ m `suffix_of` k ++ m.
Proof. intros [p ->]. exists p. by rewrite <- (assoc_L (++)). Qed.

(** The chunk [appendHistoryLocked] adds. *)
Definition new_chunk (cfg : ManagerConfig) (s : Session) (data : list byte) (h : Hist) : list historyChunk :=
  if (HistoryBytes cfg =? 0) || (MaxTotalHistoryBytes cfg =? 0) then []
  else [mkChunk (mkOutputEvent (s_lastSequence s + 1) (last_bytes (history_limit cfg) data)) (nextHistory h + 1)].

(** What [publish] does to the histories. *)
Record published (cfg : ManagerConfig) (id : Z) (s : Session) (data : list byte)
    (ss : Sessions) (h : Hist) (ss' : Sessions) (h' : Hist) : Prop := {
  pu_inv : hist_inv cfg ss' h';
  pu_session j t : ss !! j = Some t -> exists t', ss' !! j = Some t' /\
    s_history t' `suffix_of` s_history t ++ (if j =? id then new_chunk cfg s data h else []) /\
    t' = set_history (s_history t') (s_historyBytes t')
           (if j =? id then set_lastSequence (s_lastSequence s + 1) t else t);
  pu_back j t' : ss' !! j = Some t' -> is_Some (ss !! j);
  pu_older i j a a' b' c d : i <> id -> ss !! i = Some a -> ss' !! i = Some a' -> ss' !! j = Some b' ->
    c ∈ s_history a -> c ∉ s_history a' -> d ∈ s_history b' -> hc_order c < hc_order d;
  pu_kept : exists mid, longest_fitting (HistoryBytes cfg) (s_history s ++ new_chunk cfg s data h) mid /\
    forall j t t' c, ss !! j = Some t -> ss' !! j = Some t' -> c ∈ (if j =? id then mid else s_history t) ->
      (c ∈ s_history t' <-> bytes_since (hc_order c) (<[id := set_history mid (sumZ chunk_bytes mid) s]> ss) <= MaxTotalHistoryBytes cfg);
  pu_exact : s_historyBytes s + len data <= HistoryBytes cfg ->
    historyBytes h + len data <= MaxTotalHistoryBytes cfg ->
    forall j t t', ss !! j = Some t -> ss' !! j = Some t' ->
      s_history t' = s_history t ++ (if j =? id then new_chunk cfg s data h else []);
}.

Lemma publish_off cfg id s data ss h :
  hist_inv cfg ss h -> ss !! id = Some s ->
  (HistoryBytes cfg =? 0) || (MaxTotalHistoryBytes cfg =? 0) = true ->
  published cfg id s data ss h (<[id := set_lastSequence (s_lastSequence s + 1) s]> ss) h.
Proof.
  intros I Hs Eoff.
  assert (forall j t, ss !! j = Some t -> s_history t = []) as Hnil.
  { apply (hi_off _ _ _ I). apply orb_true_iff in Eoff as [?|?]; reflect_bools; tauto. }
  assert (new_chunk cfg s data h = []) as Hnew by (unfold new_chunk; by rewrite Eoff).
  assert (forall j t', <[id := set_lastSequence (s_lastSequence s + 1) s]> ss !! j = Some t' ->
    exists t, ss !! j = Some t /\ t' = (if j =? id then set_lastSequence (s_lastSequence s + 1) t else t) /\
      s_history t' = [] /\ s_historyBytes t' = s_historyBytes t) as Hch.
  { intros j t' Hj. destruct (Z.eqb_spec j id) as [->|Hne].
    - rewrite lookup_insert_eq in Hj. simplify_eq. exists s. split_and!; try done. cbn. by eapply Hnil.
    - rewrite lookup_insert_ne in Hj by done. exists t'. split_and!; try done. by eapply Hnil. }
  split.
  - pose proof (hi_total _ _ _ I) as Ht. destruct I. split; try done.
    + intros j t' (t & Hj & -> & Hn & Hb)%Hch. destruct (hi_chunks0 _ _ Hj) as [Hcb _ _ _].
      split; rewrite Hn; try constructor. rewrite Hb, Hcb, (Hnil _ _ Hj). done.
    + intros j t' (t & Hj & -> & Hn & Hb)%Hch. rewrite Hb. by eauto.
    + rewrite (map_sumZ_insert _ _ _ _ _ Hs). cbn. lia.
    + intros i j a b c d (t & _ & _ & Hn & _)%Hch _ Hc. rewrite Hn in Hc. by apply elem_of_nil in Hc.
    + by intros _ j t' (t & _ & _ & Hn & _)%Hch.
  - intros j t Hj. exists (if j =? id then set_lastSequence (s_lastSequence s + 1) t else t).
    rewrite Hnew. split_and!.
    + destruct (Z.eqb_spec j id) as [->|]; [rewrite lookup_insert_eq|by rewrite lookup_insert_ne]. congruence.
    + destruct (j =? id); cbn; rewrite app_nil_r; reflexivity.
    + destruct (j =? id); by destruct t.
  - intros j t' (t & Hj & _)%Hch. by eexists.
  - intros i j a a' b' c d _ Ha _ _ Hc. rewrite (Hnil _ _ Ha) in Hc. by apply elem_of_nil in Hc.
  - exists []. rewrite Hnew, (Hnil _ _ Hs). split; [apply longest_fitting_refl|].
    + pose proof (hi_session _ _ _ I _ _ Hs) as Hle. rewrite (ck_bytes _ _ (hi_chunks _ _ _ I _ _ Hs)), (Hnil _ _ Hs) in Hle. done.
    + intros j t t' c Hj _ Hc. rewrite (Hnil _ _ Hj) in Hc. destruct (j =? id); by apply elem_of_nil in Hc.
  - intros _ _ j t t' Hj (t0 & _ & _ & Hn & _)%Hch. rewrite Hn, (Hnil _ _ Hj), Hnew. by destruct (j =? id).
Qed.

(** The history invariant after the new chunk and the trimming of its session. *)
Lemma publish_middle cfg id s ss h s3 event :
  manager_config_ok cfg -> hist_inv cfg ss h -> ss !! id = Some s -> chunks_ok (nextHistory h + 1) s3 ->
  s_history s3 `suffix_of` s_history s ++ [mkChunk event (nextHistory h + 1)] ->
  (forall j t, <[id := s3]> ss !! j = Some t -> chunks_ok (nextHistory h + 1) t) /\
  orders_distinct (<[id := s3]> ss) /\
  map_sumZ s_historyBytes (<[id := s3]> ss) = historyBytes h - s_historyBytes s + s_historyBytes s3.
Proof.
  intros Hcfg I Hs Hok Hsuf. split_and!.
  - intros j t Hj. rewrite lookup_insert in Hj. case_decide; simplify_eq; [done|].
    eapply chunks_ok_next; [|by eapply hi_chunks]. lia.
  - eapply (orders_insert ss id s s3 (mkChunk event (nextHistory h + 1))); [apply I|done|apply I|done|done].
  - rewrite (map_sumZ_insert _ _ _ _ _ Hs), (hi_total _ _ _ I). lia.
Qed.

Lemma publish_on cfg id s data ss h :
  manager_config_ok cfg -> hist_inv cfg ss h -> ss !! id = Some s ->
  0 <= s_lastSequence s < 2 ^ 64 - 1 -> nextHistory h < 2 ^ 64 - 1 ->
  (HistoryBytes cfg =? 0) || (MaxTotalHistoryBytes cfg =? 0) = false ->
  let '(ss', h') := publish_history cfg id s data ss h in published cfg id s data ss h ss' h'.
Proof.
  intros Hcfg I Hs Hseq Hnx Eoff. pose proof (hist_inv_config _ _ _ Hcfg I) as (Hh0 & Hlim & Hlim').
  pose proof (hi_next _ _ _ I) as Hnext.
  unfold publish_history, appendHistory. rewrite Eoff.
  rewrite (uwrap_small 64) by (unfold fits_u; lia). cbn [s_lastSequence set_lastSequence ev_Sequence ev_Data].
  set (event0 := mkOutputEvent (s_lastSequence s + 1) data).
  destruct (clip_data (history_limit cfg) event0 ltac:(lia)) as (Hcd & Hcl & Hcs). cbn [ev_Data event0] in Hcd, Hcl.
  change (ev_Sequence event0) with (s_lastSequence s + 1) in Hcs.
  assert (nextHistory (clip_hist (history_limit cfg) event0 h) = nextHistory h /\
    historyBytes (clip_hist (history_limit cfg) event0 h) = historyBytes h) as [Hn1 Hb1]
    by (unfold clip_hist; by destruct (_ <? _)).
  rewrite Hn1, Hb1, (uwrap_small 64) by (unfold fits_u; lia).
  set (event := clip (history_limit cfg) event0) in *.
  assert (new_chunk cfg s data h = [mkChunk event (nextHistory h + 1)]) as Hnew.
  { unfold new_chunk. rewrite Eoff. do 2 f_equal. rewrite <- Hcd, <- Hcs. by destruct event. }
  pose proof (append_chunk_ok _ s event (hi_chunks _ _ _ I _ _ Hs) ltac:(lia) Hcs) as Hok2.
  set (s2 := set_history _ _ _) in *. set (h2 := mkHist (nextHistory h + 1) _ _ _).
  pose proof (trim_session_spec (HistoryBytes cfg) _ (s_history s2) s2 h2 ltac:(lia) eq_refl Hok2) as Hts.
  pose proof (trim_session_longest (HistoryBytes cfg) _ (s_history s2) s2 h2 ltac:(lia) eq_refl Hok2) as Hlong.
  change (s_history s ++ [mkChunk event (nextHistory h + 1)]) with (s_history s2).
  destruct (trim_session _ _ s2 h2) as [s3 h3]. cbn [fst] in Hlong. destruct Hts as (Hok3 & Hb3 & Hsuf3 & He3 & Hn3 & Ht3 & Hex3).
  destruct (publish_middle cfg id s ss h s3 event Hcfg I Hs Hok3 Hsuf3) as (Hoks & Hds & Hsum).
  assert (historyBytes h3 = map_sumZ s_historyBytes (<[id := s3]> ss)) as Htot
    by (rewrite Hsum; cbn in Ht3; lia).
  pose proof (trim_total_spec (chunk_count (<[id := s3]> ss)) (MaxTotalHistoryBytes cfg) _ _ h3 ltac:(lia)
    (le_n _) Hoks Hds Htot) as Htt.
  pose proof (trim_total_exact (chunk_count (<[id := s3]> ss)) (MaxTotalHistoryBytes cfg) _ _ h3 ltac:(lia)
    (le_n _) Hoks Hds Htot) as Hkept.
  destruct (trim_total _ _ _ h3) as [ss' h']. cbn [fst] in Hkept. destruct Htt as (T & Ht' & Hm' & Hn' & Hex').
  assert (forall j t, ss !! j = Some t -> exists t1, <[id := s3]> ss !! j = Some t1 /\
    s_history t1 `suffix_of` s_history t ++ (if j =? id then new_chunk cfg s data h else []) /\
    t1 = set_history (s_history t1) (s_historyBytes t1)
      (if j =? id then set_lastSequence (s_lastSequence s + 1) t else t) /\
    s_historyBytes t1 <= HistoryBytes cfg) as Hmid.
  { intros j t Hj. destruct (Z.eqb_spec j id) as [->|Hne].
    - exists s3. rewrite lookup_insert_eq, Hnew. simplify_eq. split_and!; try done.
    - exists t. rewrite lookup_insert_ne, app_nil_r by done. split_and!; [done|reflexivity|by destruct t|].
      by eapply hi_session. }
  split.
  - split; try done; try apply T.
    + intros j t' Hj. rewrite Hn', Hn3. by eapply tr_ok.
    + intros j t' Hj. destruct (tr_back _ _ _ T _ _ Hj) as [t1 Hj1].
      destruct (tr_suffix _ _ _ T _ _ Hj1) as (t2 & Hj2 & _ & _ & Hle). simplify_eq.
      rewrite lookup_insert in Hj1. case_decide; simplify_eq; [lia|].
      pose proof (hi_session _ _ _ I _ _ Hj1). lia.
    + rewrite Hn', Hn3. cbn. lia.
    + intros Hoff. apply orb_false_iff in Eoff as [??]. reflect_bools. lia.
  - intros j t Hj. destruct (Hmid j t Hj) as (t1 & Hj1 & Hsuf1 & He1 & _).
    destruct (tr_suffix _ _ _ T _ _ Hj1) as (t' & Hj' & Hsuf' & He' & _). exists t'.
    split; [done|]. split; [by etrans|]. rewrite He', He1. by destruct t.
  - intros j t' Hj. destruct (tr_back _ _ _ T _ _ Hj) as [t1 Hj1]. rewrite lookup_insert in Hj1.
    case_decide; simplify_eq; by eexists.
  - intros i j a a' b' c d Hne Ha Ha' Hb' Hc Hnc Hd.
    eapply (tr_older _ _ _ T i j a a' b'); try done. by rewrite lookup_insert_ne.
  - exists (s_history s3). rewrite Hnew. split; [done|]. intros j t t' c Hj Hj' Hc.
    assert (bytes_since (hc_order c) (<[id := set_history (s_history s3) (sumZ chunk_bytes (s_history s3)) s]> ss) =
      bytes_since (hc_order c) (<[id := s3]> ss)) as -> by (unfold bytes_since; by rewrite !(map_sumZ_insert _ _ _ _ _ Hs)).
    destruct (Z.eqb_spec j id) as [->|Hne].
    + by apply (Hkept id s3); [rewrite lookup_insert_eq|..].
    + by apply (Hkept j t); [rewrite lookup_insert_ne|..].
  - intros Hfit Hfit' j t t' Hj Hj'. destruct (Hex3 ltac:(cbn; lia)) as [-> ->].
    destruct (Hex' ltac:(cbn; lia)) as [-> ->]. rewrite lookup_insert in Hj'.
    destruct (Z.eqb_spec j id) as [->|Hne].
    + rewrite decide_True in Hj' by done. rewrite Hnew. by simplify_eq.
    + rewrite decide_False in Hj' by congruence. simplify_eq. by rewrite app_nil_r.
Qed.

Lemma publish_history_spec' cfg id s data ss h :
  manager_config_ok cfg -> hist_inv cfg ss h -> ss !! id = Some s ->
  0 <= s_lastSequence s < 2 ^ 64 - 1 -> nextHistory h < 2 ^ 64 - 1 ->
  let '(ss', h') := publish_history cfg id s data ss h in published cfg id s data ss h ss' h'.
Proof.
  intros Hcfg I Hs Hseq Hnx.
  destruct ((HistoryBytes cfg =? 0) || (MaxTotalHistoryBytes cfg =? 0)) eqn:Eoff; [|by apply publish_on].
  unfold publish_history, appendHistory. rewrite Eoff.
  rewrite (uwrap_small 64) by (unfold fits_u; lia). by apply publish_off.
Qed.

(** C18. The output history is bounded, and drops the oldest output first. For
    any chunk published by a registered session: the per-session and total byte
    limits hold afterwards and the totals are the sums of what is kept; each
    history is a suffix of what it was, with the new chunk (its last bytes, when
    it alone exceeds the limit) at the end of its session's, with consecutive
    sequence numbers; a chunk dropped from another session is older than every
    chunk kept anywhere. Nothing more is dropped than does not fit: the session's
    own limit leaves the longest suffix of its history that fits it, and of what
    is left in all sessions a chunk is kept exactly when it fits the total limit
    together with every chunk that is as recent. *)
Theorem publish_history_spec cfg id s data ss h :
  manager_config_ok cfg -> hist_inv cfg ss h -> ss !! id = Some s ->
  0 <= s_lastSequence s < 2 ^ 64 - 1 -> nextHistory h < 2 ^ 64 - 1 ->
  let '(ss', h') := publish_history cfg id s data ss h in published cfg id s data ss h ss' h'.
Proof. apply publish_history_spec'. Qed.

Lemma removeHistory_inv cfg id s ss h :
  hist_inv cfg ss h -> ss !! id = Some s -> manager_config_ok cfg ->
  hist_inv cfg (delete id ss) (removeHistory s h).2.
Proof.
  intros I Hs Hcfg. pose proof (ck_bytes _ _ (hi_chunks _ _ _ I _ _ Hs)) as Hb.
  pose proof (sum_chunks_nonneg (s_history s)). destruct I. split; cbn; try done.
  - intros j t [_ Hj]%lookup_delete_Some. by eauto.
  - intros j t [_ Hj]%lookup_delete_Some. by eauto.
  - rewrite hi_total0, (map_sumZ_delete _ _ _ _ Hs). lia.
  - lia.
  - intros i j a b c d [_ Hi]%lookup_delete_Some [_ Hj]%lookup_delete_Some. by eapply hi_orders0.
  - intros Hoff j t [_ Hj]%lookup_delete_Some. by eapply hi_off0.
Qed.

(** *** Witness *)

Definition demo_hist_cfg : ManagerConfig := mkManagerConfig 2 4 6 32 16 400 2 1 1 1 0 0.

Lemma demo_hist_cfg_ok : manager_config_ok demo_hist_cfg.
Proof. apply ManagerConfig_validate_ok. reflexivity. Qed.

Definition new_session (id : Z) : Session :=
  mkSession id SessionRunning (mkSize 80 24) 0 0 None false false [] 0 ∅ false.

Definition demo_sessions : Sessions := {[1 := new_session 1; 2 := new_session 2]}.

Definition demo_data : list byte := [Byte.x61; Byte.x62; Byte.x63].

Definition demo_publish (id : Z) (x : Sessions * Hist) : Sessions * Hist :=
  match x.1 !! id with
  | Some s => publish_history demo_hist_cfg id s demo_data x.1 x.2
  | None => x
  end.

Definition demo_hist : Sessions * Hist := demo_publish 2 (demo_publish 1 (demo_sessions, mkHist 0 0 0 0)).

Lemma demo_sessions_inv : hist_inv demo_hist_cfg demo_sessions (mkHist 0 0 0 0).
Proof.
  assert (forall j t, demo_sessions !! j = Some t -> t = new_session j) as Hin.
  { intros j t Hj. unfold demo_sessions in Hj. rewrite lookup_insert in Hj. case_decide; simplify_eq; [done|].
    apply lookup_singleton_Some in Hj as [<- <-]. done. }
  split; try done.
  - intros j t ->%Hin. split; cbn; try done; constructor.
  - by intros j t ->%Hin.
  - intros i j a b c d ->%Hin _ Hc. by apply elem_of_nil in Hc.
  - by intros _ j t ->%Hin.
Qed.

Lemma demo_publish_inv id x :
  hist_inv demo_hist_cfg x.1 x.2 -> nextHistory x.2 < 10 ->
  (forall s, x.1 !! id = Some s -> 0 <= s_lastSequence s < 10) ->
  hist_inv demo_hist_cfg (demo_publish id x).1 (demo_publish id x).2.
Proof.
  intros I Hn Hl. unfold demo_publish. destruct (x.1 !! id) as [s|] eqn:E; [|done].
  pose proof (publish_history_spec' demo_hist_cfg id s demo_data x.1 x.2 demo_hist_cfg_ok I E) as Hp.
  destruct (publish_history _ _ _ _ _ _) as [ss' h']. apply Hp; [|lia]. specialize (Hl s eq_refl). lia.
Qed.

Lemma demo_hist_inv : hist_inv demo_hist_cfg demo_hist.1 demo_hist.2.
Proof.
  unfold demo_hist. apply demo_publish_inv; [apply demo_publish_inv; [exact demo_sessions_inv|..]|..].
  1,3: vm_compute; reflexivity.
  all: vm_compute; intros s [= <-]; split; [discriminate|reflexivity].
Qed.

(** The third chunk of 3 bytes exceeds the total of 6: the oldest one goes. *)
Lemma publish_history_spec_witness :
  exists s, demo_hist.1 !! 2 = Some s /\
    let '(ss', h') := publish_history demo_hist_cfg 2 s [Byte.x64] demo_hist.1 demo_hist.2 in
    published demo_hist_cfg 2 s [Byte.x64] demo_hist.1 demo_hist.2 ss' h' /\
    s_history <$> (ss' !! 1) = Some [].
Proof.
  destruct (demo_hist.1 !! 2) as [s|] eqn:E; [|vm_compute in E; discriminate].
  exists s. split; [reflexivity|].
  pose proof (publish_history_spec demo_hist_cfg 2 s [Byte.x64] demo_hist.1 demo_hist.2
    demo_hist_cfg_ok demo_hist_inv E) as Hp.
  assert (s_history <$> ((publish_history demo_hist_cfg 2 s [Byte.x64] demo_hist.1 demo_hist.2).1 !! 1) = Some [])
    as Hone by (vm_compute in E; injection E as <-; vm_compute; reflexivity).
  assert (0 <= s_lastSequence s < 2 ^ 64 - 1) as Hs by (vm_compute in E; injection E as <-; cbn; lia).
  destruct (publish_history _ _ _ _ _ _) as [ss' h']. split; [|exact Hone].
  apply Hp; [exact Hs|vm_compute; reflexivity].
Defined.
