(* ===== verification/Manager.v ===== *)
(** pty/manager.go: the Manager's registry and the critical sections of its
    operations and of the sessions' goroutines. *)

From S2P Require Import Prelude Errors BigEndian PtyTypes Attachment Subscription History.

(** ** State *)

Record Manager := mkManager {
  sessions : Sessions;
  hist : Hist;
  retainedExited : list Z;
  observers : gmap Z Subscription;
  nextSession : Z;
  nextAttachment : Z;
  nextObserver : Z;
  processesStarted : Z;
  processesExited : Z;
  sessionsEvicted : Z;
  sessionsRemoved : Z;
  attachmentClosures : AttachmentCloseReason -> Z;
  observerClosures : ObserverCloseReason -> Z;
  generation : Z;
  sessionIDExhausted : bool;
  closing : bool;
  starting : Z;
  activeSessions : Z;
}.

Definition newManager : Manager :=
  mkManager ∅ (mkHist 0 0 0 0) [] ∅ 0 0 0 0 0 0 0 (fun _ => 0) (fun _ => 0) 0 false false 0 0.

(** [NewManager] *)
Definition NewManager (ctx factory : bool) (config : ManagerConfig) : Manager + error :=
  if negb ctx then inr (New "pty: nil Manager context")
  else if negb factory then inr (New "pty: nil managed factory")
  else match ManagerConfig_validate config with
       | Some e => inr e
       | None => inl newManager
       end.

Definition with_sessions ss m := mkManager ss (hist m) (retainedExited m) (observers m) (nextSession m) (nextAttachment m) (nextObserver m) (processesStarted m) (processesExited m) (sessionsEvicted m) (sessionsRemoved m) (attachmentClosures m) (observerClosures m) (generation m) (sessionIDExhausted m) (closing m) (starting m) (activeSessions m).
Definition with_hist h m := mkManager (sessions m) h (retainedExited m) (observers m) (nextSession m) (nextAttachment m) (nextObserver m) (processesStarted m) (processesExited m) (sessionsEvicted m) (sessionsRemoved m) (attachmentClosures m) (observerClosures m) (generation m) (sessionIDExhausted m) (closing m) (starting m) (activeSessions m).
Definition with_retained l m := mkManager (sessions m) (hist m) l (observers m) (nextSession m) (nextAttachment m) (nextObserver m) (processesStarted m) (processesExited m) (sessionsEvicted m) (sessionsRemoved m) (attachmentClosures m) (observerClosures m) (generation m) (sessionIDExhausted m) (closing m) (starting m) (activeSessions m).
Definition with_observers o m := mkManager (sessions m) (hist m) (retainedExited m) o (nextSession m) (nextAttachment m) (nextObserver m) (processesStarted m) (processesExited m) (sessionsEvicted m) (sessionsRemoved m) (attachmentClosures m) (observerClosures m) (generation m) (sessionIDExhausted m) (closing m) (starting m) (activeSessions m).
Definition with_ids s a o m := mkManager (sessions m) (hist m) (retainedExited m) (observers m) s a o (processesStarted m) (processesExited m) (sessionsEvicted m) (sessionsRemoved m) (attachmentClosures m) (observerClosures m) (generation m) (sessionIDExhausted m) (closing m) (starting m) (activeSessions m).
Definition with_counts st ex ev rm m := mkManager (sessions m) (hist m) (retainedExited m) (observers m) (nextSession m) (nextAttachment m) (nextObserver m) st ex ev rm (attachmentClosures m) (observerClosures m) (generation m) (sessionIDExhausted m) (closing m) (starting m) (activeSessions m).
Definition with_closures a o m := mkManager (sessions m) (hist m) (retainedExited m) (observers m) (nextSession m) (nextAttachment m) (nextObserver m) (processesStarted m) (processesExited m) (sessionsEvicted m) (sessionsRemoved m) a o (generation m) (sessionIDExhausted m) (closing m) (starting m) (activeSessions m).
Definition with_generation g m := mkManager (sessions m) (hist m) (retainedExited m) (observers m) (nextSession m) (nextAttachment m) (nextObserver m) (processesStarted m) (processesExited m) (sessionsEvicted m) (sessionsRemoved m) (attachmentClosures m) (observerClosures m) g (sessionIDExhausted m) (closing m) (starting m) (activeSessions m).
Definition with_flags e c m := mkManager (sessions m) (hist m) (retainedExited m) (observers m) (nextSession m) (nextAttachment m) (nextObserver m) (processesStarted m) (processesExited m) (sessionsEvicted m) (sessionsRemoved m) (attachmentClosures m) (observerClosures m) (generation m) e c (starting m) (activeSessions m).
Definition with_active s a m := mkManager (sessions m) (hist m) (retainedExited m) (observers m) (nextSession m) (nextAttachment m) (nextObserver m) (processesStarted m) (processesExited m) (sessionsEvicted m) (sessionsRemoved m) (attachmentClosures m) (observerClosures m) (generation m) (sessionIDExhausted m) (closing m) s a.

Definition set_attachments a s := mkSession (s_id s) (s_state s) (s_size s) (s_startedAt s) (s_lastSequence s) (s_exit s) (s_retained s) (s_removing s) (s_history s) (s_historyBytes s) a (s_done s).
Definition set_lifecycle st ex re rm s := mkSession (s_id s) st (s_size s) (s_startedAt s) (s_lastSequence s) ex re rm (s_history s) (s_historyBytes s) (s_attachments s) (s_done s).
Definition set_size sz s := mkSession (s_id s) (s_state s) sz (s_startedAt s) (s_lastSequence s) (s_exit s) (s_retained s) (s_removing s) (s_history s) (s_historyBytes s) (s_attachments s) (s_done s).

(** [infoLocked] *)
Definition infoLocked (s : Session) : SessionInfo :=
  mkSessionInfo (s_id s) (s_state s) (s_size s) (s_startedAt s) (s_lastSequence s) (s_exit s)
    (Z.of_nat (size (s_attachments s))) (0 <? len (s_history s)).

(** [emitLocked]: the observers that failed, and the Manager without them. *)
Definition emit (event : Event) (m : Manager) : list Z * Manager :=
  let accept s := match enqueue event s with (None, s') => Some s' | (Some _, _) => None end in
  ((filter (fun os => accept os.2 = None) (map_to_list (observers m))).*1,
   with_observers (omap accept (observers m)) m).

Definition info_event (kind : EventKind) (s : Session) : Event := mkEvent kind (infoLocked s) None None.

(** [recordObserverClose] and [recordProcessExited] *)
Definition recordObserverClose (reason : ObserverCloseReason) (m : Manager) : Manager :=
  with_closures (attachmentClosures m)
    (fun r => if decide (r = reason) then u64 (observerClosures m r + 1) else observerClosures m r) m.
Definition recordProcessExited (m : Manager) : Manager :=
  with_counts (processesStarted m) (u64 (processesExited m + 1)) (sessionsEvicted m) (sessionsRemoved m) m.

(** ** Open *)

(** [Open] up to [StartManaged]: the session identifier or the error. *)
Definition open_admit (cfg : ManagerConfig) (ctx : bool) (spec : ProcessSpec) (m : Manager) : (Z + error) * Manager :=
  if negb ctx then (inr (New "pty: nil Open context"), m)
  else match ProcessSpec_Validate spec with
  | Some e => (inr e, m)
  | None =>
  match Size_Validate (InitialSize spec) with
  | Some e => (inr e, m)
  | None =>
  if closing m then (inr ErrManagerClosed, m)
  else if MaxSessions cfg <=? activeSessions m + starting m then (inr ErrSessionLimit, m)
  else if sessionIDExhausted m then (inr ErrSessionLimit, m)
  else
    let id := u64 (nextSession m + 1) in
    let m := with_ids id (nextAttachment m) (nextObserver m) m in
    if id =? 0 then (inr ErrSessionLimit, with_flags true (closing m) m)
    else (inl id, with_active (starting m + 1) (activeSessions m) m)
  end end.

(** [m.starting--] after a failed or cancelled start. *)
Definition open_failed (m : Manager) : Manager := with_active (starting m - 1) (activeSessions m) m.

(** [m.processesStarted++] *)
Definition open_started (m : Manager) : Manager :=
  with_counts (u64 (processesStarted m + 1)) (processesExited m) (sessionsEvicted m) (sessionsRemoved m) m.

(** The last critical section of [Open]: whether the session is registered, and
    the failed observers. *)
Definition open_commit (cfg : ManagerConfig) (id : Z) (sz : Size) (now : Z) (m : Manager) : bool * list Z * Manager :=
  let m := with_active (starting m - 1) (activeSessions m) m in
  if closing m || (MaxSessions cfg <=? activeSessions m) then (false, [], m)
  else
    let s := mkSession id SessionRunning sz now 0 None false false [] 0 ∅ false in
    let m := with_sessions (<[id := s]> (sessions m)) m in
    let m := with_active (starting m) (activeSessions m + 1) m in
    let m := with_generation (u64 (generation m + 1)) m in
    let '(failed, m) := emit (info_event EventOpened s) m in
    (true, failed, m).

(** ** Output *)

Inductive publish_result := PublishGone | Published (failedAttachments failedObservers : list Z).

(** [publish]'s critical section. *)
Definition publish (cfg : ManagerConfig) (id : Z) (data : list byte) (m : Manager) : publish_result * Manager :=
  match sessions m !! id with
  | None => (PublishGone, m)
  | Some s =>
      let '(ss, h) := publish_history cfg id s data (sessions m) (hist m) in
      let event := mkOutputEvent (u64 (s_lastSequence s + 1)) data in
      let m := with_hist h (with_sessions ss m) in
      match ss !! id with
      | None => (PublishGone, m)
      | Some s =>
          let accept a := match enqueueLocked (output_event event) a with (None, a') => Some a' | (Some _, _) => None end in
          let failed := (filter (fun ka => accept ka.2 = None) (map_to_list (s_attachments s))).*1 in
          let s := set_attachments (omap accept (s_attachments s)) s in
          let m := with_sessions (<[id := s]> (sessions m)) m in
          let '(failedObservers, m) := emit (mkEvent EventOutput (infoLocked s) (Some event) None) m in
          (Published failed failedObservers, m)
      end
  end.

(** ** Attach *)

Inductive ReplayMode := ReplayNone | ReplayHistory.
#[export] Instance ReplayMode_eq_dec : EqDecision ReplayMode.
Proof. solve_decision. Defined.

Record AttachOptions := mkAttachOptions { Replay : ReplayMode; ResumeAfter : Z; Paused : bool }.

Record AttachResult := mkAttachResult {
  ReplayFirst : Z; ReplayLast : Z; NextLive : Z; Truncated : bool;
}.

(** The loop over the history in [Attach]. *)
Fixpoint replay_loop (resumeAfter : Z) (l : list historyChunk) (r : AttachResult) (replay : list OutputEvent)
    : AttachResult * list OutputEvent :=
  match l with
  | [] => (r, replay)
  | c :: l =>
      let seq := ev_Sequence (hc_event c) in
      if seq <=? resumeAfter then replay_loop resumeAfter l r replay
      else replay_loop resumeAfter l
             (mkAttachResult (if ReplayFirst r =? 0 then seq else ReplayFirst r) seq (NextLive r) (Truncated r))
             (replay ++ [hc_event c])
  end.

(** The result and the replay [Attach] captures. *)
Definition attach_replay (o : AttachOptions) (s : Session) : AttachResult * list OutputEvent :=
  let r := mkAttachResult 0 0 (u64 (s_lastSequence s + 1)) false in
  match Replay o with
  | ReplayNone => (r, [])
  | ReplayHistory =>
      let truncated := match s_history s with
                       | [] => false
                       | c :: _ => u64 (ResumeAfter o + 1) <? ev_Sequence (hc_event c)
                       end in
      replay_loop (ResumeAfter o) (s_history s) (mkAttachResult 0 0 (NextLive r) truncated) []
  end.

(** The attachment [Attach] makes, up to [start]. [ended] is the error of the
    context when the function that newAttachment gives to context.AfterFunc has
    closed the attachment by then. *)
Definition attach_start (cfg : ManagerConfig) (ended : option error) (o : AttachOptions) (s : Session)
    (replay : list OutputEvent) : Attachment + error :=
  let a := newAttachment (AttachmentQueueBytes cfg) (negb (Paused o)) replay in
  let a := if ended then Attachment.finish None AttachmentContextCanceled a else a in
  let '(err, a) := match s_state s, s_exit s with
                   | SessionExited, Some status => enqueueExitLocked status a
                   | _, _ => (None, a)
                   end in
  match err with
  | Some err => inr err
  | None =>
      let '(started, a) := start a in
      if started then inl a else inr (default ErrAttachmentClosed ended)
  end.

(** [Attach] on the session with identifier [id], its critical section, the
    context, sink and mode having passed their tests. *)
Definition attach (cfg : ManagerConfig) (ended : option error) (o : AttachOptions) (id : Z) (m : Manager)
    : (Z * AttachResult * list Z + error) * Manager :=
  if closing m then (inr ErrSessionNotFound, m)
  else match sessions m !! id with
  | None => (inr ErrSessionExited, m)
  | Some s =>
  if negb (bool_decide (s_state s = SessionRunning)) &&
     negb (bool_decide (s_state s = SessionExited) && s_retained s) then (inr ErrSessionExited, m)
  else if MaxAttachmentsPerSession cfg <=? Z.of_nat (size (s_attachments s)) then (inr ErrAttachmentLimit, m)
  else if s_lastSequence s <? ResumeAfter o then (inr ErrFutureSequence, m)
  else
    let aid := u64 (nextAttachment m + 1) in
    let m := with_ids (nextSession m) aid (nextObserver m) m in
    if aid =? 0 then (inr ErrAttachmentLimit, m)
    else
      let '(result, replay) := attach_replay o s in
      match attach_start cfg ended o s replay with
      | inr err => (inr err, m)
      | inl a =>
          let s := set_attachments (<[aid := set_registered true a]> (s_attachments s)) s in
          let m := with_sessions (<[id := s]> (sessions m)) m in
          let '(failed, m) := emit (mkEvent EventAttached (infoLocked s) None (Some (mkAttachmentInfo aid None))) m in
          (inl (aid, result, failed), m)
      end
  end.

(** [recordAttachmentClose] for the registered attachment [aid] of session [id];
    [gone] is the snapshot of a session that is no longer registered. *)
Definition recordAttachmentClose (gone : SessionInfo) (id aid : Z) (reason : AttachmentCloseReason) (m : Manager) : Manager :=
  let m := with_closures (fun r => if decide (r = reason) then u64 (attachmentClosures m r + 1)
                                   else attachmentClosures m r) (observerClosures m) m in
  let detached info := mkEvent EventDetached info None (Some (mkAttachmentInfo aid (Some reason))) in
  match sessions m !! id with
  | None => (emit (detached gone) m).2
  | Some s =>
      let s := set_attachments (delete aid (s_attachments s)) s in
      (emit (detached (infoLocked s)) (with_sessions (<[id := s]> (sessions m)) m)).2
  end.

(** ** Exit, retention and removal *)

Definition active (s : Session) : bool :=
  bool_decide (s_state s = SessionRunning) || bool_decide (s_state s = SessionStopping).

(** The first critical section of [run] after the process has ended. *)
Definition run_exited (id : Z) (status : ExitStatus) (m : Manager) : Manager :=
  match sessions m !! id with
  | None => m
  | Some s =>
      let m := recordProcessExited m in
      let s := set_lifecycle SessionExited (Some status) (s_retained s) (s_removing s) s in
      let m := with_active (starting m) (if 0 <? activeSessions m then activeSessions m - 1 else activeSessions m) m in
      let s := set_attachments ((fun a => (enqueueExitLocked status a).2) <$> s_attachments s) s in
      let m := with_sessions (<[id := s]> (sessions m)) m in
      (emit (info_event EventExited s) m).2
  end.

Fixpoint remove_first (id : Z) (l : list Z) : list Z :=
  match l with
  | [] => []
  | x :: l => if x =? id then l else x :: remove_first id l
  end.

(** [removeRetainedIDLocked] *)
Definition removeRetainedID (id : Z) (m : Manager) : Manager := with_retained (remove_first id (retainedExited m)) m.

(** [removeSessionLocked] on the registered session [s]. *)
Definition removeSession (s : Session) (m : Manager) : Manager :=
  let m := with_sessions (delete (s_id s) (sessions m)) m in
  let m := removeRetainedID (s_id s) m in
  let m := with_hist (removeHistory s (hist m)).2 m in
  with_generation (u64 (generation m + 1)) m.

(** [retainedRemoval], by the session's identifier: the attachments to finish and
    the event to emit. *)
Record retainedRemoval := mkRemoval {
  rr_session : Z;
  rr_attachments : list Z;
  rr_reason : AttachmentCloseReason;
  rr_kind : EventKind;
}.

(** [beginRetainedRemovalLocked]; [None] is its [false]. *)
Definition beginRetainedRemoval (s : Session) (reason : AttachmentCloseReason) (kind : EventKind) (m : Manager)
    : option (retainedRemoval * Manager) :=
  if negb (s_retained s) || s_removing s then None
  else
    let m := removeRetainedID (s_id s) m in
    let s' := set_lifecycle (s_state s) (s_exit s) false true (set_attachments ∅ s) in
    Some (mkRemoval (s_id s) (map_to_list (s_attachments s)).*1 reason kind,
          with_sessions (<[s_id s := s']> (sessions m)) m).

(** [beginRetentionEvictionsLocked]: [None] when [fuel] iterations are not enough. *)
Fixpoint beginRetentionEvictions (fuel : nat) (cfg : ManagerConfig) (m : Manager) : option (list retainedRemoval * Manager) :=
  match fuel with
  | O => None
  | S fuel =>
      if MaxRetainedSessions cfg <? len (retainedExited m) then
        match retainedExited m with
        | [] => None
        | id :: rest =>
            match sessions m !! id with
            | Some s =>
                if s_retained s then
                  match beginRetainedRemoval s AttachmentSessionEvicted EventEvicted m with
                  | Some (removal, m) =>
                      '(removals, m) ← beginRetentionEvictions fuel cfg m; Some (removal :: removals, m)
                  | None => beginRetentionEvictions fuel cfg m
                  end
                else beginRetentionEvictions fuel cfg (with_retained rest m)
            | None => beginRetentionEvictions fuel cfg (with_retained rest m)
            end
        end
      else Some ([], m)
  end.

(** The last critical section of [run]: retention with its evictions, or removal. *)
Definition run_finalize (fuel : nat) (cfg : ManagerConfig) (id : Z) (m : Manager) : option (list retainedRemoval * Manager) :=
  match sessions m !! id with
  | None => Some ([], m)
  | Some s =>
      let s := set_attachments ∅ s in
      if negb (closing m) && (ExitPolicy cfg =? ExitedSessionRetain) then
        let s := set_lifecycle (s_state s) (s_exit s) true (s_removing s) s in
        let m := with_sessions (<[id := s]> (sessions m)) m in
        let m := with_retained (retainedExited m ++ [s_id s]) m in
        let m := with_generation (u64 (generation m + 1)) m in
        let m := (emit (info_event EventRetained s) m).2 in
        beginRetentionEvictions fuel cfg m
      else
        let m := removeSession s m in
        let m := with_counts (processesStarted m) (processesExited m) (sessionsEvicted m) (u64 (sessionsRemoved m + 1)) m in
        Some ([], (emit (info_event EventRemoved (set_history [] 0 (set_lifecycle (s_state s) (s_exit s) false false s))) m).2)
  end.

(** The critical section of [finishRetainedRemoval]. *)
Definition finish_removal (r : retainedRemoval) (m : Manager) : Manager :=
  match sessions m !! rr_session r with
  | None => m
  | Some s =>
      if negb (s_removing s) then m
      else
        let m := removeSession s m in
        let m := if bool_decide (rr_kind r = EventEvicted)
                 then with_counts (processesStarted m) (processesExited m) (u64 (sessionsEvicted m + 1)) (sessionsRemoved m) m
                 else with_counts (processesStarted m) (processesExited m) (sessionsEvicted m) (u64 (sessionsRemoved m + 1)) m in
        (emit (info_event (rr_kind r) (set_history [] 0 (set_lifecycle (s_state s) (s_exit s) false false s))) m).2
  end.

(** [Remove] up to [finishRetainedRemoval]. *)
Definition remove_begin (id : Z) (m : Manager) : (retainedRemoval + error) * Manager :=
  if closing m then (inr ErrManagerClosed, m)
  else match sessions m !! id with
  | None => (inr ErrSessionNotFound, m)
  | Some s =>
      if active s then (inr ErrSessionRunning, m)
      else match beginRetainedRemoval s AttachmentSessionRemoved EventRemoved m with
           | None => (inr ErrSessionNotFound, m)
           | Some (r, m) => (inl r, m)
           end
  end.

(** ** Observers, resizing, killing, closing *)

(** [Subscribe] *)
Definition subscribe (cfg : ManagerConfig) (m : Manager) : (Z + error) * Manager :=
  if closing m then (inr ErrManagerClosed, m)
  else if MaxObservers cfg <=? Z.of_nat (size (observers m)) then (inr ErrObserverLimit, m)
  else
    let id := u64 (nextObserver m + 1) in
    let m := with_ids (nextSession m) (nextAttachment m) id m in
    (inl id, with_observers (<[id := newSubscription (ObserverQueueBytes cfg)]> (observers m)) m).

(** [Subscription.Close]'s critical section. *)
Definition unsubscribe (id : Z) (m : Manager) : Manager := with_observers (delete id (observers m)) m.

(** [Resize]'s last critical section. *)
Definition resized (id : Z) (sz : Size) (m : Manager) : Manager :=
  match sessions m !! id with
  | Some s =>
      if bool_decide (s_state s = SessionRunning) then with_sessions (<[id := set_size sz s]> (sessions m)) m else m
  | None => m
  end.

(** The critical section of [Session.Kill]: whether to signal the process. *)
Definition kill_section (id : Z) (m : Manager) : bool * Manager :=
  match sessions m !! id with
  | Some s =>
      (active s,
       if bool_decide (s_state s = SessionRunning)
       then with_sessions (<[id := set_lifecycle SessionStopping (s_exit s) (s_retained s) (s_removing s) s]> (sessions m)) m
       else m)
  | None => (false, m)
  end.

(** [Close]: its first critical section, the sessions to terminate, the observers
    to finish. *)
Definition close_begin (m : Manager) : list Z * list Z * Manager :=
  ((filter (fun ks => active ks.2 = true) (map_to_list (sessions m))).*1,
   (map_to_list (observers m)).*1,
   with_observers ∅ (with_sessions
     ((fun s => if bool_decide (s_state s = SessionRunning)
                then set_lifecycle SessionStopping (s_exit s) (s_retained s) (s_removing s) s else s) <$> sessions m)
     (with_flags (sessionIDExhausted m) true m))).

(** [Close]: its last critical section. *)
Definition close_end (m : Manager) : Manager :=
  let m := with_hist (mkHist (nextHistory (hist m)) (historyBytes (hist m) - map_sumZ s_historyBytes (sessions m))
                        (historyTruncations (hist m)) (historyTruncatedBytes (hist m))) m in
  let m := with_retained [] (with_sessions ∅ m) in
  with_generation (u64 (generation m + 1)) (with_active (starting m) 0 m).

(** ** Snapshots *)

Definition info_le (a b : SessionInfo) : Prop := si_ID a <= si_ID b.
#[export] Instance info_le_dec : RelDecision info_le := fun a b => Z_le_dec _ _.

(** [ListSnapshot] *)
Definition ListSnapshot (m : Manager) : Z * list SessionInfo :=
  (generation m, merge_sort info_le (infoLocked <$> (map_to_list (sessions m)).*2)).

Record ManagerStats := mkManagerStats {
  ms_Sessions : Z; ms_ActiveSessions : Z; ms_StartingSessions : Z; ms_Attachments : Z; ms_Subscriptions : Z;
  ms_HistoryBytes : Z; ms_RetainedExitedSessions : Z;
}.

(** [Manager.Stats]: the point-in-time fields; the counters are copied. *)
Definition Stats (m : Manager) : ManagerStats :=
  mkManagerStats (Z.of_nat (size (sessions m))) (activeSessions m) (starting m)
    (map_sumZ (fun s => Z.of_nat (size (s_attachments s))) (sessions m)) (Z.of_nat (size (observers m)))
    (historyBytes (hist m)) (len (retainedExited m)).

(** ** Replay *)

Lemma replay_loop_app ra l r replay :
  replay_loop ra l r replay =
    let '(r', k) := replay_loop ra l r [] in (r', replay ++ k).
Proof.
  revert r replay. induction l as [|c l IH]; intros r replay; cbn; [by rewrite app_nil_r|].
  destruct (_ <=? ra); [apply IH|]. rewrite IH. symmetry. rewrite IH.
  destruct (replay_loop _ _ _ []). by rewrite (assoc_L (++)).
Qed.

(** On chunks that all follow [ra], the loop takes everything. *)
Lemma replay_loop_all ra last l r :
  ends_at last l -> ra + len l <= last -> 0 < last -> 0 <= ra -> ReplayFirst r <> 0 ->
  replay_loop ra l r [] =
    (mkAttachResult (ReplayFirst r) (match l with [] => ReplayLast r | _ => last end) (NextLive r) (Truncated r),
     hc_event <$> l).
Proof.
  revert r. induction l as [|c l IH]; intros r; cbn [ends_at replay_loop]; [by destruct r|].
  mux_rw. intros [Hc He] Hle Hpos Hra Hf. pose proof (len_nonneg l).
  rewrite (proj2 (Z.leb_gt _ _)) by lia. rewrite (proj2 (Z.eqb_neq _ _) Hf).
  rewrite replay_loop_app, IH by (cbn; done || lia). cbn. destruct l; [|done].
  by rewrite Hc, len_nil, Z.sub_0_r.
Qed.

(** The first chunk after [ra] splits a history. *)
Lemma replay_split ra last l : ends_at last l ->
  exists old new, l = old ++ new /\ Forall (fun c => ev_Sequence (hc_event c) <= ra) old /\ ends_at last new /\
    (new = [] \/ ra + len new <= last) /\ (old = [] \/ last <= ra + len new).
Proof.
  induction l as [|c l IH]; cbn [ends_at]; intros He.
  - exists [], []. split_and!; try done; by left.
  - destruct He as [Hc He]. destruct (Z.leb_spec (ev_Sequence (hc_event c)) ra) as [Hle|Hgt].
    + destruct (IH He) as (old & new & -> & Hold & Hnew & Hn & Ho). exists (c :: old), new.
      split_and!; try done; [by constructor|]. mux_rw.
      destruct Ho as [->|Ho]; [right; cbn in *; mux_rw; lia|by right].
    + exists [], (c :: l). split_and!; try done; [right; mux_rw; lia|by left].
Qed.

Lemma replay_loop_old ra old new r :
  Forall (fun c => ev_Sequence (hc_event c) <= ra) old -> replay_loop ra (old ++ new) r [] = replay_loop ra new r [].
Proof.
  induction 1 as [|c old Hc Hold IH]; [done|]. cbn. by rewrite (proj2 (Z.leb_le _ _) Hc).
Qed.

Lemma ends_at_seqs last l : ends_at last l ->
  (fun c => ev_Sequence (hc_event c)) <$> l = seqZ (last + 1 - len l) (len l).
Proof.
  induction l as [|c l IH]; cbn [ends_at]; [done|]. intros [Hc He]. cbn [fmap list_fmap]. mux_rw.
  pose proof (len_nonneg l). rewrite seqZ_cons by lia. rewrite Hc, IH by done. f_equal; [lia|f_equal; lia].
Qed.

Record replay_ok (o : AttachOptions) (s : Session) (r : AttachResult) (replay : list OutputEvent) : Prop := {
  rp_suffix : exists old, hc_event <$> s_history s = old ++ replay /\
    Forall (fun e => ev_Sequence e <= ResumeAfter o) old;
  rp_seqs : ev_Sequence <$> replay = seqZ (s_lastSequence s + 1 - len replay) (len replay);
  rp_after : ResumeAfter o + len replay <= s_lastSequence s;
  rp_bounds : match replay with
    | [] => ReplayFirst r = 0 /\ ReplayLast r = 0
    | _ => ReplayFirst r = s_lastSequence s + 1 - len replay /\ ReplayLast r = s_lastSequence s
    end;
  rp_next : NextLive r = s_lastSequence s + 1;
  rp_truncated : Truncated r = false <-> s_history s = [] \/ len replay = s_lastSequence s - ResumeAfter o;
}.

Lemma attach_replay_bounds next o s :
  chunks_ok next s -> 0 <= ResumeAfter o <= s_lastSequence s -> s_lastSequence s < 2 ^ 64 - 1 ->
  let '(r, replay) := attach_replay o s in
  match Replay o with
  | ReplayNone => r = mkAttachResult 0 0 (s_lastSequence s + 1) false /\ replay = []
  | ReplayHistory => replay_ok o s r replay
  end.
Proof.
  intros Hok [Hra0 Hra] Hmax. unfold attach_replay. rewrite (uwrap_small 64) by (unfold fits_u; lia).
  destruct (Replay o); [done|]. cbn [NextLive].
  destruct (replay_split (ResumeAfter o) _ _ (ck_seq _ _ Hok)) as (old & new & El & Hold & Hnew & Hn & Ho).
  set (tr := match s_history s with [] => false | _ => _ end).
  assert (tr = match s_history s with [] => false
    | _ => s_lastSequence s - len (s_history s) - ResumeAfter o >? 0 end) as Htr.
  { pose proof (ck_seq _ _ Hok) as Hs. unfold tr. destruct (s_history s) as [|c l]; [done|].
    rewrite (uwrap_small 64) by (unfold fits_u; lia). destruct Hs as [-> _]. mux_rw.
    rewrite Z.gtb_ltb. apply eq_true_iff_eq. rewrite !Z.ltb_lt. lia. }
  rewrite El, (replay_loop_old _ _ _ _ Hold).
  assert (len (s_history s) = len old + len new) as Hlen by (by rewrite El, len_app).
  assert (tr = false <-> s_history s = [] \/ s_lastSequence s - ResumeAfter o <= len old + len new) as Htr'.
  { rewrite Htr. destruct (s_history s); [intuition|]. rewrite Z.gtb_ltb, Z.ltb_ge, Hlen. split; [intros; right; lia|].
    intros [?|?]; [done|lia]. }
  clearbody tr. pose proof (ends_at_seqs _ _ Hnew) as Hseqs. pose proof (len_nonneg old).
  destruct new as [|c new]; cbn [replay_loop].
  - split; cbn; rewrite ?len_nil; try done; try lia.
    + exists (hc_event <$> old). rewrite El, !app_nil_r. split; [done|]. by apply Forall_fmap.
    + rewrite Htr', El, app_nil_r. mux_rw. split; (intros [?|?]; [by left|]); [|right; lia].
      destruct Ho as [->|Ho]; [by left|right; lia].
  - destruct Hn as [|Hn]; [done|]. destruct Hnew as [Hc Hnew]. mux_rw. pose proof (len_nonneg new).
    rewrite (proj2 (Z.leb_gt _ _)) by lia. cbn [ReplayFirst Z.eqb NextLive Truncated].
    rewrite replay_loop_app, (replay_loop_all _ (s_lastSequence s)) by (cbn; done || lia). cbn.
    assert (len (hc_event <$> new) = len new) as Hlf by (unfold len; by rewrite length_fmap).
    split; cbn; mux_rw; rewrite ?Hlf; try done; try lia.
    + exists (hc_event <$> old). rewrite El, fmap_app. split; [done|]. by apply Forall_fmap.
    + rewrite <- Hseqs. cbn. by rewrite <- list_fmap_compose.
    + split; [lia|]. destruct new; [|done]. by rewrite Hc, len_nil, Z.sub_0_r.
    + rewrite Htr', El. split; (intros [He|?]; [by apply app_nil in He as [_ ?]|]); [right|right; lia].
      destruct Ho as [->|Ho]; mux_rw; lia.
Qed.

(** C20. A resumed attachment continues the output stream. For a session whose
    history satisfies the history invariant and a resume position that is not in
    the future, the replay of [Attach] is the part of the history after the
    position; its sequence numbers are consecutive and end just before
    [NextLive], and the reported first and last numbers are theirs. [Truncated] is
    false exactly when no event after the resume position is missing, or the
    history is empty, in which case it never reports a gap; it compares sequence
    numbers, so an event of which only the last bytes were kept is not missing.
    Without replay mode nothing is replayed. *)
Theorem attach_replay_spec next o s :
  chunks_ok next s -> 0 <= ResumeAfter o <= s_lastSequence s -> s_lastSequence s < 2 ^ 64 - 1 ->
  let '(r, replay) := attach_replay o s in
  match Replay o with
  | ReplayNone => r = mkAttachResult 0 0 (s_lastSequence s + 1) false /\ replay = []
  | ReplayHistory => replay_ok o s r replay
  end.
Proof. apply attach_replay_bounds. Qed.

(** C38. A gap is not reported when the whole history is gone: [Attach] then
    replays nothing and leaves [Truncated] false, although the events between
    the resume position and [NextLive] are never delivered. *)
Theorem attach_gap_unreported o s :
  s_history s = [] -> Replay o = ReplayHistory -> 0 <= ResumeAfter o < s_lastSequence s ->
  s_lastSequence s < 2 ^ 64 - 1 ->
  attach_replay o s = (mkAttachResult 0 0 (s_lastSequence s + 1) false, []) /\
  ResumeAfter o + 1 < NextLive (attach_replay o s).1.
Proof.
  intros Hh Hr Hra Hmax. unfold attach_replay. rewrite Hr, Hh, (uwrap_small 64) by (unfold fits_u; lia).
  cbn. split; [done|lia].
Qed.

(** *** Witnesses *)

Lemma attach_replay_spec_witness :
  exists s, demo_hist.1 !! 2 = Some s /\
    let '(r, replay) := attach_replay (mkAttachOptions ReplayHistory 0 false) s in
    replay_ok (mkAttachOptions ReplayHistory 0 false) s r replay /\ replay = [mkOutputEvent 1 demo_data].
Proof.
  destruct (demo_hist.1 !! 2) as [s|] eqn:E; [|vm_compute in E; discriminate].
  exists s. split; [reflexivity|].
  pose proof (attach_replay_spec (nextHistory demo_hist.2) (mkAttachOptions ReplayHistory 0 false) s
    (hi_chunks _ _ _ demo_hist_inv _ _ E)) as Hp.
  assert (s_lastSequence s = 1) as Hs by (vm_compute in E; injection E as <-; reflexivity).
  assert ((attach_replay (mkAttachOptions ReplayHistory 0 false) s).2 = [mkOutputEvent 1 demo_data]) as Hr
    by (vm_compute in E; injection E as <-; vm_compute; reflexivity).
  destruct (attach_replay _ _) as [r replay]. split; [|exact Hr].
  apply Hp; rewrite Hs; cbn; [lia|reflexivity].
Defined.

(** The history of session 1 was evicted by the output of session 2. *)
Definition demo_gap : Sessions :=
  match demo_hist.1 !! 2 with
  | Some s => (publish_history demo_hist_cfg 2 s [Byte.x64] demo_hist.1 demo_hist.2).1
  | None => ∅
  end.

Lemma attach_gap_unreported_witness :
  exists s, demo_gap !! 1 = Some s /\
    attach_replay (mkAttachOptions ReplayHistory 0 false) s = (mkAttachResult 0 0 2 false, []).
Proof.
  destruct (demo_gap !! 1) as [s|] eqn:E; [|vm_compute in E; discriminate].
  exists s. split; [reflexivity|].
  assert (s_lastSequence s = 1) as Hs by (vm_compute in E; injection E as <-; reflexivity).
  assert (s_history s = []) as Hh by (vm_compute in E; injection E as <-; reflexivity).
  pose proof (attach_gap_unreported (mkAttachOptions ReplayHistory 0 false) s Hh eq_refl) as Hp.
  rewrite Hs in Hp. apply Hp; [cbn; lia|reflexivity].
Defined.
