(* ===== verification/ManagerRun.v ===== *)
(** pty/manager.go: the critical sections of the Manager interleaved. The calls
    of its users, the start of processes, the [run] goroutine of every session, the
    attachments' closes and the workers that [Manager.workers] counts are a step
    relation, with the waits for those workers as guards; the registry invariant, the
    limits, retention and the accounting of processes hold in every reachable
    state. *)

From S2P Require Import Prelude Errors BigEndian PtyTypes Attachment Subscription History Manager.

(** ** Steps *)

(** Where the [run] goroutine of a session is: before its first critical section,
    waiting for the attachments, finishing the evictions it began. *)
Inductive pc := PRun | PDrain | PEvict.
#[export] Instance pc_eq_dec : EqDecision pc.
Proof. solve_decision. Defined.

(** The worker goroutine of an attachment: its [finish] not called, [finish] called (by
    itself or by another), returned with [Done] closed. *)
Inductive att_worker := AWorking | AFinished (reason : AttachmentCloseReason) | AReturned (reason : AttachmentCloseReason).
#[export] Instance att_worker_eq_dec : EqDecision att_worker.
Proof. solve_decision. Defined.

(** What [m.workers] counts, the attachments' workers and those of the subscriptions
    that have not returned ([true] when finished), and the attachments each [run]
    found when its process had ended. *)
Record Workers := mkWorkers {
  wk_attachments : gmap Z att_worker;
  wk_observers : gmap Z bool;
  wk_snapshots : gmap Z (list Z);
}.

(** [opening]: the admitted [Open] calls, with whether their process has started;
    [reaping]: the processes killed by [Open] and not yet counted as exited;
    [removals]: those begun, by the session whose [run] finishes them or by
    [Remove]; [handles]: the open attachments and their sessions; [waiting]: the
    sessions [Close] waits for. *)
Record MState := mkMState {
  mgr : Manager;
  opening : gmap Z (Size * bool);
  reaping : Z;
  pcs : gmap Z pc;
  removals : list (option Z * retainedRemoval);
  handles : gmap Z Z;
  waiting : option (list Z);
  closed : bool;
  workers : Workers;
}.

Definition initial_mstate : MState := mkMState newManager ∅ 0 ∅ [] ∅ None false (mkWorkers ∅ ∅ ∅).

Definition set_mgr (m : Manager) (st : MState) : MState :=
  mkMState m (opening st) (reaping st) (pcs st) (removals st) (handles st) (waiting st) (closed st) (workers st).
Definition set_opening (o : gmap Z (Size * bool)) (r : Z) (st : MState) : MState :=
  mkMState (mgr st) o r (pcs st) (removals st) (handles st) (waiting st) (closed st) (workers st).
Definition set_pcs (p : gmap Z pc) (rs : list (option Z * retainedRemoval)) (st : MState) : MState :=
  mkMState (mgr st) (opening st) (reaping st) p rs (handles st) (waiting st) (closed st) (workers st).
Definition set_handles (h : gmap Z Z) (st : MState) : MState :=
  mkMState (mgr st) (opening st) (reaping st) (pcs st) (removals st) h (waiting st) (closed st) (workers st).
Definition set_waiting (w : option (list Z)) (c : bool) (st : MState) : MState :=
  mkMState (mgr st) (opening st) (reaping st) (pcs st) (removals st) (handles st) w c (workers st).
Definition set_workers (w : Workers) (st : MState) : MState :=
  mkMState (mgr st) (opening st) (reaping st) (pcs st) (removals st) (handles st) (waiting st) (closed st) w.

Definition set_attachment (aid : Z) (w : att_worker) (ws : Workers) : Workers :=
  mkWorkers (<[aid := w]> (wk_attachments ws)) (wk_observers ws) (wk_snapshots ws).
Definition set_observers (o : gmap Z bool) (ws : Workers) : Workers :=
  mkWorkers (wk_attachments ws) o (wk_snapshots ws).
Definition set_snapshot (id : Z) (aids : list Z) (ws : Workers) : Workers :=
  mkWorkers (wk_attachments ws) (wk_observers ws) (<[id := aids]> (wk_snapshots ws)).

Definition returned (w : att_worker) : Prop := match w with AReturned _ => True | _ => False end.
#[export] Instance returned_dec w : Decision (returned w).
Proof. destruct w; cbn; apply _. Defined.

(** [Attachment.Done] is closed. *)
Definition att_done (ws : Workers) (aid : Z) : Prop :=
  match wk_attachments ws !! aid with Some w => returned w | None => True end.
#[export] Instance att_done_dec ws aid : Decision (att_done ws aid).
Proof. unfold att_done. destruct (_ !! _); apply _. Defined.
(** [m.workers.Wait] returns. *)
Definition workers_over (ws : Workers) : Prop :=
  map_Forall (fun _ => returned) (wk_attachments ws) /\ wk_observers ws = ∅.
(** The attachments that the [run] of a session found at its exit. *)
Definition snapshot (ws : Workers) (id : Z) : list Z := default [] (wk_snapshots ws !! id).

(** The attachments of a session. *)
Definition attached (id : Z) (m : Manager) : list Z :=
  match sessions m !! id with Some s => (map_to_list (s_attachments s)).*1 | None => [] end.

(** The calls of [finish] the Manager makes itself: by the worker that finds the
    Manager's context cancelled, by [Close]; by [run] at the drain timeout; by
    [finishRetainedRemoval]. *)
Inductive own_finish (st : MState) : Z -> AttachmentCloseReason -> Prop :=
| of_closing aid : is_Some (waiting st) -> own_finish st aid AttachmentManagerClosed
| of_drain id aid :
    pcs st !! id = Some PDrain -> aid ∈ snapshot (workers st) id ->
    own_finish st aid AttachmentDrainTimeout_reason
| of_removal o r aid :
    (o, r) ∈ removals st -> aid ∈ rr_attachments r -> own_finish st aid (rr_reason r).

(** Those it owes to its users, to the sinks and to the queues. *)
Definition outside_reasons : list AttachmentCloseReason :=
  [AttachmentClosedExplicitly; AttachmentContextCanceled; AttachmentQueueOverflow; AttachmentSinkFailure; AttachmentSessionExited].

(** A removal taken out of the pending ones: its owner finishes them in order. *)
Definition takes (rs : list (option Z * retainedRemoval)) (r : retainedRemoval) (rest : list (option Z * retainedRemoval)) : Prop :=
  exists l1 o l2, rs = l1 ++ (o, r) :: l2 /\ rest = l1 ++ l2 /\ (o <> None -> o ∉ l1.*1).

Inductive m_step (cfg : ManagerConfig) : MState -> MState -> Prop :=
| ms_open_refused ctx spec e m st :
    open_admit cfg ctx spec (mgr st) = (inr e, m) -> m_step cfg st (set_mgr m st)
| ms_open ctx spec id m st :
    open_admit cfg ctx spec (mgr st) = (inl id, m) ->
    m_step cfg st (set_opening (<[id := (InitialSize spec, false)]> (opening st)) (reaping st) (set_mgr m st))
| ms_start_failed id sz st :
    opening st !! id = Some (sz, false) ->
    m_step cfg st (set_opening (delete id (opening st)) (reaping st) (set_mgr (open_failed (mgr st)) st))
| ms_started id sz st :
    opening st !! id = Some (sz, false) ->
    m_step cfg st (set_opening (<[id := (sz, true)]> (opening st)) (reaping st) (set_mgr (open_started (mgr st)) st))
| ms_open_cancelled id sz st :
    opening st !! id = Some (sz, true) ->
    m_step cfg st (set_opening (delete id (opening st)) (reaping st + 1) (set_mgr (open_failed (mgr st)) st))
| ms_reaped st :
    0 < reaping st ->
    m_step cfg st (set_opening (opening st) (reaping st - 1) (set_mgr (recordProcessExited (mgr st)) st))
| ms_commit id sz now failed m st :
    opening st !! id = Some (sz, true) -> open_commit cfg id sz now (mgr st) = (true, failed, m) ->
    m_step cfg st (set_pcs (<[id := PRun]> (pcs st)) (removals st)
      (set_opening (delete id (opening st)) (reaping st) (set_mgr m st)))
| ms_commit_refused id sz now failed m st :
    opening st !! id = Some (sz, true) -> open_commit cfg id sz now (mgr st) = (false, failed, m) ->
    m_step cfg st (set_opening (delete id (opening st)) (reaping st + 1) (set_mgr m st))
| ms_output id s data st :
    pcs st !! id = Some PRun -> sessions (mgr st) !! id = Some s ->
    s_lastSequence s < 2 ^ 64 - 1 -> nextHistory (hist (mgr st)) < 2 ^ 64 - 1 ->
    m_step cfg st (set_mgr (publish cfg id data (mgr st)).2 st)
| ms_attach ended o id aid r failed m st :
    attach cfg ended o id (mgr st) = (inl (aid, r, failed), m) ->
    m_step cfg st (set_workers (set_attachment aid AWorking (workers st)) (set_handles (<[aid := id]> (handles st)) (set_mgr m st)))
| ms_attach_refused ended o id e m st :
    attach cfg ended o id (mgr st) = (inr e, m) -> m_step cfg st (set_mgr m st)
| ms_detach gone id aid reason st :
    handles st !! aid = Some id ->
    wk_attachments (workers st) !! aid = Some (AFinished reason) \/ wk_attachments (workers st) !! aid = Some (AReturned reason) ->
    m_step cfg st (set_handles (delete aid (handles st))
      (set_mgr (recordAttachmentClose gone id aid reason (mgr st)) st))
| ms_exit id status st :
    pcs st !! id = Some PRun ->
    m_step cfg st (set_workers (set_snapshot id (attached id (mgr st)) (workers st))
      (set_pcs (<[id := PDrain]> (pcs st)) (removals st) (set_mgr (run_exited id status (mgr st)) st)))
| ms_finalize id fuel l m st :
    pcs st !! id = Some PDrain -> run_finalize fuel cfg id (mgr st) = Some (l, m) ->
    (* <-attachmentsDone *)
    Forall (att_done (workers st)) (snapshot (workers st) id) ->
    m_step cfg st (set_pcs (<[id := PEvict]> (pcs st)) (removals st ++ (pair (Some id) <$> l)) (set_mgr m st))
| ms_finish_removal r rest st :
    takes (removals st) r rest ->
    (* <-attachment.Done() of each *)
    Forall (att_done (workers st)) (rr_attachments r) ->
    m_step cfg st (set_pcs (pcs st) rest (set_mgr (finish_removal r (mgr st)) st))
| ms_run_return id st :
    pcs st !! id = Some PEvict -> Some id ∉ (removals st).*1 ->
    m_step cfg st (set_pcs (delete id (pcs st)) (removals st) st)
| ms_remove id r m st :
    remove_begin id (mgr st) = (inl r, m) ->
    m_step cfg st (set_pcs (pcs st) (removals st ++ [(None, r)]) (set_mgr m st))
| ms_subscribe id m st :
    subscribe cfg (mgr st) = (inl id, m) ->
    m_step cfg st (set_workers (set_observers (<[id := false]> (wk_observers (workers st))) (workers st)) (set_mgr m st))
| ms_subscribe_refused e m st :
    subscribe cfg (mgr st) = (inr e, m) -> m_step cfg st (set_mgr m st)
| ms_unsubscribe id st : m_step cfg st (set_mgr (unsubscribe id (mgr st)) st)
| ms_observer_closed reason st : m_step cfg st (set_mgr (recordObserverClose reason (mgr st)) st)
| ms_resized id sz st : m_step cfg st (set_mgr (resized id sz (mgr st)) st)
| ms_kill id st : m_step cfg st (set_mgr (kill_section id (mgr st)).2 st)
| ms_close_begin st :
    waiting st = None ->
    m_step cfg st (set_waiting (Some (map_to_list (sessions (mgr st))).*1) false (set_mgr (close_begin (mgr st)).2 st))
| ms_close_end l st :
    waiting st = Some l -> closed st = false -> opening st = ∅ -> reaping st = 0 ->
    (forall id, id ∈ l -> pcs st !! id = None) -> workers_over (workers st) ->
    m_step cfg st (set_waiting (Some l) true (set_mgr (close_end (mgr st)) st))
(* Attachment.finish up to its cancellation of the context; its recordAttachmentClose is ms_detach *)
| ms_finish aid reason st :
    wk_attachments (workers st) !! aid = Some AWorking -> own_finish st aid reason \/ reason ∈ outside_reasons ->
    m_step cfg st (set_workers (set_attachment aid (AFinished reason) (workers st)) st)
(* Attachment.run returns: closeDone, workers.Done *)
| ms_worker_return aid reason st :
    wk_attachments (workers st) !! aid = Some (AFinished reason) ->
    m_step cfg st (set_workers (set_attachment aid (AReturned reason) (workers st)) st)
(* Subscription.finish up to its cancellation of the context; its recordObserverClose is ms_observer_closed *)
| ms_observer_finish id st :
    wk_observers (workers st) !! id = Some false ->
    m_step cfg st (set_workers (set_observers (<[id := true]> (wk_observers (workers st))) (workers st)) st)
(* Subscription.run returns: its context, or the Manager's, is cancelled *)
| ms_observer_return id finished st :
    wk_observers (workers st) !! id = Some finished -> finished = true \/ is_Some (waiting st) ->
    m_step cfg st (set_workers (set_observers (delete id (wk_observers (workers st))) (workers st)) st).

Inductive m_reachable (cfg : ManagerConfig) : MState -> Prop :=
| mr_init : m_reachable cfg initial_mstate
| mr_step st st' : m_reachable cfg st -> m_step cfg st st' -> m_reachable cfg st'.

(** ** Invariant *)

Definition active_count (s : Session) : Z := Z.b2z (active s).
Lemma active_count_nonneg s : 0 <= active_count s.
Proof. unfold active_count, Z.b2z. case_match; lia. Qed.
Lemma active_count_true s : active s = true -> active_count s = 1.
Proof. unfold active_count. by intros ->. Qed.
Lemma active_count_exited s : s_state s = SessionExited -> active_count s = 0.
Proof. unfold active_count, active. by intros ->. Qed.

Definition run_count (p : pc) : Z := Z.b2z (bool_decide (p = PRun)).
Definition started_count (x : Size * bool) : Z := Z.b2z x.2.

(** The processes that run or are still to be reaped. *)
Definition live_processes (st : MState) : Z :=
  map_sumZ started_count (opening st) + reaping st + map_sumZ run_count (pcs st).

(** A registered session agrees with its goroutine. *)
Record sess_ok (cfg : ManagerConfig) (p : option pc) (id : Z) (s : Session) : Prop := {
  so_id : s_id s = id;
  so_attachments : Z.of_nat (size (s_attachments s)) <= MaxAttachmentsPerSession cfg;
  so_sequence : 0 <= s_lastSequence s < 2 ^ 64;
  so_running : p = Some PRun -> active s = true /\ s_exit s = None /\ s_retained s = false /\ s_removing s = false;
  so_exited : p <> Some PRun -> s_state s = SessionExited /\ is_Some (s_exit s);
  so_draining : p = Some PDrain -> s_retained s = false /\ s_removing s = false;
  so_settled : p <> Some PRun -> p <> Some PDrain -> s_retained s = negb (s_removing s);
}.

Definition pending (rs : list (option Z * retainedRemoval)) (id : Z) : Prop := exists o r, (o, r) ∈ rs /\ rr_session r = id.

Record base_inv (cfg : ManagerConfig) (st : MState) : Prop := {
  bi_hist : hist_inv cfg (sessions (mgr st)) (hist (mgr st));
  bi_sess id s : sessions (mgr st) !! id = Some s -> sess_ok cfg (pcs st !! id) id s;
  bi_run id p : pcs st !! id = Some p -> p <> PEvict -> is_Some (sessions (mgr st) !! id);
  bi_retained id : id ∈ retainedExited (mgr st) <->
    exists s, sessions (mgr st) !! id = Some s /\ s_retained s = true;
  bi_nodup : NoDup (retainedExited (mgr st));
  bi_removing id s : sessions (mgr st) !! id = Some s -> s_removing s = true -> pending (removals st) id;
  bi_active : activeSessions (mgr st) = map_sumZ active_count (sessions (mgr st));
  bi_starting : starting (mgr st) = Z.of_nat (size (opening st));
  bi_max : activeSessions (mgr st) + starting (mgr st) <= MaxSessions cfg;
  bi_observers : Z.of_nat (size (observers (mgr st))) <= MaxObservers cfg;
  bi_next : 0 <= nextSession (mgr st) < 2 ^ 64;
  bi_ids id : is_Some (sessions (mgr st) !! id) \/ is_Some (opening st !! id) \/ is_Some (pcs st !! id) ->
    0 < id /\ (sessionIDExhausted (mgr st) = true \/ id <= nextSession (mgr st));
  bi_opening id : is_Some (opening st !! id) -> sessions (mgr st) !! id = None /\ pcs st !! id = None;
  bi_reaping : 0 <= reaping st;
  bi_processes : processesStarted (mgr st) = u64 (processesExited (mgr st) + live_processes st);
  bi_closing : closing (mgr st) = bool_decide (is_Some (waiting st));
  bi_waiting l id : waiting st = Some l -> is_Some (sessions (mgr st) !! id) -> id ∈ l;
  bi_closed : closed st = true -> is_Some (waiting st) /\ opening st = ∅ /\ reaping st = 0 /\ sessions (mgr st) = ∅;
}.

Definition registry_inv (cfg : ManagerConfig) (st : MState) : Prop :=
  base_inv cfg st /\ len (retainedExited (mgr st)) <= MaxRetainedSessions cfg.

(** *** Maps of sessions *)

Lemma map_sumZ_fmap_eq {A} (f : A -> Z) (m m' : gmap Z A) :
  (forall i, f <$> m !! i = f <$> m' !! i) -> map_sumZ f m = map_sumZ f m'.
Proof.
  intros H. assert (f <$> m = f <$> m') as E by (apply map_eq; intros i; by rewrite !lookup_fmap).
  assert (forall k : gmap Z A, map_sumZ f k = map_sumZ id (f <$> k)) as Hid.
  { intros k. unfold map_sumZ. rewrite map_to_list_fmap. unfold sumZ. generalize (map_to_list k).
    intros l. induction l as [|[i x] l IH]; cbn; [done|]. by rewrite IH. }
  by rewrite !Hid, E.
Qed.

Lemma map_size_delete_le {A} (m : gmap Z A) i : (size (delete i m) <= size m)%nat.
Proof. rewrite map_size_delete. destruct (m !! i); unfold Datatypes.id; lia. Qed.

(** What the history invariant sees of a session. *)
Definition hist_view (s : Session) : list historyChunk * Z * Z := (s_history s, s_historyBytes s, s_lastSequence s).

Lemma hist_inv_same cfg ss ss' h :
  (forall i, hist_view <$> ss' !! i = hist_view <$> ss !! i) -> hist_inv cfg ss h -> hist_inv cfg ss' h.
Proof.
  intros Hv I.
  assert (forall i s', ss' !! i = Some s' -> exists s, ss !! i = Some s /\ s_history s = s_history s' /\
    s_historyBytes s = s_historyBytes s' /\ s_lastSequence s = s_lastSequence s') as Hb.
  { intros i s' Hi. specialize (Hv i). rewrite Hi in Hv. cbn in Hv. destruct (ss !! i) as [s|]; [|done].
    cbn in Hv. exists s. unfold hist_view in Hv. split; [done|]. split_and!; congruence. }
  split.
  - intros i s' (s & Hi & E1 & E2 & E3)%Hb. destruct (hi_chunks _ _ _ I _ _ Hi). split; congruence.
  - intros i s' (s & Hi & E1 & E2 & E3)%Hb. rewrite <- E2. by eapply hi_session.
  - rewrite (hi_total _ _ _ I). apply map_sumZ_fmap_eq. intros i. specialize (Hv i).
    destruct (ss' !! i), (ss !! i); cbn in *; try done. unfold hist_view in Hv. congruence.
  - apply I.
  - intros i j a b c d (a0 & Hi & Ea & _)%Hb (b0 & Hj & Eb & _)%Hb Hc Hd.
    eapply (hi_orders _ _ _ I i j a0 b0); by rewrite ?Ea, ?Eb.
  - apply I.
  - intros Hoff i s' (s & Hi & E1 & _)%Hb. rewrite <- E1. by eapply hi_off.
Qed.

Lemma hist_inv_insert_new cfg ss h id s :
  ss !! id = None -> s_history s = [] -> s_historyBytes s = 0 -> manager_config_ok cfg ->
  hist_inv cfg ss h -> hist_inv cfg (<[id := s]> ss) h.
Proof.
  intros Hn Hh Hb Hcfg I. pose proof (hist_inv_config _ _ _ Hcfg I) as (_ & H0 & _). split.
  - intros j t Hj. rewrite lookup_insert in Hj. case_decide; simplify_eq; [|by eapply hi_chunks].
    split; rewrite Hh; try done; constructor.
  - intros j t Hj. rewrite lookup_insert in Hj. case_decide; simplify_eq; [rewrite Hb; lia|by eapply hi_session].
  - rewrite map_sumZ_insert_new, (hi_total _ _ _ I) by done. lia.
  - apply I.
  - intros i j a b c d Hi Hj Hc Hd. rewrite !lookup_insert in *.
    repeat case_decide; simplify_eq; try done.
    all: try (rewrite Hh in Hc; by apply elem_of_nil in Hc).
    all: try (rewrite Hh in Hd; by apply elem_of_nil in Hd).
    by eapply (hi_orders _ _ _ I i j a b).
  - apply I.
  - intros Hoff j t Hj. rewrite lookup_insert in Hj. case_decide; simplify_eq; [done|by eapply hi_off].
Qed.

(** The operations on the observers keep the rest. *)
Lemma emit_frame e m : exists f o, emit e m = (f, with_observers o m) /\ (size o <= size (observers m))%nat.
Proof.
  unfold emit. eexists _, _. split; [reflexivity|].
  rewrite <- !(size_dom (D := gset Z)). apply subseteq_size.
  intros i Hi. apply elem_of_dom in Hi as [x Hx]. rewrite lookup_omap in Hx.
  apply elem_of_dom. destruct (observers m !! i); [by eexists|done].
Qed.

Lemma emit_eq e m f m' :
  emit e m = (f, m') -> exists o, m' = with_observers o m /\ (size o <= size (observers m))%nat.
Proof. destruct (emit_frame e m) as (f' & o & -> & H). intros [= <- <-]. eauto. Qed.

Lemma emit_snd e m : exists o, (emit e m).2 = with_observers o m /\ (size o <= size (observers m))%nat.
Proof. destruct (emit_frame e m) as (f' & o & -> & H). eauto. Qed.

(** The part of the Manager the invariant reads besides its observers. *)
Record same_registry (m m' : Manager) : Prop := {
  sr_sessions : sessions m' = sessions m;
  sr_hist : hist m' = hist m;
  sr_retained : retainedExited m' = retainedExited m;
  sr_next : nextSession m' = nextSession m;
  sr_exhausted : sessionIDExhausted m' = sessionIDExhausted m;
  sr_closing : closing m' = closing m;
  sr_starting : starting m' = starting m;
  sr_active : activeSessions m' = activeSessions m;
  sr_started : processesStarted m' = processesStarted m;
  sr_exited : processesExited m' = processesExited m;
}.

Lemma base_inv_frame cfg st m :
  same_registry (mgr st) m -> Z.of_nat (size (observers m)) <= MaxObservers cfg ->
  base_inv cfg st -> base_inv cfg (set_mgr m st).
Proof.
  intros R Hobs I. destruct I, R. unfold live_processes in *. split; cbn; rewrite ?sr_sessions0, ?sr_hist0, ?sr_retained0, ?sr_next0,
    ?sr_exhausted0, ?sr_closing0, ?sr_starting0, ?sr_active0, ?sr_started0, ?sr_exited0; done.
Qed.

Lemma set_mgr_idem m m' st : set_mgr m (set_mgr m' st) = set_mgr m st.
Proof. reflexivity. Qed.

Lemma base_inv_observers cfg st o :
  (size o <= size (observers (mgr st)))%nat -> base_inv cfg st -> base_inv cfg (set_mgr (with_observers o (mgr st)) st).
Proof.
  intros Ho I. apply base_inv_frame; [by split| |done]. pose proof (bi_observers _ _ I). cbn. lia.
Qed.

Lemma base_inv_emitted cfg st m o :
  (size o <= size (observers m))%nat -> base_inv cfg (set_mgr m st) -> base_inv cfg (set_mgr (with_observers o m) st).
Proof. apply (base_inv_observers cfg (set_mgr m st) o). Qed.

(** The same session, as far as its life cycle goes. *)
Record same_life (cfg : ManagerConfig) (s s' : Session) : Prop := {
  sl_id : s_id s' = s_id s;
  sl_active : active s' = active s;
  sl_state : active s = false -> s_state s' = s_state s;
  sl_exit : s_exit s' = s_exit s;
  sl_retained : s_retained s' = s_retained s;
  sl_removing : s_removing s' = s_removing s;
  sl_sequence : 0 <= s_lastSequence s < 2 ^ 64 -> 0 <= s_lastSequence s' < 2 ^ 64;
  sl_attachments : Z.of_nat (size (s_attachments s)) <= MaxAttachmentsPerSession cfg ->
    Z.of_nat (size (s_attachments s')) <= MaxAttachmentsPerSession cfg;
}.

Lemma same_life_refl cfg s : same_life cfg s s.
Proof. by split. Qed.

Lemma sess_ok_same_life cfg p id s s' : same_life cfg s s' -> sess_ok cfg p id s -> sess_ok cfg p id s'.
Proof.
  intros L O. destruct L, O. split.
  - congruence.
  - auto.
  - auto.
  - rewrite sl_active0, sl_exit0, sl_retained0, sl_removing0. done.
  - intros Hp. rewrite sl_exit0. destruct (so_exited0 Hp) as [Hs He]. split; [|done].
    rewrite sl_state0; [done|]. unfold active. by rewrite Hs.
  - by rewrite sl_retained0, sl_removing0.
  - by rewrite sl_retained0, sl_removing0.
Qed.

Lemma option_Forall2_lookup_l {A} (R : A -> A -> Prop) (ss ss' : gmap Z A) :
  (forall j, option_Forall2 R (ss !! j) (ss' !! j)) ->
  forall j s', ss' !! j = Some s' -> exists s, ss !! j = Some s /\ R s s'.
Proof. intros H j s' Hj. specialize (H j). rewrite Hj in H. inversion H; simplify_eq. eauto. Qed.

(** A change of sessions and history that keeps every life cycle. *)
Lemma base_inv_sessions cfg st ss h :
  (forall j, option_Forall2 (same_life cfg) (sessions (mgr st) !! j) (ss !! j)) ->
  hist_inv cfg ss h -> base_inv cfg st ->
  base_inv cfg (set_mgr (with_hist h (with_sessions ss (mgr st))) st).
Proof.
  intros F Hh I. pose proof (option_Forall2_lookup_l _ _ _ F) as Hb.
  assert (forall j, is_Some (ss !! j) <-> is_Some (sessions (mgr st) !! j)) as Hdom.
  { intros j. specialize (F j). inversion F as [x y Hl Hx Hy|Hx Hy]; [split; by eexists|done]. }
  destruct I. split; cbn; try done.
  - intros j s' (s & Hj & L)%Hb. eapply sess_ok_same_life; eauto.
  - intros j p Hp Hn. apply Hdom. eauto.
  - intros j. rewrite bi_retained0. specialize (F j).
    inversion F as [x y L Hx Hy|Hx Hy]; split; intros (s & Hs & Hr); simplify_eq; eexists; split; try done.
    + by rewrite (sl_retained _ _ _ L).
    + by rewrite <- (sl_retained _ _ _ L).
  - intros j s' (s & Hj & L)%Hb. rewrite (sl_removing _ _ _ L). eauto.
  - rewrite bi_active0. apply map_sumZ_fmap_eq. intros j. specialize (F j).
    inversion F as [x y L Hx Hy|Hx Hy]; [|done]. cbn. unfold active_count. by rewrite (sl_active _ _ _ L).
  - intros j. rewrite Hdom. apply bi_ids0.
  - intros j Hj. destruct (bi_opening0 j Hj) as [Hn Hp]. split; [|done].
    apply eq_None_not_Some. rewrite Hdom. by apply eq_None_not_Some.
  - intros l j Hl. rewrite Hdom. eauto.
  - intros Hc. destruct (bi_closed0 Hc) as (? & ? & ? & Hnil). split_and!; try done.
    apply map_eq. intros j. rewrite lookup_empty. apply eq_None_not_Some. rewrite Hdom, Hnil, lookup_empty. by intros [].
Qed.

Lemma base_inv_session cfg st id s s' :
  sessions (mgr st) !! id = Some s -> same_life cfg s s' -> hist_view s' = hist_view s -> base_inv cfg st ->
  base_inv cfg (set_mgr (with_sessions (<[id := s']> (sessions (mgr st))) (mgr st)) st).
Proof.
  intros Hs L Hv I.
  change (with_sessions ?ss (mgr st)) with (with_hist (hist (mgr st)) (with_sessions ss (mgr st))).
  apply base_inv_sessions; [| |done].
  - intros j. rewrite lookup_insert. case_decide; [subst; rewrite Hs; by constructor|].
    destruct (sessions (mgr st) !! j); constructor. apply same_life_refl.
  - eapply hist_inv_same; [|apply I]. intros j. rewrite lookup_insert. case_decide; [|done].
    subst. rewrite Hs. cbn. by rewrite Hv.
Qed.

(** ** Preservation *)

Section Preservation.
Context (cfg : ManagerConfig) (Hcfg : manager_config_ok cfg).

Lemma u64_add_shift a b c : u64 (a + b) = u64 c -> forall d, u64 (u64 (a + d) + (b - d)) = u64 c.
Proof.
  intros E d. rewrite <- E. unfold u64, uwrap. rewrite Zplus_mod_idemp_l. f_equal. lia.
Qed.

Lemma u64_move a b c : b = c + 1 -> u64 (a + b) = u64 (u64 (a + 1) + c).
Proof. intros ->. unfold uwrap. rewrite Zplus_mod_idemp_l. f_equal. lia. Qed.

Lemma u64_both a b : u64 (u64 (a + b) + 1) = u64 (a + (b + 1)).
Proof. unfold uwrap. rewrite Zplus_mod_idemp_l. f_equal. lia. Qed.

Lemma open_admit_ok ctx spec r m st :
  open_admit cfg ctx spec (mgr st) = (r, m) -> base_inv cfg st ->
  match r with
  | inr _ => base_inv cfg (set_mgr m st)
  | inl id =>
      base_inv cfg (set_opening (<[id := (InitialSize spec, false)]> (opening st)) (reaping st) (set_mgr m st)) /\
      sessions (mgr st) !! id = None /\ opening st !! id = None /\ pcs st !! id = None /\ waiting st = None
  end.
Proof.
  intros E I. unfold open_admit in E.
  assert (base_inv cfg (set_mgr (mgr st) st)) as I0 by (by destruct st).
  destruct ctx; [|by injection E as <- <-]. cbn [negb] in E.
  destruct (ProcessSpec_Validate spec); [by injection E as <- <-|].
  destruct (Size_Validate (InitialSize spec)); [by injection E as <- <-|].
  destruct (closing (mgr st)) eqn:Ecl; [by injection E as <- <-|].
  destruct (Z.leb_spec (MaxSessions cfg) (activeSessions (mgr st) + starting (mgr st))); [by injection E as <- <-|].
  destruct (sessionIDExhausted (mgr st)) eqn:Eex; [by injection E as <- <-|].
  pose proof (bi_next _ _ I) as Hnx. cbn [nextSession with_ids] in E.
  assert (closed st = false) as Hop.
  { destruct (closed st) eqn:Ec; [|done]. destruct (bi_closed _ _ I Ec) as [Hw _].
    rewrite (bi_closing _ _ I) in Ecl. by rewrite bool_decide_eq_false in Ecl. }
  destruct (Z.eqb_spec (u64 (nextSession (mgr st) + 1)) 0) as [Ez|Ez]; injection E as <- <-.
  - destruct I. unfold live_processes in *. split; cbn; try done; try lia.
    intros j Hj. split; [by apply bi_ids0|by left].
  - assert (nextSession (mgr st) + 1 < 2 ^ 64) as Hlt.
    { destruct (decide (nextSession (mgr st) = 2 ^ 64 - 1)) as [E|]; [|lia]. by rewrite E in Ez. }
    rewrite (uwrap_small 64) in * by (unfold fits_u; lia). set (id := nextSession (mgr st) + 1) in *.
    assert (forall j, is_Some (sessions (mgr st) !! j) \/ is_Some (opening st !! j) \/ is_Some (pcs st !! j) -> j <> id) as Hne.
    { intros j Hj. destruct (bi_ids _ _ I j Hj) as [_ [Hx|Hx]]; [congruence|lia]. }
    assert (sessions (mgr st) !! id = None /\ opening st !! id = None /\ pcs st !! id = None) as (Hs & Ho & Hp).
    { split_and!; apply eq_None_not_Some; intros Hx; by apply (Hne id); auto. }
    split.
    + destruct I. unfold live_processes in *. split; cbn; try done.
      * rewrite map_size_insert_None by done. lia.
      * lia.
      * lia.
      * intros j Hj. destruct (decide (j = id)) as [->|Hji]; [lia|].
        rewrite lookup_insert_ne in Hj by congruence. destruct (bi_ids0 j Hj) as [? [?|?]]; [congruence|lia].
      * intros j Hj. destruct (decide (j = id)) as [->|Hji]; [done|].
        rewrite lookup_insert_ne in Hj by congruence. auto.
      * unfold live_processes. cbn. rewrite map_sumZ_insert_new by done. cbn. by rewrite bi_processes0.
      * congruence.
    + split_and!; try done. rewrite (bi_closing _ _ I) in Ecl. rewrite bool_decide_eq_false in Ecl.
      by apply eq_None_not_Some.
Qed.

(** An admitted [Open] call ends, or its process starts. *)
Lemma base_inv_opening o r m st :
  base_inv cfg st -> sessions m = sessions (mgr st) -> hist m = hist (mgr st) ->
  retainedExited m = retainedExited (mgr st) -> nextSession m = nextSession (mgr st) ->
  sessionIDExhausted m = sessionIDExhausted (mgr st) -> closing m = closing (mgr st) ->
  activeSessions m = activeSessions (mgr st) -> observers m = observers (mgr st) ->
  starting m = Z.of_nat (size o) -> (forall id, is_Some (o !! id) -> is_Some (opening st !! id)) ->
  (size o <= size (opening st))%nat -> (closed st = true -> r = 0) -> 0 <= r ->
  processesStarted m = u64 (processesExited m + (map_sumZ started_count o + r + map_sumZ run_count (pcs st))) ->
  base_inv cfg (set_opening o r (set_mgr m st)).
Proof.
  intros I E1 E2 E3 E4 E5 E6 E7 E8 Hst Hdom Hsz Hr Hr0 Hp. destruct I.
  split; cbn; rewrite ?E1, ?E2, ?E3, ?E4, ?E5, ?E6, ?E7, ?E8; try done.
  - lia.
  - intros j Hj. apply bi_ids0. destruct Hj as [?|[?|?]]; auto.
  - intros j Hj. apply bi_opening0, Hdom, Hj.
  - intros Hc. destruct (bi_closed0 Hc) as (? & Ho & ? & ?). split_and!; auto.
    rewrite Ho, map_size_empty in Hsz. apply map_size_empty_iff. lia.
Qed.

Lemma started_dead st id x : base_inv cfg st -> opening st !! id = Some x -> closed st = false.
Proof.
  intros I Ho. destruct (closed st) eqn:Ec; [|done]. destruct (bi_closed _ _ I Ec) as (_ & Hn & _).
  by rewrite Hn, lookup_empty in Ho.
Qed.

Lemma opening_delete_size st id x :
  opening st !! id = Some x ->
  Z.of_nat (size (opening st)) = Z.of_nat (size (delete id (opening st))) + 1.
Proof.
  intros Ho. rewrite map_size_delete, Ho. assert (size (opening st) <> 0)%nat; [|lia].
  intros Hz. apply map_size_empty_iff in Hz. by rewrite Hz, lookup_empty in Ho.
Qed.

Lemma open_failed_ok id sz b r st :
  base_inv cfg st -> opening st !! id = Some (sz, b) -> r = reaping st + Z.b2z b ->
  base_inv cfg (set_opening (delete id (opening st)) r (set_mgr (open_failed (mgr st)) st)).
Proof.
  intros I Ho ->. pose proof (started_dead _ _ _ I Ho) as Hd. pose proof (opening_delete_size _ _ _ Ho) as Hs.
  pose proof (bi_reaping _ _ I). apply base_inv_opening; cbn; try done.
  - rewrite (bi_starting _ _ I). lia.
  - intros j [x [_ Hj]%lookup_delete_Some]. by eexists.
  - lia.
  - congruence.
  - destruct b; cbn; lia.
  - rewrite (bi_processes _ _ I). unfold live_processes. rewrite (map_sumZ_delete started_count (opening st) _ _ Ho).
    unfold started_count at 1. cbn. do 2 f_equal. lia.
Qed.

Lemma open_started_ok id sz st :
  base_inv cfg st -> opening st !! id = Some (sz, false) ->
  base_inv cfg (set_opening (<[id := (sz, true)]> (opening st)) (reaping st) (set_mgr (open_started (mgr st)) st)).
Proof.
  intros I Ho. pose proof (started_dead _ _ _ I Ho) as Hd. pose proof (bi_reaping _ _ I).
  assert (size (<[id := (sz, true)]> (opening st)) = size (opening st)) as Hs by (by apply map_size_insert_Some; eexists).
  apply base_inv_opening; cbn; try done.
  - rewrite Hs. apply I.
  - intros j Hj. destruct (decide (j = id)) as [->|]; [by eexists|by rewrite lookup_insert_ne in Hj].
  - by rewrite Hs.
  - congruence.
  - rewrite (bi_processes _ _ I), u64_both. unfold live_processes. rewrite (map_sumZ_insert _ _ _ _ _ Ho).
    change (started_count (sz, false)) with 0. change (started_count (sz, true)) with 1. cbn. do 2 f_equal. lia.
Qed.

Lemma reaped_ok st :
  base_inv cfg st -> 0 < reaping st ->
  base_inv cfg (set_opening (opening st) (reaping st - 1) (set_mgr (recordProcessExited (mgr st)) st)).
Proof.
  intros I Hr. apply base_inv_opening; cbn; try done; try apply I.
  - intros Hc. destruct (bi_closed _ _ I Hc) as (_ & _ & ? & _). lia.
  - lia.
  - rewrite (bi_processes _ _ I). unfold live_processes. apply u64_move. lia.
Qed.

Lemma open_commit_ok id sz now ok failed m st :
  base_inv cfg st -> opening st !! id = Some (sz, true) -> open_commit cfg id sz now (mgr st) = (ok, failed, m) ->
  if ok then
    base_inv cfg (set_pcs (<[id := PRun]> (pcs st)) (removals st)
      (set_opening (delete id (opening st)) (reaping st) (set_mgr m st)))
  else closing (mgr st) = true /\
    base_inv cfg (set_opening (delete id (opening st)) (reaping st + 1) (set_mgr m st)).
Proof.
  intros I Ho E. pose proof (started_dead _ _ _ I Ho) as Hd. pose proof (opening_delete_size _ _ _ Ho) as Hs.
  pose proof (bi_starting _ _ I) as Hst. pose proof (bi_max _ _ I) as Hmax. unfold open_commit in E.
  pose proof (bi_opening _ _ I id ltac:(by eexists)) as [Hns Hnp].
  assert (base_inv cfg (set_opening (delete id (opening st)) (reaping st + 1) (set_mgr (open_failed (mgr st)) st))) as If
    by (by eapply open_failed_ok).
  cbn [closing activeSessions with_active] in E.
  destruct (closing (mgr st)) eqn:Ecl; [by injection E as <- _ <-|]. cbn [orb] in E.
  rewrite (proj2 (Z.leb_gt _ _)) in E by lia.
  destruct (emit _ _) as [f m1] eqn:Ee. apply emit_eq in Ee as (o & -> & Hobs).
  injection E as <- _ <-. cbn in Hobs.
  set (s := mkSession _ _ _ _ _ _ _ _ _ _ _ _) in *.
  pose proof (bi_observers _ _ I). pose proof (mc_limits _ Hcfg) as [_ Ha].
  destruct I. split; cbn; try done.
  - by apply hist_inv_insert_new.
  - intros j t. destruct (decide (j = id)) as [->|Hne].
    + rewrite !lookup_insert_eq. intros [= <-]. split; cbn; rewrite ?map_size_empty; try done. lia.
    + rewrite !lookup_insert_ne by congruence. auto.
  - intros j p. destruct (decide (j = id)) as [->|Hne].
    + rewrite !lookup_insert_eq. by eexists.
    + rewrite !lookup_insert_ne by congruence. eauto.
  - intros j. rewrite bi_retained0. split; intros (t & Ht & Hr); exists t; split; try done.
    + rewrite lookup_insert_ne; [done|]. congruence.
    + rewrite lookup_insert in Ht. case_decide; simplify_eq; done.
  - intros j t. destruct (decide (j = id)) as [->|Hne].
    + rewrite lookup_insert_eq. by intros [= <-].
    + rewrite lookup_insert_ne by congruence. eauto.
  - rewrite map_sumZ_insert_new by done. change (active_count s) with 1. lia.
  - lia.
  - lia.
  - lia.
  - intros j Hj. apply bi_ids0. destruct (decide (j = id)) as [->|Hne]; [right; left; by eexists|].
    rewrite !lookup_insert_ne, lookup_delete_ne in Hj by congruence. done.
  - intros j Hj. rewrite lookup_delete in Hj. case_decide; [by destruct Hj|].
    rewrite !lookup_insert_ne by congruence. auto.
  - rewrite bi_processes0. unfold live_processes. cbn. rewrite (map_sumZ_insert_new _ (pcs st)) by done.
    rewrite (map_sumZ_delete started_count (opening st) _ _ Ho). change (started_count (sz, true)) with 1.
    change (run_count PRun) with 1. do 2 f_equal. lia.
  - intros l j Hl. rewrite bi_closing0, Hl in Ecl. apply bool_decide_eq_false in Ecl. destruct Ecl. by eexists.
  - congruence.
Qed.

(** *** Steps that keep every life cycle *)

Lemma publish_ok id s data st :
  base_inv cfg st -> pcs st !! id = Some PRun -> sessions (mgr st) !! id = Some s ->
  0 <= s_lastSequence s < 2 ^ 64 - 1 -> nextHistory (hist (mgr st)) < 2 ^ 64 - 1 ->
  base_inv cfg (set_mgr (publish cfg id data (mgr st)).2 st).
Proof.
  intros I Hp Hs Hl Hn. unfold publish. rewrite Hs.
  pose proof (publish_history_spec' cfg id s data (sessions (mgr st)) (hist (mgr st)) Hcfg (bi_hist _ _ I) Hs Hl Hn) as P.
  destruct (publish_history _ _ _ _ _ _) as [ss h]. destruct P as [Pinv Psess Pback _ _].
  assert (base_inv cfg (set_mgr (with_hist h (with_sessions ss (mgr st))) st)) as I1.
  { apply base_inv_sessions; try done. intros j. destruct (sessions (mgr st) !! j) as [t|] eqn:Ej.
    - destruct (Psess _ _ Ej) as (t' & -> & _ & ->). constructor.
      destruct (Z.eqb_spec j id) as [->|]; split; try done. cbn. simplify_eq. lia.
    - destruct (ss !! j) as [t'|] eqn:Ej'; [|constructor]. destruct (Pback _ _ Ej') as [t Ht]. congruence. }
  destruct (Psess _ _ Hs) as (s1 & Hs1 & _). rewrite Hs1. cbn [sessions with_hist with_sessions].
  set (atts := omap _ (s_attachments s1)).
  destruct (emit _ _) as [f m1] eqn:Ee. apply emit_eq in Ee as (o & -> & Hobs). cbn [snd].
  apply (base_inv_emitted cfg st _ _ Hobs).
  apply (base_inv_session cfg (set_mgr (with_hist h (with_sessions ss (mgr st))) st) id s1); try done.
  split; try done. cbn. intros Ha. etrans; [|exact Ha]. apply inj_le.
  unfold atts. rewrite <- !(size_dom (D := gset Z)). apply subseteq_size.
  intros i Hi. apply elem_of_dom in Hi as [x Hx]. rewrite lookup_omap in Hx.
  apply elem_of_dom. destruct (s_attachments s1 !! i); [by eexists|done].
Qed.

Lemma attach_ok ended o id r m st :
  base_inv cfg st -> attach cfg ended o id (mgr st) = (r, m) -> base_inv cfg (set_mgr m st).
Proof.
  intros I E. assert (base_inv cfg (set_mgr (mgr st) st)) as I0 by (by destruct st). unfold attach in E.
  destruct (closing (mgr st)); [by injection E as _ <-|].
  destruct (sessions (mgr st) !! id) as [s|] eqn:Es; [|by injection E as _ <-].
  destruct (_ && _); [by injection E as _ <-|].
  destruct (Z.leb_spec (MaxAttachmentsPerSession cfg) (Z.of_nat (size (s_attachments s)))) as [|Hlt];
    [by injection E as _ <-|].
  destruct (_ <? _); [by injection E as _ <-|]. set (aid := u64 (nextAttachment (mgr st) + 1)) in *.
  set (m1 := with_ids _ _ _ _) in *.
  assert (base_inv cfg (set_mgr m1 st)) as I1 by (apply base_inv_frame; [by split|apply I|done]).
  destruct (aid =? 0); [by injection E as _ <-|].
  destruct (attach_replay o s) as [result replay].
  destruct (attach_start cfg ended o s replay) as [a|err]; [|by injection E as _ <-]. destruct (emit _ _) as [f m2] eqn:Ee.
  apply emit_eq in Ee as (obs & -> & Hobs). injection E as <- <-.
  apply (base_inv_emitted cfg st _ _ Hobs).
  apply (base_inv_session cfg (set_mgr m1 st) id s); try done.
  split; try done. intros _. unfold set_attachments at 1, s_attachments at 1.
  match goal with |- context [<[aid:=?a]> _] => pose proof (map_size_insert aid a (s_attachments s)) as Hz end.
  rewrite Hz. destruct (s_attachments s !! aid); unfold Datatypes.id; lia.
Qed.

Lemma detach_ok gone id aid reason st :
  base_inv cfg st -> base_inv cfg (set_mgr (recordAttachmentClose gone id aid reason (mgr st)) st).
Proof.
  intros I. unfold recordAttachmentClose. set (m1 := with_closures _ _ _).
  assert (base_inv cfg (set_mgr m1 st)) as I1 by (apply base_inv_frame; [by split|apply I|done]).
  destruct (sessions m1 !! id) as [s|] eqn:Es.
  - destruct (emit_snd (mkEvent EventDetached (infoLocked (set_attachments (delete aid (s_attachments s)) s)) None
      (Some (mkAttachmentInfo aid (Some reason)))) (with_sessions
      (<[id:=set_attachments (delete aid (s_attachments s)) s]> (sessions m1)) m1)) as (o & -> & Hobs).
    apply (base_inv_emitted cfg st _ _ Hobs).
    apply (base_inv_session cfg (set_mgr m1 st) id s); try done. split; try done.
    cbn. intros Ha. pose proof (map_size_delete_le (s_attachments s) aid). lia.
  - destruct (emit_snd (mkEvent EventDetached gone None (Some (mkAttachmentInfo aid (Some reason)))) m1) as (o & -> & Hobs).
    apply (base_inv_emitted cfg st _ _ Hobs). done.
Qed.

Lemma subscribe_ok st : base_inv cfg st -> base_inv cfg (set_mgr (subscribe cfg (mgr st)).2 st).
Proof.
  intros I. unfold subscribe. destruct (closing (mgr st)); [by destruct st|].
  destruct (Z.leb_spec (MaxObservers cfg) (Z.of_nat (size (observers (mgr st))))) as [|Hlt]; [by destruct st|].
  apply base_inv_frame; [by split| |done]. cbn. rewrite map_size_insert.
  destruct (observers (mgr st) !! _); unfold Datatypes.id; lia.
Qed.

Lemma unsubscribe_ok id st : base_inv cfg st -> base_inv cfg (set_mgr (unsubscribe id (mgr st)) st).
Proof.
  intros I. apply base_inv_observers; [|done]. apply map_size_delete_le.
Qed.

Lemma observer_closed_ok reason st : base_inv cfg st -> base_inv cfg (set_mgr (recordObserverClose reason (mgr st)) st).
Proof. intros I. apply base_inv_frame; [by split|apply I|done]. Qed.

Lemma resized_ok id sz st : base_inv cfg st -> base_inv cfg (set_mgr (resized id sz (mgr st)) st).
Proof.
  intros I. unfold resized. destruct (sessions (mgr st) !! id) as [s|] eqn:Es; [|by destruct st].
  destruct (bool_decide _); [|by destruct st]. by apply (base_inv_session cfg st id s).
Qed.

Lemma stopping_life s :
  s_state s = SessionRunning ->
  same_life cfg s (set_lifecycle SessionStopping (s_exit s) (s_retained s) (s_removing s) s).
Proof. intros Hs. split; try done; unfold active; rewrite Hs; done. Qed.

Lemma kill_ok id st : base_inv cfg st -> base_inv cfg (set_mgr (kill_section id (mgr st)).2 st).
Proof.
  intros I. unfold kill_section. destruct (sessions (mgr st) !! id) as [s|] eqn:Es; [|by destruct st].
  cbn [snd]. destruct (bool_decide (s_state s = SessionRunning)) eqn:Er; [|by destruct st]. reflect_bools.
  apply (base_inv_session cfg st id s); try done. by apply stopping_life.
Qed.

Lemma close_begin_ok st :
  base_inv cfg st -> waiting st = None ->
  base_inv cfg (set_waiting (Some (map_to_list (sessions (mgr st))).*1) false (set_mgr (close_begin (mgr st)).2 st)).
Proof.
  intros I Hw. unfold close_begin. cbn [snd]. set (stop := fun s : Session => if bool_decide _ then _ else s).
  assert (base_inv cfg (set_mgr (with_hist (hist (mgr st)) (with_sessions (stop <$> sessions (mgr st)) (mgr st))) st)) as I1.
  { apply base_inv_sessions; [|eapply hist_inv_same; [|apply I]|done].
    - intros j. rewrite lookup_fmap. destruct (sessions (mgr st) !! j) as [s|]; constructor.
      unfold stop. case_bool_decide; [by apply stopping_life|apply same_life_refl].
    - intros j. rewrite lookup_fmap. destruct (sessions (mgr st) !! j) as [s|]; cbn; [|done].
      unfold stop. by case_bool_decide. }
  pose proof (mc_limits _ Hcfg). clearbody stop. destruct I1, I. unfold live_processes in *. cbn in *. split; cbn; try done.
  - rewrite map_size_empty. lia.
  - intros l j [= <-] [s Hs]. rewrite lookup_fmap in Hs. destruct (sessions (mgr st) !! j) as [t|] eqn:Ej; [|done].
    apply list_elem_of_fmap. exists (j, t). split; [done|]. by apply elem_of_map_to_list.
Qed.

(** *** Steps of one session's life cycle *)

(** The invariant after one session, its goroutine and the removals change. *)
Lemma base_inv_at id s (o : option Session) m p rs st :
  base_inv cfg st -> sessions (mgr st) !! id = Some s ->
  sessions m = partial_alter (fun _ => o) id (sessions (mgr st)) -> hist_inv cfg (sessions m) (hist m) ->
  (forall j, j <> id -> p !! j = pcs st !! j) ->
  match o with Some s' => sess_ok cfg (p !! id) id s' | None => p !! id <> Some PRun /\ p !! id <> Some PDrain end ->
  (forall j, j <> id -> j ∈ retainedExited m <-> j ∈ retainedExited (mgr st)) ->
  (id ∈ retainedExited m <-> exists s', o = Some s' /\ s_retained s' = true) -> NoDup (retainedExited m) ->
  (forall j, j <> id -> pending (removals st) j -> pending rs j) ->
  (forall s', o = Some s' -> s_removing s' = true -> pending rs id) ->
  activeSessions m = activeSessions (mgr st) - active_count s + from_option active_count 0 o ->
  from_option active_count 0 o <= active_count s ->
  processesStarted m = u64 (processesExited m + live_processes (set_pcs p rs st)) ->
  starting m = starting (mgr st) -> nextSession m = nextSession (mgr st) ->
  sessionIDExhausted m = sessionIDExhausted (mgr st) -> closing m = closing (mgr st) ->
  (size (observers m) <= size (observers (mgr st)))%nat ->
  base_inv cfg (set_pcs p rs (set_mgr m st)).
Proof.
  intros I Hs Hm Hh Hp Ho Hr1 Hr2 Hnd Hpe1 Hpe2 Hac Hac' Hproc E1 E2 E3 E4 Hobs.
  pose proof (bi_ids _ _ I id (or_introl (mk_is_Some _ _ Hs))) as Hid.
  assert (forall j, j <> id -> sessions m !! j = sessions (mgr st) !! j) as Hne
    by (intros j Hj; rewrite Hm; by apply lookup_partial_alter_ne).
  assert (sessions m !! id = o) as He by (rewrite Hm; apply lookup_partial_alter_eq).
  assert (opening st !! id = None) as Hno.
  { apply eq_None_not_Some. intros Hx. destruct (bi_opening _ _ I _ Hx). congruence. }
  assert (closed st = false) as Hop.
  { destruct (closed st) eqn:Ec; [|done]. destruct (bi_closed _ _ I Ec) as (_ & _ & _ & Hn).
    by rewrite Hn, lookup_empty in Hs. }
  assert (activeSessions m = map_sumZ active_count (sessions m)) as Hsum.
  { rewrite Hac, (bi_active _ _ I), (map_sumZ_delete active_count _ _ _ Hs), Hm. destruct o as [s'|]; cbn [from_option].
    - change (partial_alter (fun _ => Some s') id) with (<[id := s']> : Sessions -> Sessions).
      rewrite (map_sumZ_insert _ _ _ _ _ Hs), (map_sumZ_delete active_count _ _ _ Hs). lia.
    - change (partial_alter (fun _ => None) id) with (delete id : Sessions -> Sessions). lia. }
  destruct I. split; cbn; rewrite ?E1, ?E2, ?E3, ?E4; try done.
  - intros j t Hj. destruct (decide (j = id)) as [->|Hn].
    + rewrite He in Hj. rewrite Hj in Ho. exact Ho.
    + rewrite Hp by done. rewrite Hne in Hj by done. auto.
  - intros j q Hj Hq. destruct (decide (j = id)) as [->|Hn].
    + rewrite He. destruct o; [by eexists|]. destruct Ho as [? ?]. destruct q; congruence.
    + rewrite Hne by done. rewrite Hp in Hj by done. eauto.
  - intros j. destruct (decide (j = id)) as [->|Hn]; [by rewrite He|].
    rewrite Hne, Hr1 by done. auto.
  - intros j t Hj Hrm. destruct (decide (j = id)) as [->|Hn].
    + rewrite He in Hj. eauto.
    + rewrite Hne in Hj by done. eauto.
  - lia.
  - lia.
  - intros j Hj. destruct (decide (j = id)) as [->|Hn]; [done|].
    rewrite Hne, Hp in Hj by done. auto.
  - intros j Hj. destruct (decide (j = id)) as [->|Hn]; [rewrite Hno in Hj; by destruct Hj|].
    rewrite Hne, Hp by done. auto.
  - intros l j Hl Hj. destruct (decide (j = id)) as [->|Hn]; [eapply bi_waiting0; [done|by eexists]|].
    rewrite Hne in Hj by done. eauto.
  - congruence.
Qed.

Lemma live_processes_pc id p p' rs st :
  pcs st !! id = Some p ->
  live_processes (set_pcs (<[id := p']> (pcs st)) rs st) = live_processes st - run_count p + run_count p'.
Proof. intros Hp. unfold live_processes. cbn. rewrite (map_sumZ_insert _ _ _ _ _ Hp). lia. Qed.

Lemma run_exited_ok id status st :
  base_inv cfg st -> pcs st !! id = Some PRun ->
  base_inv cfg (set_pcs (<[id := PDrain]> (pcs st)) (removals st) (set_mgr (run_exited id status (mgr st)) st)).
Proof.
  intros I Hp. destruct (bi_run _ _ I _ _ Hp ltac:(done)) as [s Hs].
  pose proof (bi_sess _ _ I _ _ Hs) as O. rewrite Hp in O. destruct (so_running _ _ _ _ O eq_refl) as (Ha & Hx & Hr & Hrm).
  assert (0 < activeSessions (mgr st)) as Hpos.
  { rewrite (bi_active _ _ I). pose proof (active_count_true _ Ha) as Hone.
    enough (active_count s <= map_sumZ active_count (sessions (mgr st))) by lia.
    apply map_sumZ_le with id; [|done]. intros. apply active_count_nonneg. }
  unfold run_exited. rewrite Hs.
  match goal with |- context [(emit ?e ?m).2] => destruct (emit_snd e m) as (obs & -> & Hobs) end. cbn in Hobs.
  set (s' := set_attachments _ _). eapply (base_inv_at id s (Some s')); try done; cbn -[active_count].
  - eapply hist_inv_same; [|apply I]. intros j. rewrite lookup_insert. case_decide; [|done]. subst. by rewrite Hs.
  - intros j Hj. by rewrite lookup_insert_ne.
  - rewrite lookup_insert_eq. split; try done; cbn; [apply O|rewrite map_size_fmap; apply O|apply O].
  - rewrite (bi_retained _ _ I). split; intros (t & Ht & Hrt); exfalso; simplify_eq; cbn in Hrt; congruence.
  - apply I.
  - intros t [= <-]. cbn. congruence.
  - rewrite (proj2 (Z.ltb_lt _ _) Hpos). change (active_count s') with 0. rewrite (active_count_true _ Ha). lia.
  - change (active_count s') with 0. by rewrite (active_count_true _ Ha).
  - rewrite (bi_processes _ _ I), (live_processes_pc _ _ _ _ _ Hp). apply u64_move.
    change (run_count PRun) with 1. change (run_count PDrain) with 0. lia.
Qed.

Lemma remove_first_ret (l : list Z) id : NoDup l ->
  NoDup (remove_first id l) /\ (id ∉ remove_first id l) /\ (forall j, j <> id -> (j ∈ remove_first id l <-> j ∈ l)).
Proof.
  induction 1 as [|x l Hx Hl IH]; cbn; [split_and!; [constructor|apply not_elem_of_nil|done]|].
  destruct IH as (IH1 & IH2 & IH3). destruct (Z.eqb_spec x id) as [->|Hne].
  - split_and!; try done. intros j Hj. rewrite elem_of_cons. split; [by right|]. by intros [->|].
  - split_and!.
    + constructor; [|done]. by rewrite IH3.
    + rewrite elem_of_cons. by intros [->|].
    + intros j Hj. rewrite !elem_of_cons, IH3 by done. done.
Qed.

Lemma pending_app_l rs rs' id : pending rs id -> pending (rs ++ rs') id.
Proof. intros (o & r & Hr & Hid). exists o, r. split; [|done]. apply elem_of_app. by left. Qed.

Lemma begin_removal_ok id s reason kind owner st :
  base_inv cfg st -> sessions (mgr st) !! id = Some s -> s_retained s = true ->
  exists r m, beginRetainedRemoval s reason kind (mgr st) = Some (r, m) /\ rr_session r = id /\
    retainedExited m = remove_first id (retainedExited (mgr st)) /\
    base_inv cfg (set_pcs (pcs st) (removals st ++ [(owner, r)]) (set_mgr m st)) /\
    sessions m = <[id := set_lifecycle (s_state s) (s_exit s) false true (set_attachments ∅ s)]> (sessions (mgr st)).
Proof.
  intros I Hs Hr. pose proof (bi_sess _ _ I _ _ Hs) as O.
  assert (pcs st !! id <> Some PRun /\ pcs st !! id <> Some PDrain) as [Hp1 Hp2].
  { split; intros Hp; [destruct (so_running _ _ _ _ O Hp) as (_ & _ & ? & _)|destruct (so_draining _ _ _ _ O Hp)]; congruence. }
  pose proof (so_settled _ _ _ _ O Hp1 Hp2) as Hrm. rewrite Hr in Hrm.
  destruct (so_exited _ _ _ _ O Hp1) as [Hst Hex]. pose proof (so_id _ _ _ _ O) as Hid.
  unfold beginRetainedRemoval. rewrite Hr. destruct (s_removing s); [done|]. cbn [negb orb].
  eexists _, _. split; [reflexivity|]. rewrite Hid. split; [done|]. split; [done|].
  destruct (remove_first_ret (retainedExited (mgr st)) id (bi_nodup _ _ I)) as (Hn1 & Hn2 & Hn3).
  split; [|done]. set (s' := set_lifecycle _ _ _ _ _).
  eapply (base_inv_at id s (Some s')); try done; cbn -[active_count].
  - eapply hist_inv_same; [|apply I]. intros j. rewrite lookup_insert. case_decide; [|done]. subst. by rewrite Hs.
  - split; try done; cbn; [|apply O]. rewrite map_size_empty. pose proof (mc_limits _ Hcfg). lia.
  - split; [done|]. intros (t & [= <-] & Ht). done.
  - intros j Hj. apply pending_app_l.
  - intros t _ _. eexists _, _. split; [apply elem_of_app; right; by left|]. done.
  - rewrite !active_count_exited by done. lia.
  - apply I.
Qed.

Lemma removeSession_ok id s0 s p rs st :
  base_inv cfg st -> sessions (mgr st) !! id = Some s0 -> hist_view s = hist_view s0 -> s_id s = id ->
  s_state s0 = SessionExited ->
  (forall j, j <> id -> p !! j = pcs st !! j) -> p !! id <> Some PRun -> p !! id <> Some PDrain ->
  (forall j, j <> id -> pending (removals st) j -> pending rs j) ->
  live_processes (set_pcs p rs st) = live_processes st ->
  base_inv cfg (set_pcs p rs (set_mgr (removeSession s (mgr st)) st)).
Proof.
  intros I Hs0 Hv Hid Hst Hp Hp1 Hp2 Hpe Hlive.
  assert (removeHistory s (hist (mgr st)) = (set_history [] 0 s, (removeHistory s0 (hist (mgr st))).2)) as Hrh.
  { unfold removeHistory. cbn. unfold hist_view in Hv. do 2 f_equal. congruence. }
  destruct (remove_first_ret (retainedExited (mgr st)) id (bi_nodup _ _ I)) as (Hn1 & Hn2 & Hn3).
  unfold removeSession. rewrite Hid. eapply (base_inv_at id s0 None); try done; cbn -[active_count removeHistory].
  - rewrite Hrh. cbn [snd]. by apply removeHistory_inv; [apply I|..].
  - split; [done|]. by intros (? & ? & _).
  - rewrite (active_count_exited s0) by done. lia.
  - by rewrite (active_count_exited s0).
  - rewrite Hlive. apply I.
Qed.

Lemma pending_takes rs r rest j : takes rs r rest -> j <> rr_session r -> pending rs j -> pending rest j.
Proof.
  intros (l1 & o & l2 & -> & -> & _) Hj (o' & r' & Hin & Hid). exists o', r'. split; [|done].
  apply elem_of_app in Hin as [Hin|Hin]; [apply elem_of_app; by left|].
  apply elem_of_cons in Hin as [E|Hin]; [simplify_eq|apply elem_of_app; by right].
Qed.

(** Counters and observers do not matter. *)
Lemma base_inv_pcs_frame p rs m m' st :
  same_registry m m' -> (size (observers m') <= size (observers m))%nat ->
  base_inv cfg (set_pcs p rs (set_mgr m st)) -> base_inv cfg (set_pcs p rs (set_mgr m' st)).
Proof.
  intros R Ho I. apply (base_inv_frame cfg (set_pcs p rs (set_mgr m st)) m'); [done| |done].
  pose proof (bi_observers _ _ I) as Hb. cbn in Hb. lia.
Qed.

Lemma base_inv_dropped r rest st :
  base_inv cfg st -> takes (removals st) r rest ->
  (forall s, sessions (mgr st) !! rr_session r = Some s -> s_removing s = false) ->
  base_inv cfg (set_pcs (pcs st) rest (set_mgr (mgr st) st)).
Proof.
  intros I T Hno. destruct I. split; cbn; try done. intros j s Hj Hrm.
  eapply pending_takes; [done| |eauto]. intros ->. rewrite (Hno _ Hj) in Hrm. done.
Qed.

Lemma finish_removal_ok r rest st :
  base_inv cfg st -> takes (removals st) r rest ->
  base_inv cfg (set_pcs (pcs st) rest (set_mgr (finish_removal r (mgr st)) st)).
Proof.
  intros I T. unfold finish_removal. destruct (sessions (mgr st) !! rr_session r) as [s|] eqn:Es;
    [|apply (base_inv_dropped r); [done|done|congruence]].
  destruct (s_removing s) eqn:Erm; cbn [negb]; [|apply (base_inv_dropped r); [done|done|congruence]].
  pose proof (bi_sess _ _ I _ _ Es) as O.
  assert (pcs st !! rr_session r <> Some PRun /\ pcs st !! rr_session r <> Some PDrain) as [Hp1 Hp2].
  { split; intros Hp; [destruct (so_running _ _ _ _ O Hp) as (_ & _ & _ & ?)|destruct (so_draining _ _ _ _ O Hp)]; congruence. }
  assert (base_inv cfg (set_pcs (pcs st) rest (set_mgr (removeSession s (mgr st)) st))) as I1.
  { eapply (removeSession_ok (rr_session r) s); try done; [apply O|by apply O|].
    intros j Hj. by eapply pending_takes. }
  match goal with |- context [(emit ?e ?m).2] => destruct (emit_snd e m) as (obs & -> & Hobs) end.
  eapply base_inv_pcs_frame; [| |exact I1]; [by destruct (bool_decide _); split|].
  etrans; [exact Hobs|]. by destruct (bool_decide _).
Qed.

(** *** Retention *)

(** A session whose eviction has begun. *)
Definition evicting (s : Session) : Session :=
  set_lifecycle (s_state s) (s_exit s) false true (set_attachments ∅ s).

(** A session when [run] retains it. *)
Definition retain (s : Session) : Session :=
  set_lifecycle (s_state s) (s_exit s) true (s_removing s) (set_attachments ∅ s).

(** How many retained sessions exceed the limit. *)
Definition excess (m : Manager) : nat := Z.to_nat (len (retainedExited m) - MaxRetainedSessions cfg).

Lemma max_retained_nonneg : 0 <= MaxRetainedSessions cfg.
Proof. destruct (mc_lifecycle _ Hcfg) as [[_ ->]|[_ ?]]; lia. Qed.

Record evicted (m : Manager) (l : list retainedRemoval) (m' : Manager) : Prop := {
  ev_order : rr_session <$> l = take (excess m) (retainedExited m);
  ev_kept : retainedExited m' = drop (excess m) (retainedExited m);
  ev_kind : Forall (fun r => rr_kind r = EventEvicted /\ rr_reason r = AttachmentSessionEvicted) l;
  ev_sessions j : sessions m' !! j =
    (if decide (j ∈ take (excess m) (retainedExited m)) then evicting <$> sessions m !! j else sessions m !! j);
  ev_generation : generation m' = generation m;
}.

Lemma evictions_ok fuel owner st :
  base_inv cfg st -> (length (retainedExited (mgr st)) < fuel)%nat ->
  exists l m, beginRetentionEvictions fuel cfg (mgr st) = Some (l, m) /\ evicted (mgr st) l m /\
    base_inv cfg (set_pcs (pcs st) (removals st ++ (pair owner <$> l)) (set_mgr m st)).
Proof.
  revert st. induction fuel as [|fuel IH]; intros st I Hf; [lia|].
  pose proof max_retained_nonneg as Hmax. cbn [beginRetentionEvictions].
  destruct (Z.ltb_spec (MaxRetainedSessions cfg) (len (retainedExited (mgr st)))) as [Hlt|Hge].
  2: { assert (excess (mgr st) = O) as E by (unfold excess; lia). eexists [], _. split; [done|]. split.
    - split; rewrite ?E; try done.
    - cbn. rewrite app_nil_r. by destruct st. }
  destruct (retainedExited (mgr st)) as [|id rest] eqn:Er; [try rewrite Er in Hlt; rewrite len_nil in Hlt; lia|].
  destruct (proj1 (bi_retained _ _ I id) ltac:(rewrite Er; left)) as (s & Hs & Hr). rewrite Hs, Hr.
  destruct (begin_removal_ok id s AttachmentSessionEvicted EventEvicted owner st I Hs Hr)
    as (r & m1 & E1 & Hrid & Hrest & I1 & Hss). rewrite Er in Hrest. cbn in Hrest. rewrite Z.eqb_refl in Hrest.
  rewrite E1. destruct (IH _ I1) as (l & m2 & E2 & Ev & I2).
  { cbn. rewrite Hrest. cbn in Hf. lia. }
  cbn [mgr set_pcs set_mgr] in E2, Ev. rewrite E2. eexists (r :: l), m2. split; [done|].
  assert (excess (mgr st) = S (excess m1)) as Hex.
  { unfold excess. rewrite Er, Hrest. mux_rw. lia. }
  assert (generation m1 = generation (mgr st) /\ rr_kind r = EventEvicted /\ rr_reason r = AttachmentSessionEvicted)
    as (Hg & Hk & Hre).
  { unfold beginRetainedRemoval in E1. rewrite Hr in E1. destruct (s_removing s); [done|]. by injection E1 as <- <-. }
  split.
  - destruct Ev as [Eo Ek Ef Es Eg]. rewrite Hrest in Eo, Ek, Es.
    split; rewrite ?Er, ?Hex; cbn; try done.
    + by rewrite Hrid, Eo.
    + by constructor.
    + intros j. rewrite Es, Hss.
      assert (id ∉ rest) as Hnin by (pose proof (bi_nodup _ _ I) as Hn; rewrite Er in Hn; by inversion Hn).
      assert (id ∉ take (excess m1) rest) by (intros Hx; apply Hnin; by eapply elem_of_take in Hx as (? & ?%list_elem_of_lookup_2 & _)).
      destruct (decide (j = id)) as [->|Hne].
      * rewrite decide_False by done. rewrite decide_True by left. rewrite lookup_insert_eq, Hs. done.
      * rewrite lookup_insert_ne by congruence. destruct (decide (j ∈ take _ _)).
        -- rewrite decide_True; [done|by right].
        -- rewrite decide_False; [done|]. rewrite elem_of_cons. by intros [->|?].
    + congruence.
  - cbn in I2. rewrite <- (assoc_L (++)) in I2. exact I2.
Qed.

Lemma run_finalize_ok id st :
  base_inv cfg st -> pcs st !! id = Some PDrain ->
  forall fuel, (S (length (retainedExited (mgr st))) < fuel)%nat ->
  exists l m, run_finalize fuel cfg id (mgr st) = Some (l, m) /\
    base_inv cfg (set_pcs (<[id := PEvict]> (pcs st)) (removals st ++ (pair (Some id) <$> l)) (set_mgr m st)) /\
    (len (retainedExited (mgr st)) <= MaxRetainedSessions cfg -> len (retainedExited m) <= MaxRetainedSessions cfg) /\
    (if negb (closing (mgr st)) && (ExitPolicy cfg =? ExitedSessionRetain)
     then exists m1, retainedExited m1 = retainedExited (mgr st) ++ [id] /\ evicted m1 l m /\
       (exists s, sessions (mgr st) !! id = Some s /\ s_state s = SessionExited /\
          sessions m1 !! id = Some (retain s)) /\
       generation m1 = u64 (generation (mgr st) + 1) /\
       (forall j, j <> id -> sessions m1 !! j = sessions (mgr st) !! j)
     else l = [] /\ sessions m = delete id (sessions (mgr st)) /\ retainedExited m = retainedExited (mgr st) /\
       generation m = u64 (generation (mgr st) + 1)).
Proof.
  intros I Hp fuel Hf. destruct (bi_run _ _ I _ _ Hp ltac:(done)) as [s0 Hs0].
  pose proof (bi_sess _ _ I _ _ Hs0) as O. rewrite Hp in O. destruct (so_draining _ _ _ _ O eq_refl) as [Hr0 Hrm0].
  destruct (so_exited _ _ _ _ O ltac:(done)) as [Hst Hex].
  assert (id ∉ retainedExited (mgr st)) as Hnin.
  { intros (s & Hs & Hr)%(bi_retained _ _ I). congruence. }
  assert (forall rs, live_processes (set_pcs (<[id:=PEvict]> (pcs st)) rs st) = live_processes st) as Hlive.
  { intros rs. rewrite (live_processes_pc _ _ _ _ _ Hp). change (run_count PDrain) with 0. change (run_count PEvict) with 0. lia. }
  unfold run_finalize. rewrite Hs0. set (s := set_attachments ∅ s0).
  destruct (negb (closing (mgr st)) && (ExitPolicy cfg =? ExitedSessionRetain)).
  - set (s' := set_lifecycle _ _ _ _ _).
    match goal with |- context [(emit ?e ?m).2] => destruct (emit_snd e m) as (obs & -> & Hobs); set (m1 := with_observers obs m) in * end.
    cbn in Hobs. assert (base_inv cfg (set_pcs (<[id:=PEvict]> (pcs st)) (removals st) (set_mgr m1 st))) as I1.
    { eapply (base_inv_at id s0 (Some s')); try done; cbn -[active_count].
      - eapply hist_inv_same; [|apply I]. intros j. rewrite lookup_insert. case_decide; [|done]. subst. by rewrite Hs0.
      - intros j Hj. by rewrite lookup_insert_ne.
      - rewrite lookup_insert_eq. split; try done; cbn; [apply O| |apply O|by rewrite Hrm0].
        rewrite map_size_empty. pose proof (mc_limits _ Hcfg). lia.
      - intros j Hj. rewrite elem_of_app, list_elem_of_singleton, (so_id _ _ _ _ O). split; [by intros [?| ->]|by left].
      - rewrite elem_of_app, list_elem_of_singleton, (so_id _ _ _ _ O). split; [by eexists|by right].
      - rewrite (so_id _ _ _ _ O). apply NoDup_app. split_and!; [apply I| |apply NoDup_singleton].
        intros j Hj ->%list_elem_of_singleton. done.
      - intros t [= <-]. cbn. congruence.
      - rewrite !active_count_exited by done. lia.
      - rewrite Hlive. apply I. }
    assert (retainedExited m1 = retainedExited (mgr st) ++ [id]) as Hret1 by (cbn; by rewrite (so_id _ _ _ _ O)).
    destruct (evictions_ok fuel (Some id) _ I1) as (l & m & E & Ev & I2).
    { cbn [mgr set_pcs set_mgr]. rewrite Hret1, length_app. cbn. lia. }
    exists l, m. cbn [mgr set_pcs set_mgr] in E, Ev. split; [done|]. split; [exact I2|]. split.
    + intros _. rewrite (ev_kept _ _ _ Ev). pose proof max_retained_nonneg. unfold excess, len in *. rewrite length_drop. lia.
    + exists m1. split_and!; try done; cbn.
      * exists s0. rewrite lookup_insert_eq. done.
      * intros j Hj. by rewrite lookup_insert_ne.
  - match goal with |- context [(emit ?e ?m).2] => destruct (emit_snd e m) as (obs & -> & Hobs) end.
    eexists [], _. split; [done|]. cbn [fmap list_fmap]. rewrite app_nil_r. split; [|split].
    + eapply base_inv_pcs_frame; [| |eapply (removeSession_ok id s0 s); try done].
      * by split.
      * exact Hobs.
      * apply O.
      * intros j Hj. by rewrite lookup_insert_ne.
      * by rewrite lookup_insert_eq.
      * by rewrite lookup_insert_eq.
    + cbn. intros. etrans; [|done]. rewrite (so_id _ _ _ _ O). unfold len. apply inj_le. clear.
      induction (retainedExited (mgr st)) as [|x l IH]; cbn; [done|]. destruct (x =? id); cbn; lia.
    + cbn. rewrite (so_id _ _ _ _ O). split_and!; try done.
      clear -Hnin. induction (retainedExited (mgr st)) as [|x l IH]; cbn; [done|].
      apply not_elem_of_cons in Hnin as [? ?]. rewrite (proj2 (Z.eqb_neq _ _)) by congruence. by rewrite IH.
Qed.

Lemma beginRetentionEvictions_more fuel fuel' m r :
  beginRetentionEvictions fuel cfg m = Some r -> (fuel <= fuel')%nat -> beginRetentionEvictions fuel' cfg m = Some r.
Proof.
  revert fuel' m r. induction fuel as [|fuel IH]; intros fuel' m r E Hle; [done|].
  destruct fuel' as [|fuel']; [lia|]. cbn [beginRetentionEvictions] in *.
  destruct (_ <? _); [|done]. destruct (retainedExited m) as [|id rest]; [done|].
  destruct (sessions m !! id) as [s|]; [|eapply IH; [done|lia]]. destruct (s_retained s); [|eapply IH; [done|lia]].
  destruct (beginRetainedRemoval _ _ _ _) as [[r1 m1]|]; [|eapply IH; [done|lia]].
  destruct (beginRetentionEvictions fuel cfg m1) as [[l m2]|] eqn:E1; [|done].
  by rewrite (IH fuel' _ _ E1) by lia.
Qed.

Lemma run_finalize_more fuel fuel' id m r :
  run_finalize fuel cfg id m = Some r -> (fuel <= fuel')%nat -> run_finalize fuel' cfg id m = Some r.
Proof.
  unfold run_finalize. destruct (sessions m !! id); [|done]. destruct (_ && _); [|done].
  apply beginRetentionEvictions_more.
Qed.

(** Whatever fuel was enough, the result is the same. *)
Lemma run_finalize_any id st :
  base_inv cfg st -> pcs st !! id = Some PDrain ->
  forall fuel l m, run_finalize fuel cfg id (mgr st) = Some (l, m) ->
    base_inv cfg (set_pcs (<[id := PEvict]> (pcs st)) (removals st ++ (pair (Some id) <$> l)) (set_mgr m st)) /\
    (len (retainedExited (mgr st)) <= MaxRetainedSessions cfg -> len (retainedExited m) <= MaxRetainedSessions cfg) /\
    run_finalize (fuel + S (S (length (retainedExited (mgr st))))) cfg id (mgr st) = Some (l, m).
Proof.
  intros I Hp fuel l m E. pose proof (run_finalize_more _ (fuel + S (S (length (retainedExited (mgr st))))) _ _ _ E) as E1.
  destruct (run_finalize_ok id st I Hp (fuel + S (S (length (retainedExited (mgr st))))) ltac:(lia)) as (l' & m' & E' & Hi & Hr & _).
  rewrite E' in E1. specialize (E1 ltac:(lia)). injection E1 as -> ->. done.
Qed.

Lemma run_return_ok id st :
  base_inv cfg st -> pcs st !! id = Some PEvict -> base_inv cfg (set_pcs (delete id (pcs st)) (removals st) st).
Proof.
  intros I Hp.
  assert (forall j p, delete id (pcs st) !! j = Some p -> pcs st !! j = Some p) as Hd
    by (intros j p [_ Hj]%lookup_delete_Some; done).
  destruct I. split; cbn; try done.
  - intros j s Hj. destruct (decide (j = id)) as [->|Hne]; [|rewrite lookup_delete_ne by congruence; auto].
    rewrite lookup_delete_eq. destruct (bi_sess0 _ _ Hj). rewrite Hp in *. split; try done; intros; auto.
  - intros j p Hj. eauto.
  - intros j Hj. apply bi_ids0. destruct Hj as [?|[?|[p Hj]]]; [by left|by right; left|].
    right; right. exists p. auto.
  - intros j Hj. destruct (bi_opening0 _ Hj) as [? Hn]. split; [done|].
    destruct (delete id (pcs st) !! j) eqn:E; [|done]. apply Hd in E. congruence.
  - rewrite bi_processes0. do 2 f_equal. unfold live_processes. cbn.
    rewrite (map_sumZ_delete run_count (pcs st) _ _ Hp). change (run_count PEvict) with 0. lia.
Qed.

Lemma close_end_ok l st :
  base_inv cfg st -> waiting st = Some l -> opening st = ∅ -> reaping st = 0 ->
  (forall id, id ∈ l -> pcs st !! id = None) ->
  base_inv cfg (set_waiting (Some l) true (set_mgr (close_end (mgr st)) st)).
Proof.
  intros I Hw Ho Hr Hdone. pose proof (hi_total _ _ _ (bi_hist _ _ I)) as Ht.
  pose proof (mc_sessions _ Hcfg). pose proof (mc_history _ Hcfg). destruct I.
  split; cbn; try done; rewrite ?Ho, ?map_size_empty; try done.
  - destruct bi_hist0. split; cbn; try done; try lia; try (by rewrite Ht, map_sumZ_empty; lia).
  - intros id p Hp Hne. destruct (bi_run0 id p Hp Hne) as [s Hs].
    rewrite (Hdone id) in Hp; [done|]. eapply bi_waiting0; [done|by eexists].
  - intros id. split; [by intros ?%elem_of_nil|]. intros (s & Hs & _). by rewrite lookup_empty in Hs.
  - constructor.
  - rewrite bi_starting0, Ho, map_size_empty. cbn. lia.
  - intros id Hid. apply bi_ids0. destruct Hid as [[s Hs]|[[s Hs]|Hid]]; [done|done|].
    by right; right.
  - intros id [s Hs]. done.
  - rewrite bi_closing0, Hw. done.
  - intros ? ? _ [s Hs]. done.
Qed.

Lemma base_inv_handles h st : base_inv cfg st -> base_inv cfg (set_handles h st).
Proof. intros I. destruct I. by split. Qed.
Lemma base_inv_workers w st : base_inv cfg st -> base_inv cfg (set_workers w st).
Proof. intros I. destruct I. by split. Qed.

End Preservation.

Lemma initial_base_inv cfg : manager_config_ok cfg -> base_inv cfg initial_mstate.
Proof.
  intros Hcfg. pose proof (mc_sessions _ Hcfg). pose proof (mc_history _ Hcfg). pose proof (mc_limits _ Hcfg).
  split; cbn; try done; try lia.
  - split; cbn; try done; lia.
  - intros id. split; [by intros ?%elem_of_nil|by intros (? & ? & _)].
  - constructor.
  - rewrite map_size_empty. lia.
  - intros id [[? ?]|[[? ?]|[? ?]]]; done.
Qed.

(** *** Every step *)

(** No step but the finalization of a session lengthens the list of retained
    sessions, and finalization keeps it within the limit. *)
Definition retained_bounded (cfg : ManagerConfig) (m m' : Manager) : Prop :=
  (length (retainedExited m') <= length (retainedExited m))%nat \/
  (len (retainedExited m) <= MaxRetainedSessions cfg -> len (retainedExited m') <= MaxRetainedSessions cfg).

Lemma retained_same cfg m m' : retainedExited m' = retainedExited m -> retained_bounded cfg m m'.
Proof. intros E. left. by rewrite E. Qed.

Lemma remove_first_length id l : (length (remove_first id l) <= length l)%nat.
Proof. induction l as [|x l IH]; cbn; [done|]. destruct (x =? id); cbn; lia. Qed.

Lemma open_admit_retained cfg ctx spec m : retainedExited (open_admit cfg ctx spec m).2 = retainedExited m.
Proof. unfold open_admit. by repeat case_match. Qed.

Lemma open_commit_retained cfg id sz now m : retainedExited (open_commit cfg id sz now m).2 = retainedExited m.
Proof.
  unfold open_commit. destruct (_ || _); [done|]. destruct (emit _ _) as [f m1] eqn:E.
  by apply emit_eq in E as (o & -> & _).
Qed.

Lemma publish_retained cfg id data m : retainedExited (publish cfg id data m).2 = retainedExited m.
Proof.
  unfold publish. destruct (sessions m !! id); [|done]. destruct (publish_history _ _ _ _ _ _) as [ss h].
  destruct (ss !! id); [|done]. destruct (emit _ _) as [f m1] eqn:E. by apply emit_eq in E as (o & -> & _).
Qed.

Lemma attach_retained cfg ended o id m : retainedExited (attach cfg ended o id m).2 = retainedExited m.
Proof.
  unfold attach. destruct (closing m); [done|]. destruct (sessions m !! id); [|done].
  destruct (_ && _); [done|]. destruct (_ <=? _); [done|]. destruct (_ <? _); [done|]. destruct (_ =? 0); [done|].
  destruct (attach_replay _ _). destruct (attach_start _ _ _ _ _); [|done].
  destruct (emit _ _) as [f m1] eqn:E. by apply emit_eq in E as (? & -> & _).
Qed.

Lemma detach_retained gone id aid reason m :
  retainedExited (recordAttachmentClose gone id aid reason m) = retainedExited m.
Proof.
  unfold recordAttachmentClose. cbn [sessions with_closures].
  destruct (sessions m !! id); match goal with |- context [(emit ?e ?m).2] => destruct (emit_snd e m) as (? & -> & _) end; done.
Qed.

Lemma run_exited_retained id status m : retainedExited (run_exited id status m) = retainedExited m.
Proof.
  unfold run_exited. destruct (sessions m !! id); [|done].
  match goal with |- context [(emit ?e ?m).2] => destruct (emit_snd e m) as (? & -> & _) end. done.
Qed.

Lemma finish_removal_retained r m : (length (retainedExited (finish_removal r m)) <= length (retainedExited m))%nat.
Proof.
  unfold finish_removal. destruct (sessions m !! _); [|done]. destruct (negb _); [done|].
  match goal with |- context [(emit ?e ?m).2] => destruct (emit_snd e m) as (? & -> & _) end.
  destruct (bool_decide _); apply remove_first_length.
Qed.

Lemma remove_begin_shape id r m st cfg :
  remove_begin id (mgr st) = (inl r, m) -> base_inv cfg st ->
  exists s, sessions (mgr st) !! id = Some s /\ s_retained s = true /\
    beginRetainedRemoval s AttachmentSessionRemoved EventRemoved (mgr st) = Some (r, m).
Proof.
  unfold remove_begin. destruct (closing (mgr st)); [done|]. destruct (sessions (mgr st) !! id) as [s|]; [|done].
  destruct (active s); [done|]. destruct (beginRetainedRemoval _ _ _ _) as [[r' m']|] eqn:E; [|done].
  intros [= <- <-] I. exists s. split_and!; try done. unfold beginRetainedRemoval in E.
  destruct (s_retained s); [done|]. done.
Qed.

Lemma subscribe_retained cfg m : retainedExited (subscribe cfg m).2 = retainedExited m.
Proof. unfold subscribe. by repeat case_match. Qed.

Lemma step_inv cfg st st' :
  manager_config_ok cfg -> base_inv cfg st -> m_step cfg st st' ->
  base_inv cfg st' /\ retained_bounded cfg (mgr st) (mgr st').
Proof.
  intros Hcfg I H. destruct H.
  - pose proof (open_admit_retained cfg ctx spec (mgr st)) as R. pose proof (open_admit_ok cfg ctx spec _ _ _ H I) as Hi.
    rewrite H in R. split; [exact Hi|by apply retained_same].
  - pose proof (open_admit_retained cfg ctx spec (mgr st)) as R. pose proof (open_admit_ok cfg ctx spec _ _ _ H I) as Hi.
    rewrite H in R. split; [apply Hi|by apply retained_same].
  - split; [|by apply retained_same]. eapply open_failed_ok; [done..|cbn; lia].
  - split; [|by apply retained_same]. by apply open_started_ok.
  - split; [|by apply retained_same]. eapply open_failed_ok; [done..|cbn; lia].
  - split; [|by apply retained_same]. by apply reaped_ok.
  - pose proof (open_commit_retained cfg id sz now (mgr st)) as R. rewrite H0 in R.
    split; [exact (open_commit_ok cfg Hcfg _ _ _ _ _ _ _ I H H0)|by apply retained_same].
  - pose proof (open_commit_retained cfg id sz now (mgr st)) as R. rewrite H0 in R.
    split; [apply (open_commit_ok cfg Hcfg _ _ _ _ _ _ _ I H H0)|by apply retained_same].
  - split; [|apply retained_same, publish_retained]. pose proof (so_sequence _ _ _ _ (bi_sess _ _ I _ _ H0)).
    eapply publish_ok; [done..|lia|done].
  - pose proof (attach_retained cfg ended o id (mgr st)) as R. rewrite H in R.
    split; [|by apply retained_same]. apply base_inv_workers, base_inv_handles. by eapply attach_ok.
  - pose proof (attach_retained cfg ended o id (mgr st)) as R. rewrite H in R.
    split; [|by apply retained_same]. by eapply attach_ok.
  - split; [|apply retained_same, detach_retained]. apply base_inv_handles. by apply detach_ok.
  - split; [by apply base_inv_workers, run_exited_ok|apply retained_same, run_exited_retained].
  - destruct (run_finalize_any cfg Hcfg id st I H fuel l m H0) as (Hi & Hr & _). split; [exact Hi|by right].
  - split; [by apply finish_removal_ok|left; apply finish_removal_retained].
  - split; [by apply run_return_ok|by apply retained_same].
  - destruct (remove_begin_shape _ _ _ _ _ H I) as (s & Hs & Hr & E).
    destruct (begin_removal_ok cfg Hcfg id s AttachmentSessionRemoved EventRemoved None st I Hs Hr) as (r' & m' & E' & _ & Hret & Hi & _).
    rewrite E in E'. injection E' as <- <-. split; [exact Hi|]. left. cbn. rewrite Hret. apply remove_first_length.
  - pose proof (subscribe_ok cfg st I) as Hi. pose proof (subscribe_retained cfg (mgr st)) as R. rewrite H in Hi, R.
    split; [by apply base_inv_workers|by apply retained_same].
  - pose proof (subscribe_ok cfg st I) as Hi. pose proof (subscribe_retained cfg (mgr st)) as R. rewrite H in Hi, R.
    split; [done|by apply retained_same].
  - split; [by apply unsubscribe_ok|by apply retained_same].
  - split; [by apply observer_closed_ok|by apply retained_same].
  - split; [by apply resized_ok|]. apply retained_same. cbn. unfold resized. by repeat case_match.
  - split; [by apply kill_ok|]. apply retained_same. cbn. unfold kill_section. by repeat case_match.
  - split; [by apply close_begin_ok|by apply retained_same].
  - split; [by apply close_end_ok|left; cbn; lia].
  - split; [by apply base_inv_workers|by apply retained_same].
  - split; [by apply base_inv_workers|by apply retained_same].
  - split; [by apply base_inv_workers|by apply retained_same].
  - split; [by apply base_inv_workers|by apply retained_same].
Qed.

Lemma m_reachable_inv cfg st : manager_config_ok cfg -> m_reachable cfg st -> registry_inv cfg st.
Proof.
  intros Hcfg. induction 1 as [|st st' Hr [IH1 IH2] Hs].
  - split; [by apply initial_base_inv|]. cbn. by apply max_retained_nonneg.
  - destruct (step_inv _ _ _ Hcfg IH1 Hs) as [I [Hb|Hb]]; (split; [done|]); [unfold len in *; lia|auto].
Qed.

(** ** The life of a session, and the generation *)

Definition rank (s : SessionState) : Z :=
  match s with SessionStarting => 0 | SessionRunning => 1 | SessionStopping => 2 | SessionExited | SessionFailed => 3 end.

(** What may happen to a registered session in one step. *)
Record session_le (s s' : Session) : Prop := {
  le_id : s_id s' = s_id s;
  le_started : s_startedAt s' = s_startedAt s;
  le_state : rank (s_state s) <= rank (s_state s');
  le_exit : is_Some (s_exit s) -> s_exit s' = s_exit s;
  le_sequence : s_lastSequence s <= s_lastSequence s' <= s_lastSequence s + 1;
  le_frozen : s_state s = SessionExited ->
    s_state s' = SessionExited /\ s_lastSequence s' = s_lastSequence s /\ s_size s' = s_size s;
  le_removing : s_removing s = true -> s_removing s' = true;
}.

Lemma session_le_refl s : session_le s s.
Proof. split; (done || lia). Qed.

Definition same_keys (ss ss' : Sessions) : Prop := forall id, is_Some (ss !! id) <-> is_Some (ss' !! id).

(** One step on the registry: sessions move forward, and the generation changes
    with the set of identifiers. *)
Record moves (m m' : Manager) : Prop := {
  mv_sessions id s s' : sessions m !! id = Some s -> sessions m' !! id = Some s' -> session_le s s';
  mv_generation : generation m' = generation m /\ same_keys (sessions m) (sessions m') \/
    generation m' = u64 (generation m + 1);
}.

Lemma moves_same m m' : sessions m' = sessions m -> generation m' = generation m -> moves m m'.
Proof.
  intros E1 E2. split; rewrite ?E1, ?E2.
  - intros id s s' H H'. simplify_eq. apply session_le_refl.
  - by left.
Qed.

Lemma moves_insert m m' id s s' :
  sessions m !! id = Some s -> sessions m' = <[id := s']> (sessions m) -> session_le s s' ->
  generation m' = generation m \/ generation m' = u64 (generation m + 1) -> moves m m'.
Proof.
  intros Hs E L G. split.
  - intros j t t' Hj Hj'. rewrite E, lookup_insert in Hj'. case_decide; simplify_eq; [done|apply session_le_refl].
  - destruct G as [G|G]; [left|by right]. split; [done|]. intros j. rewrite E, lookup_insert.
    case_decide; [|done]. subst. by rewrite Hs; split; eexists.
Qed.

Lemma moves_delete m m' id :
  sessions m' = delete id (sessions m) -> generation m' = u64 (generation m + 1) -> moves m m'.
Proof.
  intros E G. split; [|by right]. intros j s s' Hj Hj'. rewrite E in Hj'.
  apply lookup_delete_Some in Hj' as [_ Hj']. simplify_eq. apply session_le_refl.
Qed.

(** Replaces the emission whose Manager the goal mentions. *)
Ltac unemit :=
  match goal with
  | |- context [(emit ?e ?m).2] =>
      let o := fresh "obs" in let H := fresh "Hobs" in destruct (emit_snd e m) as (o & -> & H)
  end.

Lemma run_exited_moves id status m :
  (forall s, sessions m !! id = Some s -> active s = true /\ s_exit s = None) -> moves m (run_exited id status m).
Proof.
  intros Ha. unfold run_exited. destruct (sessions m !! id) as [s|] eqn:Es; [|by apply moves_same].
  destruct (Ha s eq_refl) as [Hact Hx]. unemit. eapply moves_insert; [done|reflexivity| |by left].
  split; cbn; [done|done|by destruct (s_state s)|rewrite Hx; by intros []|lia| |done].
  intros Hst. unfold active in Hact. by rewrite Hst in Hact.
Qed.

Lemma evicting_le s : session_le s (evicting s).
Proof. split; cbn; try done; lia. Qed.

Lemma evicted_moves cfg m l m' : evicted cfg m l m' -> moves m m'.
Proof.
  intros []. split.
  - intros j s s' Hj Hj'. rewrite ev_sessions0 in Hj'. case_decide; [|simplify_eq; apply session_le_refl].
    rewrite Hj in Hj'. cbn in Hj'. simplify_eq. apply evicting_le.
  - left. split; [done|]. intros j. rewrite ev_sessions0. case_decide; [|done].
    destruct (sessions m !! j); cbn; split; intros [? ?]; (done || by eexists).
Qed.

Lemma publish_moves cfg id s data st :
  manager_config_ok cfg -> base_inv cfg st -> pcs st !! id = Some PRun -> sessions (mgr st) !! id = Some s ->
  s_lastSequence s < 2 ^ 64 - 1 -> nextHistory (hist (mgr st)) < 2 ^ 64 - 1 ->
  moves (mgr st) (publish cfg id data (mgr st)).2.
Proof.
  intros Hcfg I Hp Hs Hl Hn. pose proof (bi_sess _ _ I _ _ Hs) as O. pose proof (so_sequence _ _ _ _ O).
  destruct (so_running _ _ _ _ O Hp) as (Ha & _).
  unfold publish. rewrite Hs.
  pose proof (publish_history_spec' cfg id s data (sessions (mgr st)) (hist (mgr st)) Hcfg (bi_hist _ _ I) Hs
    ltac:(lia) Hn) as P.
  destruct (publish_history _ _ _ _ _ _) as [ss h]. destruct P as [_ Psess Pback _ _].
  destruct (Psess _ _ Hs) as (s1 & Hs1 & _ & Es1). rewrite Hs1.
  destruct (emit _ _) as [f m1] eqn:Ee. apply emit_eq in Ee as (o & -> & _). cbn [snd].
  split.
  - intros j t t' Hj Hj'. cbn in Hj'. rewrite lookup_insert in Hj'. case_decide; simplify_eq.
    + rewrite Z.eqb_refl in Es1. rewrite Es1. split; cbn; try done; try lia.
      intros Hst. unfold active in Ha. by rewrite Hst in Ha.
    + destruct (Psess _ _ Hj) as (t1 & Hj1 & _ & Et). simplify_eq. rewrite (proj2 (Z.eqb_neq _ _)) in Et by congruence.
      rewrite Et. split; cbn; (done || lia).
  - left. split; [done|]. intros j. cbn. rewrite lookup_insert. case_decide; [subst; by rewrite Hs; split; eexists|].
    split; [intros [t Hj]; destruct (Psess _ _ Hj) as (t1 & -> & _); by eexists|intros [t Hj]; eauto].
Qed.

Lemma attach_moves cfg ended o id m : moves m (attach cfg ended o id m).2.
Proof.
  unfold attach. destruct (closing m); [by apply moves_same|].
  destruct (sessions m !! id) as [s|] eqn:Es; [|by apply moves_same].
  destruct (_ && _); [by apply moves_same|]. destruct (_ <=? _); [by apply moves_same|].
  destruct (_ <? _); [by apply moves_same|]. destruct (_ =? 0); [by apply moves_same|].
  destruct (attach_replay _ _). destruct (attach_start _ _ _ _ _); [|by apply moves_same].
  destruct (emit _ _) as [f m1] eqn:E. apply emit_eq in E as (? & -> & _).
  eapply moves_insert; [done|reflexivity| |by left]. split; cbn; (done || lia).
Qed.

Lemma detach_moves gone id aid reason m : moves m (recordAttachmentClose gone id aid reason m).
Proof.
  unfold recordAttachmentClose. cbn [sessions with_closures].
  destruct (sessions m !! id) as [s|] eqn:Es; unemit; [|by apply moves_same].
  eapply moves_insert; [done|reflexivity| |by left]. split; cbn; (done || lia).
Qed.

Lemma finish_removal_moves r m :
  (forall s, sessions m !! rr_session r = Some s -> s_id s = rr_session r) -> moves m (finish_removal r m).
Proof.
  intros Hid. unfold finish_removal. destruct (sessions m !! _) as [s|]; [|by apply moves_same].
  destruct (negb _); [by apply moves_same|]. unemit.
  apply (moves_delete _ _ (rr_session r)); destruct (bool_decide _); cbn; rewrite ?(Hid s eq_refl); done.
Qed.

Lemma run_finalize_moves cfg fuel id l m st :
  manager_config_ok cfg -> base_inv cfg st -> pcs st !! id = Some PDrain ->
  run_finalize fuel cfg id (mgr st) = Some (l, m) -> moves (mgr st) m.
Proof.
  intros Hcfg I Hp E. destruct (run_finalize_any cfg Hcfg id st I Hp _ _ _ E) as (_ & _ & E').
  destruct (run_finalize_ok cfg Hcfg id st I Hp (fuel + S (S (length (retainedExited (mgr st))))) ltac:(lia))
    as (l2 & m2 & E2 & _ & _ & Hshape). rewrite E' in E2. injection E2 as <- <-.
  destruct (_ && _); [|destruct Hshape as (_ & ? & _ & ?); by eapply moves_delete].
  destruct Hshape as (m1 & _ & Ev & (s & Hs & Hst & Hs') & Hg & Hne). destruct Ev as [_ _ _ Es Eg].
  split; [|right; by rewrite Eg]. intros j t t' Hj Hj'. rewrite Es in Hj'. destruct (decide (j = id)) as [->|Hn].
  - rewrite Hs' in Hj'. simplify_eq. case_decide; simplify_eq/=; split; cbn; (done || lia).
  - rewrite (Hne _ Hn), Hj in Hj'. case_decide; simplify_eq/=; [apply evicting_le|apply session_le_refl].
Qed.

Lemma stopping_le s : s_state s = SessionRunning ->
  session_le s (set_lifecycle SessionStopping (s_exit s) (s_retained s) (s_removing s) s).
Proof. intros Hs. split; cbn; rewrite ?Hs; try done; lia. Qed.

Lemma open_admit_frame cfg ctx spec m :
  sessions (open_admit cfg ctx spec m).2 = sessions m /\ generation (open_admit cfg ctx spec m).2 = generation m.
Proof. unfold open_admit. by repeat case_match. Qed.

Lemma open_commit_moves cfg id sz now ok failed m st :
  base_inv cfg st -> opening st !! id = Some (sz, true) ->
  open_commit cfg id sz now (mgr st) = (ok, failed, m) -> moves (mgr st) m.
Proof.
  intros I Ho E. destruct (bi_opening _ _ I id ltac:(by eexists)) as [Hn _]. unfold open_commit in E.
  destruct (_ || _); [injection E as _ _ <-; by apply moves_same|].
  destruct (emit _ _) as [f m1] eqn:Ee. apply emit_eq in Ee as (o & -> & _). injection E as _ _ <-.
  split; cbn; [|by right]. intros j s s' Hj Hj'. rewrite lookup_insert in Hj'.
  case_decide; simplify_eq. apply session_le_refl.
Qed.

Lemma step_moves cfg st st' :
  manager_config_ok cfg -> m_reachable cfg st -> m_step cfg st st' -> moves (mgr st) (mgr st').
Proof.
  intros Hcfg Hr H. destruct (m_reachable_inv _ _ Hcfg Hr) as [I _]. clear Hr. destruct H; cbn [mgr set_mgr set_opening set_pcs set_handles set_waiting set_workers].
  - destruct (open_admit_frame cfg ctx spec (mgr st)) as [E1 E2]. rewrite H in E1, E2. by apply moves_same.
  - destruct (open_admit_frame cfg ctx spec (mgr st)) as [E1 E2]. rewrite H in E1, E2. by apply moves_same.
  - by apply moves_same.
  - by apply moves_same.
  - by apply moves_same.
  - by apply moves_same.
  - by eapply open_commit_moves.
  - by eapply open_commit_moves.
  - by eapply publish_moves.
  - pose proof (attach_moves cfg ended o id (mgr st)) as M. by rewrite H in M.
  - pose proof (attach_moves cfg ended o id (mgr st)) as M. by rewrite H in M.
  - apply detach_moves.
  - apply run_exited_moves. intros s Hs. pose proof (bi_sess _ _ I _ _ Hs) as O.
    destruct (so_running _ _ _ _ O H) as (? & ? & _). done.
  - by eapply run_finalize_moves.
  - apply finish_removal_moves. intros s Hs. apply (bi_sess _ _ I _ _ Hs).
  - by apply moves_same.
  - destruct (remove_begin_shape _ _ _ _ _ H I) as (s & Hs & Hrt & E).
    pose proof (bi_sess _ _ I _ _ Hs) as O. unfold beginRetainedRemoval in E. destruct (_ || _); [done|].
    injection E as _ <-. eapply moves_insert; [done|cbn; by rewrite (so_id _ _ _ _ O)|apply evicting_le|by left].
  - unfold subscribe in H. repeat case_match; simplify_eq; by apply moves_same.
  - unfold subscribe in H. repeat case_match; simplify_eq; by apply moves_same.
  - by apply moves_same.
  - by apply moves_same.
  - unfold resized. destruct (sessions (mgr st) !! id) as [s|] eqn:Es; [|by apply moves_same].
    case_bool_decide as Hst; [|by apply moves_same]. eapply moves_insert; [done|reflexivity| |by left].
    split; cbn; try done; [lia|congruence].
  - unfold kill_section. destruct (sessions (mgr st) !! id) as [s|] eqn:Es; [|by apply moves_same].
    cbn [snd]. case_bool_decide as Hst; [|by apply moves_same]. eapply moves_insert; [done|reflexivity|by apply stopping_le|by left].
  - split; cbn.
    + intros j s s' Hj Hj'. rewrite lookup_fmap, Hj in Hj'. cbn in Hj'. simplify_eq.
      case_bool_decide; [by apply stopping_le|apply session_le_refl].
    + left. split; [done|]. intros j. rewrite lookup_fmap. by destruct (sessions (mgr st) !! j); cbn; split; intros [? ?]; eexists.
  - split; cbn; [|by right]. intros j s s' _ Hj. by rewrite lookup_empty in Hj.
  - by apply moves_same.
  - by apply moves_same.
  - by apply moves_same.
  - by apply moves_same.
Qed.
