(* ===== verification/ManagerSpec.v ===== *)
(** pty/manager.go: what the Manager promises, for every reachable state of
    ManagerRun.v: limits, accounting of processes, retention, shutdown, and the
    delivery of output to attachments and observers. *)

From S2P Require Import Prelude Errors BigEndian PtyTypes Attachment Subscription History Manager ManagerRun.

(** ** Executable steps, for concrete executions *)

Section Executions.
Context (cfg : ManagerConfig).

Definition do_open (spec : ProcessSpec) (st : MState) : MState :=
  match open_admit cfg true spec (mgr st) with
  | (inl id, m) => set_opening (<[id := (InitialSize spec, false)]> (opening st)) (reaping st) (set_mgr m st)
  | (inr _, m) => set_mgr m st
  end.

Definition do_start (id : Z) (st : MState) : MState :=
  match opening st !! id with
  | Some (sz, false) => set_opening (<[id := (sz, true)]> (opening st)) (reaping st) (set_mgr (open_started (mgr st)) st)
  | _ => st
  end.

Definition do_commit (id : Z) (st : MState) : MState :=
  match opening st !! id with
  | Some (sz, true) =>
      match open_commit cfg id sz 0 (mgr st) with
      | (true, _, m) => set_pcs (<[id := PRun]> (pcs st)) (removals st)
                          (set_opening (delete id (opening st)) (reaping st) (set_mgr m st))
      | (false, _, m) => set_opening (delete id (opening st)) (reaping st + 1) (set_mgr m st)
      end
  | _ => st
  end.

Definition do_output (id : Z) (data : list byte) (st : MState) : MState :=
  match pcs st !! id, sessions (mgr st) !! id with
  | Some PRun, Some s =>
      if (s_lastSequence s <? 2 ^ 64 - 1) && (nextHistory (hist (mgr st)) <? 2 ^ 64 - 1)
      then set_mgr (publish cfg id data (mgr st)).2 st else st
  | _, _ => st
  end.

Definition do_attach (o : AttachOptions) (id : Z) (st : MState) : MState :=
  match attach cfg None o id (mgr st) with
  | (inl (aid, _, _), m) =>
      set_workers (set_attachment aid AWorking (workers st)) (set_handles (<[aid := id]> (handles st)) (set_mgr m st))
  | (inr _, m) => set_mgr m st
  end.

(** The worker of an attachment finishes it, for a reason of its own, and returns. *)
Definition do_end (aid : Z) (reason : AttachmentCloseReason) (gone : SessionInfo) (st : MState) : MState :=
  match handles st !! aid, wk_attachments (workers st) !! aid with
  | Some id, Some AWorking =>
      if decide (reason ∈ outside_reasons) then
        let st := set_workers (set_attachment aid (AFinished reason) (workers st)) st in
        let st := set_handles (delete aid (handles st)) (set_mgr (recordAttachmentClose gone id aid reason (mgr st)) st) in
        set_workers (set_attachment aid (AReturned reason) (workers st)) st
      else st
  | _, _ => st
  end.

Definition do_exit (id : Z) (status : ExitStatus) (st : MState) : MState :=
  match pcs st !! id with
  | Some PRun =>
      set_workers (set_snapshot id (attached id (mgr st)) (workers st))
        (set_pcs (<[id := PDrain]> (pcs st)) (removals st) (set_mgr (run_exited id status (mgr st)) st))
  | _ => st
  end.

Definition do_finalize (id : Z) (st : MState) : MState :=
  match pcs st !! id, run_finalize 10 cfg id (mgr st) with
  | Some PDrain, Some (l, m) =>
      if decide (Forall (att_done (workers st)) (snapshot (workers st) id))
      then set_pcs (<[id := PEvict]> (pcs st)) (removals st ++ (pair (Some id) <$> l)) (set_mgr m st) else st
  | _, _ => st
  end.

Definition do_finish (st : MState) : MState :=
  match removals st with
  | (_, r) :: rest =>
      if decide (Forall (att_done (workers st)) (rr_attachments r))
      then set_pcs (pcs st) rest (set_mgr (finish_removal r (mgr st)) st) else st
  | [] => st
  end.

Definition do_return (id : Z) (st : MState) : MState :=
  match pcs st !! id with
  | Some PEvict => if decide (Some id ∈ (removals st).*1) then st else set_pcs (delete id (pcs st)) (removals st) st
  | _ => st
  end.

Definition do_close_begin (st : MState) : MState :=
  match waiting st with
  | None => set_waiting (Some (map_to_list (sessions (mgr st))).*1) false (set_mgr (close_begin (mgr st)).2 st)
  | Some _ => st
  end.

Definition do_close_end (st : MState) : MState :=
  match waiting st with
  | Some l =>
      if decide (closed st = false /\ opening st = ∅ /\ reaping st = 0 /\ Forall (fun id => pcs st !! id = None) l /\
                 workers_over (workers st))
      then set_waiting (Some l) true (set_mgr (close_end (mgr st)) st) else st
  | None => st
  end.

Lemma do_open_ok spec st : m_reachable cfg st -> m_reachable cfg (do_open spec st).
Proof.
  intros R. unfold do_open. destruct (open_admit _ _ _ _) as [[id|e] m] eqn:E; (eapply mr_step; [exact R|]).
  - by eapply ms_open.
  - by eapply ms_open_refused.
Qed.
Lemma do_start_ok id st : m_reachable cfg st -> m_reachable cfg (do_start id st).
Proof.
  intros R. unfold do_start. destruct (opening st !! id) as [[sz []]|] eqn:E; try done.
  eapply mr_step; [exact R|]. by apply ms_started.
Qed.
Lemma do_commit_ok id st : m_reachable cfg st -> m_reachable cfg (do_commit id st).
Proof.
  intros R. unfold do_commit. destruct (opening st !! id) as [[sz []]|] eqn:E; try done.
  destruct (open_commit _ _ _ _ _) as [[[] f] m] eqn:Ec; (eapply mr_step; [exact R|]).
  - by eapply ms_commit.
  - by eapply ms_commit_refused.
Qed.
Lemma do_output_ok id data st : m_reachable cfg st -> m_reachable cfg (do_output id data st).
Proof.
  intros R. unfold do_output. destruct (pcs st !! id) as [[]|] eqn:E; try done.
  destruct (sessions (mgr st) !! id) eqn:Es; [|done]. destruct (_ && _) eqn:El; [|done]. reflect_bools.
  eapply mr_step; [exact R|]. by eapply ms_output.
Qed.
Lemma do_attach_ok o id st : m_reachable cfg st -> m_reachable cfg (do_attach o id st).
Proof.
  intros R. unfold do_attach. destruct (attach _ _ _ _ _) as [[[[aid r] f]|e] m] eqn:E; (eapply mr_step; [exact R|]).
  - by eapply ms_attach.
  - by eapply ms_attach_refused.
Qed.
Lemma do_end_ok aid reason gone st : m_reachable cfg st -> m_reachable cfg (do_end aid reason gone st).
Proof.
  intros R. unfold do_end. destruct (handles st !! aid) as [id|] eqn:Eh; [|done].
  destruct (wk_attachments (workers st) !! aid) as [[| |]|] eqn:Ew; try done.
  destruct (decide _) as [Hin|]; [|done]. cbv zeta. set (st1 := set_workers (set_attachment aid (AFinished reason) _) st).
  assert (wk_attachments (workers st1) !! aid = Some (AFinished reason)) as E1 by apply lookup_insert_eq.
  eapply mr_step; [|by apply (ms_worker_return cfg aid reason)].
  eapply mr_step; [|by apply ms_detach; [exact Eh|left]]. eapply mr_step; [exact R|]. by apply ms_finish; [|right].
Qed.
Lemma do_exit_ok id status st : m_reachable cfg st -> m_reachable cfg (do_exit id status st).
Proof.
  intros R. unfold do_exit. destruct (pcs st !! id) as [[]|] eqn:E; try done.
  eapply mr_step; [exact R|]. by apply ms_exit.
Qed.
Lemma do_finalize_ok id st : m_reachable cfg st -> m_reachable cfg (do_finalize id st).
Proof.
  intros R. unfold do_finalize. destruct (pcs st !! id) as [[]|] eqn:E; try done.
  destruct (run_finalize _ _ _ _) as [[l m]|] eqn:Ef; [|done]. destruct (decide _); [|done].
  eapply mr_step; [exact R|]. by eapply ms_finalize.
Qed.
Lemma do_finish_ok st : m_reachable cfg st -> m_reachable cfg (do_finish st).
Proof.
  intros R. unfold do_finish. destruct (removals st) as [|[o r] rest] eqn:E; [done|]. destruct (decide _); [|done].
  eapply mr_step; [exact R|]. apply ms_finish_removal; [|done]. rewrite E. exists [], o, rest.
  split_and!; try done. intros _. apply not_elem_of_nil.
Qed.
Lemma do_return_ok id st : m_reachable cfg st -> m_reachable cfg (do_return id st).
Proof.
  intros R. unfold do_return. destruct (pcs st !! id) as [[]|] eqn:E; try done.
  destruct (decide _); [done|]. eapply mr_step; [exact R|]. by apply ms_run_return.
Qed.
Lemma do_close_begin_ok st : m_reachable cfg st -> m_reachable cfg (do_close_begin st).
Proof.
  intros R. unfold do_close_begin. destruct (waiting st) eqn:E; [done|].
  eapply mr_step; [exact R|]. by apply ms_close_begin.
Qed.
Lemma do_close_end_ok st : m_reachable cfg st -> m_reachable cfg (do_close_end st).
Proof.
  intros R. unfold do_close_end. destruct (waiting st) as [l|] eqn:E; [|done].
  destruct (decide _) as [(? & ? & ? & Hf & ?)|]; [|done]. rewrite Forall_forall in Hf.
  eapply mr_step; [exact R|]. by apply ms_close_end.
Qed.

End Executions.

(** An execution is reachable by its steps. *)
Ltac reach :=
  lazymatch goal with
  | |- m_reachable _ initial_mstate => apply mr_init
  | |- m_reachable _ (do_open _ _ _) => apply do_open_ok; reach
  | |- m_reachable _ (do_start _ _) => apply do_start_ok; reach
  | |- m_reachable _ (do_commit _ _ _) => apply do_commit_ok; reach
  | |- m_reachable _ (do_output _ _ _ _) => apply do_output_ok; reach
  | |- m_reachable _ (do_attach _ _ _ _) => apply do_attach_ok; reach
  | |- m_reachable _ (do_end _ _ _ _) => apply do_end_ok; reach
  | |- m_reachable _ (do_exit _ _ _) => apply do_exit_ok; reach
  | |- m_reachable _ (do_finalize _ _ _) => apply do_finalize_ok; reach
  | |- m_reachable _ (do_finish _) => apply do_finish_ok; reach
  | |- m_reachable _ (do_return _ _) => apply do_return_ok; reach
  | |- m_reachable _ (do_close_begin _) => apply do_close_begin_ok; reach
  | |- m_reachable _ (do_close_end _) => apply do_close_end_ok; reach
  end.

(** ** A concrete execution: two sessions, the first one retained and evicted *)

Definition demo_spec : ProcessSpec := mkProcessSpec "sh" [] None "" (mkSize 80 24).
Definition demo_exit : ExitStatus := mkExitStatus ExitReasonExited 0 "" None.

Definition exec_open (id : Z) (st : MState) : MState :=
  do_commit demo_hist_cfg id (do_start id (do_open demo_hist_cfg demo_spec st)).

(** Session 1 has produced output, has an attachment, and runs. *)
Definition demo_running : MState :=
  do_output demo_hist_cfg 1 [Byte.x62] (do_attach demo_hist_cfg (mkAttachOptions ReplayHistory 0 false) 1
    (do_output demo_hist_cfg 1 [Byte.x61] (exec_open 1 initial_mstate))).

(** What [recordAttachmentClose] is told of a session that is gone; here none is. *)
Definition demo_gone : SessionInfo := infoLocked (new_session 1).

(** Session 1 is retained; session 2 has ended and waits for its attachments. *)
Definition demo_draining : MState :=
  do_exit 2 demo_exit (exec_open 2 (do_return 1 (do_finalize demo_hist_cfg 1
    (do_end 1 AttachmentSessionExited demo_gone (do_exit 1 demo_exit demo_running))))).

(** The Manager has been closed. *)
Definition demo_closed : MState :=
  do_close_end (do_close_begin (do_return 2 (do_finish (do_finalize demo_hist_cfg 2 demo_draining)))).

Lemma demo_running_reachable : m_reachable demo_hist_cfg demo_running.
Proof. unfold demo_running, exec_open. reach. Qed.
Lemma demo_draining_reachable : m_reachable demo_hist_cfg demo_draining.
Proof. unfold demo_draining, demo_running, exec_open. reach. Qed.
Lemma demo_mclosed_reachable : m_reachable demo_hist_cfg demo_closed.
Proof. unfold demo_closed, demo_draining, demo_running, exec_open. reach. Qed.

Example demo_running_sessions :
  (fun s => (s_state s, s_lastSequence s, Z.of_nat (size (s_attachments s)))) <$> sessions (mgr demo_running) !! 1
    = Some (SessionRunning, 2, 1).
Proof. vm_compute. reflexivity. Qed.
Example demo_draining_sessions :
  retainedExited (mgr demo_draining) = [1] /\ pcs demo_draining !! 2 = Some PDrain.
Proof. vm_compute. split; reflexivity. Qed.
Example demo_closed_closed : closed demo_closed = true.
Proof. vm_compute. reflexivity. Qed.

(** [Done] does not wait for the statistics. When another goroutine closes an
    attachment its worker sees that and returns, with [Done] closed, while that
    goroutine has still to record the close: the attachment is still registered
    and its close is not counted. *)
Theorem done_before_recorded : exists st, m_reachable demo_hist_cfg st /\
  wk_attachments (workers st) !! 1 = Some (AReturned AttachmentClosedExplicitly) /\
  handles st !! 1 = Some 1 /\ attachmentClosures (mgr st) AttachmentClosedExplicitly = 0.
Proof.
  set (st := set_workers (set_attachment 1 (AFinished AttachmentClosedExplicitly) (workers demo_running)) demo_running).
  exists (set_workers (set_attachment 1 (AReturned AttachmentClosedExplicitly) (workers st)) st). split.
  - eapply mr_step; [|by apply ms_worker_return]. eapply mr_step; [apply demo_running_reachable|].
    apply ms_finish; [vm_compute; reflexivity|right; left].
  - split_and!; vm_compute; reflexivity.
Qed.

(** ** Limits and registry *)

(** C5. The Manager's registry invariant holds in every reachable state. The
    running, stopping and starting sessions together never exceed MaxSessions and
    the counters agree with the registered sessions; retained sessions are the
    registered ones marked so, without duplicates and within
    MaxRetainedSessions; attachments and observers stay within their limits; a
    session has an exit status exactly when its process has ended; a session
    being removed has a pending removal; and the history is within both byte
    limits. *)
Theorem manager_registry cfg st : manager_config_ok cfg -> m_reachable cfg st -> registry_inv cfg st.
Proof. apply m_reachable_inv. Qed.

Lemma manager_registry_witness :
  registry_inv demo_hist_cfg demo_draining /\ activeSessions (mgr demo_draining) = 0 /\
  retainedExited (mgr demo_draining) = [1].
Proof.
  split; [exact (manager_registry demo_hist_cfg demo_draining demo_hist_cfg_ok demo_draining_reachable)|].
  vm_compute. split; reflexivity.
Defined.

(** An admitted [Open] is not refused later. Once [Open] has reserved its
    place, the session limit cannot make its last critical section fail: it
    registers the session unless the Manager is closing, so the process it
    started is killed only then. *)
Theorem open_admission_holds cfg st id sz now :
  manager_config_ok cfg -> m_reachable cfg st -> opening st !! id = Some (sz, true) ->
  exists failed m, open_commit cfg id sz now (mgr st) = (negb (closing (mgr st)), failed, m) /\
    (closing (mgr st) = false -> exists s, sessions m !! id = Some s /\ s_state s = SessionRunning /\ s_size s = sz /\
      s_lastSequence s = 0 /\ s_attachments s = ∅ /\ sessions (mgr st) !! id = None).
Proof.
  intros Hcfg Hr Ho. destruct (m_reachable_inv _ _ Hcfg Hr) as [I _].
  pose proof (bi_starting _ _ I) as Hs. pose proof (bi_max _ _ I). pose proof (opening_delete_size _ _ _ Ho).
  destruct (bi_opening _ _ I id ltac:(by eexists)) as [Hn _].
  unfold open_commit. cbn [closing activeSessions with_active].
  destruct (closing (mgr st)); cbn [orb negb]; [by eexists _, _|]. rewrite (proj2 (Z.leb_gt _ _)) by lia.
  destruct (emit _ _) as [f m1] eqn:Ee. apply emit_eq in Ee as (o & -> & _).
  eexists _, _. split; [reflexivity|]. intros _. eexists. cbn. rewrite lookup_insert_eq. split; [reflexivity|]. done.
Qed.

Definition demo_opening : MState := do_start 1 (do_open demo_hist_cfg demo_spec initial_mstate).

Lemma open_admission_holds_witness :
  exists failed m, open_commit demo_hist_cfg 1 (mkSize 80 24) 0 (mgr demo_opening) = (true, failed, m).
Proof.
  destruct (open_admission_holds demo_hist_cfg demo_opening 1 (mkSize 80 24) 0 demo_hist_cfg_ok) as (f & m & E & _).
  - unfold demo_opening. reach.
  - vm_compute. reflexivity.
  - exists f, m. exact E.
Defined.

(** Session identifiers are never shared. An identifier [Open] allocates is
    positive, follows the last one allocated and belongs to no registered
    session, starting session or running goroutine; and when the counter wraps,
    this call and every later one is refused. *)
Theorem session_ids_fresh cfg st ctx spec r m :
  manager_config_ok cfg -> m_reachable cfg st -> open_admit cfg ctx spec (mgr st) = (r, m) ->
  match r with
  | inl id => id = nextSession (mgr st) + 1 /\ 0 < id < 2 ^ 64 /\ nextSession m = id /\
      sessions (mgr st) !! id = None /\ opening st !! id = None /\ pcs st !! id = None
  | inr _ => sessions m = sessions (mgr st) /\ starting m = starting (mgr st)
  end /\
  (sessionIDExhausted (mgr st) = true -> exists e, r = inr e).
Proof.
  intros Hcfg Hr E. destruct (m_reachable_inv _ _ Hcfg Hr) as [I _].
  pose proof (open_admit_ok cfg ctx spec r m st E I) as H. pose proof (bi_next _ _ I) as Hn.
  unfold open_admit in E. destruct ctx; [|injection E as <- <-; cbn; split; [done|by eexists]]. cbn [negb] in E.
  destruct (ProcessSpec_Validate spec); [injection E as <- <-; cbn; split; [done|by eexists]|].
  destruct (Size_Validate (InitialSize spec)); [injection E as <- <-; cbn; split; [done|by eexists]|].
  destruct (closing (mgr st)); [injection E as <- <-; cbn; split; [done|by eexists]|].
  destruct (_ <=? _); [injection E as <- <-; cbn; split; [done|by eexists]|].
  destruct (sessionIDExhausted (mgr st)); [injection E as <- <-; cbn; split; [done|by eexists]|].
  cbn [nextSession with_ids] in E. destruct (Z.eqb_spec (u64 (nextSession (mgr st) + 1)) 0) as [Hz|Hz];
    injection E as <- <-; [cbn; split; done|].
  destruct (decide (nextSession (mgr st) = 2 ^ 64 - 1)) as [Hw|]; [by rewrite Hw in Hz|].
  rewrite (uwrap_small 64) in * by (unfold fits_u; lia). cbn. destruct H as (_ & Hs & Ho & Hp & _).
  split; [|done]. split_and!; try done; lia.
Qed.

Lemma session_ids_fresh_witness :
  exists m, open_admit demo_hist_cfg true demo_spec (mgr demo_draining) = (inl 3, m) /\ pcs demo_draining !! 3 = None.
Proof.
  destruct (open_admit demo_hist_cfg true demo_spec (mgr demo_draining)) as [r m] eqn:E.
  pose proof (session_ids_fresh demo_hist_cfg demo_draining true demo_spec r m demo_hist_cfg_ok demo_draining_reachable E)
    as [H _]. exists m.
  assert (r = inl 3) as -> by (apply (f_equal fst) in E; vm_compute in E; symmetry; exact E).
  split; [reflexivity|apply H].
Defined.

(** ** Life of a session *)

(** C26. Registry and life cycle. In every step of every execution, a session that
    stays registered moves forward only: its state never goes back, its exit
    status is set once, its last sequence number grows by at most one, and once
    it has exited its size and sequence are final; and the registry's generation
    changes exactly modulo 2^64 by one whenever the set of registered identifiers
    changes, so equal generations of consecutive states mean the same listing
    keys. *)
Theorem session_lifecycle cfg st st' :
  manager_config_ok cfg -> m_reachable cfg st -> m_step cfg st st' -> moves (mgr st) (mgr st').
Proof. apply step_moves. Qed.

Lemma session_lifecycle_witness : moves (mgr demo_running) (mgr (do_exit 1 demo_exit demo_running)).
Proof.
  apply (session_lifecycle demo_hist_cfg demo_running (do_exit 1 demo_exit demo_running) demo_hist_cfg_ok demo_running_reachable).
  assert (pcs demo_running !! 1 = Some PRun) as E by (vm_compute; reflexivity).
  unfold do_exit. rewrite E. exact (ms_exit demo_hist_cfg 1 demo_exit demo_running E).
Defined.

(** ** Processes *)

Lemma map_sumZ_zero {A} (f : A -> Z) (m : gmap Z A) : (forall i x, m !! i = Some x -> f x = 0) -> map_sumZ f m = 0.
Proof.
  induction m as [|i x m Hi IH] using map_ind; intros H; [apply map_sumZ_empty|].
  rewrite map_sumZ_insert_new, (H i x) by (done || apply lookup_insert_eq). rewrite IH; [done|].
  intros j y Hj. apply (H j). rewrite lookup_insert_ne; [done|]. congruence.
Qed.

(** C25. No process is lost. In every reachable state the processes started are
    those whose exit was counted plus those still live (started and not yet
    registered, running, or killed by [Open] and being reaped), modulo the 64-bit
    counters; and when [Close] has returned none is live. *)
Theorem processes_accounted cfg st :
  manager_config_ok cfg -> m_reachable cfg st ->
  processesStarted (mgr st) = u64 (processesExited (mgr st) + live_processes st) /\ 0 <= live_processes st /\
  (closed st = true -> live_processes st = 0).
Proof.
  intros Hcfg Hr. destruct (m_reachable_inv _ _ Hcfg Hr) as [I _]. split; [apply I|].
  pose proof (bi_reaping _ _ I). unfold live_processes.
  assert (0 <= map_sumZ started_count (opening st)) as H1
    by (apply map_sumZ_nonneg; intros; unfold started_count, Z.b2z; case_match; lia).
  assert (0 <= map_sumZ run_count (pcs st)) as H2
    by (apply map_sumZ_nonneg; intros; unfold run_count, Z.b2z; case_match; lia).
  split; [lia|]. intros Hc. destruct (bi_closed _ _ I Hc) as (_ & -> & -> & Hs). rewrite map_sumZ_empty.
  rewrite (map_sumZ_zero run_count); [lia|]. intros j p Hp. unfold run_count. case_bool_decide; [|done]. subst.
  destruct (bi_run _ _ I _ _ Hp ltac:(done)) as [s Hj]. by rewrite Hs, lookup_empty in Hj.
Qed.

Lemma processes_accounted_witness :
  live_processes demo_closed = 0 /\ processesStarted (mgr demo_closed) = 2 /\ processesExited (mgr demo_closed) = 2.
Proof.
  split; [|vm_compute; split; reflexivity].
  pose proof (processes_accounted demo_hist_cfg demo_closed demo_hist_cfg_ok demo_mclosed_reachable) as (_ & _ & H).
  apply H, demo_closed_closed.
Defined.

(** ** Retention and shutdown *)

(** C21. Retention evicts the oldest exited session. When the last critical
    section of [run] is reached, its eviction loop terminates within the fuel
    given; unless the Manager is closing or the policy is to remove, the session
    is retained as the newest, and if that exceeds MaxRetainedSessions exactly
    one session is evicted, the one retained longest, whose removal is handed to
    this goroutine. Otherwise the session leaves the registry and the retained
    list is unchanged. *)
Theorem retention_evicts_oldest cfg st id fuel :
  manager_config_ok cfg -> m_reachable cfg st -> pcs st !! id = Some PDrain ->
  (S (length (retainedExited (mgr st))) < fuel)%nat ->
  exists l m, run_finalize fuel cfg id (mgr st) = Some (l, m) /\
    if negb (closing (mgr st)) && (ExitPolicy cfg =? ExitedSessionRetain) then
      (exists s, sessions m !! id = Some s /\ s_retained s = true /\ s_removing s = false) /\
      if len (retainedExited (mgr st)) <? MaxRetainedSessions cfg
      then l = [] /\ retainedExited m = retainedExited (mgr st) ++ [id]
      else exists oldest rest r s, retainedExited (mgr st) = oldest :: rest /\ l = [r] /\ rr_session r = oldest /\
             rr_kind r = EventEvicted /\ retainedExited m = rest ++ [id] /\
             sessions m !! oldest = Some s /\ s_removing s = true
    else l = [] /\ sessions m !! id = None /\ retainedExited m = retainedExited (mgr st).
Proof.
  intros Hcfg Hr Hp Hf. destruct (m_reachable_inv _ _ Hcfg Hr) as [I Hmax].
  destruct (run_finalize_ok cfg Hcfg id st I Hp fuel Hf) as (l & m & E & Hi & _ & Hshape). exists l, m. split; [done|].
  destruct (negb _ && _) eqn:Epol; [|destruct Hshape as (-> & -> & -> & _); by rewrite lookup_delete_eq].
  apply andb_true_iff in Epol as [_ Hpol%Z.eqb_eq].
  assert (0 < MaxRetainedSessions cfg) as Hpos.
  { destruct (mc_lifecycle _ Hcfg) as [[Hx _]|[_ ?]]; [rewrite Hpol in Hx; done|done]. }
  destruct Hshape as (m1 & Hret & [Eo Ek Ef Es _] & (s & Hs & Hst & Hs1) & _ & Hne).
  assert (id ∉ retainedExited (mgr st)) as Hnin.
  { intros (t & Ht & Hrt)%(bi_retained _ _ I). simplify_eq.
    destruct (so_draining _ _ _ _ (bi_sess _ _ I _ _ Hs) Hp). congruence. }
  pose proof (so_draining _ _ _ _ (bi_sess _ _ I _ _ Hs) Hp) as [_ Hrm].
  assert (excess cfg m1 = if len (retainedExited (mgr st)) <? MaxRetainedSessions cfg then 0%nat else 1%nat) as Hex.
  { unfold excess. rewrite Hret, len_app. change (len [id]) with 1.
    destruct (Z.ltb_spec (len (retainedExited (mgr st))) (MaxRetainedSessions cfg)); lia. }
  rewrite Hret in Eo, Ek, Es. destruct (Z.ltb_spec (len (retainedExited (mgr st))) (MaxRetainedSessions cfg)) as [Hlt|Hge].
  - rewrite Hex in *. cbn in Eo, Ek. apply fmap_nil_inv in Eo as ->. split; [|done].
    exists (retain s). rewrite Es, Hs1. rewrite decide_False by apply not_elem_of_nil. done.
  - rewrite Hex in *. destruct (retainedExited (mgr st)) as [|oldest rest] eqn:Er.
    { rewrite len_nil in Hge. lia. }
    cbn [app take] in Es, Eo. cbn in Ek. apply not_elem_of_cons in Hnin as [Hne1 _].
    split.
    + exists (retain s). rewrite Es, Hs1, decide_False; [done|]. by rewrite list_elem_of_singleton.
    + destruct l as [|r [|]]; [done| |done]. injection Eo as Eo. apply Forall_cons in Ef as [[Hk _] _].
      destruct (proj1 (bi_retained _ _ I oldest) ltac:(rewrite Er; left)) as (t & Ht & _).
      exists oldest, rest, r, (evicting t). split_and!; try done.
      rewrite Es, decide_True by (by rewrite list_elem_of_singleton). by rewrite Hne, Ht.
Qed.

Lemma retention_evicts_oldest_witness :
  exists r m, run_finalize 10 demo_hist_cfg 2 (mgr demo_draining) = Some ([r], m) /\ rr_session r = 1 /\
    retainedExited m = [2].
Proof.
  destruct (retention_evicts_oldest demo_hist_cfg demo_draining 2 10 demo_hist_cfg_ok demo_draining_reachable)
    as (l & m & E & H); [vm_compute; reflexivity|vm_compute; lia|].
  assert (negb (closing (mgr demo_draining)) && (ExitPolicy demo_hist_cfg =? ExitedSessionRetain) = true) as Epol
    by (vm_compute; reflexivity).
  assert ((len (retainedExited (mgr demo_draining)) <? MaxRetainedSessions demo_hist_cfg) = false) as Elen
    by (vm_compute; reflexivity).
  assert (retainedExited (mgr demo_draining) = [1]) as Er by (vm_compute; reflexivity).
  rewrite Epol, Elen, Er in H. destruct H as (_ & oldest & rest & r & s & Hr & -> & Hid & _ & Hm & _).
  injection Hr as <- <-. exists r, m. split; [exact E|]. split; [exact Hid|exact Hm].
Defined.

(** C27. [Close] leaves nothing behind. When it has returned, no session, retained
    session, history byte, starting process or active session remains, and every
    [Open], [Attach], [Remove] and [Subscribe] is refused. *)
Theorem close_is_final cfg st :
  manager_config_ok cfg -> m_reachable cfg st -> closed st = true ->
  sessions (mgr st) = ∅ /\ retainedExited (mgr st) = [] /\ historyBytes (hist (mgr st)) = 0 /\
  activeSessions (mgr st) = 0 /\ starting (mgr st) = 0 /\ opening st = ∅ /\
  (forall ctx spec, exists e m, open_admit cfg ctx spec (mgr st) = (inr e, m)) /\
  (forall ended o id, attach cfg ended o id (mgr st) = (inr ErrSessionNotFound, mgr st)) /\
  (forall id, remove_begin id (mgr st) = (inr ErrManagerClosed, mgr st)) /\
  subscribe cfg (mgr st) = (inr ErrManagerClosed, mgr st).
Proof.
  intros Hcfg Hr Hc. destruct (m_reachable_inv _ _ Hcfg Hr) as [I _].
  destruct (bi_closed _ _ I Hc) as (Hw & Ho & _ & Hs).
  assert (closing (mgr st) = true) as Hcl by (rewrite (bi_closing _ _ I); by apply bool_decide_eq_true).
  split_and!; try done.
  - destruct (retainedExited (mgr st)) as [|id l] eqn:E; [done|].
    destruct (proj1 (bi_retained _ _ I id) ltac:(rewrite E; left)) as (s & Hx & _). by rewrite Hs, lookup_empty in Hx.
  - by rewrite (hi_total _ _ _ (bi_hist _ _ I)), Hs, map_sumZ_empty.
  - by rewrite (bi_active _ _ I), Hs, map_sumZ_empty.
  - by rewrite (bi_starting _ _ I), Ho, map_size_empty.
  - intros ctx spec. unfold open_admit. rewrite Hcl. destruct ctx; cbn; [|eauto].
    destruct (ProcessSpec_Validate spec); [eauto|]. destruct (Size_Validate _); eauto.
  - intros ended o id. unfold attach. by rewrite Hcl.
  - intros id. unfold remove_begin. by rewrite Hcl.
  - unfold subscribe. by rewrite Hcl.
Qed.

Lemma close_is_final_witness : sessions (mgr demo_closed) = ∅ /\ subscribe demo_hist_cfg (mgr demo_closed) = (inr ErrManagerClosed, mgr demo_closed).
Proof.
  destruct (close_is_final demo_hist_cfg demo_closed demo_hist_cfg_ok demo_mclosed_reachable demo_closed_closed)
    as (H & _ & _ & _ & _ & _ & _ & _ & _ & Hsub). split; [exact H|exact Hsub].
Defined.

(** ** Delivery *)

(** The attachment as [Attach] registers it. *)
Definition attached_as (cfg : ManagerConfig) (o : AttachOptions) (s : Session) (replay : list OutputEvent) (a : Attachment) : Prop :=
  remaining a = (output_event <$> replay) ++
    match s_state s, s_exit s with SessionExited, Some status => [exit_event status] | _, _ => [] end /\
  a_active a = negb (Paused o) /\ a_closed a = false /\ a_bytes a = 0 /\ a_maxBytes a = AttachmentQueueBytes cfg /\
  a_registered a = true /\ a_started a = true.

(** Only a context that ends meanwhile makes the start fail. *)
Lemma attach_start_spec cfg ended o s replay :
  s_state s = SessionRunning \/ s_state s = SessionExited /\ is_Some (s_exit s) ->
  match attach_start cfg ended o s replay with
  | inl a => ended = None /\ attached_as cfg o s replay (set_registered true a)
  | inr e => exists err, ended = Some err /\ (s_state s = SessionRunning /\ e = err \/ s_state s = SessionExited /\ e = ErrAttachmentClosed)
  end.
Proof.
  unfold attach_start, attached_as. intros [E|[E [status Ex]]]; rewrite E, ?Ex; destruct ended as [err|]; cbn;
    rewrite ?app_nil_r; [exists err; auto|done|exists err; auto|done].
Qed.

(** [Attach] on every branch. It succeeds exactly on a registered session that
    runs, or has exited and is retained, with room for one more attachment, and a
    resume position not in the future (and a Manager not closing), when its context
    has not ended meanwhile; the new
    attachment is then registered with the replay queued before everything else,
    the exit event behind it when the session has ended, and nothing else of the
    session changed. Otherwise the error is the one of the first failing test and
    the registry is unchanged. *)
Theorem attach_spec cfg st ended o id r m :
  manager_config_ok cfg -> m_reachable cfg st -> attach cfg ended o id (mgr st) = (r, m) ->
  match r with
  | inl (aid, result, failed) =>
      ended = None /\ closing (mgr st) = false /\ aid = u64 (nextAttachment (mgr st) + 1) /\ aid <> 0 /\
      exists s a replay, sessions (mgr st) !! id = Some s /\
        (s_state s = SessionRunning \/ s_state s = SessionExited /\ s_retained s = true) /\
        Z.of_nat (size (s_attachments s)) < MaxAttachmentsPerSession cfg /\ ResumeAfter o <= s_lastSequence s /\
        attach_replay o s = (result, replay) /\ attached_as cfg o s replay a /\
        sessions m = <[id := set_attachments (<[aid := a]> (s_attachments s)) s]> (sessions (mgr st))
  | inr e =>
      sessions m = sessions (mgr st) /\
      if closing (mgr st) then e = ErrSessionNotFound
      else match sessions (mgr st) !! id with
           | None => e = ErrSessionExited
           | Some s =>
               if negb (active s) && negb (s_retained s) || bool_decide (s_state s = SessionStopping)
               then e = ErrSessionExited
               else if MaxAttachmentsPerSession cfg <=? Z.of_nat (size (s_attachments s)) then e = ErrAttachmentLimit
               else if s_lastSequence s <? ResumeAfter o then e = ErrFutureSequence
               else if u64 (nextAttachment (mgr st) + 1) =? 0 then e = ErrAttachmentLimit
               else exists err, ended = Some err /\ (s_state s = SessionRunning /\ e = err \/ s_state s = SessionExited /\ e = ErrAttachmentClosed)
           end
  end.
Proof.
  intros Hcfg Hr E. destruct (m_reachable_inv _ _ Hcfg Hr) as [I _]. unfold attach in E.
  destruct (closing (mgr st)); [injection E as <- <-; done|].
  destruct (sessions (mgr st) !! id) as [s|] eqn:Es; [|by injection E as <- <-].
  pose proof (bi_sess _ _ I _ _ Es) as O.
  assert (negb (bool_decide (s_state s = SessionRunning)) &&
    negb (bool_decide (s_state s = SessionExited) && s_retained s) =
    negb (active s) && negb (s_retained s) || bool_decide (s_state s = SessionStopping)) as Estate.
  { destruct (decide (pcs st !! id = Some PRun)) as [Hp|Hp].
    - destruct (so_running _ _ _ _ O Hp) as (Ha & _ & Hrt & _). rewrite Ha, Hrt. unfold active in Ha.
      by destruct (s_state s).
    - destruct (so_exited _ _ _ _ O Hp) as [Hst _]. unfold active. rewrite Hst. by destruct (s_retained s). }
  rewrite Estate in E. destruct (_ || _) eqn:Est; [by injection E as <- <-|].
  destruct (Z.leb_spec (MaxAttachmentsPerSession cfg) (Z.of_nat (size (s_attachments s)))) as [|Hroom]; [by injection E as <- <-|].
  destruct (Z.ltb_spec (s_lastSequence s) (ResumeAfter o)) as [|Hres]; [by injection E as <- <-|].
  destruct (Z.eqb_spec (u64 (nextAttachment (mgr st) + 1)) 0) as [Hz|Hz]; [by injection E as <- <-|].
  assert (s_state s = SessionRunning \/ s_state s = SessionExited /\ s_retained s = true /\ is_Some (s_exit s)) as Hstate.
  { apply orb_false_iff in Est as [Ea Estop]. apply bool_decide_eq_false in Estop.
    destruct (decide (pcs st !! id = Some PRun)) as [Hp|Hp].
    - destruct (so_running _ _ _ _ O Hp) as (Ha & _). unfold active in Ha.
      left. by destruct (s_state s).
    - destruct (so_exited _ _ _ _ O Hp) as [Hst Hx]. right. split; [done|].
      unfold active in Ea. rewrite Hst in Ea. by destruct (s_retained s). }
  destruct (attach_replay o s) as [result replay] eqn:Er.
  pose proof (attach_start_spec cfg ended o s replay ltac:(tauto)) as Hst.
  destruct (attach_start cfg ended o s replay) as [a|err]; [|by injection E as <- <-].
  destruct (emit _ _) as [f m1] eqn:Ee. apply emit_eq in Ee as (obs & -> & _). injection E as <- <-. destruct Hst as [-> Ha].
  split; [done|]. split; [done|]. split; [done|]. split; [done|]. eexists s, _, replay. split; [done|]. split; [tauto|].
  split; [done|]. split; [done|]. split; [done|]. split; [exact Ha|reflexivity].
Qed.

Lemma attach_spec_witness :
  exists aid result failed m, attach demo_hist_cfg None (mkAttachOptions ReplayHistory 0 false) 1 (mgr demo_draining) =
      (inl (aid, result, failed), m) /\ result = mkAttachResult 1 2 3 false /\
    exists s a replay, sessions (mgr demo_draining) !! 1 = Some s /\
      attached_as demo_hist_cfg (mkAttachOptions ReplayHistory 0 false) s replay a /\ length replay = 2%nat.
Proof.
  destruct (attach demo_hist_cfg None (mkAttachOptions ReplayHistory 0 false) 1 (mgr demo_draining)) as [r m] eqn:E.
  pose proof (attach_spec demo_hist_cfg demo_draining None (mkAttachOptions ReplayHistory 0 false) 1 r m demo_hist_cfg_ok
    demo_draining_reachable E) as H.
  assert ((match r with inl (_, result, _) => Some result | inr _ => None end) = Some (mkAttachResult 1 2 3 false)) as Hok
    by (apply (f_equal fst) in E; cbn [fst] in E; rewrite <- E; vm_compute; reflexivity).
  destruct r as [[[aid result] failed]|e]; [|discriminate Hok]. injection Hok as ->.
  exists aid, (mkAttachResult 1 2 3 false), failed, m. split; [reflexivity|]. split; [reflexivity|].
  destruct H as (_ & _ & _ & _ & s & a & replay & Hs & _ & _ & _ & Hrep & Hatt & _). exists s, a, replay.
  split; [exact Hs|]. split; [exact Hatt|].
  assert ((fun s => length (attach_replay (mkAttachOptions ReplayHistory 0 false) s).2) <$> sessions (mgr demo_draining) !! 1
    = Some 2%nat) as Hlen by (vm_compute; reflexivity).
  rewrite Hs in Hlen. cbn [fmap option_fmap option_map] in Hlen. rewrite Hrep in Hlen. injection Hlen as Hlen. exact Hlen.
Defined.

(** [failed] are the keys whose value is not accepted, and the others are updated. *)
Definition offered_to {A B} (accept : A -> option B * A) (before : gmap Z A) (failed : list Z) (after : gmap Z A) : Prop :=
  NoDup failed /\ (forall k, k ∈ failed -> is_Some (before !! k)) /\
  forall k x, before !! k = Some x ->
    match accept x with
    | (None, x') => after !! k = Some x' /\ k ∉ failed
    | (Some _, _) => after !! k = None /\ k ∈ failed
    end.

Lemma offered_to_omap {A B} (accept : A -> option B * A) (before : gmap Z A) :
  let ok x := match accept x with (None, x') => Some x' | (Some _, _) => None end in
  offered_to accept before (filter (fun kx : Z * A => ok kx.2 = None) (map_to_list before)).*1 (omap ok before).
Proof.
  intros ok. assert (forall k, k ∈ (filter (fun kx : Z * A => ok kx.2 = None) (map_to_list before)).*1 <->
    exists x, before !! k = Some x /\ ok x = None) as Hin.
  { intros k. rewrite list_elem_of_fmap. split.
    - intros ([k' x] & -> & [Hx Hm]%list_elem_of_filter). apply elem_of_map_to_list in Hm. by exists x.
    - intros (x & Hx & Ho). exists (k, x). split; [done|]. apply list_elem_of_filter. split; [done|].
      by apply elem_of_map_to_list. }
  split; [|split].
  - apply (sublist_NoDup _ (map_to_list before).*1); [apply NoDup_fst_map_to_list|apply fmap_sublist, sublist_filter].
  - intros k (x & Hx & _)%Hin. by eexists.
  - intros k x Hk. assert (omap ok before !! k = ok x) as Ho by (by rewrite lookup_omap, Hk).
    destruct (accept x) as [[e|] x'] eqn:E; rewrite Ho, Hin; unfold ok; rewrite E; (split; [done|]).
    + exists x. by rewrite E.
    + intros (y & Hy & Hn). simplify_eq. by rewrite E in Hn.
Qed.

(** C11. Output reaches every attachment and observer at once, in sequence. When a
    running session publishes a chunk, its sequence number is the one after the
    last; the same event is queued in every attachment of the session and offered
    to every observer in the same critical section; an attachment or observer
    that cannot take it, and only such a one, is removed and reported once for
    closing; and no other session's sequence or attachments change. *)
Theorem publish_fanout cfg st id s data :
  manager_config_ok cfg -> m_reachable cfg st -> pcs st !! id = Some PRun -> sessions (mgr st) !! id = Some s ->
  s_lastSequence s < 2 ^ 64 - 1 -> nextHistory (hist (mgr st)) < 2 ^ 64 - 1 ->
  let event := mkOutputEvent (s_lastSequence s + 1) data in
  exists failed failedObservers s' m, publish cfg id data (mgr st) = (Published failed failedObservers, m) /\
    sessions m !! id = Some s' /\ s_lastSequence s' = s_lastSequence s + 1 /\
    offered_to (enqueueLocked (output_event event)) (s_attachments s) failed (s_attachments s') /\
    (exists info, si_LastSequence info = s_lastSequence s + 1 /\
       offered_to (enqueue (mkEvent EventOutput info (Some event) None)) (observers (mgr st)) failedObservers (observers m)) /\
    (forall j t t', j <> id -> sessions (mgr st) !! j = Some t -> sessions m !! j = Some t' ->
       s_lastSequence t' = s_lastSequence t /\ s_attachments t' = s_attachments t).
Proof.
  intros Hcfg Hr Hp Hs Hl Hn event. destruct (m_reachable_inv _ _ Hcfg Hr) as [I _].
  pose proof (so_sequence _ _ _ _ (bi_sess _ _ I _ _ Hs)) as Hseq. unfold publish. rewrite Hs.
  pose proof (publish_history_spec' cfg id s data (sessions (mgr st)) (hist (mgr st)) Hcfg (bi_hist _ _ I) Hs
    ltac:(lia) Hn) as P.
  destruct (publish_history _ _ _ _ _ _) as [ss h]. destruct P as [_ Psess Pback _ _].
  destruct (Psess _ _ Hs) as (s1 & Hs1 & _ & Es1). rewrite Z.eqb_refl in Es1. rewrite Hs1.
  rewrite (uwrap_small 64) by (unfold fits_u; lia). fold event.
  assert (s_attachments s1 = s_attachments s /\ s_lastSequence s1 = s_lastSequence s + 1) as [Ea El]
    by (rewrite Es1; done). rewrite Ea.
  unfold emit. eexists _, _, (set_attachments _ s1), _. split; [reflexivity|]. cbn [sessions with_observers with_sessions].
  rewrite lookup_insert_eq. split; [reflexivity|]. split; [exact El|].
  split; [exact (offered_to_omap (enqueueLocked (output_event event)) (s_attachments s))|].
  split; [eexists; split; [|apply offered_to_omap]; exact El|].
  intros j t t' Hj Ht Ht'. rewrite lookup_insert_ne in Ht' by congruence. cbn in Ht'.
  destruct (Psess _ _ Ht) as (t1 & Ht1 & _ & Et). simplify_eq. rewrite (proj2 (Z.eqb_neq _ _)) in Et by congruence.
  rewrite Et. done.
Qed.

Lemma publish_fanout_witness :
  exists s failed failedObservers s' m, sessions (mgr demo_running) !! 1 = Some s /\
    publish demo_hist_cfg 1 [Byte.x63] (mgr demo_running) = (Published failed failedObservers, m) /\
    sessions m !! 1 = Some s' /\ s_lastSequence s' = 3 /\ failed = [].
Proof.
  destruct (sessions (mgr demo_running) !! 1) as [s|] eqn:E; [|vm_compute in E; discriminate].
  assert (s_lastSequence s = 2) as Hs.
  { assert (s_lastSequence <$> sessions (mgr demo_running) !! 1 = Some 2) as H by (vm_compute; reflexivity).
    rewrite E in H. injection H as H. exact H. }
  destruct (publish_fanout demo_hist_cfg demo_running 1 s [Byte.x63] demo_hist_cfg_ok demo_running_reachable)
    as (failed & fo & s' & m & Hp & Hm & Hl & _); [vm_compute; reflexivity|exact E|rewrite Hs; reflexivity|
      vm_compute; reflexivity|].
  exists s, failed, fo, s', m. split; [reflexivity|]. split; [exact Hp|]. split; [exact Hm|]. split; [rewrite Hl, Hs; reflexivity|].
  assert ((publish demo_hist_cfg 1 [Byte.x63] (mgr demo_running)).1 = Published [] []) as Hpub by (vm_compute; reflexivity).
  rewrite Hp in Hpub. injection Hpub as -> _. reflexivity.
Defined.
