(* ===== verification/SessionIO.v ===== *)
(** pty/manager.go and pty/bridge.go: the byte loops between a process and the
    program ([pumpOutput], [writeFullContext], the [writeFull] of package pty), and
    the checks of a session's input, resize, wait and process identifier. *)

From S2P Require Import Prelude Errors BigEndian Frame Codec PtyTypes Attachment Subscription History Manager.

(** ** Reading *)

(** An io.Reader seen by a loop that reuses its buffer: [ReadInto r buffer] is
    [Read(buffer)]: the reader, the contents of the buffer, [n] and the error. *)
Class BufferReader (R : Type) := ReadInto : R -> list byte -> R * list byte * Z * option error.

(** The io.Reader contract, for a reader that delivers [incoming] and then fails
    with [ending]; an empty read without error is allowed. *)
Class BufferReaderLaws (R : Type) `{BufferReader R} := {
  incoming : R -> list byte;
  ending : R -> error;
  ReadInto_law r buffer r' buffer' n err :
    ReadInto r buffer = (r', buffer', n, err) ->
    length buffer' = length buffer /\ 0 <= n <= len buffer /\
    incoming r = take (Z.to_nat n) buffer' ++ incoming r' /\ ending r' = ending r /\
    match err with Some e => e = ending r /\ incoming r' = [] | None => True end
}.

(** [pumpOutput] and the loop of [Bridge.RunOutput]: each chunk is given to
    [emit], whose error ends the loop. [None]: out of fuel. *)
Section Pump.
Context {R S : Type} `{BufferReader R} (emit_chunk : S -> list byte -> S * option error).

Fixpoint pump (fuel : nat) (r : R) (buffer : list byte) (s : S) : option (R * S * option error) :=
  match fuel with
  | O => None
  | Datatypes.S fuel =>
      let '(r', buffer', n, err) := ReadInto r buffer in
      if (n <? 0) || (len buffer' <? n) then Some (r', s, Some (Newf "pty: invalid read count" [n]))
      else
        let '(s', failed) := if 0 <? n then emit_chunk s (take (Z.to_nat n) buffer') else (s, None) in
        match failed with
        | Some e => Some (r', s', Some e)
        | None =>
            match err with
            | Some e => Some (r', s', if errors_Is e EOF then None else Some e)
            | None => if n =? 0 then Some (r', s', Some ErrNoProgress) else pump fuel r' buffer' s'
            end
        end
  end.
End Pump.

(** [Session.pumpOutput]; [publish] is [s.publish], which cannot fail; [chunks]
    collects the arguments it is called with. *)
Definition pumpOutput {R} `{BufferReader R} (fuel : nat) (cfg : ManagerConfig) (r : R)
    : option (R * list (list byte) * option error) :=
  pump (fun chunks chunk => (chunks ++ [chunk], None)) fuel r
    (replicate (Z.to_nat (ReadBufferBytes cfg)) Byte.x00) [].

(** ** Writing *)

Section Write.
Context {W : Type} `{Writer W}.

(** The [writeFull] of package pty, on the index [written]; [None]: out of fuel. *)
Fixpoint writeFrom (fuel : nat) (w : W) (data : list byte) (written : nat) : option (W * option error) :=
  if (written <? length data)%nat then
    match fuel with
    | O => None
    | S fuel =>
        let '(w', n, err) := Write w (drop written data) in
        if (n <? 0) || (len data - Z.of_nat written <? n) then Some (w', Some ErrShortWrite)
        else
          let written := (written + Z.to_nat n)%nat in
          match err with
          | Some err => Some (w', Some err)
          | None => if n =? 0 then Some (w', Some ErrShortWrite) else writeFrom fuel w' data written
          end
    end
  else Some (w, None).

Definition pty_writeFull (w : W) (data : list byte) : option (W * option error) :=
  writeFrom (length data) w data 0.

(** [writeFullContext]; [ctx i] is the error of the context when it is tested
    before write [i], if it is done then. *)
Fixpoint writeContext (fuel : nat) (ctx : nat -> option error) (i : nat) (w : W) (data : list byte)
    : option (W * option error) :=
  match data with
  | [] => Some (w, None)
  | _ =>
      match fuel with
      | O => None
      | S fuel =>
          match ctx i with
          | Some e => Some (w, Some e)
          | None =>
              let '(w', n, err) := Write w data in
              if (n <? 0) || (len data <? n) then Some (w', Some ErrShortWrite)
              else
                let data := drop (Z.to_nat n) data in
                match err with
                | Some err => Some (w', Some err)
                | None => if n =? 0 then Some (w', Some ErrShortWrite) else writeContext fuel ctx (S i) w' data
                end
          end
      end
  end.

Definition writeFullContext (ctx : nat -> option error) (w : W) (data : list byte) : option (W * option error) :=
  writeContext (length data) ctx 0 w data.

(** [Session.Input], the input lock being held; [ctx] is [None] when nil, and
    the state is the one read under the Manager's lock. *)
Definition Input (ctx : option (nat -> option error)) (s : Session) (w : W) (data : list byte) : option (W * option error) :=
  match ctx with
  | None => Some (w, Some (New "pty: nil Input context"))
  | Some ctx =>
      if bool_decide (s_state s = SessionRunning) then writeFullContext ctx w data
      else Some (w, Some ErrSessionExited)
  end.
End Write.

(** ** Checks of a session's other operations *)

(** [Session.Resize] up to [process.Resize]; the error of a done context is
    [Some]. *)
Definition Resize_check (ctx : option (option error)) (size : Size) (s : Session) : option error :=
  match ctx with
  | None => Some (New "pty: nil Resize context")
  | Some done =>
      match Size_Validate size with
      | Some e => Some e
      | None =>
          match done with
          | Some e => Some e
          | None => if bool_decide (s_state s = SessionRunning) then None else Some ErrSessionExited
          end
      end
  end.

(** [Session.ProcessID]; [provider] is the answer of the optional interface. *)
Definition ProcessID (provider : option (Z + error)) (s : Session) : Z + error :=
  if negb (bool_decide (s_state s = SessionRunning)) then inr ErrSessionExited
  else match provider with
       | None => inr ErrProcessIDUnavailable
       | Some (inr e) => inr e
       | Some (inl pid) => if pid =? 0 then inr ErrProcessIDUnavailable else inl pid
       end.

(** [Session.Wait] once [s.done] is closed. *)
Definition Wait_result (s : Session) : ExitStatus + error :=
  match s_exit s with
  | None => inr ErrSessionNotFound
  | Some status => inl status
  end.

(** [Session.run]: the status it records, from those of WaitStatus and of the
    output. *)
Definition run_status (status : ExitStatus) (waitErr outputErr : option error) : ExitStatus :=
  let status := match waitErr, ex_Error status with
                | Some e, None => mkExitStatus (ex_Reason status) (ex_Code status) (ex_Signal status) (Some e)
                | _, _ => status
                end in
  match outputErr, ex_Error status with
  | Some e, None => mkExitStatus ExitReasonIOFailure (ex_Code status) (ex_Signal status) (Some e)
  | _, _ => status
  end.

(** [Session.run]: whether it kills the process when the output ends first. *)
Definition run_kills (outputErr : option error) : bool := bool_decide (is_Some outputErr).

(** ** Properties *)

Section PumpSpec.
Context {R S : Type} `{BufferReaderLaws R} (emit_chunk : S -> list byte -> S * option error).

(** What a run of the loop did: the chunks it emitted, and why it ended. *)
Inductive emits : S -> list (list byte) -> S -> option error -> Prop :=
| em_nil s : emits s [] s None
| em_cons s c s1 cs s2 e : emit_chunk s c = (s1, None) -> emits s1 cs s2 e -> emits s (c :: cs) s2 e
| em_fail s c s1 e : emit_chunk s c = (s1, Some e) -> emits s [c] s1 (Some e).

Lemma pump_spec r buffer s fuel :
  buffer <> [] -> (length (incoming r) < fuel)%nat ->
  exists r' s' err chunks failed, pump emit_chunk fuel r buffer s = Some (r', s', err) /\
    emits s chunks s' failed /\ incoming r = concat chunks ++ incoming r' /\
    Forall (fun c => c <> [] /\ (length c <= length buffer)%nat) chunks /\
    match failed with
    | Some e => err = Some e
    | None => err = Some ErrNoProgress \/
              incoming r' = [] /\ err = (if errors_Is (ending r) EOF then None else Some (ending r))
    end.
Proof.
  intros Hb. revert r buffer s Hb. induction fuel as [|fuel IH]; intros r buffer s Hb Hf; [lia|].
  cbn [pump]. destruct (ReadInto r buffer) as [[[r1 buffer1] n] err] eqn:E.
  destruct (ReadInto_law _ _ _ _ _ _ E) as (Hl & Hn & Hin & Hend & He).
  unfold len in *. rewrite Hl. rewrite (proj2 (Z.ltb_ge n 0)), (proj2 (Z.ltb_ge _ n)) by lia. cbn [orb].
  set (chunk := take (Z.to_nat n) buffer1) in *.
  assert (length chunk = Z.to_nat n) as Hc by (unfold chunk; rewrite length_take; lia).
  destruct (Z.ltb_spec 0 n) as [Hpos|Hzero].
  - assert (chunk <> [] /\ (length chunk <= length buffer)%nat) as Hok
      by (split; [intros Ec; rewrite Ec in Hc; cbn in Hc; lia|lia]).
    destruct (emit_chunk s chunk) as [s1 [e|]] eqn:Ee.
    { exists r1, s1, (Some e), [chunk], (Some e). split_and!; try done; [by apply em_fail|by rewrite concat_cons, app_nil_r|by constructor]. }
    destruct err as [e|].
    + destruct He as [-> Hnil]. exists r1, s1, (if errors_Is (ending r) EOF then None else Some (ending r)), [chunk], None.
      split_and!; try done; [econstructor; [done|constructor]|by rewrite concat_cons, app_nil_r|by constructor|by right].
    + rewrite (proj2 (Z.eqb_neq n 0)) by lia.
      assert (buffer1 <> []) as Hb1 by (intros ->; destruct buffer; done).
      destruct (IH r1 buffer1 s1 Hb1) as (r' & s' & err & chunks & failed & E' & Hem & Hcat & Hall & Hwhy).
      { rewrite Hin, length_app in Hf. lia. }
      exists r', s', err, (chunk :: chunks), failed. rewrite Hl in Hall. rewrite <- Hend. split_and!; try done.
      * by econstructor.
      * rewrite concat_cons, <- (assoc_L (++)), <- Hcat. done.
      * by constructor.
  - assert (n = 0) as -> by lia. cbn in chunk. exists r1, s. destruct err as [e|].
    + destruct He as [-> Hnil]. eexists _, [], None. split; [done|]. split; [constructor|]. split; [done|].
      split; [constructor|by right].
    + eexists _, [], None. split; [done|]. split; [constructor|]. split; [done|]. split; [constructor|by left].
Qed.
End PumpSpec.

(** [pumpOutput] publishes the output of the process exactly. For any reader
    that keeps the io.Reader contract, it returns (within as many reads as there
    are bytes, and one), the published chunks are non-empty, no longer than the
    read buffer, and concatenate to what was read; and unless the reader made no
    progress, everything the process wrote was published and the error is the
    one that ended its output, nil for EOF. *)
Theorem pumpOutput_exact {R} `{BufferReaderLaws R} cfg (r : R) fuel :
  0 < ReadBufferBytes cfg -> (length (incoming r) < fuel)%nat ->
  exists r' chunks err, pumpOutput fuel cfg r = Some (r', chunks, err) /\
    incoming r = concat chunks ++ incoming r' /\
    Forall (fun c => c <> [] /\ len c <= ReadBufferBytes cfg) chunks /\
    (err = Some ErrNoProgress \/
     incoming r' = [] /\ err = (if errors_Is (ending r) EOF then None else Some (ending r))).
Proof.
  intros Hb Hf. set (buffer := replicate (Z.to_nat (ReadBufferBytes cfg)) Byte.x00).
  assert (length buffer = Z.to_nat (ReadBufferBytes cfg)) as Hl by apply length_replicate.
  assert (buffer <> []) as Hne by (intros E; rewrite E in Hl; cbn in Hl; lia).
  destruct (pump_spec (fun chunks chunk => (chunks ++ [chunk], None)) r buffer [] fuel Hne Hf)
    as (r' & s' & err & chunks & failed & E & Hem & Hcat & Hall & Hwhy).
  assert (forall (s s' : list (list byte)) cs f, emits (fun chunks chunk => (chunks ++ [chunk], None)) s cs s' f -> s' = s ++ cs /\ f = None) as Hacc.
  { clear. induction 1 as [s|s c s1 cs s2 e Ec _ [IH1 IH2]|s c s1 e Ec]; [by rewrite app_nil_r| |done].
    injection Ec as <-. split; [|done]. rewrite IH1, <- (assoc_L (++)). done. }
  destruct (Hacc _ _ _ _ Hem) as [-> ->]. exists r', chunks, err. split; [exact E|]. split; [done|].
  split; [|done]. eapply Forall_impl; [exact Hall|]. intros c [? ?]. split; [done|]. unfold len. lia.
Qed.

Section WriteSpec.
Context {W : Type} `{WriterLaws W}.

Lemma drop_len (data : list byte) n : 0 < n -> data <> [] -> (length (drop (Z.to_nat n) data) < length data)%nat.
Proof. intros Hn Hd. rewrite length_drop. destruct data; [done|]. cbn. lia. Qed.

Lemma writeContext_spec fuel ctx i (w : W) data :
  (length data <= fuel)%nat ->
  exists w' err k, writeContext fuel ctx i w data = Some (w', err) /\ written w' = written w ++ take k data /\
    (k <= length data)%nat /\ (err = None -> k = length data).
Proof.
  revert i w data. induction fuel as [|fuel IH]; intros i w data Hf.
  - destruct data; [|cbn in Hf; lia]. exists w, None, 0%nat. cbn. by rewrite app_nil_r.
  - destruct data as [|b data]; [exists w, None, 0%nat; cbn; by rewrite app_nil_r|]. cbn [writeContext].
    destruct (ctx i) as [e|]; [exists w, (Some e), 0%nat; cbn; rewrite app_nil_r; split_and!; (done || lia)|].
    destruct (Write w (b :: data)) as [[w1 n] err] eqn:E. destruct (Write_law _ _ _ _ _ E) as [Hn Hw].
    rewrite (proj2 (Z.ltb_ge n 0)), (proj2 (Z.ltb_ge _ n)) by lia. cbn [orb].
    assert (Z.to_nat n <= length (b :: data))%nat as Hle by (unfold len in Hn; lia).
    destruct err as [e|]; [exists w1, (Some e), (Z.to_nat n); by rewrite Hw|].
    destruct (Z.eqb_spec n 0) as [->|Hnz]; [exists w1, (Some ErrShortWrite), 0%nat; split_and!; (done || lia)|].
    destruct (IH (S i) w1 (drop (Z.to_nat n) (b :: data))) as (w2 & err & k & E2 & Hw2 & Hk & Hfull).
    { pose proof (drop_len (b :: data) n ltac:(lia) ltac:(done)). lia. }
    exists w2, err, (Z.to_nat n + k)%nat. split; [exact E2|]. rewrite length_drop in *. split_and!.
    + rewrite Hw2, Hw, <- (assoc_L (++)). f_equal. rewrite take_take_drop. done.
    + lia.
    + intros ->. rewrite Hfull by done. lia.
Qed.

(** Without cancellation it is the [writeFull] of package streammux. *)
Lemma writeContext_live fuel ctx i (w : W) data :
  (forall j, ctx j = None) -> writeContext fuel ctx i w data = writeFull_loop fuel w data.
Proof.
  intros Hctx. revert i w data. induction fuel as [|fuel IH]; intros i w data; destruct data as [|b data]; try done.
  cbn [writeContext writeFull_loop]. rewrite Hctx. destruct (Write w (b :: data)) as [[w1 n] err].
  destruct (_ || _); [done|]. destruct err; [done|]. destruct (n =? 0); [done|]. apply IH.
Qed.

Lemma writeFrom_drop fuel (w : W) data k :
  (k <= length data)%nat -> writeFrom fuel w data k = writeFull_loop fuel w (drop k data).
Proof.
  revert w k. induction fuel as [|fuel IH]; intros w k Hk; cbn [writeFrom].
  - destruct (Nat.ltb_spec k (length data)) as [Hlt|Hge].
    + destruct (drop k data) eqn:E; [|done]. apply (f_equal length) in E. rewrite length_drop in E. cbn in E. lia.
    + by rewrite drop_ge by lia.
  - destruct (Nat.ltb_spec k (length data)) as [Hlt|Hge].
    + assert (len data - Z.of_nat k = len (drop k data)) as -> by (unfold len; rewrite length_drop; lia).
      destruct (drop k data) as [|b rest] eqn:E.
      { apply (f_equal length) in E. rewrite length_drop in E. cbn in E. lia. }
      cbn [writeFull_loop]. destruct (Write w (b :: rest)) as [[w1 n] err].
      destruct (Z.ltb_spec n 0) as [|Hn]; [done|]. destruct (Z.ltb_spec (len (b :: rest)) n) as [|Hn']; [done|]. cbn [orb].
      destruct err; [done|]. destruct (n =? 0); [done|]. rewrite <- E in *. unfold len in Hn'. rewrite length_drop in Hn'.
      rewrite IH by lia. by rewrite drop_drop.
    + by rewrite drop_ge by lia.
Qed.
End WriteSpec.

(** C33. The three byte loops agree. The [writeFull] of package pty, which indexes
    into the data, and [writeFullContext] under a context that is never done,
    which reslices it, are the [writeFull] of package streammux: the same writes,
    the same result and the same error, for any writer. *)
Theorem writeFull_equivalent {W} `{WriterLaws W} (w : W) data ctx :
  pty_writeFull w data = writeFull w data /\
  ((forall i, ctx i = None) -> writeFullContext ctx w data = writeFull w data).
Proof.
  unfold pty_writeFull, writeFull, writeFullContext. rewrite writeFrom_drop by lia.
  split; [done|]. intros Hctx. by apply writeContext_live.
Qed.

(** [Input] writes all or says why. It always returns; what the process
    receives is a prefix of the data, the whole of it when the result is nil, even
    if the context is cancelled on the way; and to a session that is not running
    nothing is written. *)
Theorem session_input_exact {W} `{WriterLaws W} ctx s (w : W) data :
  exists w' err k, Input ctx s w data = Some (w', err) /\ written w' = written w ++ take k data /\
    (err = None -> k = length data) /\
    (s_state s <> SessionRunning -> w' = w /\ err <> None) /\
    (forall c, ctx = Some c -> (forall i, c i = None) -> s_state s = SessionRunning ->
       Input ctx s w data = writeFull w data).
Proof.
  unfold Input. destruct ctx as [ctx|].
  2: { exists w, (Some (New "pty: nil Input context")), 0%nat. cbn. rewrite app_nil_r. split_and!; done. }
  case_bool_decide as Hst.
  - destruct (writeContext_spec (length data) ctx 0 w data ltac:(lia)) as (w' & err & k & E & Hw & _ & Hk).
    exists w', err, k. split_and!; try done. intros c [= <-] Hc _. by apply writeContext_live.
  - exists w, (Some ErrSessionExited), 0%nat. cbn. rewrite app_nil_r. split_and!; done.
Qed.

(** *** Witnesses *)

(** A process output that arrives in the given pieces. *)
Record feed := mkFeed { pieces : list (list byte) }.

#[export] Instance feed_reader : BufferReader feed := fun r buffer =>
  match pieces r with
  | [] => (r, buffer, 0, Some EOF)
  | c :: cs =>
      let k := Nat.min (length buffer) (length c) in
      (mkFeed (match drop k c with [] => cs | rest => rest :: cs end), take k c ++ drop k buffer, Z.of_nat k, None)
  end.

#[export, refine] Instance feed_laws : BufferReaderLaws feed := {|
  incoming r := concat (pieces r);
  ending _ := EOF
|}.
Proof.
  intros [cs] buffer r' buffer' n err. unfold ReadInto, feed_reader. cbn [pieces].
  destruct cs as [|c cs]; intros [= <- <- <- <-]; [cbn; split_and!; try done; apply len_nonneg|].
  set (k := Nat.min (length buffer) (length c)).
  rewrite Nat2Z.id. assert (length (take k c) = k) as Hk by (rewrite length_take; lia).
  split_and!.
  - rewrite length_app, Hk, length_drop. lia.
  - lia.
  - unfold len. lia.
  - rewrite take_app_le by lia. rewrite (take_ge (take k c)) by lia. cbn [pieces].
    rewrite <- (take_drop k c) at 1. rewrite concat_cons. destruct (drop k c); cbn; by rewrite <- ?(assoc_L (++)), ?app_nil_r.
  - done.
  - done.
Defined.

Definition demo_feed : feed := mkFeed [[Byte.x61; Byte.x62; Byte.x63]; [Byte.x64]].

Lemma pumpOutput_exact_witness :
  pumpOutput 10 (mkManagerConfig 2 4 6 2 16 400 2 1 1 1 0 0) demo_feed =
    Some (mkFeed [], [[Byte.x61; Byte.x62]; [Byte.x63]; [Byte.x64]], None) /\
  exists r' chunks err, pumpOutput 10 (mkManagerConfig 2 4 6 2 16 400 2 1 1 1 0 0) demo_feed = Some (r', chunks, err) /\
    incoming demo_feed = concat chunks ++ incoming r'.
Proof.
  split; [vm_compute; reflexivity|].
  destruct (pumpOutput_exact (mkManagerConfig 2 4 6 2 16 400 2 1 1 1 0 0) demo_feed 10 ltac:(reflexivity) ltac:(apply Nat.ltb_lt; reflexivity))
    as (r' & chunks & err & E & Hcat & _). exists r', chunks, err. split; [exact E|exact Hcat].
Defined.

Lemma writeFull_equivalent_witness :
  writeFullContext (fun _ => None) (mkQuota 2 []) [Byte.x61; Byte.x62; Byte.x63] =
    writeFull (mkQuota 2 []) [Byte.x61; Byte.x62; Byte.x63].
Proof.
  destruct (writeFull_equivalent (mkQuota 2 []) [Byte.x61; Byte.x62; Byte.x63] (fun _ => None)) as [_ H].
  apply H. reflexivity.
Defined.

(** Cancelled before the second write: the first two bytes were written. *)
Lemma session_input_exact_witness :
  Input (Some (fun i => if (i =? 1)%nat then Some Canceled else None)) (new_session 1) (mkQuota 2 [])
    [Byte.x61; Byte.x62; Byte.x63] = Some (mkQuota 2 [Byte.x61; Byte.x62], Some Canceled) /\
  exists w' err k, Input (Some (fun i => if (i =? 1)%nat then Some Canceled else None)) (new_session 1) (mkQuota 2 [])
    [Byte.x61; Byte.x62; Byte.x63] = Some (w', err) /\ written w' = [] ++ take k [Byte.x61; Byte.x62; Byte.x63].
Proof.
  split; [vm_compute; reflexivity|].
  destruct (session_input_exact (Some (fun i => if (i =? 1)%nat then Some Canceled else None)) (new_session 1) (mkQuota 2 [])
    [Byte.x61; Byte.x62; Byte.x63]) as (w' & err & k & E & Hw & _). exists w', err, k. split; [exact E|exact Hw].
Defined.
