(* ===== verification/Bridge.v ===== *)
(** pty/bridge.go: [Bridge], which forwards the output of one process as event
    frames and writes the input events of its stream to the process. *)

From S2P Require Import Prelude Errors BigEndian Frame Codec PtyTypes Attachment Subscription History Manager SessionIO.

(** [OwnedSender]: [SendOwned ctx frame]. *)
Class OwnedSender (S : Type) := SendOwned : S -> Frame -> S * option error.

(** A sender that reports success has taken the frame, once and in order; one that
    fails, or whose context ends, may have taken it or not. *)
Class OwnedSenderLaws (S : Type) `{OwnedSender S} := {
  sent : S -> list Frame;
  SendOwned_law s f s' err : SendOwned s f = (s', err) ->
    sent s' = sent s ++ [f] \/ sent s' = sent s /\ err <> None
}.

Record BridgeConfig := mkBridgeConfig {
  b_Version : Z;
  b_StreamID : Z;
  b_InputType : Z;
  b_OutputType : Z;
  b_ReadBufferSize : Z;
}.

(** [NewBridge]; [process] and [sender] are whether they are non-nil. *)
Definition NewBridge (process sender : bool) (config : BridgeConfig) : BridgeConfig + error :=
  if negb process then inr ErrNilProcess
  else if negb sender then inr ErrNilSender
  else
    let version := if b_Version config =? 0 then 1 else b_Version config in
    if b_StreamID config =? 0 then inr ErrInvalidStreamID
    else if (b_InputType config =? 0) || (b_OutputType config =? 0) then inr ErrInvalidMessageType
    else
      let size := if b_ReadBufferSize config <=? 0 then DefaultReadBufferSize else b_ReadBufferSize config in
      inl (mkBridgeConfig version (b_StreamID config) (b_InputType config) (b_OutputType config) size).

(** The header of an output event. *)
Definition output_header (config : BridgeConfig) : Header :=
  mkHeader 0 (b_Version config) (b_OutputType config) FlagEvent 0 (b_StreamID config).

Section RunOutput.
Context {R S : Type} `{BufferReader R} `{OwnedSender S}.

(** The body of [if n > 0] in [RunOutput]. *)
Definition send_chunk (config : BridgeConfig) (s : S) (owned : list byte) : S * option error :=
  match NewOwnedFrame (output_header config) owned with
  | inr frameErr => (s, Some frameErr)
  | inl frame => SendOwned s frame
  end.

(** [RunOutput]; [ctx] is whether it is non-nil. The goroutine that closes the
    process when the context is done acts through the reader, whose next read
    then fails. *)
Definition RunOutput (fuel : nat) (ctx : bool) (config : BridgeConfig) (r : R) (s : S) : option (R * S * option error) :=
  if negb ctx then Some (r, s, Some (New "pty: nil context"))
  else pump (send_chunk config) fuel r (replicate (Z.to_nat (b_ReadBufferSize config)) Byte.x00) s.
End RunOutput.

(** [HandleInput] *)
Definition HandleInput {W} `{Writer W} (config : BridgeConfig) (frame : Frame) (w : W) : option (W * option error) :=
  if negb (StreamID (FHeader frame) =? b_StreamID config) then Some (w, Some ErrInvalidStreamID)
  else if negb (MessageType (FHeader frame) =? b_InputType config) || negb (Flags (FHeader frame) =? FlagEvent) then
    Some (w, Some ErrInvalidInputType)
  else pty_writeFull w (Payload frame).

(** Frames handled one after the other, until the first error. *)
Fixpoint handle_all {W} `{Writer W} (config : BridgeConfig) (frames : list Frame) (w : W) : option (W * option error) :=
  match frames with
  | [] => Some (w, None)
  | f :: frames =>
      '(w, err) ← HandleInput config f w;
      match err with Some e => Some (w, Some e) | None => handle_all config frames w end
  end.

(** ** Properties *)

Lemma NewOwnedFrame_shape h p f : NewOwnedFrame h p = inl f ->
  Payload f = p /\ MessageType (FHeader f) = MessageType h /\ Flags (FHeader f) = Flags h /\
  StreamID (FHeader f) = StreamID h /\ CorrelationID (FHeader f) = CorrelationID h /\ Version (FHeader f) = Version h.
Proof.
  unfold NewOwnedFrame, newFrame. destruct (_ <? _); [done|]. destruct (Validate _ _); [done|]. intros [= <-]. by destruct h.
Qed.

Section BridgeSpec.
Context {R S : Type} `{BufferReaderLaws R} `{OwnedSenderLaws S}.

Lemma emits_sent config s chunks s' failed :
  emits (send_chunk config) s chunks s' failed ->
  exists frames, sent s' = sent s ++ frames /\
    Forall (fun f => NewOwnedFrame (output_header config) (Payload f) = inl f) frames /\
    exists lost, concat (Payload <$> frames) ++ lost = concat chunks /\ (failed = None -> lost = []).
Proof.
  induction 1 as [s|s c s1 cs s2 e Ec _ IH|s c s1 e Ec].
  - exists []. rewrite app_nil_r. split_and!; [done|constructor|by exists []].
  - destruct IH as (frames & Hs & Hf & lost & Hc & Hl). unfold send_chunk in Ec.
    destruct (NewOwnedFrame _ c) as [f|e'] eqn:En; [|done]. apply SendOwned_law in Ec as [Ec|[_ ?]]; [|done].
    destruct (NewOwnedFrame_shape _ _ _ En) as [Hp _].
    exists (f :: frames). rewrite Hs, Ec, <- (assoc_L (++)). split; [done|].
    split; [constructor; [by rewrite Hp|done]|]. exists lost. split; [|done]. cbn.
    by rewrite Hp, <- (assoc_L (++)), Hc.
  - unfold send_chunk in Ec. destruct (NewOwnedFrame _ c) as [f|e'] eqn:En.
    2:{ injection Ec as -> _. exists []. rewrite app_nil_r. split_and!; [done|constructor|]. by exists c; cbn; rewrite app_nil_r. }
    destruct (NewOwnedFrame_shape _ _ _ En) as [Hp _]. apply SendOwned_law in Ec as [Ec|[Ec _]].
    + exists [f]. split; [done|]. split; [constructor; [by rewrite Hp|constructor]|]. exists []. cbn.
      by rewrite Hp, !app_nil_r.
    + exists []. rewrite app_nil_r. split_and!; [done|constructor|]. by exists c; cbn; rewrite app_nil_r.
Qed.

Lemma bridge_output_frames config (r : R) (s : S) fuel :
  0 < b_ReadBufferSize config -> (length (incoming r) < fuel)%nat ->
  exists r' s' err frames lost, RunOutput fuel true config r s = Some (r', s', err) /\
    sent s' = sent s ++ frames /\
    Forall (fun f => NewOwnedFrame (output_header config) (Payload f) = inl f) frames /\
    incoming r = concat (Payload <$> frames) ++ lost ++ incoming r' /\
    (err = None -> lost = [] /\ incoming r' = [] /\ errors_Is (ending r) EOF = true).
Proof.
  intros Hb Hf. unfold RunOutput. cbn [negb]. set (buffer := replicate _ _).
  assert (buffer <> []) as Hne.
  { intros E. apply (f_equal length) in E. unfold buffer in E. rewrite length_replicate in E. cbn in E. lia. }
  destruct (pump_spec (send_chunk config) r buffer s fuel Hne Hf) as (r' & s' & err & chunks & failed & E & Hem & Hcat & _ & Hwhy).
  destruct (emits_sent _ _ _ _ _ Hem) as (frames & Hs & Hfr & lost & Hc & Hl). exists r', s', err, frames, lost.
  split_and!; try done; [by rewrite Hcat, <- Hc, <- (assoc_L (++))|]. intros ->.
  destruct failed as [e|]; [done|]. destruct Hwhy as [|[? Hn]]; [done|].
  split_and!; [by apply Hl|done|]. by destruct (errors_Is _ _).
Qed.

(** The bridge forwards the output of the process exactly. For a lawful reader
    and sender, [RunOutput] returns; the frames it sent are valid output events of
    its stream and type whose payloads concatenate to what was read, except that
    the chunk whose frame was refused may be lost when it returns an error; and
    when it returns nil the whole output was forwarded. *)
Theorem bridge_output config (r : R) (s : S) fuel :
  0 < b_ReadBufferSize config -> (length (incoming r) < fuel)%nat ->
  exists r' s' err frames lost, RunOutput fuel true config r s = Some (r', s', err) /\
    sent s' = sent s ++ frames /\
    Forall (fun f => NewOwnedFrame (output_header config) (Payload f) = inl f) frames /\
    incoming r = concat (Payload <$> frames) ++ lost ++ incoming r' /\
    (err = None -> lost = [] /\ incoming r' = [] /\ errors_Is (ending r) EOF = true).
Proof. apply bridge_output_frames. Qed.
End BridgeSpec.

Section InputSpec.
Context {W : Type} `{WriterLaws W}.

(** Input reaches the process of its own stream only. [HandleInput] refuses a
    frame of another stream, then one of another type or that is no event, and
    writes nothing then; otherwise the process gets a prefix of the payload, the
    whole payload when the result is nil. *)
Theorem handle_input config frame (w : W) :
  exists w' err k, HandleInput config frame w = Some (w', err) /\ written w' = written w ++ take k (Payload frame) /\
    if negb (StreamID (FHeader frame) =? b_StreamID config) then w' = w /\ err = Some ErrInvalidStreamID
    else if negb (MessageType (FHeader frame) =? b_InputType config) || negb (Flags (FHeader frame) =? FlagEvent)
    then w' = w /\ err = Some ErrInvalidInputType
    else err = None -> k = length (Payload frame).
Proof.
  unfold HandleInput. destruct (negb (StreamID _ =? _)).
  { exists w, (Some ErrInvalidStreamID), 0%nat. cbn. by rewrite app_nil_r. }
  destruct (_ || _). { exists w, (Some ErrInvalidInputType), 0%nat. cbn. by rewrite app_nil_r. }
  destruct (writeContext_spec (length (Payload frame)) (fun _ => None) 0 w (Payload frame) ltac:(lia))
    as (w' & err & k & E & Hw & _ & Hk).
  exists w', err, k. split_and!; try done. unfold pty_writeFull. rewrite writeFrom_drop by lia.
  rewrite <- (writeContext_live _ (fun _ => None) 0) by done. exact E.
Qed.

Lemma handle_frames config frames (w w' : W) :
  handle_all config frames w = Some (w', None) -> written w' = written w ++ concat (Payload <$> frames).
Proof.
  revert w. induction frames as [|f frames IH]; intros w E; cbn in E.
  - injection E as <-. by rewrite app_nil_r.
  - destruct (HandleInput config f w) as [[w1 err]|] eqn:E1; [|done]. cbn in E. destruct err; [done|].
    rewrite (IH _ E). cbn. unfold HandleInput in E1. destruct (negb _); [done|]. destruct (_ || _); [done|].
    unfold pty_writeFull in E1. rewrite writeFrom_drop in E1 by lia.
    change (drop 0 (Payload f)) with (Payload f) in E1. rewrite <- (writeContext_live _ (fun _ => None) 0) in E1 by done.
    destruct (writeContext_spec (length (Payload f)) (fun _ => None) 0 w (Payload f) ltac:(lia)) as (w2 & e2 & k & E2 & Hw & _ & Hk).
    rewrite E2 in E1. injection E1 as -> ->. rewrite Hw, (Hk eq_refl), take_ge by lia. by rewrite <- (assoc_L (++)).
Qed.
End InputSpec.

(** C29. Two bridges make a pipe. When [RunOutput] of one bridge has returned nil
    and the bridge at the other end of its stream, whose input type is the first
    one's output type, has handled every frame it sent without error, the second
    process has received exactly what the first one wrote. *)
Theorem bridge_pipe {R S W} `{BufferReaderLaws R} `{OwnedSenderLaws S} `{WriterLaws W}
    source sink (r r' : R) (s s' : S) (w w' : W) fuel frames :
  0 < b_ReadBufferSize source -> (length (incoming r) < fuel)%nat ->
  b_StreamID sink = b_StreamID source -> b_InputType sink = b_OutputType source ->
  RunOutput fuel true source r s = Some (r', s', None) -> sent s' = sent s ++ frames ->
  (forall f w, f ∈ frames -> HandleInput sink f w = pty_writeFull w (Payload f)) /\
  (handle_all sink frames w = Some (w', None) -> written w' = written w ++ incoming r).
Proof.
  intros Hb Hf Hid Hty E Hsent.
  destruct (bridge_output_frames source r s fuel Hb Hf) as (r2 & s2 & err & frames2 & lost & E2 & Hs2 & Hfr & Hcat & Hnil).
  rewrite E in E2. injection E2 as <- <- <-. rewrite Hsent in Hs2. apply app_inv_head in Hs2 as <-.
  destruct (Hnil eq_refl) as (-> & Hin & _). rewrite Hin, !app_nil_r in Hcat. split.
  - intros f w0 Hin0. rewrite Forall_forall in Hfr. destruct (NewOwnedFrame_shape _ _ _ (Hfr f Hin0)) as (_ & Hm & Hfl & Hst & _).
    unfold HandleInput. rewrite Hst, Hm, Hfl, Hid, Hty. cbn [output_header StreamID MessageType Flags].
    by rewrite !Z.eqb_refl.
  - intros Hh. rewrite Hcat. by apply handle_frames in Hh.
Qed.

(** *** Witnesses *)

(** A sender that accepts everything. *)
#[export] Instance list_sender : OwnedSender (list Frame) := fun s f => (s ++ [f], None).
#[export, refine] Instance list_sender_laws : OwnedSenderLaws (list Frame) := {| sent s := s |}.
Proof. intros s f s' err [= <- <-]. by left. Defined.

Definition demo_bridge : BridgeConfig := mkBridgeConfig 1 7 10 11 2.
Definition demo_peer_bridge : BridgeConfig := mkBridgeConfig 1 7 11 10 2.
Definition demo_sent : list Frame :=
  match RunOutput 10 true demo_bridge demo_feed [] with Some (_, s, _) => s | None => [] end.

Lemma bridge_output_witness :
  exists r' s' err, RunOutput 10 true demo_bridge demo_feed ([] : list Frame) = Some (r', s', err) /\ err = None /\
    length s' = 3%nat.
Proof.
  destruct (bridge_output demo_bridge demo_feed ([] : list Frame) 10 ltac:(reflexivity) ltac:(apply Nat.ltb_lt; reflexivity))
    as (r' & s' & err & frames & lost & E & Hs & _). exists r', s', err. split; [exact E|].
  assert (RunOutput 10 true demo_bridge demo_feed ([] : list Frame) = Some (mkFeed [], demo_sent, None)) as E' by (vm_compute; reflexivity).
  rewrite E' in E. injection E as _ <- <-. split; [reflexivity|vm_compute; reflexivity].
Defined.

Lemma bridge_pipe_witness :
  exists w, handle_all demo_peer_bridge demo_sent (mkQuota 1 []) = Some (w, None) /\
    written w = [Byte.x61; Byte.x62; Byte.x63; Byte.x64].
Proof.
  destruct (handle_all demo_peer_bridge demo_sent (mkQuota 1 [])) as [[w [e|]]|] eqn:E; [vm_compute in E; discriminate| |vm_compute in E; discriminate].
  exists w. split; [reflexivity|].
  pose proof (bridge_pipe demo_bridge demo_peer_bridge demo_feed (mkFeed []) ([] : list Frame) demo_sent (mkQuota 1 []) w 10 demo_sent)
    as H. apply H; try reflexivity; [apply Nat.ltb_lt; reflexivity|exact E].
Defined.
