(* ===== verification/Cursor.v ===== *)
(** pty/protocol.go: the list cursor, [encodeCursor] and [decodeCursor], with what
    they use of strconv, strings and encoding/base64 (RawURLEncoding). Go strings
    are lists of bytes here. *)

From S2P Require Import Prelude Errors BigEndian.

(** ** strconv *)

Definition digit_byte (d : Z) : byte := byte_of_Z (d + 48).

(** The decimal digits of [n], which has at most [fuel] of them, before [acc]. *)
Fixpoint decimal (fuel : nat) (n : Z) (acc : list byte) : list byte :=
  match fuel with
  | O => acc
  | S fuel =>
      if n <? 10 then digit_byte n :: acc
      else decimal fuel (n / 10) (digit_byte (n mod 10) :: acc)
  end.

(** [strconv.FormatUint(n, 10)]: a uint64 has at most 20 digits. *)
Definition FormatUint (n : Z) : list byte := decimal 20 n [].

(** [strconv.Itoa] *)
Definition Itoa (n : Z) : list byte :=
  if n <? 0 then Byte.x2d :: decimal 20 (- n) [] else decimal 20 n [].

Definition ErrSyntax := New "invalid syntax".
Definition ErrRange := New "value out of range".

(** The loop of [strconv.ParseUint] in base 10, bounded by [maxVal]. *)
Fixpoint parse_digits (maxVal : Z) (n : Z) (s : list byte) : Z + error :=
  match s with
  | [] => inl n
  | c :: s =>
      let d := Z_of_byte c - 48 in
      if (d <? 0) || (9 <? d) then inr ErrSyntax
      else if maxVal <? n * 10 + d then inr ErrRange
      else parse_digits maxVal (n * 10 + d) s
  end.

(** [strconv.ParseUint(s, 10, 64)] *)
Definition ParseUint (s : list byte) : Z + error :=
  match s with [] => inr ErrSyntax | _ => parse_digits MaxUint64 0 s end.

(** [strconv.Atoi] *)
Definition Atoi (s : list byte) : Z + error :=
  match s with
  | [] => inr ErrSyntax
  | c :: rest =>
      if bool_decide (c = Byte.x2d) then
        match rest with
        | [] => inr ErrSyntax
        | _ => match parse_digits (2 ^ 63) 0 rest with inl n => inl (- n) | inr e => inr e end
        end
      else if bool_decide (c = Byte.x2b) then
        match rest with [] => inr ErrSyntax | _ => parse_digits MaxInt 0 rest end
      else parse_digits MaxInt 0 s
  end.

(** ** strings *)

(** [strings.Split(s, sep)] for a one-byte separator. *)
Fixpoint Split (sep : byte) (s : list byte) : list (list byte) :=
  match s with
  | [] => [[]]
  | c :: s =>
      if bool_decide (c = sep) then [] :: Split sep s
      else match Split sep s with
           | part :: parts => (c :: part) :: parts
           | [] => [[c]]
           end
  end.

(** ** encoding/base64 *)

(** The URL alphabet. *)
Definition encode_char (v : Z) : byte :=
  byte_of_Z (if v <? 26 then v + 65 else if v <? 52 then v + 71 else if v <? 62 then v - 4
             else if v =? 62 then 45 else 95).

Definition decode_char (c : byte) : option Z :=
  let z := Z_of_byte c in
  if (65 <=? z) && (z <=? 90) then Some (z - 65)
  else if (97 <=? z) && (z <=? 122) then Some (z - 71)
  else if (48 <=? z) && (z <=? 57) then Some (z + 4)
  else if z =? 45 then Some 62
  else if z =? 95 then Some 63
  else None.

(** [RawURLEncoding.EncodeToString] *)
Fixpoint base64_encode (s : list byte) : list byte :=
  match s with
  | a :: b :: c :: rest =>
      let v := Z_of_byte a * 65536 + Z_of_byte b * 256 + Z_of_byte c in
      encode_char (v / 262144) :: encode_char (v / 4096 mod 64) :: encode_char (v / 64 mod 64) ::
      encode_char (v mod 64) :: base64_encode rest
  | [a; b] =>
      let v := Z_of_byte a * 65536 + Z_of_byte b * 256 in
      [encode_char (v / 262144); encode_char (v / 4096 mod 64); encode_char (v / 64 mod 64)]
  | [a] =>
      let v := Z_of_byte a * 65536 in
      [encode_char (v / 262144); encode_char (v / 4096 mod 64)]
  | [] => []
  end.

Definition CorruptInputError := New "illegal base64 data".

(** The sextets of a string, without its line ends. *)
Fixpoint sextets (s : list byte) : option (list Z) :=
  match s with
  | [] => Some []
  | c :: s =>
      if bool_decide (c = Byte.x0a) || bool_decide (c = Byte.x0d) then sextets s
      else v ← decode_char c; vs ← sextets s; Some (v :: vs)
  end.

(** The bytes of a list of sextets; a lone sextet is an error, the trailing bits
    of an incomplete group are ignored (the encoding is not strict). *)
Fixpoint quanta (vs : list Z) : list byte + error :=
  match vs with
  | a :: b :: c :: d :: rest =>
      let v := a * 262144 + b * 4096 + c * 64 + d in
      match quanta rest with
      | inl out => inl (byte_of_Z (v / 65536) :: byte_of_Z (v / 256 mod 256) :: byte_of_Z (v mod 256) :: out)
      | inr e => inr e
      end
  | [a; b; c] =>
      let v := a * 262144 + b * 4096 + c * 64 in
      inl [byte_of_Z (v / 65536); byte_of_Z (v / 256 mod 256)]
  | [a; b] =>
      let v := a * 262144 + b * 4096 in
      inl [byte_of_Z (v / 65536)]
  | [_] => inr CorruptInputError
  | [] => inl []
  end.

(** [RawURLEncoding.DecodeString] *)
Definition base64_decode (s : list byte) : list byte + error :=
  match sextets s with
  | Some vs => quanta vs
  | None => inr CorruptInputError
  end.

(** ** Cursors *)

Record listCursor := mkCursor { c_generation : Z; c_position : Z }.

Definition colon : byte := Byte.x3a.

Definition encodeCursor (generation position : Z) : list byte :=
  base64_encode (FormatUint generation ++ [colon] ++ Itoa position).

Definition decodeCursor (value : list byte) : listCursor + error :=
  match base64_decode value with
  | inr e => inr e
  | inl raw =>
      match Split colon raw with
      | [first; second] =>
          match ParseUint first with
          | inr e => inr e
          | inl generation =>
              match Atoi second with
              | inl position => inl (mkCursor generation position)
              | inr e => inr e
              end
          end
      | _ => inr (New "invalid cursor")
      end
  end.

(** ** Round trips *)

Lemma decode_encode_char v : 0 <= v < 64 ->
  decode_char (encode_char v) = Some v /\ encode_char v <> Byte.x0a /\ encode_char v <> Byte.x0d.
Proof.
  intros Hv. assert (forall n : nat, (n < 64)%nat -> decode_char (encode_char (Z.of_nat n)) = Some (Z.of_nat n) /\
    encode_char (Z.of_nat n) <> Byte.x0a /\ encode_char (Z.of_nat n) <> Byte.x0d) as H.
  { intros n Hn. do 64 (destruct n as [|n]; [vm_compute; split_and!; done|]). lia. }
  specialize (H (Z.to_nat v) ltac:(lia)). by rewrite Z2Nat.id in H by lia.
Qed.

Lemma sextets_encode v s vs : 0 <= v < 64 -> sextets s = Some vs -> sextets (encode_char v :: s) = Some (v :: vs).
Proof.
  intros Hv Hs. destruct (decode_encode_char v Hv) as (E & H1 & H2). cbn [sextets].
  rewrite !bool_decide_false by done. cbn [orb]. by rewrite E, Hs.
Qed.

(** The sextets of one, two and three bytes. *)
Lemma sextets_bound a b c : 0 <= a < 256 -> 0 <= b < 256 -> 0 <= c < 256 ->
  let v := a * 65536 + b * 256 + c in
  0 <= v / 262144 < 64 /\ 0 <= v / 4096 mod 64 < 64 /\ 0 <= v / 64 mod 64 < 64 /\ 0 <= v mod 64 < 64.
Proof. intros. subst v. split_and!; Z.to_euclidean_division_equations; lia. Qed.

Lemma quanta_value v : 0 <= v < 16777216 ->
  v / 262144 * 262144 + v / 4096 mod 64 * 4096 + v / 64 mod 64 * 64 + v mod 64 = v.
Proof. intros. Z.to_euclidean_division_equations; lia. Qed.

Lemma bytes_of_value a b c : 0 <= a < 256 -> 0 <= b < 256 -> 0 <= c < 256 ->
  let v := a * 65536 + b * 256 + c in v / 65536 = a /\ v / 256 mod 256 = b /\ v mod 256 = c.
Proof. intros. subst v. split_and!; Z.to_euclidean_division_equations; lia. Qed.

Lemma base64_roundtrip s : base64_decode (base64_encode s) = inl s.
Proof.
  assert (exists vs, sextets (base64_encode s) = Some vs /\ quanta vs = inl s) as (vs & Hs & Hq);
    [|unfold base64_decode; by rewrite Hs].
  revert s. fix IH 1. intros [|a [|b [|c rest]]].
  - by exists [].
  - pose proof (Z_of_byte_bound a) as Ha. change (2 ^ 8) with 256 in Ha.
    destruct (sextets_bound (Z_of_byte a) 0 0) as (H1 & H2 & H3 & H4); [done..|]. rewrite !Z.add_0_r in *.
    pose proof (quanta_value (Z_of_byte a * 65536) ltac:(lia)) as Hv.
    destruct (bytes_of_value (Z_of_byte a) 0 0) as (E1 & E2 & E3); [done..|]. rewrite !Z.add_0_r in *.
    cbn [base64_encode]. eexists [_; _]. split; [do 2 (apply sextets_encode; [done|]); done|].
    cbn [quanta]. do 2 f_equal. etrans; [|apply byte_of_Z_of_byte]. f_equal. rewrite <- E1 at 3.
    assert (Z_of_byte a * 65536 / 64 mod 64 = 0 /\ Z_of_byte a * 65536 mod 64 = 0) as [H5 H6]
      by (split; Z.to_euclidean_division_equations; lia). f_equal. lia.
  - pose proof (Z_of_byte_bound a) as Ha. pose proof (Z_of_byte_bound b) as Hb. change (2 ^ 8) with 256 in *.
    destruct (sextets_bound (Z_of_byte a) (Z_of_byte b) 0) as (H1 & H2 & H3 & H4); [done..|]. rewrite !Z.add_0_r in *.
    pose proof (quanta_value (Z_of_byte a * 65536 + Z_of_byte b * 256) ltac:(lia)) as Hv.
    destruct (bytes_of_value (Z_of_byte a) (Z_of_byte b) 0) as (E1 & E2 & E3); [done..|]. rewrite !Z.add_0_r in *.
    cbn [base64_encode]. set (v := Z_of_byte a * 65536 + Z_of_byte b * 256) in *.
    eexists [_; _; _]. split; [do 3 (apply sextets_encode; [done|]); done|].
    assert (v mod 64 = 0) as H6 by (unfold v; Z.to_euclidean_division_equations; lia).
    cbn [quanta]. replace (v / 262144 * 262144 + v / 4096 mod 64 * 4096 + v / 64 mod 64 * 64) with v by lia.
    by rewrite E1, E2, !byte_of_Z_of_byte.
  - destruct (IH rest) as (vs & Hs & Hq). pose proof (Z_of_byte_bound a) as Ha.
    pose proof (Z_of_byte_bound b) as Hb. pose proof (Z_of_byte_bound c) as Hc. change (2 ^ 8) with 256 in *.
    destruct (sextets_bound (Z_of_byte a) (Z_of_byte b) (Z_of_byte c)) as (H1 & H2 & H3 & H4); [done..|].
    pose proof (quanta_value (Z_of_byte a * 65536 + Z_of_byte b * 256 + Z_of_byte c) ltac:(lia)) as Hv.
    destruct (bytes_of_value (Z_of_byte a) (Z_of_byte b) (Z_of_byte c)) as (E1 & E2 & E3); [done..|].
    cbn [base64_encode]. set (v := Z_of_byte a * 65536 + Z_of_byte b * 256 + Z_of_byte c) in *.
    eexists (_ :: _ :: _ :: _ :: vs). split; [do 4 (apply sextets_encode; [done|]); done|].
    cbn [quanta]. by rewrite Hv, Hq, E1, E2, E3, !byte_of_Z_of_byte.
Qed.

(** *** Decimal numbers *)

Lemma digit_value d : 0 <= d < 10 -> Z_of_byte (digit_byte d) - 48 = d /\ digit_byte d <> colon /\
  digit_byte d <> Byte.x2d /\ digit_byte d <> Byte.x2b.
Proof.
  intros Hd. assert (forall n : nat, (n < 10)%nat -> Z_of_byte (digit_byte (Z.of_nat n)) - 48 = Z.of_nat n /\
    digit_byte (Z.of_nat n) <> colon /\ digit_byte (Z.of_nat n) <> Byte.x2d /\ digit_byte (Z.of_nat n) <> Byte.x2b) as H.
  { intros n Hn. do 10 (destruct n as [|n]; [vm_compute; split_and!; done|]). lia. }
  specialize (H (Z.to_nat d) ltac:(lia)). by rewrite Z2Nat.id in H by lia.
Qed.

Definition is_digit (c : byte) : Prop := exists d, 0 <= d < 10 /\ c = digit_byte d.

Lemma decimal_app fuel n acc : decimal fuel n acc = decimal fuel n [] ++ acc.
Proof.
  revert n acc. induction fuel as [|fuel IH]; intros n acc; [done|]. cbn. destruct (n <? 10); [done|].
  rewrite IH. symmetry. rewrite IH, <- (assoc_L (++)). done.
Qed.

Lemma decimal_spec fuel n : 0 <= n < 10 ^ Z.of_nat fuel -> (0 < fuel)%nat ->
  Forall is_digit (decimal fuel n []) /\ decimal fuel n [] <> [] /\
  forall maxVal m rest, 0 <= m -> m * 10 ^ len (decimal fuel n []) + n <= maxVal ->
    parse_digits maxVal m (decimal fuel n [] ++ rest) = parse_digits maxVal (m * 10 ^ len (decimal fuel n []) + n) rest.
Proof.
  revert n. induction fuel as [|fuel IH]; intros n Hn Hf; [lia|]. cbn [decimal].
  destruct (Z.ltb_spec n 10) as [Hlt|Hge].
  - destruct (digit_value n ltac:(lia)) as [Hv _].
    split; [constructor; [exists n; split; [lia|done]|constructor]|]. split; [done|]. intros maxVal m rest Hm Hle.
    change (len [digit_byte n]) with 1 in *. rewrite Z.pow_1_r in *. cbn [app parse_digits]. rewrite Hv.
    by rewrite (proj2 (Z.ltb_ge n 0)), (proj2 (Z.ltb_ge 9 n)), (proj2 (Z.ltb_ge _ _)) by lia.
  - assert (fuel <> 0)%nat as Hfu by (intros ->; cbn in Hn; lia).
    assert (0 <= n / 10 < 10 ^ Z.of_nat fuel) as Hq.
    { rewrite Nat2Z.inj_succ, Z.pow_succ_r in Hn by lia. split; [apply Z.div_pos; lia|apply Z.div_lt_upper_bound; lia]. }
    destruct (IH (n / 10) Hq ltac:(lia)) as (Hd & Hne & Hp).
    pose proof (Z.mod_pos_bound n 10 ltac:(lia)) as Hr. destruct (digit_value (n mod 10) Hr) as [Hv _].
    pose proof (Z.div_mod n 10 ltac:(lia)) as Hdm.
    rewrite decimal_app. split; [apply Forall_app; split; [done|constructor; [by exists (n mod 10)|constructor]]|].
    split; [by destruct (decimal fuel (n / 10) [])|]. intros maxVal m rest Hm Hle.
    mux_rw. change (len [digit_byte (n mod 10)]) with 1 in *. rewrite (Z.add_comm _ (1 + _)) in *.
    set (k := len (decimal fuel (n / 10) [])) in *. pose proof (len_nonneg (decimal fuel (n / 10) [])) as Hk.
    rewrite Z.add_0_r in *.
    replace (10 ^ (1 + k)) with (10 * 10 ^ k) in * by (rewrite Z.pow_add_r by lia; lia).
    rewrite <- (assoc_L (++)), Hp by lia. cbn [app parse_digits]. rewrite Hv.
    rewrite (proj2 (Z.ltb_ge (n mod 10) 0)), (proj2 (Z.ltb_ge 9 _)), (proj2 (Z.ltb_ge _ _)) by lia. cbn [orb].
    f_equal. lia.
Qed.

Lemma FormatUint_digits n : 0 <= n < 2 ^ 64 ->
  Forall is_digit (FormatUint n) /\ FormatUint n <> [] /\
  forall maxVal, n <= maxVal -> parse_digits maxVal 0 (FormatUint n) = inl n.
Proof.
  intros Hn. destruct (decimal_spec 20 n) as (Hd & Hne & Hp); [lia|lia|].
  split; [done|]. split; [done|]. intros maxVal Hm.
  specialize (Hp maxVal 0 [] ltac:(lia) ltac:(lia)). rewrite app_nil_r, Z.mul_0_l in Hp. exact Hp.
Qed.

Lemma ParseUint_FormatUint n : 0 <= n < 2 ^ 64 -> ParseUint (FormatUint n) = inl n.
Proof.
  intros Hn. destruct (FormatUint_digits n Hn) as (_ & Hne & Hp). unfold ParseUint.
  destruct (FormatUint n) eqn:E; [done|]. apply Hp. unfold MaxUint64. lia.
Qed.

Lemma Atoi_Itoa n : - 2 ^ 63 <= n < 2 ^ 63 -> Atoi (Itoa n) = inl n.
Proof.
  intros Hn. unfold Itoa, Atoi. destruct (Z.ltb_spec n 0) as [Hneg|Hpos].
  - rewrite bool_decide_true by done. destruct (FormatUint_digits (- n) ltac:(lia)) as (_ & Hne & Hp).
    unfold FormatUint in *. destruct (decimal 20 (- n) []) eqn:E; [done|]. rewrite Hp by lia. f_equal. lia.
  - destruct (FormatUint_digits n ltac:(lia)) as (Hd & Hne & Hp). unfold FormatUint in *.
    destruct (decimal 20 n []) as [|c s] eqn:E; [done|]. apply Forall_cons in Hd as [(d & Hd & Hcd) _].
    destruct (digit_value d Hd) as (_ & _ & ? & ?). rewrite !bool_decide_false by congruence.
    apply Hp. unfold MaxInt. lia.
Qed.

Lemma Split_none sep s : Forall (fun c => c <> sep) s -> Split sep s = [s].
Proof. induction 1 as [|c s Hc _ IH]; [done|]. cbn. by rewrite bool_decide_false, IH. Qed.

Lemma Split_first sep s t : Forall (fun c => c <> sep) s -> Split sep (s ++ sep :: t) = s :: Split sep t.
Proof.
  induction 1 as [|c s Hc _ IH]; cbn; [by rewrite bool_decide_true|]. by rewrite bool_decide_false, IH.
Qed.

Lemma Itoa_no_colon n : - 2 ^ 63 <= n < 2 ^ 63 -> Forall (fun c => c <> colon) (Itoa n).
Proof.
  intros Hn. assert (forall m, 0 <= m < 2 ^ 64 -> Forall (fun c => c <> colon) (decimal 20 m [])) as H.
  { intros m Hm. destruct (FormatUint_digits m Hm) as (Hd & _). eapply Forall_impl; [exact Hd|].
    intros c (d & Hd' & ->). by apply digit_value. }
  unfold Itoa. destruct (Z.ltb_spec n 0); [constructor; [done|]|]; apply H; lia.
Qed.

Lemma decode_encodeCursor generation position :
  fits_u 64 generation -> - 2 ^ 63 <= position < 2 ^ 63 ->
  decodeCursor (encodeCursor generation position) = inl (mkCursor generation position).
Proof.
  intros Hg Hp. unfold decodeCursor, encodeCursor. rewrite base64_roundtrip. cbn [app].
  destruct (FormatUint_digits generation Hg) as (Hd & _).
  rewrite Split_first; [rewrite Split_none by (by apply Itoa_no_colon); by rewrite ParseUint_FormatUint, Atoi_Itoa|].
  eapply Forall_impl; [exact Hd|]. intros b (d & Hd' & ->). by apply digit_value.
Qed.

Lemma encodeCursor_nonempty generation position : encodeCursor generation position <> [].
Proof.
  unfold encodeCursor. by destruct (FormatUint generation) as [|a [|b [|c l]]], (Itoa position) as [|? [|? ?]].
Qed.

(** A list cursor survives its trip to the client: decoding the encoding of a
    generation and a position gives them back, for every uint64 generation and
    every int position; and a cursor that decodes names a position that fits an
    int and a generation that fits a uint64, whatever the client sent. *)
Theorem cursor_roundtrip generation position value c :
  fits_u 64 generation -> - 2 ^ 63 <= position < 2 ^ 63 ->
  decodeCursor (encodeCursor generation position) = inl (mkCursor generation position) /\
  (decodeCursor value = inl c -> fits_u 64 (c_generation c) /\ - 2 ^ 63 <= c_position c < 2 ^ 63).
Proof.
  intros Hg Hp. split; [by apply decode_encodeCursor|].
  assert (forall maxVal s n m, 0 <= n -> parse_digits maxVal n s = inl m -> n <= maxVal -> 0 <= m <= maxVal) as Hb.
    { intros maxVal. induction s as [|b s IH]; intros n m Hn Hm Hle; cbn in Hm; [by injection Hm as <-|].
      destruct (Z.ltb_spec (Z_of_byte b - 48) 0) as [|Hlo]; [done|].
      destruct (Z.ltb_spec 9 (Z_of_byte b - 48)) as [|Hhi]; [done|]. cbn [orb] in Hm.
      destruct (Z.ltb_spec maxVal (n * 10 + (Z_of_byte b - 48))) as [|Hv]; [done|]. eapply IH; [|exact Hm|]; lia. }
    unfold decodeCursor. destruct (base64_decode value) as [raw|]; [|done].
    destruct (Split colon raw) as [|first [|second [|]]]; try done.
    destruct (ParseUint first) as [g|] eqn:Eg; [|done]. destruct (Atoi second) as [q|] eqn:Eq; [|done].
    intros [= <-]. cbn. unfold MaxUint64, MaxInt in *. split.
    + unfold ParseUint in Eg. destruct first; [done|]. apply Hb in Eg; unfold fits_u, MaxUint64 in *; lia.
    + unfold Atoi in Eq. destruct second as [|b rest]; [done|]. unfold MaxInt in Eq. case_bool_decide.
      * destruct rest; [done|]. destruct (parse_digits _ _ _) as [n|] eqn:En; [|done]. injection Eq as <-.
        apply Hb in En; lia.
      * case_bool_decide; [destruct rest; [done|]|]; apply Hb in Eq; lia.
Qed.

Lemma cursor_roundtrip_witness :
  encodeCursor 12 128 = [Byte.x4d; Byte.x54; Byte.x49; Byte.x36; Byte.x4d; Byte.x54; Byte.x49; Byte.x34] /\
  decodeCursor (encodeCursor 12 128) = inl (mkCursor 12 128).
Proof.
  split; [vm_compute; reflexivity|].
  apply (cursor_roundtrip 12 128 [] (mkCursor 0 0)); [split; [lia|reflexivity]|split; [lia|reflexivity]].
Defined.
