(* ===== verification/Protocol.v ===== *)
(** pty/protocol.go: message types, configuration, payloads, error codes, the
    registration of the handlers and the helpers they share. *)

From S2P Require Import Prelude Errors BigEndian Frame PeerConfig Peer Inbound Correlation PtyTypes Attachment Subscription History Manager Cursor.

(** ** Message types and configuration *)

Record MessageTypes := mkTypes {
  t_Open : Z; t_List : Z; t_Inspect : Z; t_Attach : Z; t_Detach : Z; t_Input : Z; t_Output : Z;
  t_Resize : Z; t_Kill : Z; t_Exit : Z; t_ReplayBegin : Z; t_ReplayEnd : Z; t_Error : Z;
}.

Definition type_values (t : MessageTypes) : list Z :=
  [t_Open t; t_List t; t_Inspect t; t_Attach t; t_Detach t; t_Input t; t_Output t; t_Resize t; t_Kill t;
   t_Exit t; t_ReplayBegin t; t_ReplayEnd t; t_Error t].

(** The loop of [MessageTypes.validate]. *)
Fixpoint validate_types (values : list Z) (seen : gset Z) : option error :=
  match values with
  | [] => None
  | value :: values =>
      if value =? 0 then Some ErrInvalidMessageTypes
      else if bool_decide (value ∈ seen) then Some ErrInvalidMessageTypes
      else validate_types values ({[value]} ∪ seen)
  end.

Definition MessageTypes_validate (t : MessageTypes) : option error := validate_types (type_values t) ∅.

Inductive Operation :=
| OperationOpen | OperationList | OperationInspect | OperationAttach
| OperationDetach | OperationInput | OperationResize | OperationKill.
#[export] Instance Operation_eq_dec : EqDecision Operation.
Proof. solve_decision. Defined.

Record AuthorizationRequest := mkAuthorization {
  au_Operation : Operation;
  au_SessionID : Z;
  au_ProcessSpec : option ProcessSpec;
}.

(** The callbacks are nilable functions; their context is left out. *)
Record ProtocolConfig := mkProtocolConfig {
  pc_Version : Z;
  pc_Types : MessageTypes;
  pc_MaxListItems : Z;
  pc_MaxCommandBytes : Z;
  pc_MaxDirectoryBytes : Z;
  pc_MaxArgumentBytes : Z;
  pc_MaxArguments : Z;
  pc_MaxEnvironment : Z;
  pc_Authorize : option (AuthorizationRequest -> option error);
  pc_FilterSessions : option (list SessionInfo -> list SessionInfo + error);
}.

Definition zeroTypes : MessageTypes := mkTypes 0 0 0 0 0 0 0 0 0 0 0 0 0.

Definition DefaultProtocolConfig : ProtocolConfig :=
  mkProtocolConfig 1 zeroTypes 128 4096 (Z.shiftl 16 10) (Z.shiftl 64 10) 256 256 None None.

(** ** Payloads *)

Inductive ErrorCode :=
| CodeInvalidRequest | CodeSessionNotFound | CodeSessionExists | CodeAlreadyAttached | CodeAttachmentLimit
| CodeSessionExited | CodeManagerClosed | CodeUnsupportedVersion | CodeQueueOverflow | CodeBackendFailure
| CodePermissionDenied.
#[export] Instance ErrorCode_eq_dec : EqDecision ErrorCode.
Proof. solve_decision. Defined.

Definition ErrorCode_text (c : ErrorCode) : string :=
  match c with
  | CodeInvalidRequest => "invalid_request" | CodeSessionNotFound => "session_not_found"
  | CodeSessionExists => "session_exists" | CodeAlreadyAttached => "already_attached"
  | CodeAttachmentLimit => "attachment_limit" | CodeSessionExited => "session_exited"
  | CodeManagerClosed => "manager_closed" | CodeUnsupportedVersion => "unsupported_version"
  | CodeQueueOverflow => "queue_overflow" | CodeBackendFailure => "backend_failure"
  | CodePermissionDenied => "permission_denied"
  end.

Record RemoteError := mkRemoteError { re_Code : ErrorCode; re_Message : string; re_Details : gmap string string }.
#[export] Instance RemoteError_eq_dec : EqDecision RemoteError.
Proof. solve_decision. Defined.

(** [RemoteError.Error] and [RemoteError.Is] of another [RemoteError]; nil is [None]. *)
Definition RemoteError_Error (e : option RemoteError) : string :=
  match e with
  | None => ""
  | Some e => ("pty remote " +:+ ErrorCode_text (re_Code e) +:+ ": " +:+ re_Message e)%string
  end.
Definition RemoteError_Is (e other : RemoteError) : bool := bool_decide (re_Code other = re_Code e).

Record ProtocolResponse := mkResponse {
  r_Version : Z;
  r_Error : option RemoteError;
  r_Session : option SessionInfo;
  r_Sessions : list SessionInfo;
  r_NextCursor : list byte;
  r_Attach : option AttachResult;
}.

Record OpenRequest := mkOpenRequest {
  or_Version : Z; or_Command : string; or_Args : list string; or_Env : option (list string);
  or_Dir : string; or_InitialSize : Size;
}.
Record AttachRequest := mkAttachRequest { ar_Version : Z; ar_Replay : string; ar_ResumeAfter : Z }.
Record ListRequest := mkListRequest { lr_Version : Z; lr_Cursor : list byte; lr_Limit : Z }.
Record VersionOnly := mkVersionOnly { vo_Version : Z }.
Record ReplayMetadata := mkReplayMetadata {
  rm_Version : Z; rm_First : Z; rm_Last : Z; rm_NextLive : Z; rm_Truncated : bool;
}.
Record ExitPayload := mkExitPayload { xp_Version : Z; xp_Exit : ExitStatus }.
Record ProtocolErrorEvent := mkProtocolErrorEvent { pe_Version : Z; pe_Code : ErrorCode; pe_Message : string }.

(** ** encoding/json and error texts, which are parameters *)

Class Marshaler (A : Type) := Marshal : A -> list byte + error.
(** [json.Unmarshal] into a zero value: what it holds afterwards, and the error. *)
Class Unmarshaler (A : Type) := Unmarshal : list byte -> A * option error.
(** [err.Error()] *)
Class ErrorText := error_text : error -> string.

(** [EncodeControl] *)
Definition EncodeControl {A} `{Marshaler A} (value : A) : list byte + error := Marshal value.

Definition zeroResponse : ProtocolResponse := mkResponse 0 None None [] [] None.

(** [DecodeProtocolResponse]; its error is an error or the remote one. *)
Definition DecodeProtocolResponse `{Unmarshaler ProtocolResponse} (payload : list byte)
    : ProtocolResponse * option (error + RemoteError) :=
  if len payload =? 0 then (zeroResponse, Some (inl ErrInvalidPayload))
  else let '(response, err) := Unmarshal payload in
       match err with
       | Some _ => (response, Some (inl (Wrap ErrInvalidPayload [])))
       | None => match r_Error response with
                 | Some e => (response, Some (inr e))
                 | None => (response, None)
                 end
       end.

(** ** Registration *)

(** Go's [if x == 0 { x = d }]. *)
Definition default (x d : Z) : Z := if x =? 0 then d else x.

Definition fill_protocol (c : ProtocolConfig) : ProtocolConfig :=
  let d := DefaultProtocolConfig in
  mkProtocolConfig (default (pc_Version c) (pc_Version d)) (pc_Types c)
    (default (pc_MaxListItems c) (pc_MaxListItems d)) (default (pc_MaxCommandBytes c) (pc_MaxCommandBytes d))
    (default (pc_MaxDirectoryBytes c) (pc_MaxDirectoryBytes d))
    (default (pc_MaxArgumentBytes c) (pc_MaxArgumentBytes d)) (default (pc_MaxArguments c) (pc_MaxArguments d))
    (default (pc_MaxEnvironment c) (pc_MaxEnvironment d)) (pc_Authorize c) (pc_FilterSessions c).

(** The identity of each handler, as registered with the peer. *)
Definition handler_id (op : Operation) : N :=
  match op with
  | OperationOpen => 1 | OperationList => 2 | OperationInspect => 3 | OperationAttach => 4
  | OperationDetach => 5 | OperationInput => 6 | OperationResize => 7 | OperationKill => 8
  end%N.

Definition request_type (t : MessageTypes) (op : Operation) : Z :=
  match op with
  | OperationOpen => t_Open t | OperationList => t_List t | OperationInspect => t_Inspect t
  | OperationAttach => t_Attach t | OperationDetach => t_Detach t | OperationInput => t_Input t
  | OperationResize => t_Resize t | OperationKill => t_Kill t
  end.

Definition operations : list Operation :=
  [OperationOpen; OperationList; OperationInspect; OperationAttach; OperationDetach; OperationInput;
   OperationResize; OperationKill].

(** The map literal [handlers]. *)
Definition protocol_handlers (t : MessageTypes) : list (Z * option N) :=
  (fun op => (request_type t op, Some (handler_id op))) <$> operations.

(** [RegisterProtocol]: the configuration of the new Protocol, or the error, and
    the peer's handlers. [peer] and [manager] are whether they are non-nil,
    [maxFrame] is [peer.MaxFrameBytes()], [closed] and [h] the state of the peer. *)
Definition RegisterProtocol (peer manager : bool) (mcfg : ManagerConfig) (maxFrame : Z) (config : ProtocolConfig)
    (closed : bool) (h : Handlers) : (ProtocolConfig + error) * Handlers :=
  if negb peer || negb manager then (inr (New "pty: nil Protocol dependency"), h)
  else
    let config := fill_protocol config in
    if (pc_MaxListItems config <? 1) || (pc_MaxCommandBytes config <? 1) || (pc_MaxDirectoryBytes config <? 1) ||
       (pc_MaxArgumentBytes config <? 1) || (pc_MaxArguments config <? 1) || (pc_MaxEnvironment config <? 1) then
      (inr (New "pty: invalid list limit"), h)
    else if maxFrame <? ReadBufferBytes mcfg then
      (inr (New "pty: ReadBufferBytes exceeds peer frame payload limit"), h)
    else match MessageTypes_validate (pc_Types config) with
    | Some err => (inr err, h)
    | None =>
        match RegisterHandlers (protocol_handlers (pc_Types config)) closed h with
        | (Some err, h) => (inr err, h)
        | (None, h) => (inl config, h)
        end
    end.

(** ** Checks *)

(** The slice [env], nil or not. *)
Definition items (env : option (list string)) : list string := from_option id [] env.

(** [validateOpenRequest] *)
Definition validateOpenRequest (config : ProtocolConfig) (request : OpenRequest) : option error :=
  if (pc_MaxCommandBytes config <? slen (or_Command request)) || (pc_MaxDirectoryBytes config <? slen (or_Dir request))
  then Some (New "process specification string limit exceeded")
  else if (pc_MaxArguments config <? len (or_Args request)) || (pc_MaxEnvironment config <? len (items (or_Env request)))
  then Some (New "process specification item limit exceeded")
  else
    let values := ([or_Command request; or_Dir request] ++ or_Args request) ++ items (or_Env request) in
    if existsb (fun value => (pc_MaxArgumentBytes config <? slen value) || has_nul value) values
    then Some (New "invalid process specification string") else None.

(** [decode] *)
Definition decode {A} `{Unmarshaler A, Unmarshaler VersionOnly} (config : ProtocolConfig) (frame : Frame) : A + error :=
  if negb (Flags (FHeader frame) =? FlagRequest) then inr ErrUnexpectedFrame
  else if len (Payload frame) =? 0 then inr ErrInvalidPayload
  else
    let '(target, err) := Unmarshal (Payload frame) in
    match err with
    | Some _ => inr (Wrap ErrInvalidPayload [])
    | None =>
        let '(version, err) := (Unmarshal (Payload frame) : VersionOnly * option error) in
        if bool_decide (is_Some err) || negb (vo_Version version =? pc_Version config)
        then inr ErrUnsupportedProtocolVersion else inl target
    end.

(** [decodeErrorCode] *)
Definition decodeErrorCode (err : error) : ErrorCode :=
  if errors_Is err ErrUnsupportedProtocolVersion then CodeUnsupportedVersion else CodeInvalidRequest.

(** The switch of [respondOperationError]. *)
Definition operationErrorCode (cause : error) : ErrorCode :=
  if errors_Is cause ErrSessionNotFound then CodeSessionNotFound
  else if errors_Is cause ErrAttachmentLimit then CodeAttachmentLimit
  else if errors_Is cause ErrSessionExited || errors_Is cause ErrSessionRunning then CodeSessionExited
  else if errors_Is cause ErrManagerClosed then CodeManagerClosed
  else if errors_Is cause ErrQueueOverflow then CodeQueueOverflow
  else CodeBackendFailure.

(** [authorize] *)
Definition authorize (config : ProtocolConfig) (request : AuthorizationRequest) : option error :=
  match pc_Authorize config with
  | None => None
  | Some f => f request
  end.

(** ** Properties *)

Lemma validate_types_spec values seen :
  validate_types values seen = None <->
  NoDup values /\ Forall (fun v => v <> 0) values /\ (forall v, v ∈ values -> v ∉ seen).
Proof.
  revert seen. induction values as [|v values IH]; intros seen; cbn.
  { split; [|done]. intros _. split_and!; [constructor..|]. by intros v ?%elem_of_nil. }
  rewrite NoDup_cons, Forall_cons. destruct (Z.eqb_spec v 0) as [Hv|Hv].
  { split; [done|]. by intros (_ & [? _] & _). }
  case_bool_decide as Hs.
  { split; [done|]. intros (_ & _ & H). exfalso. apply (H v); [left|done]. }
  rewrite IH. split.
  - intros (Hn & Hf & Hd). split_and!; try done; [by intros H; apply (Hd v H); set_solver|].
    intros w [->|Hw]%elem_of_cons; [done|]. specialize (Hd w Hw). set_solver.
  - intros ([Hnv Hn] & [_ Hf] & Hd). split_and!; try done. intros w Hw.
    assert (w ∉ seen) by (apply Hd; by right). set_unfold. intros [->|?]; done.
Qed.

(** The numbers of a configuration that passed the tests are usable: no two
    operations or events share a type, and none is the reserved zero. *)
Definition types_ok (t : MessageTypes) : Prop := NoDup (type_values t) /\ Forall (fun v => v <> 0) (type_values t).

Lemma MessageTypes_validate_ok t : MessageTypes_validate t = None <-> types_ok t.
Proof.
  unfold MessageTypes_validate, types_ok. rewrite validate_types_spec. split; [tauto|]. intros [? ?].
  split_and!; [done..|]. by intros v _ ?%elem_of_empty.
Qed.

Record protocol_config_ok (c : ProtocolConfig) : Prop := {
  po_types : types_ok (pc_Types c);
  po_list : 1 <= pc_MaxListItems c;
  po_command : 1 <= pc_MaxCommandBytes c;
  po_directory : 1 <= pc_MaxDirectoryBytes c;
  po_argument : 1 <= pc_MaxArgumentBytes c;
  po_arguments : 1 <= pc_MaxArguments c;
  po_environment : 1 <= pc_MaxEnvironment c;
}.

Lemma request_types_nodup t : types_ok t -> NoDup (protocol_handlers t).*1.
Proof.
  intros [Hn _]. cbn. unfold type_values in Hn. rewrite !NoDup_cons, !elem_of_cons in *. set_solver.
Qed.

Lemma request_types_nonzero t op : types_ok t -> request_type t op <> 0.
Proof.
  intros [_ Hf]. rewrite Forall_forall in Hf. apply Hf. unfold type_values. rewrite !elem_of_cons.
  destruct op; cbn; tauto.
Qed.

Lemma operations_all op : op ∈ operations.
Proof. unfold operations. rewrite !elem_of_cons. destruct op; tauto. Qed.

Lemma protocol_handlers_lookup t mt : types_ok t ->
  match list_to_map (M := gmap Z (option N)) (protocol_handlers t) !! mt with
  | Some f => exists op, request_type t op = mt /\ f = Some (handler_id op)
  | None => forall op, request_type t op <> mt
  end.
Proof.
  intros Ht. destruct (list_to_map _ !! mt) as [f|] eqn:E.
  - apply elem_of_list_to_map_2 in E. unfold protocol_handlers in E.
    apply list_elem_of_fmap in E as (op & [= -> ->] & _). by exists op.
  - apply not_elem_of_list_to_map_2 in E. intros op <-. apply E. unfold protocol_handlers.
    apply list_elem_of_fmap. eexists (_, _). split; [|apply list_elem_of_fmap; exists op; split; [done|apply operations_all]].
    done.
Qed.

(** [RegisterProtocol] on every branch. *)
Lemma RegisterProtocol_exact peer manager mcfg maxFrame c closed h :
  let config := fill_protocol c in
  let ok := peer = true /\ manager = true /\ protocol_config_ok config /\ ReadBufferBytes mcfg <= maxFrame /\
    closed = false /\ (forall op, h !! request_type (pc_Types c) op = None) in
  let '(result, h') := RegisterProtocol peer manager mcfg maxFrame c closed h in
  match result with
  | inl config' => ok /\ config' = config /\
      (forall op, h' !! request_type (pc_Types c) op = Some (handler_id op)) /\
      (forall mt, (forall op, request_type (pc_Types c) op <> mt) -> h' !! mt = h !! mt)
  | inr _ => ~ ok /\ h' = h
  end.
Proof.
  cbn zeta. unfold RegisterProtocol.
  destruct (negb peer || negb manager) eqn:Ed; cbn beta iota zeta.
  { split; [|done]. intros (-> & -> & _). done. }
  destruct ((_ <? 1) || _ || _ || _ || _ || _) eqn:El; cbn beta iota zeta.
  { split; [|done]. intros (_ & _ & Ho & _). destruct Ho as [_ ? ? ? ? ? ?]. apply not_false_iff_true in El. apply El.
    rewrite !orb_false_iff, !Z.ltb_ge. split_and!; done. }
  rewrite !orb_false_iff, !Z.ltb_ge in El. destruct El as (((((? & ?) & ?) & ?) & ?) & ?).
  destruct (Z.ltb_spec maxFrame (ReadBufferBytes mcfg)); cbn beta iota zeta; [split; [|done]; intros (_ & _ & _ & ? & _); lia|].
  change (pc_Types (fill_protocol c)) with (pc_Types c).
  pose proof (MessageTypes_validate_ok (pc_Types c)) as Ht. destruct (MessageTypes_validate _) as [e|].
  { split; [|done]. intros (_ & _ & Ho & _). by apply po_types, Ht in Ho. }
  destruct Ht as [Ht _]. specialize (Ht eq_refl).
  pose proof (RegisterHandlers_atomic (protocol_handlers (pc_Types c)) closed h (request_types_nodup _ Ht)) as Hr.
  destruct (RegisterHandlers _ _ _) as [[e|] h']; destruct Hr as (Hok & Hin & Hout); cbn beta iota zeta.
  - split; [|by apply Hout]. intros (_ & _ & _ & _ & Hc & Hn). enough (Some e = None) by done. apply Hok.
    split_and!; [done..|]. apply Forall_fmap, Forall_forall. intros op _. cbn.
    split_and!; [by apply request_types_nonzero|done|apply Hn].
  - destruct Hok as [Hok _]. destruct (Hok eq_refl) as (Hc & _ & Hall). specialize (Hin eq_refl).
    apply Forall_fmap in Hall. rewrite Forall_forall in Hall.
    apply orb_false_iff in Ed as [?%negb_false_iff ?%negb_false_iff].
    split_and!; try done.
    + intros op. by destruct (Hall op (operations_all op)) as (_ & _ & ?).
    + intros op. rewrite Hin. pose proof (protocol_handlers_lookup (pc_Types c) (request_type (pc_Types c) op) Ht) as Hl.
      destruct (list_to_map _ !! _) as [f|]; [|by edestruct Hl]. destruct Hl as (op' & E & ->).
      destruct Ht as [Hn _]. unfold type_values in Hn. rewrite !NoDup_cons, !elem_of_cons in Hn.
      enough (op' = op) as -> by done. destruct op, op'; try done; cbn in E; exfalso; intuition congruence.
    + intros mt Hmt. rewrite Hin. pose proof (protocol_handlers_lookup (pc_Types c) mt Ht) as Hl.
      destruct (list_to_map _ !! mt) as [f|]; [|done]. destruct Hl as (op & E & _). by edestruct Hmt.
Qed.

(** C34. Registration is exact and atomic. [RegisterProtocol] succeeds exactly when
    its dependencies are there, the configuration with its defaults has positive
    limits and distinct non-zero types, the Manager's chunks fit a frame, and the
    peer is open with none of the eight request types taken; then each request
    type is handled by its own operation and every other type as before. On an
    error the peer's handlers are unchanged. *)
Theorem RegisterProtocol_spec peer manager mcfg maxFrame c closed h :
  let config := fill_protocol c in
  let ok := peer = true /\ manager = true /\ protocol_config_ok config /\ ReadBufferBytes mcfg <= maxFrame /\
    closed = false /\ (forall op, h !! request_type (pc_Types c) op = None) in
  let '(result, h') := RegisterProtocol peer manager mcfg maxFrame c closed h in
  match result with
  | inl config' => ok /\ config' = config /\
      (forall op, h' !! request_type (pc_Types c) op = Some (handler_id op)) /\
      (forall mt, (forall op, request_type (pc_Types c) op <> mt) -> h' !! mt = h !! mt)
  | inr _ => ~ ok /\ h' = h
  end.
Proof. apply RegisterProtocol_exact. Qed.

(** *** Process specifications *)

Definition spec_string_ok (c : ProtocolConfig) (s : string) : Prop :=
  slen s <= pc_MaxArgumentBytes c /\ Ascii.zero ∉ String.list_ascii_of_string s.

(** The limits on a process specification of a client. [validateOpenRequest]
    accepts exactly the requests whose command, directory, argument and
    environment counts and lengths are within the configured limits and whose
    strings hold no NUL byte. *)
Theorem validateOpenRequest_spec c r :
  validateOpenRequest c r = None <->
  slen (or_Command r) <= pc_MaxCommandBytes c /\ slen (or_Dir r) <= pc_MaxDirectoryBytes c /\
  len (or_Args r) <= pc_MaxArguments c /\ len (items (or_Env r)) <= pc_MaxEnvironment c /\
  Forall (spec_string_ok c) (or_Command r :: or_Dir r :: or_Args r ++ items (or_Env r)).
Proof.
  unfold validateOpenRequest. destruct (_ || _) eqn:E1.
  { split; [done|]. intros (? & ? & _). reflect_bools. destruct E1; reflect_bools; lia. }
  destruct ((_ <? len _) || _) eqn:E2.
  { split; [done|]. intros (_ & _ & ? & ? & _). reflect_bools. destruct E2; reflect_bools; lia. }
  rewrite orb_false_iff, !Z.ltb_ge in E1, E2. cbn [app]. set (values := or_Command r :: _).
  assert (existsb (fun v => (pc_MaxArgumentBytes c <? slen v) || has_nul v) values = false <->
          Forall (spec_string_ok c) values) as H.
  { clear. induction values as [|v values IH]; cbn; [split; [constructor|done]|].
    rewrite !orb_false_iff, Forall_cons, IH, Z.ltb_ge, has_nul_spec. done. }
  destruct (existsb _ _).
  - split; [done|]. intros (_ & _ & _ & _ & Hf). by apply H in Hf.
  - split; [|done]. intros _. split_and!; tauto.
Qed.
