(* ===== verification/ProtocolHandlers.v ===== *)
(** pty/protocol.go: the request handlers and the output sink, as actions on the
    peer, the Manager and the attachments of one connection. *)

From S2P Require Import Prelude Errors BigEndian Frame PeerConfig Peer Inbound Correlation PtyTypes Attachment Subscription History Manager Cursor Protocol.

(** ** What the handlers use of the peer and of the Manager *)

(** [Peer.SendOwned ctx frame class]. *)
Class ClassSender (P : Type) := SendClass : Frame -> Z -> P -> option error * P.

(** Success means that the frame was taken, once; a failed or cancelled send may
    still have left its frame in the queue. *)
Class ClassSenderLaws (P : Type) `{ClassSender P} := {
  wire : P -> list (Frame * Z);
  SendClass_law frame class p err p' : SendClass frame class p = (err, p') ->
    wire p' = wire p ++ [(frame, class)] \/ wire p' = wire p /\ err <> None
}.

(** The Manager's operations. A session stands for itself by its identifier, an
    attachment by those of its session and its own. *)
Class ManagerAPI (M : Type) := {
  api_ListSnapshot : M -> Z * list SessionInfo;
  api_Open : ProcessSpec -> M -> (Z + error) * M;
  api_Get : Z -> M -> bool;
  api_Info : Z -> M -> SessionInfo;
  api_Attach : Z -> string -> Z -> bool -> M -> ((Z * Z) * AttachResult + error) * M;
  api_Activate : Z * Z -> M -> option error * M;
  api_CloseAttachment : Z * Z -> M -> M;
  api_Kill : Z -> M -> option error * M;
  api_Resize : Z -> Size -> M -> option error * M;
  api_Input : Z -> list byte -> M -> option error * M;
}.

(** [protocolOutputSink] without its constant fields. *)
Record Sink := mkSink { sk_replayLast : Z; sk_replayEnded : bool }.

(** The peer, the Manager, [p.attachments], and the sink of each attachment. *)
Record World (P M : Type) := mkWorld {
  w_peer : P;
  w_manager : M;
  w_attachments : gmap Z (Z * Z);
  w_sinks : gmap (Z * Z) Sink;
}.
Arguments mkWorld {P M}. Arguments w_peer {P M}. Arguments w_manager {P M}.
Arguments w_attachments {P M}. Arguments w_sinks {P M}.

(** A handler returns an error or nil, or panics. *)
Inductive outcome := Return (err : option error) | Panic.
#[export] Instance outcome_eq_dec : EqDecision outcome.
Proof. solve_decision. Defined.

(** ** Actions *)

Definition Act (P M A : Type) : Type := World P M -> A * World P M.

Definition ret {P M A} (x : A) : Act P M A := fun w => (x, w).
Definition bind {P M A B} (m : Act P M A) (k : A -> Act P M B) : Act P M B :=
  fun w => let '(x, w) := m w in k x w.
Notation "'let!' x := m 'in' k" := (bind m (fun x => k)) (at level 200, x pattern, right associativity) : mux_scope.

Definition on_peer {P M A} (f : P -> A * P) : Act P M A :=
  fun w => let '(x, p) := f (w_peer w) in (x, mkWorld p (w_manager w) (w_attachments w) (w_sinks w)).
Definition on_manager {P M A} (f : M -> A * M) : Act P M A :=
  fun w => let '(x, m) := f (w_manager w) in (x, mkWorld (w_peer w) m (w_attachments w) (w_sinks w)).
Definition get_attachments {P M} : Act P M (gmap Z (Z * Z)) := fun w => (w_attachments w, w).
Definition put_attachments {P M} (a : gmap Z (Z * Z)) : Act P M () :=
  fun w => ((), mkWorld (w_peer w) (w_manager w) a (w_sinks w)).
Definition get_sink {P M} (a : Z * Z) : Act P M Sink := fun w => (from_option id (mkSink 0 false) (w_sinks w !! a), w).
Definition put_sink {P M} (a : Z * Z) (s : Sink) : Act P M () :=
  fun w => ((), mkWorld (w_peer w) (w_manager w) (w_attachments w) (<[a := s]> (w_sinks w))).

Section Handlers.
Context {P M : Type} `{ClassSender P} `{ManagerAPI M} `{ErrorText}.
Context `{Marshaler ProtocolResponse, Marshaler ReplayMetadata, Marshaler ExitPayload, Marshaler ProtocolErrorEvent}.
Context `{Unmarshaler OpenRequest, Unmarshaler ListRequest, Unmarshaler AttachRequest, Unmarshaler VersionOnly}.
Context (config : ProtocolConfig) (maxFrame : Z).

(** ** Responses and events *)

(** [Peer.Respond] *)
Definition Respond (request response : Frame) : Act P M (option error) :=
  match Respond_frame request response with
  | inr e => ret (Some e)
  | inl frame => on_peer (SendClass (Clone frame) TrafficControl)
  end.

Definition response_header (request : Frame) : Header :=
  mkHeader 0 (pc_Version config) (MessageType (FHeader request)) FlagResponse
    (CorrelationID (FHeader request)) (StreamID (FHeader request)).

Definition respond (request : Frame) (value : ProtocolResponse) : Act P M (option error) :=
  match Marshal value with
  | inr e => ret (Some e)
  | inl payload =>
      match NewOwnedFrame (response_header request) payload with
      | inr e => ret (Some e)
      | inl frame => Respond request frame
      end
  end.

Definition error_response (code : ErrorCode) (cause : error) : ProtocolResponse :=
  mkResponse (pc_Version config) (Some (mkRemoteError code (error_text cause) ∅)) None [] [] None.

Definition respondError (request : Frame) (code : ErrorCode) (cause : error) : Act P M (option error) :=
  respond request (error_response code cause).

Definition respondOperationError (request : Frame) (cause : error) : Act P M (option error) :=
  respondError request (operationErrorCode cause) cause.

Definition event_header (messageType id : Z) : Header :=
  mkHeader 0 (pc_Version config) messageType FlagEvent 0 id.

Definition emitJSON {A} `{Marshaler A} (messageType id : Z) (value : A) (class : Z) : Act P M (option error) :=
  match Marshal value with
  | inr e => ret (Some e)
  | inl payload =>
      match NewOwnedFrame (event_header messageType id) payload with
      | inr e => ret (Some e)
      | inl frame => on_peer (SendClass frame class)
      end
  end.

Definition emitEmpty (messageType id : Z) (class : Z) : Act P M (option error) :=
  match NewFrame (event_header messageType id) [] with
  | inr e => ret (Some e)
  | inl frame => on_peer (SendClass frame class)
  end.

Definition ok_response : ProtocolResponse := mkResponse (pc_Version config) None None [] [] None.
Definition session_response (info : SessionInfo) : ProtocolResponse :=
  mkResponse (pc_Version config) None (Some info) [] [] None.
Definition page_response (sessions : list SessionInfo) (cursor : list byte) : ProtocolResponse :=
  mkResponse (pc_Version config) None None sessions cursor None.
Definition attach_response (result : AttachResult) : ProtocolResponse :=
  mkResponse (pc_Version config) None None [] [] (Some result).

(** ** Handlers *)

Definition handleOpen (request : Frame) : Act P M (option error) :=
  if negb (StreamID (FHeader request) =? 0) then respondError request CodeInvalidRequest ErrInvalidStreamID
  else match (decode config request : OpenRequest + error) with
  | inr err => respondError request (decodeErrorCode err) err
  | inl payload =>
  match validateOpenRequest config payload with
  | Some err => respondError request CodeInvalidRequest err
  | None =>
      let spec := mkProcessSpec (or_Command payload) (or_Args payload) (or_Env payload) (or_Dir payload) (or_InitialSize payload) in
      match authorize config (mkAuthorization OperationOpen 0 (Some spec)) with
      | Some err => respondError request CodePermissionDenied err
      | None =>
          let! opened := on_manager (api_Open spec) in
          match opened with
          | inr err => respondOperationError request err
          | inl session =>
              let! info := on_manager (fun m => (api_Info session m, m)) in
              respond request (session_response info)
          end
      end
  end end.

(** The loop [for end > position] of [handleList], [n] being [end - position]. *)
Fixpoint trim_page (generation : Z) (all : list SessionInfo) (position : Z) (n : nat) : Z + error :=
  match n with
  | O => inl position
  | S n' =>
      let stop := position + Z.of_nat n in
      let candidateNext := if stop <? len all then encodeCursor generation stop else [] in
      match Marshal (page_response (slice (Z.to_nat position) (Z.to_nat stop) all) candidateNext) with
      | inr err => inr err
      | inl candidate => if len candidate <=? maxFrame then inl stop else trim_page generation all position n'
      end
  end.

(** The page that starts at [position]: a page and its cursor, the response of an
    error, the error of [json.Marshal], or a slice out of range. *)
Inductive page :=
| Page (sessions : list SessionInfo) (next : list byte)
| PageError (code : ErrorCode) (err : error)
| PageFailed (err : error)
| PagePanic.

Definition list_page (limit generation : Z) (all : list SessionInfo) (position : Z) : page :=
  if (position <? 0) || (len all <? position) then PageError CodeInvalidRequest (New "invalid cursor position")
  else
    let stop := swrap64 (position + limit) in
    let stop := if len all <? stop then len all else stop in
    match (if position <? stop then trim_page generation all position (Z.to_nat (stop - position)) else inl stop) with
    | inr err => PageFailed err
    | inl stop =>
        if (stop =? position) && (position <? len all) then
          PageError CodeInvalidRequest (New "one session entry exceeds frame payload limit")
        else
          let next := if stop <? len all then encodeCursor generation stop else [] in
          if stop <? position then PagePanic
          else Page (slice (Z.to_nat position) (Z.to_nat stop) all) next
    end.

(** [handleList] between the decoding of its payload and its response. *)
Definition list_request (payload : ListRequest) (m : M) : page :=
  match authorize config (mkAuthorization OperationList 0 None) with
  | Some err => PageError CodePermissionDenied err
  | None =>
      let limit := if lr_Limit payload =? 0 then pc_MaxListItems config else lr_Limit payload in
      if (limit <? 1) || (pc_MaxListItems config <? limit) then PageError CodeInvalidRequest (New "invalid list limit")
      else
        let '(generation, all) := api_ListSnapshot m in
        match (match pc_FilterSessions config with Some f => f all | None => inl all end) with
        | inr err => PageError CodePermissionDenied err
        | inl all =>
            match lr_Cursor payload with
            | [] => list_page limit generation all 0
            | _ :: _ =>
                match decodeCursor (lr_Cursor payload) with
                | inl decoded =>
                    if negb (c_generation decoded =? generation)
                    then PageError CodeInvalidRequest (New "stale or invalid cursor")
                    else list_page limit generation all (c_position decoded)
                | inr _ => PageError CodeInvalidRequest (New "stale or invalid cursor")
                end
            end
        end
  end.

Definition returned (m : Act P M (option error)) : Act P M outcome := let! err := m in ret (Return err).

Definition handleList (request : Frame) : Act P M outcome :=
  if negb (StreamID (FHeader request) =? 0) then returned (respondError request CodeInvalidRequest ErrInvalidStreamID)
  else match (decode config request : ListRequest + error) with
  | inr err => returned (respondError request (decodeErrorCode err) err)
  | inl payload =>
      let! result := on_manager (fun m => (list_request payload m, m)) in
      match result with
      | Page sessions next => returned (respond request (page_response sessions next))
      | PageError code err => returned (respondError request code err)
      | PageFailed err => ret (Return (Some err))
      | PagePanic => ret Panic
      end
  end.

Definition handleInspect (request : Frame) : Act P M (option error) :=
  let id := StreamID (FHeader request) in
  if negb (len (Payload request) =? 0) then respondError request CodeInvalidRequest ErrInvalidPayload
  else match authorize config (mkAuthorization OperationInspect id None) with
  | Some err => respondError request CodePermissionDenied err
  | None =>
      let! ok := on_manager (fun m => (api_Get id m, m)) in
      if negb ok then respondError request CodeSessionNotFound ErrSessionNotFound
      else
        let! info := on_manager (fun m => (api_Info id m, m)) in
        respond request (session_response info)
  end.

(** [cleanup] of [handleAttach]. *)
Definition cleanup (id : Z) (attachment : Z * Z) : Act P M () :=
  let! attachments := get_attachments in
  let! _ := (if bool_decide (attachments !! id = Some attachment) then put_attachments (delete id attachments) else ret ()) in
  on_manager (fun m => ((), api_CloseAttachment attachment m)).

(** The part of [handleAttach] after [Attach] succeeded. *)
Definition attach_announce (request : Frame) (attachment : Z * Z) (result : AttachResult) : Act P M (option error) :=
  let id := StreamID (FHeader request) in
  let types := pc_Types config in
  let fail err := let! _ := cleanup id attachment in ret (Some err) in
  let! _ := put_sink attachment (mkSink (ReplayLast result) false) in
  let! attachments := get_attachments in
  let! _ := put_attachments (<[id := attachment]> attachments) in
  let! err := respond request (attach_response result) in
  match err with
  | Some err => fail err
  | None =>
  let begin := mkReplayMetadata (pc_Version config) (ReplayFirst result) (ReplayLast result) (NextLive result) (Truncated result) in
  let! err := emitJSON (t_ReplayBegin types) id begin TrafficControl in
  match err with
  | Some err => fail err
  | None =>
  let! err := (if ReplayLast result =? 0 then
                 let! err := emitEmpty (t_ReplayEnd types) id TrafficControl in
                 match err with
                 | Some err => ret (Some err)
                 | None => let! _ := put_sink attachment (mkSink (ReplayLast result) true) in ret None
                 end
               else ret None) in
  match err with
  | Some err => fail err
  | None =>
  let! err := on_manager (api_Activate attachment) in
  match err with
  | Some err => fail err
  | None => ret None
  end end end end.

Definition handleAttach (request : Frame) : Act P M (option error) :=
  let id := StreamID (FHeader request) in
  match (decode config request : AttachRequest + error) with
  | inr err => respondError request (decodeErrorCode err) err
  | inl payload =>
  match authorize config (mkAuthorization OperationAttach id None) with
  | Some err => respondError request CodePermissionDenied err
  | None =>
      let! ok := on_manager (fun m => (api_Get id m, m)) in
      if negb ok then respondError request CodeSessionNotFound ErrSessionNotFound
      else
        let! attachments := get_attachments in
        if bool_decide (is_Some (attachments !! id)) then respondError request CodeAlreadyAttached ErrAlreadyAttached
        else
          let! attached := on_manager (api_Attach id (ar_Replay payload) (ar_ResumeAfter payload) true) in
          match attached with
          | inr err => respondOperationError request err
          | inl (attachment, result) => attach_announce request attachment result
          end
  end end.

(** [watchAttachment] once the attachment is done: its first critical section,
    and whether it reports the failure and closes the peer. *)
Definition watch_section (id : Z) (attachment : Z * Z) : Act P M () :=
  let! attachments := get_attachments in
  if bool_decide (attachments !! id = Some attachment) then put_attachments (delete id attachments) else ret ().

Definition watch_reports (err : option error) (reason : option AttachmentCloseReason) : bool :=
  bool_decide (is_Some err) &&
  (bool_decide (reason = Some AttachmentQueueOverflow) || bool_decide (reason = Some AttachmentSinkFailure) ||
   bool_decide (reason = Some AttachmentDrainTimeout_reason)).

Definition watch_report (id : Z) (err : error) : Act P M (option error) :=
  let code := if errors_Is err ErrQueueOverflow then CodeQueueOverflow else CodeBackendFailure in
  emitJSON (t_Error (pc_Types config)) id (mkProtocolErrorEvent (pc_Version config) code (error_text err)) TrafficControl.

Definition handleDetach (request : Frame) : Act P M (option error) :=
  let id := StreamID (FHeader request) in
  if negb (len (Payload request) =? 0) then respondError request CodeInvalidRequest ErrInvalidPayload
  else match authorize config (mkAuthorization OperationDetach id None) with
  | Some err => respondError request CodePermissionDenied err
  | None =>
      let! attachments := get_attachments in
      let! _ := put_attachments (delete id attachments) in
      match attachments !! id with
      | None => respondError request CodeSessionNotFound ErrAttachmentClosed
      | Some a =>
          let! _ := on_manager (fun m => ((), api_CloseAttachment a m)) in
          respond request ok_response
      end
  end.

Definition handleInput (request : Frame) : Act P M (option error) :=
  let id := StreamID (FHeader request) in
  if negb (Flags (FHeader request) =? FlagEvent) then ret (Some ErrUnexpectedFrame)
  else match authorize config (mkAuthorization OperationInput id None) with
  | Some err => ret (Some err)
  | None =>
      let! ok := on_manager (fun m => (api_Get id m, m)) in
      if negb ok then ret (Some ErrSessionNotFound) else on_manager (api_Input id (Payload request))
  end.

Definition handleResize (request : Frame) : Act P M (option error) :=
  let id := StreamID (FHeader request) in
  match DecodeSize (Payload request) with
  | inr err => respondError request CodeInvalidRequest err
  | inl size =>
  match authorize config (mkAuthorization OperationResize id None) with
  | Some err => respondError request CodePermissionDenied err
  | None =>
      let! ok := on_manager (fun m => (api_Get id m, m)) in
      if negb ok then respondError request CodeSessionNotFound ErrSessionNotFound
      else
        let! err := on_manager (api_Resize id size) in
        match err with
        | Some err => respondOperationError request err
        | None => respond request ok_response
        end
  end end.

Definition handleKill (request : Frame) : Act P M (option error) :=
  let id := StreamID (FHeader request) in
  if negb (len (Payload request) =? 0) then respondError request CodeInvalidRequest ErrInvalidPayload
  else match authorize config (mkAuthorization OperationKill id None) with
  | Some err => respondError request CodePermissionDenied err
  | None =>
      let! err := on_manager (api_Kill id) in
      match err with
      | Some err => respondOperationError request err
      | None => respond request ok_response
      end
  end.

(** The handler registered for an operation. *)
Definition handle (op : Operation) (request : Frame) : Act P M outcome :=
  match op with
  | OperationOpen => returned (handleOpen request)
  | OperationList => handleList request
  | OperationInspect => returned (handleInspect request)
  | OperationAttach => returned (handleAttach request)
  | OperationDetach => returned (handleDetach request)
  | OperationInput => returned (handleInput request)
  | OperationResize => returned (handleResize request)
  | OperationKill => returned (handleKill request)
  end.

(** [Protocol.Close], after its critical section: the attachments it closes, in
    some order. *)
Definition Close_section : Act P M (list (Z * Z)) :=
  let! attachments := get_attachments in
  let! _ := put_attachments ∅ in
  ret (map_to_list attachments).*2.

Fixpoint close_all (values : list (Z * Z)) : Act P M () :=
  match values with
  | [] => ret ()
  | a :: values => let! _ := on_manager (fun m => ((), api_CloseAttachment a m)) in close_all values
  end.

Definition Close : Act P M () := let! values := Close_section in close_all values.

(** ** The output sink *)

(** [protocolOutputSink.Send] of the sink of [attachment] on stream [id]. *)
Definition Send (id : Z) (attachment : Z * Z) (event : AttachmentEvent) : Act P M (option error) :=
  match ae_Kind event with
  | AttachmentOutput =>
      match ae_Output event with
      | None => ret (Some ErrInvalidPayload)
      | Some output =>
          match NewFrame (event_header (t_Output (pc_Types config)) id) (ev_Data output) with
          | inr err => ret (Some err)
          | inl frame =>
              let! err := on_peer (SendClass frame TrafficBulk) in
              match err with
              | Some err => ret (Some err)
              | None =>
                  let! s := get_sink attachment in
                  if negb (sk_replayEnded s) && negb (sk_replayLast s =? 0) && (ev_Sequence output =? sk_replayLast s) then
                    let! _ := put_sink attachment (mkSink (sk_replayLast s) true) in
                    emitEmpty (t_ReplayEnd (pc_Types config)) id TrafficControl
                  else ret None
              end
          end
      end
  | AttachmentExit =>
      match ae_Exit event with
      | None => ret (Some ErrInvalidPayload)
      | Some status =>
          emitJSON (t_Exit (pc_Types config)) id (mkExitPayload (pc_Version config) status) TrafficControl
      end
  end.

(** The worker of the attachment handing its events to the sink, until the first
    error. *)
Fixpoint send_all (id : Z) (attachment : Z * Z) (events : list AttachmentEvent) : Act P M (option error) :=
  match events with
  | [] => ret None
  | event :: events =>
      let! err := Send id attachment event in
      match err with Some err => ret (Some err) | None => send_all id attachment events end
  end.
End Handlers.
