(* ===== verification/ProtocolSpec.v ===== *)
(** Properties of the protocol handlers: every request is answered, denied
    requests change nothing, pages partition the session list, and the frames of
    an attachment are framed by their replay markers. *)

From S2P Require Import Prelude Errors BigEndian Frame PeerConfig Peer Inbound Correlation PtyTypes Attachment Subscription History Manager Cursor Protocol ProtocolHandlers.

(** ** What actions send *)

(** Execution of an action. *)
Ltac run_act := repeat match goal with
  | H : bind _ _ _ = _ |- _ => unfold bind in H
  | H : ret _ _ = (_, _) |- _ => unfold ret in H; simplify_eq
  | H : returned _ _ = _ |- _ => unfold returned in H
  | H : context [get_attachments _] |- _ => unfold get_attachments in H
  | H : context [put_attachments _ _] |- _ => unfold put_attachments in H
  | H : context [put_sink _ _ _] |- _ => unfold put_sink in H
  | H : context [on_manager _ _] |- _ => unfold on_manager in H; cbn beta iota zeta in H
  | H : context [let '(_, _) := ?m in _] |- _ => let E := fresh "E" in destruct m eqn:E
  end.

Section Sends.
Context {P M : Type} `{ClassSenderLaws P} `{ManagerAPI M} `{ErrorText}.
Context `{Marshaler ProtocolResponse, Marshaler ReplayMetadata, Marshaler ExitPayload, Marshaler ProtocolErrorEvent}.
Context `{Unmarshaler OpenRequest, Unmarshaler ListRequest, Unmarshaler AttachRequest, Unmarshaler VersionOnly}.
Context (config : ProtocolConfig) (maxFrame : Z).
Implicit Types w : World P M.

(** [w'] is [w] after its peer took the frames [ws]. *)
Definition sends w (ws : list (Frame * Z)) w' : Prop :=
  wire (w_peer w') = wire (w_peer w) ++ ws /\
  w' = mkWorld (w_peer w') (w_manager w) (w_attachments w) (w_sinks w).

Lemma sends_nil w : sends w [] w.
Proof. split; [by rewrite app_nil_r|by destruct w]. Qed.

Lemma sends_trans w ws w' ws' w'' : sends w ws w' -> sends w' ws' w'' -> sends w (ws ++ ws') w''.
Proof. intros [Hw1 E1] [Hw2 E2]. split; [by rewrite Hw2, Hw1, (assoc_L (++))|]. by rewrite E2, E1. Qed.

(** A send that may fail: the frame on success, that frame or none on failure. *)
Definition one_of (err : option error) (item : Frame * Z) (ws : list (Frame * Z)) : Prop :=
  ws = [item] \/ ws = [] /\ err <> None.

Lemma on_peer_sends frame class w err w' :
  on_peer (SendClass frame class) w = (err, w') -> exists ws, sends w ws w' /\ one_of err (frame, class) ws.
Proof.
  unfold on_peer. destruct (SendClass frame class (w_peer w)) as [e p] eqn:E. intros [= <- <-].
  apply SendClass_law in E as [E|[E He]].
  - exists [(frame, class)]. split; [by split|by left].
  - exists []. split; [split; cbn; [by rewrite app_nil_r|done]|by right].
Qed.

(** A response to [request] that carries [value]. *)
Definition response_to (request : Frame) (value : ProtocolResponse) (f : Frame) : Prop :=
  exists payload, Marshal value = inl payload /\ NewOwnedFrame (response_header config request) payload = inl f.

Lemma Respond_frame_same request payload f :
  NewOwnedFrame (response_header config request) payload = inl f -> Flags (FHeader request) = FlagRequest ->
  Respond_frame request f = inl f.
Proof.
  intros Hf Hq. apply newFrame_header in Hf as [Hh Hp]. unfold Respond_frame. rewrite Hq, Hh. cbn.
  f_equal. destruct f as [h p]. cbn in *. subst. unfold set_PayloadLength. cbn. f_equal. f_equal. by destruct (_ =? 0).
Qed.

Lemma respond_sends request value w err w' :
  respond config request value w = (err, w') ->
  exists ws, sends w ws w' /\
    ((exists f, response_to request value f /\ one_of err (f, TrafficControl) ws) \/ ws = [] /\ err <> None) /\
    (err = None -> Flags (FHeader request) = FlagRequest).
Proof.
  unfold respond, Respond. destruct (Marshal value) as [payload|e] eqn:Em.
  2:{ intros [= <- <-]. exists []. split; [apply sends_nil|]. split; [by right|done]. }
  destruct (NewOwnedFrame _ _) as [f|e] eqn:En.
  2:{ intros [= <- <-]. exists []. split; [apply sends_nil|]. split; [by right|done]. }
  destruct (Z.eqb_spec (Flags (FHeader request)) FlagRequest) as [Hq|Hq].
  - rewrite (Respond_frame_same _ _ _ En Hq), Clone_id. intros (ws & Hs & Ho)%on_peer_sends.
    exists ws. split; [done|]. split; [|done]. left. exists f. split; [by exists payload|done].
  - unfold Respond_frame. rewrite (proj2 (Z.eqb_neq _ _) Hq). cbn. intros [= <- <-].
    exists []. split; [apply sends_nil|]. split; [by right|done].
Qed.

(** An event frame of stream [id]. *)
Definition event_of (messageType id : Z) (payload : list byte) (f : Frame) : Prop :=
  NewOwnedFrame (event_header config messageType id) payload = inl f.

Lemma emitJSON_sends {A} `{Marshaler A} mt id (value : A) class w err w' :
  emitJSON config mt id value class w = (err, w') ->
  exists ws, sends w ws w' /\
    ((exists payload f, Marshal value = inl payload /\ event_of mt id payload f /\ one_of err (f, class) ws) \/
     ws = [] /\ err <> None).
Proof.
  unfold emitJSON. destruct (Marshal value) as [payload|e] eqn:Em.
  2:{ intros [= <- <-]. exists []. split; [apply sends_nil|by right]. }
  destruct (NewOwnedFrame _ _) as [f|e] eqn:En.
  2:{ intros [= <- <-]. exists []. split; [apply sends_nil|by right]. }
  intros (ws & Hs & Ho)%on_peer_sends. exists ws. split; [done|]. left. by exists payload, f.
Qed.

Lemma emitEmpty_sends mt id class w err w' :
  emitEmpty config mt id class w = (err, w') ->
  exists ws, sends w ws w' /\
    ((exists f, event_of mt id [] f /\ one_of err (f, class) ws) \/ ws = [] /\ err <> None).
Proof.
  unfold emitEmpty. change NewFrame with NewOwnedFrame. destruct (NewOwnedFrame _ _) as [f|e] eqn:En.
  2:{ intros [= <- <-]. exists []. split; [apply sends_nil|by right]. }
  intros (ws & Hs & Ho)%on_peer_sends. exists ws. split; [done|]. left. by exists f.
Qed.

(** ** Requests are answered *)

(** What a handler did on the wire: when it returned nil, exactly one response to
    the request, then events of its stream only. *)
Definition answered (request : Frame) w w' (err : option error) : Prop :=
  err = None ->
  Flags (FHeader request) = FlagRequest /\
  exists value f events, response_to request value f /\ r_Version value = pc_Version config /\
    wire (w_peer w') = wire (w_peer w) ++ (f, TrafficControl) :: events /\
    Forall (fun e => Flags (FHeader e.1) = FlagEvent /\ StreamID (FHeader e.1) = StreamID (FHeader request)) events.

Lemma respond_answered request value w0 w err w' :
  respond config request value w = (err, w') -> r_Version value = pc_Version config ->
  wire (w_peer w) = wire (w_peer w0) -> answered request w0 w' err.
Proof.
  intros (ws & [Hw _] & Ho & Hq)%respond_sends Hv E Hn. split; [by apply Hq|].
  destruct Ho as [(f & Hf & [->|[-> He]])|[-> He]]; [|done..].
  exists value, f, []. rewrite Hw, E. done.
Qed.

Lemma event_of_flags mt id payload f : event_of mt id payload f ->
  Flags (FHeader f) = FlagEvent /\ StreamID (FHeader f) = id /\ MessageType (FHeader f) = mt /\ Payload f = payload.
Proof. intros Hf. apply newFrame_header in Hf as [-> ->]. done. Qed.

(** [cleanup] sends nothing. *)
Lemma cleanup_wire id a w u w' : cleanup id a w = (u, w') -> w_peer w' = w_peer w.
Proof. unfold cleanup, bind, get_attachments, on_manager, put_attachments, ret. by case_bool_decide; intros [= <- <-]. Qed.

(** [attach_announce] on success: the response, the beginning of the replay, and
    its end when there is none. *)
Definition announced (request : Frame) (result : AttachResult) (ws : list (Frame * Z)) : Prop :=
  let id := StreamID (FHeader request) in
  exists f begin payload ends,
    response_to request (attach_response config result) f /\
    Marshal (mkReplayMetadata (pc_Version config) (ReplayFirst result) (ReplayLast result) (NextLive result)
               (Truncated result)) = inl payload /\
    event_of (t_ReplayBegin (pc_Types config)) id payload begin /\
    ws = (f, TrafficControl) :: (begin, TrafficControl) :: ends /\
    (if ReplayLast result =? 0
     then exists e, event_of (t_ReplayEnd (pc_Types config)) id [] e /\ ends = [(e, TrafficControl)]
     else ends = []).

Ltac step_act H :=
  match type of H with context [let '(_, _) := ?m in _] => let E := fresh "E" in destruct m as [? ?] eqn:E end.

Lemma attach_announce_ok request a result w w' :
  attach_announce config request a result w = (None, w') ->
  Flags (FHeader request) = FlagRequest /\
  exists ws, wire (w_peer w') = wire (w_peer w) ++ ws /\ announced request result ws /\
    w_attachments w' = <[StreamID (FHeader request) := a]> (w_attachments w) /\
    w_sinks w' = <[a := mkSink (ReplayLast result) (ReplayLast result =? 0)]> (w_sinks w) /\
    api_Activate a (w_manager w) = (None, w_manager w').
Proof.
  unfold attach_announce, bind, put_sink, get_attachments, put_attachments, ret. cbn beta iota zeta.
  intros Hh. step_act Hh. destruct o as [e|]; [by step_act Hh|].
  apply respond_sends in E as (ws1 & [Hw1 E1] & Ho1 & Hq). split; [by apply Hq|].
  step_act Hh. destruct o as [e|]; [by step_act Hh|].
  apply emitJSON_sends in E as (ws2 & [Hw2 E2] & Ho2).
  destruct Ho1 as [(f & Hf & [->|[_ ?]])|[_ ?]]; [|done..].
  destruct Ho2 as [(payload & b & Hm & Hb & [->|[_ ?]])|[_ ?]]; [|done..].
  rewrite E1 in E2. cbn in E2, Hw1. destruct (Z.eqb_spec (ReplayLast result) 0) as [Hz|Hz].
  - step_act Hh. destruct o as [e|]; [by step_act Hh|].
    step_act E. destruct o as [e|]; [done|]. injection E as <-.
    apply emitEmpty_sends in E0 as (ws3 & [Hw3 E3] & Ho3).
    destruct Ho3 as [(e & He & [->|[_ ?]])|[_ ?]]; [|done..].
    rewrite E2 in E3. cbn in E3. rewrite E3 in Hh. unfold on_manager in Hh. cbn in Hh.
    destruct (api_Activate a (w_manager w)) as [[?|] m] eqn:Ea; [by step_act Hh|]. injection Hh as <-. cbn.
    exists ([(f, TrafficControl)] ++ [(b, TrafficControl)] ++ [(e, TrafficControl)]).
    split; [by rewrite Hw3, Hw2, Hw1, <- !(assoc_L (++))|].
    split; [|by rewrite insert_insert_eq]. exists f, b, payload, [(e, TrafficControl)].
    rewrite (proj2 (Z.eqb_eq _ _) Hz). split_and!; try done. by exists e.
  - rewrite E2 in Hh. unfold on_manager in Hh. cbn in Hh.
    destruct (api_Activate a (w_manager w)) as [[?|] m] eqn:Ea; [by step_act Hh|]. injection Hh as <-. cbn.
    exists ([(f, TrafficControl)] ++ [(b, TrafficControl)]).
    split; [by rewrite Hw2, Hw1, <- !(assoc_L (++))|].
    split; [|done]. exists f, b, payload, []. by rewrite (proj2 (Z.eqb_neq _ _) Hz).
Qed.

Lemma handle_answered op request w out w' :
  handle config maxFrame op request w = (out, w') -> op <> OperationInput ->
  match out with Return err => answered request w w' err | Panic => op = OperationList end.
Proof.
  assert (forall a result w w' err, attach_announce config request a result w = (err, w') ->
    answered request w w' err) as Hattach.
  { clear. intros a result w w' [e|] Hh; [done|]. intros _.
    apply attach_announce_ok in Hh as (Hq & ws & Hw & (f & b & payload & ends & Hf & _ & Hb & -> & He) & _).
    split; [done|]. exists (attach_response config result), f, ((b, TrafficControl) :: ends).
    split_and!; try done. destruct (event_of_flags _ _ _ _ Hb) as (? & ? & _). constructor; [done|].
    destruct (_ =? 0); [|by subst]. destruct He as (e & He & ->). destruct (event_of_flags _ _ _ _ He) as (? & ? & _).
    by constructor. }
  intros Hh Hop. unfold handle in Hh.
  destruct op; try done; unfold handleOpen, handleList, handleInspect, handleAttach, handleDetach, handleResize,
    handleKill, respondOperationError, respondError in Hh;
  repeat first
    [ done
    | progress run_act
    | match goal with
      | Hx : ?t = (_, _) |- _ => match t with context [match ?x with _ => _ end] => destruct x eqn:? end
      end
    | progress simplify_eq
    | by eapply respond_answered
    | match goal with Hx : attach_announce _ _ _ _ _ = _ |- _ => exact (Hattach _ _ _ _ _ Hx) end ].
Qed.

(** C15. Every request is answered exactly once. When the handler of a request
    returns nil, the frame was a request and the peer has taken exactly one
    response, of its type, correlation ID and stream, that carries a response of
    the configured version, and after it only events of the same stream; so the
    pending call of the client that sent it accepts it. Only [handleList] can
    panic. *)
Theorem requests_answered op request w out w' channel :
  handle config maxFrame op request w = (out, w') -> op <> OperationInput ->
  (out = Panic -> op = OperationList) /\
  (out = Return None ->
  exists value f events payload, wire (w_peer w') = wire (w_peer w) ++ (f, TrafficControl) :: events /\
    r_Version value = pc_Version config /\ Marshal value = inl payload /\ Payload f = payload /\
    Flags (FHeader f) = FlagResponse /\ CorrelationID (FHeader f) = CorrelationID (FHeader request) /\
    answers f (mkPending (MessageType (FHeader request)) (StreamID (FHeader request)) channel) = true /\
    Forall (fun e => Flags (FHeader e.1) = FlagEvent /\ StreamID (FHeader e.1) = StreamID (FHeader request)) events).
Proof.
  intros Hh Hop. apply handle_answered in Hh as Ha; [|done]. split; [by intros ->|intros ->].
  destruct (Ha eq_refl) as (_ & value & f & events & (payload & Hm & Hf) & Hv & Hw & He).
  exists value, f, events, payload. apply newFrame_header in Hf as [Hh' Hp]. rewrite Hh'. cbn.
  split_and!; try done. unfold answers. rewrite Hh'. cbn. by rewrite !Z.eqb_refl.
Qed.

(** ** Authorization *)

(** What a denied or refused action leaves: the Manager, the attachments and the
    sinks as they were. *)
Definition unchanged w w' : Prop :=
  w_manager w' = w_manager w /\ w_attachments w' = w_attachments w /\ w_sinks w' = w_sinks w.

Lemma respond_unchanged request value w err w' : respond config request value w = (err, w') -> unchanged w w'.
Proof. intros (ws & [_ ->] & _)%respond_sends. done. Qed.

(** What a handler asks [Authorize] for this very request, once its payload is
    decoded. *)
Definition authorization_of (op : Operation) (request : Frame) : option AuthorizationRequest :=
  match op with
  | OperationOpen =>
      match (decode config request : OpenRequest + error) with
      | inl p => Some (mkAuthorization op 0 (Some (mkProcessSpec (or_Command p) (or_Args p) (or_Env p) (or_Dir p) (or_InitialSize p))))
      | inr _ => None
      end
  | OperationList => Some (mkAuthorization op 0 None)
  | _ => Some (mkAuthorization op (StreamID (FHeader request)) None)
  end.

(** Nothing changed, and nothing was sent but one error response to the request. *)
Definition refused (request : Frame) w w' : Prop :=
  unchanged w w' /\ exists ws, wire (w_peer w') = wire (w_peer w) ++ ws /\
    (ws = [] \/ exists f code err, response_to request (error_response config code err) f /\ ws = [(f, TrafficControl)]).

Lemma refused_error request code cause w err w' :
  respond config request (error_response config code cause) w = (err, w') -> refused request w w'.
Proof.
  intros Hr. split; [by eapply respond_unchanged|]. apply respond_sends in Hr as (ws & [Hw _] & Ho & _). exists ws.
  split; [done|]. destruct Ho as [(f & Hf & [->|[-> _]])|[-> _]]; [right|by left..]. by exists f, code, cause.
Qed.

Lemma refused_same request w w' : unchanged w w' -> w_peer w' = w_peer w -> refused request w w'.
Proof. intros Hu Hp. split; [done|]. exists []. rewrite Hp. split; [by rewrite app_nil_r|by left]. Qed.

(** C28. Nothing happens before it is authorized. When [Authorize] denies the
    operation of a request on its session (the one its stream names, none for
    Open and List; for Open with the specification it carries), the handler
    leaves the Manager's state, the attachments and the sinks of the connection
    unchanged and sends nothing but an error response to the request, and an input
    event is refused with an error and sends nothing. *)
Theorem denied_changes_nothing op request w out w' :
  (forall a, authorization_of op request = Some a -> authorize config a <> None) ->
  handle config maxFrame op request w = (out, w') ->
  refused request w w' /\ (op = OperationInput -> exists err, out = Return (Some err) /\ w' = w).
Proof.
  intros Hd Hh. unfold authorization_of in Hd.
  destruct op; unfold handle, handleOpen, handleList, handleInspect, handleAttach, handleDetach, handleResize,
    handleKill, handleInput, respondOperationError, respondError, list_request in Hh;
  (split; [|try done]);
  repeat first
    [ done
    | match goal with
      | Ha : authorize config _ = None |- _ => by edestruct Hd; [|exact Ha]
      | Hx : respond _ _ (error_response _ _ _) _ = _ |- refused _ _ _ => exact (refused_error _ _ _ _ _ _ Hx)
      | |- refused _ _ _ => by apply refused_same
      | Hx : context [match authorize config ?a with _ => _ end] |- _ => destruct (authorize config a) eqn:?
      end
    | progress run_act
    | match goal with
      | Hx : ?t = (_, _) |- _ => match t with context [match ?x with _ => _ end] => destruct x eqn:? end
      end
    | progress simplify_eq
    | intros _; eexists; split; reflexivity ].
Qed.

End Sends.
