(* ===== verification/Paging.v ===== *)
(** pty/protocol.go: properties of [handleList]: the bounds of a page, that a client
    that follows the cursors obtains the whole list, and the request that makes it
    panic when the configured limit is the largest int. *)

From S2P Require Import Prelude Errors BigEndian Frame PeerConfig Peer Inbound Correlation PtyTypes Attachment Subscription History Manager Cursor Protocol ProtocolHandlers.

Section Paging.
Context {M : Type} `{ManagerAPI M} `{Marshaler ProtocolResponse}.
Context (config : ProtocolConfig) (maxFrame : Z).

Notation trim := (trim_page config maxFrame).
Notation list_page := (list_page config maxFrame).
Notation list_request := (list_request config maxFrame).

(** The cursor that follows a page that stops at [stop]. *)
Definition next_cursor (generation : Z) (all : list SessionInfo) (stop : Z) : list byte :=
  if stop <? len all then encodeCursor generation stop else [].

Definition sessions_at (all : list SessionInfo) (position stop : Z) : list SessionInfo :=
  slice (Z.to_nat position) (Z.to_nat stop) all.

(** The encoding of the page from [position] to [stop] fits a frame. *)
Definition page_fits (generation : Z) (all : list SessionInfo) (position stop : Z) : Prop :=
  exists payload, Marshal (page_response config (sessions_at all position stop) (next_cursor generation all stop)) = inl payload /\
    len payload <= maxFrame.

Lemma trim_page_spec generation all position n :
  match trim generation all position n with
  | inl stop => position <= stop <= position + Z.of_nat n /\
      (position < stop -> page_fits generation all position stop) /\
      (forall stop', stop < stop' <= position + Z.of_nat n -> ~ page_fits generation all position stop')
  | inr err => exists stop, position < stop <= position + Z.of_nat n /\
      Marshal (page_response config (sessions_at all position stop) (next_cursor generation all stop)) = inr err
  end.
Proof.
  induction n as [|n IH]; [cbn; split_and!; try lia|]. cbn [trim_page].
  set (stop := position + Z.of_nat (S n)). fold (next_cursor generation all stop) (sessions_at all position stop).
  destruct (Marshal (page_response _ _ _)) as [payload|err] eqn:Em.
  2:{ exists stop. split; [unfold stop; lia|done]. }
  destruct (Z.leb_spec (len payload) maxFrame) as [Hle|Hgt].
  - split_and!; [unfold stop; lia..| |intros; unfold stop in *; lia]. intros _. by exists payload.
  - destruct (trim generation all position n) as [stop0|err].
    + destruct IH as (Hb & Hfit & Hmax). split_and!; [lia..|done|]. intros stop' Hs.
      destruct (decide (stop' = stop)) as [->|Hne]; [|apply Hmax; unfold stop in *; lia].
      intros (payload' & Em' & ?). rewrite Em in Em'. injection Em' as <-. lia.
    + destruct IH as (stop0 & ? & ?). exists stop0. split; [lia|done].
Qed.

(** Where the page from [position] stops at most. *)
Definition page_end (limit : Z) (all : list SessionInfo) (position : Z) : Z := Z.min (position + limit) (len all).

Lemma list_page_in_range limit generation all position :
  0 <= position <= len all -> 1 <= limit -> position + limit <= MaxInt ->
  match list_page limit generation all position with
  | Page sessions next => exists stop, position <= stop <= page_end limit all position /\
      sessions = sessions_at all position stop /\ next = next_cursor generation all stop /\
      (position < len all -> position < stop /\ page_fits generation all position stop) /\
      (forall stop', stop < stop' <= page_end limit all position -> ~ page_fits generation all position stop')
  | PageError code err => code = CodeInvalidRequest /\ position < len all /\
      forall stop, position < stop <= page_end limit all position -> ~ page_fits generation all position stop
  | PageFailed err => exists stop, position < stop <= page_end limit all position /\
      Marshal (page_response config (sessions_at all position stop) (next_cursor generation all stop)) = inr err
  | PagePanic => False
  end.
Proof.
  intros Hp Hl Hmax. unfold ProtocolHandlers.list_page.
  rewrite (proj2 (Z.ltb_ge position 0)), (proj2 (Z.ltb_ge (len all) position)) by lia. cbn [orb].
  rewrite swrap64_small by (unfold MaxInt in *; lia).
  replace (if len all <? position + limit then len all else position + limit) with (page_end limit all position)
    by (unfold page_end; destruct (Z.ltb_spec (len all) (position + limit)); lia).
  assert (position <= page_end limit all position <= len all) as He by (unfold page_end; lia).
  set (e := page_end limit all position) in *.
  destruct (Z.ltb_spec position e) as [Hlt|Hge].
  - pose proof (trim_page_spec generation all position (Z.to_nat (e - position))) as Ht.
    rewrite Z2Nat.id in Ht by lia. replace (position + (e - position)) with e in Ht by lia.
    destruct (trim _ _ _ _) as [stop|err]; [|done]. destruct Ht as (Hb & Hfit & Hm).
    destruct (Z.eqb_spec stop position) as [->|Hne]; cbn [andb].
    + destruct (Z.ltb_spec position (len all)) as [?|?]; [|lia]. split_and!; try done.
    + rewrite (proj2 (Z.ltb_ge stop position)) by lia. exists stop. split_and!; try done; try lia.
      intros _. split; [lia|apply Hfit; lia].
  - assert (position = len all) as Hz by (unfold e, page_end in *; lia).
    replace e with position by lia. rewrite Z.eqb_refl, (proj2 (Z.ltb_ge position (len all))), (proj2 (Z.ltb_ge position position)) by lia.
    cbn [andb]. exists position. split_and!; try lia; try done. unfold next_cursor.
    by rewrite (proj2 (Z.ltb_ge position (len all))) by lia.
Qed.

(** The bounds of a page. For a requested limit that cannot overflow an int,
    the page of [handleList] from any position holds at most [limit] consecutive
    entries, at least one unless the list is exhausted, as many as fit a frame,
    and its response fits; it never slices out of range. A position outside the
    list and an entry that alone exceeds a frame are answered with errors. *)
Theorem list_page_bounds limit generation all position :
  1 <= limit -> len all + limit <= MaxInt ->
  match list_page limit generation all position with
  | Page sessions next => 0 <= position <= len all /\ len sessions <= limit /\
      exists rest, drop (Z.to_nat position) all = sessions ++ rest /\
      (rest = [] <-> next = []) /\ (position < len all -> sessions <> [] /\
        exists payload, Marshal (page_response config sessions next) = inl payload /\ len payload <= maxFrame)
  | PageError code err => code = CodeInvalidRequest /\
      (~ 0 <= position <= len all \/ position < len all /\ ~ page_fits generation all position (position + 1))
  | PageFailed err => exists sessions next, Marshal (page_response config sessions next) = inr err
  | PagePanic => False
  end.
Proof.
  intros Hl Hmax. destruct (decide (0 <= position <= len all)) as [Hp|Hp].
  2:{ unfold ProtocolHandlers.list_page. assert ((position <? 0) || (len all <? position) = true) as ->; [|split; [done|by left]].
      apply orb_true_iff. rewrite !Z.ltb_lt. lia. }
  pose proof (list_page_in_range limit generation all position Hp Hl ltac:(lia)) as Hr.
  destruct (list_page _ _ _ _) as [sessions next|code err|err|]; [|..|done].
  - destruct Hr as (stop & Hs & -> & -> & Hne & _). unfold page_end in Hs. split; [done|].
    unfold sessions_at, slice in *. set (k := (Z.to_nat stop - Z.to_nat position)%nat).
    assert (length (drop (Z.to_nat position) all) = Z.to_nat (len all - position)) as Hd
      by (rewrite length_drop; unfold len; lia).
    split; [unfold len at 1; rewrite length_take; lia|].
    exists (drop k (drop (Z.to_nat position) all)). split; [by rewrite take_drop|]. split.
    + rewrite <- length_zero_iff_nil, length_drop, Hd. unfold next_cursor.
      destruct (Z.ltb_spec stop (len all)); [|split; [done|intros _; lia]].
      split; [intros; lia|]. by intros ?%encodeCursor_nonempty.
    + intros Hlt. destruct (Hne Hlt) as [Hsp Hfit]. split; [|exact Hfit].
      intros E%(f_equal length). rewrite length_take, Hd in E. cbn in E. lia.
  - destruct Hr as (-> & Hlt & Hm). split; [done|]. right. split; [done|]. apply Hm. unfold page_end. lia.
  - destruct Hr as (stop & _ & Hm). by eexists _, _.
Qed.

(** With the largest int as limit the stop of the page wraps to a negative number. *)
Lemma list_page_overflow generation all position :
  1 <= position <= len all -> len all <= MaxInt -> list_page MaxInt generation all position = PagePanic.
Proof.
  intros Hp Hl. unfold ProtocolHandlers.list_page.
  rewrite (proj2 (Z.ltb_ge position 0)), (proj2 (Z.ltb_ge (len all) position)) by lia. cbn [orb].
  assert (swrap64 (position + MaxInt) < 0) as Hneg.
  { assert (swrap64 (position + MaxInt) = position - 1 - 2 ^ 63) as ->; [|unfold MaxInt in *; lia].
    unfold swrap64, MaxInt in *. replace (position + (2 ^ 63 - 1) + 2 ^ 63) with (position - 1 + 1 * 2 ^ 64) by lia.
    rewrite Z_mod_plus_full, Z.mod_small by lia. lia. }
  set (stop := swrap64 (position + MaxInt)) in *. rewrite (proj2 (Z.ltb_ge (len all) stop)) by lia.
  rewrite (proj2 (Z.ltb_ge position stop)), (proj2 (Z.eqb_neq stop position)) by lia.
  cbn [andb]. by rewrite (proj2 (Z.ltb_lt stop position)) by lia.
Qed.

(** ** Following the cursors *)

(** The list a request sees, after the filter. *)
Definition visible (m : M) : list SessionInfo + error :=
  let all := (api_ListSnapshot m).2 in
  match pc_FilterSessions config with Some f => f all | None => inl all end.
Definition generation_of (m : M) : Z := (api_ListSnapshot m).1.

(** A client that follows [NextCursor]: request [i] meets the Manager in state
    [ms i]. The sessions, or the answer that ended the loop; [None] without fuel. *)
Fixpoint collect (fuel : nat) (version limit : Z) (cursor : list byte) (ms : nat -> M) : option (list SessionInfo + page) :=
  match fuel with
  | O => None
  | S fuel =>
      match list_request (mkListRequest version cursor limit) (ms 0%nat) with
      | Page sessions [] => Some (inl sessions)
      | Page sessions next =>
          match collect fuel version limit next (fun i => ms (S i)) with
          | Some (inl rest) => Some (inl (sessions ++ rest))
          | other => other
          end
      | failed => Some (inr failed)
      end
  end.

Context (limit : Z) (Hlimit : 1 <= limit <= pc_MaxListItems config).
Context (Hallowed : authorize config (mkAuthorization OperationList 0 None) = None).

(** The cursor that names [position]: none for the first page. *)
Definition cursor_at (generation position : Z) : list byte :=
  if position =? 0 then [] else encodeCursor generation position.

Lemma list_request_page version generation position m :
  generation_of m = generation -> fits_u 64 generation -> 0 <= position <= MaxInt ->
  list_request (mkListRequest version (cursor_at generation position) limit) m =
    match visible m with
    | inl all => list_page limit generation all position
    | inr err => PageError CodePermissionDenied err
    end.
Proof.
  intros Hg Hf Hp. unfold ProtocolHandlers.list_request, visible, generation_of, cursor_at in *. rewrite Hallowed. cbn [lr_Limit lr_Cursor].
  rewrite (proj2 (Z.eqb_neq limit 0)), (proj2 (Z.ltb_ge limit 1)), (proj2 (Z.ltb_ge (pc_MaxListItems config) limit)) by lia.
  cbn [orb]. destruct (api_ListSnapshot m) as [g all]. cbn [fst snd] in *. subst g.
  destruct (match pc_FilterSessions config with Some f => f all | None => inl all end) as [all'|err]; [|done].
  destruct (Z.eqb_spec position 0) as [->|Hne]; [done|].
  destruct (encodeCursor generation position) as [|b cursor] eqn:E; [by destruct (encodeCursor_nonempty generation position)|].
  rewrite <- E, decode_encodeCursor by (done || unfold MaxInt in *; lia). cbn. by rewrite Z.eqb_refl.
Qed.

(** A cursor of another generation is refused. *)
Lemma list_request_stale version generation position m :
  generation_of m <> generation -> fits_u 64 generation -> 0 <= position <= MaxInt ->
  exists code err, list_request (mkListRequest version (encodeCursor generation position) limit) m = PageError code err.
Proof.
  intros Hg Hf Hp. unfold ProtocolHandlers.list_request, generation_of in *. rewrite Hallowed. cbn [lr_Limit lr_Cursor].
  rewrite (proj2 (Z.eqb_neq limit 0)), (proj2 (Z.ltb_ge limit 1)), (proj2 (Z.ltb_ge (pc_MaxListItems config) limit)) by lia.
  cbn [orb]. destruct (api_ListSnapshot m) as [g all]. cbn in Hg.
  destruct (match pc_FilterSessions config with Some f => f all | None => inl all end) as [all'|err]; [|by eexists _, _].
  destruct (encodeCursor generation position) as [|b cursor] eqn:E; [by destruct (encodeCursor_nonempty generation position)|].
  rewrite <- E, decode_encodeCursor by (done || unfold MaxInt in *; lia). cbn.
  rewrite (proj2 (Z.eqb_neq _ _)) by congruence. by eexists _, _.
Qed.

(** States of one listing: those of the generation list the same identifiers. *)
Definition same_listing (generation : Z) (ids : list Z) (ms : nat -> M) : Prop :=
  forall i all, generation_of (ms i) = generation -> visible (ms i) = inl all -> si_ID <$> all = ids.

Lemma sessions_at_app all position stop :
  0 <= position <= stop -> drop (Z.to_nat position) all = sessions_at all position stop ++ drop (Z.to_nat stop) all.
Proof.
  intros Hp. unfold sessions_at, slice. rewrite <- (take_drop (Z.to_nat stop - Z.to_nat position) (drop _ all)) at 1.
  f_equal. rewrite drop_drop. f_equal. lia.
Qed.

Lemma collect_step fuel version generation all stop sessions ms :
  0 < stop ->
  match next_cursor generation all stop with
  | [] => Some (inl sessions)
  | _ :: _ =>
      match collect fuel version limit (next_cursor generation all stop) ms with
      | Some (inl rest) => Some (inl (sessions ++ rest))
      | other => other
      end
  end =
  if stop <? len all
  then match collect fuel version limit (cursor_at generation stop) ms with
       | Some (inl rest) => Some (inl (sessions ++ rest))
       | other => other
       end
  else Some (inl sessions).
Proof.
  intros Hs. unfold next_cursor, cursor_at. rewrite (proj2 (Z.eqb_neq stop 0)) by lia.
  destruct (stop <? len all); [|done]. by destruct (encodeCursor generation stop) eqn:E; [apply encodeCursor_nonempty in E|].
Qed.

Lemma collect_from fuel version generation ids position ms :
  fits_u 64 generation -> len ids + limit <= MaxInt -> same_listing generation ids ms ->
  0 <= position <= len ids -> (position = 0 -> generation_of (ms 0%nat) = generation) ->
  len ids - position < Z.of_nat fuel ->
  exists r, collect fuel version limit (cursor_at generation position) ms = Some r /\
    forall ss, r = inl ss -> si_ID <$> ss = drop (Z.to_nat position) ids.
Proof.
  intros Hf Hmax. revert position ms. induction fuel as [|fuel IH]; intros position ms Hsame Hp Hg Hfuel; [lia|].
  cbn [collect]. destruct (decide (generation_of (ms 0%nat) = generation)) as [Eg|Eg].
  2:{ unfold cursor_at. rewrite (proj2 (Z.eqb_neq position 0)) by (intros ?; auto).
      destruct (list_request_stale version generation position (ms 0%nat)) as (code & err & ->); [done..|lia|].
      by eexists. }
  rewrite (list_request_page version generation position (ms 0%nat) Eg Hf) by lia.
  destruct (visible (ms 0%nat)) as [all|err] eqn:Ev; [|by eexists].
  pose proof (Hsame _ _ Eg Ev) as Hids. assert (len all = len ids) as Hlen by (unfold len; by rewrite <- Hids, length_fmap).
  pose proof (list_page_in_range limit generation all position ltac:(lia) ltac:(lia) ltac:(lia)) as Hr.
  destruct (list_page _ _ _ _) as [sessions next|code err|err|]; [|by eexists|by eexists|done].
  destruct Hr as (stop & Hs & -> & -> & Hne & _). unfold page_end in Hs.
  destruct (Z.ltb_spec position (len all)) as [Hlt|Hge].
  2:{ assert (stop = len all) as -> by lia. unfold next_cursor. rewrite Z.ltb_irrefl. eexists. split; [done|].
      intros ss [= <-]. rewrite <- Hids, <- fmap_drop. f_equal. rewrite (sessions_at_app all position (len all)) by lia.
      rewrite (drop_ge all (Z.to_nat (len all))) by (unfold len; lia). by rewrite app_nil_r. }
  specialize (Hne Hlt) as [Hgt _]. rewrite collect_step by lia.
  pose proof (sessions_at_app all position stop ltac:(lia)) as Happ.
  destruct (Z.ltb_spec stop (len all)) as [Hmore|Hdone].
  - destruct (IH stop (fun i => ms (S i))) as (r & -> & Hss); [intros i a; apply (Hsame (S i))|lia|lia|lia|].
    destruct r as [rest|failed]; [|by eexists]. eexists. split; [done|]. intros ss [= <-].
    rewrite fmap_app, (Hss rest eq_refl), <- Hids, <- !fmap_drop, Happ, fmap_app. done.
  - eexists. split; [done|]. intros ss [= <-]. rewrite <- Hids, <- fmap_drop, Happ.
    by rewrite (drop_ge all (Z.to_nat stop)), app_nil_r by (unfold len in *; lia).
Qed.

(** A client that follows the cursors ends after at most one request per session;
    when it reaches the last page it has the identifiers of the first snapshot. *)
Lemma paging_consistent version ids ms :
  fits_u 64 (generation_of (ms 0%nat)) -> len ids + limit <= MaxInt ->
  same_listing (generation_of (ms 0%nat)) ids ms ->
  exists r, collect (S (length ids)) version limit [] ms = Some r /\
    forall ss, r = inl ss -> si_ID <$> ss = ids.
Proof.
  intros Hf Hmax Hsame.
  destruct (collect_from (S (length ids)) version (generation_of (ms 0%nat)) ids 0 ms) as (r & Hc & Hr);
    try done; [unfold len; lia|unfold len; lia|]. by exists r.
Qed.

Lemma collect_complete fuel version generation all position ms :
  fits_u 64 generation -> len all + limit <= MaxInt ->
  (forall i, generation_of (ms i) = generation /\ visible (ms i) = inl all) ->
  (forall p, 0 <= p < len all -> page_fits generation all p (p + 1)) ->
  (forall p q err, Marshal (page_response config (sessions_at all p q) (next_cursor generation all q)) <> inr err) ->
  0 <= position <= len all -> len all - position < Z.of_nat fuel ->
  collect fuel version limit (cursor_at generation position) ms = Some (inl (drop (Z.to_nat position) all)).
Proof.
  intros Hf Hmax Hms Hfit Hmar. revert position ms Hms. induction fuel as [|fuel IH]; intros position ms Hms Hp Hfuel; [lia|].
  cbn [collect]. destruct (Hms 0%nat) as [Eg Ev]. rewrite (list_request_page version generation position (ms 0%nat) Eg Hf), Ev by lia.
  pose proof (list_page_in_range limit generation all position ltac:(lia) ltac:(lia) ltac:(lia)) as Hr.
  destruct (list_page _ _ _ _) as [sessions next|code err|err|].
  - destruct Hr as (stop & Hs & -> & -> & Hne & _). unfold page_end in Hs.
    pose proof (sessions_at_app all position stop ltac:(lia)) as Happ.
    destruct (Z.ltb_spec position (len all)) as [Hlt|Hge].
    + specialize (Hne Hlt) as [Hgt _]. rewrite collect_step by lia. destruct (Z.ltb_spec stop (len all)).
      * rewrite (IH stop (fun i => ms (S i))) by (lia || (intros; apply Hms)). by rewrite Happ.
      * by rewrite Happ, (drop_ge all (Z.to_nat stop)), app_nil_r by (unfold len in *; lia).
    + assert (stop = len all) as -> by lia. unfold next_cursor. rewrite Z.ltb_irrefl.
      by rewrite Happ, (drop_ge all (Z.to_nat (len all))), app_nil_r by (unfold len in *; lia).
  - destruct Hr as (_ & Hlt & Hr). destruct (Hr (position + 1)); [unfold page_end; lia|]. apply Hfit. lia.
  - destruct Hr as (stop & _ & Hr). by apply Hmar in Hr.
  - done.
Qed.

(** Paging is complete. While the list does not change, every entry alone fits
    a frame and encoding never fails, following the cursors from the first page
    yields the whole list, in order and each session once. *)
Theorem paging_complete version generation all ms :
  fits_u 64 generation -> len all + limit <= MaxInt ->
  (forall i, generation_of (ms i) = generation /\ visible (ms i) = inl all) ->
  (forall p, 0 <= p < len all -> page_fits generation all p (p + 1)) ->
  (forall p q err, Marshal (page_response config (sessions_at all p q) (next_cursor generation all q)) <> inr err) ->
  collect (S (length all)) version limit [] ms = Some (inl all).
Proof.
  intros. change [] with (cursor_at generation 0).
  rewrite (collect_complete _ version generation all 0) by (done || unfold len; lia). done.
Qed.
End Paging.

(** ** A limit that overflows *)

Section Overflow.
Context {P M : Type} `{ClassSender P, ManagerAPI M, ErrorText, Marshaler ProtocolResponse, Unmarshaler ListRequest}.
Context `{Marshaler ReplayMetadata, Marshaler ExitPayload, Marshaler ProtocolErrorEvent}.
Context `{Unmarshaler OpenRequest, Unmarshaler AttachRequest, Unmarshaler VersionOnly}.

(** C40. A client that pages can make the server's handler panic. [RegisterProtocol]
    accepts the largest int as [MaxListItems] and registers the List handler with
    it; a List request that names no limit of its own, or that one, and carries the
    cursor of any position after the first, of the current generation, makes
    [position + limit] wrap, and the handler slices the sessions with a negative
    end, whatever their encoding. *)
Theorem list_overflow_panics peer manager mcfg maxFrame c closed h config h' request payload generation all position
    (w : World P M) :
  RegisterProtocol peer manager mcfg maxFrame c closed h = (inl config, h') -> pc_MaxListItems c = MaxInt ->
  authorize config (mkAuthorization OperationList 0 None) = None ->
  StreamID (FHeader request) = 0 -> decode config request = inl payload ->
  lr_Limit payload = 0 \/ lr_Limit payload = MaxInt -> lr_Cursor payload = encodeCursor generation position ->
  generation_of (w_manager w) = generation -> visible config (w_manager w) = inl all ->
  fits_u 64 generation -> 1 <= position <= len all -> len all <= MaxInt ->
  h' !! t_List (pc_Types c) = Some (handler_id OperationList) /\
  handle config maxFrame OperationList request w = (Panic, w).
Proof.
  intros Hreg Hc Ha Hs Hd Hlim Hcur Hg Hv Hf Hp Hl.
  pose proof (RegisterProtocol_exact peer manager mcfg maxFrame c closed h) as Hx. cbn zeta in Hx. rewrite Hreg in Hx.
  destruct Hx as (_ & -> & Hh & _). split; [exact (Hh OperationList)|].
  assert (pc_MaxListItems (fill_protocol c) = MaxInt) as Hmax by (unfold fill_protocol; cbn; by rewrite Hc).
  cbn [handle]. unfold handleList. rewrite Hs, Hd. cbn [negb Z.eqb]. unfold bind, on_manager.
  enough (list_request (fill_protocol c) maxFrame payload (w_manager w) = PagePanic) as -> by (by destruct w).
  unfold list_request. rewrite Ha, Hmax, Hcur.
  assert ((if lr_Limit payload =? 0 then MaxInt else lr_Limit payload) = MaxInt) as -> by (by destruct Hlim as [->| ->]).
  unfold generation_of, visible in *. destruct (api_ListSnapshot (w_manager w)) as [g all0]. cbn [fst snd] in *. subst g.
  change ((MaxInt <? 1) || (MaxInt <? MaxInt)) with false. cbn iota. rewrite Hv.
  destruct (encodeCursor generation position) as [|b cursor] eqn:E; [by destruct (encodeCursor_nonempty generation position)|].
  rewrite <- E, decode_encodeCursor by (done || unfold MaxInt in *; lia). cbn [c_generation c_position].
  rewrite Z.eqb_refl. by apply list_page_overflow.
Qed.
End Overflow.
