(* ===== verification/ReplayFraming.v ===== *)
(** pty/protocol.go: the frames of one attachment, from the response of
    [handleAttach] through the replay to the live output and the exit. *)

From S2P Require Import Prelude Errors BigEndian Frame PeerConfig Peer Inbound Correlation PtyTypes Attachment Subscription History Manager Cursor Protocol ProtocolHandlers ProtocolSpec.

Section Framing.
Context {P M : Type} `{ClassSenderLaws P} `{ManagerAPI M}.
Context `{Marshaler ProtocolResponse, Marshaler ReplayMetadata, Marshaler ExitPayload}.
Context (config : ProtocolConfig).
Implicit Types w : World P M.

(** Whether an output event is the last one of the replay, not marked yet. *)
Definition marks (s : Sink) (e : OutputEvent) : bool :=
  negb (sk_replayEnded s) && negb (sk_replayLast s =? 0) && (ev_Sequence e =? sk_replayLast s).

(** The frame of an output event. *)
Definition output_frame (id : Z) (e : OutputEvent) (item : Frame * Z) : Prop :=
  event_of config (t_Output (pc_Types config)) id (ev_Data e) item.1 /\ item.2 = TrafficBulk.

Definition end_marker (id : Z) (item : Frame * Z) : Prop :=
  event_of config (t_ReplayEnd (pc_Types config)) id [] item.1 /\ item.2 = TrafficControl.

Definition exit_frame (id : Z) (status : ExitStatus) (item : Frame * Z) : Prop :=
  (exists payload, Marshal (mkExitPayload (pc_Version config) status) = inl payload /\
    event_of config (t_Exit (pc_Types config)) id payload item.1) /\ item.2 = TrafficControl.

Lemma Send_output id a s e w w' :
  w_sinks w !! a = Some s -> Send config id a (output_event e) w = (None, w') ->
  exists item, output_frame id e item /\
    if marks s e
    then exists mark, end_marker id mark /\ wire (w_peer w') = wire (w_peer w) ++ [item; mark] /\
           w_sinks w' !! a = Some (mkSink (sk_replayLast s) true)
    else wire (w_peer w') = wire (w_peer w) ++ [item] /\ w_sinks w' !! a = Some s.
Proof.
  intros Hs Hh. unfold Send in Hh. cbn in Hh. change NewFrame with NewOwnedFrame in Hh.
  destruct (NewOwnedFrame _ _) as [f|err] eqn:Ef; [|done]. unfold bind in Hh.
  destruct (on_peer _ w) as [[err|] w1] eqn:E1; [done|].
  apply on_peer_sends in E1 as (ws & [Hw Ew] & [->|[_ ?]]); [|done].
  unfold get_sink in Hh. rewrite Ew in Hh. cbn [w_sinks] in Hh. rewrite Hs in Hh. cbn [from_option Datatypes.id] in Hh.
  exists (f, TrafficBulk). split; [by split|]. fold (marks s e) in Hh. destruct (marks s e).
  - unfold put_sink in Hh. apply emitEmpty_sends in Hh as (ws & [Hw2 Ew2] & Ho).
    destruct Ho as [(mark & Hm & [->|[_ ?]])|[_ ?]]; [|done..]. exists (mark, TrafficControl). split; [by split|].
    split; [by rewrite Hw2; cbn; rewrite Hw, <- (assoc_L (++))|]. rewrite Ew2. cbn. by rewrite lookup_insert_eq.
  - injection Hh as <-. cbn. by rewrite Hw.
Qed.

Lemma send_all_cons id a e es w w' :
  send_all config id a (e :: es) w = (None, w') ->
  exists w1, Send config id a e w = (None, w1) /\ send_all config id a es w1 = (None, w').
Proof. cbn [send_all]. unfold bind. destruct (Send _ _ _ _ w) as [[err|] w1]; [done|]. by exists w1. Qed.

Lemma send_all_app id a es es' w w' :
  send_all config id a (es ++ es') w = (None, w') ->
  exists w1, send_all config id a es w = (None, w1) /\ send_all config id a es' w1 = (None, w').
Proof.
  revert w. induction es as [|e es IH]; intros w Hh; [by exists w|]. cbn [app] in Hh.
  apply send_all_cons in Hh as (w1 & E1 & Hh). destruct (IH w1 Hh) as (w2 & H1' & H2'). exists w2.
  split; [|done]. cbn [send_all]. unfold bind. by rewrite E1.
Qed.

Lemma send_outputs id a s events w w' :
  w_sinks w !! a = Some s -> Forall (fun e => marks s e = false) events ->
  send_all config id a (output_event <$> events) w = (None, w') ->
  exists items, Forall2 (output_frame id) events items /\ wire (w_peer w') = wire (w_peer w) ++ items /\
    w_sinks w' !! a = Some s.
Proof.
  intros Hs Hm. revert w Hs. induction Hm as [|e events He _ IH]; intros w Hs Hh.
  { injection Hh as <-. exists []. rewrite app_nil_r. done. }
  apply send_all_cons in Hh as (w1 & E1 & Hh). apply (Send_output _ _ s) in E1 as (item & Hi & E1); [|done]. rewrite He in E1. destruct E1 as [Hw1 Hs1].
  destruct (IH w1 Hs1 Hh) as (items & Hf & Hw & Hs'). exists (item :: items).
  split; [by constructor|]. split; [|done]. by rewrite Hw, Hw1, <- (assoc_L (++)).
Qed.

(** Before its last event the replay is not marked. *)
Lemma replay_unmarked last replay n :
  last <> 0 -> ev_Sequence <$> replay = seqZ (last + 1 - len replay) (len replay) -> (n < length replay)%nat ->
  Forall (fun e => marks (mkSink last false) e = false) (take n replay).
Proof.
  intros Hl Hseq Hn. apply Forall_forall. intros e He. unfold marks. cbn. rewrite (proj2 (Z.eqb_neq last 0) Hl). cbn.
  apply Z.eqb_neq. apply list_elem_of_lookup in He as [i Hi]. apply lookup_take_Some in Hi as [Hi Hin].
  apply (f_equal (fmap ev_Sequence)) in Hi. rewrite <- list_lookup_fmap, Hseq in Hi. cbn in Hi.
  apply lookup_seqZ in Hi as [-> _]. unfold len. lia.
Qed.

(** The replay up to its last event, which is followed by the marker. *)
Lemma send_replay id a last replay w w' :
  replay <> [] -> last <> 0 -> ev_Sequence <$> replay = seqZ (last + 1 - len replay) (len replay) ->
  w_sinks w !! a = Some (mkSink last false) ->
  send_all config id a (output_event <$> replay) w = (None, w') ->
  exists items mark, Forall2 (output_frame id) replay items /\ end_marker id mark /\
    wire (w_peer w') = wire (w_peer w) ++ items ++ [mark] /\ w_sinks w' !! a = Some (mkSink last true).
Proof.
  intros Hne Hl Hseq Hs Hh. destruct (exists_last Hne) as (init & e & ->).
  rewrite fmap_app in Hh. apply send_all_app in Hh as (w1 & Hh1 & Hh2).
  assert (Forall (fun e => marks (mkSink last false) e = false) init) as Hm.
  { pose proof (replay_unmarked last _ (length init) Hl Hseq) as Hm. rewrite take_app_length in Hm. apply Hm.
    rewrite length_app. cbn. lia. }
  assert (ev_Sequence e = last) as He.
  { assert ((ev_Sequence <$> init ++ [e]) !! length init = Some (ev_Sequence e)) as Hi
      by (rewrite list_lookup_fmap, list_lookup_middle by done; done).
    rewrite Hseq in Hi. apply lookup_seqZ in Hi as [-> _]. mux_rw. unfold len. lia. }
  apply (send_outputs _ _ (mkSink last false)) in Hh1 as (items & Hf & Hw & Hs1); [|done..].
  apply send_all_cons in Hh2 as (w2 & E2 & [= <-]).
  apply (Send_output _ _ (mkSink last false)) in E2 as (item & Hi & E2); [|done].
  assert (marks (mkSink last false) e = true) as Hme.
  { unfold marks. cbn. rewrite (proj2 (Z.eqb_neq last 0) Hl). cbn. apply Z.eqb_eq. lia. }
  rewrite Hme in E2. destruct E2 as (mark & Hmk & Hw2 & Hs2). exists (items ++ [item]), mark.
  split; [apply Forall2_app; [done|by constructor]|]. split; [done|].
  split; [|done]. rewrite Hw2, Hw, <- !(assoc_L (++)). done.
Qed.

Definition final_events (final : option ExitStatus) : list AttachmentEvent :=
  match final with Some status => [exit_event status] | None => [] end.

Lemma send_final id a final w w' :
  send_all config id a (final_events final) w = (None, w') ->
  exists items, wire (w_peer w') = wire (w_peer w) ++ items /\
    match final with Some status => exists item, items = [item] /\ exit_frame id status item | None => items = [] end.
Proof.
  destruct final as [status|]; cbn [final_events]; intros Hh.
  2:{ injection Hh as <-. exists []. by rewrite app_nil_r. }
  apply send_all_cons in Hh as (w1 & E1 & [= <-]). unfold Send in E1. cbn [ae_Kind exit_event ae_Exit] in E1.
  apply emitJSON_sends in E1 as (ws & [Hw _] & [(payload & f & Hm & He & [->|[_ ?]])|[_ ?]]); [|done..].
  exists [(f, TrafficControl)]. split; [done|]. eexists. split; [done|]. split; [|done]. by exists payload.
Qed.

(** When everything was sent, the frames are those of the replay, one marker, the
    live output and the exit. *)
Lemma attach_stream_framed request a o s next live final w w1 w2 :
  let '(result, replay) := attach_replay o s in
  chunks_ok next s -> 0 <= ResumeAfter o <= s_lastSequence s -> s_lastSequence s < 2 ^ 64 - 1 ->
  Forall (fun e => s_lastSequence s < ev_Sequence e) live ->
  attach_announce config request a result w = (None, w1) ->
  send_all config (StreamID (FHeader request)) a ((output_event <$> replay ++ live) ++ final_events final) w1 = (None, w2) ->
  let id := StreamID (FHeader request) in
  exists response begin metadata outputs mark lives finals,
    wire (w_peer w2) = wire (w_peer w) ++ [(response, TrafficControl); (begin, TrafficControl)] ++
      outputs ++ [mark] ++ lives ++ finals /\
    response_to config request (attach_response config result) response /\
    event_of config (t_ReplayBegin (pc_Types config)) id metadata begin /\
    Marshal (mkReplayMetadata (pc_Version config) (ReplayFirst result) (ReplayLast result) (NextLive result)
               (Truncated result)) = inl metadata /\
    Forall2 (output_frame id) replay outputs /\ end_marker id mark /\ Forall2 (output_frame id) live lives /\
    match final with Some status => exists item, finals = [item] /\ exit_frame id status item | None => finals = [] end.
Proof.
  destruct (attach_replay o s) as [result replay] eqn:Er. intros Hok Hra Hmax Hlive Ha Hs.
  assert ((replay = [] /\ ReplayLast result = 0) \/
    (replay <> [] /\ ReplayLast result = s_lastSequence s /\ s_lastSequence s <> 0 /\
     ev_Sequence <$> replay = seqZ (s_lastSequence s + 1 - len replay) (len replay))) as Hr.
  { pose proof (attach_replay_bounds next o s Hok Hra Hmax) as Hb. rewrite Er in Hb.
    destruct (Replay o); [destruct Hb as [-> ->]; by left|]. destruct Hb as [_ Hseq Haft Hb _ _].
    destruct replay as [|e replay]; [left; tauto|]. right. destruct Hb as [_ Hb]. split_and!; try done.
    rewrite len_cons in Haft. pose proof (len_nonneg replay). lia. }
  apply attach_announce_ok in Ha as (_ & ws & Hw & (f & b & metadata & ends & Hf & Hm & Hb & -> & He) & _ & Hsink & _).
  assert (w_sinks w1 !! a = Some (mkSink (ReplayLast result) (ReplayLast result =? 0))) as Hk
    by (rewrite Hsink; apply lookup_insert_eq).
  rewrite fmap_app in Hs. apply send_all_app in Hs as (w4 & Hs & Hfin). apply send_all_app in Hs as (w3 & Hrep & Hliv).
  apply send_final in Hfin as (finals & Hwf & Hfin).
  assert (exists outputs mark, Forall2 (output_frame (StreamID (FHeader request))) replay outputs /\
    end_marker (StreamID (FHeader request)) mark /\
    wire (w_peer w3) = wire (w_peer w) ++ [(f, TrafficControl); (b, TrafficControl)] ++ outputs ++ [mark] /\
    w_sinks w3 !! a = Some (mkSink (ReplayLast result) true)) as (outputs & mark & Ho & Hmk & Hw3 & Hs3).
  { destruct Hr as [[-> Hl]|(Hne & Hl & Hz & Hseq)].
    - rewrite Hl in *. cbn in He. destruct He as (e & He & ->). injection Hrep as <-.
      exists [], (e, TrafficControl). split_and!; [constructor|by split|by rewrite Hw|by rewrite Hk].
    - rewrite Hl, (proj2 (Z.eqb_neq _ _) Hz) in *. subst ends.
      destruct (send_replay _ _ _ _ _ _ Hne Hz Hseq Hk Hrep) as (items & mark & Ho & Hmk & Hw3 & Hs3).
      exists items, mark. split_and!; try done. by rewrite Hw3, Hw, <- ?(assoc_L (++)). }
  apply (send_outputs _ _ (mkSink (ReplayLast result) true)) in Hliv as (lives & Hl & Hw4 & _); [|done|].
  2:{ apply Forall_forall. intros e _. done. }
  exists f, b, metadata, outputs, mark, lives, finals. split_and!; try done.
  rewrite Hwf, Hw4, Hw3, <- ?(assoc_L (++)). cbn. by rewrite <- ?(assoc_L (++)).
Qed.
End Framing.
