(* ===== verification/ManagerClient.v ===== *)
(** pty/manager.go: the Manager's operations as one caller composes them from
    their critical sections (nothing else running in between, the backend and the
    contexts answering as given), the instance of the interface the protocol
    handlers use, and paging over a Manager that runs. *)

From S2P Require Import Prelude Errors BigEndian Frame PtyTypes Attachment Subscription History Manager ManagerRun Cursor Protocol ProtocolHandlers Paging.

(** ** Composed operations *)

(** The answers of the backend and of the contexts: the error of StartManaged, that
    of the Open context after it, that of a context of Attach that ends before its
    attachment starts, the time, the joined errors of the process's Kill
    and of the wait, those of Resize and of the input writer. *)
Record Backend := mkBackend {
  bk_start : ProcessSpec -> option error;
  bk_ctx : option error;
  bk_attach : option error;
  bk_now : Z;
  bk_kill : Z -> option error;
  bk_resize : Z -> Size -> option error;
  bk_input : Z -> list byte -> option error;
}.

(** [finishObservers] as the counters of the Manager see it. *)
Definition finishObservers (observers : list Z) (reason : ObserverCloseReason) (m : Manager) : Manager :=
  foldl (fun m _ => recordObserverClose reason m) m observers.

(** Go's [append([]T(nil), l...)] of a slice that may be nil ([None]): it is nil
    when there is nothing to append. *)
Definition append_nil {A} (l : option (list A)) : option (list A) :=
  match l with Some (x :: l) => Some (x :: l) | _ => None end.

(** The copies [Open] makes of Args and Env. *)
Definition copy_spec (spec : ProcessSpec) : ProcessSpec :=
  mkProcessSpec (Command spec) (Args spec)
    (match Env spec with None => None | Some env => append_nil (Some env) end) (Dir spec) (InitialSize spec).

(** [Manager.Open] *)
Definition Open (cfg : ManagerConfig) (b : Backend) (spec : ProcessSpec) (m : Manager) : (Z + error) * Manager :=
  match open_admit cfg true spec m with
  | (inr err, m) => (inr err, m)
  | (inl id, m) =>
      match bk_start b (copy_spec spec) with
      | Some err => (inr err, open_failed m)
      | None =>
          let m := open_started m in
          match bk_ctx b with
          | Some err => (inr err, recordProcessExited (open_failed m))
          | None =>
              match open_commit cfg id (InitialSize spec) (bk_now b) m with
              | (false, _, m) =>
                  let m := recordProcessExited m in
                  (inr (if closing m then ErrManagerClosed else ErrSessionLimit), m)
              | (true, failed, m) => (inl id, finishObservers failed ObserverQueueOverflow m)
              end
          end
      end
  end.

(** [Session.Attach]'s tests of the replay mode. *)
Definition replay_mode (mode : string) : ReplayMode + error :=
  let mode := if bool_decide (mode = ""%string) then "none"%string else mode in
  if bool_decide (mode = "none"%string) then inl ReplayNone
  else if bool_decide (mode = "history"%string) then inl ReplayHistory
  else inr (New "pty: invalid replay mode").

Definition Attach (cfg : ManagerConfig) (b : Backend) (id : Z) (mode : string) (resumeAfter : Z) (paused : bool) (m : Manager)
    : ((Z * Z) * AttachResult + error) * Manager :=
  match replay_mode mode with
  | inr err => (inr err, m)
  | inl mode =>
      match attach cfg (bk_attach b) (mkAttachOptions mode resumeAfter paused) id m with
      | (inr err, m) => (inr err, m)
      | (inl (aid, result, failed), m) => (inl ((id, aid), result), finishObservers failed ObserverQueueOverflow m)
      end
  end.

(** [Attachment.Activate] of a registered attachment. *)
Definition Activate_attachment (a : Z * Z) (m : Manager) : option error * Manager :=
  match sessions m !! a.1 with
  | Some s =>
      match s_attachments s !! a.2 with
      | Some att =>
          let '(err, att) := Activate att in
          (err, with_sessions (<[a.1 := set_attachments (<[a.2 := att]> (s_attachments s)) s]> (sessions m)) m)
      | None => (Some ErrAttachmentClosed, m)
      end
  | None => (Some ErrAttachmentClosed, m)
  end.

(** [Attachment.Close] of an attachment, registered or not. *)
Definition Close_attachment (a : Z * Z) (m : Manager) : Manager :=
  match sessions m !! a.1 with
  | Some s =>
      match s_attachments s !! a.2 with
      | Some _ => recordAttachmentClose (infoLocked s) a.1 a.2 AttachmentClosedExplicitly m
      | None => m
      end
  | None => m
  end.

(** [Manager.Kill]; a second Kill of a session only waits. *)
Definition Kill (b : Backend) (id : Z) (m : Manager) : option error * Manager :=
  match sessions m !! id with
  | None => (Some ErrSessionNotFound, m)
  | Some _ => (bk_kill b id, (kill_section id m).2)
  end.

(** [Session.Resize] *)
Definition Resize (b : Backend) (id : Z) (sz : Size) (m : Manager) : option error * Manager :=
  match Size_Validate sz with
  | Some err => (Some err, m)
  | None =>
      match sessions m !! id with
      | Some s =>
          if bool_decide (s_state s = SessionRunning) then
            match bk_resize b id sz with
            | Some err => (Some err, m)
            | None => (None, resized id sz m)
            end
          else (Some ErrSessionExited, m)
      | None => (Some ErrSessionExited, m)
      end
  end.

Definition zeroInfo : SessionInfo := mkSessionInfo 0 SessionStarting (mkSize 0 0) 0 0 None 0 false.

#[export] Instance Manager_API (cfg : ManagerConfig) (b : Backend) : ManagerAPI Manager := {
  api_ListSnapshot := ListSnapshot;
  api_Open := Open cfg b;
  api_Get id m := bool_decide (is_Some (sessions m !! id));
  api_Info id m := from_option infoLocked zeroInfo (sessions m !! id);
  api_Attach := Attach cfg b;
  api_Activate := Activate_attachment;
  api_CloseAttachment := Close_attachment;
  api_Kill := Kill b;
  api_Resize := Resize b;
  api_Input id data m :=
    (match sessions m !! id with
     | Some s => if bool_decide (s_state s = SessionRunning) then bk_input b id data else Some ErrSessionExited
     | None => Some ErrSessionExited
     end, m);
}.

(** An empty environment is replaced by the inherited one. [Open] of a
    specification with an empty, non-nil Env does exactly what it does with a nil
    Env, whatever the backend makes of it: its copy of the empty slice is nil. *)
Theorem open_loses_empty_env cfg b command args dir sz m :
  Open cfg b (mkProcessSpec command args (Some []) dir sz) m = Open cfg b (mkProcessSpec command args None dir sz) m.
Proof. reflexivity. Qed.

(** ** Snapshots *)

(** The identifiers a snapshot lists. *)
Definition snapshot_ids (m : Manager) : list Z := si_ID <$> (ListSnapshot m).2.

(** Every session is registered under its own identifier. *)
Definition keyed (ss : Sessions) : Prop := forall id s, ss !! id = Some s -> s_id s = id.

Lemma ListSnapshot_elem m info : keyed (sessions m) ->
  info ∈ (ListSnapshot m).2 <-> exists s, sessions m !! si_ID info = Some s /\ info = infoLocked s.
Proof.
  intros Hk. unfold ListSnapshot. cbn [snd]. rewrite merge_sort_Permutation, list_elem_of_fmap. split.
  - intros (s & -> & ([id s'] & -> & Hs)%list_elem_of_fmap). apply elem_of_map_to_list in Hs.
    exists s'. cbn [snd infoLocked si_ID]. by rewrite (Hk _ _ Hs).
  - intros (s & Hs & ->). exists s. split; [done|]. apply list_elem_of_fmap. exists (s_id s, s).
    split; [done|]. by apply elem_of_map_to_list.
Qed.

#[export] Instance info_le_total : Total info_le.
Proof. intros a b. unfold info_le. lia. Qed.

Lemma snapshot_ids_perm m : keyed (sessions m) -> snapshot_ids m ≡ₚ (map_to_list (sessions m)).*1.
Proof.
  intros Hk. unfold snapshot_ids, ListSnapshot. cbn [snd]. rewrite merge_sort_Permutation.
  match goal with |- ?l ≡ₚ ?k => enough (l = k) as -> by done end. rewrite <- !list_fmap_compose. apply list_fmap_ext. intros i [id s] Hs.
  cbn. apply (Hk id s). apply elem_of_map_to_list. by eapply list_elem_of_lookup_2.
Qed.

Lemma snapshot_ids_le m : StronglySorted Z.le (snapshot_ids m).
Proof.
  unfold snapshot_ids, ListSnapshot. cbn [snd]. apply (StronglySorted_fmap _ info_le); [done|].
  apply StronglySorted_merge_sort; [intros a b c; unfold info_le; lia|apply _].
Qed.

Lemma snapshot_ids_sorted m : keyed (sessions m) -> StronglySorted Z.lt (snapshot_ids m).
Proof.
  intros Hk. assert (NoDup (snapshot_ids m)) as Hn.
  { rewrite (snapshot_ids_perm m Hk). apply NoDup_fst_map_to_list. }
  pose proof (snapshot_ids_le m) as Hs. induction Hs as [|x k _ IH Hx]; [constructor|].
  apply NoDup_cons in Hn as [Hni Hn]. constructor; [by apply IH|].
  rewrite Forall_forall in Hx |- *. intros y Hy. specialize (Hx y Hy). assert (x <> y) by (by intros ->). lia.
Qed.

Lemma snapshot_ids_keys m m' :
  keyed (sessions m) -> keyed (sessions m') -> same_keys (sessions m) (sessions m') -> snapshot_ids m = snapshot_ids m'.
Proof.
  intros Hk Hk' Hs.
  assert (snapshot_ids m ≡ₚ snapshot_ids m') as Hp.
  { apply NoDup_Permutation.
    - rewrite (snapshot_ids_perm m Hk). apply NoDup_fst_map_to_list.
    - rewrite (snapshot_ids_perm m' Hk'). apply NoDup_fst_map_to_list.
    - intros id. rewrite (snapshot_ids_perm m Hk), (snapshot_ids_perm m' Hk').
      rewrite !list_elem_of_fmap. specialize (Hs id). split; intros ([i s] & -> & Hi%elem_of_map_to_list); cbn in *.
      + destruct Hs as [Hs _]. destruct Hs as [s' Hs]; [by eexists|]. exists (i, s'). split; [done|]. by apply elem_of_map_to_list.
      + destruct Hs as [_ Hs]. destruct Hs as [s' Hs]; [by eexists|]. exists (i, s'). split; [done|]. by apply elem_of_map_to_list. }
  apply (StronglySorted_unique Z.le); [apply snapshot_ids_le..|done].
Qed.

(** ** Paging over a running Manager *)

Lemma reachable_keyed cfg st : manager_config_ok cfg -> m_reachable cfg st -> keyed (sessions (mgr st)).
Proof. intros Hcfg Hr id s Hs. destruct (m_reachable_inv _ _ Hcfg Hr) as [I _]. apply (bi_sess _ _ I _ _ Hs). Qed.

Lemma reachable_generation cfg st : manager_config_ok cfg -> m_reachable cfg st -> fits_u 64 (generation (mgr st)).
Proof.
  intros Hcfg. induction 1 as [|st st' Hr IH Hs]; [by split|].
  destruct (step_moves _ _ _ Hcfg Hr Hs) as [_ [[-> _]| ->]]; [done|]. by apply uwrap_bound.
Qed.

Section Running.
Context `{Marshaler ProtocolResponse}.
Context (cfg : ManagerConfig) (Hcfg : manager_config_ok cfg).
(** An execution: each moment a step or a pause. *)
Context (run : nat -> MState) (Hstart : m_reachable cfg (run 0%nat)).
Context (Hrun : forall i, run (S i) = run i \/ m_step cfg (run i) (run (S i))).
(** The registry's generation does not wrap around. *)
Context (Hgen : forall i, generation (mgr (run i)) < 2 ^ 64 - 1).

Lemma run_reachable i : m_reachable cfg (run i).
Proof. induction i as [|i IH]; [done|]. destruct (Hrun i) as [->|Hs]; [done|]. by eapply mr_step. Qed.

Lemma run_generation i j : (i <= j)%nat ->
  generation (mgr (run i)) <= generation (mgr (run j)) /\
  (generation (mgr (run i)) = generation (mgr (run j)) -> same_keys (sessions (mgr (run i))) (sessions (mgr (run j)))).
Proof.
  induction 1 as [|j _ [IH1 IH2]]; [split; [lia|by intros _ id]|].
  destruct (Hrun j) as [->|Hs]; [by split|].
  destruct (step_moves _ _ _ Hcfg (run_reachable j) Hs) as [_ [[-> Hk]| ->]].
  - split; [done|]. intros E id. by rewrite (IH2 E id).
  - pose proof (reachable_generation cfg (run j) Hcfg (run_reachable j)) as [? ?]. specialize (Hgen j).
    rewrite uwrap_small by (unfold fits_u; lia). split; lia.
Qed.

(** C6. Listing a running Manager is consistent. A client follows the cursors of
    [handleList] while the Manager takes any steps between its requests. It needs
    at most one request more than there were sessions at its first one; and when it
    gets to the last page it has collected exactly the identifiers registered then,
    in increasing order and each once, although sessions come and go: a change of
    the registry in between is reported as a stale cursor. *)
Theorem manager_paging (b : Backend) config maxFrame limit version times :
  1 <= limit <= pc_MaxListItems config -> authorize config (mkAuthorization OperationList 0 None) = None ->
  pc_FilterSessions config = None -> (forall i, (times i <= times (S i))%nat) ->
  let first := mgr (run (times 0%nat)) in
  Z.of_nat (size (sessions first)) + limit <= MaxInt ->
  exists r, @collect Manager (Manager_API cfg b) _ config maxFrame (S (size (sessions first))) version limit []
      (fun i => mgr (run (times i))) = Some r /\
    forall ss, r = inl ss -> StronglySorted Z.lt (si_ID <$> ss) /\
      forall id, id ∈ si_ID <$> ss <-> is_Some (sessions first !! id).
Proof.
  intros Hl Ha Hfil Ht first Hmax.
  pose proof (reachable_keyed _ _ Hcfg (run_reachable (times 0%nat))) as Hk.
  pose proof (snapshot_ids_perm first Hk) as Hp.
  assert (length (snapshot_ids first) = size (sessions first)) as Hlen
    by (rewrite Hp, length_fmap; apply length_map_to_list).
  assert (forall i, (times 0%nat <= times i)%nat) as Hmono by (induction i as [|i IH]; [done|]; specialize (Ht i); lia).
  destruct (@paging_consistent Manager (Manager_API cfg b) _ config maxFrame limit Hl Ha version (snapshot_ids first) (fun i => mgr (run (times i))))
    as (r & Hc & Hr).
  - apply (reachable_generation cfg); [done|apply run_reachable].
  - unfold len. by rewrite Hlen.
  - intros i all Eg Ev. unfold visible in Ev. rewrite Hfil in Ev. injection Ev as <-.
    symmetry. apply snapshot_ids_keys; [done|apply (reachable_keyed cfg); [done|apply run_reachable]|].
    apply run_generation; [apply Hmono|]. symmetry. exact Eg.
  - rewrite Hlen in Hc. exists r. split; [exact Hc|]. intros ss E. rewrite (Hr ss E).
    split; [by apply snapshot_ids_sorted|]. intros id. rewrite Hp, list_elem_of_fmap. split.
    + intros ([i s] & -> & Hi%elem_of_map_to_list). by eexists.
    + intros [s Hs]. exists (id, s). split; [done|]. by apply elem_of_map_to_list.
Qed.
End Running.
