(* ===== verification/ProtocolDemo.v ===== *)
(** Worked examples of the protocol: the theorems on handlers and paging
    applied to a concrete peer, encoding and Manager. *)

From S2P Require Import Prelude Errors BigEndian Frame PeerConfig Peer Inbound Correlation PtyTypes Attachment Subscription History Manager ManagerRun ManagerSpec Cursor Protocol ProtocolHandlers ProtocolSpec Paging ReplayFraming ManagerClient.

(** ** A peer that accepts every frame, and a small encoding *)

Record Log := mkLog { log : list (Frame * Z) }.
#[export] Instance Log_sender : ClassSender Log := fun frame class p => (None, mkLog (log p ++ [(frame, class)])).
#[export] Instance Log_laws : ClassSenderLaws Log.
Proof. exists log. intros frame class p err p' [= <- <-]. by left. Defined.

#[export] Instance demo_marshal_response : Marshaler ProtocolResponse :=
  fun r => inl (Byte.x7b :: ((fun s => byte_of_Z (si_ID s)) <$> r_Sessions r) ++ r_NextCursor r).
#[export] Instance demo_marshal_metadata : Marshaler ReplayMetadata :=
  fun r => inl [byte_of_Z (rm_First r); byte_of_Z (rm_Last r)].
#[export] Instance demo_marshal_exit : Marshaler ExitPayload := fun x => inl [byte_of_Z (ex_Code (xp_Exit x))].
#[export] Instance demo_marshal_error : Marshaler ProtocolErrorEvent := fun _ => inl [].
#[export] Instance demo_text : ErrorText := fun _ => "error"%string.
#[export] Instance demo_open_request : Unmarshaler OpenRequest := fun _ => (mkOpenRequest 1 "sh" [] None "" (mkSize 80 24), None).
#[export] Instance demo_list_request : Unmarshaler ListRequest := fun _ => (mkListRequest 1 [] 1, None).
#[export] Instance demo_attach_request : Unmarshaler AttachRequest := fun _ => (mkAttachRequest 1 "history" 0, None).
#[export] Instance demo_version : Unmarshaler VersionOnly := fun _ => (mkVersionOnly 1, None).

Definition demo_types : MessageTypes := mkTypes 1 2 3 4 5 6 7 8 9 10 11 12 13.
Definition demo_protocol : ProtocolConfig := mkProtocolConfig 1 demo_types 2 64 64 64 4 4 None None.
Definition demo_denying : ProtocolConfig :=
  mkProtocolConfig 1 demo_types 2 64 64 64 4 4
    (Some (fun a => if au_SessionID a =? 1 then Some (New "denied") else None)) None.

Definition demo_backend : Backend := mkBackend (fun _ => None) None None 0 (fun _ => None) (fun _ _ => None) (fun _ _ => None).
#[export] Instance demo_api : ManagerAPI Manager := Manager_API demo_hist_cfg demo_backend.

Definition demo_world : World Log Manager := mkWorld (mkLog []) (mgr demo_running) ∅ ∅.

(** An inspect request for session 1, and a kill request. *)
Definition demo_inspect : Frame := mkFrame (mkHeader 0 1 3 FlagRequest 7 1) [].
Definition demo_kill : Frame := mkFrame (mkHeader 0 1 9 FlagRequest 8 1) [].

Lemma requests_answered_witness :
  exists f w', handle demo_protocol 64 OperationInspect demo_inspect demo_world = (Return None, w') /\
    log (w_peer w') = [(f, TrafficControl)] /\ answers f (mkPending 3 1 0) = true.
Proof.
  destruct (handle demo_protocol 64 OperationInspect demo_inspect demo_world) as [out w'] eqn:E.
  destruct (requests_answered demo_protocol 64 OperationInspect demo_inspect demo_world out w' 0%N E ltac:(discriminate)) as [_ Ha].
  assert (out = Return None) as -> by (apply (f_equal fst) in E; vm_compute in E; symmetry; exact E).
  destruct (Ha eq_refl) as (_ & f & events & _ & Hw & _ & _ & _ & _ & _ & Hans & _). exists f, w'.
  split; [reflexivity|]. split; [|exact Hans].
  assert (length (log (w_peer w')) = 1%nat) as Hl by (apply (f_equal snd) in E; cbn [snd] in E; rewrite <- E; vm_compute; reflexivity).
  cbn in Hw. rewrite Hw in *. destruct events; [reflexivity|discriminate Hl].
Defined.

Lemma denied_changes_nothing_witness :
  exists out w', handle demo_denying 64 OperationKill demo_kill demo_world = (out, w') /\
    w_manager w' = mgr demo_running.
Proof.
  destruct (handle demo_denying 64 OperationKill demo_kill demo_world) as [out w'] eqn:E. exists out, w'.
  split; [reflexivity|].
  apply (denied_changes_nothing demo_denying 64 OperationKill demo_kill demo_world out w'); [|exact E].
  intros a [= <-]. discriminate.
Defined.

(** ** Paging *)

Definition demo_infos : list SessionInfo := infoLocked <$> [new_session 1; new_session 2; new_session 3].

Lemma list_page_bounds_witness :
  exists next, list_page demo_protocol 64 2 5 demo_infos 0 = Page (infoLocked <$> [new_session 1; new_session 2]) next /\
    next <> [].
Proof.
  pose proof (list_page_bounds demo_protocol 64 2 5 demo_infos 0 ltac:(lia) ltac:(vm_compute; discriminate)) as H.
  destruct (list_page _ _ _ _ _ _) as [ss next|? ?|?|] eqn:E; vm_compute in E; [|discriminate..].
  injection E as <- E. exists next. split; [rewrite <- E; reflexivity|]. destruct H as (_ & _ & rest & Hr & Hn & _).
  intros Hx. apply Hn in Hx. rewrite Hx in Hr. vm_compute in Hr. discriminate.
Defined.

(** A Manager with the sessions 1 and 2, each listed on a page of its own. *)
Definition demo_listed : Manager := with_sessions demo_sessions newManager.

(** The second page, on a server that is configured with the largest limit. *)
Definition demo_unlimited : ProtocolConfig := mkProtocolConfig 1 demo_types MaxInt 64 64 64 4 4 None None.

Section Second_page.
#[local] Instance demo_second_page : Unmarshaler ListRequest := fun _ => (mkListRequest 1 (encodeCursor 0 1) 0, None).

Lemma list_overflow_panics_witness :
  handle demo_unlimited 64 OperationList (mkFrame (mkHeader 0 1 2 FlagRequest 7 0) [Byte.x7b])
    (mkWorld (mkLog []) demo_listed ∅ ∅) = (Panic, mkWorld (mkLog []) demo_listed ∅ ∅).
Proof.
  destruct (RegisterProtocol true true demo_hist_cfg 64 demo_unlimited false ∅) as [result h'] eqn:E.
  assert (result = inl demo_unlimited) as -> by (apply (f_equal fst) in E; vm_compute in E; symmetry; exact E).
  apply (list_overflow_panics true true demo_hist_cfg 64 demo_unlimited false ∅ demo_unlimited h' _
    (mkListRequest 1 (encodeCursor 0 1) 0) 0 (ListSnapshot demo_listed).2 1 (mkWorld (mkLog []) demo_listed ∅ ∅) E);
    try (vm_compute; reflexivity); [left; reflexivity| | |]; vm_compute; try done; by split.
Defined.
End Second_page.

Lemma paging_complete_witness :
  collect demo_protocol 20 (S 2) 1 1 [] (fun _ => demo_listed) = Some (inl (infoLocked <$> [new_session 1; new_session 2])).
Proof.
  assert ((ListSnapshot demo_listed).2 = infoLocked <$> [new_session 1; new_session 2]) as Hs by (vm_compute; reflexivity).
  refine (paging_complete demo_protocol 20 1 _ eq_refl 1 0 (infoLocked <$> [new_session 1; new_session 2]) (fun _ => demo_listed) _ _ _ _ _).
  - cbn. lia.
  - split; [lia|reflexivity].
  - vm_compute. discriminate.
  - intros _. split; [reflexivity|]. unfold visible. cbn [demo_protocol pc_FilterSessions]. by rewrite <- Hs.
  - intros p Hp. change (len _) with 2 in Hp. eexists. split; [reflexivity|].
    assert (p = 0 \/ p = 1) as [->| ->] by lia; vm_compute; discriminate.
  - intros p q err. discriminate.
Defined.

(** The listing of a running Manager that pauses. *)
Lemma manager_paging_witness :
  exists r, @collect Manager demo_api _ demo_protocol 64 (S 1) 1 1 [] (fun _ => mgr demo_running) = Some r /\
    (forall ss, r = inl ss -> 1 ∈ si_ID <$> ss).
Proof.
  destruct (manager_paging demo_hist_cfg demo_hist_cfg_ok (fun _ => demo_running) demo_running_reachable
    (fun _ => or_introl eq_refl) ltac:(intros; vm_compute; reflexivity) demo_backend demo_protocol 64 1 1 (fun _ => 0%nat))
    as (r & Hc & Hr); [cbn; lia|reflexivity|reflexivity|done|vm_compute; discriminate|].
  exists r. split; [exact Hc|]. intros ss E. destruct (Hr ss E) as [_ Hids]. apply Hids. vm_compute. by eexists.
Defined.

(** ** An attachment *)

(** Session 2 of the example history, resumed from the start by attachment 9. *)
Definition demo_attach : Frame := mkFrame (mkHeader 0 1 4 FlagRequest 7 2) [].
Definition demo_options : AttachOptions := mkAttachOptions ReplayHistory 0 true.
Definition demo_attach_world (s : Session) : World Log Manager :=
  mkWorld (mkLog []) (with_sessions (<[2 := set_attachments {[9 := newAttachment 16 false []]} s]> ∅) newManager) ∅ ∅.
