(* ===== verification/UnixPty.v ===== *)
(** pty/unixpty/factory_unix.go: the checks before a start, and the managed process
    as the state machine of its critical sections. The operating system (exec,
    wait4, kill, the pty device) answers nondeterministically. *)

From S2P Require Import Prelude Errors BigEndian PtyTypes.

(** ** Errors *)

Definition ErrSizeOverflow := New "unixpty: terminal size exceeds uint16".
Definition ErrInvalidProcessSpec := New "unixpty: process specification contains NUL".

(** Of the standard library and of golang.org/x/sys/unix. *)
Definition ErrClosed := New "file already closed".
Definition ErrProcessDone := New "os: process already finished".
Definition EIO := New "input/output error".
Definition ESRCH := New "no such process".

(** ** Starting *)

Definition nil_error (e target : error) : option error := if errors_Is e target then None else Some e.

(** The strings of a process specification that reach exec. *)
Definition spec_values (spec : ProcessSpec) : list string :=
  ([Command spec; Dir spec] ++ Args spec) ++ from_option id [] (Env spec).

(** [StartManaged] before the command is built; [ctx] is [None] when nil, and the
    error of the context otherwise. *)
Definition StartManaged_check (ctx : option (option error)) (spec : ProcessSpec) : option error :=
  match ctx with
  | None => Some (New "unixpty: nil context")
  | Some done =>
  match ProcessSpec_Validate spec with
  | Some e => Some e
  | None =>
  match Size_Validate (InitialSize spec) with
  | Some e => Some e
  | None =>
      if (MaxUint16 <? Cols (InitialSize spec)) || (MaxUint16 <? Rows (InitialSize spec)) then Some ErrSizeOverflow
      else if existsb has_nul (spec_values spec) then Some ErrInvalidProcessSpec
      else done
  end end end.

(** [Factory.Start] before the command is built. *)
Definition Start_check (ctx : bool) (spec : ProcessSpec) : option error :=
  if negb ctx then Some (New "unixpty: nil context") else ProcessSpec_Validate spec.

(** The [creackpty.Winsize] of a size: two uint16. *)
Definition winsize (size : Size) : Z * Z := (u16 (Cols size), u16 (Rows size)).

(** [Resize] of both process types, up to the system call: the size it sets. *)
Definition Resize (size : Size) : (Z * Z) + error :=
  match Size_Validate size with
  | Some e => inr e
  | None =>
      if (MaxUint16 <? Cols size) || (MaxUint16 <? Rows size) then inr ErrSizeOverflow else inl (winsize size)
  end.

(** [output.Read], given what the pty device answered. *)
Definition output_Read (n : Z) (err : option error) : Z * option error :=
  match err with
  | Some e => if errors_Is e EIO then (n, Some EOF) else (n, Some e)
  | None => (n, None)
  end.

(** ** The managed process *)

Inductive Signal := SIGTERM | SIGKILL.
#[export] Instance Signal_eq_dec : EqDecision Signal.
Proof. solve_decision. Defined.

(** What [command.Wait] returned: nil, an [*exec.ExitError] with its code and the
    signal that ended the process, or another error. *)
Inductive wait_result := WaitOk | WaitExit (code : Z) (signal : option string) | WaitFailed (e : error).
#[export] Instance wait_result_eq_dec : EqDecision wait_result.
Proof. solve_decision. Defined.

(** The classification in [WaitStatus]: the status and [p.waitErr]. *)
Definition wait_status (killed : bool) (r : wait_result) : ExitStatus * option error :=
  let status := mkExitStatus ExitReasonExited 0 "" None in
  match r with
  | WaitOk => (status, None)
  | WaitExit code signal =>
      let status := mkExitStatus (ex_Reason status) code (ex_Signal status) (ex_Error status) in
      let status := match signal with
                    | Some name => mkExitStatus ExitReasonSignaled (ex_Code status) name (ex_Error status)
                    | None => status
                    end in
      let status := if killed then mkExitStatus ExitReasonKilled (ex_Code status) (ex_Signal status) (ex_Error status)
                    else status in
      (status, None)
  | WaitFailed e => (mkExitStatus ExitReasonIOFailure (-1) (ex_Signal status) (Some e), Some e)
  end.

(** The body of [waitOnce]: not begun, in [command.Wait], after it, finished. *)
Inductive wait_pc := WIdle | WWaiting | WReaped (r : wait_result) | WDone.
#[export] Instance wait_pc_eq_dec : EqDecision wait_pc.
Proof. solve_decision. Defined.

(** The fields of [managedProcess]; [done] counts the closes of its channel.
    [reaped] (the operating system has forgotten the process) and [signals] (those
    sent to the group, with whether it was reaped then) are history. *)
Record Proc := mkProc {
  pgid : Z;
  running : bool;
  killed : bool;
  waitStatus : option (ExitStatus * option error);
  done : N;
  wpc : wait_pc;
  fileClosed : option (option error);
  reaped : bool;
  signals : list (Signal * bool);
}.

(** [result] of [StartManaged], for a process with identifier [pid]. *)
Definition new_process (pid : Z) : Proc := mkProc pid true false None 0 WIdle None false [].

(** [ProcessID]; [pid] is [p.command.Process.Pid], [None] without a process. *)
Definition ProcessID (pid : option Z) (p : Proc) : Z + error :=
  match pid with
  | Some pid => if negb (running p) || (pid <=? 0) then inr ErrProcessIDUnavailable else inl pid
  | None => inr ErrProcessIDUnavailable
  end.

(** [signalGroup], its critical section; [answer] is that of [unix.Kill]. *)
Definition signalGroup (signal : Signal) (kills : bool) (answer : option error) (p : Proc) : option error * Proc :=
  if negb (running p) then (None, p)
  else
    let sent := signals p ++ [(signal, reaped p)] in
    let p' k := mkProc (pgid p) (running p) k (waitStatus p) (done p) (wpc p) (fileClosed p) (reaped p) sent in
    match answer with
    | Some e => (nil_error e ESRCH, p' (killed p))
    | None => (None, p' (if kills then true else killed p))
    end.

Definition Terminate := signalGroup SIGTERM false.
Definition Kill := signalGroup SIGKILL true.

(** [command.Wait] returns: the operating system has reaped the process. *)
Definition wait_returns (r : wait_result) (p : Proc) : Proc :=
  mkProc (pgid p) (running p) (killed p) (waitStatus p) (done p) (WReaped r) (fileClosed p) true (signals p).

Definition set_wpc (w : wait_pc) (p : Proc) : Proc :=
  mkProc (pgid p) (running p) (killed p) (waitStatus p) (done p) w (fileClosed p) (reaped p) (signals p).

(** [WaitStatus]: the critical section after [command.Wait]. *)
Definition wait_section (r : wait_result) (p : Proc) : Proc :=
  mkProc (pgid p) false (killed p) (Some (wait_status (killed p) r)) (done p + 1) WDone (fileClosed p) (reaped p) (signals p).

(** [WaitStatus] returns once [done] is closed. *)
Definition WaitStatus_result (p : Proc) : option (ExitStatus * option error) :=
  if (0 <? done p)%N then waitStatus p else None.

(** [Close]: the body of [closeOnce] runs once; [answer] is that of [p.file.Close]. *)
Definition Close (answer : option error) (p : Proc) : option error * Proc :=
  match fileClosed p with
  | Some err => (err, p)
  | None =>
      let err := match answer with Some e => nil_error e ErrClosed | None => None end in
      (err, mkProc (pgid p) (running p) (killed p) (waitStatus p) (done p) (wpc p) (Some err) (reaped p) (signals p))
  end.

Inductive u_step : Proc -> Proc -> Prop :=
| us_wait_begin p : wpc p = WIdle -> u_step p (set_wpc WWaiting p)
| us_wait_returns r p : wpc p = WWaiting -> u_step p (wait_returns r p)
| us_wait_publish r p : wpc p = WReaped r -> u_step p (wait_section r p)
| us_terminate answer p : u_step p (Terminate answer p).2
| us_kill answer p : u_step p (Kill answer p).2
| us_close answer p : u_step p (Close answer p).2.

Inductive u_reachable (pid : Z) : Proc -> Prop :=
| ur_start : u_reachable pid (new_process pid)
| ur_step p p' : u_reachable pid p -> u_step p p' -> u_reachable pid p'.

(** ** The legacy process *)

(** [process.Kill], given the answer of [command.Process.Kill]. *)
Definition legacy_Kill (answer : option error) : option error :=
  match answer with Some e => nil_error e ErrProcessDone | None => None end.

(** [process.ExitCode]; the argument is [command.ProcessState]'s code. *)
Definition legacy_ExitCode (state : option Z) : Z := from_option id (-1) state.

(** ** Properties *)

(** A start is refused for exactly these reasons, in this order: no context,
    no command, a size that is not positive or does not fit uint16, a NUL byte in a
    string, a context that is done; so the size set on the terminal is the one
    asked for. *)
Theorem StartManaged_check_spec ctx spec :
  (StartManaged_check ctx spec = None <->
    ctx = Some None /\ Command spec <> ""%string /\ 0 < Cols (InitialSize spec) <= MaxUint16 /\
    0 < Rows (InitialSize spec) <= MaxUint16 /\
    Forall (fun s => Ascii.zero ∉ String.list_ascii_of_string s) (spec_values spec)) /\
  (StartManaged_check ctx spec = None -> Resize (InitialSize spec) = inl (Cols (InitialSize spec), Rows (InitialSize spec))).
Proof.
  assert (existsb has_nul (spec_values spec) = false <->
    Forall (fun s => Ascii.zero ∉ String.list_ascii_of_string s) (spec_values spec)) as Hn.
  { induction (spec_values spec) as [|s l IH]; cbn; [by split|]. by rewrite orb_false_iff, has_nul_spec, Forall_cons, IH. }
  assert (StartManaged_check ctx spec = None <->
    ctx = Some None /\ Command spec <> ""%string /\ 0 < Cols (InitialSize spec) <= MaxUint16 /\
    0 < Rows (InitialSize spec) <= MaxUint16 /\
    Forall (fun s => Ascii.zero ∉ String.list_ascii_of_string s) (spec_values spec)) as H.
  { unfold StartManaged_check, ProcessSpec_Validate, Size_Validate. rewrite <- Hn.
    destruct ctx as [d|]; [|by split; [|intros [? _]]]. case_bool_decide; [by split; [|intros (_ & ? & _)]|].
    destruct ((Cols _ <=? 0) || _) eqn:E1; [split; [done|intros (_ & _ & ? & ? & _); reflect_bools; destruct E1; reflect_bools; lia]|].
    destruct ((MaxUint16 <? Cols _) || _) eqn:E2; [split; [done|intros (_ & _ & ? & ? & _); reflect_bools; destruct E2; reflect_bools; lia]|].
    rewrite orb_false_iff, Z.leb_gt, Z.leb_gt in E1. rewrite orb_false_iff, !Z.ltb_ge in E2.
    destruct (existsb _ _); [by split; [|intros (_ & _ & _ & _ & ?)]|].
    split; [intros ->; split_and!; tauto|]. by intros ([= ->] & _). }
  split; [exact H|]. intros Hok%H. destruct Hok as (_ & _ & ? & ? & _). unfold Resize, Size_Validate, winsize.
  rewrite (proj2 (Z.leb_gt _ _)), (proj2 (Z.leb_gt _ _)), (proj2 (Z.ltb_ge _ _)), (proj2 (Z.ltb_ge _ _)) by lia. cbn [orb].
  unfold MaxUint16 in *. by rewrite !uwrap_small by (unfold fits_u; lia).
Qed.

Record u_inv (pid : Z) (p : Proc) : Prop := {
  ui_pgid : pgid p = pid;
  ui_running : running p = negb (bool_decide (wpc p = WDone));
  ui_done : done p = (if bool_decide (wpc p = WDone) then 1 else 0)%N;
  ui_status : is_Some (waitStatus p) <-> wpc p = WDone;
  ui_reaped : reaped p = true <-> wpc p <> WIdle /\ wpc p <> WWaiting;
  ui_killed : killed p = true -> SIGKILL ∈ (signals p).*1;
  ui_class st : waitStatus p = Some st -> exists r, st = wait_status (killed p) r;
}.

Lemma signal_inv pid signal kills answer p : (kills = true -> signal = SIGKILL) ->
  u_inv pid p -> u_inv pid (signalGroup signal kills answer p).2.
Proof.
  intros Hk I. unfold signalGroup. destruct (negb (running p)) eqn:Er; [done|].
  assert (waitStatus p = None) as Hn.
  { destruct I as [_ Hr _ Hs _ _ _]. rewrite Hr in Er. rewrite negb_involutive, bool_decide_eq_false in Er.
    destruct (waitStatus p) eqn:E; [|done]. destruct Er. by apply Hs. }
  destruct I as [? ? ? ? ? Hkill ?].
  assert (SIGKILL ∈ (signals p).*1 -> SIGKILL ∈ (signals p ++ [(signal, reaped p)]).*1) as Hin.
  { rewrite fmap_app. set_solver. }
  destruct answer as [e|]; split; cbn; try done; try (by rewrite Hn); auto.
  destruct kills; [|auto]. intros _. rewrite Hk by done. rewrite fmap_app. set_solver.
Qed.

Lemma u_reachable_inv pid p : u_reachable pid p -> u_inv pid p.
Proof.
  induction 1 as [|p p' _ I Hs].
  - split; cbn; try done; naive_solver.
  - destruct Hs as [p Hw|r p Hw|r p Hw|answer p|answer p|answer p].
    + destruct I; rewrite Hw in *; split; cbn; naive_solver.
    + destruct I; rewrite Hw in *; split; cbn; naive_solver.
    + destruct I as [? ? Hd ? Hre ? ?]; rewrite Hw in *. split; cbn; try done.
      * by rewrite Hd.
      * split; [done|]. intros _. apply Hre. done.
      * intros st [= <-]. by exists r.
    + by apply signal_inv.
    + by apply signal_inv.
    + unfold Close. destruct (fileClosed p); [done|]. by destruct I; split.
Qed.

Lemma published_final p p' : running p = false -> wpc p = WDone -> u_step p p' ->
  waitStatus p' = waitStatus p /\ done p' = done p /\ signals p' = signals p.
Proof.
  intros Hr Hw Hs. destruct Hs as [p ?|? p ?|? p ?|answer p|answer p|answer p]; try congruence;
    unfold Terminate, Kill, signalGroup; rewrite ?Hr; [done..|].
  unfold Close. by destruct (fileClosed p).
Qed.


(** The classification of an exit. The reason is Killed exactly when Kill had
    signalled the group and the process did not exit with code zero, Signaled
    exactly when another signal ended it, IOFailure exactly when the wait itself
    failed, and then the error is reported too; otherwise it is Exited, so a
    process that exits with code zero counts as exited although it was killed. *)
Theorem wait_status_spec k r :
  let '(st, err) := wait_status k r in
  (ex_Reason st = ExitReasonKilled <-> k = true /\ exists c s, r = WaitExit c s) /\
  (ex_Reason st = ExitReasonSignaled <-> k = false /\ exists c s, r = WaitExit c (Some s)) /\
  (ex_Reason st = ExitReasonIOFailure <-> exists e, r = WaitFailed e) /\
  (ex_Reason st = ExitReasonExited <-> r = WaitOk \/ k = false /\ exists c, r = WaitExit c None) /\
  ex_Code st = match r with WaitOk => 0 | WaitExit c _ => c | WaitFailed _ => -1 end /\
  ex_Signal st = match r with WaitExit _ (Some s) => s | _ => ""%string end /\
  err = ex_Error st /\ err = match r with WaitFailed e => Some e | _ => None end.
Proof. destruct r as [|c [s|]|e], k; cbn; split_and!; naive_solver. Qed.

(** C39. A signal can hit a stranger. Between the return of [command.Wait], when the
    operating system has forgotten the process and may reuse its identifiers, and
    the critical section that clears [running], Kill still signals the group. *)
Theorem unix_signal_after_reap pid r :
  exists p, u_reachable pid p /\ wpc p = WReaped r /\ (SIGKILL, true) ∈ signals p.
Proof.
  exists (Kill None (wait_returns r (set_wpc WWaiting (new_process pid)))).2. split; [|split; [done|left]].
  eapply ur_step; [|apply us_kill]. eapply ur_step; [|by apply us_wait_returns].
  eapply ur_step; [apply ur_start|by apply us_wait_begin].
Qed.

(** *** Witness *)

(** Killed once, waited for, and closed. *)
Definition demo_dead : Proc :=
  wait_section (WaitExit (-1) (Some "killed"%string))
    (wait_returns (WaitExit (-1) (Some "killed"%string)) (Kill None (set_wpc WWaiting (new_process 42))).2).

Lemma demo_dead_reachable : u_reachable 42 demo_dead.
Proof.
  eapply ur_step; [|by apply us_wait_publish]. eapply ur_step; [|by apply us_wait_returns].
  eapply ur_step; [|apply us_kill]. eapply ur_step; [apply ur_start|by apply us_wait_begin].
Qed.

