(* ===== verification/WindowsPty.v ===== *)
(** pty/windowspty/factory_windows.go: the managed process as the state machine of
    its critical sections and of its calls of the Windows API, which answers
    nondeterministically. *)

From S2P Require Import Prelude Errors BigEndian PtyTypes.

(** ** Errors and checks *)

Definition ErrSizeOverflow := New "windowspty: terminal size exceeds int16".
Definition ErrInvalidProcessSpec := New "windowspty: process specification contains NUL".
Definition ErrClosed := New "file already closed".
Definition ERROR_BROKEN_PIPE := New "The pipe has been ended.".

Definition MaxInt16 : Z := 2 ^ 15 - 1.
Definition jobExitCode : Z := 1.

(** [validateSpec] *)
Definition validateSpec (spec : ProcessSpec) : option error :=
  match ProcessSpec_Validate spec with
  | Some e => Some e
  | None =>
  match Size_Validate (InitialSize spec) with
  | Some e => Some e
  | None =>
      if (MaxInt16 <? Cols (InitialSize spec)) || (MaxInt16 <? Rows (InitialSize spec)) then Some ErrSizeOverflow
      else
        let values := ([Command spec; Dir spec] ++ Args spec) ++ from_option id [] (Env spec) in
        if existsb has_nul values then Some ErrInvalidProcessSpec else None
  end end.

(** The size [Factory.Start] uses. *)
Definition legacy_size (size : Size) : Size := if bool_decide (size = mkSize 0 0) then mkSize 80 24 else size.

(** [normalizeClose] *)
Definition normalizeClose (err : option error) : option error :=
  match err with Some e => if errors_Is e ErrClosed then None else Some e | None => None end.

(** [output.Read], given the answer of the pipe: the result, and whether it closes
    [observed]. *)
Definition output_Read (n : Z) (err : option error) : Z * option error * bool :=
  match err with
  | Some e => (n, Some (if errors_Is e ERROR_BROKEN_PIPE then EOF else e), 0 <? n)
  | None => (n, None, 0 <? n)
  end.

(** [legacyWait], from what [WaitStatus] returned. *)
Definition legacyWait (status : ExitStatus) (err : option error) : option error :=
  match err with
  | Some e => Some e
  | None => if negb (ex_Code status =? 0) then Some (Newf "windowspty: process exited with code" [ex_Code status]) else None
  end.

(** ** State *)

(** The calls on the handles of the process. *)
Inductive call :=
| QueryProcess | WaitProcess | GetExitCode | CloseProcess      (* p.process *)
| QueryJob | TerminateJob | CloseJob                           (* p.job *)
| ResizeConsole | CloseConsole.                                (* p.console *)
#[export] Instance call_eq_dec : EqDecision call.
Proof. solve_decision. Defined.

(** Which handles are open. *)
Record Handles := mkHandles { h_process : bool; h_job : bool; h_console : bool }.

(** A call on the open handles; [None] is a use after a close, or a second close. *)
Definition use (h : Handles) (c : call) : option Handles :=
  match c with
  | QueryProcess | WaitProcess | GetExitCode => if h_process h then Some h else None
  | CloseProcess => if h_process h then Some (mkHandles false (h_job h) (h_console h)) else None
  | QueryJob | TerminateJob => if h_job h then Some h else None
  | CloseJob => if h_job h then Some (mkHandles (h_process h) false (h_console h)) else None
  | ResizeConsole => if h_console h then Some h else None
  | CloseConsole => if h_console h then Some (mkHandles (h_process h) (h_job h) false) else None
  end.

Definition use_all (calls : list call) : option Handles :=
  foldl (fun oh c => h ← oh; use h c) (Some (mkHandles true true true)) calls.

#[global] Arguments use_all : simpl never.

(** What the wait for the process gave: its exit code, or the error. *)
Inductive wait_result := WaitCode (code : Z) | WaitError (e : error).

(** [WaitStatus]: the body of [waitOnce]. *)
Inductive wait_pc :=
| WIdle | WWaiting | WExitCode | WSection (r : wait_result)
| WObserve                  (* waits for output or 100 ms *)
| WConsole | WConsoleOnce   (* closeConsole: its section, then consoleOnce *)
| WClose                    (* close(p.done) *)
| WEnd.

(** [Close] and [closeResources]: [closeOnce] begun, the goroutine waiting for
    [done], and closeResources up to its end. *)
Inductive close_pc :=
| CIdle | CFiles | CAwait | CConsole | CConsoleOnce | CSection | CProcess | CJob | CEnd.

(** The fields of [managedProcess]; [terminating] and [terminated] count the calls
    of Terminate before and after the section of [closeConsole]; [consoleClosed] is
    [consoleOnce]; [calls] is history. *)
Record Proc := mkProc {
  released : bool;
  running : bool;
  killed : bool;
  terminateSent : bool;
  consoleClosing : bool;
  resourcesClosed : bool;
  waitStatus : option (ExitStatus * option error);
  done : N;
  wpc : wait_pc;
  cpc : close_pc;
  terminating : nat;
  terminated : nat;
  consoleClosed : bool;
  calls : list call;
}.

(** [result] of [startManaged]. *)
Definition new_process (released : bool) : Proc :=
  mkProc released true false false false false None 0 WIdle CIdle 0 0 false [].

Definition add_calls (l : list call) (p : Proc) : Proc :=
  mkProc (released p) (running p) (killed p) (terminateSent p) (consoleClosing p) (resourcesClosed p) (waitStatus p)
    (done p) (wpc p) (cpc p) (terminating p) (terminated p) (consoleClosed p) (calls p ++ l).
Definition set_wpc (w : wait_pc) (p : Proc) : Proc :=
  mkProc (released p) (running p) (killed p) (terminateSent p) (consoleClosing p) (resourcesClosed p) (waitStatus p)
    (done p) w (cpc p) (terminating p) (terminated p) (consoleClosed p) (calls p).
Definition set_cpc (c : close_pc) (p : Proc) : Proc :=
  mkProc (released p) (running p) (killed p) (terminateSent p) (consoleClosing p) (resourcesClosed p) (waitStatus p)
    (done p) (wpc p) c (terminating p) (terminated p) (consoleClosed p) (calls p).
Definition set_terminating (a b : nat) (p : Proc) : Proc :=
  mkProc (released p) (running p) (killed p) (terminateSent p) (consoleClosing p) (resourcesClosed p) (waitStatus p)
    (done p) (wpc p) (cpc p) a b (consoleClosed p) (calls p).
Definition set_flags (k t : bool) (p : Proc) : Proc :=
  mkProc (released p) (running p) k t (consoleClosing p) (resourcesClosed p) (waitStatus p)
    (done p) (wpc p) (cpc p) (terminating p) (terminated p) (consoleClosed p) (calls p).

(** ** Operations *)

(** [ProcessID]; [exited] is what [processExitedLocked] would answer. *)
Definition ProcessID (pid : Z) (exited : bool) (p : Proc) : (Z + error) * Proc :=
  if negb (running p) || resourcesClosed p || (pid =? 0) then (inr ErrProcessIDUnavailable, p)
  else (if exited then inr ErrProcessIDUnavailable else inl pid, add_calls [QueryProcess] p).

(** [Resize]; [answer] is that of ResizePseudoConsole. *)
Definition Resize (size : Size) (answer : option error) (p : Proc) : option error * Proc :=
  match Size_Validate size with
  | Some e => (Some e, p)
  | None =>
      if (MaxInt16 <? Cols size) || (MaxInt16 <? Rows size) then (Some ErrSizeOverflow, p)
      else if negb (running p) || consoleClosing p then (None, p)
      else (match answer with Some e => Some (Wrap e []) | None => None end, add_calls [ResizeConsole] p)
  end.

(** [Terminate] up to its call of [closeConsole]; the arguments are the answers of
    [jobExitedLocked] and [processExitedLocked]. *)
Definition Terminate_section (jobExited exited : bool) (p : Proc) : Proc :=
  if resourcesClosed p || consoleClosing p then p
  else
    let p := add_calls [QueryJob] p in
    if jobExited then p
    else
      let p := if running p then add_calls [QueryProcess] p else p in
      let p := if running p && negb exited then set_flags (killed p) true p else p in
      set_terminating (S (terminating p)) (terminated p) p.

(** [Kill]; [answer] is that of TerminateJobObject. *)
Definition Kill (jobExited exited : bool) (answer : option error) (p : Proc) : option error * Proc :=
  if resourcesClosed p then (None, p)
  else
    let p := add_calls [QueryJob] p in
    if jobExited then (None, p)
    else
      let p := add_calls [QueryProcess; TerminateJob] p in
      match answer with
      | Some e => (Some (Wrap e []), p)
      | None => (None, if running p && negb exited then set_flags true (terminateSent p) p else p)
      end.

(** The section of [closeConsole], and [consoleOnce]. *)
Definition closeConsole_section (p : Proc) : Proc :=
  mkProc (released p) (running p) (killed p) (terminateSent p) true (resourcesClosed p) (waitStatus p)
    (done p) (wpc p) (cpc p) (terminating p) (terminated p) (consoleClosed p) (calls p).
Definition closeConsole_once (p : Proc) : Proc :=
  if consoleClosed p then p
  else mkProc (released p) (running p) (killed p) (terminateSent p) (consoleClosing p) (resourcesClosed p) (waitStatus p)
    (done p) (wpc p) (cpc p) (terminating p) (terminated p) true (calls p ++ [CloseConsole]).

(** The status before the critical section of [WaitStatus]. *)
Definition base_status (r : wait_result) : ExitStatus :=
  match r with
  | WaitCode code => mkExitStatus ExitReasonExited code "" None
  | WaitError e => mkExitStatus ExitReasonIOFailure (-1) "" (Some e)
  end.

(** The classification in that section. *)
Definition wait_status (killed terminateSent : bool) (r : wait_result) : ExitStatus * option error :=
  let status := base_status r in
  let status :=
    if killed then mkExitStatus ExitReasonKilled (ex_Code status) (ex_Signal status) (ex_Error status)
    else if terminateSent && negb (ex_Code status =? 0) && bool_decide (ex_Reason status = ExitReasonExited)
    then mkExitStatus ExitReasonSignaled (ex_Code status) "CTRL_CLOSE_EVENT" (ex_Error status)
    else status in
  (status, match r with WaitError e => Some e | WaitCode _ => None end).

Definition wait_section (r : wait_result) (p : Proc) : Proc :=
  mkProc (released p) false (killed p) (terminateSent p) (consoleClosing p) (resourcesClosed p)
    (Some (wait_status (killed p) (terminateSent p) r)) (done p) (if released p then WClose else WObserve) (cpc p)
    (terminating p) (terminated p) (consoleClosed p) (calls p).

Definition close_done (p : Proc) : Proc :=
  mkProc (released p) (running p) (killed p) (terminateSent p) (consoleClosing p) (resourcesClosed p) (waitStatus p)
    (done p + 1) WEnd (cpc p) (terminating p) (terminated p) (consoleClosed p) (calls p).

(** [Close] after the files: closes the resources, or leaves that to a goroutine. *)
Definition close_section (p : Proc) : Proc := set_cpc (if running p then CAwait else CConsole) p.

(** The section of [closeResources]. *)
Definition resources_section (p : Proc) : Proc :=
  if resourcesClosed p then set_cpc CEnd p
  else mkProc (released p) (running p) (killed p) (terminateSent p) (consoleClosing p) true (waitStatus p)
    (done p) (wpc p) CProcess (terminating p) (terminated p) (consoleClosed p) (calls p).

Inductive w_step : Proc -> Proc -> Prop :=
| ws_processid pid exited p : w_step p (ProcessID pid exited p).2
| ws_resize size answer p : w_step p (Resize size answer p).2
| ws_terminate jobExited exited p : w_step p (Terminate_section jobExited exited p)
| ws_terminate_console n p : terminating p = S n -> w_step p (set_terminating n (S (terminated p)) (closeConsole_section p))
| ws_terminate_once n p : terminated p = S n -> w_step p (set_terminating (terminating p) n (closeConsole_once p))
| ws_kill jobExited exited answer p : w_step p (Kill jobExited exited answer p).2
| ws_wait p : wpc p = WIdle -> w_step p (set_wpc WWaiting p)
| ws_wait_failed e p : wpc p = WWaiting -> w_step p (set_wpc (WSection (WaitError e)) (add_calls [WaitProcess] p))
| ws_wait_ended p : wpc p = WWaiting -> w_step p (set_wpc WExitCode (add_calls [WaitProcess] p))
| ws_exit_code r p : wpc p = WExitCode -> w_step p (set_wpc (WSection r) (add_calls [GetExitCode] p))
| ws_wait_section r p : wpc p = WSection r -> w_step p (wait_section r p)
| ws_observe p : wpc p = WObserve -> w_step p (set_wpc WConsole p)
| ws_wait_console p : wpc p = WConsole -> w_step p (set_wpc WConsoleOnce (closeConsole_section p))
| ws_wait_once p : wpc p = WConsoleOnce -> w_step p (set_wpc WClose (closeConsole_once p))
| ws_wait_done p : wpc p = WClose -> w_step p (close_done p)
| ws_close p : cpc p = CIdle -> w_step p (set_cpc CFiles p)
| ws_close_section p : cpc p = CFiles -> w_step p (close_section p)
| ws_close_await p : cpc p = CAwait -> (0 < done p)%N -> w_step p (set_cpc CConsole p)
| ws_close_console p : cpc p = CConsole -> w_step p (set_cpc CConsoleOnce (closeConsole_section p))
| ws_close_once p : cpc p = CConsoleOnce -> w_step p (set_cpc CSection (closeConsole_once p))
| ws_close_resources p : cpc p = CSection -> w_step p (resources_section p)
| ws_close_process p : cpc p = CProcess -> w_step p (set_cpc CJob (add_calls [CloseProcess] p))
| ws_close_job p : cpc p = CJob -> w_step p (set_cpc CEnd (add_calls [CloseJob] p)).

Inductive w_reachable (released : bool) : Proc -> Prop :=
| wr_start : w_reachable released (new_process released)
| wr_step p p' : w_reachable released p -> w_step p p' -> w_reachable released p'.

(** ** Invariant *)

(** The body of [waitOnce] before its critical section. *)
Definition before_exit (w : wait_pc) : bool :=
  match w with WIdle | WWaiting | WExitCode | WSection _ => true | _ => false end.
(** [closeResources] has begun, and has passed its critical section. *)
Definition closing_pc (c : close_pc) : bool :=
  match c with CIdle | CFiles | CAwait => false | _ => true end.
Definition closed_pc (c : close_pc) : bool :=
  match c with CProcess | CJob | CEnd => true | _ => false end.

Definition open_handles (p : Proc) : Handles :=
  mkHandles (match cpc p with CJob | CEnd => false | _ => true end) (match cpc p with CEnd => false | _ => true end)
    (negb (consoleClosed p)).

Record w_inv (p : Proc) : Prop := {
  wi_handles : use_all (calls p) = Some (open_handles p);
  wi_running : running p = before_exit (wpc p);
  wi_closing : closing_pc (cpc p) = true -> running p = false;
  wi_closed : resourcesClosed p = closed_pc (cpc p);
  wi_console : consoleClosed p = true -> consoleClosing p = true;
  wi_once : (0 < terminated p)%nat \/ wpc p = WConsoleOnce \/ cpc p = CConsoleOnce -> consoleClosing p = true;
  wi_end : cpc p = CSection \/ closed_pc (cpc p) = true -> consoleClosed p = true;
  wi_done : done p = match wpc p with WEnd => 1%N | _ => 0%N end;
  wi_status : if running p then waitStatus p = None
              else exists r, waitStatus p = Some (wait_status (killed p) (terminateSent p) r);
}.

Lemma use_all_app l l' : use_all (l ++ l') = foldl (fun oh c => h ← oh; use h c) (use_all l) l'.
Proof. unfold use_all. apply foldl_app. Qed.

(** A call on open handles that closes none. *)
Lemma use_same l h l' : use_all l = Some h -> Forall (fun c => use h c = Some h) l' -> use_all (l ++ l') = Some h.
Proof.
  intros E Hl. rewrite use_all_app, E. induction Hl as [|c l' Hc _ IH]; [done|]. cbn. by rewrite Hc.
Qed.

Lemma add_calls_inv l p : Forall (fun c => use (open_handles p) c = Some (open_handles p)) l -> w_inv p -> w_inv (add_calls l p).
Proof. intros Hl [Hh ? ? ? ? ? ? ? ?]. split; cbn; try done. by apply use_same. Qed.

(** Under the tests the sections make, the handles they use are open. *)
Lemma open_while p : w_inv p -> resourcesClosed p = false -> h_process (open_handles p) = true /\ h_job (open_handles p) = true.
Proof. intros I Hr. rewrite (wi_closed _ I) in Hr. cbn. by destruct (cpc p). Qed.

Lemma open_running p : w_inv p -> running p = true -> h_process (open_handles p) = true /\ resourcesClosed p = false.
Proof.
  intros I Hr. pose proof (wi_closing _ I) as Hc. rewrite (wi_closed _ I). cbn.
  destruct (cpc p); try done; by rewrite Hr in Hc; specialize (Hc eq_refl).
Qed.

(** Uses of the process handle while the process runs. *)
Lemma process_call_inv c p : In c [QueryProcess; WaitProcess; GetExitCode] -> running p = true -> w_inv p -> w_inv (add_calls [c] p).
Proof.
  intros Hc Hr I. apply add_calls_inv; [|done]. destruct (open_running p I Hr) as [Ho _].
  constructor; [|constructor]. destruct Hc as [<-|[<-|[<-|[]]]]; cbn [use]; by rewrite Ho.
Qed.

Lemma set_flags_inv k t p : running p = true -> w_inv p -> w_inv (set_flags k t p).
Proof. intros Hr [? ? ? ? ? ? ? ? Hs]. rewrite Hr in Hs. split; cbn; try done. by rewrite Hr. Qed.

Lemma closeConsole_section_inv p : w_inv p -> w_inv (closeConsole_section p).
Proof. intros [? ? ? ? ? ? ? ? ?]. by split. Qed.

Lemma closeConsole_once_inv p : consoleClosing p = true -> w_inv p -> w_inv (closeConsole_once p).
Proof.
  intros Hc [Hh ? ? ? ? ? ? ? ?]. unfold closeConsole_once. destruct (consoleClosed p) eqn:E; [by split|].
  split; cbn; try done. rewrite use_all_app, Hh. unfold open_handles. cbn. by rewrite E.
Qed.

Lemma closeConsole_once_fields p :
  consoleClosed (closeConsole_once p) = true /\ consoleClosing (closeConsole_once p) = consoleClosing p /\
  wpc (closeConsole_once p) = wpc p /\ cpc (closeConsole_once p) = cpc p /\ running (closeConsole_once p) = running p /\
  terminated (closeConsole_once p) = terminated p.
Proof. unfold closeConsole_once. by destruct (consoleClosed p) eqn:E. Qed.

Lemma set_terminating_inv a b p :
  w_inv p -> ((0 < b)%nat -> consoleClosing p = true) -> w_inv (set_terminating a b p).
Proof. intros [? ? ? ? ? Ho ? ? ?] Hb. split; cbn; try done. intros [?|?]; [auto|apply Ho; by right]. Qed.

(** A move of [WaitStatus] that keeps its side of the exit. *)
Lemma set_wpc_inv w p :
  w_inv p -> before_exit w = before_exit (wpc p) -> (w = WConsoleOnce -> consoleClosing p = true) ->
  wpc p <> WEnd -> w <> WEnd -> w_inv (set_wpc w p).
Proof.
  intros [? Hr ? ? ? Ho ? Hd ?] Hb Hc Hn Hw. split; cbn; try done; [by rewrite Hb|..].
  - intros [?|[?|?]]; [|auto|]; apply Ho; tauto.
  - rewrite Hd. by destruct (wpc p), w.
Qed.

Lemma set_cpc_inv c p :
  w_inv p -> (closing_pc c = true -> running p = false) -> (c = CConsoleOnce -> consoleClosing p = true) ->
  (c = CSection -> consoleClosed p = true) -> closed_pc c = false -> closed_pc (cpc p) = false -> w_inv (set_cpc c p).
Proof.
  intros [Hh ? ? Hcl ? Ho ? ? ?] Hr Hc Hs Hn Hp. split; cbn; try done.
  - rewrite Hh. unfold open_handles. cbn. by destruct c, (cpc p).
  - by rewrite Hcl, Hn, Hp.
  - intros [?|[?|?]]; [apply Ho; tauto..|auto].
  - intros [?|?]; [auto|congruence].
Qed.

Lemma Kill_inv jobExited exited answer p : w_inv p -> w_inv (Kill jobExited exited answer p).2.
Proof.
  intros I. unfold Kill. destruct (resourcesClosed p) eqn:Er; [done|]. destruct (open_while p I Er) as [Hp Hj].
  assert (w_inv (add_calls [QueryJob] p)) as I1 by (apply add_calls_inv; [repeat constructor; cbn in *; by rewrite Hj|done]).
  destruct jobExited; [done|].
  assert (w_inv (add_calls [QueryProcess; TerminateJob] (add_calls [QueryJob] p))) as I2.
  { apply add_calls_inv; [|done]. cbn in *. repeat constructor; cbn; by rewrite ?Hp, ?Hj. }
  destruct answer; [done|]. cbn [snd]. destruct (running _ && _) eqn:E; [|done].
  apply andb_true_iff in E as [E _]. by apply set_flags_inv.
Qed.

Lemma Terminate_inv jobExited exited p : w_inv p -> w_inv (Terminate_section jobExited exited p).
Proof.
  intros I. unfold Terminate_section. destruct (_ || _) eqn:Er; [done|]. apply orb_false_iff in Er as [Er Ec].
  destruct (open_while p I Er) as [Hp Hj].
  assert (w_inv (add_calls [QueryJob] p)) as I1 by (apply add_calls_inv; [repeat constructor; cbn in *; by rewrite Hj|done]).
  destruct jobExited; [done|].
  assert (w_inv (if running (add_calls [QueryJob] p) then add_calls [QueryProcess] (add_calls [QueryJob] p) else add_calls [QueryJob] p)) as I2.
  { destruct (running _); [|done]. apply add_calls_inv; [|done]. repeat constructor. cbn in *. by rewrite Hp. }
  set (q := if running (add_calls [QueryJob] p) then _ else _) in *.
  apply set_terminating_inv; destruct (running q && negb exited) eqn:E; try (apply andb_true_iff in E as [E _]).
  - by apply set_flags_inv.
  - done.
  - intros Ht. apply (wi_once _ I2). by left.
  - intros Ht. apply (wi_once _ I2). by left.
Qed.

Lemma w_step_inv p p' : w_inv p -> w_step p p' -> w_inv p'.
Proof.
  intros I Hs. destruct Hs as [pid exited p|size answer p|j x p|n p Hn|n p Hn|j x a p|p Hw|e p Hw|p Hw|r p Hw|r p Hw|p Hw|p Hw|p Hw|p Hw
    |p Hc|p Hc|p Hc Hd|p Hc|p Hc|p Hc|p Hc|p Hc].
  - unfold ProcessID. destruct (negb (running p) || _ || _) eqn:E; [done|].
    rewrite !orb_false_iff, negb_false_iff in E. destruct E as [[E _] _].
    apply process_call_inv; [|done..]. cbn. tauto.
  - unfold Resize. destruct (Size_Validate size); [done|]. destruct (_ || _); [done|].
    destruct (negb (running p) || consoleClosing p) eqn:E; [done|]. apply orb_false_iff in E as [_ E].
    apply add_calls_inv; [|done]. repeat constructor. cbn. destruct (consoleClosed p) eqn:Ec; [|done].
    apply (wi_console _ I) in Ec. congruence.
  - by apply Terminate_inv.
  - apply set_terminating_inv; [by apply closeConsole_section_inv|done].
  - assert (consoleClosing p = true) as Hcc by (apply (wi_once _ I); left; lia).
    apply set_terminating_inv; [by apply closeConsole_once_inv|]. intros _.
    destruct (closeConsole_once_fields p) as (_ & -> & _). done.
  - by apply Kill_inv.
  - apply set_wpc_inv; rewrite ?Hw; done.
  - assert (running p = true) as Hr by (by rewrite (wi_running _ I), Hw).
    apply set_wpc_inv; cbn; rewrite ?Hw; try done. apply process_call_inv; [|done..]. cbn. tauto.
  - assert (running p = true) as Hr by (by rewrite (wi_running _ I), Hw).
    apply set_wpc_inv; cbn; rewrite ?Hw; try done. apply process_call_inv; [|done..]. cbn. tauto.
  - assert (running p = true) as Hr by (by rewrite (wi_running _ I), Hw).
    apply set_wpc_inv; cbn; rewrite ?Hw; try done. apply process_call_inv; [|done..]. cbn. tauto.
  - destruct I as [? Hr ? ? ? Ho ? Hd ?]. rewrite Hw in *. split; cbn; try done; [by destruct (released p)| | |].
    + intros [?|[?|?]]; [apply Ho; tauto|by destruct (released p)|apply Ho; tauto].
    + rewrite Hd. by destruct (released p).
    + by exists r.
  - apply set_wpc_inv; rewrite ?Hw; done.
  - apply set_wpc_inv; cbn; rewrite ?Hw; try done. by apply closeConsole_section_inv.
  - assert (consoleClosing p = true) as Hcc by (apply (wi_once _ I); tauto).
    destruct (closeConsole_once_fields p) as (_ & _ & Ew & _).
    apply set_wpc_inv; rewrite ?Ew, ?Hw; try done. by apply closeConsole_once_inv.
  - destruct I as [? Hr ? ? ? Ho ? Hd ?]. rewrite Hw in *. split; cbn; try done; [|by rewrite Hd].
    intros [?|[?|?]]; [apply Ho; tauto|done|apply Ho; tauto].
  - apply set_cpc_inv; rewrite ?Hc; done.
  - unfold close_section. destruct (running p) eqn:Er; apply set_cpc_inv; rewrite ?Hc; done.
  - apply set_cpc_inv; rewrite ?Hc; try done. intros _. rewrite (wi_running _ I). pose proof (wi_done _ I) as E.
    destruct (wpc p); try done; lia.
  - apply set_cpc_inv; cbn; rewrite ?Hc; try done; [by apply closeConsole_section_inv|].
    intros _. apply (wi_closing _ I). by rewrite Hc.
  - assert (consoleClosing p = true) as Hcc by (apply (wi_once _ I); tauto).
    destruct (closeConsole_once_fields p) as (Ed & _ & _ & Ec & Er & _).
    apply set_cpc_inv; rewrite ?Ec, ?Hc, ?Er; try done; [by apply closeConsole_once_inv|].
    intros _. apply (wi_closing _ I). by rewrite Hc.
  - assert (resourcesClosed p = false) as Hr by (by rewrite (wi_closed _ I), Hc).
    unfold resources_section. rewrite Hr. destruct I as [Hh ? Hcl ? ? Ho He ? ?]. rewrite Hc in *.
    split; cbn; try done; try tauto.
    rewrite Hh. unfold open_handles. by rewrite Hc.
  - destruct I as [Hh ? Hcl Hr ? Ho He ? ?]. rewrite Hc in *. split; cbn; try done; try tauto.
    rewrite use_all_app, Hh. unfold open_handles. by rewrite Hc.
  - destruct I as [Hh ? Hcl Hr ? Ho He ? ?]. rewrite Hc in *. split; cbn; try done; try tauto.
    rewrite use_all_app, Hh. unfold open_handles. by rewrite Hc.
Qed.

Lemma w_reachable_inv released p : w_reachable released p -> w_inv p.
Proof.
  induction 1 as [|p p' _ I Hs]; [|by eapply w_step_inv].
  split; cbn; try done; [intros [?|[?|?]]; [lia|done..]|by intros [?|?]].
Qed.

(** C16. The Windows handles are used safely. In every interleaving of ProcessID,
    Resize, Terminate, Kill, WaitStatus and Close, no call uses the process, job or
    pseudoconsole handle after it was closed, in particular no resize hits a closed
    pseudoconsole; each handle is closed at most once; and when Close and the
    cleanup it started have ended, each was closed exactly once. *)
Theorem windows_handles_safe released p :
  w_reachable released p ->
  exists h, use_all (calls p) = Some h /\
    (cpc p = CEnd -> h = mkHandles false false false) /\
    (running p = true -> h_process h = true /\ h_job h = true).
Proof.
  intros Hr. pose proof (w_reachable_inv _ _ Hr) as I. exists (open_handles p). split; [apply (wi_handles _ I)|]. split.
  - intros Hc. unfold open_handles. rewrite Hc, (wi_end _ I); [done|]. right. by rewrite Hc.
  - intros Hrun. destruct (open_running p I Hrun) as [? Hres]. by apply open_while.
Qed.

Lemma step_published p p' : running p = false -> before_exit (wpc p) = false -> w_step p p' ->
  waitStatus p' = waitStatus p /\ running p' = false.
Proof.
  intros Hr Hb Hs. destruct Hs; cbn; try done; try congruence;
    unfold ProcessID, Resize, Terminate_section, Kill, closeConsole_once, resources_section, close_section; cbn;
    repeat case_match; cbn in *; try done; simplify_eq; try congruence; match goal with H : wpc _ = _, Hb : before_exit _ = _ |- _ => by rewrite H in Hb end.
Qed.

(** The exit status of a Windows process is published once. When WaitStatus has
    recorded it, [done] is closed at most once, every later call returns that same
    status, whatever is done to the process, and it is Killed exactly when Kill had
    terminated the job while the root process ran, Signaled exactly when it was not
    killed, Terminate had closed its console before it exited, and its code is not
    zero. *)
Theorem windows_status_final released p p' st :
  w_reachable released p -> w_step p p' -> waitStatus p = Some st ->
  (done p <= 1)%N /\ waitStatus p' = Some st /\
  exists r, st = wait_status (killed p) (terminateSent p) r /\
    (ex_Reason st.1 = ExitReasonKilled <-> killed p = true) /\
    (ex_Reason st.1 = ExitReasonSignaled <->
       killed p = false /\ terminateSent p = true /\ exists code, r = WaitCode code /\ code <> 0) /\
    st.2 = match r with WaitError e => Some e | WaitCode _ => None end.
Proof.
  intros Hr Hs Hst. pose proof (w_reachable_inv _ _ Hr) as I. pose proof (wi_status _ I) as Hw.
  destruct (running p) eqn:Erun; [congruence|]. destruct Hw as [r Hw].
  assert (before_exit (wpc p) = false) as Hb by (by rewrite <- (wi_running _ I)).
  split; [rewrite (wi_done _ I); by destruct (wpc p)|].
  split; [destruct (step_published p p' Erun Hb Hs) as [-> _]; done|].
  exists r. rewrite Hst in Hw. injection Hw as ->. split; [done|].
  unfold wait_status. destruct r as [code|e], (killed p), (terminateSent p); cbn; try (split_and!; naive_solver).
  destruct (Z.eqb_spec code 0); cbn; split_and!; naive_solver.
Qed.

(** *** Witnesses *)

(** A process on an old system (the console is not released) that is terminated,
    exits with code 9 and is closed. *)
Definition demo_exiting : Proc :=
  set_wpc (WSection (WaitCode 9)) (add_calls [GetExitCode] (set_wpc WExitCode (add_calls [WaitProcess]
    (set_wpc WWaiting (Terminate_section false false (new_process false)))))).
Definition demo_exited : Proc := wait_section (WaitCode 9) demo_exiting.
Definition demo_closed : Proc :=
  set_cpc CEnd (add_calls [CloseJob] (set_cpc CJob (add_calls [CloseProcess] (resources_section
    (set_cpc CSection (closeConsole_once (set_cpc CConsoleOnce (closeConsole_section
      (close_section (set_cpc CFiles demo_exited)))))))))).

Lemma w_exited_reachable : w_reachable false demo_exited.
Proof.
  eapply wr_step; [|by apply ws_wait_section]. eapply wr_step; [|by apply ws_exit_code].
  eapply wr_step; [|by apply ws_wait_ended]. eapply wr_step; [|by apply ws_wait].
  eapply wr_step; [apply wr_start|apply ws_terminate].
Qed.

Lemma w_closed_reachable : w_reachable false demo_closed.
Proof.
  eapply wr_step; [|by apply ws_close_job]. eapply wr_step; [|by apply ws_close_process].
  eapply wr_step; [|by apply ws_close_resources]. eapply wr_step; [|by apply ws_close_once].
  eapply wr_step; [|by apply ws_close_console]. eapply wr_step; [|by apply ws_close_section].
  eapply wr_step; [apply w_exited_reachable|by apply ws_close].
Qed.

Lemma windows_handles_safe_witness :
  calls demo_closed = [QueryJob; QueryProcess; WaitProcess; GetExitCode; CloseConsole; CloseProcess; CloseJob] /\
  use_all (calls demo_closed) = Some (mkHandles false false false).
Proof.
  split; [reflexivity|]. destruct (windows_handles_safe false demo_closed w_closed_reachable) as (h & E & Hh & _).
  rewrite E, (Hh eq_refl). reflexivity.
Defined.

Lemma windows_status_final_witness :
  waitStatus demo_exited = Some (mkExitStatus ExitReasonSignaled 9 "CTRL_CLOSE_EVENT" None, None) /\
  waitStatus (Kill false true None demo_exited).2 = waitStatus demo_exited.
Proof.
  destruct (windows_status_final false demo_exited (Kill false true None demo_exited).2
    (mkExitStatus ExitReasonSignaled 9 "CTRL_CLOSE_EVENT" None, None) w_exited_reachable (ws_kill _ _ _ _) eq_refl) as (_ & E & _).
  split; [reflexivity|]. rewrite E. reflexivity.
Defined.
