(* ===== verification/WindowsStart.v ===== *)
(** pty/windowspty/factory_windows.go: [startManaged], the handles it acquires, uses
    and releases on every path, the process it discards when its context is done at
    the end included, and [environmentBlock]. *)

From S2P Require Import Prelude Errors BigEndian PtyTypes WindowsPty.

(** ** Handles *)

Inductive resource :=
| InputRead | InputWrite | OutputRead | OutputWrite | Console | Job | Attributes | Process | Thread.
#[export] Instance resource_eq_dec : EqDecision resource.
Proof. solve_decision. Defined.

(** What [startManaged] does with them: besides, it asks for the state of a process or
    job, terminates it, and waits for it. *)
Inductive action :=
| Acquire (r : resource) | Release (r : resource) | Query (r : resource) | Terminate (r : resource) | WaitFor (r : resource).
#[export] Instance action_eq_dec : EqDecision action.
Proof. solve_decision. Defined.

(** The answers of the system: the error of each call that can fail; whether
    os.NewFile gave nil for each pipe; whether ReleasePseudoConsole exists; the error
    of the context at the end, and what the calls of a process that is then discarded
    get: whether job and process have exited, the error of TerminateJobObject, and
    the outcome of the wait. *)
Record Answers := mkAnswers {
  an_inputPipe : option error;
  an_outputPipe : option error;
  an_console : option error;
  an_job : option error;
  an_limits : option error;
  an_attributes : option error;
  an_setConsole : option error;
  an_setJobs : option error;
  an_process : option error;
  an_inputFile : bool;
  an_outputFile : bool;
  an_released : bool;
  an_ctx : option error;
  an_jobExited : bool;
  an_exited : bool;
  an_kill : option error;
  an_wait : wait_result;
}.

(** The local variables the deferred calls test: a handle is zero once closed. *)
Record Locals := mkLocals {
  l_inputRead : bool; l_inputWrite : bool; l_outputRead : bool; l_outputWrite : bool;
  l_consoleOwned : bool; l_jobOwned : bool; l_processOwned : bool; l_threadOwned : bool;
}.

(** The deferred calls, by what they are about. *)
Inductive deferred := DHandle (r : resource) | DConsole | DJob | DAttributes | DProcess.

(** [closeHandle] of one of the pipe ends. *)
Definition run_deferred (l : Locals) (d : deferred) : list action :=
  match d with
  | DHandle InputRead => if l_inputRead l then [Release InputRead] else []
  | DHandle InputWrite => if l_inputWrite l then [Release InputWrite] else []
  | DHandle OutputRead => if l_outputRead l then [Release OutputRead] else []
  | DHandle OutputWrite => if l_outputWrite l then [Release OutputWrite] else []
  | DHandle _ => []
  | DConsole => if l_consoleOwned l then [Release Console] else []
  | DJob => if l_jobOwned l then [Release Job] else []
  | DAttributes => [Release Attributes]
  | DProcess => (if l_threadOwned l then [Release Thread] else []) ++
                (if l_processOwned l then [Terminate Process; WaitFor Process; Release Process] else [])
  end.

(** The calls of the process object on its handles. *)
Definition action_of (c : call) : action :=
  match c with
  | QueryProcess | GetExitCode => Query Process
  | WaitProcess => WaitFor Process
  | CloseProcess => Release Process
  | QueryJob => Query Job
  | TerminateJob => Terminate Job
  | CloseJob => Release Job
  | ResizeConsole => Query Console
  | CloseConsole => Release Console
  end.

(** The calls of [WaitStatus] up to close(p.done), by one caller. *)
Definition WaitStatus_alone (r : wait_result) (p : Proc) : Proc :=
  let p := set_wpc WWaiting p in
  let p := match r with
           | WaitCode _ => add_calls [GetExitCode] (set_wpc WExitCode (add_calls [WaitProcess] p))
           | WaitError _ => add_calls [WaitProcess] p
           end in
  let p := wait_section r (set_wpc (WSection r) p) in
  close_done (if released p then p
              else set_wpc WClose (closeConsole_once (set_wpc WConsoleOnce (closeConsole_section (set_wpc WConsole p))))).

(** What [startManaged] does with the new process when the context is done at its
    end, Close, Kill and WaitStatus: the process, and what was done, the close of the
    two files by Close first. *)
Definition discard (jobExited exited : bool) (kill : option error) (r : wait_result) (p : Proc) : Proc * list action :=
  let p := close_section (set_cpc CFiles p) in
  let did := [Release InputWrite; Release OutputRead] in
  let p := (WindowsPty.Kill jobExited exited kill p).2 in
  let p := WaitStatus_alone r p in
  (p, did ++ (action_of <$> calls p)).

(** What the goroutine of Close does once [done] is closed. *)
Definition cleanup (p : Proc) : Proc :=
  let p := set_cpc CConsoleOnce (closeConsole_section (set_cpc CConsole p)) in
  let p := resources_section (set_cpc CSection (closeConsole_once p)) in
  set_cpc CEnd (add_calls [CloseJob] (set_cpc CJob (add_calls [CloseProcess] p))).

(** The actions that remain to that goroutine, if Close has started it. *)
Definition left_behind (p : Proc) : list action :=
  match cpc p with
  | CAwait => action_of <$> drop (length (calls p)) (calls (cleanup p))
  | _ => []
  end.

(** What a start gives: the process object or the error; what was done until it
    returned, the deferred calls included; what a goroutine it leaves behind does. *)
Record Started := mkStarted { st_result : Proc + error; st_did : list action; st_left : list action }.

(** A return: the deferred calls run, the last one first. *)
Definition returning (result : Proc + error) (l : Locals) (defers : list deferred) (done : list action) : Started :=
  mkStarted result (done ++ concat (run_deferred l <$> defers)) [].

(** [startManaged] from its first pipe on. *)
Definition startManaged (a : Answers) : Started :=
  let l := mkLocals false false false false false false false false in
  match an_inputPipe a with
  | Some e => returning (inr (Wrap e [])) l [] []
  | None =>
  let did := [Acquire InputRead; Acquire InputWrite] in
  let l := mkLocals true true false false false false false false in
  let defers := [DHandle InputWrite; DHandle InputRead] in
  match an_outputPipe a with
  | Some e => returning (inr (Wrap e [])) l defers did
  | None =>
  let did := did ++ [Acquire OutputRead; Acquire OutputWrite] in
  let l := mkLocals true true true true false false false false in
  let defers := [DHandle OutputWrite; DHandle OutputRead] ++ defers in
  match an_console a with
  | Some e => returning (inr (Wrap e [])) l defers did
  | None =>
  let did := did ++ [Acquire Console] in
  let l := mkLocals true true true true true false false false in
  let defers := DConsole :: defers in
  match an_job a with
  | Some e => returning (inr (Wrap e [])) l defers did
  | None =>
  let did := did ++ [Acquire Job] in
  let l := mkLocals true true true true true true false false in
  let defers := DJob :: defers in
  match an_limits a with
  | Some e => returning (inr (Wrap e [])) l defers did
  | None =>
  match an_attributes a with
  | Some e => returning (inr (Wrap e [])) l defers did
  | None =>
  let did := did ++ [Acquire Attributes] in
  let defers := DAttributes :: defers in
  match an_setConsole a with
  | Some e => returning (inr (Wrap e [])) l defers did
  | None =>
  match an_setJobs a with
  | Some e => returning (inr (Wrap e [])) l defers did
  | None =>
  match an_process a with
  | Some e => returning (inr (Wrap e [])) l defers did
  | None =>
  let did := did ++ [Acquire Process; Acquire Thread] in
  let defers := DProcess :: defers in
  let did := did ++ [Release Thread; Release InputRead; Release OutputWrite] in
  let l := mkLocals false true true false true true true false in
  if negb (an_inputFile a) || negb (an_outputFile a) then
    (* a file that was made closes its handle *)
    let did := did ++ (if an_inputFile a then [Release InputWrite] else []) ++
                      (if an_outputFile a then [Release OutputRead] else []) in
    let l := mkLocals false (negb (an_inputFile a)) (negb (an_outputFile a)) false true true true false in
    returning (inr (New "windowspty: wrap pipe handles")) l defers did
  else
    let l := mkLocals false false false false false false false false in
    let result := new_process (an_released a) in
    match an_ctx a with
    | Some err =>
        let '(result, discarded) := discard (an_jobExited a) (an_exited a) (an_kill a) (an_wait a) result in
        mkStarted (inr err) (st_did (returning (inr err) l defers (did ++ discarded))) (left_behind result)
    | None => returning (inl result) l defers did
    end
  end end end end end end end end end.

(** No release or use before the acquisition or after the release, and none twice. *)
Fixpoint balanced (held : list resource) (l : list action) : bool :=
  match l with
  | [] => true
  | Acquire r :: l => negb (bool_decide (r ∈ held)) && balanced (r :: held) l
  | Release r :: l => bool_decide (r ∈ held) && balanced (filter (fun x => x <> r) held) l
  | (Query r | Terminate r | WaitFor r) :: l => bool_decide (r ∈ held) && balanced held l
  end.

(** What remains held. *)
Fixpoint held_after (held : list resource) (l : list action) : list resource :=
  match l with
  | [] => held
  | Acquire r :: l => held_after (r :: held) l
  | Release r :: l => held_after (filter (fun x => x <> r) held) l
  | (Query _ | Terminate _ | WaitFor _) :: l => held_after held l
  end.

(** Every call gets what [startManaged] needs from it, and the context is not done. *)
Definition all_succeed (a : Answers) : bool :=
  forallb (fun o => bool_decide (o = None))
    [an_inputPipe a; an_outputPipe a; an_console a; an_job a; an_limits a; an_attributes a; an_setConsole a; an_setJobs a;
     an_process a; an_ctx a] && an_inputFile a && an_outputFile a.

(** Nothing is held at the end, and a process that had been created was waited for,
    after it or its job was terminated unless the job had no process left. *)
Definition clean (jobExited : bool) (did left : list action) : bool :=
  balanced [] (did ++ left) && bool_decide (held_after [] (did ++ left) = []) &&
  (bool_decide (Acquire Process ∉ did) ||
   bool_decide (WaitFor Process ∈ did) && (jobExited || bool_decide (Terminate Process ∈ did) || bool_decide (Terminate Job ∈ did))).

Lemma clean_spec jobExited did left : clean jobExited did left = true ->
  balanced [] (did ++ left) = true /\ held_after [] (did ++ left) = [] /\
  (Acquire Process ∈ did ->
    WaitFor Process ∈ did /\ (jobExited = true \/ Terminate Process ∈ did \/ Terminate Job ∈ did)).
Proof.
  unfold clean. rewrite !andb_true_iff, orb_true_iff, andb_true_iff, !orb_true_iff, !bool_decide_eq_true. tauto.
Qed.

(** What a return with an error gives when it leaves nothing to a goroutine. *)
Lemma plain_error (a : Answers) err did (ok : bool) : ok = false -> clean false did [] = true ->
  balanced [] (did ++ []) = true /\ ok = false /\ held_after [] (did ++ []) = [] /\
  (Acquire Process ∈ did ->
    WaitFor Process ∈ did /\ (an_jobExited a = true \/ Terminate Process ∈ did \/ Terminate Job ∈ did)) /\
  ([] <> @nil action -> an_ctx a = Some err).
Proof. intros Hok (? & ? & H)%clean_spec. split_and!; try done. intros Hp. naive_solver. Qed.

(** The cancelled start, for every answer of the system to the calls of the process. *)
Lemma discard_clean released jobExited exited kill r :
  let did := [Acquire InputRead; Acquire InputWrite; Acquire OutputRead; Acquire OutputWrite; Acquire Console; Acquire Job;
    Acquire Attributes; Acquire Process; Acquire Thread; Release Thread; Release InputRead; Release OutputWrite] in
  let '(p, discarded) := discard jobExited exited kill r (new_process released) in
  clean jobExited ((did ++ discarded) ++ [Release Attributes]) (left_behind p) = true.
Proof. destruct released, jobExited, exited, kill, r; vm_compute; reflexivity. Qed.

Ltac start_error := apply plain_error; [cbn; by rewrite ?andb_false_r|vm_compute; reflexivity].

Ltac start_done := unfold returning; cbv beta iota zeta; cbn [st_result st_did st_left];
  split_and!; first [reflexivity|refine (bool_decide_eq_false_1 _ _); vm_compute; reflexivity].

(** C30. Starting leaks nothing. Whatever fails, [startManaged] uses and releases only
    what it holds, and nothing twice. When it returns an error, a context that is
    done after everything else succeeded included, nothing is held any more once the
    goroutine it may leave behind has ended, that goroutine exists only for such a
    context, and a process that had been created was terminated, unless its job
    was empty already, and waited for before the return. It returns a process object
    exactly when no call failed and the context is not done, and then holds exactly
    what that object owns: its ends of the two pipes, the pseudoconsole, the job and
    the process, which it did not terminate. *)
Theorem start_leaks_nothing a :
  let s := startManaged a in
  balanced [] (st_did s ++ st_left s) = true /\
  match st_result s with
  | inr err =>
      all_succeed a = false /\
      held_after [] (st_did s ++ st_left s) = [] /\
      (Acquire Process ∈ st_did s ->
        WaitFor Process ∈ st_did s /\
        (an_jobExited a = true \/ Terminate Process ∈ st_did s \/ Terminate Job ∈ st_did s)) /\
      (st_left s <> [] -> an_ctx a = Some err)
  | inl p =>
      all_succeed a = true /\ p = new_process (an_released a) /\ st_left s = [] /\
      held_after [] (st_did s) = [Process; Job; Console; OutputRead; InputWrite] /\
      Terminate Process ∉ st_did s /\ Terminate Job ∉ st_did s
  end.
Proof.
  unfold startManaged, all_succeed. cbn zeta. cbn [forallb].
  destruct (an_inputPipe a); [start_error|]. destruct (an_outputPipe a); [start_error|].
  destruct (an_console a); [start_error|]. destruct (an_job a); [start_error|].
  destruct (an_limits a); [start_error|]. destruct (an_attributes a); [start_error|].
  destruct (an_setConsole a); [start_error|]. destruct (an_setJobs a); [start_error|].
  destruct (an_process a); [start_error|].
  destruct (an_inputFile a), (an_outputFile a); cbn [negb orb]; try start_error.
  destruct (an_ctx a) as [err|]; [|by start_done].
  pose proof (discard_clean (an_released a) (an_jobExited a) (an_exited a) (an_kill a) (an_wait a)) as Hc.
  cbv zeta in Hc. destruct (discard _ _ _ _ _) as [p discarded].
  apply clean_spec in Hc as (Hb & Hh & Hp). split_and!; try done.
Qed.

(** *** The environment block *)

Section Environment.
(** [windows.UTF16FromString]: the code units with the final NUL, or an error when
    there is a NUL inside; [strings.ToUpper]. *)
Context (UTF16FromString : string -> option (list Z)) (ToUpper : string -> string).

(** Go's [<] on strings. *)
Definition upper_le (a b : string) : Prop := String.compare (ToUpper a) (ToUpper b) <> Gt.
#[local] Instance upper_le_dec : RelDecision upper_le.
Proof. intros a b. unfold upper_le. destruct (String.compare _ _); [left|left|right]; congruence. Defined.

Lemma upper_le_total : Total upper_le.
Proof.
  intros a b. unfold upper_le. rewrite (String.compare_antisym (ToUpper a) (ToUpper b)).
  destruct (String.compare (ToUpper b) (ToUpper a)); cbn; [left|right|left]; congruence.
Qed.

(** The loop of [environmentBlock] over the sorted values. *)
Fixpoint append_encoded (values : list string) (block : list Z) : list Z + error :=
  match values with
  | [] => inl block
  | value :: values =>
      match UTF16FromString value with
      | None => inr ErrInvalidProcessSpec
      | Some encoded => append_encoded values (block ++ encoded)
      end
  end.

(** [environmentBlock]; nil is [None]. *)
Definition environmentBlock (environment : option (list string)) : option (list Z) + error :=
  match environment with
  | None => inl None
  | Some environment =>
      match append_encoded (merge_sort upper_le environment) [] with
      | inr err => inr err
      | inl block =>
          let block := block ++ [0] in
          inl (Some (if len block =? 1 then block ++ [0] else block))
      end
  end.

(** How Windows reads a block: strings up to an empty one. [current] is the string
    being read. *)
Fixpoint read_block (block : list Z) (current : list Z) : list (list Z) :=
  match block with
  | [] => []
  | c :: block =>
      if c =? 0 then match current with [] => [] | _ => current :: read_block block [] end
      else read_block block (current ++ [c])
  end.

(** What the encoding is documented to do. *)
Context (encoded : string -> list Z).
Context (Hencode : forall s u, UTF16FromString s = Some u -> u = encoded s ++ [0]).
Context (Hnonzero : forall s u, UTF16FromString s = Some u -> Forall (fun c => c <> 0) (encoded s)).
Context (Hempty : forall s, encoded s = [] <-> s = ""%string).
Context (Hdefined : forall s, has_nul s = false -> is_Some (UTF16FromString s)).

Lemma read_block_app u rest current :
  Forall (fun c => c <> 0) u -> read_block (u ++ rest) current = read_block rest (current ++ u).
Proof.
  intros Hu. revert current. induction Hu as [|c u Hc _ IH]; intros current; cbn; [by rewrite app_nil_r|].
  rewrite (proj2 (Z.eqb_neq _ _) Hc), IH. by rewrite <- (assoc_L (++)).
Qed.

Lemma read_block_string s u rest : UTF16FromString s = Some u -> s <> ""%string ->
  read_block (u ++ rest) [] = encoded s :: read_block rest [].
Proof.
  intros Hu Hs. rewrite (Hencode _ _ Hu), <- (assoc_L (++)), read_block_app by (by eapply Hnonzero). cbn.
  destruct (encoded s) eqn:E; [|done]. by apply Hempty in E.
Qed.

Lemma append_encoded_spec values block0 :
  Forall (fun s => has_nul s = false) values ->
  exists block, append_encoded values block0 = inl (block0 ++ block) /\ (block = [] <-> values = []) /\
    (Forall (fun s => s <> ""%string) values -> forall rest, read_block (block ++ rest) [] = (encoded <$> values) ++ read_block rest []).
Proof.
  intros Hv. revert block0. induction Hv as [|s values Hs _ IH]; intros block0; cbn.
  { exists []. by rewrite app_nil_r. }
  destruct (Hdefined s Hs) as [u Hu]. rewrite Hu. destruct (IH (block0 ++ u)) as (block & -> & _ & Hread).
  exists (u ++ block). rewrite <- (assoc_L (++)). split; [done|]. split.
  - rewrite (Hencode _ _ Hu). split; [|done]. intros E. by destruct (encoded s).
  - intros [Hne Hall]%Forall_cons rest. rewrite <- (assoc_L (++)), (read_block_string s) by done. by rewrite Hread.
Qed.

(** The environment arrives. For an environment without NUL bytes and empty
    strings, reading the block of [environmentBlock] back gives exactly its strings
    in the order of their upper-case forms; an empty environment gives an empty one
    and a nil environment no block. *)
Theorem environment_roundtrip environment :
  Forall (fun s => has_nul s = false) environment -> Forall (fun s => s <> ""%string) environment ->
  environmentBlock None = inl None /\
  exists block sorted, environmentBlock (Some environment) = inl (Some block) /\
    read_block block [] = encoded <$> sorted /\ sorted ≡ₚ environment /\ Sorted upper_le sorted /\ 2 <= len block.
Proof.
  intros Hn Hne. split; [done|]. unfold environmentBlock.
  pose proof (merge_sort_Permutation upper_le environment) as Hp.
  destruct (append_encoded_spec (merge_sort upper_le environment) []) as (block & -> & Hnil & Hread); [by rewrite Hp|].
  eexists _, (merge_sort upper_le environment). split; [done|]. cbn [app].
  pose proof upper_le_total as Ht.
  split; [|split; [done|split; [by apply Sorted_merge_sort|]]].
  - specialize (Hread ltac:(by rewrite Hp)). destruct (Z.eqb_spec (len (block ++ [0])) 1) as [E|E].
    + rewrite <- (assoc_L (++)), Hread. cbn. by rewrite app_nil_r.
    + rewrite Hread. cbn. by rewrite app_nil_r.
  - destruct (Z.eqb_spec (len (block ++ [0])) 1) as [E|E]; mux_rw; pose proof (len_nonneg block); lia.
Qed.

Lemma empty_first (Hup : forall s, ToUpper s = ""%string <-> s = ""%string) s values :
  Sorted upper_le (s :: values) -> ""%string ∈ s :: values -> s = ""%string.
Proof.
  revert s. induction values as [|s' values IH]; intros s Hs Hin.
  - apply list_elem_of_singleton in Hin. done.
  - apply elem_of_cons in Hin as [?|Hin]; [done|]. apply Sorted.Sorted_inv in Hs as [Hs Hd].
    apply (IH s' Hs) in Hin. subst s'. apply Sorted.HdRel_inv in Hd. unfold upper_le in Hd.
    rewrite (proj2 (Hup ""%string) eq_refl) in Hd. apply Hup. by destruct (ToUpper s).
Qed.

(** An empty string hides the rest. Nothing rejects an empty string in the
    environment; it sorts first, and Windows reads the block up to it: the process
    starts with an empty environment. *)
Theorem environment_truncated environment :
  Forall (fun s => has_nul s = false) environment -> ""%string ∈ environment ->
  (forall s, ToUpper s = ""%string <-> s = ""%string) ->
  exists block, environmentBlock (Some environment) = inl (Some block) /\ read_block block [] = [].
Proof.
  intros Hn Hin Hup. unfold environmentBlock.
  pose proof (merge_sort_Permutation upper_le environment) as Hp. pose proof upper_le_total as Ht.
  pose proof (Sorted_merge_sort upper_le environment) as Hs.
  rewrite <- Hp in Hin. rewrite <- Hp in Hn. clear Hp.
  destruct (merge_sort upper_le environment) as [|s values]; [by apply elem_of_nil in Hin|].
  assert (s = ""%string) as ->.
  { by apply (empty_first Hup s values). }
  apply Forall_cons in Hn as [H0 Hn]. cbn [append_encoded]. destruct (Hdefined _ H0) as [u Hu]. rewrite Hu.
  destruct (append_encoded_spec values ([] ++ u) Hn) as (block & -> & _ & _). eexists. split; [done|].
  rewrite (Hencode _ _ Hu), (proj2 (Hempty ""%string) eq_refl). cbn [app]. by destruct (len _ =? 1).
Qed.
End Environment.

(** *** Before the first handle *)

(** What [startManaged] passes to CreateProcess. *)
Record Arguments := mkArguments {
  ar_application : list Z; ar_commandLine : list Z; ar_environment : option (list Z); ar_directory : option (list Z);
}.

Section Arguments.
(** [exec.LookPath], [windows.ComposeCommandLine], and the conversions of the
    environment block; UTF16PtrFromString converts like UTF16FromString. *)
Context (LookPath : string -> string + error) (ComposeCommandLine : list string -> string).
Context (UTF16FromString : string -> option (list Z)) (ToUpper : string -> string).

(** [startManaged] up to its first pipe; [ctx] is [None] when nil, and the error of
    the context otherwise. *)
Definition start_arguments (ctx : option (option error)) (spec : ProcessSpec) : Arguments + error :=
  match ctx with
  | None => inr (New "windowspty: nil context")
  | Some done =>
  match validateSpec spec with
  | Some err => inr err
  | None =>
  match done with
  | Some err => inr err
  | None =>
  match LookPath (Command spec) with
  | inr e => inr (Wrap e [])
  | inl executable =>
  match UTF16FromString executable with
  | None => inr ErrInvalidProcessSpec
  | Some application =>
  match UTF16FromString (ComposeCommandLine (executable :: Args spec)) with
  | None => inr ErrInvalidProcessSpec
  | Some commandLine =>
  match environmentBlock UTF16FromString ToUpper (Env spec) with
  | inr err => inr err
  | inl environment =>
      if bool_decide (Dir spec = ""%string) then inl (mkArguments application commandLine environment None)
      else match UTF16FromString (Dir spec) with
           | None => inr ErrInvalidProcessSpec
           | Some directory => inl (mkArguments application commandLine environment (Some directory))
           end
  end end end end end end end.

(** [startManaged]: the arguments, then the handles; [answers] is what the system
    answers when it is given those arguments. *)
Definition start (ctx : option (option error)) (answers : Arguments -> Answers) (spec : ProcessSpec)
    : Started :=
  match start_arguments ctx spec with
  | inr err => mkStarted (inr err) [] []
  | inl args => startManaged (answers args)
  end.

(** The conversion is documented to fail exactly on a NUL; neither the search of the
    executable nor the composition of the command line makes one. *)
Context (Hutf16 : forall s, UTF16FromString s = None <-> has_nul s = true).
Context (Hlook : forall s path, has_nul s = false -> LookPath s = inl path -> has_nul path = false).
Context (Hcompose : forall l, Forall (fun s => has_nul s = false) l -> has_nul (ComposeCommandLine l) = false).

Lemma UTF16_defined s : has_nul s = false -> exists u, UTF16FromString s = Some u.
Proof. intros Hn. destruct (UTF16FromString s) eqn:E; [by eexists|]. apply Hutf16 in E. congruence. Qed.

Lemma append_encoded_defined values block : Forall (fun s => has_nul s = false) values ->
  exists b, append_encoded UTF16FromString values block = inl b.
Proof.
  intros Hv. revert block. induction Hv as [|s values Hs _ IH]; intros block; cbn; [by eexists|].
  destruct (UTF16_defined s Hs) as [u ->]. apply IH.
Qed.

Lemma validateSpec_nul spec : validateSpec spec = None ->
  Forall (fun s => has_nul s = false) (([Command spec; Dir spec] ++ Args spec) ++ from_option id [] (Env spec)).
Proof.
  unfold validateSpec. destruct (ProcessSpec_Validate spec), (Size_Validate (InitialSize spec)); try done. destruct (_ || _); [done|].
  destruct (existsb _ _) eqn:E; [done|]. intros _. apply Forall_forall. intros s Hs.
  destruct (has_nul s) eqn:En; [|done]. assert (existsb has_nul (([Command spec; Dir spec] ++ Args spec) ++ from_option id [] (Env spec)) = true); [|congruence].
  apply existsb_exists. exists s. split; [|done]. by apply list_elem_of_In.
Qed.

(** A valid specification fails to start only for what the system answers. Up to its
    first handle [startManaged] fails exactly when there is no context, the
    specification is refused, the context is done, or the executable is not found;
    the conversions to UTF-16 then never fail, and a directory is passed exactly
    when one is given, an environment exactly when it is not nil. *)
Theorem start_arguments_spec ctx spec :
  match start_arguments ctx spec with
  | inr err => ctx = None \/ exists done, ctx = Some done /\
      (validateSpec spec = Some err \/ validateSpec spec = None /\
        (done = Some err \/ done = None /\ exists e, LookPath (Command spec) = inr e /\ err = Wrap e []))
  | inl args => ctx = Some None /\ validateSpec spec = None /\
      exists path, LookPath (Command spec) = inl path /\ UTF16FromString path = Some (ar_application args) /\
        UTF16FromString (ComposeCommandLine (path :: Args spec)) = Some (ar_commandLine args) /\
        (is_Some (ar_environment args) <-> is_Some (Env spec)) /\
        (is_Some (ar_directory args) <-> Dir spec <> ""%string)
  end.
Proof.
  unfold start_arguments. destruct ctx as [done|]; [|by left]. destruct (validateSpec spec) as [err|] eqn:Ev; [right; eauto|].
  destruct done as [err|]; [right; exists (Some err); eauto|].
  pose proof (validateSpec_nul _ Ev) as Hn. rewrite !Forall_app, Forall_cons, Forall_singleton in Hn.
  destruct Hn as [[[Hc Hd] Ha] He]. destruct (LookPath (Command spec)) as [path|e] eqn:El; [|right; exists None; eauto 10].
  pose proof (Hlook _ _ Hc El) as Hp. destruct (UTF16_defined path Hp) as [u Hu]. rewrite Hu.
  destruct (UTF16_defined (ComposeCommandLine (path :: Args spec))) as [cl Hcl]; [apply Hcompose; by constructor|]. rewrite Hcl.
  assert (exists env, environmentBlock UTF16FromString ToUpper (Env spec) = inl env /\ (is_Some env <-> is_Some (Env spec))) as (env & -> & Henv).
  { unfold environmentBlock. destruct (Env spec) as [values|]; [|by eexists].
    match goal with |- context [append_encoded _ ?l []] => destruct (append_encoded_defined l []) as [b ->] end;
      [by rewrite merge_sort_Permutation|].
    eexists. split; [done|]. by split; eexists. }
  destruct (bool_decide_reflect (Dir spec = ""%string)) as [Hdir|Hdir].
  - split_and!; try done. exists path. split_and!; try done. by split; [intros []|].
  - destruct (UTF16_defined (Dir spec) Hd) as [d ->]. split_and!; try done. exists path. by split_and!.
Qed.
End Arguments.

(** *** A process that is not returned *)

Lemma discard_reachable released jobExited exited kill r :
  w_reachable released (discard jobExited exited kill r (new_process released)).1.
Proof.
  unfold discard, WaitStatus_alone. cbn [fst]. set (p1 := close_section _). 
  set (p2 := (WindowsPty.Kill jobExited exited kill p1).2).
  assert (w_reachable released p1) as H1.
  { eapply wr_step; [eapply wr_step; [apply wr_start|by apply ws_close]|by apply ws_close_section]. }
  assert (w_reachable released p2) as H2 by (eapply wr_step; [exact H1|apply ws_kill]).
  assert (wpc p2 = WIdle /\ WindowsPty.released p2 = released) as [Hw Hrel].
  { unfold p2, WindowsPty.Kill. cbn. by destruct jobExited, kill; cbn; try destruct (negb exited). }
  assert (w_reachable released (wait_section r (set_wpc (WSection r) match r with
    | WaitCode _ => add_calls [GetExitCode] (set_wpc WExitCode (add_calls [WaitProcess] (set_wpc WWaiting p2)))
    | WaitError _ => add_calls [WaitProcess] (set_wpc WWaiting p2) end))) as H3.
  { eapply wr_step; [|by apply ws_wait_section]. destruct r as [code|e].
    - eapply wr_step; [|by apply ws_exit_code]. eapply wr_step; [|by apply ws_wait_ended]. eapply wr_step; [done|by apply ws_wait].
    - eapply wr_step; [|by apply ws_wait_failed]. eapply wr_step; [done|by apply ws_wait]. }
  set (p3 := wait_section _ _) in *. assert (WindowsPty.released p3 = released) as -> by (by unfold p3; destruct r).
  assert (wpc p3 = if released then WClose else WObserve) as Hw3.
  { unfold p3, wait_section. cbn. destruct r; cbn; by rewrite Hrel. }
  eapply wr_step; [|by apply ws_wait_done; destruct released; [|cbn]].
  destruct released; [done|]. eapply wr_step; [|by apply ws_wait_once]. eapply wr_step; [|by apply ws_wait_console].
  eapply wr_step; [exact H3|by apply ws_observe].
Qed.

Lemma discard_fields released jobExited exited kill r :
  let p := (discard jobExited exited kill r (new_process released)).1 in
  cpc p = CAwait /\ done p = 1%N /\ wpc p = WEnd /\
  waitStatus p = Some (wait_status (negb jobExited && bool_decide (kill = None) && negb exited) false r).
Proof. unfold discard. destruct released, jobExited, exited, kill, r; repeat split. Qed.

Lemma cleanup_reachable released p : w_reachable released p -> cpc p = CAwait -> (0 < done p)%N ->
  w_reachable released (cleanup p) /\ cpc (cleanup p) = CEnd /\ waitStatus (cleanup p) = waitStatus p.
Proof.
  intros Hr Hc Hd. pose proof (wi_closed _ (w_reachable_inv _ _ Hr)) as Hrc. rewrite Hc in Hrc.
  unfold cleanup. set (p1 := set_cpc CConsoleOnce _). set (p2 := set_cpc CSection (closeConsole_once p1)).
  assert (resourcesClosed p2 = false /\ waitStatus p2 = waitStatus p) as [Hrc2 Hw2].
  { unfold p2, closeConsole_once. cbn. by destruct (consoleClosed p). }
  assert (cpc (resources_section p2) = CProcess /\ waitStatus (resources_section p2) = waitStatus p) as [Hc3 Hw3].
  { unfold resources_section. by rewrite Hrc2. }
  split; [|by rewrite <- Hw3].
  eapply wr_step; [|by apply ws_close_job]. eapply wr_step; [|by apply ws_close_process].
  eapply wr_step; [|by apply ws_close_resources]. eapply wr_step; [|by apply ws_close_once].
  eapply wr_step; [|by apply ws_close_console]. eapply wr_step; [exact Hr|by apply ws_close_await].
Qed.

(** A start that is cancelled at the last moment leaves nothing. The process is
    killed and its status collected before [startManaged] returns, and the cleanup
    that Close left behind closes each of its handles exactly once. *)
Theorem discard_leaves_nothing released jobExited exited kill r :
  let p := (discard jobExited exited kill r (new_process released)).1 in
  w_reachable released (cleanup p) /\ use_all (calls (cleanup p)) = Some (mkHandles false false false) /\
  waitStatus (cleanup p) = Some (wait_status (negb jobExited && bool_decide (kill = None) && negb exited) false r).
Proof.
  intros p. destruct (discard_fields released jobExited exited kill r) as (Hc & Hd & _ & Hw). fold p in Hc, Hd, Hw.
  destruct (cleanup_reachable released p (discard_reachable _ _ _ _ _) Hc) as (Hr & Hc' & Hw'); [rewrite Hd; lia|].
  split; [done|]. split; [|by rewrite Hw'].
  pose proof (w_reachable_inv _ _ Hr) as I. rewrite (wi_handles _ I). unfold open_handles.
  rewrite Hc', (wi_end _ I); [done|]. right. by rewrite Hc'.
Qed.

(** *** Witnesses *)

(** The code units of ASCII strings, and their upper case. *)
Definition units (s : string) : list Z := (fun c => Z.of_nat (Ascii.nat_of_ascii c)) <$> String.list_ascii_of_string s.
Definition ascii_encode (s : string) : option (list Z) := if has_nul s then None else Some (units s ++ [0]).

Lemma ascii_encode_eq s u : ascii_encode s = Some u -> has_nul s = false /\ u = units s ++ [0].
Proof. unfold ascii_encode. destruct (has_nul s); [done|]. by intros [= <-]. Qed.

Lemma units_nonzero s u : ascii_encode s = Some u -> Forall (fun c => c <> 0) (units s).
Proof.
  intros [Hs%has_nul_spec _]%ascii_encode_eq. unfold units. apply Forall_fmap, Forall_forall. intros c Hc. cbn.
  intros E. apply Hs. enough (c = Ascii.zero) as <- by done.
  rewrite <- (Ascii.ascii_nat_embedding c). by replace (Ascii.nat_of_ascii c) with 0%nat by lia.
Qed.

Lemma units_empty s : units s = [] <-> s = ""%string.
Proof. by destruct s. Qed.

Lemma ascii_encode_defined s : has_nul s = false -> is_Some (ascii_encode s).
Proof. unfold ascii_encode. intros ->. by eexists. Qed.

Lemma environment_roundtrip_witness :
  exists block sorted, environmentBlock ascii_encode id (Some ["B=2"; "A=1"]%string) = inl (Some block) /\
    read_block block [] = units <$> sorted /\ sorted ≡ₚ ["B=2"; "A=1"]%string.
Proof.
  destruct (environment_roundtrip ascii_encode id units (fun s u H => proj2 (ascii_encode_eq s u H)) units_nonzero
    units_empty ascii_encode_defined ["B=2"; "A=1"]%string) as (_ & block & sorted & E & Hr & Hp & _);
    [repeat constructor|repeat constructor; discriminate|]. exists block, sorted. split; [exact E|]. split; [exact Hr|exact Hp].
Defined.

Lemma environment_truncated_witness :
  exists block, environmentBlock ascii_encode id (Some ["B=2"; ""]%string) = inl (Some block) /\ read_block block [] = [].
Proof.
  apply (environment_truncated ascii_encode id units (fun s u H => proj2 (ascii_encode_eq s u H)) units_nonzero
    units_empty ascii_encode_defined); [repeat constructor|right; left|done].
Defined.
