(* ===== verification/AttachStream.v ===== *)
(** The worker of an attachment (manager.go) and the sink of the protocol
    (protocol.go) together: what a client receives at any moment of any
    interleaving of output, exit, cancellation and delivery. *)

From S2P Require Import Prelude Errors BigEndian Frame PeerConfig Peer Inbound Correlation PtyTypes Attachment Subscription History Manager ManagerRun ManagerSpec Cursor Protocol ProtocolHandlers ProtocolSpec ReplayFraming ProtocolDemo.

Lemma prefix_of_app {A} (l k1 k2 : list A) : l `prefix_of` k1 ++ k2 ->
  l `prefix_of` k1 \/ exists k, l = k1 ++ k /\ k `prefix_of` k2.
Proof.
  intros [z Hz]. symmetry in Hz. apply app_eq_inv in Hz as [(k & -> & ->)|(k & -> & ->)].
  - right. exists k. split; [done|by exists z].
  - left. by exists k.
Qed.

(** ** The events an attachment accepts *)

Definition plain_event (e : AttachmentEvent) : Prop := (exists o, e = output_event o) \/ (exists status, e = exit_event status).

Lemma offered_plain maxBytes active replay st : a_reachable maxBytes active replay st -> Forall plain_event (offered st).
Proof.
  induction 1 as [|st st' _ IH Hs]; [constructor|].
  destruct Hs; cbn; try done.
  - apply Forall_app. split; [done|]. constructor; [left; by eexists|constructor].
  - apply Forall_app. split; [done|]. constructor; [right; by eexists|constructor].
  - by destruct (run_section _).
Qed.

Lemma plain_outputs l : Forall plain_event l -> Forall (fun e => ~ is_exit e) l -> exists os, l = output_event <$> os.
Proof.
  induction 1 as [|e l He _ IH]; intros Hn; [by exists []|]. apply Forall_cons in Hn as [Hne Hn].
  destruct (IH Hn) as [os ->]. destruct He as [[o ->]|[status ->]]; [by exists (o :: os)|by destruct Hne].
Qed.

(** A prefix of the accepted events: outputs, and the exit after all of them. *)
Lemma offered_prefix maxBytes active replay st l : 0 <= maxBytes ->
  a_reachable maxBytes active replay st -> l `prefix_of` offered st ->
  exists live final, l = (output_event <$> live) ++ final_events final /\ (final <> None -> l = offered st).
Proof.
  intros Hm Hr Hl. pose proof (offered_plain _ _ _ _ Hr) as Hp.
  destruct (ai_exit _ _ _ (a_reachable_inv _ _ _ _ Hm Hr)) as (outs & exits & Ho & Hno & Hx).
  rewrite Ho in Hl, Hp. apply Forall_app in Hp as [Hp _].
  destruct (plain_outputs outs Hp Hno) as [os ->].
  assert (exits = [] \/ exists status, exits = [exit_event status]) as Hx' by (destruct (a_closing (att st)); [by right|by left]).
  apply prefix_of_app in Hl as [[k Hl]|(k & -> & Hk)].
  - exists (take (length l) os), None. cbn. rewrite app_nil_r, fmap_take, Hl. by rewrite take_app_length.
  - destruct Hx' as [->|[status ->]].
    + apply prefix_nil_inv in Hk as ->. exists os, None. by rewrite !app_nil_r.
    + destruct k as [|e k]; [exists os, None; by rewrite !app_nil_r|].
      apply prefix_cons_inv_1 in Hk as Heq. apply prefix_cons_inv_2, prefix_nil_inv in Hk as ->. subst e.
      exists os, (Some status). by rewrite Ho.
Qed.

Section Stream.
Context {P M : Type} `{ClassSenderLaws P} `{ManagerAPI M}.
Context `{Marshaler ProtocolResponse, Marshaler ReplayMetadata, Marshaler ExitPayload}.
Context (config : ProtocolConfig).
Implicit Types w : World P M.

(** C7. What a client receives from an attachment. Let [handleAttach] have announced
    an attach to a session whose history satisfies its invariant, let the attachment
    be in any state that some interleaving of output, exit, Activate, Close,
    cancellation and delivery produces, and let [sent] be the events whose Send has
    returned nil so far. Then the client has received the response, ReplayBegin with
    the bounds of the replay, and as long as the replay is not complete exactly its
    first events; once it is complete, the replay, one ReplayEnd, and the first of
    the live outputs accepted so far, in order. As long as the attachment is open
    the accepted events it has not received are exactly those that were handed to
    the sink and have not been sent, and those the attachment still holds; and it
    receives the exit only at the end, when it has received every output accepted.
    So everything before ReplayEnd is replay and everything after it is not. *)
Theorem attachment_stream request a o s next maxBytes st sent w w1 w2 :
  let '(result, replay) := attach_replay o s in
  chunks_ok next s -> 0 <= ResumeAfter o <= s_lastSequence s -> s_lastSequence s < 2 ^ 64 - 1 ->
  0 <= maxBytes -> a_reachable maxBytes false replay st ->
  (forall e, output_event e ∈ offered st -> s_lastSequence s < ev_Sequence e) ->
  attach_announce config request a result w = (None, w1) ->
  sent `prefix_of` delivered st -> send_all config (StreamID (FHeader request)) a sent w1 = (None, w2) ->
  let id := StreamID (FHeader request) in
  exists response begin metadata outputs tail,
    wire (w_peer w2) = wire (w_peer w) ++ [(response, TrafficControl); (begin, TrafficControl)] ++ outputs ++ tail /\
    response_to config request (attach_response config result) response /\
    event_of config (t_ReplayBegin (pc_Types config)) id metadata begin /\
    Marshal (mkReplayMetadata (pc_Version config) (ReplayFirst result) (ReplayLast result) (NextLive result)
               (Truncated result)) = inl metadata /\
    Forall2 (output_frame config id) (take (length sent) replay) outputs /\
    if (length sent <? length replay)%nat
    then sent = output_event <$> take (length sent) replay /\ tail = []
    else exists live final mark lives finals,
      sent = (output_event <$> replay ++ live) ++ final_events final /\
      (output_event <$> live) ++ final_events final `prefix_of` offered st /\
      (a_closed (att st) = false -> offered st =
         ((output_event <$> live) ++ final_events final) ++ drop (length sent) (delivered st) ++ remaining (att st)) /\
      (final <> None -> offered st = (output_event <$> live) ++ final_events final) /\
      tail = mark :: lives ++ finals /\ end_marker config id mark /\ Forall2 (output_frame config id) live lives /\
      match final with Some status => exists item, finals = [item] /\ exit_frame config id status item | None => finals = [] end.
Proof.
  destruct (attach_replay o s) as [result replay] eqn:Er. intros Hok Hra Hmax Hm Hr Hseq Ha Hsent Hs.
  assert (sent `prefix_of` (output_event <$> replay) ++ offered st) as Hpre.
  { etrans; [exact Hsent|]. pose proof (ai_order _ _ _ (a_reachable_inv _ _ _ _ Hm Hr)) as Ho.
    destruct (a_closed (att st)); [done|]. rewrite Ho. by apply prefix_app_r. }
  destruct (Nat.ltb_spec (length sent) (length replay)) as [Hlt|Hge].
  - assert (sent = output_event <$> take (length sent) replay) as Es.
    { destruct Hpre as [k Hk]. apply (f_equal (take (length sent))) in Hk. rewrite take_app_length in Hk.
      rewrite take_app_le in Hk by (rewrite length_fmap; lia). by rewrite fmap_take. }
    pose proof (attach_replay_bounds next o s Hok Hra Hmax) as Hb. rewrite Er in Hb.
    destruct (Replay o); [destruct Hb as [_ ->]; cbn in Hlt; lia|]. destruct Hb as [_ Hq Haft Hb _ _].
    destruct replay as [|e0 replay0] eqn:Erep; [cbn in Hlt; lia|]. rewrite <- Erep in *. destruct Hb as [_ Hlast].
    assert (s_lastSequence s <> 0) as Hz by (rewrite Erep, len_cons in Haft; pose proof (len_nonneg replay0); lia).
    apply attach_announce_ok in Ha as (_ & ws & Hw & (f & b & metadata & ends & Hf & Hmd & Hbg & -> & He) & _ & Hsink & _).
    rewrite Hlast, (proj2 (Z.eqb_neq _ _) Hz) in *. subst ends. rewrite Es in Hs.
    apply (send_outputs config _ _ (mkSink (s_lastSequence s) false)) in Hs as (items & Hi & Hw2 & _);
      [|rewrite Hsink; apply lookup_insert_eq|by apply replay_unmarked].
    exists f, b, metadata, items, []. split; [by rewrite Hw2, Hw, app_nil_r, <- (assoc_L (++))|].
    split_and!; done.
  - assert (exists l, sent = (output_event <$> replay) ++ l /\ l `prefix_of` offered st) as (l & El & Hl).
    { apply prefix_of_app in Hpre as [[k Hk]|(k & -> & Hk)]; [|by exists k].
      exists []. apply (f_equal length) in Hk as Hlen. rewrite length_app, length_fmap in Hlen.
      destruct k; [|cbn in Hlen; lia]. rewrite app_nil_r in *. split; [done|apply prefix_nil]. }
    destruct (offered_prefix _ _ _ _ l Hm Hr Hl) as (live & final & -> & Hall).
    pose proof (attach_stream_framed config request a o s next live final w w1 w2) as Hframe. rewrite Er in Hframe.
    assert (sent = (output_event <$> replay ++ live) ++ final_events final) as Es
      by (by rewrite El, fmap_app, <- (assoc_L (++))).
    rewrite Es in Hs. destruct (Hframe Hok Hra Hmax) as (f & b & metadata & outputs & mark & lives & finals & Hw2 & Hf & Hbg & Hmd & Ho & Hmk & Hlv & Hfin); [|done..|].
    { apply Forall_forall. intros e He. apply Hseq. destruct Hl as [k ->]. rewrite !elem_of_app. left. left.
      by apply list_elem_of_fmap_2. }
    exists f, b, metadata, outputs, (mark :: lives ++ finals). split_and!; try done; [by rewrite take_ge|].
    exists live, final, mark, lives, finals. split_and!; try done; [|by intros Hn; rewrite <- (Hall Hn)].
    intros Hop. pose proof (ai_order _ _ _ (a_reachable_inv _ _ _ _ Hm Hr)) as Hord. rewrite Hop in Hord.
    destruct Hsent as [k Hk]. rewrite Hk, drop_app_length, El in *. rewrite <- !(assoc_L (++)) in Hord.
    apply app_inv_head in Hord. rewrite Hord. by rewrite <- !(assoc_L (++)).
Qed.
End Stream.

(** ** Example *)

(** A replay of one event; a live event and the exit arrive, and all is delivered. *)
Definition stream_replay : list OutputEvent := [mkOutputEvent 1 demo_data].
Definition stream_live : OutputEvent := mkOutputEvent 2 demo_data.

Definition stream_activate (s : AState) : AState := mkAState (Activate (att s)).2 (run_at s) (offered s) (delivered s).
Definition stream_output (s : AState) : AState :=
  let '(err, a) := enqueueLocked (output_event stream_live) (att s) in
  match err with None => mkAState a (run_at s) (offered s ++ [output_event stream_live]) (delivered s) | Some _ => s end.
Definition stream_exit (s : AState) : AState :=
  let '(err, a) := enqueueExitLocked demo_exit (att s) in
  match err with None => mkAState a (run_at s) (offered s ++ [exit_event demo_exit]) (delivered s) | Some _ => s end.
Definition stream_turn (s : AState) : AState :=
  match run_at s, run_section (att s) with
  | RLoop, (RunSend event, a) => mkAState a RLoop (offered s) (delivered s ++ [event])
  | _, _ => s
  end.

Section Stream_reach.
Context (maxBytes : Z) (active : bool) (replay : list OutputEvent).
Notation reachable := (a_reachable maxBytes active replay).

Lemma stream_activate_reach s : reachable s -> reachable (stream_activate s).
Proof. intros Hr. eapply ar_step; [exact Hr|constructor]. Qed.

Lemma stream_output_reach s : reachable s -> reachable (stream_output s).
Proof.
  intros Hr. unfold stream_output. destruct (enqueueLocked _ _) as [[err|] a] eqn:E; [done|].
  eapply ar_step; [exact Hr|by constructor].
Qed.

Lemma stream_exit_reach s : reachable s -> reachable (stream_exit s).
Proof.
  intros Hr. unfold stream_exit. destruct (enqueueExitLocked _ _) as [[err|] a] eqn:E; [done|].
  eapply ar_step; [exact Hr|by constructor].
Qed.

Lemma stream_turn_reach s : reachable s -> reachable (stream_turn s).
Proof.
  intros Hr. unfold stream_turn. destruct (run_at s) eqn:El; try done.
  destruct (run_section (att s)) as [[| |gen|event] a] eqn:E; try done.
  pose proof (as_run s El) as Hs. rewrite E in Hs.
  eapply ar_step; [eapply ar_step; [exact Hr|exact Hs]|].
  exact (as_sent event (mkAState a (RSending event) (offered s) (delivered s ++ [event])) eq_refl).
Qed.
End Stream_reach.

Definition stream_state : AState :=
  stream_turn (stream_turn (stream_turn (stream_exit (stream_output (stream_activate (initial_astate 16 false stream_replay)))))).

Lemma stream_state_reach : a_reachable 16 false stream_replay stream_state.
Proof.
  unfold stream_state. do 3 apply stream_turn_reach.
  apply stream_exit_reach, stream_output_reach, stream_activate_reach, ar_init.
Qed.

(** Everything sent: six frames, of which the fourth is ReplayEnd. *)
Lemma attachment_stream_witness :
  exists s (w2 : World Log Manager), demo_hist.1 !! 2 = Some s /\ length (log (w_peer w2)) = 6%nat /\
    exists begin rest mark, log (w_peer w2) = begin ++ mark :: rest /\ length begin = 3%nat /\
      end_marker demo_protocol 2 mark.
Proof.
  destruct (demo_hist.1 !! 2) as [s|] eqn:E; [|vm_compute in E; discriminate]. exists s.
  pose proof (hi_chunks _ _ _ demo_hist_inv _ _ E) as Hok. vm_compute in E. injection E as E.
  destruct (attach_announce demo_protocol demo_attach (2, 9) (attach_replay demo_options s).1 (demo_attach_world s)) as [e1 w1] eqn:E1.
  destruct (send_all demo_protocol 2 (2, 9) (delivered stream_state) w1) as [e2 w2] eqn:E2.
  exists w2. split; [by rewrite <- E|].
  assert (e1 = None /\ e2 = None /\ length (log (w_peer w2)) = 6%nat) as (-> & -> & Hl).
  { rewrite <- E in E1. apply (f_equal fst) in E1 as E1'. apply (f_equal snd) in E1. cbn [snd] in E1. subst w1.
    apply (f_equal fst) in E2 as E2'. apply (f_equal snd) in E2. cbn [snd] in E2. subst w2.
    vm_compute in E1'. vm_compute in E2'. split_and!; [by symmetry|by symmetry|vm_compute; reflexivity]. }
  split; [exact Hl|].
  pose proof (attachment_stream demo_protocol demo_attach (2, 9) demo_options s (nextHistory demo_hist.2) 16 stream_state
    (delivered stream_state) (demo_attach_world s) w1 w2) as H.
  assert ((attach_replay demo_options s).2 = stream_replay) as Hr by (rewrite <- E; vm_compute; reflexivity).
  assert (s_lastSequence s = 1) as Hs by (rewrite <- E; reflexivity).
  destruct (attach_replay demo_options s) as [result replay]. cbn [fst snd] in *. subst replay.
  destruct H as (f & b & md & outputs & tail & Hw & _ & _ & _ & Ho & Ht).
  - exact Hok.
  - rewrite Hs. cbn. lia.
  - rewrite Hs. reflexivity.
  - lia.
  - exact stream_state_reach.
  - rewrite Hs. intros e He. change (offered stream_state) with [output_event stream_live; exit_event demo_exit] in He.
    rewrite !elem_of_cons in He. destruct He as [He|[He|He]]; [injection He as ->; reflexivity|discriminate He|by apply not_elem_of_nil in He].
  - exact E1.
  - reflexivity.
  - exact E2.
  - apply Forall2_length in Ho. change (take (length (delivered stream_state)) stream_replay) with stream_replay in Ho.
    destruct outputs as [|x [|y outputs]]; [discriminate Ho| |discriminate Ho].
    cbn in Ht. destruct Ht as (live & final & mark & lives & finals & _ & _ & _ & _ & -> & Hm & _).
    exists [(f, TrafficControl); (b, TrafficControl); x], (lives ++ finals), mark. split; [exact Hw|]. split; [reflexivity|exact Hm].
Defined.
