(* ===== verification/PeerLink.v ===== *)
(** Two peers and the connection between them (peer.go, conn.go, codec.go): the
    scheduler of one peer calls [SendOwned] of its connection, the write loop writes
    to the stream, and [Serve] of the other peer decodes what the transport
    delivers. A step of the link is a step of one of the parts, or the call or the
    return of [SendOwned], or the return of [ReadFrame]; so every state of the link
    projects to reachable states of the parts, whose invariants apply. *)

From S2P Require Import Prelude Errors BigEndian Frame PeerConfig Outbound Scheduler Correlation Inbound Peer PeerRun Codec Conn.

(** ** Encodings are prefix free *)

Definition coded (f : Frame) : Prop :=
  header_wf (FHeader f) /\ PayloadLength (FHeader f) = len (Payload f).

Lemma encode_prefix_free f g x y :
  coded f -> coded g -> encode f ++ x = encode g ++ y -> f = g /\ x = y.
Proof.
  intros [Hf Lf] [Hg Lg] E. unfold encode in E. rewrite <- !app_assoc in E.
  apply app_inj_1 in E as [Eh E]; [|by rewrite !length_encodeHeader by apply length_header_array].
  apply (f_equal decodeHeader) in Eh. rewrite !decode_encodeHeader in Eh by (done || apply length_header_array).
  apply app_inj_1 in E as [Ep ->]; [|rewrite Eh in Lf; rewrite Lg in Lf; unfold len in Lf; lia].
  split; [|done]. destruct f, g; cbn in *. by subst.
Qed.

Lemma encodings_prefix fs gs : Forall coded fs -> Forall coded gs ->
  concat (map encode fs) `prefix_of` concat (map encode gs) -> fs `prefix_of` gs.
Proof.
  intros Hf. revert gs. induction Hf as [|f fs Hf _ IH]; intros gs Hg Hp; [apply prefix_nil|].
  destruct Hp as [z Hz]. cbn in Hz. destruct Hg as [|g gs Hg Hgs]; cbn in Hz.
  - apply (f_equal length) in Hz. rewrite !length_app, length_encode in Hz.
    change (Z.to_nat HeaderSize) with 28%nat in Hz. cbn in Hz. lia.
  - rewrite <- app_assoc in Hz. apply encode_prefix_free in Hz as [-> Hz]; [|done..].
    apply prefix_cons, IH; [done|]. by exists z.
Qed.

Lemma Validate_coded f config : config_wf config -> header_wf (FHeader f) -> Validate f config = None -> coded f.
Proof. intros Hc Hw Hv. split; [done|]. by apply (Validate_parts f config). Qed.

Lemma with_length_coded f : header_wf (FHeader f) -> len (Payload f) <= MaxUint32 -> coded (with_length f).
Proof.
  intros Hw Hl. split; [by apply with_length_wf|]. cbn. apply uwrap_small.
  pose proof (len_nonneg (Payload f)). unfold fits_u, MaxUint32 in *. lia.
Qed.

(** ** The stream holds a beginning of the frames the connection accepted *)

Section conn.
Context {W : Type} `{CloserLaws W}.
Implicit Types c : Conn W.

(** What one step does to the history of a connection. *)
Definition accepts c c' : Prop :=
  g_accepted c' = g_accepted c \/
  exists id req, calls c !! id = Some (AtEnqueue req) /\ calls c' !! id = Some (AtResult req) /\
    g_accepted c' = g_accepted c ++ [req].

Lemma setError_fields err c : calls (setError err c) = calls c /\ g_accepted (setError err c) = g_accepted c /\
  g_written (setError err c) = g_written c /\ encoder (setError err c) = encoder c /\ loop (setError err c) = loop c.
Proof. unfold setError. destruct err; [|done]. by destruct (conn_err c). Qed.

Lemma cancel_fields err c : calls (cancel err c) = calls c /\ g_accepted (cancel err c) = g_accepted c /\
  g_written (cancel err c) = g_written c /\ encoder (cancel err c) = encoder c /\ loop (cancel err c) = loop c.
Proof. unfold cancel. by destruct (ctx_err c). Qed.

#[local] Arguments setError : simpl never.
#[local] Arguments cancel : simpl never.

(** A step that writes nothing. *)
Lemma written_step stream config c c' : conn_inv stream config c -> conn_step c c' ->
  (written (writer (encoder c')) = written (writer (encoder c)) /\ accepts c c') \/
  exists req, loop c = LoopWriting req /\ loop_write req c = Some c' /\ g_accepted c' = g_accepted c.
Proof.
  intros I Hs. unfold accepts.
  destruct Hs as [c id frame Hn|c id req Hc Hw|c id req Hc Hw Hl|c id req err Hc|c id req Hc Hd|c id req err Hc Hr
    |c err Hl Hx|c c' Hl Hr|c req c' Hl Hw|c err Hl|c Hl|c err|c err|c Hx|c Hl|c streamErr Hl Hd].
  - left. unfold send_begin. destruct (Validate _ _); split; auto.
  - left. destruct (inv_waiting _ _ _ I _ _ Hc) as [<- _]. split; [done|]. right. exists (wr_id req), req.
    split_and!; [done| |done]. cbn. by rewrite lookup_insert_eq.
  - left. destruct (inv_waiting _ _ _ I _ _ Hc) as [<- _]. split; [done|]. right. exists (wr_id req), req.
    split_and!; [done| |done]. cbn. by rewrite lookup_insert_eq.
  - left. split; [done|by left].
  - left. split; [done|by left].
  - left. split; [done|by left].
  - left. destruct (setError_fields (Some err) c) as (_ & Ha & _ & He & _). cbn. rewrite Ha, He. split; [done|by left].
  - left. unfold loop_receive in Hr. destruct (writes c); [done|]. injection Hr as <-. split; [done|by left].
  - right. exists req. split_and!; [done..|]. unfold loop_write in Hw.
    apply bind_Some in Hw as ([e err] & _ & Hw). apply bind_Some in Hw as (buf & _ & Hw).
    destruct buf; [|done]. by destruct err; injection Hw as <-.
  - left. destruct (setError_fields (Some err) c) as (_ & Ha & _ & He & _). cbn. rewrite Ha, He. split; [done|by left].
  - left. cbn. rewrite CloseStream_written. split; [done|by left].
  - left. destruct (setError_fields (Some err) c) as (_ & Ha & _ & He & _). rewrite Ha, He. split; [done|by left].
  - left. destruct (cancel_fields err c) as (_ & Ha & _ & He & _). rewrite Ha, He. split; [done|by left].
  - left. cbn. rewrite CloseStream_written. split; [done|by left].
  - left. cbn. rewrite CloseStream_written. destruct (cancel_fields Canceled c) as (_ & Ha & _ & He & _).
    rewrite Ha, He. split; [done|by left].
  - left. unfold close_finish. destruct streamErr as [e|]; [destruct (errors_Is e ErrClosedPipe)|]; cbn;
      [split; [done|by left]| |split; [done|by left]].
    destruct (setError_fields (Some e) c) as (_ & Ha & _ & He & _). rewrite Ha, He. split; [done|by left].
Qed.

Lemma wire_of_app l k : wire_of (l ++ k) = wire_of l ++ wire_of k.
Proof. unfold wire_of. by rewrite map_app, concat_app. Qed.

Lemma wire_accepted stream config c : conn_reachable stream config c ->
  written (writer (encoder c)) `prefix_of` written stream ++ wire_of (g_accepted c).
Proof.
  induction 1 as [c HO|c c' Hr IH Hs].
  - unfold Open in HO. case_match; simplify_eq. cbn. by apply prefix_app_r.
  - pose proof (reachable_inv _ _ _ Hr) as I.
    destruct (written_step _ _ _ _ I Hs) as [[-> Ha]|(req & Hl & Hw & ->)].
    + destruct Ha as [->|(id & req & _ & _ & ->)]; [done|]. rewrite wire_of_app, (assoc_L (++)). by apply prefix_app_r.
    + destruct (writing_hand _ _ _ _ I Hl) as (Ha & _ & Hres & _ & _).
      destruct (inv_wire _ _ _ I) as (tail & Ht & Hn). rewrite Hl in Hn. rewrite (Hn eq_refl), app_nil_r in Ht.
      unfold loop_write in Hw. apply bind_Some in Hw as ([e err] & HW & Hw). rewrite Hres in Hw. cbn in Hw.
      apply WriteFrame_spec in HW as (_ & out & Hout & Hp & _).
      assert (writer (encoder c') = writer e) as -> by (by destruct err; injection Hw as <-).
      rewrite Hout, Ht, Ha, wire_of_app, <- !(assoc_L (++)). do 2 apply prefix_app.
      unfold wire_of. cbn. by apply prefix_app_r.
Qed.
End conn.

(** ** The scheduler's part in a step of a peer *)

(** SendOwned has failed, or will not be called again. *)
Definition sched_over (s : sched_pc) : bool :=
  match s with SReply _ _ (Some _) | SFail _ | SDone => true | _ => false end.
Definition in_SendOwned (s : sched_pc) : option outboundRequest :=
  match s with SSending _ req => Some req | _ => None end.

Inductive sched_move (a a' : World) : Prop :=
| sm_keep : w_taken a' = w_taken a -> w_sched a' = w_sched a -> sched_move a a'
| sm_other : w_taken a' = w_taken a -> in_SendOwned (w_sched a) = None -> in_SendOwned (w_sched a') = None ->
    (sched_over (w_sched a) = true -> sched_over (w_sched a') = true) -> sched_move a a'
| sm_take req : w_taken a' = w_taken a ++ [req] -> in_SendOwned (w_sched a) = None ->
    sched_over (w_sched a) = false -> in_SendOwned (w_sched a') = Some req -> sched_move a a'
| sm_sent s req r : w_sched a = SSending s req -> a' = sched_sent_step s req r a -> sched_move a a'.

Lemma step_sched cfg a a' : step cfg a a' -> sched_move a a'.
Proof.
  intros Hs. destruct Hs;
    try (match goal with H : w_sched _ = SSending _ _ |- _ => by eapply sm_sent end);
    try (apply sm_keep; step_all; reflexivity);
    try (match goal with H : w_sched _ = _ |- _ => apply sm_other; rewrite ?H; step_all; cbn; reflexivity || done end).
  step_all; cbn in *.
  - eapply sm_take; cbn; rewrite ?H; done.
  - apply sm_other; cbn; rewrite ?H; done.
  - apply sm_other; cbn; rewrite ?H; done.
Qed.

(** A request is taken once. *)
Lemma taken_nodup cfg a : peer_config_ok cfg -> reachable cfg a -> NoDup (req_id <$> w_taken a).
Proof.
  intros Hcfg Hr. destruct (reachable_core cfg Hcfg a Hr) as [C _].
  assert (NoDup (w_taken a)) as Hn.
  { apply NoDup_alt. intros i j r Hi Hj.
    destruct (co_fifo _ _ C (stream_of r)) as (rest & Hf & _).
    pose proof (NoDup_filter (fun q => stream_of q = stream_of r) _ (NoDup_fmap_1 _ _ (co_nodup _ _ C))) as Hnd.
    change (filter _ (w_enqueued a)) with (stream_reqs (stream_of r) (w_enqueued a)) in Hnd.
    rewrite Hf in Hnd. apply NoDup_app in Hnd as [Hnd _].
    destruct (decide (i = j)) as [|Hij]; [done|exfalso].
    assert (forall l (i j : nat), l !! i = Some r -> l !! j = Some r -> (i < j)%nat -> ~ NoDup (stream_reqs (stream_of r) l)) as Hdup.
    { clear. intros l i j Hi Hj Hlt. rewrite <- (take_drop_middle _ _ _ Hi), lookup_app_r in Hj;
        rewrite ?length_take, ?Nat.min_l in *; try (apply lookup_lt_Some in Hi; lia).
      replace (j - i)%nat with (S (j - S i)) in Hj by lia. cbn in Hj.
      unfold stream_reqs. rewrite <- (take_drop_middle _ _ _ Hi), filter_app, filter_cons, decide_True by done.
      intros (_ & _ & Hnd)%NoDup_app. apply NoDup_cons in Hnd as [Hni _]. apply Hni.
      apply list_elem_of_filter. split; [done|]. by apply list_elem_of_lookup_2 in Hj. }
    destruct (Nat.lt_ge_cases i j); [by eapply (Hdup _ i j)|eapply (Hdup _ j i); [done..|lia|done]]. }
  clear Hr. assert (forall l, NoDup l -> (forall r, r ∈ l -> r ∈ w_enqueued a) -> NoDup (req_id <$> l)) as Hgen.
  { induction 1 as [|r l Hni _ IH]; intros Hin; [constructor|]. cbn. constructor; [|apply IH; intros; apply Hin; by right].
    intros (q & Heq & Hq)%list_elem_of_fmap. apply Hni.
    assert (r = q) as ->; [|done]. eapply (nodup_fmap_inj req_id); [apply (co_nodup _ _ C)|..|done];
      [apply Hin; by left|apply Hin; by right]. }
  apply Hgen; [done|]. intros r. by apply (taken_enqueued cfg).
Qed.

(** ** The link *)

Section link.
Context {W : Type} `{CloserLaws W} {R : Type} `{ReaderLaws R}.
Context (cfga cfgb : PeerConfig) (stream : W) (config configb : Config).

(** The sending peer, its connection, the bytes its remote decoder has consumed,
    and the receiving peer. *)
Record Link := mkLink { ln_a : World; ln_conn : Conn W; ln_in : list byte; ln_b : World }.
Implicit Types l : Link.

(** [SendOwned] of request [req] is the call [req_id req] of the connection. *)
Definition owned (req : outboundRequest) : writeRequest := mkWriteRequest (req_id req) (req_frame req).

Definition initial_link (c : Conn W) : Link := mkLink initial_world c [] initial_world.

Inductive link_step : Link -> Link -> Prop :=
(* the sending peer; it stays in SendOwned until that returns *)
| lk_peer a' l :
    step cfga (ln_a l) a' -> (in_SendOwned (w_sched (ln_a l)) <> None -> w_sched a' = w_sched (ln_a l)) ->
    link_step l (mkLink a' (ln_conn l) (ln_in l) (ln_b l))
(* the call of SendOwned in schedule *)
| lk_call req l :
    in_SendOwned (w_sched (ln_a l)) = Some req -> calls (ln_conn l) !! req_id req = None ->
    link_step l (mkLink (ln_a l) (send_begin (req_id req) (req_frame req) (ln_conn l)) (ln_in l) (ln_b l))
(* the connection, but no other caller *)
| lk_conn c' l :
    conn_step (ln_conn l) c' -> (forall id, calls (ln_conn l) !! id = None -> calls c' !! id = None) ->
    link_step l (mkLink (ln_a l) c' (ln_in l) (ln_b l))
(* SendOwned returns to schedule *)
| lk_return s req r l :
    w_sched (ln_a l) = SSending s req -> calls (ln_conn l) !! req_id req = Some (Returned r) ->
    link_step l (mkLink (sched_sent_step s req r (ln_a l)) (ln_conn l) (ln_in l) (ln_b l))
(* ReadFrame in Serve: the transport delivers a part of what was written *)
| lk_read (r : R) fuel d frame bytes l :
    w_serve (ln_b l) = VRead -> ln_in l ++ contents r `prefix_of` written (writer (encoder (ln_conn l))) ->
    ReadFrame fuel (NewDecoder r configb) = Some (d, inl frame) -> contents r = bytes ++ contents (reader d) ->
    link_step l (mkLink (ln_a l) (ln_conn l) (ln_in l ++ bytes) (log_read frame (on_serve (VRecord frame) (ln_b l))))
(* the receiving peer *)
| lk_remote b' l :
    step cfgb (ln_b l) b' -> w_read b' = w_read (ln_b l) ->
    link_step l (mkLink (ln_a l) (ln_conn l) (ln_in l) b').

Inductive link_reachable : Link -> Prop :=
| lr_init c : Open stream config = inl c -> link_reachable (initial_link c)
| lr_step l l' : link_reachable l -> link_step l l' -> link_reachable l'.

Context (Hcfga : peer_config_ok cfga) (Hcfgb : peer_config_ok cfgb).
Context (Hstream : written stream = []) (Hconfigb : config_wf (withDefaults configb)).

(** ReadFrame returns frames whose type is not zero. *)
Lemma read_type fuel (r : R) d frame : ReadFrame fuel (NewDecoder r configb) = Some (d, inl frame) ->
  coded frame /\ MessageType (FHeader frame) <> 0 /\ contents r = encode frame ++ contents (reader d).
Proof.
  intros Hr. destruct (ReadFrame_sound fuel (NewDecoder r configb) d frame Hconfigb Hr) as (Hv & Hw & Hc & _).
  split; [by eapply Validate_coded|]. split; [|done].
  apply Validate_ok in Hv as (_ & Hh & _); [|done..]. unfold header_ok in Hh. cbn in Hh. tauto.
Qed.

Lemma link_projects l : link_reachable l ->
  reachable cfga (ln_a l) /\ conn_reachable stream config (ln_conn l) /\ reachable cfgb (ln_b l).
Proof.
  induction 1 as [c Hc|l l' _ (Ha & Hc & Hb) Hs].
  - split_and!; [constructor|by constructor|constructor].
  - destruct Hs as [a' l Hs _|req l Hq Hn|c' l Hs _|s req r l Hq Hn|r fuel d frame bytes l Hv Ht Hr _|b' l Hs _]; cbn;
      split_and!; try done.
    + by eapply reach_step.
    + eapply conn_next; [done|]. by apply step_send_begin.
    + by eapply conn_next.
    + eapply reach_step; [done|]. by apply st_sent.
    + eapply reach_step; [done|]. apply st_read; [done|]. by eapply read_type.
    + by eapply reach_step.
Qed.

(** ** Invariant *)

(** The connection has accepted the requests the scheduler handed to it, in order:
    all of them, but for the one in SendOwned, or after a failure. *)
Definition accepted_taken (a : World) (c : Conn W) : Prop :=
  match in_SendOwned (w_sched a) with
  | Some req => exists pre, w_taken a = pre ++ [req] /\
      (g_accepted c = owned <$> pre \/ g_accepted c = owned <$> w_taken a)
  | None => if sched_over (w_sched a) then g_accepted c `prefix_of` owned <$> w_taken a
            else g_accepted c = owned <$> w_taken a
  end.

Record link_inv (l : Link) : Prop := {
  li_accepted : accepted_taken (ln_a l) (ln_conn l);
  li_waits id q : calls (ln_conn l) !! id = Some (AtEnqueue q) ->
    exists req, in_SendOwned (w_sched (ln_a l)) = Some req /\ q = owned req;
  li_calls id : is_Some (calls (ln_conn l) !! id) -> id ∈ req_id <$> w_taken (ln_a l);
  li_read : ln_in l = concat (map encode (w_read (ln_b l))) /\ Forall coded (w_read (ln_b l)) /\
    ln_in l `prefix_of` written (writer (encoder (ln_conn l)));
}.

Lemma owned_ids (reqs : list outboundRequest) : wr_id <$> (owned <$> reqs) = req_id <$> reqs.
Proof. by rewrite <- list_fmap_compose. Qed.

(** Which of the two it is, by the state of the call. *)
Lemma flight_accepted (a : World) (c : Conn W) pre req : conn_inv stream config c -> NoDup (req_id <$> w_taken a) ->
  w_taken a = pre ++ [req] -> g_accepted c = owned <$> pre \/ g_accepted c = owned <$> w_taken a ->
  ((exists q, calls c !! req_id req = Some (AtResult q)) \/ calls c !! req_id req = Some (Returned None) ->
     g_accepted c = owned <$> w_taken a) /\
  (calls c !! req_id req = None \/ (exists q, calls c !! req_id req = Some (AtEnqueue q)) -> g_accepted c = owned <$> pre).
Proof.
  intros I Hnd Ht Hacc. split; intros Hc.
  - destruct Hacc as [Hacc|]; [exfalso|done].
    assert (req_id req ∈ wr_id <$> g_accepted c) as Hin.
    { destruct Hc as [[q Hc]|Hc].
      - destruct (inv_sent _ _ _ I _ _ Hc) as [<- ?]. by apply list_elem_of_fmap_2.
      - destruct (inv_returned_ok _ _ _ I _ Hc) as (q & Hq & <-). destruct (inv_fifo _ _ _ I) as (lost & -> & _).
        apply list_elem_of_fmap_2, elem_of_app. by left. }
    rewrite Hacc, owned_ids in Hin. rewrite Ht, fmap_app in Hnd. apply NoDup_app in Hnd as (_ & Hd & _).
    apply (Hd _ Hin). by left.
  - destruct Hacc as [|Hacc]; [done|exfalso].
    assert (owned req ∈ g_accepted c) as Hin.
    { rewrite Hacc. apply list_elem_of_fmap_2. rewrite Ht. apply elem_of_app. right. by left. }
    destruct (inv_accepted _ _ _ I _ Hin) as [Hx|[? Hx]]; cbn in Hx; destruct Hc as [Hc|[? Hc]]; congruence.
Qed.

(** No call waits that did not wait before, unless one begins. *)
Lemma step_waits (c c' : Conn W) : conn_step c c' -> (forall id, calls c !! id = None -> calls c' !! id = None) ->
  forall id q, calls c' !! id = Some (AtEnqueue q) -> calls c !! id = Some (AtEnqueue q).
Proof.
  intros Hs Hn id q Hq.
  assert (calls c' = calls c \/ (exists i pc, calls c' = <[i := pc]> (calls c) /\ forall q, pc <> AtEnqueue q)
    \/ exists i frame, calls c !! i = None /\ c' = send_begin i frame c) as Hcases.
  { destruct Hs as [c i frame Hi|c i req Hc Hw|c i req Hc Hw Hl|c i req err Hc|c i req Hc Hd|c i req err Hc Hr
      |c err Hl Hx|c c' Hl Hr|c req c' Hl Hw|c err Hl|c Hl|c err|c err|c Hx|c Hl|c streamErr Hl Hd];
      try (right; left; eexists _, _; split; [reflexivity|done]);
      try (left; unfold close_finish, loop_ctx_done, loop_set_error, setError, close_begin, cancel, loop_close in *;
        repeat case_match; reflexivity).
    - right. right. by exists i, frame.
    - left. unfold loop_receive in Hr. by destruct (writes c); [|injection Hr as <-].
    - left. unfold loop_write in Hw. apply bind_Some in Hw as ([e err] & _ & Hw).
      apply bind_Some in Hw as (buf & _ & Hw). destruct buf; [|done]. by destruct err; injection Hw as <-. }
  destruct Hcases as [Hc|[(i & pc & Hc & Hpc)|(j & frame & Hj & ->)]]; [by rewrite Hc in Hq| |].
  - rewrite Hc, lookup_insert in Hq. case_decide; [|done]. injection Hq as ->. by destruct (Hpc q).
  - specialize (Hn j Hj). unfold send_begin in Hn. destruct (Validate _ _); cbn in Hn; by rewrite lookup_insert_eq in Hn.
Qed.

Lemma link_inv_peer a' l : reachable cfga (ln_a l) -> step cfga (ln_a l) a' ->
  (in_SendOwned (w_sched (ln_a l)) <> None -> w_sched a' = w_sched (ln_a l)) ->
  link_inv l -> link_inv (mkLink a' (ln_conn l) (ln_in l) (ln_b l)).
Proof.
  intros Hra Hs Hstay [Hacc Hw Hc Hin]. destruct l as [a c bytes b]; cbn in *. unfold accepted_taken in *.
  destruct (step_sched _ _ _ Hs) as [Ht Hp|Ht Hp Hp' Ho|req Ht Hp Ho Hp'|s req r Hp He].
  - split; cbn; unfold accepted_taken; rewrite ?Ht, ?Hp; done.
  - rewrite Hp in Hacc. split; cbn; unfold accepted_taken; rewrite ?Ht, ?Hp'; try done.
    + destruct (sched_over (w_sched a)); [by rewrite Ho|]. destruct (sched_over (w_sched a')); by rewrite Hacc.
    + intros id q Hq. destruct (Hw _ _ Hq) as (req & Hr & _). congruence.
  - rewrite Hp, Ho in Hacc. split; cbn; unfold accepted_taken; rewrite ?Hp'; try done.
    + exists (w_taken a). split; [done|by left].
    + intros id q Hq. destruct (Hw _ _ Hq) as (req' & Hr & _). congruence.
    + intros id Hid. rewrite Ht, fmap_app. apply elem_of_app. left. by apply Hc.
  - rewrite Hp in Hstay. specialize (Hstay ltac:(done)). rewrite He in Hstay. by destruct r.
Qed.

Lemma link_inv_conn c' l : conn_inv stream config (ln_conn l) -> NoDup (req_id <$> w_taken (ln_a l)) ->
  conn_step (ln_conn l) c' -> (forall id, calls (ln_conn l) !! id = None -> calls c' !! id = None) ->
  link_inv l -> link_inv (mkLink (ln_a l) c' (ln_in l) (ln_b l)).
Proof.
  intros I Hnd Hs Hn [Hacc Hw Hc (Hi & Hco & Hp)]. destruct l as [a c bytes b]; cbn in *.
  assert (written (writer (encoder c)) `prefix_of` written (writer (encoder c')) /\ accepts c c') as [Hwr Hac].
  { destruct (written_step _ _ _ _ I Hs) as [[-> ?]|(req & Hl & HW & Ha)]; [done|]. split; [|by left].
    destruct (writing_hand _ _ _ _ I Hl) as (_ & _ & Hres & _). unfold loop_write in HW.
    apply bind_Some in HW as ([e err] & HW & HR). rewrite Hres in HR. cbn in HR.
    apply WriteFrame_spec in HW as (_ & out & Hout & _).
    assert (writer (encoder c') = writer e) as -> by (by destruct err; injection HR as <-).
    rewrite Hout. by apply prefix_app_r. }
  split; cbn.
  - unfold accepted_taken in *. destruct Hac as [->|(id & q & Hq & _ & ->)]; [done|].
    destruct (Hw _ _ Hq) as (req & Hr & ->). rewrite Hr in *. destruct Hacc as (pre & Ht & Hacc). exists pre. split; [done|right].
    destruct (inv_waiting _ _ _ I _ _ Hq) as [<- _].
    destruct (flight_accepted a c pre req I Hnd Ht Hacc) as [_ ->]; [|by right; eexists].
    by rewrite Ht, fmap_app.
  - intros id q Hq. eapply Hw, step_waits; done.
  - intros id Hid. apply Hc. destruct (calls c !! id) eqn:E; [by eexists|]. rewrite (Hn _ E) in Hid. by destruct Hid.
  - split_and!; [done..|]. by etrans.
Qed.

Lemma link_inv_return s req r l : conn_inv stream config (ln_conn l) -> NoDup (req_id <$> w_taken (ln_a l)) ->
  w_sched (ln_a l) = SSending s req -> calls (ln_conn l) !! req_id req = Some (Returned r) ->
  link_inv l -> link_inv (mkLink (sched_sent_step s req r (ln_a l)) (ln_conn l) (ln_in l) (ln_b l)).
Proof.
  intros I Hnd Hp Hret [Hacc Hw Hc Hin]. destruct l as [a c bytes b]; cbn in *. unfold accepted_taken in *.
  rewrite Hp in *. cbn in Hacc, Hw. destruct Hacc as (pre & Ht & Hacc).
  assert (w_taken (sched_sent_step s req r a) = w_taken a) as Ht' by (by destruct r).
  split; cbn; unfold accepted_taken; rewrite ?Ht'; try done.
  - destruct r as [e|]; cbn.
    + destruct Hacc as [->| ->]; [|done]. rewrite Ht, fmap_app. by apply prefix_app_r.
    + destruct (flight_accepted a c pre req I Hnd Ht Hacc) as [Hall _]. apply Hall. by right.
  - intros id q Hq. destruct (Hw _ _ Hq) as (req' & [= <-] & ->).
    destruct (inv_waiting _ _ _ I _ _ Hq) as [<- _]. cbn in Hq. congruence.
Qed.

Lemma link_inv_step l l' : reachable cfga (ln_a l) -> conn_inv stream config (ln_conn l) ->
  link_step l l' -> link_inv l -> link_inv l'.
Proof.
  intros Hra I Hs L. pose proof (taken_nodup cfga _ Hcfga Hra) as Hnd.
  destruct Hs as [a' l Hs Hst|req l Hq Hn|c' l Hs Hn|s req r l Hq Hn|r fuel d frame bytes l Hv Ht Hr Hb|b' l Hs Hk].
  - by apply link_inv_peer.
  - destruct L as [Hacc Hw Hc (Hi & Hco & Hp)]. destruct l as [a c bytes b]; cbn in *.
    assert (g_accepted (send_begin (req_id req) (req_frame req) c) = g_accepted c /\
      encoder (send_begin (req_id req) (req_frame req) c) = encoder c /\
      exists pc, calls (send_begin (req_id req) (req_frame req) c) = <[req_id req := pc]> (calls c) /\
        forall q, pc = AtEnqueue q -> q = owned req) as (Ha & He & pc & Hcalls & Hpc).
    { unfold send_begin. destruct (Validate _ _); cbn; (split; [done|]); (split; [done|]); eexists; (split; [done|]);
        [by intros q [=]|by intros q [= <-]]. }
    split; cbn; unfold accepted_taken; rewrite ?Ha, ?He, ?Hcalls; try done.
    + intros id q. rewrite lookup_insert. case_decide; [|by apply Hw]. intros [= ->]. exists req. eauto.
    + intros id Hid. rewrite lookup_insert in Hid. case_decide; [|by apply Hc]. subst id.
      unfold accepted_taken in Hacc. rewrite Hq in Hacc. destruct Hacc as (pre & -> & _).
      rewrite fmap_app. apply elem_of_app. right. by left.
  - by apply link_inv_conn.
  - by eapply link_inv_return.
  - destruct L as [Hacc Hw Hc (Hi & Hco & Hp)]. destruct l as [a c inb b]; cbn in *.
    apply read_type in Hr as (Hcf & _ & Hcont). rewrite Hcont in Hb. apply app_inv_tail in Hb as <-.
    split; cbn; try done. split_and!.
    + rewrite map_app, concat_app, Hi. cbn. by rewrite app_nil_r.
    + apply Forall_app. split; [done|]. by constructor.
    + rewrite Hcont, (assoc_L (++)) in Ht. etrans; [|exact Ht]. by apply prefix_app_r.
  - destruct L as [Hacc Hw Hc Hin]. destruct l as [a c inb b]; cbn in *. split; cbn; rewrite ?Hk; done.
Qed.

Lemma link_reachable_inv l : link_reachable l -> link_inv l.
Proof.
  induction 1 as [c HO|l l' Hr IH Hs].
  - unfold Open in HO. case_match; simplify_eq. split; cbn; try done.
    + intros id. rewrite lookup_empty. by intros [].
    + split_and!; [done|constructor|apply prefix_nil].
  - destruct (link_projects _ Hr) as (Ha & Hc & _). eapply link_inv_step; [done| |done..]. by apply reachable_inv.
Qed.

(** ** Properties *)

(** What the frame of a request is on the wire. *)
Definition sent_frame (req : outboundRequest) : Frame := with_length (req_frame req).

(** Nothing is under way: the scheduler waits with nothing queued, the connection
    has written what it accepted, the decoder has consumed what was written, and
    the receiving peer waits for the next frame with nothing queued. *)
Definition settled (l : Link) : Prop :=
  closed (w_peer (ln_a l)) = false /\ (exists s gen, w_sched (ln_a l) = SWaiting s gen) /\
  outbound (outb (w_peer (ln_a l))) = ∅ /\
  loop (ln_conn l) = LoopSelect /\ writes (ln_conn l) = [] /\
  ln_in l = written (writer (encoder (ln_conn l))) /\
  w_serve (ln_b l) = VRead /\ forall id, in_queue id (inb (w_peer (ln_b l))) = [].

Lemma stream_frames_filter id (P : Frame -> Prop) `{!forall f, Decision (P f)} fs :
  filter P (stream_frames id fs) = stream_frames id (filter P fs).
Proof.
  unfold stream_frames. induction fs as [|f fs IH]; [done|]. rewrite !filter_cons.
  destruct (decide (StreamID (FHeader f) = id)), (decide (P f)); rewrite ?filter_cons, ?IH;
    rewrite ?decide_True, ?decide_False by done; done.
Qed.

Lemma stream_frames_sent id reqs :
  stream_frames id (sent_frame <$> reqs) = sent_frame <$> stream_reqs id reqs.
Proof.
  unfold stream_frames, stream_reqs. induction reqs as [|r reqs IH]; [done|]. rewrite fmap_cons, !filter_cons, IH.
  change (StreamID (FHeader (sent_frame r))) with (stream_of r). by case_decide.
Qed.

Lemma filter_prefix {A} (P : A -> Prop) `{!forall x, Decision (P x)} k1 k2 :
  k1 `prefix_of` k2 -> filter P k1 `prefix_of` filter P k2.
Proof. intros [z ->]. rewrite filter_app. by apply prefix_app_r. Qed.

Lemma fmap_prefix {A B} (f : A -> B) k1 k2 : k1 `prefix_of` k2 -> f <$> k1 `prefix_of` f <$> k2.
Proof. intros [z ->]. rewrite fmap_app. by apply prefix_app_r. Qed.

Lemma wire_owned reqs : wire_of (owned <$> reqs) = concat (map encode (sent_frame <$> reqs)).
Proof. unfold wire_of, sent_frame. f_equal. induction reqs as [|r reqs IH]; [done|]. cbn. by rewrite IH. Qed.

(** The frames read are the first of those taken. *)
Lemma link_read_taken l : link_reachable l ->
  (forall req, req ∈ w_taken (ln_a l) -> header_wf (FHeader (req_frame req)) /\ len (Payload (req_frame req)) <= MaxUint32) ->
  w_read (ln_b l) `prefix_of` sent_frame <$> w_taken (ln_a l) /\
  (settled l -> w_read (ln_b l) = sent_frame <$> w_taken (ln_a l)).
Proof.
  intros Hr Hwf. destruct (link_reachable_inv l Hr) as [Hacc _ _ (Hi & Hco & Hp)].
  destruct (link_projects l Hr) as (Ha & Hc & Hb). unfold accepted_taken in Hacc.
  assert (Forall coded (sent_frame <$> w_taken (ln_a l))) as Hct.
  { apply Forall_fmap, Forall_forall. intros req Hq. apply Hwf in Hq as [? ?]. by apply with_length_coded. }
  assert (g_accepted (ln_conn l) `prefix_of` owned <$> w_taken (ln_a l)) as Hpre.
  { destruct (in_SendOwned _) as [req|].
    - destruct Hacc as (pre & -> & [->| ->]); [|done]. rewrite fmap_app. by apply prefix_app_r.
    - destruct (sched_over _); by rewrite Hacc. }
  split.
  - apply encodings_prefix; [done..|]. rewrite <- Hi, <- wire_owned. etrans; [exact Hp|].
    pose proof (wire_accepted _ _ _ Hc) as Hwire. rewrite Hstream in Hwire. cbn in Hwire. etrans; [exact Hwire|].
    destruct Hpre as [z ->]. rewrite wire_of_app. by apply prefix_app_r.
  - intros (_ & (s & gen & Hs) & _ & Hl & Hws & Hin & _ & _). rewrite Hs in Hacc. cbn in Hacc.
    pose proof (reachable_inv _ _ _ Hc) as I. destruct (inv_fifo _ _ _ I) as (lost & Hfa & Hlost).
    destruct (inv_wire _ _ _ I) as (tail & Ht & Htail). rewrite Hl in Hlost, Htail. cbn in Hlost, Htail.
    rewrite (Hlost eq_refl), Hws, app_nil_r in Hfa.
    rewrite (Htail eq_refl), app_nil_r, Hstream, <- Hfa, Hacc, wire_owned, <- Hin, Hi in Ht. cbn in Ht.
    assert (forall fs gs, Forall coded fs -> Forall coded gs -> concat (map encode fs) = concat (map encode gs) -> fs = gs) as Hinj.
    { intros fs gs Hf Hg He. apply (anti_symm prefix); apply encodings_prefix; (done || by rewrite He). }
    by apply Hinj.
Qed.

(** C2. From one peer to the handlers of the other. Let a peer send through its
    connection to another peer over any transport that delivers, in any pieces,
    what was written. In every state that any interleaving of the goroutines of
    both peers, the connection, failures and closing included, can reach, the
    frames that the handlers of the receiving peer were given for a stream are the
    first of the requests and events the sending peer accepted for that stream, in
    the order in which its sends queued them, each once and unchanged but for the
    length field, which is that of the payload. When nothing is under way they are
    all of them: nothing is lost, repeated or reordered. *)
Theorem peer_end_to_end l id : link_reachable l ->
  (forall req, req ∈ w_enqueued (ln_a l) -> header_wf (FHeader (req_frame req)) /\ len (Payload (req_frame req)) <= MaxUint32) ->
  stream_frames id (w_handled (ln_b l)) `prefix_of` filter is_request (sent_frame <$> stream_reqs id (w_enqueued (ln_a l))) /\
  (settled l ->
   stream_frames id (w_handled (ln_b l)) = filter is_request (sent_frame <$> stream_reqs id (w_enqueued (ln_a l)))).
Proof.
  intros Hr Hwf. destruct (link_projects l Hr) as (Ha & Hc & Hb).
  destruct (reachable_core cfga Hcfga _ Ha) as [C _].
  destruct (link_read_taken l Hr) as [Hread Hall]; [intros req Hq; by eapply Hwf, taken_enqueued|].
  pose proof (reachable_read_history _ _ Hb) as Hh. pose proof (ih_fifo _ (reachable_inbound cfgb _ Hcfgb Hb) id) as Hf.
  destruct (co_fifo _ _ C id) as (rest & He & Hq). split.
  - transitivity (stream_frames id (w_accepted (ln_b l))); [rewrite Hf; by apply prefix_app_r|].
    etrans; [apply filter_prefix, (accepted_read _ Hh)|].
    change (stream_frames id (filter is_request (w_read (ln_b l))) `prefix_of`
      filter is_request (sent_frame <$> stream_reqs id (w_enqueued (ln_a l)))).
    rewrite <- stream_frames_filter. apply filter_prefix. transitivity (stream_frames id (sent_frame <$> w_taken (ln_a l))).
    + by apply filter_prefix.
    + rewrite stream_frames_sent, He, fmap_app. by apply prefix_app_r.
  - intros Hset. pose proof (Hall Hset) as Hra. destruct Hset as (Hop & _ & Hout & _ & _ & _ & Hv & Hin).
    rewrite (Hin id), app_nil_r in Hf. rewrite <- Hf. destruct Hh as (left & Hh & _ & Hl).
    rewrite Hv in Hl. rewrite (Hl I), app_nil_r in Hh. rewrite <- Hh, <- stream_frames_filter, Hra, stream_frames_sent. do 2 f_equal.
    rewrite He, (Hq Hop). unfold queue_of. by rewrite Hout, lookup_empty, app_nil_r.
Qed.
End link.

(** ** Example: one event, over a writer of three bytes per call *)

Definition demo_link_step := link_step (R := chunked) demo_full_cfg demo_in_cfg DefaultConfig.
Definition demo_link_reachable := link_reachable (R := chunked) demo_full_cfg demo_in_cfg demo_stream DefaultConfig DefaultConfig.

Section runs.
Context (a : World) (c : Conn quota_writer) (bytes : list byte) (b : World).

Lemma run_peer a' : demo_link_reachable (mkLink a c bytes b) ->
  rtc (fun a a' => step demo_full_cfg a a' /\ in_SendOwned (w_sched a) = None) a a' ->
  demo_link_reachable (mkLink a' c bytes b).
Proof.
  intros Hr Hs. revert Hr. induction Hs as [|a a1 a' [H1 H2] _ IH]; [done|]. intros Hr. apply IH.
  eapply lr_step; [exact Hr|]. apply (lk_peer _ _ _ _ (mkLink a c bytes b)); [done|]. cbn. by rewrite H2.
Qed.

Lemma run_remote b' : demo_link_reachable (mkLink a c bytes b) ->
  rtc (fun b b' => step demo_in_cfg b b' /\ w_read b' = w_read b) b b' -> demo_link_reachable (mkLink a c bytes b').
Proof.
  intros Hr Hs. revert Hr. induction Hs as [|b b1 b' [H1 H2] _ IH]; [done|]. intros Hr. apply IH.
  eapply lr_step; [exact Hr|]. by apply (lk_remote _ _ _ _ (mkLink a c bytes b)).
Qed.

Lemma run_conn c' : demo_link_reachable (mkLink a c bytes b) ->
  rtc (fun c c' => conn_step c c' /\ forall id, calls c !! id = None -> calls c' !! id = None) c c' ->
  demo_link_reachable (mkLink a c' bytes b).
Proof.
  intros Hr Hs. revert Hr. induction Hs as [|c c1 c' [H1 H2] _ IH]; [done|]. intros Hr. apply IH.
  eapply lr_step; [exact Hr|]. by apply (lk_conn _ _ _ _ (mkLink a c bytes b)).
Qed.

Lemma run_read (r : chunked) fuel d frame more :
  demo_link_reachable (mkLink a c bytes b) -> w_serve b = VRead ->
  bytes ++ contents r `prefix_of` written (writer (encoder c)) ->
  ReadFrame fuel (NewDecoder r DefaultConfig) = Some (d, inl frame) -> contents r = more ++ contents (reader d) ->
  demo_link_reachable (mkLink a c (bytes ++ more) (log_read frame (on_serve (VRecord frame) b))).
Proof. intros Hr Hv Hp Hf Hc. eapply lr_step; [exact Hr|]. by eapply (lk_read _ _ _ _ _ _ _ _ (mkLink a c bytes b)). Qed.
End runs.

Definition demo_link_req : outboundRequest := demo_event_request 0.
Definition demo_a1 : World := demo_emit initial_world.
Definition demo_a2 : World := sched_scan_step demo_full_cfg initial_sched demo_a1.
Definition demo_a_sched : Sched := match w_sched demo_a2 with SSending s _ => s | _ => initial_sched end.
Definition demo_a3 : World := sched_sent_step demo_a_sched demo_link_req None demo_a2.
Definition demo_a4 : World :=
  on_sched (SReply demo_a_sched demo_link_req None) (on_peer (record_sent (demo_in_frame 3) (w_peer demo_a3)) demo_a3).
Definition demo_a5 : World := on_sched (SScan demo_a_sched) (on_peer (set_results {[0%N := [None]]} (w_peer demo_a4)) demo_a4).
Definition demo_a6 : World := sched_scan_step demo_full_cfg demo_a_sched demo_a5.

Definition demo_c1 : Conn quota_writer := send_begin 0 (demo_in_frame 3) demo_open.
Definition demo_c2 : Conn quota_writer := send_enqueue (owned demo_link_req) demo_c1.
Definition demo_c3 : Conn quota_writer := default demo_c2 (loop_receive demo_c2).
Definition demo_c4 : Conn quota_writer := default demo_c3 (loop_write (owned demo_link_req) demo_c3).
Definition demo_c5 : Conn quota_writer := upd_result 0 [] (upd_call 0 (Returned None) demo_c4).

Definition demo_b1 : World := log_read (demo_in_frame 3) (on_serve (VRecord (demo_in_frame 3)) demo_i0).
Definition demo_b2 : World := worker_step 3 0 demo_i1.

Lemma demo_conn_run : rtc (fun c c' => conn_step c c' /\ forall id, calls c !! id = None -> calls c' !! id = None) demo_c1 demo_c5.
Proof.
  assert (forall (c c' : Conn quota_writer) pc pc', calls c = {[0%N := pc]} -> calls c' = {[0%N := pc']} ->
    forall id, calls c !! id = None -> calls c' !! id = None) as Hk.
  { intros c c' pc pc' -> -> id Hn. apply lookup_singleton_None in Hn. by apply lookup_singleton_None. }
  eapply rtc_l; [split; [apply (step_send_enqueue demo_c1 0 (owned demo_link_req)); demo_step|eapply Hk; demo_step]|].
  eapply rtc_l; [split; [apply (step_loop_receive demo_c2 demo_c3); demo_step|eapply Hk; demo_step]|].
  eapply rtc_l; [split; [apply (step_loop_write demo_c3 (owned demo_link_req) demo_c4); demo_step|eapply Hk; demo_step]|].
  apply rtc_once. split; [apply (step_send_result demo_c4 0 (owned demo_link_req) None); demo_step|eapply Hk; demo_step].
Qed.

Lemma demo_link1 : demo_link_reachable (mkLink demo_a2 demo_open [] initial_world).
Proof.
  apply (run_peer initial_world); [apply (lr_init _ _ _ _ _ demo_open); demo_step|].
  eapply rtc_l; [split; [apply (st_send _ true (demo_in_frame 3) TrafficBulk)|demo_step]|].
  eapply rtc_l; [split; [apply (st_begin _ 0 None true (demo_in_frame 3) TrafficBulk); demo_step|demo_step]|].
  eapply rtc_l; [split; [apply (st_loop _ 0 None demo_link_req); demo_step|demo_step]|].
  apply rtc_once. split; [apply (st_scan _ initial_sched); demo_step|demo_step].
Qed.

Lemma demo_link2 : demo_link_reachable (mkLink demo_a3 demo_c5 [] initial_world).
Proof.
  eapply lr_step; [|apply (lk_return _ _ _ demo_a_sched demo_link_req None (mkLink demo_a2 demo_c5 [] initial_world)); demo_step].
  apply (run_conn demo_a2 demo_c1); [|exact demo_conn_run].
  eapply lr_step; [exact demo_link1|]. apply (lk_call _ _ _ demo_link_req (mkLink demo_a2 demo_open [] initial_world)); demo_step.
Qed.

Lemma demo_link3 : demo_link_reachable (mkLink demo_a6 demo_c5 [] demo_i0).
Proof.
  apply (run_remote demo_a6 demo_c5 [] initial_world).
  2: { eapply rtc_l; [split; [by apply (st_register _ [(5, Some 1%N)])|demo_step]|].
       apply rtc_once. split; [apply st_serve; demo_step|demo_step]. }
  apply (run_peer demo_a3); [exact demo_link2|].
  apply (rtc_l _ _ demo_a4); [split; [apply (st_record_sent _ demo_a_sched demo_link_req); demo_step|demo_step]|].
  apply (rtc_l _ _ demo_a5); [split|].
  - apply (st_reply _ demo_a_sched demo_link_req None {[0%N := [None]]}); demo_step.
  - demo_step.
  - apply rtc_once. unfold demo_a6. split; [apply (st_scan demo_full_cfg demo_a_sched demo_a5); demo_step|demo_step].
Qed.

Definition demo_settled : Link := mkLink demo_a6 demo_c5 ([] ++ encode (demo_in_frame 3)) demo_b2.

Lemma demo_settled_reachable : demo_link_reachable demo_settled.
Proof.
  apply (run_remote demo_a6 demo_c5 ([] ++ encode (demo_in_frame 3)) demo_b1).
  - apply (run_read demo_a6 demo_c5 [] demo_i0 (mkChunked [encode (demo_in_frame 3)]) 50
      (NewDecoder (mkChunked []) DefaultConfig)); [exact demo_link3|..].
    + demo_step.
    + exists []. demo_step.
    + demo_step.
    + demo_step.
  - eapply rtc_l; [split; [apply (st_record_received _ (demo_in_frame 3)); demo_step|demo_step]|].
    apply (rtc_l _ _ demo_i1); [split; [apply (st_dispatch _ (demo_in_frame 3) false); demo_step|demo_step]|].
    apply rtc_once. split; [apply (st_worker demo_in_cfg 3 0); demo_step|demo_step].
Qed.

(** The event has reached the handler, and nothing else has. *)
Lemma peer_end_to_end_witness : stream_frames 3 (w_handled demo_b2) = [demo_in_frame 3].
Proof.
  assert (written demo_stream = []) as Hstream by demo_step.
  destruct (peer_end_to_end (W := quota_writer) (R := chunked) demo_full_cfg demo_in_cfg demo_stream DefaultConfig DefaultConfig
    demo_full_cfg_ok demo_in_cfg_ok Hstream DefaultConfig_wf demo_settled 3 demo_settled_reachable) as [_ Hall].
  - change (w_enqueued (ln_a demo_settled)) with [demo_link_req]. intros req ->%list_elem_of_singleton. unfold header_wf, fits_u. concrete.
  - change (stream_frames 3 (w_handled (ln_b demo_settled)) = [demo_in_frame 3]). rewrite Hall; [reflexivity|]. split; [reflexivity|]. split; [eexists _, _; reflexivity|].
    split; [reflexivity|]. split; [reflexivity|]. split; [reflexivity|]. split; [vm_compute; reflexivity|].
    split; [reflexivity|]. intros id. unfold in_queue. destruct (inbound (inb (w_peer (ln_b demo_settled))) !! id) as [r|] eqn:E; [|done].
    change (inbound (inb (w_peer (ln_b demo_settled)))) with ({[3 := 0%N]} : gmap Z N) in E.
    apply lookup_singleton_Some in E as [<- <-]. reflexivity.
Defined.
