(* ===== verification/PeerClose.v ===== *)
(** peer.go: [Close] of a Peer, and what its waits wait for. After [fail] the
    scheduler and the workers have a bounded amount of work left, whatever the
    other goroutines do; when it is done the peer does nothing more. A Call that has
    panicked with the mutex held keeps [Close] from returning. *)

From S2P Require Import Prelude Errors BigEndian Frame PeerConfig Outbound Scheduler Correlation Inbound Peer PeerRun.

(** ** The call *)

(** Where a call of [Close] is: before [fail], in [scheduler.Wait], in
    [workers.Wait], returned; [fail] and [result], at its end, take p.mu. *)
Inductive peer_close_pc := PCFail | PCScheduler | PCWorkers | PCReturn (r : option error).

Section close.
Context (cfg : PeerConfig).

Inductive peer_close_step : World * peer_close_pc -> World * peer_close_pc -> Prop :=
(* every other goroutine, other calls of Close included *)
| pc_other c w w' : step cfg w w' -> peer_close_step (w, c) (w', c)
| pc_fail p w :
    fail ErrPeerClosed (w_peer w) = Some p -> w_locked w = false -> peer_close_step (w, PCFail) (on_peer p w, PCScheduler)
| pc_scheduler w : w_sched w = SDone -> peer_close_step (w, PCScheduler) (w, PCWorkers)
| pc_workers w :
    w_workers w = ∅ -> w_locked w = false -> peer_close_step (w, PCWorkers) (w, PCReturn (Close_result (w_peer w))).

(** A call begins in any state of the peer. *)
Inductive peer_close_reachable : World * peer_close_pc -> Prop :=
| pcr_begin w : reachable cfg w -> peer_close_reachable (w, PCFail)
| pcr_step x y : peer_close_reachable x -> peer_close_step x y -> peer_close_reachable y.

(** ** The work that is left *)

(** Of a worker, besides the frames of its stream. *)
Definition pc_work (pc : worker_pc) : Z := match pc with KLoop => 1 | KRun _ _ => 4 | KError _ => 3 | KFail _ => 2 end.
Definition worker_work (i : Inbound) (ref : N) (k : Z * worker_pc) : Z := pc_work k.2 + 4 * len (is_frames (in_state ref i)).
Definition sched_work (s : sched_pc) : Z :=
  match s with
  | SSending _ _ => 5 | SRecord _ _ => 4 | SReply _ _ _ => 3 | SFail _ => 2 | SWaiting _ _ => 2 | SScan _ => 1 | SDone => 0
  end.

Definition works (i : Inbound) (k : gmap N (Z * worker_pc)) : gmap N Z := map_imap (fun ref x => Some (worker_work i ref x)) k.
Definition close_work (w : World) : Z := map_sumZ id (works (inb (w_peer w)) (w_workers w)) + sched_work (w_sched w).

Lemma pc_work_pos pc : 0 < pc_work pc.
Proof. by destruct pc. Qed.
Lemma worker_work_pos i ref k : 0 < worker_work i ref k.
Proof. unfold worker_work. pose proof (pc_work_pos k.2). pose proof (len_nonneg (is_frames (in_state ref i))). lia. Qed.
Lemma sched_work_nonneg s : 0 <= sched_work s.
Proof. by destruct s. Qed.

Lemma works_lookup i k ref : works i k !! ref = worker_work i ref <$> k !! ref.
Proof. unfold works. rewrite map_lookup_imap. by destruct (k !! ref). Qed.

Lemma workers_work_nonneg i k : 0 <= map_sumZ id (works i k).
Proof.
  apply map_sumZ_nonneg. intros ref x. rewrite works_lookup. destruct (k !! ref); [|done].
  intros [= <-]. unfold id. pose proof (worker_work_pos i ref p). lia.
Qed.

Lemma close_work_nonneg w : 0 <= close_work w.
Proof. unfold close_work. pose proof (workers_work_nonneg (inb (w_peer w)) (w_workers w)). pose proof (sched_work_nonneg (w_sched w)). lia. Qed.

(** One worker moves, or ends. *)
Lemma works_move i i' k ref x y : k !! ref = Some x -> (forall r, r <> ref -> is_frames (in_state r i') = is_frames (in_state r i)) ->
  worker_work i' ref y < worker_work i ref x -> map_sumZ id (works i' (<[ref := y]> k)) < map_sumZ id (works i k).
Proof.
  intros Hk Hi Hlt. assert (works i' (<[ref := y]> k) = <[ref := worker_work i' ref y]> (works i k)) as ->.
  { apply map_eq. intros r. rewrite works_lookup, !lookup_insert. case_decide as E; [by subst|].
    rewrite works_lookup. destruct (k !! r); [|done]. cbn. unfold worker_work. by rewrite Hi. }
  rewrite (map_sumZ_insert _ _ _ (worker_work i ref x)) by (by rewrite works_lookup, Hk). unfold id. lia.
Qed.

Lemma works_end i i' k ref x : k !! ref = Some x -> (forall r, r <> ref -> is_frames (in_state r i') = is_frames (in_state r i)) ->
  map_sumZ id (works i' (delete ref k)) < map_sumZ id (works i k).
Proof.
  intros Hk Hi. assert (works i' (delete ref k) = delete ref (works i k)) as ->.
  { apply map_eq. intros r. rewrite works_lookup, !lookup_delete. case_decide as E; [by subst|].
    rewrite works_lookup. destruct (k !! r); [|done]. cbn. unfold worker_work. by rewrite Hi. }
  rewrite (map_sumZ_delete _ (works i k) ref (worker_work i ref x)) by (by rewrite works_lookup, Hk).
  pose proof (worker_work_pos i ref x). unfold id at 2. lia.
Qed.

(** ** A step of a closed peer *)

(** What [Close] waits for is as it was. *)
Record idle_step (w w' : World) : Prop := {
  id_sched : w_sched w' = w_sched w;
  id_workers : w_workers w' = w_workers w;
  id_inb : inb (w_peer w') = inb (w_peer w);
  id_handled : w_handled w' = w_handled w;
  id_written : w_written w' = w_written w;
}.

Lemma idle_work w w' : idle_step w w' -> close_work w' = close_work w.
Proof. intros [E1 E2 E3 _ _]. unfold close_work. by rewrite E1, E2, E3. Qed.

Lemma closed_outb w : core cfg w -> closed (w_peer w) = true -> outb (w_peer w) = empty_outbound.
Proof. intros C Hc. by apply (pk_closed _ _ (co_peer _ _ C) Hc). Qed.

Lemma scan_closed w s : core cfg w -> closed (w_peer w) = true -> exists s' o, scan cfg s (outb (w_peer w)) = (None, s', o).
Proof.
  intros C Hc. pose proof (scan_empty cfg s (outb (w_peer w)) (pk_out _ _ (co_peer _ _ C))) as E.
  rewrite (closed_outb w C Hc) in *. specialize (E eq_refl). destruct (scan cfg s empty_outbound) as [[r s'] o].
  cbn in E. subst r. by eexists _, _.
Qed.

Lemma sched_less w w' : inb (w_peer w') = inb (w_peer w) -> w_workers w' = w_workers w ->
  sched_work (w_sched w') < sched_work (w_sched w) -> close_work w' < close_work w.
Proof. intros E1 E2 H. unfold close_work. rewrite E1, E2. lia. Qed.

Lemma worker_less w w' ref x : w_workers w !! ref = Some x -> w_sched w' = w_sched w ->
  (forall r, r <> ref -> is_frames (in_state r (inb (w_peer w'))) = is_frames (in_state r (inb (w_peer w)))) ->
  (w_workers w' = delete ref (w_workers w) \/ exists y, w_workers w' = <[ref := y]> (w_workers w) /\
     worker_work (inb (w_peer w')) ref y < worker_work (inb (w_peer w)) ref x) ->
  close_work w' < close_work w.
Proof.
  intros Hx Es Hi Hk. unfold close_work. rewrite Es. destruct Hk as [->|(y & -> & Hlt)].
  - pose proof (works_end _ _ _ _ _ Hx Hi). lia.
  - pose proof (works_move _ _ _ _ _ _ Hx Hi Hlt). lia.
Qed.

Lemma worker_step_less w id ref : w_workers w !! ref = Some (id, KLoop) -> close_work (worker_step id ref w) < close_work w.
Proof.
  intros Hk. unfold worker_step, worker_iteration, worker_section.
  destruct (is_frames (in_state ref (inb (w_peer w)))) as [|frame rest] eqn:Ef.
  - apply (worker_less w _ ref (id, KLoop)); [done..| |by left]. intros r _. cbn. by case_bool_decide.
  - set (p := signalLocked _).
    assert (forall r, r <> ref -> is_frames (in_state r (inb p)) = is_frames (in_state r (inb (w_peer w)))) as Hi.
    { intros r Hr. cbn. rewrite in_state_set. by rewrite decide_False by congruence. }
    assert (forall pc, pc_work pc <= 4 -> worker_work (inb p) ref (id, pc) < worker_work (inb (w_peer w)) ref (id, KLoop)) as Hw.
    { intros pc Hpc. unfold worker_work. cbn. rewrite in_state_set, decide_True, Ef, len_cons by done. cbn. lia. }
    destruct (handlers (w_peer w) !! _); apply (worker_less w _ ref (id, KLoop)); try done; right; eexists; (split; [done|by apply Hw]).
Qed.

Lemma closed_step w w' : core cfg w -> closed (w_peer w) = true -> step cfg w w' ->
  (idle_step w w' \/ close_work w' < close_work w) /\ w_taken w' = w_taken w /\ w_accepted w' = w_accepted w.
Proof.
  intros C Hc Hs. destruct Hs;
    try (match goal with H : fail _ _ = Some _ |- _ => rewrite fail_closed in H by done; injection H as <- end).
  all: try (split; [left; split|split]; step_unfold; done).
  - destruct (scan_closed w s C Hc) as (s' & o & E). unfold sched_scan_step, schedule_section. rewrite E, Hc.
    split; [right|done]. apply sched_less; [done..|]. by rewrite H.
  - split; [right|done]. apply sched_less; [done..|]. by rewrite H.
  - split; [right|done]. apply sched_less; [done..|]. by rewrite H.
  - split; [right|by destruct r]. destruct r; (apply sched_less; [done..|]); by rewrite H.
  - split; [right|done]. apply sched_less; [done..|]. by rewrite H.
  - split; [right|done]. apply sched_less; [done..|]. rewrite H. by destruct r.
  - split; [right|done]. apply sched_less; [done..|]. by rewrite H.
  - unfold dispatch_step, dispatch_iteration, dispatch_section. rewrite Hc. cbn. split; [left; by split|done].
  - split; [right; by apply worker_step_less|]. unfold worker_step. destruct (worker_iteration _ _ _) as [[[? [?|]]|] ?]; done.
  - split; [right|done]. apply (worker_less w _ ref (id, KRun frame h)); [done..|]. right. eexists. split; [done|].
    unfold worker_work. by destruct r; cbn; lia.
  - split; [right|done]. apply (worker_less w _ ref (id, KError e)); [done..|]. right. eexists. split; [done|].
    unfold worker_work. cbn. lia.
  - split; [right|done]. apply (worker_less w _ ref (id, KFail e)); [done..|]. by left.
Qed.

(** ** Close *)

(** Nothing of the peer's own runs any more. *)
Definition quiescent (w : World) : Prop := w_sched w = SDone /\ w_workers w = ∅.

Lemma closed_progress w : core cfg w -> closed (w_peer w) = true -> w_locked w = false -> ~ quiescent w ->
  exists w', step cfg w w' /\ close_work w' < close_work w /\ w_locked w' = false.
Proof.
  intros C Hc Hun Hq. assert (w_sched w <> SDone \/ w_workers w <> ∅) as [Hs|Hk].
  { destruct (decide (w_workers w = ∅)); [left|by right]. intros ?. by apply Hq. }
  - assert (exists w', step cfg w w' /\ w_sched w' <> w_sched w /\ w_locked w' = false) as (w' & Hst & Hne & Hun').
    { destruct (w_sched w) as [s|s gen|s req|s req|s req r|e|] eqn:E; [..|done].
      - eexists. split; [by apply st_scan|]. destruct (scan_closed w s C Hc) as (s' & o & Es).
        unfold sched_scan_step, schedule_section. rewrite Es, Hc. by split.
      - eexists. split; [by eapply st_sched_done|done].
      - eexists. split; [by apply (st_sent cfg s req (Some Canceled))|done].
      - eexists. split; [by apply st_record_sent|done].
      - destruct (co_flight _ _ C req) as [_ Hl]; [by rewrite E|].
        eexists. split; [eapply st_reply; [done|by apply chan_send_empty]|]. by destruct r; split.
      - eexists. split; [eapply st_sched_fail; [done|by apply fail_closed|done]|done]. }
    destruct (closed_step w w' C Hc Hst) as [[[Hi _ _ _ _]|Hlt] _]; [done|by exists w'].
  - apply map_choose in Hk as (ref & [id pc] & Hid).
    assert (exists w', step cfg w w' /\ w_workers w' !! ref <> Some (id, pc) /\ w_locked w' = false) as (w' & Hst & Hne & Hun').
    { destruct pc as [|frame h|e|e].
      - eexists. split; [by apply st_worker|]. unfold worker_step.
        destruct (worker_iteration id ref (w_peer w)) as [[[f [h|]]|] p]; cbn;
          rewrite ?lookup_insert_eq, ?lookup_delete_eq; by split.
      - eexists. split; [by apply (st_handler cfg id ref frame h None)|]. cbn. rewrite lookup_insert_eq. by split.
      - eexists. split; [by apply st_worker_error|]. cbn. rewrite lookup_insert_eq. by split.
      - eexists. split; [eapply st_worker_fail; [done|by apply fail_closed|done]|]. cbn. rewrite lookup_delete_eq. by split. }
    destruct (closed_step w w' C Hc Hst) as [[[_ Hi _ _ _]|Hlt] _]; [by rewrite Hi in Hne|by exists w'].
Qed.
Lemma quiescent_work w : quiescent w -> close_work w = 0.
Proof.
  intros [Hs Hk]. unfold close_work, works. rewrite Hs, Hk, map_imap_empty, map_sumZ_empty. done.
Qed.

(** A quiescent peer does nothing more. *)
Record same_outcome (w w' : World) : Prop := {
  so_quiescent : quiescent w';
  so_taken : w_taken w' = w_taken w;
  so_written : w_written w' = w_written w;
  so_accepted : w_accepted w' = w_accepted w;
  so_handled : w_handled w' = w_handled w;
  so_result : Close_result (w_peer w') = Close_result (w_peer w);
}.

Lemma close_result_step w w' : core cfg w -> closed (w_peer w) = true -> step cfg w w' ->
  Close_result (w_peer w') = Close_result (w_peer w).
Proof.
  intros C Hc Hs. unfold Close_result, result, Err. rewrite (step_err cfg w w'); [done|apply C|done|].
  pose proof (pk_err _ _ (co_peer _ _ C)) as He. rewrite Hc in He. symmetry in He. by apply bool_decide_eq_true in He.
Qed.

Lemma quiescent_step w w' : core cfg w -> closed (w_peer w) = true -> quiescent w -> step cfg w w' -> same_outcome w w'.
Proof.
  intros C Hc Hq Hs. destruct (closed_step w w' C Hc Hs) as ([[E1 E2 _ E3 E4]|Hlt] & Et & Ea).
  - destruct Hq. split; try done; [by split; congruence|]. by apply close_result_step.
  - rewrite (quiescent_work w Hq) in Hlt. pose proof (close_work_nonneg w'). lia.
Qed.

Lemma quiescent_for_ever w w' : peer_config_ok cfg -> reachable cfg w -> closed (w_peer w) = true -> quiescent w ->
  rtc (step cfg) w w' -> same_outcome w w'.
Proof.
  intros Hcfg Hr Hc Hq Hs. revert Hr Hc Hq. induction Hs as [w|w w1 w' Hs _ IH]; intros Hr Hc Hq; [by split|].
  destruct (reachable_core cfg Hcfg w Hr) as [C _]. pose proof (quiescent_step w w1 C Hc Hq Hs) as [].
  destruct IH; [by eapply reach_step|by eapply step_closed|done|]. split; (done || congruence).
Qed.

Lemma closed_drains w : peer_config_ok cfg -> reachable cfg w -> closed (w_peer w) = true -> w_locked w = false ->
  exists w', rtc (step cfg) w w' /\ quiescent w' /\ w_locked w' = false.
Proof.
  intros Hcfg. remember (Z.to_nat (close_work w)) as n eqn:E. revert w E.
  induction n as [n IH] using lt_wf_ind. intros w -> Hr Hc Hun.
  assert (quiescent w \/ ~ quiescent w) as [Hq|Hq]; [|by exists w|].
  { unfold quiescent. destruct (decide (w_workers w = ∅)); [|by right; intros []].
    destruct (w_sched w); (by left) || (right; by intros []). }
  destruct (reachable_core cfg Hcfg w Hr) as [C _]. destruct (closed_progress w C Hc Hun Hq) as (w1 & Hs & Hlt & Hun1).
  pose proof (close_work_nonneg w1).
  destruct (IH (Z.to_nat (close_work w1)) ltac:(lia) w1 eq_refl) as (w' & Hr' & Hq');
    [by eapply reach_step|by eapply step_closed|done|]. exists w'. split; [by eapply rtc_l|done].
Qed.

Record close_call_inv (x : World * peer_close_pc) : Prop := {
  cc_reachable : reachable cfg x.1;
  cc_closed : x.2 <> PCFail -> closed (w_peer x.1) = true;
  cc_sched : x.2 = PCWorkers -> w_sched x.1 = SDone;
  cc_return r : x.2 = PCReturn r -> quiescent x.1 /\ r = Close_result (w_peer x.1);
}.

Lemma sched_done_step w w' : core cfg w -> step cfg w w' -> w_sched w = SDone -> w_sched w' = SDone.
Proof. intros C Hs E. destruct Hs; try (rewrite E in *; discriminate); step_all; done. Qed.

Lemma close_call_step x y : peer_config_ok cfg -> close_call_inv x -> peer_close_step x y -> close_call_inv y.
Proof.
  intros Hcfg [Hr Hc Hd Hret] Hs. destruct Hs as [c w w' Hs|p w Hf Hun|w Hs|w Hk Hun]; cbn in *.
  - destruct (reachable_core cfg Hcfg w Hr) as [C _]. split; cbn; [by eapply reach_step|..].
    + intros Hn. eapply step_closed; [done|auto].
    + intros E. eapply sched_done_step; [done..|auto].
    + intros r E. destruct (Hret r E) as [Hq ->]. assert (closed (w_peer w) = true) as Hcl by (apply Hc; congruence).
      destruct (quiescent_step w w' C Hcl Hq Hs). by split.
  - split; cbn; [|intros _; by apply fail_frame in Hf as (_ & _ & _ & ? & _)|done|done].
    eapply reach_step; [done|]. by eapply st_fail.
  - split; cbn; [done|intros _; by apply Hc|done|done].
  - split; cbn; [done|intros _; by apply Hc|done|]. intros r [= <-]. split; [split; auto|done].
Qed.

Lemma close_call_reachable x : peer_config_ok cfg -> peer_close_reachable x -> close_call_inv x.
Proof. intros Hcfg. induction 1 as [w Hr|x y _ IH Hs]; [by split|by eapply close_call_step]. Qed.

Lemma other_rtc w w' c : rtc (step cfg) w w' -> rtc peer_close_step (w, c) (w', c).
Proof. induction 1 as [|w w1 w' Hs _ IH]; [done|]. eapply rtc_l; [by apply pc_other|done]. Qed.

Lemma close_from_scheduler w : peer_config_ok cfg -> reachable cfg w -> closed (w_peer w) = true -> w_locked w = false ->
  exists w', rtc peer_close_step (w, PCScheduler) (w', PCReturn (Close_result (w_peer w'))).
Proof.
  intros Hcfg Hr Hc Hun. destruct (closed_drains w Hcfg Hr Hc Hun) as (w' & Hs & [Hd Hk] & Hun'). exists w'.
  etrans; [by apply other_rtc|]. eapply rtc_l; [by apply pc_scheduler|]. apply rtc_once. by apply pc_workers.
Qed.

(** *** A lock that is never released *)

(** The panicked Call keeps p.mu for ever, and no Close returns. *)
Lemma locked_step w w' : step cfg w w' -> w_locked w = true -> w_locked w' = true.
Proof. intros Hs Hl. destruct Hs; try congruence; step_all; done. Qed.

Lemma locked_close x y : rtc peer_close_step x y -> w_locked x.1 = true -> (forall r, x.2 <> PCReturn r) -> forall r, y.2 <> PCReturn r.
Proof.
  induction 1 as [x|x y z Hs _ IH]; intros Hl Hn; [done|].
  apply IH; destruct Hs; cbn in *; try done; try congruence. by eapply locked_step.
Qed.

(** Only a Call that was in its window when the peer failed can take it. *)
Definition no_window (w : World) : Prop := forall t id ctx frame, w_threads w !! t <> Some (TFill id ctx frame).

Lemma no_window_step w w' : closed (w_peer w) = true -> step cfg w w' -> no_window w -> w_locked w = false ->
  no_window w' /\ w_locked w' = false.
Proof.
  intros Hc Hs Hn Hl. unfold no_window in *.
  destruct Hs; try (match goal with H : w_threads _ !! _ = Some (TFill _ _ _) |- _ => by apply Hn in H end);
    step_all; split; cbn; try done; intros t' id' ctx' frame' Ht; insert_cases; try done; by eapply Hn.
Qed.

Lemma no_window_rtc w w' : rtc (step cfg) w w' -> closed (w_peer w) = true -> no_window w -> w_locked w = false ->
  w_locked w' = false.
Proof.
  induction 1 as [w|w w1 w' Hs _ IH]; intros Hc Hn Hl; [done|].
  destruct (no_window_step w w1 Hc Hs Hn Hl) as [Hn1 Hl1]. apply IH; [by eapply step_closed|done..].
Qed.

(** C12. [Close] of a peer returns, and is final. From the moment it has failed the
    peer, what it waits for is bounded: each step of any goroutine either leaves
    the scheduler, the workers, their queues and what they have done as they are,
    or takes some of the work that is left, which counts the frames queued and which
    no step adds to. Wherever it is, unless a Call has panicked with p.mu held, it
    can return by steps of the program when SendOwned and the handlers return; and
    no Call will, if none was between its two critical sections when the peer
    failed. After such a panic no Close returns that has not returned before.
    When it has returned, with nil exactly when the peer's first error is that of
    Close or a cancellation, nothing is sent, accepted or handled ever again. *)
Theorem peer_close_final w c : peer_config_ok cfg -> peer_close_reachable (w, c) ->
  (c <> PCFail -> closed (w_peer w) = true /\ 0 <= close_work w /\
     forall w', step cfg w w' -> idle_step w w' /\ close_work w' = close_work w \/ close_work w' < close_work w) /\
  (w_locked w = false -> exists w' r, rtc peer_close_step (w, c) (w', PCReturn r)) /\
  (c <> PCFail -> no_window w -> w_locked w = false -> forall w', rtc (step cfg) w w' -> w_locked w' = false) /\
  (w_locked w = true -> (forall r, c <> PCReturn r) -> forall w' r, ~ rtc peer_close_step (w, c) (w', PCReturn r)) /\
  (forall r, c = PCReturn r ->
     (r = None <-> errors_Is (result (w_peer w)) ErrPeerClosed || errors_Is (result (w_peer w)) Canceled = true) /\
     forall w', rtc (step cfg) w w' -> same_outcome w w').
Proof.
  intros Hcfg Hx. destruct (close_call_reachable _ Hcfg Hx) as [Hr Hc Hd Hret]. cbn in *. split_and!.
  - intros Hn. destruct (reachable_core cfg Hcfg w Hr) as [C _]. split_and!; [auto|apply close_work_nonneg|].
    intros w' Hs. destruct (closed_step w w' C (Hc Hn) Hs) as [[Hi|Hlt] _]; [left|by right]. split; [done|by apply idle_work].
  - intros Hun. destruct c as [| | |r]; [..|by exists w, r].
    + assert (exists p, fail ErrPeerClosed (w_peer w) = Some p) as [p Hf].
      { destruct (reachable_core cfg Hcfg w Hr) as [C _]. destruct (closed (w_peer w)) eqn:E; [rewrite fail_closed by done; by eexists|].
        by destruct (fail_spec' cfg ErrPeerClosed (w_peer w) Hcfg (co_peer _ _ C) E) as (p & -> & _); eexists. }
      destruct (close_from_scheduler (on_peer p w)) as [w' Hs]; [done|eapply reach_step; [done|by eapply st_fail]|
        cbn; by apply fail_frame in Hf as (_ & _ & _ & ? & _)|done|].
      eexists w', _. eapply rtc_l; [by apply pc_fail|done].
    + destruct (close_from_scheduler w Hcfg Hr) as [w' Hs]; [auto..|]. by eexists w', _.
    + destruct (closed_drains w Hcfg Hr) as (w1 & Hs1 & [_ Hk] & Hun1); [auto..|]. eexists w1, _.
      etrans; [by apply other_rtc|]. apply rtc_once. by apply pc_workers.
  - intros Hn Hw Hl w' Hs. eapply no_window_rtc; eauto.
  - intros Hl Hn w' r Hs. by eapply (locked_close _ _ Hs Hl Hn r).
  - intros r ->. destruct (Hret r eq_refl) as [Hq ->]. split.
    + unfold Close_result. by destruct (_ || _).
    + intros w'. apply quiescent_for_ever; auto.
Qed.
End close.

(** ** Example: Close of a peer whose worker runs a handler, with frames queued *)

Lemma peer_close_final_witness : w_workers demo_i3 <> ∅ /\
  exists w' r, rtc (peer_close_step demo_in_cfg) (demo_i3, PCFail) (w', PCReturn r).
Proof.
  split; [vm_compute; discriminate|].
  destruct (peer_close_final demo_in_cfg demo_i3 PCFail demo_in_cfg_ok) as (_ & Hret & _); [apply pcr_begin; exact demo_i3_reach|].
  apply Hret. reflexivity.
Defined.
