(* ===== verification/UnixLegacy.v ===== *)
(** pty/unixpty/factory_unix.go: the two factories, and the process of the legacy
    API as the state machine of its calls. The pty library, exec and the operating
    system answer nondeterministically, or through arguments. *)

From S2P Require Import Prelude Errors BigEndian PtyTypes UnixPty.

(** ** The factories *)

(** The fields of [exec.Cmd] the factories set; a nil Env, [None], makes the process
    inherit the environment. *)
Record Cmd := mkCmd { cmd_path : string; cmd_args : list string; cmd_env : option (list string); cmd_dir : string }.

(** The command of [Factory.Start], and that of [StartManaged], which copies the
    slices by appending to nil. *)
Definition legacy_command (spec : ProcessSpec) : Cmd := mkCmd (Command spec) (Args spec) (Env spec) (Dir spec).
Definition managed_command (spec : ProcessSpec) : Cmd :=
  mkCmd (Command spec) (Args spec) (match Env spec with Some (v :: env) => Some (v :: env) | _ => None end) (Dir spec).

Section Factories.
(** creackpty.Start and StartWithSize: the process identifier, or the error. *)
Context (pty_Start : Cmd -> Z + error) (pty_StartWithSize : Cmd -> Z * Z -> Z + error).

(** [Factory.Start], up to the identifier of the process it returns. *)
Definition Start (ctx : bool) (spec : ProcessSpec) : Z + error :=
  match Start_check ctx spec with
  | Some err => inr err
  | None => match pty_Start (legacy_command spec) with inr e => inr (Wrap e []) | inl pid => inl pid end
  end.

(** What [StartManaged] does to a process it does not return: Kill, WaitStatus and
    Close, with the answers of the system. *)
Definition discard (kill : option error) (r : wait_result) (close : option error) (p : Proc) : Proc :=
  (Close close (wait_section r (wait_returns r (set_wpc WWaiting (Kill kill p).2)))).2.

(** [ManagedFactory.StartManaged]: its result, and the process it made and
    discarded. [after] is the error of the context after the start. *)
Definition StartManaged (ctx : option (option error)) (after : option error) (kill : option error) (r : wait_result)
    (close : option error) (spec : ProcessSpec) : (Proc + error) * option Proc :=
  match StartManaged_check ctx spec with
  | Some err => (inr err, None)
  | None =>
      match pty_StartWithSize (managed_command spec) (winsize (InitialSize spec)) with
      | inr e => (inr (Wrap e []), None)
      | inl pid =>
          match after with
          | Some err => (inr err, Some (discard kill r close (new_process pid)))
          | None => (inl (new_process pid), None)
          end
      end
  end.

(** C32. The managed factory leaves nothing behind. It returns a process exactly when the
    specification is valid, the start succeeded and the context was not done; the
    terminal was asked for the size of the specification. A process it made and
    did not return was sent one SIGKILL, before it was reaped, its status was
    collected and its terminal closed. *)
Theorem unix_start_clean ctx after kill r close spec :
  match StartManaged ctx after kill r close spec with
  | (inl p, discarded) => discarded = None /\ after = None /\ StartManaged_check ctx spec = None /\
      exists pid, p = new_process pid /\
        pty_StartWithSize (managed_command spec) (Cols (InitialSize spec), Rows (InitialSize spec)) = inl pid
  | (inr e, None) => StartManaged_check ctx spec = Some e \/
      exists e', pty_StartWithSize (managed_command spec) (Cols (InitialSize spec), Rows (InitialSize spec)) = inr e' /\ e = Wrap e' []
  | (inr e, Some p) => after = Some e /\ (exists pid, u_reachable pid p) /\ signals p = [(SIGKILL, false)] /\
      reaped p = true /\ is_Some (WaitStatus_result p) /\ is_Some (fileClosed p)
  end.
Proof.
  unfold StartManaged. destruct (StartManaged_check ctx spec) as [err|] eqn:Ec; [by left|].
  assert (winsize (InitialSize spec) = (Cols (InitialSize spec), Rows (InitialSize spec))) as ->.
  { pose proof (proj2 (StartManaged_check_spec ctx spec) Ec) as Hr. unfold Resize in Hr. by repeat case_match; simplify_eq. }
  destruct (pty_StartWithSize _ _) as [pid|e] eqn:Es; [|right; eauto].
  destruct after as [err|]; [|split_and!; eauto]. split; [done|]. split.
  - exists pid. unfold discard. eapply ur_step; [|apply us_close]. eapply ur_step; [|by apply us_wait_publish].
    eapply ur_step; [|by apply us_wait_returns]. eapply ur_step; [|by apply us_wait_begin; destruct kill].
    eapply ur_step; [apply ur_start|apply us_kill].
  - unfold discard, Close. by destruct kill.
Qed.

(** The managed command is that of the legacy factory, but for an empty environment,
    which becomes the inherited one. *)
Theorem managed_command_spec spec :
  managed_command spec = legacy_command spec <-> Env spec <> Some [].
Proof. unfold managed_command, legacy_command. destruct (Env spec) as [[|v env]|]; split; congruence. Qed.
End Factories.

(** ** The legacy process *)

(** The body of [Wait]'s [waitOnce]: not begun, in [command.Wait], finished. *)
Inductive lwait_pc := LIdle | LWaiting | LEnded.
(** The body of [Close]'s [closeOnce]: not begun, with the file closed, with the
    process killed and in Wait, finished. *)
Inductive lclose_pc := KIdle | KKill (fileErr : option error) | KWait (err : option error) | KEnded.
#[export] Instance lwait_pc_eq_dec : EqDecision lwait_pc.
Proof. solve_decision. Defined.
#[export] Instance lclose_pc_eq_dec : EqDecision lclose_pc.
Proof. solve_decision. Defined.

(** The fields of [process]; [l_state] is the exit code of [command.ProcessState],
    [l_done] counts the closes of [done]. [l_alive] is the process itself and
    [l_closes] the calls of [file.Close]. *)
Record Legacy := mkLegacy {
  l_alive : bool;
  l_state : option Z;
  l_waitErr : option error;
  l_done : N;
  l_wait : lwait_pc;
  l_closeErr : option error;
  l_close : lclose_pc;
  l_closes : N;
}.

Definition new_legacy : Legacy := mkLegacy true None None 0 LIdle None KIdle 0.

(** The error of [command.Wait], and the code of the state it leaves. *)
Definition wait_error (r : wait_result) : option error :=
  match r with WaitOk => None | WaitExit code _ => Some (Newf "exit status" [code]) | WaitFailed e => Some e end.
Definition wait_code (r : wait_result) : option Z :=
  match r with WaitOk => Some 0 | WaitExit code _ => Some code | WaitFailed _ => None end.

(** The process ends, by itself, by a signal, or because the context of
    [exec.CommandContext] is done. *)
Definition legacy_ends (p : Legacy) : Legacy :=
  mkLegacy false (l_state p) (l_waitErr p) (l_done p) (l_wait p) (l_closeErr p) (l_close p) (l_closes p).
Definition legacy_wait_begin (p : Legacy) : Legacy :=
  mkLegacy (l_alive p) (l_state p) (l_waitErr p) (l_done p) LWaiting (l_closeErr p) (l_close p) (l_closes p).
(** [p.waitErr = p.command.Wait(); close(p.done)] *)
Definition legacy_wait_end (r : wait_result) (p : Legacy) : Legacy :=
  mkLegacy (l_alive p) (wait_code r) (wait_error r) (l_done p + 1) LEnded (l_closeErr p) (l_close p) (l_closes p).
(** [Close] in four actions: the file, Kill, the wait, the end. *)
Definition legacy_close_file (answer : option error) (p : Legacy) : Legacy :=
  mkLegacy (l_alive p) (l_state p) (l_waitErr p) (l_done p) (l_wait p) (l_closeErr p)
    (KKill (match answer with Some e => nil_error e ErrClosed | None => None end)) (l_closes p + 1).
Definition legacy_close_kill (fileErr answer : option error) (p : Legacy) : Legacy :=
  mkLegacy (l_alive p) (l_state p) (l_waitErr p) (l_done p) (l_wait p) (errors_Join fileErr (legacy_Kill answer))
    (KWait (errors_Join fileErr (legacy_Kill answer))) (l_closes p).
Definition legacy_close_end (p : Legacy) : Legacy :=
  mkLegacy (l_alive p) (l_state p) (l_waitErr p) (l_done p) (l_wait p) (l_closeErr p) KEnded (l_closes p).

(** [Wait], [ExitCode] and [Close] once they return. *)
Definition legacy_Wait (p : Legacy) : option (option error) := if (0 <? l_done p)%N then Some (l_waitErr p) else None.
Definition ExitCode (p : Legacy) : option Z := if (0 <? l_done p)%N then Some (legacy_ExitCode (l_state p)) else None.
Definition legacy_Close_result (p : Legacy) : option (option error) :=
  match l_close p with KEnded => Some (l_closeErr p) | _ => None end.

Inductive l_step : Legacy -> Legacy -> Prop :=
| ls_ends p : l_alive p = true -> l_step p (legacy_ends p)
| ls_wait p : l_wait p = LIdle -> l_step p (legacy_wait_begin p)
| ls_waited r p : l_wait p = LWaiting -> l_alive p = false -> l_step p (legacy_wait_end r p)
| ls_close_file answer p : l_close p = KIdle -> l_step p (legacy_close_file answer p)
| ls_close_kill fileErr answer p : l_close p = KKill fileErr -> l_step p (legacy_close_kill fileErr answer p)
| ls_close_end err p : l_close p = KWait err -> (0 < l_done p)%N -> l_step p (legacy_close_end p).

Inductive l_reachable : Legacy -> Prop :=
| lr_start : l_reachable new_legacy
| lr_next p p' : l_reachable p -> l_step p p' -> l_reachable p'.

Record l_inv (p : Legacy) : Prop := {
  li_done : l_done p = (if bool_decide (l_wait p = LEnded) then 1 else 0)%N;
  li_dead : l_wait p = LEnded -> l_alive p = false;
  li_code : l_wait p = LEnded -> exists r, l_waitErr p = wait_error r /\ l_state p = wait_code r;
  li_closed : l_close p = KEnded -> l_wait p = LEnded;
  li_files : l_closes p = (if bool_decide (l_close p = KIdle) then 0 else 1)%N;
  li_err err : l_close p = KWait err -> l_closeErr p = err;
}.

Lemma l_reachable_inv p : l_reachable p -> l_inv p.
Proof.
  induction 1 as [|p p' _ I Hs]; [by split|]. destruct I as [Hd Ha Hc Hk Hf He].
  destruct Hs as [p Hl|p Hw|r p Hw Hl|answer p Hc'|fe answer p Hc'|err p Hc' Hdn]; rewrite ?Hw, ?Hc' in *; split; cbn; try done.
  - intros Hcl. by apply Hk in Hcl.
  - by rewrite Hd.
  - intros _. by exists r.
  - by rewrite Hf.
  - by intros err [= <-].
  - intros _. destruct (decide (l_wait p = LEnded)) as [|Hn]; [done|]. rewrite bool_decide_false in Hd by done. lia.
Qed.

(** The legacy process ends once and for all. Wait returns only when the process has
    ended; from then on Wait and ExitCode give the same answers for ever, the code is
    zero only if the wait succeeded or reported it, and a successful wait means code
    zero; [done] is closed once. Close closes the file once, and has returned only
    when the process has ended and its status is known; its answer does not change. *)
Theorem legacy_process_final p p' :
  l_reachable p -> l_step p p' ->
  (l_done p <= 1)%N /\ (l_closes p <= 1)%N /\
  (forall err, legacy_Wait p = Some err -> l_alive p = false /\ legacy_Wait p' = Some err /\ ExitCode p' = ExitCode p /\
     (err = None -> ExitCode p = Some 0)) /\
  (forall err, legacy_Close_result p = Some err ->
     legacy_Close_result p' = Some err /\ l_closes p = 1%N /\ l_alive p = false /\ is_Some (legacy_Wait p)).
Proof.
  intros Hr Hs. destruct (l_reachable_inv p Hr) as [Hd Ha Hc Hk Hf He]. unfold legacy_Wait, ExitCode, legacy_Close_result.
  assert ((l_done p <= 1)%N) by (rewrite Hd; destruct (bool_decide _); lia).
  assert ((l_closes p <= 1)%N) by (rewrite Hf; destruct (bool_decide (l_close p = KIdle)); lia).
  assert (forall err, (if (0 <? l_done p)%N then Some (l_waitErr p) else None) = Some err -> l_wait p = LEnded /\ err = l_waitErr p /\ l_done p = 1%N) as Hw.
  { intros err. rewrite Hd. destruct (decide (l_wait p = LEnded)); [rewrite bool_decide_true by done; by intros [= ->]|by rewrite bool_decide_false]. }
  split; [done|]. split; [done|]. split.
  - intros err (Hl & -> & Hdn)%Hw. split; [by apply Ha|]. destruct (Hc Hl) as (r & Hwe & Hst). rewrite Hdn.
    destruct Hs; rewrite ?Hdn, ?Hl in *; cbn; rewrite ?Hdn; try done; (split; [done|]; split; [done|]);
      rewrite Hwe, Hst; by destruct r.
  - intros err Hcl. destruct (l_close p) eqn:E; try done. injection Hcl as <-. specialize (Hk eq_refl).
    rewrite Hd, bool_decide_true, Hf, bool_decide_false by done. cbn. split; [|by eauto].
    destruct Hs; cbn; rewrite ?E; congruence.
Qed.

(** Close returns once the process has ended: from any state in which Close has
    begun, the steps of Close and Wait alone lead to its return. *)
Theorem legacy_close_returns p : l_reachable p -> l_close p <> KIdle -> l_alive p = false ->
  exists p', rtc l_step p p' /\ is_Some (legacy_Close_result p').
Proof.
  intros Hr Hc Hl. pose proof (l_reachable_inv p Hr) as I.
  assert (exists q, rtc l_step p q /\ l_close q = l_close p /\ (0 < l_done q)%N) as (q & Hq & Hqc & Hqd).
  { destruct (l_wait p) eqn:Ew.
    - exists (legacy_wait_end WaitOk (legacy_wait_begin p)). split; [|split; [done|cbn; lia]].
      eapply rtc_l; [by apply ls_wait|]. apply rtc_once. by apply ls_waited.
    - exists (legacy_wait_end WaitOk p). split; [|split; [done|cbn; lia]]. apply rtc_once. by apply ls_waited.
    - exists p. split; [done|]. split; [done|]. rewrite (li_done _ I), bool_decide_true by done. lia. }
  assert (forall q err, l_close q = KWait err -> (0 < l_done q)%N -> exists p', rtc l_step q p' /\ is_Some (legacy_Close_result p')) as Hend.
  { intros q' err Hq' Hd. exists (legacy_close_end q'). split; [apply rtc_once; by eapply ls_close_end|by eexists]. }
  destruct (l_close p) as [|fe|err|] eqn:E; [done|..].
  - destruct (Hend (legacy_close_kill fe None q) _ eq_refl) as (p' & Hp & Hx); [done|].
    exists p'. split; [|done]. etrans; [exact Hq|]. eapply rtc_l; [by apply ls_close_kill|done].
  - destruct (Hend q err) as (p' & Hp & Hx); [done..|]. exists p'. split; [by etrans|done].
  - exists q. split; [done|]. unfold legacy_Close_result. rewrite Hqc. by eexists.
Qed.

(** *** Example *)

(** Closed, killed and waited for. *)
Definition demo_legacy : Legacy :=
  legacy_close_end (legacy_wait_end (WaitExit (-1) (Some "killed"%string)) (legacy_wait_begin (legacy_ends
    (legacy_close_kill None None (legacy_close_file (Some ErrClosed) new_legacy))))).

Lemma demo_legacy_reachable : l_reachable demo_legacy.
Proof.
  eapply lr_next; [|by apply (ls_close_end None)]. eapply lr_next; [|by apply ls_waited]. eapply lr_next; [|by apply ls_wait].
  eapply lr_next; [|by apply ls_ends]. eapply lr_next; [|by apply ls_close_kill].
  eapply lr_next; [apply lr_start|by apply (ls_close_file (Some ErrClosed))].
Qed.

Example demo_legacy_closed : legacy_Close_result demo_legacy = Some None /\ ExitCode demo_legacy = Some (-1).
Proof. split; reflexivity. Qed.
