(* ===== verification/PtyBackend.v ===== *)
(** pty/pty.go: what the Manager and the legacy callers may rely on, whatever the
    backend, and that the Unix and the Windows process provide it. The legacy
    process of Windows (pty/windowspty/factory_windows.go) is a client: it is built
    on the managed one. *)

From S2P Require Import Prelude Errors BigEndian PtyTypes Attachment Subscription History SessionIO UnixPty UnixLegacy WindowsPty WindowsStart.

(** ** The interfaces *)

(** [ManagedProcess]: a state that starts as the factory returns it and moves by
    the calls of any goroutine and by what the system does; what [WaitStatus] returns
    once it returns; and what one call of Kill does and answers. *)
Class ManagedProcess (P : Type) := {
  mp_started : P -> Prop;
  mp_step : P -> P -> Prop;
  WaitStatus : P -> option (ExitStatus * option error);
  mp_Kill : P -> option error -> P -> Prop;
}.

Inductive mp_reachable {P} `{ManagedProcess P} : P -> Prop :=
| mp_start p : mp_started p -> mp_reachable p
| mp_next p p' : mp_reachable p -> mp_step p p' -> mp_reachable p'.

(** The status is final, it carries the error of the wait, and Kill is a step. *)
Class ManagedProcessLaws (P : Type) `{ManagedProcess P} := {
  status_final p p' st : mp_reachable p -> mp_step p p' -> WaitStatus p = Some st -> WaitStatus p' = Some st;
  status_error p st : mp_reachable p -> WaitStatus p = Some st -> ex_Error st.1 = st.2;
  status_new p : mp_started p -> WaitStatus p = None;
  kill_step p e p' : mp_Kill p e p' -> mp_step p p';
}.

(** [Process], the legacy interface: what [Wait] returns once it returns. *)
Class Process (P : Type) := {
  pr_started : P -> Prop;
  pr_step : P -> P -> Prop;
  Wait : P -> option (option error);
}.

Inductive pr_reachable {P} `{Process P} : P -> Prop :=
| pr_start p : pr_started p -> pr_reachable p
| pr_next p p' : pr_reachable p -> pr_step p p' -> pr_reachable p'.

Class ProcessLaws (P : Type) `{Process P} :=
  wait_final p p' r : pr_reachable p -> pr_step p p' -> Wait p = Some r -> Wait p' = Some r.

(** ** Clients of the managed interface *)

Section Clients.
Context {P : Type} `{ManagedProcessLaws P}.

Lemma reachable_rtc p p' : mp_reachable p -> rtc mp_step p p' -> mp_reachable p'.
Proof. intros Hr Hs. induction Hs as [|p q p' Hs _ IH]; [done|]. by apply IH, (mp_next p). Qed.

(** Every WaitStatus of a process returns the same. *)
Lemma status_once p q p' st st' : mp_started p -> rtc mp_step p q -> rtc mp_step q p' ->
  WaitStatus q = Some st -> WaitStatus p' = Some st' -> st = st'.
Proof.
  intros Hp Hq Hs E E'. assert (WaitStatus p' = Some st) as Hst; [|congruence].
  apply (reachable_rtc p q (mp_start p Hp)) in Hq. clear E'. revert Hq E.
  induction Hs as [|q q1 p' Hs _ IH]; [done|]. intros Hq E. apply IH; [by eapply mp_next|]. by eapply status_final.
Qed.

(** What [Session.run] records of a backend: with no error of the output, exactly
    what WaitStatus reported; otherwise that, or the output's error as an I/O
    failure when WaitStatus reported none. *)
Theorem run_status_backend p status waitErr outputErr :
  mp_reachable p -> WaitStatus p = Some (status, waitErr) ->
  run_status status waitErr outputErr =
    match outputErr, waitErr with
    | Some e, None => mkExitStatus ExitReasonIOFailure (ex_Code status) (ex_Signal status) (Some e)
    | _, _ => status
    end.
Proof.
  intros Hr Hw. pose proof (status_error _ _ Hr Hw) as He. cbn in He. unfold run_status. subst waitErr.
  destruct (ex_Error status) eqn:E; destruct outputErr; cbn; rewrite ?E; done.
Qed.
End Clients.

(** ** The backends *)

Module Unix.
#[export] Instance process : ManagedProcess UnixPty.Proc := {
  mp_started p := exists pid, p = UnixPty.new_process pid;
  mp_step := u_step;
  WaitStatus := UnixPty.WaitStatus_result;
  mp_Kill p e p' := exists answer, UnixPty.Kill answer p = (e, p');
}.

Lemma unix_reachable (p : UnixPty.Proc) : mp_reachable p -> exists pid, u_reachable pid p.
Proof.
  induction 1 as [p [pid ->]|p p' _ [pid IH] Hs]; exists pid; [apply ur_start|by eapply ur_step].
Qed.

#[export] Instance laws : ManagedProcessLaws UnixPty.Proc.
Proof.
  split.
  - intros p p' st [pid Hr]%unix_reachable Hs Hw. pose proof (u_reachable_inv _ _ Hr) as I. cbn in *.
    unfold UnixPty.WaitStatus_result in *. rewrite (ui_done _ _ I) in Hw. case_bool_decide as Hd; [|done].
    destruct (published_final p p') as (E1 & E2 & _); [by rewrite (ui_running _ _ I), bool_decide_true|done..|].
    by rewrite E2, E1, (ui_done _ _ I), bool_decide_true.
  - intros p st [pid Hr]%unix_reachable Hw. pose proof (u_reachable_inv _ _ Hr) as I. cbn in Hw.
    unfold UnixPty.WaitStatus_result in Hw. destruct (0 <? _)%N; [|done].
    destruct (ui_class _ _ I _ Hw) as [r ->]. by destruct r as [|c [s|]|e], (UnixPty.killed p).
  - by intros p [pid ->].
  - intros p e p' [answer E]. assert (p' = (UnixPty.Kill answer p).2) as -> by (by rewrite E). apply us_kill.
Qed.
End Unix.

Module Windows.
(** [WaitStatus] returns what was recorded once [done] is closed. *)
Definition WaitStatus_result (p : WindowsPty.Proc) : option (ExitStatus * option error) :=
  if (0 <? WindowsPty.done p)%N then WindowsPty.waitStatus p else None.

#[export] Instance process : ManagedProcess WindowsPty.Proc := {
  mp_started p := exists released, p = WindowsPty.new_process released;
  mp_step := w_step;
  WaitStatus := WaitStatus_result;
  mp_Kill p e p' := exists jobExited exited answer, WindowsPty.Kill jobExited exited answer p = (e, p');
}.

Lemma windows_reachable (p : WindowsPty.Proc) : mp_reachable p -> exists released, w_reachable released p.
Proof.
  induction 1 as [p [b ->]|p p' _ [b IH] Hs]; exists b; [apply wr_start|by eapply wr_step].
Qed.

Lemma done_mono p p' : w_step p p' -> (WindowsPty.done p <= WindowsPty.done p')%N.
Proof.
  destruct 1; cbn; try lia; unfold WindowsPty.ProcessID, WindowsPty.Resize, Terminate_section, WindowsPty.Kill,
    closeConsole_once, resources_section, close_section; cbn; repeat case_match; cbn; simplify_eq; lia.
Qed.

#[export] Instance laws : ManagedProcessLaws WindowsPty.Proc.
Proof.
  split.
  - intros p p' st [b Hr]%windows_reachable Hs Hw. pose proof (w_reachable_inv _ _ Hr) as I. cbn in *.
    unfold WaitStatus_result in *. destruct (N.ltb_spec 0 (WindowsPty.done p)) as [Hd|]; [|done].
    pose proof (done_mono _ _ Hs) as Hm. rewrite (proj2 (N.ltb_lt _ _)) by lia.
    assert (before_exit (wpc p) = false) as Hb by (rewrite (wi_done _ I) in Hd; by destruct (wpc p)).
    destruct (step_published p p') as [-> _]; [by rewrite (wi_running _ I)|done..].
  - intros p st [b Hr]%windows_reachable Hw. pose proof (wi_status _ (w_reachable_inv _ _ Hr)) as Hst. cbn in Hw.
    unfold WaitStatus_result in Hw. destruct (0 <? _)%N; [|done]. rewrite Hw in Hst.
    destruct (WindowsPty.running p); [done|]. destruct Hst as [r [= ->]].
    unfold WindowsPty.wait_status. by destruct r as [c|e], (WindowsPty.killed p), (terminateSent p); cbn; try destruct (negb _).
  - by intros p [b ->].
  - intros p e p' (j & x & a & E). assert (p' = (WindowsPty.Kill j x a p).2) as -> by (by rewrite E). apply ws_kill.
Qed.
End Windows.

Module Legacy.
(** The legacy process of Unix. *)
#[export] Instance process : Process Legacy := {
  pr_started p := p = new_legacy;
  pr_step := l_step;
  Wait := legacy_Wait;
}.

#[export] Instance laws : ProcessLaws Legacy.
Proof.
  intros p p' r Hr Hs Hw. assert (l_reachable p) as Hl.
  { clear -Hr. induction Hr as [p ->|p p' _ IH Hs]; [apply lr_start|by eapply lr_next]. }
  destruct (legacy_process_final p p' Hl Hs) as (_ & _ & Hf & _). by destruct (Hf r Hw) as (_ & ? & _).
Qed.
End Legacy.

(** ** The legacy process of Windows *)

Module WindowsLegacy.
Section WindowsLegacy.
Context {P : Type} `{ManagedProcessLaws P}.

(** [Close]: not begun, [managed.Close] has returned, [managed.Kill] too, finished. *)
Inductive close_pc := LIdle | LKill (closeErr : option error) | LWait (closeErr killErr : option error)
  | LEnd (err : option error).

(** [process], with the goroutine of [Factory.Start]: whether it still waits for
    the context or the end of the process. *)
Record process := mkProcess { managed : P; watching : bool; closing : close_pc }.

(** [Factory.Start], given the process [startManaged] returned. *)
Definition Start (p : P) : process := mkProcess p true LIdle.

(** [Wait], [ExitCode] and [Close] once they return. *)
Definition legacy_Wait (p : process) : option (option error) := (fun st => legacyWait st.1 st.2) <$> WaitStatus (managed p).
Definition ExitCode (p : process) : option Z := (fun st => ex_Code st.1) <$> WaitStatus (managed p).
Definition Close_result (p : process) : option (option error) := match closing p with LEnd err => Some err | _ => None end.

Inductive step : process -> process -> Prop :=
(* any call of the managed process, its Close included, or the system *)
| ws_managed m p : mp_step (managed p) m -> step p (mkProcess m (watching p) (closing p))
(* the goroutine: the context is done, or [managed.done] is closed *)
| ws_context err m p : watching p = true -> mp_Kill (managed p) err m -> step p (mkProcess m false (closing p))
| ws_ended st p : watching p = true -> WaitStatus (managed p) = Some st -> step p (mkProcess (managed p) false (closing p))
(* Close *)
| ws_closed closeErr p : closing p = LIdle -> step p (mkProcess (managed p) (watching p) (LKill closeErr))
| ws_killed closeErr killErr m p : closing p = LKill closeErr -> mp_Kill (managed p) killErr m ->
    step p (mkProcess m (watching p) (LWait closeErr killErr))
| ws_waited closeErr killErr st p : closing p = LWait closeErr killErr -> WaitStatus (managed p) = Some st ->
    step p (mkProcess (managed p) (watching p) (LEnd (errors_Join (errors_Join closeErr killErr) st.2))).

#[export] Instance interface : Process process := {
  pr_started p := exists m, mp_started m /\ p = Start m;
  pr_step := step;
  Wait := legacy_Wait;
}.

Lemma managed_reachable p : pr_reachable p -> mp_reachable (managed p).
Proof.
  induction 1 as [p (m & Hm & ->)|p p' _ IH Hs]; [by apply mp_start|].
  destruct Hs as [m p Hs|err m p _ Hk|st p _ _|ce p _|ce ke m p _ Hk|ce ke st p _ _]; cbn; try done.
  - by eapply mp_next.
  - eapply mp_next; [done|by eapply kill_step].
  - eapply mp_next; [done|by eapply kill_step].
Qed.

Lemma managed_step p p' : step p p' -> managed p' = managed p \/ mp_step (managed p) (managed p').
Proof.
  destruct 1 as [m p Hs|err m p _ Hk|st p _ _|ce p _|ce ke m p _ Hk|ce ke st p _ _]; cbn; auto;
    right; by eapply kill_step.
Qed.

Lemma status_kept p p' st : pr_reachable p -> step p p' -> WaitStatus (managed p) = Some st -> WaitStatus (managed p') = Some st.
Proof.
  intros Hr%managed_reachable Hs Hw. destruct (managed_step p p' Hs) as [->|Hm]; [done|]. by eapply status_final.
Qed.

#[export] Instance laws : ProcessLaws process.
Proof.
  intros p p' r Hr Hs Hw. cbn in *. unfold legacy_Wait in *.
  destruct (WaitStatus (managed p)) as [st|] eqn:E; [|done]. by rewrite (status_kept p p' st Hr Hs E).
Qed.

(** The legacy process on any managed one. Close has returned only when the process
    has ended, with the errors of its parts joined; then nothing it started is left
    waiting: the goroutine of Start can return. Wait returns nil exactly when the
    exit code is zero and the wait did not fail. *)
Theorem windows_legacy_close p : pr_reachable p ->
  (forall err, Close_result p = Some err -> is_Some (legacy_Wait p) /\ is_Some (ExitCode p) /\
     exists p', rtc step p p' /\ watching p' = false) /\
  (legacy_Wait p = Some None <-> exists status, WaitStatus (managed p) = Some (status, None) /\ ex_Code status = 0).
Proof.
  intros Hr. split.
  - intros err Hc. assert (exists st, WaitStatus (managed p) = Some st) as [st Hst].
    { clear -Hc Hr H0. revert err Hc. induction Hr as [p (m & _ & ->)|p p' Hr IH Hs]; intros err Hc; [done|].
      pose proof (status_kept p p') as Hkeep. specialize (fun st => Hkeep st Hr Hs). unfold Close_result in *.
      destruct Hs as [m p Hs|e m p Hwt Hk|st p Hwt Hw|ce p Hp|ce ke m p Hp Hk|ce ke st p Hp Hw]; cbn in *; try done;
        try (destruct (IH _ Hc) as [st' Hst']; exists st'; by apply Hkeep). by eexists. }
    unfold legacy_Wait, ExitCode. rewrite Hst. split; [by eexists|]. split; [by eexists|].
    destruct (watching p) eqn:Ew; [|by exists p]. exists (mkProcess (managed p) false (closing p)).
    split; [apply rtc_once; by eapply ws_ended|done].
  - unfold legacy_Wait. destruct (WaitStatus (managed p)) as [[status werr]|]; cbn; [|split; [done|by intros (? & ? & _)]].
    unfold legacyWait. destruct werr as [e|]; [split; [done|by intros (? & ? & _)]|].
    destruct (Z.eqb_spec (ex_Code status) 0); cbn; split; try done; [by exists status|intros (s' & [= <-] & ?); done].
Qed.
End WindowsLegacy.
End WindowsLegacy.
