(* ===== verification/SessionOps.v ===== *)
(** pty/manager.go: [runSessionOperation], which [Close] runs Terminate and Kill
    with on many sessions at once: its goroutines, the buffer of their errors and
    the wait for all of them. *)

From S2P Require Import Prelude Errors.

(** ** runSessionOperation *)

(** One of its goroutines: in [operation(session)], before its send of an error,
    after [wait.Done]. *)
Inductive op_pc := OCall | OSend (err : error) | ODone.
#[export] Instance op_pc_eq_dec : EqDecision op_pc.
Proof. solve_decision. Defined.

(** The goroutines with their sessions, the buffer of [errorsBySession], whose
    capacity is the number of sessions, and the result once it is returned.
    [ro_failed] is history: the errors the operations returned. *)
Record RunOp := mkRunOp {
  ro_pcs : list (Z * op_pc);
  ro_errors : list error;
  ro_result : option (option error);
  ro_failed : list error;
}.

Definition runSessionOperation (sessions : list Z) : RunOp := mkRunOp ((fun id => (id, OCall)) <$> sessions) [] None [].

(** [operation(session)] has returned [r]. *)
Definition op_returned (i : nat) (id : Z) (r : option error) (o : RunOp) : RunOp :=
  match r with
  | None => mkRunOp (<[i := (id, ODone)]> (ro_pcs o)) (ro_errors o) (ro_result o) (ro_failed o)
  | Some err => mkRunOp (<[i := (id, OSend err)]> (ro_pcs o)) (ro_errors o) (ro_result o) (ro_failed o ++ [err])
  end.
(** [errorsBySession <- err] and [wait.Done]. *)
Definition op_send (i : nat) (id : Z) (err : error) (o : RunOp) : RunOp :=
  mkRunOp (<[i := (id, ODone)]> (ro_pcs o)) (ro_errors o ++ [err]) (ro_result o) (ro_failed o).
(** The loop over the closed channel. *)
Definition join_errors (errs : list error) : option error := foldl (fun result err => errors_Join result (Some err)) None errs.
Definition op_join (o : RunOp) : RunOp := mkRunOp (ro_pcs o) (ro_errors o) (Some (join_errors (ro_errors o))) (ro_failed o).

(** [answers id r]: what the operation on a session may return at this moment. *)
Inductive op_step (answers : Z -> option error -> Prop) : RunOp -> RunOp -> Prop :=
| ro_call i id r o : ro_pcs o !! i = Some (id, OCall) -> answers id r -> op_step answers o (op_returned i id r o)
| ro_send i id err o : ro_pcs o !! i = Some (id, OSend err) -> (length (ro_errors o) < length (ro_pcs o))%nat ->
    op_step answers o (op_send i id err o)
| ro_join o : (forall id p, (id, p) ∈ ro_pcs o -> p = ODone) -> ro_result o = None -> op_step answers o (op_join o).

Inductive op_reachable (sessions : list Z) : RunOp -> Prop :=
| or_init : op_reachable sessions (runSessionOperation sessions)
| or_step answers o o' : op_reachable sessions o -> op_step answers o o' -> op_reachable sessions o'.

(** The errors still to be sent, and the work left. *)
Definition sending (p : op_pc) : list error := match p with OSend err => [err] | _ => [] end.
Definition op_work (p : op_pc) : nat := match p with OCall => 2 | OSend _ => 1 | ODone => 0 end.
Definition op_measure (o : RunOp) : nat :=
  sum_list (op_work <$> (ro_pcs o).*2) + match ro_result o with None => 1 | Some _ => 0 end.

(** How many goroutines have not ended. *)
Definition busy (pcs : list (Z * op_pc)) : nat := length (filter (fun ip => ip.2 <> ODone) pcs).

Record op_inv (sessions : list Z) (o : RunOp) : Prop := {
  oi_sessions : (ro_pcs o).*1 = sessions;
  oi_room : (length (ro_errors o) + busy (ro_pcs o) <= length (ro_pcs o))%nat;
  oi_errors : ro_errors o ++ concat (sending <$> (ro_pcs o).*2) ≡ₚ ro_failed o;
  oi_result r : ro_result o = Some r -> r = join_errors (ro_errors o) /\ forall id p, (id, p) ∈ ro_pcs o -> p = ODone;
}.

(** Replacing one program counter. *)
Lemma insert_split {A} (l : list A) i x y : l !! i = Some x ->
  exists l1 l2, l = l1 ++ x :: l2 /\ <[i := y]> l = l1 ++ y :: l2.
Proof.
  intros Hi. exists (take i l), (drop (S i) l). split; [by rewrite take_drop_middle|].
  apply insert_take_drop. by eapply lookup_lt_Some.
Qed.

Lemma busy_middle l1 id p l2 : busy (l1 ++ (id, p) :: l2) = (busy l1 + (if decide (p = ODone) then 0 else 1) + busy l2)%nat.
Proof.
  unfold busy. rewrite filter_app, filter_cons, length_app. cbn [snd]. destruct (decide (p = ODone)).
  - rewrite decide_False by tauto. lia.
  - rewrite decide_True by done. cbn. lia.
Qed.

Lemma all_done_nil pcs : (forall (id : Z) p, (id, p) ∈ pcs -> p = ODone) -> concat (sending <$> pcs.*2) = [].
Proof.
  induction pcs as [|[id p] pcs IH]; intros Hd; [done|]. cbn. rewrite (Hd id p) by left. apply IH.
  intros i q Hq. apply (Hd i). by right.
Qed.

Lemma op_step_inv sessions answers o o' : op_inv sessions o -> op_step answers o o' -> op_inv sessions o'.
Proof.
  intros [Hs Hr He Hres] Hst. destruct Hst as [i id r o Hi Ha|i id err o Hi Hl|o Hd Hn].
  - assert (ro_result o = None) as Hno.
    { destruct (ro_result o) eqn:E; [|done]. destruct (Hres _ eq_refl) as [_ Hd].
      by apply list_elem_of_lookup_2, Hd in Hi. }
    set (q := match r with None => ODone | Some err => OSend err end).
    destruct (insert_split _ _ _ (id, q) Hi) as (l1 & l2 & El & Ei).
    assert (ro_pcs (op_returned i id r o) = l1 ++ (id, q) :: l2) as Ep by (by rewrite <- Ei; destruct r).
    assert (ro_errors (op_returned i id r o) = ro_errors o /\ ro_result (op_returned i id r o) = None) as [Ee Er]
      by (by rewrite <- Hno; destruct r).
    rewrite El in Hs, Hr, He. split; rewrite ?Ep, ?Ee, ?Er; try done.
    + by rewrite fmap_app in *.
    + rewrite !busy_middle, !length_app in *. rewrite decide_False in Hr by done. cbn in *.
      destruct (decide (q = ODone)); lia.
    + rewrite !fmap_app, !concat_app in *. cbn in *. destruct r as [err|]; cbn in *; [|done].
      rewrite <- He. solve_Permutation.
  - destruct (insert_split _ _ _ (id, ODone) Hi) as (l1 & l2 & El & Ei).
    assert (ro_result o = None) as Hno.
    { destruct (ro_result o) eqn:E; [|done]. destruct (Hres _ eq_refl) as [_ Hd].
      by apply list_elem_of_lookup_2, Hd in Hi. }
    rewrite El in Hs, Hr, He. split; cbn [op_send ro_pcs ro_errors ro_result ro_failed]; rewrite ?Ei; try congruence.
    + by rewrite fmap_app in *.
    + rewrite !busy_middle, !length_app in *. rewrite decide_False in Hr by done. rewrite decide_True by done. cbn in *. lia.
    + rewrite !fmap_app, !concat_app in *. cbn in *. rewrite <- He. solve_Permutation.
  - split; cbn [op_join ro_pcs ro_errors ro_result ro_failed]; try done. by intros r [= <-].
Qed.

Lemma op_reachable_inv sessions o : op_reachable sessions o -> op_inv sessions o.
Proof.
  induction 1 as [|answers o o' _ IH Hs]; [|by eapply op_step_inv].
  split; cbn; try done.
  - rewrite <- list_fmap_compose. apply list_fmap_id.
  - apply length_filter.
  - rewrite <- list_fmap_compose. induction sessions as [|x l IH]; [done|exact IH].
Qed.

Lemma join_errors_app l k : foldl (fun r err => errors_Join r (Some err)) (join_errors l) k = join_errors (l ++ k).
Proof. unfold join_errors. by rewrite foldl_app. Qed.

Lemma join_errors_None l : join_errors l = None <-> l = [].
Proof.
  split; [|by intros ->]. induction l as [|err l _] using rev_ind; [done|]. rewrite <- join_errors_app. cbn.
  by destruct (join_errors l).
Qed.

(** The result is nil when nothing failed. *)
Lemma op_result_failed sessions o r : op_reachable sessions o -> ro_result o = Some r -> r = None <-> ro_failed o = [].
Proof.
  intros Hr Er. destruct (op_reachable_inv _ _ Hr) as [_ _ He Hres]. destruct (Hres r Er) as [-> Hd].
  rewrite (all_done_nil _ Hd), app_nil_r in He. rewrite join_errors_None.
  split; intros E; rewrite E in He; [by apply Permutation_nil_l in He|by apply Permutation_nil_r in He].
Qed.

Lemma sum_list_app (l k : list nat) : sum_list (l ++ k) = (sum_list l + sum_list k)%nat.
Proof. induction l as [|x l IH]; cbn; [done|]. rewrite IH. lia. Qed.

Lemma op_measure_step answers o o' : op_step answers o o' -> (op_measure o' < op_measure o)%nat.
Proof.
  assert (forall (pcs : list (Z * op_pc)) i x y, pcs !! i = Some x ->
    (sum_list (op_work <$> (<[i := y]> pcs).*2) + op_work x.2 = sum_list (op_work <$> pcs.*2) + op_work y.2)%nat) as Hsum.
  { intros pcs i x y (l1 & l2 & -> & ->)%(insert_split _ _ _ y).
    rewrite !fmap_app, !sum_list_app. cbn. lia. }
  unfold op_measure. destruct 1 as [i id r o Hi _|i id err o Hi _|o _ Hn].
  - destruct r as [err|]; cbn [op_returned ro_pcs ro_result].
    + specialize (Hsum _ _ _ (id, OSend err) Hi). cbn in Hsum. lia.
    + specialize (Hsum _ _ _ (id, ODone) Hi). cbn in Hsum. lia.
  - cbn [op_send ro_pcs ro_result]. specialize (Hsum _ _ _ (id, ODone) Hi). cbn in Hsum. lia.
  - cbn. rewrite Hn. lia.
Qed.

(** Some goroutine that has not ended. *)
Lemma busy_or_done (pcs : list (Z * op_pc)) : (exists i id p, pcs !! i = Some (id, p) /\ p <> ODone) \/ (forall id p, (id, p) ∈ pcs -> p = ODone).
Proof.
  destruct (decide (Exists (fun ip => ip.2 <> ODone) pcs)) as [He|Hn].
  - left. apply Exists_exists in He as ([id p] & Hin & Hp). apply list_elem_of_lookup in Hin as [i Hi]. by exists i, id, p.
  - right. intros id p Hin. destruct (decide (p = ODone)) as [|Hp]; [done|]. destruct Hn. apply Exists_exists. by exists (id, p).
Qed.

Lemma op_progress sessions answers o : op_reachable sessions o -> (forall id, exists r, answers id r) ->
  ro_result o = None -> exists o', op_step answers o o'.
Proof.
  intros Hr Ha Hn. destruct (busy_or_done (ro_pcs o)) as [(i & id & p & Hi & Hp)|Hd]; [|eexists; by apply ro_join].
  destruct p as [|err|]; [|..|done].
  - destruct (Ha id) as [r Hans]. eexists. by apply ro_call.
  - eexists. apply ro_send; [done|]. pose proof (oi_room _ _ (op_reachable_inv _ _ Hr)) as Hroom.
    destruct (insert_split _ _ _ (id, ODone) Hi) as (l1 & l2 & El & _). rewrite El in Hroom. rewrite busy_middle in Hroom.
    rewrite decide_False in Hroom by done. rewrite El. lia.
Qed.

Lemma op_terminates sessions answers o : op_reachable sessions o -> (forall id, exists r, answers id r) ->
  exists o', rtc (op_step answers) o o' /\ is_Some (ro_result o').
Proof.
  intros Hr Ha. remember (op_measure o) as n eqn:E. revert o Hr E. induction n as [n IH] using lt_wf_ind. intros o Hr ->.
  destruct (ro_result o) as [r|] eqn:Er; [exists o; rewrite Er; split; [done|by eexists]|].
  destruct (op_progress sessions answers o Hr Ha Er) as [o1 Hs].
  destruct (IH _ (op_measure_step _ _ _ Hs) o1) as (o' & Ho & Hres); [by eapply or_step|done|].
  exists o'. split; [by eapply rtc_l|done].
Qed.

(** C24. An operation on many sessions at once. [runSessionOperation] gives its
    channel exactly the room it needs: no goroutine blocks on its error. It returns
    only after every operation has, with the errors they returned, each once, joined
    in the order they were sent, so nil exactly when none failed; and it does
    return, by its own steps, whenever the operations do, in a number of steps that
    only the number of sessions bounds. *)
Theorem run_operation_spec sessions answers o : op_reachable sessions o ->
  (forall i id err, ro_pcs o !! i = Some (id, OSend err) -> (length (ro_errors o) < length (ro_pcs o))%nat) /\
  (forall r, ro_result o = Some r -> (ro_pcs o).*1 = sessions /\ (forall id p, (id, p) ∈ ro_pcs o -> p = ODone) /\
     (exists errs, errs ≡ₚ ro_failed o /\ r = join_errors errs) /\ (r = None <-> ro_failed o = [])) /\
  (op_measure o <= 2 * length sessions + 1)%nat /\ (forall o', op_step answers o o' -> (op_measure o' < op_measure o)%nat) /\
  ((forall id, exists r, answers id r) -> exists o', rtc (op_step answers) o o' /\ is_Some (ro_result o')).
Proof.
  intros Hr. pose proof (op_reachable_inv _ _ Hr) as [Hs Hroom He Hres]. split_and!.
  - intros i id err Hi. destruct (insert_split _ _ _ (id, ODone) Hi) as (l1 & l2 & El & _). rewrite El in Hroom |- *.
    rewrite busy_middle, decide_False in Hroom by done. lia.
  - intros r Er. pose proof (op_result_failed _ _ _ Hr Er). destruct (Hres r Er) as [-> Hd].
    rewrite (all_done_nil _ Hd), app_nil_r in He. split_and!; try done.
    by exists (ro_errors o).
  - unfold op_measure. assert (forall l, (sum_list (op_work <$> l) <= 2 * length l)%nat) as Hb.
    { induction l as [|p l IH]; cbn; [lia|]. assert (op_work p <= 2)%nat by (destruct p; cbn; lia). lia. }
    specialize (Hb (ro_pcs o).*2). rewrite length_fmap in Hb. rewrite <- Hs, length_fmap. destruct (ro_result o); lia.
  - intros o'. apply op_measure_step.
  - by eapply op_terminates.
Qed.

Lemma run_operation_spec_witness : exists o, op_reachable [1; 2] o /\ ro_result o = Some (Some ErrSessionNotFound) /\ ro_failed o = [ErrSessionNotFound].
Proof.
  set (fails := fun (id : Z) (r : option error) => r = if id =? 1 then Some ErrSessionNotFound else None).
  set (o1 := op_returned 0 1 (Some ErrSessionNotFound) (runSessionOperation [1; 2])).
  set (o2 := op_returned 1 2 None o1). set (o3 := op_send 0 1 ErrSessionNotFound o2). set (o := op_join o3).
  assert (op_reachable [1; 2] o) as Hr.
  { apply (or_step _ fails o3); [apply (or_step _ fails o2); [apply (or_step _ fails o1); [apply (or_step _ fails _ _ (or_init _))|]|]|].
    - apply ro_call; reflexivity.
    - apply ro_call; reflexivity.
    - apply ro_send; [reflexivity|cbn; lia].
    - apply ro_join; [|reflexivity]. intros id p. cbn. rewrite !elem_of_cons. intros [[= _ ->]|[[= _ ->]|[]%elem_of_nil]]; done. }
  exists o. destruct (run_operation_spec [1; 2] fails o Hr) as (_ & Hres & _).
  destruct (Hres _ eq_refl) as (_ & _ & _ & _). split; [exact Hr|]. split; reflexivity.
Defined.

(** ** What its caller uses *)

(** No call is made by the steps of the goroutines that remain. *)
Definition never (id : Z) (r : option error) : Prop := False.

(** The sessions whose operation has been called. *)
Definition called (o : RunOp) (P : Z -> Prop) : Prop := forall id p, (id, p) ∈ ro_pcs o -> p <> OCall -> P id.

Lemma called_step (P : Z -> Prop) o o' : op_step never o o' -> called o P -> called o' P.
Proof.
  intros Hs Hc. destruct Hs as [i id r o _ []|i id err o Hi _|o _ _]; [|done].
  intros j p Hin Hp. cbn in Hin. apply list_elem_of_lookup in Hin as [k Hk].
  rewrite list_lookup_insert_Some in Hk. destruct Hk as [(-> & [= <- <-] & _)|[_ Hk]].
  - eapply Hc; [by eapply list_elem_of_lookup_2|done].
  - eapply Hc; [by eapply list_elem_of_lookup_2|done].
Qed.

Lemma called_returned (P Q : Z -> Prop) i id r o : ro_pcs o !! i = Some (id, OCall) -> called o P ->
  (forall j, P j -> Q j) -> Q id -> called (op_returned i id r o) Q.
Proof.
  intros Hi Hc HPQ Hid j p Hin Hp.
  assert (exists q, ro_pcs (op_returned i id r o) = <[i := (id, q)]> (ro_pcs o)) as [q Eq] by (destruct r; by eexists).
  rewrite Eq in Hin. apply list_elem_of_lookup in Hin as [k Hk].
  rewrite list_lookup_insert_Some in Hk. destruct Hk as [(-> & [= <- <-] & _)|[_ Hk]]; [done|].
  apply HPQ. eapply Hc; [by eapply list_elem_of_lookup_2|done].
Qed.

Lemma called_initial sessions P : called (runSessionOperation sessions) P.
Proof. intros id p Hin Hp. apply list_elem_of_fmap in Hin as (j & [= -> ->] & _). done. Qed.

Lemma called_all sessions o r P : op_reachable sessions o -> ro_result o = Some r -> called o P -> forall id, id ∈ sessions -> P id.
Proof.
  intros Hr Hres Hc id Hin. destruct (op_reachable_inv _ _ Hr) as [Hs _ _ Hd]. destruct (Hd _ Hres) as [_ Hdone].
  rewrite <- Hs in Hin. apply list_elem_of_fmap in Hin as ([j p] & -> & Hj). apply (Hc j p); [done|]. by rewrite (Hdone _ _ Hj).
Qed.

Lemma op_reachable_returned sessions i id r o : op_reachable sessions o -> ro_pcs o !! i = Some (id, OCall) ->
  op_reachable sessions (op_returned i id r o).
Proof. intros Hr Hi. eapply (or_step _ (fun _ _ => True)); [done|]. by apply ro_call. Qed.

Lemma op_returned_failed i id r o : ro_failed (op_returned i id r o) = ro_failed o ++ option_list r.
Proof. destruct r; cbn; [done|by rewrite app_nil_r]. Qed.

Lemma op_never_failed o o' : op_step never o o' -> ro_failed o' = ro_failed o.
Proof. by intros [? ? ? ? ? []|?|?]. Qed.

Lemma op_call_session sessions i id o : op_reachable sessions o -> ro_pcs o !! i = Some (id, OCall) -> id ∈ sessions.
Proof.
  intros Hr Hi. rewrite <- (oi_sessions _ _ (op_reachable_inv _ _ Hr)). apply list_elem_of_fmap.
  exists (id, OCall). split; [done|]. by eapply list_elem_of_lookup_2.
Qed.
