(* ===== verification/ManagerClose.v ===== *)
(** pty/manager.go: [Close] of the Manager as a whole: its two critical sections,
    the waits between them ([allSessionsDone] and the grace period among them) and
    the operations it runs on many processes at once, while everything else goes
    on. It is safe, and it can always complete: the starts, the sessions with their
    attachments, the removals, the workers and the two operations end without help
    from users, sinks or queues. *)

From S2P Require Import Prelude Errors BigEndian PtyTypes Attachment Subscription History Manager ManagerRun ManagerSpec SessionOps.

(** Where the body of [closeOnce] is: in [starts.Wait], in [finishObservers], in the
    two operations with the wait for the grace period between them, in the waits for
    the sessions and the workers, at its end. [err] is [closeErr]. *)
Inductive close_phase :=
| CIdle
| CStarts (active observers : list Z)
| CObservers (active observers : list Z)
| CTerminate (active : list Z) (o : RunOp)
| CGrace (active : list Z) (err : option error)
| CKill (err : option error) (o : RunOp)
| CWait (err : option error)
| CEnd (err : option error).

(** The Manager and [Close]. History: the sessions that were active when it began,
    those whose Terminate and whose Kill it called, those it found ended, and the
    errors of these calls. *)
Record CState := mkCState {
  c_m : MState;
  c_phase : close_phase;
  c_active : list Z;
  c_terminated : list Z;
  c_killed : list Z;
  c_ended : list Z;
  c_failed : list error;
}.

Definition initial_cstate : CState := mkCState initial_mstate CIdle [] [] [] [] [].

(** [s.done] is closed: [run] has returned. *)
Definition session_done (st : MState) (id : Z) : Prop := pcs st !! id = None.

Definition set_phase (p : close_phase) (c : CState) : CState :=
  mkCState (c_m c) p (c_active c) (c_terminated c) (c_killed c) (c_ended c) (c_failed c).
Definition set_c_m (st : MState) (c : CState) : CState :=
  mkCState st (c_phase c) (c_active c) (c_terminated c) (c_killed c) (c_ended c) (c_failed c).

Inductive close_step (cfg : ManagerConfig) : CState -> CState -> Prop :=
(* everything else *)
| cs_other st c :
    m_step cfg (c_m c) st -> waiting st = waiting (c_m c) -> closed st = closed (c_m c) -> close_step cfg c (set_c_m st c)
| cs_begin active observers m c :
    c_phase c = CIdle -> waiting (c_m c) = None -> close_begin (mgr (c_m c)) = (active, observers, m) ->
    close_step cfg c (mkCState
      (set_waiting (Some (map_to_list (sessions (mgr (c_m c)))).*1) false (set_mgr m (c_m c)))
      (CStarts active observers) active [] [] [] [])
(* starts.Wait *)
| cs_starts active observers c :
    c_phase c = CStarts active observers -> opening (c_m c) = ∅ -> reaping (c_m c) = 0 ->
    close_step cfg c (set_phase (CObservers active observers) c)
(* finishObservers; their workers return once the context is cancelled (ms_observer_return) *)
| cs_observer active id observers c :
    c_phase c = CObservers active (id :: observers) ->
    close_step cfg c (set_phase (CObservers active observers)
      (set_c_m (set_mgr (recordObserverClose ObserverManagerClosed (mgr (c_m c))) (c_m c)) c))
| cs_observers active c :
    c_phase c = CObservers active [] -> close_step cfg c (set_phase (CTerminate active (runSessionOperation active)) c)
(* Terminate of every active session *)
| cs_terminate active o i id r c :
    c_phase c = CTerminate active o -> ro_pcs o !! i = Some (id, OCall) ->
    close_step cfg c (mkCState (c_m c) (CTerminate active (op_returned i id r o)) (c_active c)
      (c_terminated c ++ [id]) (c_killed c) (c_ended c) (c_failed c ++ option_list r))
| cs_terminate_op active o o' c :
    c_phase c = CTerminate active o -> op_step never o o' -> close_step cfg c (set_phase (CTerminate active o') c)
| cs_terminated active o r c :
    c_phase c = CTerminate active o -> ro_result o = Some r -> close_step cfg c (set_phase (CGrace active r) c)
(* the grace period: all sessions end, or the deadline passes, or there is none *)
| cs_all_done active err c :
    c_phase c = CGrace active err -> 0 < GracefulKillTimeout cfg -> (forall id, id ∈ active -> session_done (c_m c) id) ->
    close_step cfg c (mkCState (c_m c) (CKill err (runSessionOperation [])) (c_active c) (c_terminated c) (c_killed c) active
      (c_failed c))
| cs_deadline active err c :
    c_phase c = CGrace active err -> close_step cfg c (set_phase (CKill err (runSessionOperation active)) c)
(* Kill of those that have not ended *)
| cs_kill_done err o i id c :
    c_phase c = CKill err o -> ro_pcs o !! i = Some (id, OCall) -> session_done (c_m c) id ->
    close_step cfg c (mkCState (c_m c) (CKill err (op_returned i id None o)) (c_active c) (c_terminated c)
      (c_killed c) (c_ended c ++ [id]) (c_failed c))
| cs_kill err o i id r c :
    c_phase c = CKill err o -> ro_pcs o !! i = Some (id, OCall) -> ~ session_done (c_m c) id ->
    close_step cfg c (mkCState (c_m c) (CKill err (op_returned i id r o)) (c_active c) (c_terminated c)
      (c_killed c ++ [id]) (c_ended c) (c_failed c ++ option_list r))
| cs_kill_op err o o' c :
    c_phase c = CKill err o -> op_step never o o' -> close_step cfg c (set_phase (CKill err o') c)
| cs_killed err o r c :
    c_phase c = CKill err o -> ro_result o = Some r -> close_step cfg c (set_phase (CWait (errors_Join err r)) c)
(* the sessions' done, workers.Wait, the last critical section *)
| cs_end err l c :
    c_phase c = CWait err -> waiting (c_m c) = Some l -> (forall id, id ∈ l -> session_done (c_m c) id) ->
    workers_over (workers (c_m c)) ->
    close_step cfg c (set_phase (CEnd err) (set_c_m (set_waiting (Some l) true (set_mgr (close_end (mgr (c_m c))) (c_m c))) c)).

Inductive close_reachable (cfg : ManagerConfig) : CState -> Prop :=
| cr_init : close_reachable cfg initial_cstate
| cr_step c c' : close_reachable cfg c -> close_step cfg c c' -> close_reachable cfg c'.

(** *** Once the Manager is closing, no Open is under way that was not before *)

Definition starts_over (st : MState) : Prop := opening st = ∅ /\ reaping st = 0.

Lemma starts_over_step cfg st st' : closing (mgr st) = true -> m_step cfg st st' -> starts_over st -> starts_over st'.
Proof.
  unfold starts_over. intros Hcl Hs [Ho Hr].
  destruct Hs; cbn in *; try done; try (rewrite Ho, lookup_empty in *; done).
  - unfold open_admit in H. rewrite Hcl in H. repeat case_match; simplify_eq.
  - lia.
Qed.

(** No attachment and no subscription is added, so workers that are over stay over. *)
Lemma workers_over_step cfg st st' : closing (mgr st) = true -> m_step cfg st st' ->
  workers_over (workers st) -> workers_over (workers st').
Proof.
  unfold workers_over. intros Hcl Hs [Ha Ho].
  assert (forall aid w, wk_attachments (workers st) !! aid = Some w -> exists reason, w = AReturned reason) as Hret.
  { intros aid w Hw. specialize (Ha _ _ Hw). destruct w; [done..|by eexists]. }
  destruct Hs; cbn in *; try done;
    try (match goal with H : wk_attachments _ !! _ = Some ?w |- _ => destruct (Hret _ _ H) as [? ?]; congruence end);
    try (rewrite Ho, lookup_empty in *; done).
  - unfold attach in H. by rewrite Hcl in H.
  - unfold subscribe in H. by rewrite Hcl in H.
Qed.

(** *** Invariant *)

Definition all_terminated (c : CState) : Prop := forall id, id ∈ c_active c -> id ∈ c_terminated c.
Definition killed_or_ended (c : CState) (id : Z) : Prop := id ∈ c_killed c \/ id ∈ c_ended c.

Definition phase_inv (c : CState) : Prop :=
  match c_phase c with
  | CIdle => True
  | CStarts active _ => c_active c = active /\ c_failed c = []
  | CObservers active _ => c_active c = active /\ c_failed c = [] /\ starts_over (c_m c)
  | CTerminate active o => c_active c = active /\ c_failed c = ro_failed o /\ starts_over (c_m c) /\
      op_reachable active o /\ called o (fun id => id ∈ c_terminated c)
  | CGrace active err => c_active c = active /\ (err = None <-> c_failed c = []) /\ starts_over (c_m c) /\ all_terminated c
  | CKill err o => all_terminated c /\ (err = None /\ ro_failed o = [] <-> c_failed c = []) /\ starts_over (c_m c) /\
      (op_reachable (c_active c) o /\ called o (killed_or_ended c) \/ op_reachable [] o /\ forall id, id ∈ c_active c -> id ∈ c_ended c)
  | CWait err => all_terminated c /\ (err = None <-> c_failed c = []) /\ starts_over (c_m c) /\
      forall id, id ∈ c_active c -> killed_or_ended c id
  | CEnd err => all_terminated c /\ (err = None <-> c_failed c = []) /\ starts_over (c_m c) /\
      forall id, id ∈ c_active c -> killed_or_ended c id
  end.

(** Once it has begun: who is asked to end, and who still runs. *)
Record close_inv (cfg : ManagerConfig) (c : CState) : Prop := {
  cv_reachable : m_reachable cfg (c_m c);
  cv_waiting : waiting (c_m c) = None <-> c_phase c = CIdle;
  cv_closed : closed (c_m c) = true <-> exists err, c_phase c = CEnd err;
  cv_running id : c_phase c <> CIdle -> pcs (c_m c) !! id = Some PRun -> id ∈ c_active c;
  cv_only id : id ∈ c_terminated c \/ id ∈ c_killed c -> id ∈ c_active c;
  cv_phase : phase_inv c;
}.

Lemma closing_begun cfg c : manager_config_ok cfg -> close_inv cfg c -> c_phase c <> CIdle -> closing (mgr (c_m c)) = true.
Proof.
  intros Hcfg [Hr Hw _ _ _ _] Hn. destruct (m_reachable_inv _ _ Hcfg Hr) as [I _].
  rewrite (bi_closing _ _ I). apply bool_decide_eq_true.
  destruct (waiting (c_m c)); [by eexists|]. by destruct Hn; apply Hw.
Qed.

(** A closing Manager starts no [run]. *)
Lemma running_step cfg st st' id : closing (mgr st) = true -> m_step cfg st st' ->
  pcs st' !! id = Some PRun -> pcs st !! id = Some PRun.
Proof.
  intros Hcl Hs. destruct Hs; cbn; try done.
  - unfold open_commit in *. cbn in *. by rewrite Hcl in *.
  - rewrite lookup_insert_Some. by intros [[_ [=]]|[_ ?]].
  - rewrite lookup_insert_Some. by intros [[_ [=]]|[_ ?]].
  - by intros [_ ?]%lookup_delete_Some.
Qed.

(** Changes of the Manager alone. *)
Lemma phase_inv_manager st c : phase_inv c -> (starts_over (c_m c) -> starts_over st) -> phase_inv (set_c_m st c).
Proof.
  unfold phase_inv. intros Hp Hs. cbn.
  destruct (c_phase c) as [| | |active o|active err|err o|err|err]; try done; destruct Hp as (? & ? & Hso);
    (split; [done|]); (split; [done|]); [auto|..]; destruct Hso as (Hso & ?); (split; [auto|done]).
Qed.

(** The moves of [Close] after its beginning that leave the Manager's own flags. *)
Lemma close_inv_move cfg c c' : close_inv cfg c -> c_phase c <> CIdle -> (forall err, c_phase c <> CEnd err) ->
  m_reachable cfg (c_m c') -> waiting (c_m c') = waiting (c_m c) -> closed (c_m c') = closed (c_m c) ->
  pcs (c_m c') = pcs (c_m c) -> c_active c' = c_active c ->
  c_phase c' <> CIdle -> (forall err, c_phase c' <> CEnd err) ->
  (forall id, id ∈ c_terminated c' \/ id ∈ c_killed c' -> id ∈ c_active c') -> phase_inv c' -> close_inv cfg c'.
Proof.
  intros [_ Hw Hcl Hrun _ _] Hn1 He1 Hr Ew Ec Ep Ea Hn2 He2 Ho Hp. split; [done|..|done|done].
  - rewrite Ew. tauto.
  - rewrite Ec, Hcl. split; intros [err E]; [by destruct (He1 err)|by destruct (He2 err)].
  - rewrite Ep, Ea. auto.
Qed.

Lemma close_other_inv cfg st c : manager_config_ok cfg -> close_inv cfg c -> m_step cfg (c_m c) st ->
  waiting st = waiting (c_m c) -> closed st = closed (c_m c) -> close_inv cfg (set_c_m st c).
Proof.
  intros Hcfg I Hs Hw Hc. split; cbn.
  - eapply mr_step; [apply I|done].
  - rewrite Hw. apply I.
  - rewrite Hc. apply I.
  - intros id Hn Hid. eapply (cv_running _ _ I); [done|].
    eapply running_step; [by eapply closing_begun|done..].
  - apply I.
  - assert (c_phase c = CIdle \/ c_phase c <> CIdle) as [E|Hn] by (destruct (c_phase c); auto);
      [unfold phase_inv; cbn; by rewrite E|].
    apply phase_inv_manager; [apply I|]. apply (starts_over_step cfg); [by eapply closing_begun|done].
Qed.

Lemma close_begin_inv cfg active observers m c : manager_config_ok cfg -> close_inv cfg c ->
  c_phase c = CIdle -> waiting (c_m c) = None -> close_begin (mgr (c_m c)) = (active, observers, m) ->
  close_inv cfg (mkCState (set_waiting (Some (map_to_list (sessions (mgr (c_m c)))).*1) false (set_mgr m (c_m c)))
    (CStarts active observers) active [] [] [] []).
Proof.
  intros Hcfg [Hr _ _ _ _ _] Hph Hn Hb. split; cbn; [|done| | |set_solver|done].
  - eapply mr_step; [done|]. replace m with (close_begin (mgr (c_m c))).2 by (by rewrite Hb).
    by apply ms_close_begin.
  - split; [done|]. by intros [err [=]].
  - intros id _ Hid. destruct (m_reachable_inv _ _ Hcfg Hr) as [I _].
    destruct (bi_run _ _ I _ _ Hid) as [s Hs]; [done|].
    destruct (so_running _ _ _ _ (bi_sess _ _ I _ _ Hs) Hid) as [Ha _].
    injection Hb as <- _ _. apply list_elem_of_fmap. exists (id, s). split; [done|].
    apply list_elem_of_filter. split; [done|]. by apply elem_of_map_to_list.
Qed.

Lemma close_end_inv cfg err l c : close_inv cfg c -> c_phase c = CWait err -> waiting (c_m c) = Some l ->
  (forall id, id ∈ l -> session_done (c_m c) id) -> workers_over (workers (c_m c)) ->
  close_inv cfg (set_phase (CEnd err) (set_c_m (set_waiting (Some l) true (set_mgr (close_end (mgr (c_m c))) (c_m c))) c)).
Proof.
  intros [Hr _ Hcl Hrun Ho Hp] Hph Hl Hd Hwk. unfold phase_inv in Hp. rewrite Hph in Hp.
  destruct Hp as (Ht & Herr & [Hop Hre] & Hk). split; cbn; [|done| | |done|done].
  - eapply mr_step; [done|]. apply ms_close_end; try done.
    apply not_true_is_false. intros [e' E]%Hcl. congruence.
  - split; [|done]. by eexists.
  - intros id _. apply Hrun. congruence.
Qed.

Lemma errors_Join_None a b : errors_Join a b = None <-> a = None /\ b = None.
Proof. destruct a, b; cbn; naive_solver. Qed.

Lemma close_kill_inv cfg err o i id r killed ended c : close_inv cfg c -> c_phase c = CKill err o ->
  ro_pcs o !! i = Some (id, OCall) -> (forall j, j ∈ killed -> j = id) -> (id ∈ killed \/ id ∈ ended) ->
  close_inv cfg (mkCState (c_m c) (CKill err (op_returned i id r o)) (c_active c) (c_terminated c)
    (c_killed c ++ killed) (c_ended c ++ ended) (c_failed c ++ option_list r)).
Proof.
  intros I Hph Hi Hk Hin. pose proof I as [Hr _ _ _ Ho Hp]. unfold phase_inv in Hp. rewrite Hph in Hp.
  destruct Hp as (Hall & Herr & Hso & Hop).
  apply (close_inv_move cfg c); try done; [congruence|congruence|cbn|unfold phase_inv; cbn -[op_returned]].
  - assert (id ∈ c_active c) by (destruct Hop as [[Hrch _]|[Hrch _]]; pose proof (op_call_session _ _ _ _ Hrch Hi); set_solver).
    intros j. rewrite elem_of_app. intros [?|[?|Hj%Hk]]; [auto..|by subst].
  - split_and!; [done| |done|].
    + rewrite op_returned_failed, !app_nil. tauto.
    + unfold killed_or_ended in *. cbn -[op_returned].
      destruct Hop as [[Hrch Hcd]|[Hrch He]]; [left|right]; (split; [by apply op_reachable_returned|]).
      * apply (called_returned _ _ i id r) with (1 := Hi) (2 := Hcd); set_solver.
      * set_solver.
Qed.

Lemma close_step_inv cfg c c' : manager_config_ok cfg -> close_inv cfg c -> close_step cfg c c' -> close_inv cfg c'.
Proof.
  intros Hcfg I Hs. pose proof I as [Hr _ _ _ Honly Hp]. unfold phase_inv in Hp.
  destruct Hs as [st c Hs Hwt Hc|active obs m c Hph Hn Hb|active obs c Hph Ho Hre|active id obs c Hph|active c Hph
    |active o i id r c Hph Hi|active o o' c Hph Hop|active o r c Hph Hres|active err c Hph Ht Hd|active err c Hph
    |err o i id c Hph Hi Hd|err o i id r c Hph Hi Hd|err o o' c Hph Hop|err o r c Hph Hres|err l c Hph Hl Hd Hwk];
    [by apply close_other_inv|by eapply close_begin_inv|..|by eapply close_end_inv]; rewrite Hph in Hp.
  9: { pose proof (close_kill_inv cfg err o i id None [] [id] c I Hph Hi) as K. rewrite !app_nil_r in K. apply K; set_solver. }
  9: { pose proof (close_kill_inv cfg err o i id r [id] [] c I Hph Hi) as K. rewrite !app_nil_r in K. apply K; set_solver. }
  all: apply (close_inv_move cfg c); [done|congruence|congruence|try exact Hr|done|done|done|done|done|done|try exact Honly|unfold phase_inv; cbn -[op_returned]].
  - destruct Hp as (<- & Hf). by split_and!.
  - eapply mr_step; [done|]. apply ms_observer_closed.
  - done.
  - destruct Hp as (<- & Hf & Hso). split_and!; [done..|apply or_init|apply called_initial].
  - destruct Hp as (<- & Hf & Hso & Hop & Hcd). cbn. pose proof (op_call_session _ _ _ _ Hop Hi). set_solver.
  - destruct Hp as (<- & Hf & Hso & Hop & Hcd). split_and!; [done| |done..|by apply op_reachable_returned|].
    + by rewrite op_returned_failed, Hf.
    + eapply called_returned; [done..|set_solver|set_solver].
  - destruct Hp as (<- & Hf & Hso & Hrch & Hcd). rewrite (op_never_failed _ _ Hop).
    split_and!; [done..|by eapply or_step|by eapply called_step].
  - destruct Hp as (<- & Hf & Hso & Hrch & Hcd). rewrite Hf, <- (op_result_failed _ _ _ Hrch Hres).
    split_and!; [done..|]. intros id Hin. by apply (called_all _ _ _ _ Hrch Hres Hcd).
  - destruct Hp as (<- & Hf & Hso & Hall). rewrite <- Hf. split_and!; [done|tauto|done..|]. right. split; [apply or_init|done].
  - destruct Hp as (<- & Hf & Hso & Hall). rewrite <- Hf. split_and!; [done|tauto|done..|]. left. split; [apply or_init|apply called_initial].
  - destruct Hp as (Hall & Hf & Hso & Hk). rewrite (op_never_failed _ _ Hop). split_and!; [done..|].
    destruct Hk as [[Hrch Hcd]|[Hrch He]]; [left|right]; (split; [by eapply or_step|]); [by eapply called_step|done].
  - destruct Hp as (Hall & Hf & Hso & Hk). unfold killed_or_ended in *. cbn.
    assert (r = None <-> ro_failed o = []) as Hre by (destruct Hk as [[Hrch _]|[Hrch _]]; by eapply op_result_failed).
    rewrite errors_Join_None, Hre. split_and!; [done..|]. intros id Hin.
    destruct Hk as [[Hrch Hcd]|[Hrch He]]; [|by auto]. exact (called_all _ _ _ _ Hrch Hres Hcd id Hin).
Qed.

Lemma close_reachable_inv cfg c : manager_config_ok cfg -> close_reachable cfg c -> close_inv cfg c.
Proof.
  intros Hcfg. induction 1 as [|c c' _ IH Hs]; [|by eapply close_step_inv].
  split; cbn; [apply mr_init|done| |done|set_solver|done]. split; [done|]. by intros [err [=]].
Qed.

(** *** What Close does *)

(** [starts.Wait] has returned. *)
Definition starts_waited (p : close_phase) : Prop := match p with CIdle | CStarts _ _ => False | _ => True end.

(** C8. [Close] as a whole, with everything else going on around it. It changes the
    Manager as its two critical sections do, so all that holds of the Manager holds
    during it. From its beginning on, the processes that run are among the sessions
    it then found active: no [Open] adds one, and once [starts.Wait] has returned
    none is under way. It calls Terminate and Kill on those sessions alone, and when
    it has returned it has terminated every one of them, has killed or found ended
    every one of them, and returns nil exactly when each of these calls did. *)
Theorem manager_close cfg c : manager_config_ok cfg -> close_reachable cfg c ->
  m_reachable cfg (c_m c) /\
  (c_phase c <> CIdle -> closing (mgr (c_m c)) = true /\ forall id, pcs (c_m c) !! id = Some PRun -> id ∈ c_active c) /\
  (starts_waited (c_phase c) -> opening (c_m c) = ∅ /\ reaping (c_m c) = 0) /\
  (forall id, id ∈ c_terminated c \/ id ∈ c_killed c -> id ∈ c_active c) /\
  (forall err, c_phase c = CEnd err -> closed (c_m c) = true /\ (err = None <-> c_failed c = []) /\
     forall id, id ∈ c_active c -> id ∈ c_terminated c /\ (id ∈ c_killed c \/ id ∈ c_ended c)).
Proof.
  intros Hcfg Hr. pose proof (close_reachable_inv _ _ Hcfg Hr) as I. pose proof I as [Hm Hw Hcl Hrun Honly Hp].
  unfold phase_inv in Hp. split_and!; [done|..|done|].
  - intros Hn. split; [by eapply closing_begun|auto].
  - destruct (c_phase c) as [| | |active o|active err|err o|err|err]; try done; by destruct Hp as (? & ? & [? ?] & ?) || by destruct Hp as (? & ? & [? ?]).
  - intros err E. split; [apply Hcl; by eexists|]. rewrite E in Hp. destruct Hp as (Ht & Herr & _ & Hk). split; [done|].
    intros id Hid. split; [auto|by apply Hk].
Qed.

(** *** Close can always complete *)

(** A step in which no user, sink or full queue closes an attachment or a
    subscription: an attachment is finished only by the Manager itself. *)
Definition unhelped (st st' : MState) : Prop :=
  (forall aid reason, wk_attachments (workers st) !! aid = Some AWorking ->
     wk_attachments (workers st') !! aid = Some (AFinished reason) -> own_finish st aid reason) /\
  (forall id, wk_observers (workers st) !! id = Some false -> wk_observers (workers st') !! id <> Some true).

Lemma unhelped_same st st' : workers st' = workers st -> unhelped st st'.
Proof. unfold unhelped. intros ->. split; congruence. Qed.

Definition own_step (cfg : ManagerConfig) (c c' : CState) : Prop := close_step cfg c c' /\ unhelped (c_m c) (c_m c').

Lemma own_same cfg c c' : close_step cfg c c' -> workers (c_m c') = workers (c_m c) -> own_step cfg c c'.
Proof. split; [done|by apply unhelped_same]. Qed.

(** A step of the rest of the program that is not one of [Close]'s. *)
Definition quiet (cfg : ManagerConfig) (st st' : MState) : Prop :=
  m_step cfg st st' /\ waiting st' = waiting st /\ closed st' = closed st /\ unhelped st st'.

Lemma quiet_same cfg st st' :
  m_step cfg st st' -> waiting st' = waiting st -> closed st' = closed st -> workers st' = workers st -> quiet cfg st st'.
Proof. repeat split; try done; by apply unhelped_same. Qed.

Lemma quiet_reachable cfg st st' : m_reachable cfg st -> rtc (quiet cfg) st st' -> m_reachable cfg st'.
Proof. intros Hr. induction 1 as [|st st1 st' [Hs _] _ IH]; [done|]. apply IH. by eapply mr_step. Qed.

Lemma quiet_waiting cfg st st' : rtc (quiet cfg) st st' -> waiting st' = waiting st.
Proof. induction 1 as [|st st1 st' (_ & Hw & _) _ IH]; [done|]. congruence. Qed.

Lemma quiet_close cfg st st' c : c_m c = st -> rtc (quiet cfg) st st' -> rtc (own_step cfg) c (set_c_m st' c).
Proof.
  intros <- Hq. remember (c_m c) as st eqn:E. revert c E.
  induction Hq as [st|st st1 st' (Hs & Hw & Hc & Hu) _ IH]; intros c ->; [by destruct c|].
  eapply rtc_l; [split; [by apply cs_other|exact Hu]|]. exact (IH (set_c_m st1 c) eq_refl).
Qed.

(** *** The workers end *)

(** What the end of some workers keeps. *)
Record same_rest (st st' : MState) : Prop := {
  rest_opening : opening st' = opening st;
  rest_reaping : reaping st' = reaping st;
  rest_pcs : pcs st' = pcs st;
  rest_removals : removals st' = removals st;
  rest_waiting : waiting st' = waiting st;
  rest_snapshots : wk_snapshots (workers st') = wk_snapshots (workers st);
  rest_done aid : att_done (workers st) aid -> att_done (workers st') aid;
}.

Lemma same_rest_refl st : same_rest st st.
Proof. by split. Qed.
Lemma same_rest_trans st1 st2 st3 : same_rest st1 st2 -> same_rest st2 st3 -> same_rest st1 st3.
Proof. intros [] []. split; try congruence. auto. Qed.

Lemma own_finish_rest st st' aid reason : same_rest st st' -> own_finish st aid reason -> own_finish st' aid reason.
Proof.
  intros [_ _ Hp Hr Hw Hs _] [aid' ?|id aid' ? Hin|o r aid' ? ?].
  - apply of_closing. by rewrite Hw.
  - apply (of_drain _ id); [by rewrite Hp|]. unfold snapshot. by rewrite Hs.
  - apply (of_removal _ o); [by rewrite Hr|done].
Qed.

Lemma att_done_set ws aid w j :
  (returned w \/ ~ att_done ws aid) -> att_done ws j -> att_done (set_attachment aid w ws) j.
Proof. unfold att_done. cbn. rewrite lookup_insert. case_decide; [subst; tauto|done]. Qed.

(** The finish of an attachment records it, if it is still registered. *)
Lemma record_end cfg st aid reason :
  wk_attachments (workers st) !! aid = Some (AFinished reason) ->
  exists st', rtc (quiet cfg) st st' /\ same_rest st st' /\ workers st' = workers st.
Proof.
  intros Hw. destruct (handles st !! aid) as [id|] eqn:Eh; [|by exists st; split_and!; [|apply same_rest_refl|]].
  pose proof (ms_detach cfg (infoLocked (new_session 0)) id aid reason st Eh (or_introl Hw)) as Hs.
  eexists. split; [by apply rtc_once, quiet_same; [exact Hs|..]|]. by split.
Qed.

Lemma return_ends cfg st aid reason : wk_attachments (workers st) !! aid = Some (AFinished reason) ->
  exists st', rtc (quiet cfg) st st' /\ same_rest st st' /\ att_done (workers st') aid.
Proof.
  intros Hw. destruct (record_end cfg st aid reason Hw) as (st1 & Hq & Hr & Ew). rewrite <- Ew in Hw.
  set (st2 := set_workers (set_attachment aid (AReturned reason) (workers st1)) st1). exists st2. split_and!.
  - eapply rtc_r; [exact Hq|]. split; [by apply ms_worker_return|]. split_and!; [done..|]. split; cbn; [|congruence].
    intros j r. rewrite lookup_insert. case_decide; congruence.
  - eapply same_rest_trans; [exact Hr|]. split; try done. intros j. apply att_done_set. by left.
  - unfold att_done. cbn. by rewrite lookup_insert_eq.
Qed.

Lemma worker_ends cfg st aid reason : own_finish st aid reason ->
  exists st', rtc (quiet cfg) st st' /\ same_rest st st' /\ att_done (workers st') aid.
Proof.
  intros Hf. destruct (wk_attachments (workers st) !! aid) as [[|r|r]|] eqn:Ew; [|by eapply return_ends|..];
    [|by exists st; (split; [done|]); (split; [apply same_rest_refl|]); unfold att_done; rewrite Ew..].
  set (st1 := set_workers (set_attachment aid (AFinished reason) (workers st)) st).
  assert (wk_attachments (workers st1) !! aid = Some (AFinished reason)) as Ew1 by apply lookup_insert_eq.
  destruct (return_ends cfg st1 aid reason Ew1) as (st' & Hq & Hr & Hd). exists st'. split_and!; [|..|done].
  - eapply rtc_l; [|exact Hq]. split; [apply ms_finish; auto|]. split_and!; [done..|]. split; cbn; [|congruence].
    intros j r. rewrite lookup_insert. case_decide; [|congruence]. subst j. by intros _ [= <-].
  - eapply same_rest_trans; [|exact Hr]. split; try done. intros j. apply att_done_set. right.
    unfold att_done. rewrite Ew. by intros [].
Qed.

Lemma workers_end cfg st aids : (forall aid, aid ∈ aids -> exists reason, own_finish st aid reason) ->
  exists st', rtc (quiet cfg) st st' /\ same_rest st st' /\ Forall (att_done (workers st')) aids.
Proof.
  revert st. induction aids as [|aid aids IH]; intros st Hf; [by exists st; split; [|split; [apply same_rest_refl|]]|].
  destruct (Hf aid ltac:(left)) as [reason Hr]. destruct (worker_ends cfg st aid reason Hr) as (st1 & Hq1 & Hr1 & Hd1).
  destruct (IH st1) as (st' & Hq & Hr' & Hd).
  { intros j Hj. destruct (Hf j ltac:(by right)) as [rj Hrj]. exists rj. by eapply own_finish_rest. }
  exists st'. split_and!; [by etrans|by eapply same_rest_trans|]. constructor; [by apply (rest_done _ _ Hr')|done].
Qed.

(** Those of the subscriptions return once the Manager's context is cancelled. *)
Lemma subscriptions_end cfg st : is_Some (waiting st) ->
  exists st', rtc (quiet cfg) st st' /\ same_rest st st' /\ wk_observers (workers st') = ∅ /\
    wk_attachments (workers st') = wk_attachments (workers st).
Proof.
  intros Hw. remember (size (wk_observers (workers st))) as n eqn:E. revert st Hw E.
  induction n as [|n IH]; intros st Hw E; [exists st; symmetry in E; apply map_size_empty_iff in E; by split; [|split; [apply same_rest_refl|]]|].
  assert (wk_observers (workers st) <> ∅) as (id & b & Hid)%map_choose by (intros Ho; by rewrite Ho, map_size_empty in E).
  set (st1 := set_workers (set_observers (delete id (wk_observers (workers st))) (workers st)) st).
  destruct (IH st1) as (st' & Hq & Hr & Ho & Ha); [done|cbn; rewrite map_size_delete, Hid; cbn; lia|].
  exists st'. split_and!; [|by eapply same_rest_trans; [|exact Hr]; split|done..].
  eapply rtc_l; [|exact Hq]. split; [eapply ms_observer_return; eauto|]. split_and!; [done..|].
  split; cbn; [congruence|]. intros j Hj. rewrite lookup_delete_Some. intros [_ ?]. congruence.
Qed.

(** All of them return once [Close] has begun. *)
Lemma all_workers_end cfg st : is_Some (waiting st) ->
  exists st', rtc (quiet cfg) st st' /\ same_rest st st' /\ workers_over (workers st').
Proof.
  intros Hw. destruct (workers_end cfg st (map_to_list (wk_attachments (workers st))).*1) as (st1 & Hq1 & Hr1 & Hd1).
  { intros aid _. exists AttachmentManagerClosed. by apply of_closing. }
  destruct (subscriptions_end cfg st1) as (st' & Hq & Hr & Ho & Ha); [by rewrite (rest_waiting _ _ Hr1)|].
  exists st'. split_and!; [by etrans|by eapply same_rest_trans|]. split; [|done]. rewrite Ha.
  intros aid w Hin. enough (att_done (workers st1) aid) as Hd by (unfold att_done in Hd; by rewrite Hin in Hd).
  destruct (wk_attachments (workers st) !! aid) as [w0|] eqn:E0.
  - rewrite Forall_forall in Hd1. apply Hd1, list_elem_of_fmap. exists (aid, w0). split; [done|]. by apply elem_of_map_to_list.
  - apply (rest_done _ _ Hr1). unfold att_done. by rewrite E0.
Qed.

(** The starts end: a process that has not started fails, one that has is killed. *)
Lemma starts_end cfg st : manager_config_ok cfg -> m_reachable cfg st ->
  exists st', rtc (quiet cfg) st st' /\ starts_over st' /\ pcs st' = pcs st.
Proof.
  intros Hcfg Hr. remember (size (opening st)) as n eqn:E. revert st Hr E.
  induction n as [|n IH]; intros st Hr E.
  - destruct (m_reachable_inv _ _ Hcfg Hr) as [I _]. pose proof (bi_reaping _ _ I) as Hge.
    symmetry in E. apply map_size_empty_iff in E. clear I.
    remember (Z.to_nat (reaping st)) as k eqn:Ek. revert st Hr E Hge Ek. induction k as [|k IHk]; intros st Hr E Hge Ek.
    + exists st. split; [done|]. split; [|done]. split; [done|lia].
    + set (st1 := set_opening (opening st) (reaping st - 1) (set_mgr (recordProcessExited (mgr st)) st)).
      assert (m_step cfg st st1) as Hs by (apply ms_reaped; lia).
      destruct (IHk st1) as (st' & Hq & Ho & Hp); [by eapply mr_step|done|cbn; lia|cbn; lia|].
      exists st'. split; [|done]. eapply rtc_l; [by apply quiet_same|exact Hq].
  - assert (opening st <> ∅) as (id & [sz b] & Hid)%map_choose by (intros Ho; by rewrite Ho, map_size_empty in E).
    assert (size (delete id (opening st)) = n) as Hsz by (rewrite map_size_delete, Hid; cbn; lia).
    destruct b.
    + set (st1 := set_opening (delete id (opening st)) (reaping st + 1) (set_mgr (open_failed (mgr st)) st)).
      assert (m_step cfg st st1) as Hs by (by eapply ms_open_cancelled).
      destruct (IH st1) as (st' & Hq & Ho & Hp); [by eapply mr_step|done|].
      exists st'. split; [|done]. eapply rtc_l; [by apply quiet_same|exact Hq].
    + set (st1 := set_opening (delete id (opening st)) (reaping st) (set_mgr (open_failed (mgr st)) st)).
      assert (m_step cfg st st1) as Hs by (by eapply ms_start_failed).
      destruct (IH st1) as (st' & Hq & Ho & Hp); [by eapply mr_step|done|].
      exists st'. split; [|done]. eapply rtc_l; [by apply quiet_same|exact Hq].
Qed.

(** The removals under way end: they finish their attachments and wait for them. *)
Lemma removals_end cfg st : exists st', rtc (quiet cfg) st st' /\ removals st' = [] /\ pcs st' = pcs st.
Proof.
  remember (removals st) as rs eqn:E. revert st E. induction rs as [|[o r] rs IH]; intros st E; [by exists st|].
  destruct (workers_end cfg st (rr_attachments r)) as (st1 & Hq1 & Hr1 & Hd1).
  { intros aid Hin. exists (rr_reason r). apply (of_removal _ o); [rewrite <- E; left|done]. }
  set (st2 := set_pcs (pcs st1) rs (set_mgr (finish_removal r (mgr st1)) st1)).
  assert (m_step cfg st1 st2) as Hs.
  { apply ms_finish_removal; [|done]. exists [], o, rs. rewrite (rest_removals _ _ Hr1), <- E.
    split_and!; [done..|]. intros _. apply not_elem_of_nil. }
  destruct (IH st2 eq_refl) as (st' & Hq & Hr & Hp). exists st'. split_and!; [|done|].
  - etrans; [exact Hq1|]. eapply rtc_l; [by apply quiet_same|exact Hq].
  - rewrite Hp. exact (rest_pcs _ _ Hr1).
Qed.

(** One session ends, from wherever its [run] is. *)
Lemma run_ends cfg st id p : manager_config_ok cfg -> m_reachable cfg st -> pcs st !! id = Some p ->
  exists st', rtc (quiet cfg) st st' /\ pcs st' = delete id (pcs st).
Proof.
  intros Hcfg.
  assert (forall st, pcs st !! id = Some PEvict -> exists st', rtc (quiet cfg) st st' /\ pcs st' = delete id (pcs st)) as Hevict.
  { intros st0 Hp. destruct (removals_end cfg st0) as (st1 & Hq & Hrm & Ep).
    exists (set_pcs (delete id (pcs st1)) (removals st1) st1). split; [|cbn; by rewrite Ep].
    eapply rtc_r; [exact Hq|]. apply quiet_same; [|done..]. apply ms_run_return; [by rewrite Ep|]. rewrite Hrm. apply not_elem_of_nil. }
  assert (forall st, m_reachable cfg st -> pcs st !! id = Some PDrain ->
    exists st', rtc (quiet cfg) st st' /\ pcs st' = delete id (pcs st)) as Hdrain.
  { intros st00 Hr0 Hp0. destruct (workers_end cfg st00 (snapshot (workers st00) id)) as (st0 & Hq0 & Hrest & Hd).
    { intros aid Hin. eexists. by apply (of_drain _ id). }
    pose proof (quiet_reachable _ _ _ Hr0 Hq0) as Hr. pose proof (rest_pcs _ _ Hrest) as E0. rewrite <- E0 in Hp0 |- *. rename Hp0 into Hp.
    destruct (m_reachable_inv _ _ Hcfg Hr) as [I _].
    destruct (run_finalize_ok cfg Hcfg id st0 I Hp (S (S (length (retainedExited (mgr st0))))) ltac:(lia)) as (l & m & E & _).
    destruct (Hevict (set_pcs (<[id := PEvict]> (pcs st0)) (removals st0 ++ (pair (Some id) <$> l)) (set_mgr m st0)))
      as (st' & Hq & Ep); [cbn; by rewrite lookup_insert_eq|].
    exists st'. split; [|rewrite Ep; cbn; apply delete_insert_eq].
    etrans; [exact Hq0|]. eapply rtc_l; [|exact Hq]. apply quiet_same; [|done..]. eapply ms_finalize; [done..|].
    unfold snapshot in *. by rewrite (rest_snapshots _ _ Hrest). }
  intros Hr Hp. destruct p; [|by apply Hdrain|by apply Hevict].
  set (st1 := set_workers (set_snapshot id (attached id (mgr st)) (workers st))
    (set_pcs (<[id := PDrain]> (pcs st)) (removals st) (set_mgr (run_exited id demo_exit (mgr st)) st))).
  assert (m_step cfg st st1) as Hs by (by apply ms_exit).
  destruct (Hdrain st1) as (st' & Hq & Ep); [by eapply mr_step|cbn; by rewrite lookup_insert_eq|].
  exists st'. split; [|rewrite Ep; cbn; apply delete_insert_eq]. eapply rtc_l; [|exact Hq].
  split; [done|]. split_and!; [done..|]. split; cbn; congruence.
Qed.

Lemma runs_end cfg st : manager_config_ok cfg -> m_reachable cfg st -> exists st', rtc (quiet cfg) st st' /\ pcs st' = ∅.
Proof.
  intros Hcfg Hr. remember (size (pcs st)) as n eqn:E. revert st Hr E. induction n as [|n IH]; intros st Hr E.
  - exists st. split; [done|]. by apply map_size_empty_iff.
  - assert (pcs st <> ∅) as (id & p & Hid)%map_choose by (intros Ho; by rewrite Ho, map_size_empty in E).
    destruct (run_ends _ _ _ _ Hcfg Hr Hid) as (st1 & Hq1 & Ep).
    destruct (IH st1) as (st' & Hq & Ho); [by eapply quiet_reachable|rewrite Ep, map_size_delete, Hid; cbn; lia|].
    exists st'. split; [by etrans|done].
Qed.

(** The two operations end, when every call returns. *)
Lemma terminate_ends cfg active o c : op_reachable active o -> c_phase c = CTerminate active o ->
  exists c' r o', rtc (own_step cfg) c c' /\ c_phase c' = CTerminate active o' /\ ro_result o' = Some r.
Proof.
  intros Hr Hph. destruct (op_terminates active (fun _ _ => True) o Hr) as (o' & Hs & [r Er]); [by exists None|].
  clear Hr. revert c Hph. induction Hs as [o|o o1 o' Hs _ IH]; intros c Hph; [by exists c, r, o|].
  assert (exists c1, own_step cfg c c1 /\ c_phase c1 = CTerminate active o1) as (c1 & Hc & Hph1).
  { destruct Hs as [i id r1 o Hi _|i id err o Hi Hl|o Hd Hn].
    - eexists. split; [apply own_same; [by eapply cs_terminate|done]|done].
    - eexists. split; [apply own_same; [eapply cs_terminate_op; [done|by apply ro_send]|done]|done].
    - eexists. split; [apply own_same; [eapply cs_terminate_op; [done|by apply ro_join]|done]|done]. }
  destruct (IH Er c1 Hph1) as (c' & r' & o2 & Hq & ?). exists c', r', o2. split; [by eapply rtc_l|done].
Qed.

Lemma kill_ends cfg sessions err o c : op_reachable sessions o -> c_phase c = CKill err o ->
  exists c' r o', rtc (own_step cfg) c c' /\ c_phase c' = CKill err o' /\ ro_result o' = Some r.
Proof.
  intros Hr Hph. destruct (op_terminates sessions (fun _ r => r = None) o Hr) as (o' & Hs & [r Er]); [by exists None|].
  clear Hr. revert c Hph. induction Hs as [o|o o1 o' Hs _ IH]; intros c Hph; [by exists c, r, o|].
  assert (exists c1, own_step cfg c c1 /\ c_phase c1 = CKill err o1) as (c1 & Hc & Hph1).
  { destruct Hs as [i id r1 o Hi ->|i id e o Hi Hl|o Hd Hn].
    - destruct (pcs (c_m c) !! id) eqn:Ep.
      + eexists. split; [apply own_same; [eapply (cs_kill cfg err o i id None); [done..|]; unfold session_done; by rewrite Ep|done]|done].
      + eexists. split; [apply own_same; [by eapply cs_kill_done|done]|done].
    - eexists. split; [apply own_same; [eapply cs_kill_op; [done|by apply ro_send]|done]|done].
    - eexists. split; [apply own_same; [eapply cs_kill_op; [done|by apply ro_join]|done]|done]. }
  destruct (IH Er c1 Hph1) as (c' & r' & o2 & Hq & ?). exists c', r', o2. split; [by eapply rtc_l|done].
Qed.

Lemma close_rtc_reachable cfg c c' : close_reachable cfg c -> rtc (own_step cfg) c c' -> close_reachable cfg c'.
Proof. intros Hr. induction 1 as [|c c1 c' [Hs _] _ IH]; [done|]. apply IH. by eapply cr_step. Qed.

Definition ends (cfg : ManagerConfig) (c : CState) : Prop := exists c' err, rtc (own_step cfg) c c' /\ c_phase c' = CEnd err.

Lemma ends_via cfg c c1 : rtc (own_step cfg) c c1 -> ends cfg c1 -> ends cfg c.
Proof. intros Hq (c' & err & Hq' & E). exists c', err. split; [by etrans|done]. Qed.

Lemma ends_next cfg c c1 : close_step cfg c c1 -> workers (c_m c1) = workers (c_m c) -> ends cfg c1 -> ends cfg c.
Proof. intros Hs Hw. by apply ends_via, rtc_once, own_same. Qed.

(** From each phase, backwards. *)
Lemma wait_ends cfg err c : manager_config_ok cfg -> close_reachable cfg c -> c_phase c = CWait err -> ends cfg c.
Proof.
  intros Hcfg Hr Hph. destruct (close_reachable_inv _ _ Hcfg Hr) as [Hm Hw _ _ _ _].
  destruct (waiting (c_m c)) as [l|] eqn:El; [|exfalso; assert (c_phase c = CIdle) by (by apply Hw); congruence].
  destruct (runs_end _ _ Hcfg Hm) as (st1 & Hq1 & Ep). pose proof (quiet_waiting _ _ _ Hq1) as Ew1. rewrite El in Ew1.
  destruct (all_workers_end cfg st1) as (st & Hq & Hrest & Hover); [by rewrite Ew1|].
  eapply ends_via; [apply (quiet_close cfg _ st c eq_refl); by etrans|].
  pose proof (cs_end cfg err l (set_c_m st c) Hph) as Hs. eexists _, err. split; [apply rtc_once, own_same; [apply Hs|]|done].
  - cbn. by rewrite (rest_waiting _ _ Hrest).
  - intros id _. unfold session_done. cbn. by rewrite (rest_pcs _ _ Hrest), Ep.
  - done.
  - done.
Qed.

Lemma kill_phase_ends cfg err o c : manager_config_ok cfg -> close_reachable cfg c -> c_phase c = CKill err o -> ends cfg c.
Proof.
  intros Hcfg Hr Hph. pose proof (cv_phase _ _ (close_reachable_inv _ _ Hcfg Hr)) as Hp. unfold phase_inv in Hp.
  rewrite Hph in Hp. destruct Hp as (_ & _ & _ & Hop).
  assert (exists l, op_reachable l o) as [l Hl] by (destruct Hop as [[? _]|[? _]]; by eexists).
  destruct (kill_ends cfg l err o c Hl Hph) as (c1 & r & o1 & Hq & Hph1 & Er).
  pose proof (cs_killed cfg err o1 r c1 Hph1 Er) as Hs.
  eapply ends_via; [exact Hq|]. eapply ends_next; [exact Hs|done|]. eapply wait_ends; [done| |done].
  eapply cr_step; [by eapply close_rtc_reachable|done].
Qed.

Lemma terminate_phase_ends cfg active o c : manager_config_ok cfg -> close_reachable cfg c ->
  c_phase c = CTerminate active o -> ends cfg c.
Proof.
  intros Hcfg Hr Hph. pose proof (cv_phase _ _ (close_reachable_inv _ _ Hcfg Hr)) as Hp. unfold phase_inv in Hp.
  rewrite Hph in Hp. destruct Hp as (_ & _ & _ & Hop & _).
  destruct (terminate_ends cfg active o c Hop Hph) as (c1 & r & o1 & Hq & Hph1 & Er).
  pose proof (cs_terminated cfg active o1 r c1 Hph1 Er) as Hs1. set (c2 := set_phase (CGrace active r) c1) in *.
  assert (close_step cfg c2 (set_phase (CKill r (runSessionOperation active)) c2)) as Hs2 by (by eapply cs_deadline).
  eapply ends_via; [exact Hq|]. eapply ends_next; [exact Hs1|done|]. eapply ends_next; [exact Hs2|done|].
  eapply kill_phase_ends; [done| |done]. eapply cr_step; [|exact Hs2]. eapply cr_step; [|exact Hs1].
  by eapply close_rtc_reachable.
Qed.

Lemma observers_phase_ends cfg active obs c : manager_config_ok cfg -> close_reachable cfg c ->
  c_phase c = CObservers active obs -> ends cfg c.
Proof.
  intros Hcfg. revert c. induction obs as [|id obs IH]; intros c Hr Hph.
  - pose proof (cs_observers cfg active c Hph) as Hs. eapply ends_next; [exact Hs|done|].
    eapply terminate_phase_ends; [done|by eapply cr_step|done].
  - pose proof (cs_observer cfg active id obs c Hph) as Hs. eapply ends_next; [exact Hs|done|].
    apply IH; [by eapply cr_step|done].
Qed.

Lemma close_can_end cfg c : manager_config_ok cfg -> close_reachable cfg c -> c_phase c <> CIdle -> ends cfg c.
Proof.
  intros Hcfg Hr Hn. destruct (c_phase c) as [|active obs|active obs|active o|active err|err o|err|err] eqn:Hph; [done|..].
  - destruct (starts_end _ _ Hcfg (cv_reachable _ _ (close_reachable_inv _ _ Hcfg Hr))) as (st & Hq & [Ho Hre] & _).
    pose proof (quiet_close _ _ _ c eq_refl Hq) as Hq'.
    pose proof (cs_starts cfg active obs (set_c_m st c) Hph Ho Hre) as Hs.
    eapply ends_via; [exact Hq'|]. eapply ends_next; [exact Hs|done|]. eapply observers_phase_ends; [done| |done].
    eapply cr_step; [by eapply close_rtc_reachable|done].
  - by eapply observers_phase_ends.
  - by eapply terminate_phase_ends.
  - pose proof (cs_deadline cfg active err c Hph) as Hs. eapply ends_next; [exact Hs|done|].
    eapply kill_phase_ends; [done|by eapply cr_step|done].
  - by eapply kill_phase_ends.
  - by eapply wait_ends.
  - exists c, err. by split.
Qed.

(** When [Close] has returned no worker is left. *)
Lemma ended_workers cfg c err : manager_config_ok cfg -> close_reachable cfg c -> c_phase c = CEnd err ->
  workers_over (workers (c_m c)).
Proof.
  intros Hcfg Hr. revert err. induction Hr as [|c c' Hr IH Hs]; intros err; [done|].
  pose proof (closing_begun _ _ Hcfg (close_reachable_inv _ _ Hcfg Hr)) as Hcl.
  destruct Hs; cbn; try done. intros Hph. eapply workers_over_step; [|done|by eapply IH]. apply Hcl. congruence.
Qed.

(** C22. [Close] never gets stuck. Wherever it is after its beginning, and whatever
    the state of the Manager around it (opens under way, processes running,
    sessions draining or being evicted, errors waiting to be sent, attachments and
    subscriptions open), steps of the program lead to its return, when the calls of
    Terminate and Kill return, the processes end and the sinks return once their
    context is cancelled. The waits of [run] and of the removals for their
    attachments and [workers.Wait] are on that way, and no user, sink or full queue
    has to close an attachment or a subscription for it: those still open are
    finished by the Manager itself. When it has returned no session and no
    worker of an attachment or subscription is left. *)
Theorem close_completes cfg c : manager_config_ok cfg -> close_reachable cfg c -> c_phase c <> CIdle ->
  exists c' err, rtc (own_step cfg) c c' /\ c_phase c' = CEnd err /\ closed (c_m c') = true /\
    sessions (mgr (c_m c')) = ∅ /\ workers_over (workers (c_m c')).
Proof.
  intros Hcfg Hr Hn. destruct (close_can_end cfg c Hcfg Hr Hn) as (c' & err & Hq & E). exists c', err.
  pose proof (close_rtc_reachable _ _ _ Hr Hq) as Hr'. pose proof (close_reachable_inv _ _ Hcfg Hr') as I.
  assert (closed (c_m c') = true) as Hc by (apply (cv_closed _ _ I); by eexists).
  split_and!; [done..| |by eapply ended_workers].
  destruct (m_reachable_inv _ _ Hcfg (cv_reachable _ _ I)) as [B _]. by destruct (bi_closed _ _ B Hc) as (_ & _ & _ & Hs).
Qed.

(** *** A Close of a Manager with a running session *)

(** Before [Close], every state of the Manager is one of its. *)
Lemma idle_reachable cfg st : m_reachable cfg st -> waiting st = None -> closed st = false ->
  close_reachable cfg (set_c_m st initial_cstate).
Proof.
  induction 1 as [|st st' _ IH Hs]; intros Hw Hc; [apply cr_init|].
  assert (waiting st = None /\ closed st = false) as [Hw' Hc'] by (destruct Hs; cbn in *; try done; congruence).
  eapply cr_step; [by apply IH|]. apply (cs_other cfg st' (set_c_m st initial_cstate)); cbn; congruence || done.
Qed.

Lemma begun_step cfg c c' : close_step cfg c c' -> c_phase c <> CIdle -> c_phase c' <> CIdle /\ c_active c' = c_active c.
Proof. destruct 1; done || (intros Hn; cbn; done). Qed.

Lemma begun_rtc cfg c c' : rtc (own_step cfg) c c' -> c_phase c <> CIdle -> c_active c' = c_active c.
Proof.
  induction 1 as [|c c1 c' [Hs _] _ IH]; intros Hn; [done|]. destruct (begun_step _ _ _ Hs Hn) as [Hn' <-]. auto.
Qed.

(** [Close] begins. *)
Definition begin_close (st : MState) : CState :=
  let '(active, obs, m) := close_begin (mgr st) in
  mkCState (set_waiting (Some (map_to_list (sessions (mgr st))).*1) false (set_mgr m st)) (CStarts active obs) active [] [] [] [].

Lemma begin_close_reachable cfg st : m_reachable cfg st -> waiting st = None -> closed st = false ->
  close_reachable cfg (begin_close st).
Proof.
  intros Hr Hw Hc. eapply cr_step; [by apply (idle_reachable _ st)|].
  unfold begin_close. destruct (close_begin (mgr st)) as [[active obs] m] eqn:E.
  by apply (cs_begin cfg active obs m (set_c_m st initial_cstate)).
Qed.

Definition demo_closing : CState := begin_close demo_running.

Lemma demo_closing_reachable : close_reachable demo_hist_cfg demo_closing.
Proof. apply begin_close_reachable; [exact demo_running_reachable|vm_compute; reflexivity..]. Qed.

Lemma demo_closing_ends : exists c err, close_reachable demo_hist_cfg c /\ c_phase c = CEnd err /\ c_active c = [1].
Proof.
  destruct (close_can_end _ _ demo_hist_cfg_ok demo_closing_reachable ltac:(done)) as (c & err & Hq & E).
  exists c, err. split_and!; [by eapply close_rtc_reachable; [apply demo_closing_reachable|]|done|].
  rewrite (begun_rtc _ _ _ Hq ltac:(done)). vm_compute. reflexivity.
Qed.

Lemma manager_close_witness : exists c err, c_phase c = CEnd err /\ closed (c_m c) = true /\ 1 ∈ c_terminated c /\
  (1 ∈ c_killed c \/ 1 ∈ c_ended c).
Proof.
  destruct demo_closing_ends as (c & err & Hr & E & Ha). exists c, err.
  destruct (manager_close demo_hist_cfg c demo_hist_cfg_ok Hr) as (_ & _ & _ & _ & Hend).
  destruct (Hend err E) as (Hc & _ & Hk). destruct (Hk 1) as [Ht Hke]; [rewrite Ha; left|].
  split; [exact E|]. split; [exact Hc|]. split; [exact Ht|exact Hke].
Defined.

Lemma close_completes_witness :
  activeSessions (mgr (c_m demo_closing)) = 1 /\ wk_attachments (workers (c_m demo_closing)) !! 1 = Some AWorking /\
  exists c' err, rtc (own_step demo_hist_cfg) demo_closing c' /\ c_phase c' = CEnd err /\ closed (c_m c') = true /\
    sessions (mgr (c_m c')) = ∅ /\ workers_over (workers (c_m c')).
Proof.
  split; [vm_compute; reflexivity|]. split; [vm_compute; reflexivity|].
  apply (close_completes demo_hist_cfg demo_closing demo_hist_cfg_ok demo_closing_reachable). done.
Defined.
