(* ===== verification/SessionKill.v ===== *)
(** pty/manager.go: [Kill] and [Wait] of a Session, called by any number of
    goroutines while its process ends and [run] cleans up. *)

From S2P Require Import Prelude Errors BigEndian PtyTypes Attachment Subscription History Manager SessionIO.

(** ** The session *)

(** [killOnce]: not begun, entered by a caller, over. *)
Inductive once_state := OnceIdle | OnceBy (t : N) | OnceDone.
#[export] Instance once_state_eq_dec : EqDecision once_state.
Proof. solve_decision. Defined.

(** A caller of [Kill]: at [killOnce.Do], inside it before the lock, inside it in
    [process.Kill], in [Wait], returned. A caller of [Wait]: in its select, returned. *)
Inductive caller :=
| KEnter
| KSection
| KSignal
| KWait
| KReturned (r : option error)
| WSelect
| WReturned (r : ExitStatus + error).

(** The object, of which [sk_session] holds the state and the exit status; whether
    [done] is closed; [killErr]; the callers. [sk_kills] counts the calls of
    [process.Kill], [sk_spared] whether killOnce found the session ended. *)
Record Kills := mkKills {
  sk_session : Session;
  sk_done : bool;
  sk_once : once_state;
  sk_killErr : option error;
  sk_callers : gmap N caller;
  sk_kills : N;
  sk_spared : bool;
}.

Definition set_caller (t : N) (c : caller) (k : Kills) : Kills :=
  mkKills (sk_session k) (sk_done k) (sk_once k) (sk_killErr k) (<[t := c]> (sk_callers k)) (sk_kills k) (sk_spared k).
Definition set_session (s : Session) (k : Kills) : Kills :=
  mkKills s (sk_done k) (sk_once k) (sk_killErr k) (sk_callers k) (sk_kills k) (sk_spared k).

Definition with_state (state : SessionState) (exit : option ExitStatus) (s : Session) : Session :=
  set_lifecycle state exit (s_retained s) (s_removing s) s.

Definition new_kills (s : Session) : Kills := mkKills s false OnceIdle None ∅ 0 false.

(** ** Operations *)

(** [Kill] and [Wait] up to their first wait; [ctx] is whether there is a context. *)
Definition Kill_begin (t : N) (ctx : bool) (k : Kills) : Kills :=
  set_caller t (if ctx then KEnter else KReturned (Some (New "pty: nil Kill context"))) k.
Definition Wait_begin (t : N) (ctx : bool) (k : Kills) : Kills :=
  set_caller t (if ctx then WSelect else WReturned (inr (New "pty: nil Wait context"))) k.

Definition once_enter (t : N) (k : Kills) : Kills :=
  set_caller t KSection (mkKills (sk_session k) (sk_done k) (OnceBy t) (sk_killErr k) (sk_callers k) (sk_kills k) (sk_spared k)).

(** The critical section of killOnce. *)
Definition once_section (t : N) (k : Kills) : Kills :=
  let s := sk_session k in
  let shouldKill := active s in
  let s' := if bool_decide (s_state s = SessionRunning) then with_state SessionStopping (s_exit s) s else s in
  if shouldKill then set_caller t KSignal (set_session s' k)
  else set_caller t KWait (mkKills s' (sk_done k) OnceDone (sk_killErr k) (sk_callers k) (sk_kills k) true).

(** [s.killErr = s.process.Kill()] *)
Definition once_kill (t : N) (err : option error) (k : Kills) : Kills :=
  set_caller t KWait (mkKills (sk_session k) (sk_done k) OnceDone err (sk_callers k) (sk_kills k + 1) (sk_spared k)).

(** [Kill] after its [Wait] has returned [waitErr]. *)
Definition Kill_return (t : N) (waitErr : option error) (k : Kills) : Kills :=
  set_caller t (KReturned (errors_Join (sk_killErr k) waitErr)) k.
Definition wait_error (r : ExitStatus + error) : option error := match r with inl _ => None | inr e => Some e end.

Inductive k_step : Kills -> Kills -> Prop :=
| ks_kill t ctx k : sk_callers k !! t = None -> k_step k (Kill_begin t ctx k)
| ks_wait t ctx k : sk_callers k !! t = None -> k_step k (Wait_begin t ctx k)
| ks_enter t k : sk_callers k !! t = Some KEnter -> sk_once k = OnceIdle -> k_step k (once_enter t k)
| ks_section t k : sk_callers k !! t = Some KSection -> k_step k (once_section t k)
| ks_signal t err k : sk_callers k !! t = Some KSignal -> k_step k (once_kill t err k)
| ks_skip t k : sk_callers k !! t = Some KEnter -> sk_once k = OnceDone -> k_step k (set_caller t KWait k)
(* Wait, inside Kill and alone: done is closed, or the context is done *)
| ks_waited t k : sk_callers k !! t = Some KWait -> sk_done k = true ->
    k_step k (Kill_return t (wait_error (Wait_result (sk_session k))) k)
| ks_ctx t e k : sk_callers k !! t = Some KWait -> k_step k (Kill_return t (Some e) k)
| ks_status t k : sk_callers k !! t = Some WSelect -> sk_done k = true ->
    k_step k (set_caller t (WReturned (Wait_result (sk_session k))) k)
| ks_status_ctx t e k : sk_callers k !! t = Some WSelect -> k_step k (set_caller t (WReturned (inr e)) k)
(* Close of the Manager, and run: its first critical section and its end *)
| ks_stopping k : s_state (sk_session k) = SessionRunning ->
    k_step k (set_session (with_state SessionStopping (s_exit (sk_session k)) (sk_session k)) k)
| ks_exited status k : active (sk_session k) = true ->
    k_step k (set_session (with_state SessionExited (Some status) (sk_session k)) k)
| ks_done k : s_state (sk_session k) = SessionExited -> sk_done k = false ->
    k_step k (mkKills (sk_session k) true (sk_once k) (sk_killErr k) (sk_callers k) (sk_kills k) (sk_spared k)).

Inductive k_reachable : Kills -> Prop :=
| kr_start s : s_state s = SessionRunning -> s_exit s = None -> k_reachable (new_kills s)
| kr_step k k' : k_reachable k -> k_step k k' -> k_reachable k'.

(** ** Invariant *)

Definition inside (c : caller) : bool := match c with KSection | KSignal => true | _ => false end.
Definition past_once (c : caller) : bool := match c with KWait => true | _ => false end.

Record k_inv (k : Kills) : Prop := {
  ki_state : (active (sk_session k) = true /\ s_exit (sk_session k) = None) \/
    (s_state (sk_session k) = SessionExited /\ is_Some (s_exit (sk_session k)));
  ki_done : sk_done k = true -> s_state (sk_session k) = SessionExited;
  ki_inside t c : sk_callers k !! t = Some c -> inside c = true -> sk_once k = OnceBy t;
  ki_by t : sk_once k = OnceBy t -> exists c, sk_callers k !! t = Some c /\ inside c = true;
  ki_past t c : sk_callers k !! t = Some c -> past_once c = true -> sk_once k = OnceDone;
  ki_kills : (sk_kills k + (if sk_spared k then 1 else 0) = if decide (sk_once k = OnceDone) then 1 else 0)%N;
  ki_err : sk_kills k = 0%N -> sk_killErr k = None;
  ki_returned t r : sk_callers k !! t = Some (KReturned r) -> r = None ->
    sk_once k = OnceDone /\ sk_killErr k = None /\ sk_done k = true;
  ki_status t st : sk_callers k !! t = Some (WReturned (inl st)) -> sk_done k = true /\ s_exit (sk_session k) = Some st;
}.

Lemma active_states s : active s = true <-> s_state s = SessionRunning \/ s_state s = SessionStopping.
Proof. unfold active. rewrite orb_true_iff, !bool_decide_eq_true. done. Qed.

Lemma lookup_caller t u c k : sk_callers (set_caller t c k) !! u = if decide (t = u) then Some c else sk_callers k !! u.
Proof. cbn. apply lookup_insert. Qed.

(** A caller moves where nothing but its own place depends on it. *)
Lemma k_inv_caller t c c' k : k_inv k -> (sk_callers k !! t = None \/ sk_callers k !! t = Some c /\ inside c = false) ->
  inside c' = false -> (past_once c' = true -> sk_once k = OnceDone) ->
  (c' = KReturned None -> sk_once k = OnceDone /\ sk_killErr k = None /\ sk_done k = true) ->
  (forall st, c' = WReturned (inl st) -> sk_done k = true /\ s_exit (sk_session k) = Some st) ->
  k_inv (set_caller t c' k).
Proof.
  intros [I1 I2 I3 I4 I5 I6 I7 I8 I9] Ht Hi Hp Hr Hw. split; try done.
  - intros u d. rewrite lookup_caller. destruct (decide (t = u)) as [E|E]; [intros Hd Hin; simplify_eq; congruence|apply I3].
  - intros u Hu. destruct (I4 u Hu) as (d & Hd & Hid). exists d. split; [|done]. rewrite lookup_caller.
    destruct (decide (t = u)) as [E|E]; [|done]. subst u. destruct Ht as [Ht|[Ht ?]]; congruence.
  - intros u d. rewrite lookup_caller. destruct (decide (t = u)); [intros Hd; simplify_eq; auto|apply I5].
  - intros u r. rewrite lookup_caller. destruct (decide (t = u)); [intros Hd ->; simplify_eq; auto|apply I8].
  - intros u st. rewrite lookup_caller. destruct (decide (t = u)); [intros Hd; simplify_eq; auto|apply I9].
Qed.

Lemma k_inv_session k s' : k_inv k ->
  (active s' = true /\ s_exit s' = None) \/ (s_state s' = SessionExited /\ is_Some (s_exit s')) ->
  sk_done k = false -> k_inv (set_session s' k).
Proof.
  intros [I1 I2 I3 I4 I5 I6 I7 I8 I9] Hs Hd. split; cbn; try done; try congruence.
  intros t st Ht. destruct (I9 t st Ht). congruence.
Qed.

Lemma active_not_done k : k_inv k -> active (sk_session k) = true -> sk_done k = false /\ s_exit (sk_session k) = None.
Proof.
  intros I Ha. destruct (ki_state _ I) as [[_ He]|[Hs _]].
  - split; [|done]. destruct (sk_done k) eqn:E; [|done]. pose proof (ki_done _ I E) as Hx. apply active_states in Ha. destruct Ha; congruence.
  - apply active_states in Ha. destruct Ha; congruence.
Qed.

Lemma Wait_result_done k : k_inv k -> sk_done k = true -> exists st, s_exit (sk_session k) = Some st /\ Wait_result (sk_session k) = inl st.
Proof.
  intros I Hd. destruct (ki_state _ I) as [[Ha _]|[_ [st Hst]]].
  - destruct (active_not_done k I Ha). congruence.
  - exists st. unfold Wait_result. by rewrite Hst.
Qed.

(** A caller inside [killOnce] moves on, [once] with it. *)
Lemma k_inv_once t c' once s' err kills spared k : k_inv k -> (forall u, sk_once k = OnceBy u -> u = t) -> sk_once k <> OnceDone ->
  (once = OnceBy t /\ inside c' = true \/ once = OnceDone /\ c' = KWait) ->
  (s' = sk_session k \/ (active (sk_session k) = true /\ active s' = true /\ s_exit s' = s_exit (sk_session k))) ->
  (kills + (if spared : bool then 1 else 0) = if decide (once = OnceDone) then 1 else 0)%N -> (kills = 0%N -> err = None) ->
  k_inv (set_caller t c' (mkKills s' (sk_done k) once err (sk_callers k) kills spared)).
Proof.
  intros I Hby Hnd Hc Hs Hk Herr.
  assert ((active s' = true /\ s_exit s' = None) \/ (s_state s' = SessionExited /\ is_Some (s_exit s'))) as Hst.
  { destruct Hs as [->|(Ha & Ha' & ->)]; [apply I|]. left. split; [done|]. by apply active_not_done. }
  assert (sk_done k = true -> s' = sk_session k) as Hsame.
  { intros Hd. destruct Hs as [->|(Ha & _)]; [done|]. destruct (active_not_done k I Ha). congruence. }
  destruct I as [I1 I2 I3 I4 I5 I6 I7 I8 I9]. split; cbn; try done.
  - intros Hd. rewrite (Hsame Hd). auto.
  - intros u d. rewrite lookup_insert. destruct (decide (t = u)) as [<-|Hne].
    + intros ? ?. simplify_eq. destruct Hc as [[-> _]|[_ ->]]; done.
    + intros Hu Hin. destruct Hne. symmetry. apply Hby. by eapply I3.
  - intros u Hu. destruct Hc as [[-> Hin]|[-> _]]; [|done]. injection Hu as <-. exists c'. by rewrite lookup_insert_eq.
  - intros u d. rewrite lookup_insert. destruct (decide (t = u)) as [<-|Hne].
    + intros ? ?. simplify_eq. destruct Hc as [[_ Hin]|[-> _]]; [by destruct d|done].
    + intros Hu Hp. by destruct (Hnd (I5 u d Hu Hp)).
  - intros u r. rewrite lookup_insert. destruct (decide (t = u)) as [<-|Hne].
    + intros ? ?. simplify_eq. destruct Hc as [[_ ?]|[_ ?]]; done.
    + intros Hu Hr. by destruct (Hnd (proj1 (I8 u r Hu Hr))).
  - intros u st. rewrite lookup_insert. destruct (decide (t = u)) as [<-|Hne].
    + intros ?. simplify_eq. destruct Hc as [[_ ?]|[_ ?]]; done.
    + intros Hu. destruct (I9 u st Hu) as [Hd He]. by rewrite (Hsame Hd).
Qed.

Lemma stopping_active s : s_state s = SessionRunning -> active (with_state SessionStopping (s_exit s) s) = true.
Proof. intros _. apply active_states. by right. Qed.

Lemma k_step_inv k k' : k_inv k -> k_step k k' -> k_inv k'.
Proof.
  intros I Hs.
  assert (forall t c, sk_callers k !! t = Some c -> inside c = true -> sk_once k = OnceBy t) as Hin by apply I.
  destruct Hs as [t ctx k Ht|t ctx k Ht|t k Ht Ho|t k Ht|t err k Ht|t k Ht Ho|t k Ht Hd|t e k Ht|t k Ht Hd|t e k Ht|k Hst|status k Ha|k Hst Hd].
  - apply (k_inv_caller t KEnter); try done; [by left|by destruct ctx..].
  - apply (k_inv_caller t KEnter); try done; [by left|by destruct ctx..].
  - apply k_inv_once; try done; [by rewrite Ho|by rewrite Ho|by left|by left| |apply I].
    rewrite (ki_kills _ I), Ho. done.
  - pose proof (Hin _ _ Ht eq_refl) as Ho. unfold once_section.
    assert ((sk_kills k = 0 /\ sk_spared k = false)%N) as [Hk0 Hsp].
    { pose proof (ki_kills _ I) as Hk. rewrite Ho in Hk. rewrite decide_False in Hk by done. destruct (sk_spared k); split; (done || lia). }
    set (s' := if bool_decide _ then _ else _).
    assert (s' = sk_session k \/ (active (sk_session k) = true /\ active s' = true /\ s_exit s' = s_exit (sk_session k))) as Hs'.
    { unfold s'. case_bool_decide as Hr; [right|by left]. split_and!; [apply active_states; by left|by apply stopping_active|done]. }
    assert (forall u, sk_once k = OnceBy u -> u = t) as Hby by congruence. assert (sk_once k <> OnceDone) as Hnd by congruence.
    pose proof (k_inv_once t KSignal (sk_once k) s' (sk_killErr k) (sk_kills k) (sk_spared k) k I Hby Hnd
      ltac:(by left) Hs' (ki_kills _ I) (ki_err _ I)) as J1.
    pose proof (k_inv_once t KWait OnceDone s' (sk_killErr k) (sk_kills k) true k I Hby Hnd
      ltac:(by right) Hs' ltac:(by rewrite Hk0) (ki_err _ I)) as J2.
    by destruct (active (sk_session k)).
  - pose proof (Hin _ _ Ht eq_refl) as Ho. pose proof (ki_kills _ I) as Hk. rewrite Ho in Hk. rewrite decide_False in Hk by done.
    refine (k_inv_once t KWait OnceDone (sk_session k) err (sk_kills k + 1) (sk_spared k) k I _ _ ltac:(by right) ltac:(by left) _ _).
    + congruence.
    + congruence.
    + rewrite decide_True by done. destruct (sk_spared k); lia.
    + lia.
  - apply (k_inv_caller t KEnter); try done. by right.
  - pose proof (ki_past _ I _ _ Ht eq_refl) as Ho. destruct (Wait_result_done k I Hd) as (st & _ & ->).
    apply (k_inv_caller t KWait); try done; [by right|]. intros [= Hr]. split_and!; [done| |done]. by destruct (sk_killErr k).
  - apply (k_inv_caller t KWait); try done; [by right|]. intros [= Hr]. by destruct (sk_killErr k).
  - destruct (Wait_result_done k I Hd) as (st & He & ->). apply (k_inv_caller t WSelect); try done; [by right|].
    by intros st' [= <-].
  - apply (k_inv_caller t WSelect); try done. by right.
  - assert (active (sk_session k) = true) as Ha by (apply active_states; by left).
    destruct (active_not_done k I Ha). apply k_inv_session; [done| |done]. left. split; [by apply stopping_active|done].
  - destruct (active_not_done k I Ha). apply k_inv_session; [done| |done]. right. split; [done|by eexists].
  - destruct I as [I1 I2 I3 I4 I5 I6 I7 I8 I9]. split; cbn; try done.
    + intros t r Ht Hr. destruct (I8 t r Ht Hr) as (? & ? & ?). congruence.
    + intros t st Ht. destruct (I9 t st Ht). congruence.
Qed.

Lemma k_reachable_inv k : k_reachable k -> k_inv k.
Proof.
  induction 1 as [s Hs He|k k' _ IH Hs]; [|by eapply k_step_inv].
  split; cbn; try done; [left; split; [apply active_states; by left|done]|..]; intros t ?; rewrite lookup_empty; done.
Qed.

(** ** What Kill and Wait promise *)

Definition returned (c : caller) : Prop := match c with KReturned _ | WReturned _ => True | _ => False end.
Definition returns (t : N) (k : Kills) : Prop := exists k' c, rtc k_step k k' /\ sk_callers k' !! t = Some c /\ returned c.

Lemma returns_via t k k' : rtc k_step k k' -> returns t k' -> returns t k.
Proof. intros Hs (k2 & c & Hs2 & Hc). exists k2, c. split; [by etrans|done]. Qed.

Lemma wait_returns t k : sk_callers k !! t = Some KWait -> sk_done k = true -> returns t k.
Proof.
  intros Ht Hd. eexists _, _. split; [apply rtc_once; by apply ks_waited|]. cbn; by rewrite lookup_insert_eq.
Qed.

Lemma section_step t k : sk_callers k !! t = Some KSection -> active (sk_session k) = false ->
  k_step k (once_section t k) /\ sk_once (once_section t k) = OnceDone /\ sk_done (once_section t k) = sk_done k /\
  sk_callers (once_section t k) = <[t := KWait]> (sk_callers k).
Proof. intros Ht Ha. split; [by apply ks_section|]. unfold once_section. by rewrite Ha. Qed.

Lemma section_returns t k : sk_callers k !! t = Some KSection -> active (sk_session k) = false -> sk_done k = true -> returns t k.
Proof.
  intros Ht Ha Hd. destruct (section_step t k Ht Ha) as (Hs & _ & Hd' & Hc). eapply returns_via; [by apply rtc_once|].
  apply wait_returns; [by rewrite Hc, lookup_insert_eq|by rewrite Hd'].
Qed.

Lemma skip_returns t k : sk_callers k !! t = Some KEnter -> sk_once k = OnceDone -> sk_done k = true -> returns t k.
Proof.
  intros Ht Ho Hd. eapply returns_via; [apply rtc_once; by apply ks_skip|].
  apply wait_returns; [cbn; by rewrite lookup_insert_eq|done].
Qed.

(** Once the session is done every caller can return, the ones waiting for
    [killOnce] too. *)
Lemma caller_returns t k : k_inv k -> sk_done k = true -> is_Some (sk_callers k !! t) -> returns t k.
Proof.
  intros I Hd [c Ht]. assert (active (sk_session k) = false) as Ha.
  { destruct (active (sk_session k)) eqn:E; [|done]. destruct (active_not_done k I E). congruence. }
  destruct c as [| | | |r| |r].
  - destruct (sk_once k) as [|u|] eqn:Ho; [| |by apply skip_returns].
    + eapply returns_via; [apply rtc_once; by apply (ks_enter t)|].
      apply section_returns; [cbn; by rewrite lookup_insert_eq|done..].
    + destruct (ki_by _ I u Ho) as (d & Hu & Hin). assert (u <> t) as Hne by (intros ->; rewrite Ht in Hu; by simplify_eq).
      destruct d; try done.
      * destruct (section_step u k Hu Ha) as (Hs & Ho' & Hd' & Hc). eapply returns_via; [by apply rtc_once|].
        apply skip_returns; [by rewrite Hc, lookup_insert_ne|done|by rewrite Hd'].
      * eapply returns_via; [apply rtc_once; by apply (ks_signal u None)|].
        apply skip_returns; [cbn; by rewrite lookup_insert_ne|done|done].
  - by apply section_returns.
  - eapply returns_via; [apply rtc_once; by apply (ks_signal t None)|].
    apply wait_returns; [cbn; by rewrite lookup_insert_eq|done].
  - by apply wait_returns.
  - by exists k, (KReturned r).
  - eexists _, _. split; [apply rtc_once; by apply ks_status|]. cbn; by rewrite lookup_insert_eq.
  - by exists k, (WReturned r).
Qed.

(** C23. [Kill] and [Wait] of a Session. However many goroutines call them, the
    process is killed at most once, and not at all by a Kill that finds the session
    ended. A Kill that returns nil has seen the session done, after a kill that
    succeeded or was not needed; every Wait that returns a status returns the same
    one, that of the session, and only when it is done; the status, once it is
    there, never changes, so a done session never answers ErrSessionNotFound. Once
    the session is done every Kill and every Wait under way can return, those that
    wait for another Kill included. *)
Theorem session_kill_wait k : k_reachable k ->
  (sk_kills k + (if sk_spared k then 1 else 0) <= 1)%N /\
  (forall t, sk_callers k !! t = Some KSection -> sk_callers (once_section t k) !! t =
     Some (if bool_decide (s_state (sk_session k) = SessionExited) then KWait else KSignal)) /\
  (forall t, sk_callers k !! t = Some (KReturned None) ->
     sk_done k = true /\ sk_killErr k = None /\ (sk_kills k = 1%N \/ sk_spared k = true)) /\
  (forall t st, sk_callers k !! t = Some (WReturned (inl st)) -> sk_done k = true /\ s_exit (sk_session k) = Some st) /\
  (forall k' st, k_step k k' -> s_exit (sk_session k) = Some st -> s_exit (sk_session k') = Some st) /\
  (sk_done k = true -> (exists st, Wait_result (sk_session k) = inl st) /\
     forall t, is_Some (sk_callers k !! t) -> returns t k).
Proof.
  intros Hr. pose proof (k_reachable_inv k Hr) as I. pose proof (ki_kills _ I) as Hk. split_and!.
  - destruct (decide _); lia.
  - intros t _. assert (active (sk_session k) = negb (bool_decide (s_state (sk_session k) = SessionExited))) as Ha.
    { destruct (ki_state _ I) as [[Ha _]|[Hs _]].
      - rewrite Ha. apply active_states in Ha. rewrite bool_decide_false; [done|]. destruct Ha; congruence.
      - unfold active. rewrite Hs. done. }
    unfold once_section. rewrite Ha. case_bool_decide; cbn; by rewrite lookup_insert_eq.
  - intros t Ht. destruct (ki_returned _ I t None Ht eq_refl) as (Ho & He & Hd). split_and!; [done..|].
    rewrite decide_True in Hk by done. destruct (sk_spared k); [by right|left; lia].
  - apply I.
  - intros k' st Hs Hst. destruct Hs; try done; cbn.
    + unfold once_section. by destruct (active _), (bool_decide _).
    + destruct (active_not_done k I H). congruence.
  - intros Hd. split; [destruct (Wait_result_done k I Hd) as (st & _ & E); by exists st|].
    intros t. by apply caller_returns.
Qed.

(** ** Example: two Kills and a Wait of a running session *)

Definition demo_session : Session := mkSession 1 SessionRunning (mkSize 80 24) 0 0 None false false [] 0 ∅ false.
Definition demo_status : ExitStatus := mkExitStatus ExitReasonKilled 1 "" None.
Definition demo_kills : Kills :=
  let k := Wait_begin 2 true (Kill_begin 1 true (Kill_begin 0 true (new_kills demo_session))) in
  let k := once_section 0 (once_enter 0 k) in
  let k := set_session (with_state SessionExited (Some demo_status) (sk_session k)) k in
  mkKills (sk_session k) true (sk_once k) (sk_killErr k) (sk_callers k) (sk_kills k) (sk_spared k).

Lemma demo_kills_reachable : k_reachable demo_kills.
Proof.
  unfold demo_kills. cbv zeta. eapply kr_step; [|apply ks_done; reflexivity].
  eapply kr_step; [|apply ks_exited; reflexivity]. eapply kr_step; [|apply ks_section; reflexivity].
  eapply kr_step; [|apply ks_enter; reflexivity]. eapply kr_step; [|apply ks_wait; reflexivity].
  eapply kr_step; [|apply ks_kill; reflexivity]. eapply kr_step; [|apply ks_kill; reflexivity].
  by apply kr_start.
Qed.

Lemma session_kill_wait_witness : sk_callers demo_kills !! 0%N = Some KSignal /\ returns 1 demo_kills /\ returns 2 demo_kills.
Proof.
  split; [vm_compute; reflexivity|].
  destruct (session_kill_wait demo_kills demo_kills_reachable) as (_ & _ & _ & _ & _ & Hd).
  destruct (Hd ltac:(vm_compute; reflexivity)) as [_ Hret]. split; apply Hret; vm_compute; eexists; reflexivity.
Defined.
