(* ===== verification/ProtocolLife.v ===== *)
(** pty/protocol.go: the attachments of one connection while its handlers, the
    watchers of the attachments and [Protocol.Close] interleave. A step is one
    critical section or one call that may let others run; what the handlers send in
    between is that of ProtocolHandlers.v. *)

From S2P Require Import Prelude Errors BigEndian Frame PeerConfig Peer Inbound Correlation PtyTypes Attachment Subscription History Manager Cursor Protocol ProtocolHandlers.

(** ** State *)

(** The program points between which other goroutines see [p.attachments]. The
    handlers of one stream run one at a time (Inbound.v). [HChecked]: handleAttach
    has found no attachment; [HAttached]: Attach has returned; [HInserted]: the
    attachment is in the table and is announced; [HCleanup]: before the critical
    section of [cleanup]; [HClosing]: out of the table, before [attachment.Close],
    in [cleanup] and in handleDetach. *)
Inductive handler_pc :=
| HChecked
| HAttached (a : Z * Z)
| HInserted (a : Z * Z)
| HCleanup (a : Z * Z)
| HClosing (a : Z * Z).

(** The body of [closeOnce]: not begun, cancelled, closing the attachments [rest] of
    [values], waiting for them, returned. *)
Inductive life_close :=
| LIdle
| LCancelled
| LClose (values rest : list (Z * Z))
| LReturned (values : list (Z * Z)).

(** [pl_table] is [p.attachments]; an attachment is the identifier of its session,
    that of its stream, with its own. [pl_watchers]: the attachments whose
    watchAttachment runs. [pl_created], [pl_closed] and [pl_done]: those Attach
    returned, those Close was called on, those whose Done is closed. *)
Record Life := mkLife {
  pl_table : gmap Z (Z * Z);
  pl_handlers : gmap Z handler_pc;
  pl_watchers : gset (Z * Z);
  pl_created : gset (Z * Z);
  pl_closed : gset (Z * Z);
  pl_done : gset (Z * Z);
  pl_cancelled : bool;
  pl_close : life_close;
}.

Definition initial_life : Life := mkLife ∅ ∅ ∅ ∅ ∅ ∅ false LIdle.

Definition set_handlers (h : gmap Z handler_pc) (p : Life) : Life :=
  mkLife (pl_table p) h (pl_watchers p) (pl_created p) (pl_closed p) (pl_done p) (pl_cancelled p) (pl_close p).
Definition set_table (t : gmap Z (Z * Z)) (p : Life) : Life :=
  mkLife t (pl_handlers p) (pl_watchers p) (pl_created p) (pl_closed p) (pl_done p) (pl_cancelled p) (pl_close p).
Definition set_watchers (w : gset (Z * Z)) (p : Life) : Life :=
  mkLife (pl_table p) (pl_handlers p) w (pl_created p) (pl_closed p) (pl_done p) (pl_cancelled p) (pl_close p).
Definition set_created (c : gset (Z * Z)) (p : Life) : Life :=
  mkLife (pl_table p) (pl_handlers p) (pl_watchers p) c (pl_closed p) (pl_done p) (pl_cancelled p) (pl_close p).
Definition set_closed (c : gset (Z * Z)) (p : Life) : Life :=
  mkLife (pl_table p) (pl_handlers p) (pl_watchers p) (pl_created p) c (pl_done p) (pl_cancelled p) (pl_close p).
Definition set_done (d : gset (Z * Z)) (p : Life) : Life :=
  mkLife (pl_table p) (pl_handlers p) (pl_watchers p) (pl_created p) (pl_closed p) d (pl_cancelled p) (pl_close p).
Definition set_close (b : bool) (c : life_close) (p : Life) : Life :=
  mkLife (pl_table p) (pl_handlers p) (pl_watchers p) (pl_created p) (pl_closed p) (pl_done p) b c.

(** ** Operations *)

Definition at_handler (id : Z) (pc : handler_pc) (p : Life) : Life := set_handlers (<[id := pc]> (pl_handlers p)) p.
Definition handler_ends (id : Z) (p : Life) : Life := set_handlers (delete id (pl_handlers p)) p.

(** [if p.attachments[id] == attachment { delete(p.attachments, id) }] *)
Definition delete_own (id : Z) (a : Z * Z) (p : Life) : Life :=
  if bool_decide (pl_table p !! id = Some a) then set_table (delete id (pl_table p)) p else p.

(** handleAttach: the return of Attach, the insertion, the start of the watcher. *)
Definition attach_returned (id : Z) (a : Z * Z) (p : Life) : Life := at_handler id (HAttached a) (set_created ({[a]} ∪ pl_created p) p).
Definition attach_insert (id : Z) (a : Z * Z) (p : Life) : Life := at_handler id (HInserted a) (set_table (<[id := a]> (pl_table p)) p).
Definition attach_watched (id : Z) (a : Z * Z) (p : Life) : Life := handler_ends id (set_watchers ({[a]} ∪ pl_watchers p) p).
Definition cleanup_section (id : Z) (a : Z * Z) (p : Life) : Life := at_handler id (HClosing a) (delete_own id a p).

(** handleDetach's critical section: it continues only when it found one. *)
Definition detach_section (id : Z) (p : Life) : Life :=
  match pl_table p !! id with
  | Some a => at_handler id (HClosing a) (set_table (delete id (pl_table p)) p)
  | None => p
  end.

(** [attachment.Close] *)
Definition close_attachment (a : Z * Z) (p : Life) : Life := set_closed ({[a]} ∪ pl_closed p) p.

(** watchAttachment when the attachment is done. *)
Definition watch_done (a : Z * Z) (p : Life) : Life := delete_own a.1 a (set_watchers (pl_watchers p ∖ {[a]}) p).

(** [Close]'s critical section, which lists the table in some order. *)
Definition close_section (values : list (Z * Z)) (p : Life) : Life := set_close (pl_cancelled p) (LClose values values) (set_table ∅ p).

Inductive life_step : Life -> Life -> Prop :=
| li_checked id p : pl_handlers p !! id = None -> pl_table p !! id = None -> life_step p (at_handler id HChecked p)
| li_attach_failed id p : pl_handlers p !! id = Some HChecked -> life_step p (handler_ends id p)
| li_attached id a p : pl_handlers p !! id = Some HChecked -> a ∉ pl_created p -> a.1 = id -> life_step p (attach_returned id a p)
| li_inserted id a p : pl_handlers p !! id = Some (HAttached a) -> life_step p (attach_insert id a p)
| li_announced id a p : pl_handlers p !! id = Some (HInserted a) -> life_step p (attach_watched id a p)
| li_failed id a p : pl_handlers p !! id = Some (HInserted a) -> life_step p (at_handler id (HCleanup a) p)
| li_cleanup id a p : pl_handlers p !! id = Some (HCleanup a) -> life_step p (cleanup_section id a p)
| li_closing id a p : pl_handlers p !! id = Some (HClosing a) -> life_step p (handler_ends id (close_attachment a p))
| li_detach id p : pl_handlers p !! id = None -> life_step p (detach_section id p)
| li_watched a p : a ∈ pl_watchers p -> a ∈ pl_done p -> life_step p (watch_done a p)
| li_unwatched a p : a ∈ pl_watchers p -> pl_cancelled p = true -> life_step p (set_watchers (pl_watchers p ∖ {[a]}) p)
(* the attachment ends: closed, cancelled, overflowed, its session over *)
| li_ends a p : a ∈ pl_created p -> life_step p (set_done ({[a]} ∪ pl_done p) p)
(* Close *)
| li_cancel p : pl_close p = LIdle -> life_step p (set_close true LCancelled p)
| li_section values p : pl_close p = LCancelled -> values ≡ₚ (map_to_list (pl_table p)).*2 -> life_step p (close_section values p)
| li_close values a rest p : pl_close p = LClose values (a :: rest) ->
    life_step p (set_close (pl_cancelled p) (LClose values rest) (close_attachment a p))
| li_returned values p : pl_close p = LClose values [] -> (forall a, a ∈ values -> a ∈ pl_done p) ->
    life_step p (set_close (pl_cancelled p) (LReturned values) p).

Inductive life_reachable : Life -> Prop :=
| lr_start : life_reachable initial_life
| lr_step p p' : life_reachable p -> life_step p p' -> life_reachable p'.

(** ** Invariant *)

(** The attachment a handler holds. *)
Definition holds (pc : handler_pc) : option (Z * Z) :=
  match pc with HChecked => None | HAttached a | HInserted a | HCleanup a | HClosing a => Some a end.
(** What Close has still to close. *)
Definition to_close (p : Life) : list (Z * Z) := match pl_close p with LClose _ rest => rest | _ => [] end.

Definition held (h : option handler_pc) : option (Z * Z) := h ≫= holds.

(** One stream: its entry and its handler agree, a live attachment has who will
    close it, and an entry at rest has a watcher, while the protocol is open. *)
Record stream_ok (p : Life) (id : Z) (t : option (Z * Z)) (h : option handler_pc) : Prop := {
  so_table a : t = Some a -> a.1 = id /\ a ∈ pl_created p;
  so_held a : held h = Some a -> a.1 = id /\ a ∈ pl_created p;
  so_handler : match h with
    | None => forall a, t = Some a -> a ∈ pl_watchers p \/ pl_cancelled p = true
    | Some HChecked | Some (HClosing _) => t = None
    | Some (HAttached a) => t = None /\ a ∉ pl_watchers p
    | Some (HInserted a) | Some (HCleanup a) => (t = Some a \/ t = None /\ (a ∈ to_close p \/ a ∈ pl_closed p)) /\ a ∉ pl_watchers p
    end;
  so_live a : a.1 = id -> a ∈ pl_created p -> a ∈ pl_done p \/ a ∈ pl_closed p \/ a ∈ to_close p \/ t = Some a \/ held h = Some a;
}.

Record life_inv (p : Life) : Prop := {
  lf_stream id : stream_ok p id (pl_table p !! id) (pl_handlers p !! id);
  lf_watchers a : a ∈ pl_watchers p -> a ∈ pl_created p;
  lf_done a : a ∈ pl_done p -> a ∈ pl_created p;
  lf_close : match pl_close p with
    | LIdle => pl_cancelled p = false
    | LCancelled => pl_cancelled p = true
    | LClose values rest => pl_cancelled p = true /\ forall a, a ∈ values -> a ∈ pl_created p /\ (a ∈ rest \/ a ∈ pl_closed p)
    | LReturned values => pl_cancelled p = true /\ forall a, a ∈ values -> a ∈ pl_closed p /\ a ∈ pl_done p
    end;
}.

(** What a step leaves alone on a stream. *)
Record same_stream (p p' : Life) (id : Z) : Prop := {
  ss_created a : a.1 = id -> a ∈ pl_created p <-> a ∈ pl_created p';
  ss_watchers a : a.1 = id -> a ∈ pl_watchers p <-> a ∈ pl_watchers p';
  ss_done a : a ∈ pl_done p -> a ∈ pl_done p';
  ss_closed a : a ∈ pl_closed p -> a ∈ pl_closed p';
  ss_cancelled : pl_cancelled p = true -> pl_cancelled p' = true;
  ss_to_close a : a ∈ to_close p -> a ∈ to_close p' \/ a ∈ pl_closed p';
}.

Lemma same_stream_ok p p' id t h : same_stream p p' id -> stream_ok p id t h -> stream_ok p' id t h.
Proof.
  intros [Hc Hw Hd Hcl Hca Hto] [St Sh Shd Sl]. split.
  - intros a E. destruct (St a E) as [Ha ?]. split; [done|]. by apply Hc.
  - intros a E. destruct (Sh a E) as [Ha ?]. split; [done|]. by apply Hc.
  - destruct h as [[|a|a|a|a]|]; try done.
    + destruct (Sh a eq_refl) as [Ha _]. by rewrite <- (Hw a Ha).
    + destruct (Sh a eq_refl) as [Ha _]. rewrite <- (Hw a Ha). destruct Shd as [[?|[? [?|?]]] ?]; split; auto.
    + destruct (Sh a eq_refl) as [Ha _]. rewrite <- (Hw a Ha). destruct Shd as [[?|[? [?|?]]] ?]; split; auto.
    + intros a E. destruct (St a E) as [Ha _]. rewrite <- (Hw a Ha). destruct (Shd a E); auto.
  - intros a Ha Hin. destruct (Sl a Ha) as [?|[?|[Hin'|?]]]; [by apply Hc|auto..]. destruct (Hto a Hin'); auto.
Qed.

(** A step on stream [id]. *)
Lemma life_inv_stream p p' id : life_inv p ->
  (forall i, i <> id -> same_stream p p' i /\ pl_table p' !! i = pl_table p !! i /\ pl_handlers p' !! i = pl_handlers p !! i) ->
  stream_ok p' id (pl_table p' !! id) (pl_handlers p' !! id) ->
  (forall a, a ∈ pl_watchers p' -> a ∈ pl_created p') -> (forall a, a ∈ pl_done p' -> a ∈ pl_created p') ->
  pl_close p' = pl_close p -> pl_cancelled p' = pl_cancelled p -> (forall a, a ∈ pl_created p -> a ∈ pl_created p') ->
  (forall a, a ∈ pl_closed p -> a ∈ pl_closed p') -> (forall a, a ∈ pl_done p -> a ∈ pl_done p') -> life_inv p'.
Proof.
  intros [Is Iw Id Ic] Ho Hid Hw Hd E1 E2 Hcr Hc Hdn. split; [|done|done|].
  - intros i. destruct (decide (i = id)) as [->|Hne]; [done|]. destruct (Ho i Hne) as (Hs & -> & ->). by eapply same_stream_ok.
  - rewrite E1, E2. destruct (pl_close p); try done; destruct Ic as [? Ic]; (split; [done|]); intros a Ha; destruct (Ic a Ha) as [? Hx];
    [destruct Hx|]; auto.
Qed.

(** The other streams, when only [id]'s own things change. *)
Ltac other_streams :=
  let i := fresh "i" in let Hne := fresh "Hne" in intros i Hne; split; [split; cbn; try done; set_solver|split; cbn;
    rewrite ?lookup_insert_ne, ?lookup_delete_ne by congruence; done].

Lemma checked_inv id p : life_inv p -> pl_handlers p !! id = None -> pl_table p !! id = None -> life_inv (at_handler id HChecked p).
Proof.
  intros I Hh Ht. destruct (lf_stream _ I id) as [St Sh Shd Sl]. rewrite Hh, Ht in *.
  apply (life_inv_stream p _ id I); try (apply I); try done; [other_streams|].
  cbn. rewrite lookup_insert_eq, Ht. by split.
Qed.

Lemma attach_failed_inv id p : life_inv p -> pl_handlers p !! id = Some HChecked -> life_inv (handler_ends id p).
Proof.
  intros I Hh. destruct (lf_stream _ I id) as [St Sh Shd Sl]. rewrite Hh in *.
  apply (life_inv_stream p _ id I); try (apply I); try done; [other_streams|].
  cbn. rewrite lookup_delete_eq. split; try done. intros a E. congruence.
Qed.

Lemma attached_inv id a p : life_inv p -> pl_handlers p !! id = Some HChecked -> a ∉ pl_created p -> a.1 = id ->
  life_inv (attach_returned id a p).
Proof.
  intros I Hh Ha Hid. destruct (lf_stream _ I id) as [St Sh Shd Sl]. rewrite Hh in *.
  pose proof (lf_watchers _ I) as Hw. pose proof (lf_done _ I) as Hd.
  apply (life_inv_stream p _ id I); try done; [other_streams| |cbn; set_solver..].
  cbn. rewrite lookup_insert_eq. split; cbn.
  - intros b E. congruence.
  - intros b [= <-]. set_solver.
  - split; [done|]. by intros ?%Hw.
  - intros b Hb [->%elem_of_singleton|Hin]%elem_of_union; [by auto 6|]. destruct (Sl b Hb Hin) as [?|[?|[?|[?|[=]]]]]; auto.
Qed.

Lemma inserted_inv id a p : life_inv p -> pl_handlers p !! id = Some (HAttached a) -> life_inv (attach_insert id a p).
Proof.
  intros I Hh. destruct (lf_stream _ I id) as [St Sh Shd Sl]. rewrite Hh in *. destruct Shd as [Ht Hw]. rewrite Ht in Sl.
  apply (life_inv_stream p _ id I); try (apply I); try done; [other_streams|].
  cbn. rewrite !lookup_insert_eq. split; cbn.
  - intros b [= <-]. by apply Sh.
  - intros b [= <-]. by apply Sh.
  - auto.
  - intros b Hb Hin. destruct (Sl b Hb Hin) as [?|[?|[?|[[=]|[= ->]]]]]; auto.
Qed.

Lemma announced_inv id a p : life_inv p -> pl_handlers p !! id = Some (HInserted a) -> life_inv (attach_watched id a p).
Proof.
  intros I Hh. destruct (lf_stream _ I id) as [St Sh Shd Sl]. rewrite Hh in *. destruct Shd as [Ht Hw].
  pose proof (lf_watchers _ I) as Hwc. destruct (Sh a eq_refl) as [Hid Ha].
  apply (life_inv_stream p _ id I); try (apply I); try done; [other_streams| |cbn; set_solver].
  cbn. rewrite lookup_delete_eq. split; cbn; try done.
  - intros b E. destruct Ht as [Ht|[Ht Hc]]; [|congruence]. left. rewrite Ht in E. injection E as <-. set_solver.
  - intros b Hb Hin. destruct (Sl b Hb Hin) as [?|[?|[?|[?|[= <-]]]]]; auto. destruct Ht as [Ht|[_ [?|?]]]; auto.
Qed.

Lemma failed_inv id a p : life_inv p -> pl_handlers p !! id = Some (HInserted a) -> life_inv (at_handler id (HCleanup a) p).
Proof.
  intros I Hh. destruct (lf_stream _ I id) as [St Sh Shd Sl]. rewrite Hh in *.
  apply (life_inv_stream p _ id I); try (apply I); try done; [other_streams|].
  cbn. rewrite lookup_insert_eq. by split.
Qed.

Lemma cleanup_inv id a p : life_inv p -> pl_handlers p !! id = Some (HCleanup a) -> life_inv (cleanup_section id a p).
Proof.
  intros I Hh. destruct (lf_stream _ I id) as [St Sh Shd Sl]. rewrite Hh in *. destruct Shd as [Ht Hw].
  assert (cleanup_section id a p = at_handler id (HClosing a) (set_table (delete id (pl_table p)) p)) as ->.
  { unfold cleanup_section, delete_own. case_bool_decide as E; [done|]. destruct Ht as [?|[Ht _]]; [done|].
    rewrite delete_id by done. by destruct p. }
  apply (life_inv_stream p _ id I); try (apply I); try done; [other_streams|].
  cbn. rewrite lookup_insert_eq, lookup_delete_eq. split; cbn; try done.
  intros b Hb Hin. destruct (Sl b Hb Hin) as [?|[?|[?|[E|[= <-]]]]]; auto.
  destruct Ht as [Ht|[Ht _]]; rewrite Ht in E; [|done]. injection E as <-. auto 6.
Qed.

Lemma closing_inv id a p : life_inv p -> pl_handlers p !! id = Some (HClosing a) -> life_inv (handler_ends id (close_attachment a p)).
Proof.
  intros I Hh. destruct (lf_stream _ I id) as [St Sh Shd Sl]. rewrite Hh in *.
  apply (life_inv_stream p _ id I); try (apply I); try done; [other_streams| |cbn; set_solver].
  cbn. rewrite lookup_delete_eq. split; cbn; try done.
  - intros b E. congruence.
  - intros b Hb Hin. destruct (Sl b Hb Hin) as [?|[?|[?|[?|[= <-]]]]]; auto; set_solver.
Qed.

Lemma detach_inv id p : life_inv p -> pl_handlers p !! id = None -> life_inv (detach_section id p).
Proof.
  intros I Hh. unfold detach_section. destruct (pl_table p !! id) as [a|] eqn:Ht; [|done].
  destruct (lf_stream _ I id) as [St Sh Shd Sl]. rewrite Hh, Ht in *.
  apply (life_inv_stream p _ id I); try (apply I); try done; [other_streams|].
  cbn. rewrite lookup_insert_eq, lookup_delete_eq. split; cbn; try done.
  intros b Hb Hin. destruct (Sl b Hb Hin) as [?|[?|[?|[[= <-]|[=]]]]]; auto 6.
Qed.

Lemma unwatched_ok a p id t h : stream_ok p id t h -> a.1 = id -> (forall b, t = Some b -> h = None -> b = a -> pl_cancelled p = true) ->
  stream_ok (set_watchers (pl_watchers p ∖ {[a]}) p) id t h.
Proof.
  intros [St Sh Shd Sl] Ha Hc. split; cbn; try done. destruct h as [[|b|b|b|b]|]; try done.
  - destruct Shd as [? Hb]. split; [done|]. by intros [? _]%elem_of_difference.
  - destruct Shd as [? Hb]. split; [done|]. by intros [? _]%elem_of_difference.
  - destruct Shd as [? Hb]. split; [done|]. by intros [? _]%elem_of_difference.
  - intros b E. destruct (decide (b = a)) as [->|Hne]; [right; by apply (Hc a)|].
    destruct (Shd b E) as [?|?]; [left|by right]. apply elem_of_difference. split; [done|]. by intros ->%elem_of_singleton.
Qed.

Lemma unwatched_other a p i : i <> a.1 -> same_stream p (set_watchers (pl_watchers p ∖ {[a]}) p) i.
Proof.
  intros Hne. split; cbn; try done; [|by left]. intros b Hb. rewrite elem_of_difference, elem_of_singleton.
  split; [|by intros [? _]]. intros ?. split; [done|]. intros ->. congruence.
Qed.

Lemma watchers_less a p : life_inv p -> forall b, b ∈ pl_watchers p ∖ {[a]} -> b ∈ pl_created p.
Proof. intros I b [Hb _]%elem_of_difference. by apply (lf_watchers _ I). Qed.

Lemma watched_inv a p : life_inv p -> a ∈ pl_watchers p -> a ∈ pl_done p -> life_inv (watch_done a p).
Proof.
  intros I Hw Hd. unfold watch_done, delete_own. cbn. case_bool_decide as E.
  - apply (life_inv_stream p _ a.1 I); try (apply I); try done; [| |by apply watchers_less].
    + intros i Hne. destruct (unwatched_other a p i Hne) as []. split; [by split|]. cbn. by rewrite lookup_delete_ne.
    + destruct (lf_stream _ I a.1) as [St Sh Shd Sl]. cbn. rewrite lookup_delete_eq, E in *. split; cbn; try done.
      * destruct (pl_handlers p !! a.1) as [[|b|b|b|b]|]; try done; cbn in *.
        -- by destruct Shd.
        -- by destruct Shd as [[[= <-]|[[=] _]] Hb].
        -- by destruct Shd as [[[= <-]|[[=] _]] Hb].
      * intros b Hb Hin. destruct (Sl b Hb Hin) as [?|[?|[?|[[= <-]|?]]]]; auto.
  - apply (life_inv_stream p _ a.1 I); try (apply I); try done; [| |by apply watchers_less].
    + intros i Hne. split; [by apply unwatched_other|done].
    + apply unwatched_ok; [apply I|done|]. intros b Hb _ ->. done.
Qed.

Lemma unwatched_inv a p : life_inv p -> pl_cancelled p = true -> life_inv (set_watchers (pl_watchers p ∖ {[a]}) p).
Proof.
  intros I Hc. apply (life_inv_stream p _ a.1 I); try (apply I); try done; [| |by apply watchers_less].
  - intros i Hne. split; [by apply unwatched_other|done].
  - by apply unwatched_ok; [apply I|..].
Qed.

(** *** The other steps *)

Lemma life_inv_close p p' : life_inv p -> pl_handlers p' = pl_handlers p -> pl_table p' = pl_table p ->
  (forall id, same_stream p p' id) -> (forall a, a ∈ pl_watchers p' -> a ∈ pl_created p') ->
  (forall a, a ∈ pl_done p' -> a ∈ pl_created p') ->
  match pl_close p' with
    | LIdle => pl_cancelled p' = false
    | LCancelled => pl_cancelled p' = true
    | LClose values rest => pl_cancelled p' = true /\ forall a, a ∈ values -> a ∈ pl_created p' /\ (a ∈ rest \/ a ∈ pl_closed p')
    | LReturned values => pl_cancelled p' = true /\ forall a, a ∈ values -> a ∈ pl_closed p' /\ a ∈ pl_done p'
  end -> life_inv p'.
Proof.
  intros I Eh Et Hs Hw Hd Hc. split; [|done..]. intros id. rewrite Eh, Et. eapply same_stream_ok; [apply Hs|apply I].
Qed.

Lemma ends_inv a p : life_inv p -> a ∈ pl_created p -> life_inv (set_done ({[a]} ∪ pl_done p) p).
Proof.
  intros I Ha. pose proof (lf_close _ I) as Hc. apply (life_inv_close p _ I); cbn; try done.
  - intros id. split; cbn; try done; [|by left]. intros b Hb. apply elem_of_union. by right.
  - apply I.
  - intros b [->%elem_of_singleton|Hb]%elem_of_union; [done|by apply (lf_done _ I)].
  - destruct (pl_close p); try done. destruct Hc as [? Hc]. split; [done|]. intros b Hb. destruct (Hc b Hb). split; [done|].
    apply elem_of_union. by right.
Qed.

Lemma section_inv values p : life_inv p -> pl_close p = LCancelled -> values ≡ₚ (map_to_list (pl_table p)).*2 ->
  life_inv (close_section values p).
Proof.
  intros I Hcl Hv. pose proof (lf_close _ I) as Hc. rewrite Hcl in Hc.
  assert (forall id a, pl_table p !! id = Some a -> a ∈ values) as Hin.
  { intros id a Ha. rewrite Hv. apply list_elem_of_fmap. exists (id, a). split; [done|]. by apply elem_of_map_to_list. }
  assert (to_close p = []) as Hto by (unfold to_close; by rewrite Hcl).
  split; cbn; [|apply I|apply I|split; [done|]].
  2: { intros a Ha. split; [|by left]. rewrite Hv in Ha. apply list_elem_of_fmap in Ha as ([id b] & -> & Hb%elem_of_map_to_list).
       by apply (so_table _ _ _ _ (lf_stream _ I id)). }
  intros id. destruct (lf_stream _ I id) as [St Sh Shd Sl]. rewrite lookup_empty. rewrite Hto in *. split; cbn; try done.
  - destruct (pl_handlers p !! id) as [[|a|a|a|a]|]; try done; destruct Shd as [Ht Hw]; try done;
      (split; [right; split; [done|]|done]); (destruct Ht as [Ht|[_ [?%elem_of_nil|?]]]; [left; exact (Hin _ _ Ht)|done|by right]).
  - intros b Hb Hb'. destruct (Sl b Hb Hb') as [?|[?|[[]%elem_of_nil|[Ht|?]]]]; auto 8. right; right; left. exact (Hin _ _ Ht).
Qed.

Lemma life_step_inv p p' : life_inv p -> life_step p p' -> life_inv p'.
Proof.
  intros I Hs. destruct Hs as [id p Hh Ht|id p Hh|id a p Hh Ha Hid|id a p Hh|id a p Hh|id a p Hh|id a p Hh|id a p Hh|id p Hh
    |a p Hw Hd|a p Hw Hc|a p Ha|p Hc|values p Hc Hv|values a rest p Hc|values p Hc Hd].
  - by apply checked_inv.
  - by apply attach_failed_inv.
  - by apply attached_inv.
  - by apply inserted_inv.
  - by apply announced_inv.
  - by apply failed_inv.
  - by apply cleanup_inv.
  - by apply closing_inv.
  - by apply detach_inv.
  - by apply watched_inv.
  - by apply unwatched_inv.
  - by apply ends_inv.
  - apply (life_inv_close p _ I); try done; [|apply I|apply I]. intros id. split; try done. intros b. unfold to_close. rewrite Hc. by intros []%elem_of_nil.
  - by apply section_inv.
  - pose proof (lf_close _ I) as Hcl. rewrite Hc in Hcl. destruct Hcl as [Hca Hv].
    apply (life_inv_close p _ I); cbn; try done; [|apply I|apply I|].
    + intros id. split; cbn; try done; [intros b Hb; apply elem_of_union; by right|]. intros b. unfold to_close. rewrite Hc. cbn.
      intros [->|?]%elem_of_cons; [right; apply elem_of_union_l, elem_of_singleton; done|by left].
    + split; [done|]. intros b Hb. rewrite elem_of_union, elem_of_singleton.
      destruct (Hv b Hb) as [? [[->|?]%elem_of_cons|?]]; auto.
  - pose proof (lf_close _ I) as Hcl. rewrite Hc in Hcl. destruct Hcl as [Hca Hv].
    apply (life_inv_close p _ I); cbn; try done; [|apply I|apply I|].
    { intros id. split; try done. intros b. unfold to_close. rewrite Hc. by intros ?%elem_of_nil. }
    split; [done|]. intros b Hb. split; [|auto].
    by destruct (Hv b Hb) as [? [?%elem_of_nil|?]].
Qed.

Lemma life_reachable_inv p : life_reachable p -> life_inv p.
Proof. induction 1 as [|p p' _ IH Hs]; [|by eapply life_step_inv]. split; cbn; try done. intros id. rewrite !lookup_empty. by split. Qed.

(** ** What the protocol promises about its attachments *)

Lemma life_rtc_reachable p p' : life_reachable p -> rtc life_step p p' -> life_reachable p'.
Proof. intros Hr. induction 1 as [|p p1 p' Hs _ IH]; [done|]. apply IH. by eapply lr_step. Qed.

(** Attachments that exist can end. *)
Lemma ends_rtc (l : list (Z * Z)) p : (forall a, a ∈ l -> a ∈ pl_created p) ->
  exists p', rtc life_step p p' /\ pl_close p' = pl_close p /\ forall a, a ∈ l -> a ∈ pl_done p'.
Proof.
  revert p. induction l as [|a l IH]; intros p Hl; [exists p; split_and!; [done..|by intros a ?%elem_of_nil]|].
  assert (life_step p (set_done ({[a]} ∪ pl_done p) p)) as Hs by (apply li_ends, Hl; left).
  destruct (IH (set_done ({[a]} ∪ pl_done p) p)) as (p' & Hq & Hc & Hd); [intros b Hb; apply Hl; by right|].
  assert (forall b, b ∈ pl_done (set_done ({[a]} ∪ pl_done p) p) -> b ∈ pl_done p') as Hmono.
  { clear -Hq. induction Hq as [|q q1 q' Hs _ IH]; [done|]. intros b Hb. apply IH. destruct Hs; try done; cbn; try (apply elem_of_union; by right).
    - unfold cleanup_section, delete_own. cbn. by case_bool_decide.
    - unfold detach_section. by case_match.
    - unfold watch_done, delete_own. by case_bool_decide. }
  exists p'. split_and!; [by eapply rtc_l|done|]. intros b [->|Hb]%elem_of_cons; [|by apply Hd].
  apply Hmono. cbn. apply elem_of_union. left. by apply elem_of_singleton.
Qed.

Lemma close_loop values rest p : life_reachable p -> pl_close p = LClose values rest ->
  exists p', rtc life_step p p' /\ pl_close p' = LReturned values.
Proof.
  revert p. induction rest as [|a rest IH]; intros p Hr Hc.
  - pose proof (lf_close _ (life_reachable_inv p Hr)) as Hcl. rewrite Hc in Hcl. destruct Hcl as [_ Hv].
    destruct (ends_rtc values p) as (p1 & Hq & Hc1 & Hd); [intros a Ha; by apply Hv|].
    eexists. split; [eapply rtc_r; [exact Hq|]|]; [apply (li_returned values); [by rewrite Hc1|exact Hd]|done].
  - assert (life_step p (set_close (pl_cancelled p) (LClose values rest) (close_attachment a p))) as Hs by by apply li_close.
    destruct (IH (set_close (pl_cancelled p) (LClose values rest) (close_attachment a p))) as (p' & Hq & E);
      [by eapply lr_step|done|]. exists p'. split; [by eapply rtc_l|done].
Qed.

(** C19. The attachments of a connection, whatever the interleaving of its handlers,
    the watchers of its attachments and Close. A stream has at most one attachment
    in the table, its own. No attachment is lost: each one Attach has returned has
    ended, has been closed, is to be closed by Close, is in the table, or is held by
    the handler that made it or takes it out. Until Close begins an ended attachment
    does not block its stream: its entry can be removed. Close can always return,
    and then the attachments it found are closed and done. *)
Theorem protocol_attachments p : life_reachable p ->
  (forall id a, pl_table p !! id = Some a -> a.1 = id /\ a ∈ pl_created p) /\
  (forall a, a ∈ pl_created p -> a ∈ pl_done p \/ a ∈ pl_closed p \/ a ∈ to_close p \/
     pl_table p !! a.1 = Some a \/ held (pl_handlers p !! a.1) = Some a) /\
  (forall id a, pl_cancelled p = false -> pl_table p !! id = Some a -> pl_handlers p !! id = None -> a ∈ pl_done p ->
     exists p', life_step p p' /\ pl_table p' !! id = None) /\
  (pl_close p <> LIdle -> exists p' values, rtc life_step p p' /\ pl_close p' = LReturned values) /\
  (forall values, pl_close p = LReturned values -> forall a, a ∈ values -> a ∈ pl_closed p /\ a ∈ pl_done p).
Proof.
  intros Hr. pose proof (life_reachable_inv p Hr) as I. split_and!.
  - intros id. apply (so_table _ _ _ _ (lf_stream _ I id)).
  - intros a. by apply (so_live _ _ _ _ (lf_stream _ I a.1)).
  - intros id a Hc Ht Hh Hd. pose proof (so_handler _ _ _ _ (lf_stream _ I id)) as Hw. rewrite Hh in Hw.
    destruct (Hw a Ht) as [Ha|?]; [|congruence]. destruct (so_table _ _ _ _ (lf_stream _ I id) a Ht) as [Hid _].
    exists (watch_done a p). split; [by apply li_watched|]. unfold watch_done, delete_own. cbn. rewrite Hid, bool_decide_true by done.
    cbn. apply lookup_delete_eq.
  - intros Hn. destruct (pl_close p) as [| |values rest|values] eqn:Hc; [done|..].
    + set (values := (map_to_list (pl_table p)).*2). assert (life_step p (close_section values p)) as Hs by by apply li_section.
      destruct (close_loop values values (close_section values p)) as (p' & Hq & E); [by eapply lr_step|done|].
      exists p', values. split; [by eapply rtc_l|done].
    + destruct (close_loop values rest p Hr Hc) as (p' & Hq & E). by exists p', values.
    + by exists p, values.
  - intros values Hc. pose proof (lf_close _ I) as Hcl. rewrite Hc in Hcl. apply Hcl.
Qed.

(** ** The same table

    Alone, a critical section leaves the table the actions of ProtocolHandlers.v
    leave. *)

Section Tables.
Context {P M : Type} `{ManagerAPI M}.
Implicit Types w : World P M.

Lemma watch_section_table id a w p : pl_table p = w_attachments w ->
  pl_table (delete_own id a p) = w_attachments (watch_section id a w).2.
Proof.
  intros E. unfold delete_own, watch_section, bind, get_attachments. cbn. rewrite E. by case_bool_decide.
Qed.

Lemma cleanup_table id a w p : pl_table p = w_attachments w ->
  pl_table (cleanup_section id a p) = w_attachments (cleanup id a w).2.
Proof.
  intros E. unfold cleanup_section, delete_own, cleanup, bind, get_attachments. cbn. rewrite E. by case_bool_decide.
Qed.

Lemma Close_section_table w p : pl_table p = w_attachments w ->
  (Close_section w).1 = (map_to_list (pl_table p)).*2 /\
  pl_table (close_section (Close_section w).1 p) = w_attachments (Close_section w).2.
Proof. intros E. unfold Close_section, bind, get_attachments. cbn. by rewrite E. Qed.
End Tables.

(** ** Example: Close during handleAttach

    The attachment that the handler inserts after Close's critical section is not
    among those Close closes and waits for; it ends with the cancelled context, but
    Close can return before. *)

Definition demo_life : Life :=
  let p := at_handler 1 HChecked initial_life in
  let p := attach_returned 1 (1, 7) p in
  let p := attach_insert 1 (1, 7) (close_section [] (set_close true LCancelled p)) in
  set_close (pl_cancelled p) (LReturned []) p.

Lemma demo_life_reachable : life_reachable demo_life.
Proof.
  unfold demo_life. cbv zeta. eapply lr_step; [|by apply li_returned; [|intros a ?%elem_of_nil]].
  eapply lr_step; [|apply li_inserted; reflexivity]. eapply lr_step; [|apply li_section; [reflexivity|done]].
  eapply lr_step; [|by apply li_cancel]. eapply lr_step; [|by apply li_attached].
  eapply lr_step; [apply lr_start|by apply li_checked].
Qed.

Example close_misses_attachment : life_reachable demo_life /\ pl_close demo_life = LReturned [] /\
  pl_table demo_life !! 1 = Some (1, 7) /\ (1, 7) ∉ pl_closed demo_life /\ (1, 7) ∉ pl_done demo_life.
Proof. split; [exact demo_life_reachable|]. split_and!; try done; vm_compute; intros [=]. Qed.

Lemma protocol_attachments_witness : pl_table demo_life !! 1 = Some (1, 7) /\ (1, 7) ∈ pl_created demo_life /\
  exists p' values, rtc life_step demo_life p' /\ pl_close p' = LReturned values.
Proof.
  destruct (protocol_attachments demo_life demo_life_reachable) as (Ht & _ & _ & Hc & _).
  split; [reflexivity|]. split; [apply (Ht 1 (1, 7)); reflexivity|apply Hc; discriminate].
Defined.
